(* ===== verification/_CoqProject ===== *)
-Q . S2P
Prelude.v
CStr.v
Scan.v
Getopt.v
GetoptProps.v
TestCmd.v
TestProps.v
Source.v
Chars.v
Tree.v
TreeTypes.v
VarHash.v
Vartab.v
VartabSearch.v
VartabProps.v
ArithParse.v
ArithTyped.v
ArithEval.v
LexState.v
Lexer.v
Grammar.v
ParseLogic.v
LexEnds.v
GrammarEnds.v
LexTyped.v
GrammarTyped.v
Scripts.v
Fnmatch.v
Byteset.v
Dfa.v
DfaParse.v
DfaRun.v
DfaMatch.v
DfaBack.v
DfaReplace.v
DfaSubst.v
DfaProps.v
ExprCmd.v
ExprProps.v
Sed.v
SedParse.v
SedRun.v
SedFlow.v
SedLines.v
SedText.v
SedProps.v
Wordlist.v
WordlistProps.v
Braces.v
Tilde.v
Expand.v
ExpandStore.v
ExpandProps.v
ExpandFields.v
ExpandArith.v
VartabStore.v
EvalState.v
Eval.v
EvalFlow.v
EvalScope.v
EvalSafe.v
EvalFuel.v
EvalProps.v
