(* ===== verification/Prelude.v ===== *)
(** * A verification library for shish, a small POSIX shell

    shish (src/) reads text, parses it into a syntax tree, expands words and
    evaluates the tree; the builtins sed, awk, grep and expr bring a regular
    expression engine, and sed a language of its own.  This library translates
    those parts into definitions the kernel can run and proves what they
    promise.

    ** The parts and the files that model them

    - Strings: [CStr] models the comparisons and searches of lib/str.
    - Numbers in text: [Scan] models lib/scan, lib/fmt (scan_longlong,
      scan_uint, fmt_longlong, ...).
    - The input: [Source] models src/source (source_peekn, source_skip,
      source_get): characters with look-ahead, line continuations removed.
    - The syntax tree: [Tree] models src/tree.h and src/tree (nodes, flags,
      tree_copy); [TreeTypes] says which node may stand where.
    - The parser: [Chars] the character classes (parse_chartable.c);
      [ArithParse] the grammar of "$((...))" (parse_arith_*.c) and of
      parameters (parse_param.c); [LexState] the parser record (parse.h);
      [Lexer] words, quotes, substitutions and tokens (parse_word.c ...
      parse_gettok.c, redir_parse.c, sh_unescape.c); [Grammar] the productions
      of commands (parse_list.c ... parse_function.c) and the reading half of
      sh_loop.c.  The lexer and the grammar call each other: each is written
      over the record [calls] of the other's entry points, and [Grammar.grammar]
      ties the knot.  Proofs: [ParseLogic] (weakest preconditions for the
      parser's monad), [LexEnds], [GrammarEnds] (the parser ends), [ArithTyped],
      [LexTyped], [GrammarTyped] (what it returns is well formed); [Scripts]
      runs it on texts.
    - Variables: [VarHash] the two hashes of a name (var_lexhash.c,
      var_rndhash.c); [Vartab] the stack of hash tables and the builtins
      export, readonly, local and unset (src/var, src/vartab); proofs in
      [VartabSearch] and [VartabProps].
    - Arithmetic: [ArithEval] models expand_arith_*.c over a store of
      variables (class [ArithEnv]); the pow of C behind "**" is a parameter.
      [ExpandArith] runs it in the engine of word expansion, [VartabStore] with
      the hash tables of [Vartab] as the store.
    - Patterns: [Fnmatch] models lib/path/path_fnmatch.c and its language.
    - Fields: [Wordlist] models src/wordlist (the sink that splits at IFS,
      quotes and globs); [WordlistProps] relates it to POSIX field splitting.
    - Word expansion: [Braces], [Tilde] and [Expand] model src/expand over the
      class [ExpandEnv] (variables, parameters, options, command output);
      [ExpandStore] is an instance; proofs in [ExpandProps], [ExpandFields].
    - Evaluation: [EvalState] models the frames of eval.h, the environments
      of sh.h and the non-local jumps; [Eval] the functions of src/eval, of
      exec_command.c and exec_search.c, the builtins that jump and "command".
      What an evaluation does besides (words, variables, descriptors, processes,
      other builtins) is the class [World]; its operations say whether an
      expansion ended the shell and whether a builtin that ran commands passes
      a jump of theirs on.  Proofs: [EvalFlow] (a logic of the stacks), [EvalScope]
      (frames pushed around a computation), [EvalSafe] (every function keeps
      them), [EvalFuel], [EvalProps].
    - Regular expressions: [Byteset] models lib/byteset; [Dfa] the parser to
      bytecode (dfa_parse.c, dfa_bracket.c, dfa_emit.c, dfa_compile.c);
      [DfaRun] the two engines (dfa_run.c, dfa_bt.c) and the functions of
      dfa.h; [DfaReplace] templates and the loop of s/// (dfa_replace.c).
      Proofs: [DfaParse] (what compiling returns), [DfaMatch] (the simulation
      against reachability), [DfaBack] (the backtracker), [DfaSubst]
      (replacement over the class [engine_ok]), [DfaProps].
    - sed: [Sed] models sed_compile (sed_parse.c, sed_addr.c, sed_subst.c,
      sed_text.c, sed_wfile.c); [SedRun] the run of a program (sed_cycle.c,
      sed_list.c and the matching halves of sed_addr.c and sed_subst.c), over
      the class [SedIO] of the callbacks of sed.h.  Proofs: [SedParse] (what
      compiling returns), [SedFlow] (the flow of a run over [SedInput], a source
      of finitely many lines), [SedLines] (what one command makes of a text,
      over [SedOutput]), [SedText] (the programs of simple scripts),
      [SedProps].
    - Builtins that evaluate their operands: [TestCmd] models builtin_test.c
      over the class [Files] (stat, lstat, access, isatty), [ExprCmd]
      builtin_expr.c; proofs in [TestProps] and [ExprProps].
    - Options: [Getopt] models lib/shell/shell_getopt.c, [GetoptProps] what a
      whole list of options is read as.

    ** How they interact

    [Source] feeds [Lexer]; [Lexer] and [Grammar] build [Tree]; [Eval] walks it
    and calls the operations of [World] for words, which [Expand] describes;
    [Expand] puts chunks of text into a [Wordlist], evaluates arithmetic with
    [ArithEval] and patterns with [Fnmatch].  Where two parts meet, the client
    is proved against a class: [SubstParsers]/[SubstOk] (the arithmetic parser
    against the lexer, discharged by [GrammarEnds.lexer_subst_ok]), [ArithEnv]
    and [ExpandEnv] (against variables), [World] (the evaluator against
    everything below), [engine_ok] (replacement against the matcher, discharged
    by [DfaSubst.run_engine_ok]), [ArithEnvOk] (arithmetic against the engine
    that expands its operands, discharged by [ExpandArith.arith_env_ok] from
    [ExpandStoreOk], and that by [VartabStore.table_env_ok]), [SedIO] and its laws [SedInput] and [SedOutput]
    (sed against the caller's files; [SedProps.files_output] is an instance).

    ** What the theorems show

    - Parsing: ends on every text, and returns well-formed trees; looking
      ahead shows the text without its continuations.
    - Evaluation: keeps the stack of frames and the chain of environments; a
      jump goes to a live frame that may be its target; subshells and function
      calls are contained; break, continue, exit, loops and case do what they
      say; the fuel does not matter.
    - Expansion: ends; "$@", "$x" and $x give the fields POSIX asks for;
      trimming and ranges take the part they denote (trimming: for patterns
      without brackets); quoted text is literal in patterns; the matcher
      decides what "*" stands for, over the elements [match_one] reads.
    - Variables: the tables are a map; assignment reads back; locals leave with
      their function; read-only variables stay.  Assignment is about stacks in
      which the search finds its way ([reachable], [scoped]); the examples show
      how the shell can leave them.
    - Arithmetic: exact where C is defined ("**" apart); assignments read back.
    - Regular expressions: compiling ends and, with at most 64 bytes "|" in the
      pattern, gives a program that cannot leave its arrays.  For such patterns
      without back-references, and subjects that fit the counter: a search returns the leftmost longest match; the engines
      agree; a replacement exchanges the matches and nothing else.
    - sed: every script compiles to a program whose jumps and payloads are there,
      or gives an error; programs whose branches lead forward end; s, /re/p, M,Np
      and y do to every line what they denote; what l writes can be read back.
    - test and expr: an expression written with the parentheses its operators
      need is evaluated as it was meant; test takes the middle one of three
      words for the operator whatever the others are, and "!" in front of up to
      three words turns their answer around; expr is exact while its
      results fit in 64 bits; ":" prints the length of the longest match.
    - Options: a list written from options is read as those options, up to the
      first operand; reading any list ends.

    The examples next to the theorems record where the code departs from its
    documentation or from POSIX.

    ** Fuel and bounds

    Recursion that is not structural takes a [nat].  The parser needs the
    length of the text plus two ([Grammar.grammar_fuel], [parse_script_ends]);
    arithmetic 20 times the text ([ArithParse.parse_fuel]); a pattern match
    [Fnmatch.fnmatch_fuel]; word expansion the nesting of the words
    ([expand_arg_ends]); the regular expression parser [Dfa.max_depth], the
    nesting limit of the code; the simulation one more than the program's
    length ([DfaRun.add_fuel]); a run of sed whose branches lead forward as many
    cycles as lines and one more, with as many steps as commands and one more
    ([sed_run_ends]).  The backtracker counts its steps itself
    (DFA_MAXSTEPS).  The grammars of test and expr take one more than the number
    of words, which bounds the parentheses that can be open ([test_status],
    [expr_status]); a call of shell_getopt passes over at most as many finished
    words as there are ([passes_enough]).  An evaluation may run for ever; [eval_tree_fuel_irrelevant]
    and [eval_loop_terminates] say what its fuel means.  A subject for the
    simulation must be short enough for the counter [gen] ([short_subject]).

    ** Not modelled

    - Traps, signals, job control, process groups and forks: what the
      operating system does behind pipelines, "&" and programs is an operation
      of [World], and so are the output of a command substitution and the
      tables of file descriptors.
    - Aliases, here-document bodies, comments kept for printing and source
      locations; tracing and "set -x"; prompt, history and line editing.
    - The sorted list of variables behind "export -p" and "set", the generator
      of $RANDOM, the passwd database.
    - Failure of allocations, and which buffer a string lives in, except where
      the code's behaviour depends on it.
    - The remaining builtins (the replacements of coreutils, getopts, printf,
      awk), which are I/O around the parts above or, as awk, languages of their
      own; filters, which call libraries. *)

(** * Prelude: what every component of the model shares

    C integers are [Z] with the wrap-around of their width written out
    ([u8], [u32], [u64], [i64]); a byte is a [Z] between 0 and 255, a C string
    is the [list Z] of the bytes before its terminator, and reading at or past
    the end of the list gives the terminator 0, exactly like [*p] on a
    NUL-terminated buffer. *)

From Stdlib Require Export ZArith Lia Ascii String.
From stdpp Require Export base numbers option list.

#[global] Open Scope Z_scope.

(** ** Machine integers *)

Definition u8 (z : Z) : Z := z mod 2 ^ 8.
Definition u16 (z : Z) : Z := z mod 2 ^ 16.
Definition u32 (z : Z) : Z := z mod 2 ^ 32.
Definition u64 (z : Z) : Z := z mod 2 ^ 64.
Definition i16 (z : Z) : Z := (z + 2 ^ 15) mod 2 ^ 16 - 2 ^ 15.
Definition i32 (z : Z) : Z := (z + 2 ^ 31) mod 2 ^ 32 - 2 ^ 31.
Definition i64 (z : Z) : Z := (z + 2 ^ 63) mod 2 ^ 64 - 2 ^ 63.

Definition INT64_MIN : Z := - 2 ^ 63.
Definition INT64_MAX : Z := 2 ^ 63 - 1.

(** A byte read as a [char], which is signed *)
Definition schar (c : Z) : Z := if c <? 128 then c else c - 256.

(** C truth values *)
Definition c_bool (b : bool) : Z := if b then 1 else 0.
Definition c_true (z : Z) : bool := negb (z =? 0).

Definition in_i64 (z : Z) : Prop := - 2 ^ 63 <= z < 2 ^ 63.
Definition in_u64 (z : Z) : Prop := 0 <= z < 2 ^ 64.
Definition is_byte (z : Z) : Prop := 0 <= z < 256.

#[export] Instance in_i64_dec z : Decision (in_i64 z).
Proof. unfold in_i64. apply _. Defined.
#[export] Instance is_byte_dec z : Decision (is_byte z).
Proof. unfold is_byte. apply _. Defined.

(** ** Bytes and C strings *)

Abbreviation bytes := (list Z).

Declare Scope shish_scope.
Delimit Scope shish_scope with shish.

Definition b_of_ascii (c : ascii) : Z := Z.of_N (N_of_ascii c).
Definition b (s : string) : bytes := List.map b_of_ascii (list_ascii_of_string s).
Definition ch (c : ascii) : Z := b_of_ascii c.
Arguments b s%_string_scope.
Arguments ch c%_char_scope.

(** [*(s + i)]: the terminator is what one reads at the end. *)
Definition cnth (s : bytes) (i : nat) : Z := nth i s 0.
Definition chd (s : bytes) : Z := cnth s 0.

(** A C string holds bytes, none of them NUL. *)
Definition cstring (s : bytes) : Prop := Forall (fun c => 0 < c < 256) s.

(** The text of a buffer read as a C string *)
Fixpoint cstr (s : bytes) : bytes :=
  match s with [] => [] | c :: s => if c =? 0 then [] else c :: cstr s end.

(** byte_chr(s, len, c) < len *)
Definition contains (c : Z) (s : bytes) : bool := existsb (Z.eqb c) s.

Definition c_isdigit (c : Z) : bool := (48 <=? c) && (c <=? 57).

(** ** Words of flags: [x & f], [x |= f], [x &= ~f] *)

Definition has (flags f : Z) : bool := negb (Z.land flags f =? 0).
Definition set (flags f : Z) : Z := Z.lor flags f.
Definition clear (flags f : Z) : Z := Z.land flags (Z.lnot f).

Lemma has_set (x y f : Z) : has (set x y) f = has x f || has y f.
Proof.
  unfold has, set. rewrite Z.land_lor_distr_l.
  destruct (Z.land x f =? 0) eqn:X, (Z.land y f =? 0) eqn:Y; cbn [negb orb];
    rewrite ?Z.eqb_eq, ?Z.eqb_neq, ?negb_true_iff, ?negb_false_iff in *;
    rewrite ?Z.eqb_neq, ?Z.eqb_eq, Z.lor_eq_0_iff; tauto.
Qed.

Lemma has_clear (x y f : Z) : Z.land y f = 0 -> has (clear x y) f = has x f.
Proof.
  intros D. unfold has, clear. do 2 f_equal. apply Z.bits_inj. intros i.
  rewrite !Z.land_spec. pose proof (f_equal (fun z => Z.testbit z i) D) as B. cbn beta in B.
  rewrite Z.land_spec, Z.bits_0 in B. destruct (Z_lt_le_dec i 0).
  - rewrite !(Z.testbit_neg_r _ i) by lia. reflexivity.
  - rewrite Z.lnot_spec by lia. destruct (Z.testbit x i), (Z.testbit y i), (Z.testbit f i); easy.
Qed.

Lemma has_union (x f g : Z) : has x (Z.lor f g) = has x f || has x g.
Proof.
  unfold has. rewrite !(Z.land_comm x), Z.land_lor_distr_l.
  pose proof (has_set f g x) as X. unfold has, set in X. rewrite Z.land_lor_distr_l in X. exact X.
Qed.

Lemma has_set_other x m g : Z.land m g = 0 -> has (set x m) g = has x g.
Proof. intros D. rewrite has_set. unfold has at 2. rewrite D. apply orb_false_r. Qed.

(** ** Tactics *)

(** Split on the test of the first [if] or [match] of the goal. *)
Ltac case_test :=
  match goal with
  | |- context [if ?c then _ else _] => destruct c eqn:?
  end.

(** Turn boolean comparisons on [Z] and [nat] in the context into arithmetic. *)
Ltac zify_bool :=
  repeat match goal with
  | H : (_ && _)%bool = true |- _ => apply andb_true_iff in H; destruct H
  | H : (_ || _)%bool = false |- _ => apply orb_false_iff in H; destruct H
  | H : negb _ = true |- _ => apply negb_true_iff in H
  | H : negb _ = false |- _ => apply negb_false_iff in H
  | H : (_ =? _) = true |- _ => apply Z.eqb_eq in H
  | H : (_ =? _) = false |- _ => apply Z.eqb_neq in H
  | H : (_ <? _) = true |- _ => apply Z.ltb_lt in H
  | H : (_ <? _) = false |- _ => apply Z.ltb_ge in H
  | H : (_ <=? _) = true |- _ => apply Z.leb_le in H
  | H : (_ <=? _) = false |- _ => apply Z.leb_gt in H
  | H : (_ >? _) = true |- _ => rewrite Z.gtb_ltb in H; apply Z.ltb_lt in H
  | H : (_ >? _) = false |- _ => rewrite Z.gtb_ltb in H; apply Z.ltb_ge in H
  | H : (_ >=? _) = true |- _ => rewrite Z.geb_leb in H; apply Z.leb_le in H
  | H : (_ >=? _) = false |- _ => rewrite Z.geb_leb in H; apply Z.leb_gt in H
  | H : (_ =? _)%nat = true |- _ => apply Nat.eqb_eq in H
  | H : (_ =? _)%nat = false |- _ => apply Nat.eqb_neq in H
  | H : (_ <? _)%nat = true |- _ => apply Nat.ltb_lt in H
  | H : (_ <? _)%nat = false |- _ => apply Nat.ltb_ge in H
  | H : (_ <=? _)%nat = true |- _ => apply Nat.leb_le in H
  | H : (_ <=? _)%nat = false |- _ => apply Nat.leb_gt in H
  end.

Ltac bool_lia := zify_bool; lia.

(** ** Word lemmas *)

Create HintDb words.

Lemma u8_range z : 0 <= u8 z < 256.
Proof. apply Z.mod_pos_bound. lia. Qed.

Lemma u64_range z : in_u64 (u64 z).
Proof. apply Z.mod_pos_bound. lia. Qed.

Lemma i64_range z : in_i64 (i64 z).
Proof. unfold in_i64, i64. pose proof (Z.mod_pos_bound (z + 2 ^ 63) (2 ^ 64)). lia. Qed.

Lemma u8_small z : 0 <= z < 256 -> u8 z = z.
Proof. apply Z.mod_small. Qed.

Lemma u32_small z : 0 <= z < 2 ^ 32 -> u32 z = z.
Proof. apply Z.mod_small. Qed.

Lemma u64_small z : in_u64 z -> u64 z = z.
Proof. apply Z.mod_small. Qed.

Lemma i64_small z : in_i64 z -> i64 z = z.
Proof. unfold in_i64, i64. intros. rewrite Z.mod_small; lia. Qed.

Lemma i64_u64 z : i64 (u64 z) = i64 z.
Proof. unfold i64, u64. by rewrite Zplus_mod_idemp_l. Qed.

Lemma u64_i64 z : u64 (i64 z) = u64 z.
Proof.
  unfold i64, u64. rewrite Zminus_mod_idemp_l. f_equal. lia.
Qed.

(** [i64] only sees its argument modulo 2{^64}: arithmetic may wrap in any order. *)
Lemma i64_add_l x y : i64 (i64 x + y) = i64 (x + y).
Proof.
  rewrite <-(i64_u64 (i64 x + y)), <-(i64_u64 (x + y)). f_equal.
  unfold u64. rewrite <-Zplus_mod_idemp_l. fold (u64 (i64 x)).
  rewrite u64_i64. unfold u64. apply Zplus_mod_idemp_l.
Qed.

Lemma i64_mul_l x y : i64 (i64 x * y) = i64 (x * y).
Proof.
  rewrite <-(i64_u64 (i64 x * y)), <-(i64_u64 (x * y)). f_equal.
  unfold u64. rewrite <-Zmult_mod_idemp_l. fold (u64 (i64 x)).
  rewrite u64_i64. unfold u64. apply Zmult_mod_idemp_l.
Qed.

Lemma i64_mul_l_add x y c : i64 (i64 x * y + c) = i64 (x * y + c).
Proof. by rewrite <-i64_add_l, i64_mul_l, i64_add_l. Qed.

Lemma i64_idemp x : i64 (i64 x) = i64 x.
Proof. rewrite i64_small; [done|]. apply i64_range. Qed.

#[export] Hint Resolve u8_range u64_range i64_range : words.
Create Rewrite HintDb words_rw.
#[export] Hint Rewrite i64_u64 u64_i64 i64_idemp i64_add_l i64_mul_l : words_rw.

Lemma c_bool_true x : c_true (c_bool x) = x.
Proof. by destruct x. Qed.

(** ** Lists *)

Lemma cnth_lookup s i : cnth s i = default 0 (s !! i).
Proof. unfold cnth. by rewrite nth_lookup. Qed.

Lemma chd_cons c s : chd (c :: s) = c.
Proof. done. Qed.

Lemma take_S_cons {A} n (x : A) l : take (S n) (x :: l) = x :: take n l.
Proof. done. Qed.

Lemma b_app s t : b (s ++ t)%string = b s ++ b t.
Proof.
  unfold b. induction s as [|c s IH]; [done|]. simpl. by rewrite IH.
Qed.

Lemma c_isdigit_spec c : c_isdigit c = true <-> 48 <= c <= 57.
Proof. unfold c_isdigit. rewrite andb_true_iff, !Z.leb_le. lia. Qed.

(** A test on bytes that holds for the 256 of them holds for every byte. *)
Definition all_bytes : bytes := List.map Z.of_nat (List.seq 0 256).

Lemma elem_all_bytes x : is_byte x -> In x all_bytes.
Proof.
  intros Hx. unfold all_bytes, is_byte in *. apply in_map_iff. exists (Z.to_nat x).
  split; [lia|]. apply in_seq. lia.
Qed.

Lemma byte_forall (P : Z -> bool) :
  forallb P all_bytes = true -> forall x, is_byte x -> P x = true.
Proof. rewrite forallb_forall. intros H x Hx. by apply H, elem_all_bytes. Qed.

Lemma cstr_id s : cstring s -> cstr s = s.
Proof.
  induction 1 as [|c s C _ IH]; [done|]. simpl. rewrite IH.
  destruct (Z.eqb_spec c 0); [lia|done].
Qed.

Lemma cstring_byte s : cstring s -> Forall is_byte s.
Proof. intros H. eapply Forall_impl; [exact H|]. unfold is_byte. simpl. intros; lia. Qed.

#[export] Hint Resolve cstring_byte : words.

(** ** Operators that stay within 64 bits *)

Lemma in_i64_shiftr z : in_i64 z <-> Z.shiftr z 63 = 0 \/ Z.shiftr z 63 = -1.
Proof.
  rewrite Z.shiftr_div_pow2 by lia. unfold in_i64.
  pose proof (Z.div_mod z (2 ^ 63)). pose proof (Z.mod_pos_bound z (2 ^ 63)). split; lia.
Qed.

(** A bitwise operator works on the sign bits as on the others. *)
Lemma in_i64_bitop (op : Z -> Z -> Z) x y :
  (forall a c n, Z.shiftr (op a c) n = op (Z.shiftr a n) (Z.shiftr c n)) ->
  (forall a c, (a = 0 \/ a = -1) -> (c = 0 \/ c = -1) -> op a c = 0 \/ op a c = -1) ->
  in_i64 x -> in_i64 y -> in_i64 (op x y).
Proof. intros Hop Hbits. rewrite !in_i64_shiftr, Hop. auto. Qed.

Lemma in_i64_lor x y : in_i64 x -> in_i64 y -> in_i64 (Z.lor x y).
Proof. apply in_i64_bitop; [apply Z.shiftr_lor|]. intros ? ? [->| ->] [->| ->]; vm_compute; auto. Qed.

Lemma in_i64_land x y : in_i64 x -> in_i64 y -> in_i64 (Z.land x y).
Proof. apply in_i64_bitop; [apply Z.shiftr_land|]. intros ? ? [->| ->] [->| ->]; vm_compute; auto. Qed.

Lemma in_i64_lxor x y : in_i64 x -> in_i64 y -> in_i64 (Z.lxor x y).
Proof. apply in_i64_bitop; [apply Z.shiftr_lxor|]. intros ? ? [->| ->] [->| ->]; vm_compute; auto. Qed.

Lemma in_i64_lnot x : in_i64 x -> in_i64 (Z.lnot x).
Proof. unfold in_i64, Z.lnot. lia. Qed.

Lemma in_i64_shr x n : 0 <= n -> in_i64 x -> in_i64 (Z.shiftr x n).
Proof.
  intros Hn. rewrite Z.shiftr_div_pow2 by done. unfold in_i64.
  assert (1 <= 2 ^ n) by (pose proof (Z.pow_pos_nonneg 2 n); lia).
  generalize dependent (2 ^ n). intros d Hd Hx.
  pose proof (Z.div_mod x d). pose proof (Z.mod_pos_bound x d). nia.
Qed.

Lemma in_i64_bool x : in_i64 (c_bool x).
Proof. by destruct x; vm_compute. Qed.

Lemma quot_in_i64 x y : in_i64 x -> y <> 0 ->
  in_i64 (Z.quot x y) <-> ~ (y = -1 /\ x = INT64_MIN).
Proof.
  unfold in_i64, INT64_MIN. intros Hx Hy.
  assert (y = -1 \/ y = 1 \/ 2 <= Z.abs y) as [-> |[-> |Hy2]] by lia.
  - change (-1) with (- (1)). rewrite Z.quot_opp_r, Z.quot_1_r by lia. lia.
  - rewrite Z.quot_1_r. lia.
  - pose proof (Z.quot_abs x y Hy) as A.
    assert (Z.abs x ÷ Z.abs y <= Z.abs x / 2).
    { rewrite Z.quot_div_nonneg by lia. apply Z.div_le_compat_l; lia. }
    assert (Z.abs x / 2 <= 2 ^ 62) by (apply Z.div_le_upper_bound; lia). lia.
Qed.

Lemma rem_in_i64 x y : in_i64 x -> in_i64 (Z.rem x y).
Proof.
  unfold in_i64. intros Hx. destruct (Z.eq_dec y 0) as [-> |Hy].
  - rewrite Z.rem_0_r_ext; done.
  - pose proof (Z.rem_le (Z.abs x) (Z.abs y)). pose proof (Z.rem_abs x y Hy).
    pose proof (Z.rem_nonneg (Z.abs x) (Z.abs y)). pose proof (Z.rem_sign_mul x y Hy). nia.
Qed.

#[export] Hint Resolve in_i64_lor in_i64_land in_i64_lxor in_i64_lnot in_i64_shr in_i64_bool
  rem_in_i64 : words.
