(* ===== verification/CStr.v ===== *)
(** * C strings (lib/str)

    The comparisons and searches of lib/str on the bytes before the
    terminator.  Where the library's macros name strcmp and strncmp instead,
    only the sign of the result is the same. *)

From S2P Require Import Prelude.

(** The index of the first [c], or of the terminator *)
Fixpoint str_chr (s : bytes) (c : Z) : nat :=
  match s with
  | [] => 0
  | d :: s => if (d =? 0) || (d =? c) then 0 else S (str_chr s c)
  end.

Fixpoint str_diff (s t : bytes) : Z :=
  match s, t with
  | [], [] => 0
  | [], y :: _ => - y
  | x :: _, [] => x
  | x :: s, y :: t => if x - y =? 0 then (if y =? 0 then 0 else str_diff s t) else x - y
  end.

Fixpoint str_diffn (s t : bytes) (n : nat) : Z :=
  match n, s, t with
  | O, _, _ | _, [], [] => 0
  | _, [], y :: _ => - y
  | _, x :: _, [] => x
  | S n, x :: s, y :: t => if x - y =? 0 then (if y =? 0 then 0 else str_diffn s t n) else x - y
  end.

Definition str_equal (s t : bytes) : bool := str_diff s t =? 0.

(** ** Laws *)

Create HintDb cstr.

Lemma cstring_app s t : cstring (s ++ t) <-> cstring s /\ cstring t.
Proof. apply Forall_app. Qed.

Lemma cstring_b_check s : forallb (fun c => (0 <? c) && (c <? 256)) s = true -> cstring s.
Proof.
  intros F. apply Forall_forall. intros c I. rewrite forallb_forall in F.
  specialize (F c (proj1 (list_elem_of_In _ _) I)). bool_lia.
Qed.

Lemma str_diff_refl s : str_diff s s = 0.
Proof. induction s as [|x s IH]; cbn; [done|]. rewrite Z.sub_diag. cbn. by destruct (x =? 0). Qed.

Lemma str_diff_eq s t : cstring s -> cstring t -> str_diff s t = 0 <-> s = t.
Proof.
  intros S. revert t. induction S as [|x s X S IH]; intros [|y t] T; cbn.
  - done.
  - apply Forall_cons in T as [Y _]. split; [lia|done].
  - split; [lia|done].
  - apply Forall_cons in T as [Y T]. destruct (Z.eqb_spec (x - y) 0).
    + destruct (Z.eqb_spec y 0); [lia|]. rewrite IH by done. replace x with y by lia. split; congruence.
    + split; [lia|]. intros [= -> ->]. lia.
Qed.

Lemma str_equal_eq s t : cstring s -> cstring t -> str_equal s t = bool_decide (s = t).
Proof.
  intros S T. unfold str_equal. destruct (Z.eqb_spec (str_diff s t) 0) as [E|E];
    rewrite str_diff_eq in E by done; by case_bool_decide.
Qed.

Lemma str_equal_refl s : str_equal s s = true.
Proof. unfold str_equal. by rewrite str_diff_refl. Qed.

Lemma str_equal_ne s t : cstring s -> cstring t -> s <> t -> str_equal s t = false.
Proof. intros S T N. rewrite str_equal_eq by done. by case_bool_decide. Qed.

Lemma str_chr_le s c : (str_chr s c <= List.length s)%nat.
Proof. induction s as [|d s IH]; cbn; [lia|]. destruct (_ || _); lia. Qed.

(** [c] is found, at its first place. *)
Lemma str_chr_app s c t : cstring s -> c ∉ s -> 0 < c -> str_chr (s ++ c :: t) c = List.length s.
Proof.
  intros S N P. induction S as [|d s D S IH]; cbn.
  - by rewrite Z.eqb_refl, orb_true_r.
  - apply not_elem_of_cons in N as [N1 N2].
    destruct (Z.eqb_spec d 0); [lia|]. destruct (Z.eqb_spec d c); [congruence|]. cbn. by rewrite IH.
Qed.

Lemma str_chr_none s c : cstring s -> c ∉ s -> str_chr s c = List.length s.
Proof.
  intros S N. induction S as [|d s D S IH]; cbn; [done|]. apply not_elem_of_cons in N as [N1 N2].
  destruct (Z.eqb_spec d 0); [lia|]. destruct (Z.eqb_spec d c); [congruence|]. cbn. by rewrite IH.
Qed.

Lemma str_chr_split s c : cstring s -> c ∈ s -> exists s1 s2, s = s1 ++ (c :: s2) /\ c ∉ s1 /\ str_chr s c = List.length s1.
Proof.
  intros S I. induction S as [|d s D S IH]; [by apply elem_of_nil in I|].
  destruct (decide (d = c)) as [->|N].
  - exists [], s. split_and!; [done|apply not_elem_of_nil|]. cbn. by rewrite Z.eqb_refl, orb_true_r.
  - apply elem_of_cons in I as [I|I]; [congruence|]. destruct (IH I) as (s1 & s2 & -> & N1 & E).
    exists (d :: s1), s2. split_and!; [done|by apply not_elem_of_cons|]. cbn.
    destruct (Z.eqb_spec d 0); [lia|]. destruct (Z.eqb_spec d c); [congruence|]. cbn. by rewrite E.
Qed.

Lemma str_diffn_eq s t x y : cstring s -> cstring t -> List.length s = List.length t ->
  str_diffn (s ++ x) (t ++ y) (List.length s) = 0 <-> s = t.
Proof.
  intros S. revert t. induction S as [|c s C S IH]; intros [|d t] T L; try discriminate L; [split; [done|by destruct x]|].
  apply Forall_cons in T as [D T]. cbn. destruct (Z.eqb_spec (c - d) 0).
  - destruct (Z.eqb_spec d 0); [lia|]. rewrite IH by (done || (cbn in L; lia)). replace c with d by lia.
    split; congruence.
  - split; [lia|]. intros [= -> ->]. lia.
Qed.

#[export] Hint Resolve str_diff_refl str_equal_refl : cstr.
