(* ===== verification/Scan.v ===== *)
(** * Number scanning and formatting (lib/scan, lib/fmt, scan_number of src/expand)

    [Module Scan] is lib/scan: a scanner takes the text, and returns the count
    of bytes used with the value stored through [dest].  [Module Fmt] is
    lib/fmt: the bytes a formatter stores.  The loops run on the text itself,
    each test reading the terminator when the text is used up. *)

From S2P Require Import Prelude.

Module Scan.

(** ** Definitions *)

(** The body of the loop of scan_ulonglong: [None] is the [break]. *)
Definition ull_step (l c : Z) : option Z :=
  let n := u64 (Z.shiftl l 3) in
  if negb (Z.shiftr n 3 =? l) then None
  else if u64 (n + u64 (Z.shiftl l 1)) <? n then None
  else
    let n := u64 (n + u64 (Z.shiftl l 1)) in
    if u64 (n + c) <? n then None else Some (u64 (n + c)).

Fixpoint ull_loop (s : bytes) (l : Z) (k : nat) : nat * Z :=
  match s with
  | [] => (k, l)
  | x :: s' =>
      let c := u8 (x - 48) in
      if c <? 10 then
        match ull_step l c with
        | Some l' => ull_loop s' l' (S k)
        | None => (k, l)
        end
      else (k, l)
  end.

(** [*dest] is only stored when a digit was read. *)
Definition scan_ulonglong (src : bytes) (dest : Z) : nat * Z :=
  let '(k, l) := ull_loop src 0 0 in
  (k, if (0 <? k)%nat then l else dest).

(** scan_ulongn on a 64-bit platform; [n] is [(size_t)-1] in scan_ulong, no
    bound the text can reach. *)
Definition ulong_step (l c : Z) : option Z :=
  let n := u64 (Z.shiftl l 3) in
  if negb (Z.shiftr n 3 =? l) then None
  else if u64 (u64 (n + u64 (Z.shiftl l 1)) + c) <? n then None
  else Some (u64 (u64 (n + u64 (Z.shiftl l 1)) + c)).

Fixpoint ulong_loop (s : bytes) (n : nat) (l : Z) (k : nat) : nat * Z :=
  match n, s with
  | S n, x :: s =>
      let c := u8 (x - 48) in
      if c <? 10 then
        match ulong_step l c with
        | Some l => ulong_loop s n l (S k)
        | None => (k, l)
        end
      else (k, l)
  | _, _ => (k, l)
  end.

Definition scan_ulongn (src : bytes) (n : nat) : nat * Z := ulong_loop src n 0 0.

Definition scan_ulong (src : bytes) : nat * Z := scan_ulongn src (List.length src).

Definition maxlong : Z := Z.shiftr (u64 (-1)) 1.

Definition scan_longlong (src : bytes) (dest : Z) : nat * Z :=
  let c := chd src in
  let neg := c_bool (c =? ch "-") in
  let o := if (c =? ch "-") || (c =? ch "+") then 1%nat else 0%nat in
  let '(i, l) := scan_ulonglong (drop o src) 0 in
  if (0 <? i)%nat then
    let '(i, l) := if l >? u64 (maxlong + neg) then ((i - 1)%nat, l / 10) else (i, l) in
    ((i + o)%nat,
     if (0 <? i + o)%nat then i64 (if c =? ch "-" then u64 (- l) else l) else dest)
  else (0%nat, dest).

Fixpoint oct_loop (s : bytes) (n : nat) (l : Z) (k : nat) : nat * Z :=
  match n, s with
  | S n', x :: s' =>
      let c := u8 (x - 48) in
      if c <? 8 then
        if negb (Z.shiftr l 61 =? 0) then (k, l)
        else oct_loop s' n' (u64 (l * 8 + c)) (S k)
      else (k, l)
  | _, _ => (k, l)
  end.

Definition scan_8longlongn (src : bytes) (n : nat) : nat * Z := oct_loop src n 0 0.

(** [n] is [(size_t)-1]: no bound the text can reach. *)
Definition scan_8longlong (src : bytes) : nat * Z :=
  scan_8longlongn src (List.length src).

Definition scan_fromhex (c : Z) : Z :=
  let c := u8 (c - 48) in
  if c <=? 9 then c
  else
    let c := u8 (Z.land c (Z.lnot 32) - 17) in
    if c <? 6 then c + 10 else -1.

Fixpoint hex_loop (s : bytes) (l : Z) (k : nat) : nat * Z :=
  match s with
  | [] => (k, l)
  | x :: s' =>
      let c := u8 (scan_fromhex x) in
      if c <? 16 then hex_loop s' (i64 (i64 (Z.shiftl l 4) + c)) (S k) else (k, l)
  end.

Definition scan_xlonglong (src : bytes) : nat * Z :=
  let '(k, l) := hex_loop src 0 0 in (k, u64 l).

(** [unsigned int] digits: stops before the value leaves 32 bits. *)
Fixpoint uint_loop (s : bytes) (l : Z) (k : nat) : nat * Z :=
  match s with
  | [] => (k, l)
  | x :: s' =>
      if (48 <=? x) && (x <=? 57) then
        let tmp := u64 (l * 10 + x - 48) in
        if negb (u32 tmp =? tmp) then (k, l) else uint_loop s' tmp (S k)
      else (k, l)
  end.

Definition scan_uint (src : bytes) (dest : Z) : nat * Z :=
  let '(k, l) := uint_loop src 0 0 in (k, if (0 <? k)%nat then l else dest).

Definition maxint : Z := Z.shiftr (u32 (-1)) 1.

(** The digits of scan_int: [l] is an [int], the checks are made unsigned. *)
Fixpoint int_loop (s : bytes) (l neg : Z) (k : nat) : nat * Z :=
  match s with
  | [] => (k, l)
  | x :: s' =>
      let c := u8 (x - 48) in
      if c <? 10 then
        let n := u32 (Z.shiftl (u32 l) 3) in
        let n2 := u32 (Z.shiftl (u32 l) 1) in
        if negb (Z.shiftr n 3 =? u32 l) then (k, l)
        else if u32 (n + n2) <? n then (k, l)
        else
          let n := u32 (n + n2) in
          if u32 (n + c) <? n then (k, l)
          else
            let n := u32 (n + c) in
            if n >? maxint + neg then (k, l) else int_loop s' (i32 n) neg (S k)
      else (k, l)
  end.

Definition scan_int (src : bytes) (dest : Z) : nat * Z :=
  let c := chd src in
  let o := if (c =? ch "-") || (c =? ch "+") then 1%nat else 0%nat in
  let '(k, l) := int_loop (drop o src) 0 (c_bool (c =? ch "-")) 0 in
  if (k =? 0)%nat then (0%nat, dest) else ((o + k)%nat, if c =? ch "-" then i32 (- l) else l).

(** [unsigned* base] is optional in C; both results are returned here. *)
Definition scan_number (x : bytes) (n : Z) : nat * Z * Z :=
  if chd x =? ch "0" then
    let p := drop 1 x in
    if (chd p =? ch "x") || (chd p =? ch "X") then
      let '(k, v) := scan_xlonglong (drop 1 p) in (k, i64 v, 16)
    else
      let '(k, v) := scan_8longlong p in (k, i64 v, 8)
  else
    let '(k, v) := scan_longlong x n in (k, v, 10).

(** ** Specification: digits and their value *)

Definition digit_val (base : Z) (v : Z) (c : Z) : Z := v * base + (c - 48).
Definition dec_value (s : bytes) : Z := fold_left (digit_val 10) s 0.
Definition oct_value (s : bytes) : Z := fold_left (digit_val 8) s 0.
Definition hex_value (s : bytes) : Z := fold_left (fun v c => v * 16 + scan_fromhex c) s 0.
Definition is_odigit (c : Z) : Prop := 48 <= c <= 55.
Definition is_digit (c : Z) : Prop := 48 <= c <= 57.
Definition is_xdigit (c : Z) : Prop := 48 <= c <= 57 \/ 65 <= c <= 70 \/ 97 <= c <= 102.

(** ** Lemmas *)

Lemma digit_test x : is_byte x -> (u8 (x - 48) <? 10) = c_isdigit x.
Proof.
  unfold is_byte, c_isdigit, u8. intros.
  destruct (Z.leb_spec 48 x), (Z.leb_spec x 57); simpl;
    rewrite ?Z.ltb_lt, ?Z.ltb_ge; try (rewrite Z.mod_small by lia; lia).
  rewrite <-(Z_mod_plus_full _ 1), Z.mod_small; lia.
Qed.

Lemma digit_of x : is_digit x -> u8 (x - 48) = x - 48.
Proof. unfold is_digit. intros. apply u8_small. lia. Qed.

(** The three overflow tests of the loop are exact. *)
Lemma ull_step_spec l c :
  in_u64 l -> 0 <= c < 10 ->
  ull_step l c = if l * 10 + c <? 2 ^ 64 then Some (l * 10 + c) else None.
Proof.
  unfold in_u64, ull_step. intros Hl Hc.
  rewrite !Z.shiftl_mul_pow2, Z.shiftr_div_pow2 by lia.
  change (2 ^ 3) with 8. change (2 ^ 1) with 2. unfold u64.
  destruct (Z.ltb_spec (l * 8) (2 ^ 64)) as [H8|H8].
  - rewrite (Z.mod_small (l * 8)), Z.div_mul by lia.
    rewrite Z.eqb_refl. simpl negb. cbv iota.
    rewrite (Z.mod_small (l * 2)) by lia.
    destruct (Z.ltb_spec (l * 8 + l * 2) (2 ^ 64)).
    + rewrite (Z.mod_small (l * 8 + l * 2)) by lia.
      rewrite (proj2 (Z.ltb_ge _ _)) by lia.
      destruct (Z.ltb_spec (l * 10 + c) (2 ^ 64)).
      * rewrite Z.mod_small by lia. rewrite (proj2 (Z.ltb_ge _ _)) by lia. f_equal. lia.
      * rewrite <-(Z_mod_plus_full _ (-1)), Z.mod_small by lia.
        by rewrite (proj2 (Z.ltb_lt _ _)) by lia.
    + rewrite <-(Z_mod_plus_full (l * 8 + l * 2) (-1)), Z.mod_small by lia.
      rewrite (proj2 (Z.ltb_lt _ _)) by lia.
      by rewrite (proj2 (Z.ltb_ge _ _)) by lia.
  - replace ((l * 8) mod 2 ^ 64 / 8 =? l) with false.
    + simpl. by rewrite (proj2 (Z.ltb_ge _ _)) by lia.
    + symmetry. apply Z.eqb_neq. intros E.
      pose proof (Z.mod_pos_bound (l * 8) (2 ^ 64)).
      pose proof (Z.mul_div_le ((l * 8) mod 2 ^ 64) 8). lia.
Qed.

(** The one test of scan_ulongn is exact too: both loops read alike. *)
Lemma ulong_step_ull l c : in_u64 l -> 0 <= c < 10 -> ulong_step l c = ull_step l c.
Proof.
  intros Hl Hc. rewrite ull_step_spec by done. revert Hl. unfold in_u64, ulong_step. intros Hl.
  rewrite !Z.shiftl_mul_pow2, Z.shiftr_div_pow2 by lia.
  change (2 ^ 3) with 8. change (2 ^ 1) with 2. unfold u64.
  destruct (Z.ltb_spec (l * 8) (2 ^ 64)) as [H8|H8].
  - rewrite (Z.mod_small (l * 8)), Z.div_mul by lia.
    rewrite Z.eqb_refl. simpl negb. cbv iota.
    rewrite (Z.mod_small (l * 2)) by lia. rewrite Zplus_mod_idemp_l.
    destruct (Z.ltb_spec (l * 10 + c) (2 ^ 64)).
    + rewrite Z.mod_small by lia. rewrite (proj2 (Z.ltb_ge _ _)) by lia. f_equal. lia.
    + rewrite <-(Z_mod_plus_full _ (-1)), Z.mod_small by lia.
      by rewrite (proj2 (Z.ltb_lt _ _)) by lia.
  - replace ((l * 8) mod 2 ^ 64 / 8 =? l) with false.
    + simpl. by rewrite (proj2 (Z.ltb_ge _ _)) by lia.
    + symmetry. apply Z.eqb_neq. intros E.
      pose proof (Z.mod_pos_bound (l * 8) (2 ^ 64)).
      pose proof (Z.mul_div_le ((l * 8) mod 2 ^ 64) 8). lia.
Qed.

Lemma ulong_loop_ull s : forall n l k, (List.length s <= n)%nat -> in_u64 l -> ulong_loop s n l k = ull_loop s l k.
Proof.
  induction s as [|x s IH]; intros n l k L Hl; destruct n as [|n]; cbn [List.length] in L; try lia; try done.
  cbn [ulong_loop ull_loop]. destruct (Z.ltb_spec (u8 (x - 48)) 10); [|done].
  assert (0 <= u8 (x - 48)) by (unfold u8; apply Z.mod_pos_bound; lia).
  rewrite ulong_step_ull by (done || lia). rewrite ull_step_spec by (done || lia).
  destruct (Z.ltb_spec (l * 10 + u8 (x - 48)) (2 ^ 64)); [|done]. apply IH; [lia|]. unfold in_u64 in *. lia.
Qed.

Lemma dec_value_app s t : dec_value (s ++ t) = fold_left (digit_val 10) t (dec_value s).
Proof. apply fold_left_app. Qed.

Lemma dec_value_snoc s c : dec_value (s ++ [c]) = dec_value s * 10 + (c - 48).
Proof. apply dec_value_app. Qed.

Lemma fold_digits_mono s v :
  0 <= v -> Forall is_digit s -> v <= fold_left (digit_val 10) s v.
Proof.
  revert v. induction s as [|c s IH]; simpl; intros v Hv HF; [lia|].
  inversion_clear HF as [|? ? Hc HF']. unfold is_digit in Hc.
  etransitivity; [|apply IH; [|done]]; unfold digit_val; lia.
Qed.

Lemma dec_value_nonneg s : Forall is_digit s -> 0 <= dec_value s.
Proof. intros. by apply fold_digits_mono. Qed.

(** What the loop returns from a partly read number. *)
Lemma ull_loop_spec s : forall l k,
  Forall is_byte s -> in_u64 l ->
  exists m, ull_loop s l k = ((k + m)%nat, fold_left (digit_val 10) (take m s) l)
    /\ Forall is_digit (take m s)
    /\ in_u64 (fold_left (digit_val 10) (take m s) l)
    /\ (forall c, s !! m = Some c -> is_digit c ->
        2 ^ 64 <= fold_left (digit_val 10) (take (S m) s) l)
    /\ (m <= List.length s)%nat.
Proof.
  induction s as [|x s IH]; intros l k HF Hl; simpl.
  - exists 0%nat. split_and!; try done; f_equal; lia.
  - inversion_clear HF as [|? ? Hx HF']. rewrite digit_test by done.
    destruct (c_isdigit x) eqn:Hd.
    + apply c_isdigit_spec in Hd. rewrite digit_of by done.
      rewrite ull_step_spec by (unfold in_u64 in *; lia).
      destruct (Z.ltb_spec (l * 10 + (x - 48)) (2 ^ 64)) as [Hlt|Hge].
      * destruct (IH (l * 10 + (x - 48)) (S k) HF') as (m & E & H1 & H2 & H3 & H4);
          [unfold in_u64 in *; lia|].
        exists (S m). rewrite E. split_and!; try done.
        -- f_equal; lia.
        -- by constructor.
        -- simpl. lia.
      * exists 0%nat. split_and!; try done; try (f_equal; lia); try lia.
    + exists 0%nat. split_and!; try done; try (f_equal; lia); try lia.
      simpl. intros c [= <-] Hc. apply c_isdigit_spec in Hc. congruence.
Qed.

(** The octal loop: same shape, base 8, exact overflow test on the top 3 bits. *)
Lemma oct_loop_spec s : forall n l k,
  Forall is_byte s -> (List.length s <= n)%nat -> in_u64 l ->
  exists m, oct_loop s n l k = ((k + m)%nat, fold_left (digit_val 8) (take m s) l)
    /\ Forall is_odigit (take m s)
    /\ in_u64 (fold_left (digit_val 8) (take m s) l)
    /\ (forall c, s !! m = Some c -> is_odigit c ->
        2 ^ 61 <= fold_left (digit_val 8) (take m s) l).
Proof.
  induction s as [|x s IH]; intros n l k HF Hn Hl.
  - exists 0%nat. split_and!; [destruct n; simpl; f_equal; lia|constructor|exact Hl|done].
  - destruct n as [|n]; [simpl in Hn; lia|].
    inversion_clear HF as [|? ? Hx HF']. simpl in Hn; cbn [oct_loop].
    destruct (Z.ltb_spec (u8 (x - 48)) 8) as [H8|H8].
    + assert (Hd : is_odigit x).
      { unfold is_odigit, is_byte, u8 in *.
        destruct (Z.leb_spec 48 x); [|rewrite <-(Z_mod_plus_full _ 1) in H8];
          rewrite Z.mod_small in H8 by lia; lia. }
      rewrite (u8_small (x - 48)) by (unfold is_odigit in Hd; lia).
      rewrite Z.shiftr_div_pow2 by lia.
      destruct (Z.eqb_spec (l / 2 ^ 61) 0) as [E|E]; simpl.
      * apply Z.div_small_iff in E; [|lia].
        assert (Hs : 0 <= l * 8 + (x - 48) < 2 ^ 64) by (unfold is_odigit in Hd; unfold in_u64 in Hl; lia).
        rewrite u64_small by done.
        destruct (IH n (l * 8 + (x - 48)) (S k) HF') as (m & Em & H1 & H2 & H3);
          [lia|done|].
        exists (S m). rewrite Em. split_and!; [f_equal; lia|by constructor|exact H2|exact H3].
      * exists 0%nat. split_and!; [f_equal; lia|constructor|exact Hl|].
        intros c _ _. rewrite Z.div_small_iff in E by lia.
        unfold in_u64 in Hl. simpl. lia.
    + exists 0%nat. split_and!; [f_equal; lia|constructor|exact Hl|].
      simpl. intros c [= <-] Hc. unfold is_odigit in Hc.
      rewrite u8_small in H8 by lia. lia.
Qed.

Lemma scan_fromhex_spec x : is_byte x ->
  (is_xdigit x /\ scan_fromhex x = (if x <=? 57 then x - 48 else if x <=? 70 then x - 55 else x - 87))
  \/ (~ is_xdigit x /\ scan_fromhex x = -1).
Proof.
  intros Hx.
  pose proof (byte_forall (fun x =>
      if ((48 <=? x) && (x <=? 57)) || ((65 <=? x) && (x <=? 70)) || ((97 <=? x) && (x <=? 102))
      then scan_fromhex x =? (if x <=? 57 then x - 48 else if x <=? 70 then x - 55 else x - 87)
      else scan_fromhex x =? -1) eq_refl x Hx) as Hall.
  cbv beta in Hall. unfold is_xdigit.
  destruct (Z.leb_spec 48 x), (Z.leb_spec x 57), (Z.leb_spec 65 x), (Z.leb_spec x 70),
    (Z.leb_spec 97 x), (Z.leb_spec x 102); simpl in Hall; apply Z.eqb_eq in Hall;
    try lia; first [left; split; [lia|done] | right; split; [lia|done]].
Qed.

(** The hexadecimal loop never stops on overflow: it keeps the low 64 bits. *)
Lemma hex_loop_spec s : forall l k,
  Forall is_byte s ->
  exists m, hex_loop s (i64 l) k
      = ((k + m)%nat, i64 (fold_left (fun v c => v * 16 + scan_fromhex c) (take m s) l))
    /\ Forall is_xdigit (take m s)
    /\ (forall c, s !! m = Some c -> ~ is_xdigit c).
Proof.
  induction s as [|x s IH]; intros l k HF; simpl.
  - exists 0%nat. split_and!; try done. simpl. f_equal; lia.
  - inversion_clear HF as [|? ? Hx HF'].
    destruct (scan_fromhex_spec x Hx) as [[Hd E]|[Hd E]].
    + assert (0 <= scan_fromhex x < 16).
      { rewrite E. unfold is_xdigit in Hd. repeat case_test; bool_lia. }
      rewrite (u8_small (scan_fromhex x)) by lia.
      rewrite (proj2 (Z.ltb_lt _ _)) by lia.
      rewrite Z.shiftl_mul_pow2 by lia. change (2 ^ 4) with 16.
      rewrite i64_add_l, i64_mul_l_add.
      destruct (IH (l * 16 + scan_fromhex x) (S k) HF') as (m & Em & H1 & H2).
      exists (S m). rewrite Em. split_and!; try done; [simpl; f_equal; lia|by constructor].
    + rewrite E. change (u8 (-1) <? 16) with false. cbv iota.
      exists 0%nat. split_and!; try done; [simpl; f_equal; lia|].
      simpl. by intros c [= <-].
Qed.

End Scan.

Module Fmt.

(** ** Definitions *)

(** [for(len = 1; tmp > 9; ++len) tmp /= 10;] -- 20 rounds divide any 64-bit
    value down to a digit. *)
Fixpoint fmt_len (fuel : nat) (tmp : Z) (len : nat) : nat :=
  match fuel with
  | O => len
  | S f => if tmp >? 9 then fmt_len f (tmp / 10) (S len) else len
  end.

(** [for(tmp = i; --len2; tmp /= 10) *--dest = (tmp % 10) + '0';] *)
Fixpoint fmt_fill (len : nat) (tmp : Z) (dest : bytes) : bytes :=
  match len with
  | O => dest
  | S n => fmt_fill n (tmp / 10) ((tmp mod 10 + 48) :: dest)
  end.

Definition fmt_ulonglong (i : Z) : bytes := fmt_fill (fmt_len 20 i 1) i [].

Definition fmt_ulong (i : Z) : bytes := fmt_fill (fmt_len 20 i 1) i [].

(** [(uint64)-i]: the negation wraps here; in C that of INT64_MIN is undefined. *)
Definition fmt_longlong (i : Z) : bytes :=
  if i <? 0 then ch "-" :: fmt_ulonglong (u64 (i64 (- i))) else fmt_ulonglong (u64 i).

Definition fmt_long (i : Z) : bytes :=
  if i <? 0 then ch "-" :: fmt_ulong (u64 (i64 (- i))) else fmt_ulong (u64 i).

(** Octal and hexadecimal: 22 and 16 digits cover 64 bits. *)
Fixpoint fmt_8len (fuel : nat) (tmp : Z) (len : nat) : nat :=
  match fuel with
  | O => len
  | S f => if tmp >? 7 then fmt_8len f (Z.shiftr tmp 3) (S len) else len
  end.

Fixpoint fmt_8fill (len : nat) (tmp : Z) (dest : bytes) : bytes :=
  match len with
  | O => dest
  | S n => fmt_8fill n (Z.shiftr tmp 3) ((Z.land tmp 7 + 48) :: dest)
  end.

Definition fmt_8longlong (i : Z) : bytes := fmt_8fill (fmt_8len 22 i 1) i [].

Definition tohex (c : Z) : Z := if c >=? 10 then c - 10 + 97 else c + 48.

Fixpoint fmt_xlen (fuel : nat) (tmp : Z) (len : nat) : nat :=
  match fuel with
  | O => len
  | S f => if tmp >? 15 then fmt_xlen f (Z.shiftr tmp 4) (S len) else len
  end.

Fixpoint fmt_xfill (len : nat) (tmp : Z) (dest : bytes) : bytes :=
  match len with
  | O => dest
  | S n => fmt_xfill n (Z.shiftr tmp 4) (tohex (Z.land tmp 15) :: dest)
  end.

Definition fmt_xlonglong (i : Z) : bytes := fmt_xfill (fmt_xlen 16 i 1) i [].

(** [pad] zeros in front up to the wanted width *)
Definition fmt_ulong0 (i : Z) (pad : nat) : bytes :=
  let len := fmt_len 20 i 1 in
  replicate (pad - len) (ch "0") ++ fmt_ulong i.

(** ** Lemmas *)

Lemma fmt_len_acc fuel : forall t len, fmt_len fuel t len = (fmt_len fuel t 0 + len)%nat.
Proof.
  induction fuel as [|f IH]; intros t len; simpl; [done|].
  case_test; [|done]. rewrite (IH _ (S len)), (IH _ 1%nat). lia.
Qed.

Lemma fmt_len_bound fuel : forall t,
  0 <= t < 10 ^ (Z.of_nat fuel + 1) -> t < 10 ^ (Z.of_nat (fmt_len fuel t 1)).
Proof.
  induction fuel as [|f IH]; intros t Ht; [exact (proj2 Ht)|].
  cbn [fmt_len]. destruct (t >? 9) eqn:E; [|zify_bool; simpl; lia].
  zify_bool. rewrite fmt_len_acc.
  replace (Z.of_nat (S f) + 1) with (Z.succ (Z.of_nat f + 1)) in Ht by lia.
  rewrite Z.pow_succ_r in Ht by lia.
  assert (Hq : 0 <= t / 10 < 10 ^ (Z.of_nat f + 1)).
  { split; [apply Z.div_pos; lia|apply Z.div_lt_upper_bound; lia]. }
  apply IH in Hq. rewrite fmt_len_acc in Hq.
  replace (Z.of_nat (fmt_len f (t / 10) 0 + 2)) with (Z.succ (Z.of_nat (fmt_len f (t / 10) 0 + 1))) by lia.
  rewrite Z.pow_succ_r by lia.
  pose proof (Z.div_mod t 10). pose proof (Z.mod_pos_bound t 10). lia.
Qed.

Lemma fmt_len_20 i : in_u64 i -> i < 10 ^ Z.of_nat (fmt_len 20 i 1).
Proof. intros [H1 H2]. apply fmt_len_bound. split; [done|]. etransitivity; [exact H2|]. reflexivity. Qed.

Lemma fmt_fill_app n : forall t d, fmt_fill n t d = fmt_fill n t [] ++ d.
Proof.
  induction n as [|n IH]; intros t d; simpl; [done|].
  rewrite IH, (IH _ [_]), <-app_assoc. done.
Qed.

Lemma fmt_fill_length n : forall t d, List.length (fmt_fill n t d) = (n + List.length d)%nat.
Proof. induction n as [|n IH]; intros t d; simpl; [done|]. rewrite IH. simpl. lia. Qed.

Lemma fmt_fill_digits n : forall t, 0 <= t -> Forall Scan.is_digit (fmt_fill n t []).
Proof.
  induction n as [|n IH]; intros t Ht; simpl; [constructor|].
  rewrite fmt_fill_app. apply Forall_app. split; [apply IH, Z.div_pos; lia|].
  repeat constructor; unfold Scan.is_digit; pose proof (Z.mod_pos_bound t 10); lia.
Qed.

Lemma fmt_fill_value n : forall t, 0 <= t ->
  Scan.dec_value (fmt_fill n t []) = t mod 10 ^ Z.of_nat n.
Proof.
  induction n as [|n IH]; intros t Ht; cbn [fmt_fill]; [by rewrite Z.mod_1_r|].
  rewrite fmt_fill_app, Scan.dec_value_snoc, IH by (apply Z.div_pos; lia).
  rewrite Nat2Z.inj_succ, Z.pow_succ_r by lia.
  rewrite Z.rem_mul_r by lia. lia.
Qed.

Lemma fmt_len_pos fuel t : (1 <= fmt_len fuel t 1)%nat.
Proof. rewrite fmt_len_acc. lia. Qed.

(** The count is exact: the leading digit is not zero. *)
Lemma fmt_len_lower fuel : forall t, (2 <= fmt_len fuel t 1)%nat ->
  10 ^ (Z.of_nat (fmt_len fuel t 1) - 1) <= t.
Proof.
  induction fuel as [|f IH]; intros t; cbn [fmt_len]; [lia|].
  case_test; [|lia]. intros _. zify_bool. rewrite fmt_len_acc.
  specialize (IH (t / 10)). rewrite (fmt_len_acc f (t / 10) 1) in IH.
  set (k := fmt_len f (t / 10) 0) in *.
  destruct (decide (2 <= k + 1)%nat) as [L|L].
  - specialize (IH L). replace (Z.of_nat (k + 2) - 1) with (Z.succ (Z.of_nat (k + 1) - 1)) by lia.
    rewrite Z.pow_succ_r by lia. pose proof (Z.mul_div_le t 10). lia.
  - replace (Z.of_nat (k + 2) - 1) with 1 by lia. lia.
Qed.

Lemma fmt_fill_head n t d : exists s, fmt_fill (S n) t d = (t / 10 ^ Z.of_nat n) mod 10 + 48 :: s.
Proof.
  revert t d. induction n as [|n IH]; intros t d; [exists d; by rewrite Z.div_1_r|].
  cbn [fmt_fill]. destruct (IH (t / 10) ((t mod 10 + 48) :: d)) as [s E]. cbn [fmt_fill] in E.
  rewrite E. exists s. do 3 f_equal. rewrite Z.div_div by lia. f_equal.
  rewrite Nat2Z.inj_succ, Z.pow_succ_r by lia. done.
Qed.

Lemma fmt_ulonglong_head i : in_u64 i -> i <> 0 -> chd (fmt_ulonglong i) <> 48.
Proof.
  intros Hi H0. unfold fmt_ulonglong. pose proof (fmt_len_pos 20 i) as P.
  pose proof (fmt_len_20 i Hi) as U. pose proof (fmt_len_lower 20 i) as L.
  destruct (fmt_len 20 i 1) as [|n] eqn:E; [lia|].
  destruct (fmt_fill_head n i []) as [s ->]. unfold chd, cnth. cbn [nth].
  assert (1 <= i / 10 ^ Z.of_nat n < 10); [|rewrite Z.mod_small; lia].
  rewrite Nat2Z.inj_succ, Z.pow_succ_r in U by lia. destruct Hi as [Hi _]. split.
  - apply Z.div_le_lower_bound; [lia|]. rewrite Z.mul_1_r. destruct n as [|n]; [simpl; lia|].
    replace (Z.of_nat (S n)) with (Z.of_nat (S (S n)) - 1) by lia. apply L. lia.
  - apply Z.div_lt_upper_bound; lia.
Qed.

Lemma fmt_ulonglong_digits i : 0 <= i -> Forall Scan.is_digit (fmt_ulonglong i).
Proof. apply fmt_fill_digits. Qed.

Lemma fmt_ulonglong_value i : in_u64 i -> Scan.dec_value (fmt_ulonglong i) = i.
Proof.
  intros Hi. unfold fmt_ulonglong. rewrite fmt_fill_value by apply Hi.
  apply Z.mod_small. split; [apply Hi|by apply fmt_len_20].
Qed.

Lemma fmt_ulonglong_cons i : exists d s, fmt_ulonglong i = d :: s.
Proof.
  pose proof (fmt_fill_length (fmt_len 20 i 1) i []) as H.
  pose proof (fmt_len_pos 20 i). unfold fmt_ulonglong.
  destruct (fmt_fill _ _ _) eqn:E; [cbn [List.length] in H; lia|eauto].
Qed.

End Fmt.

(** ** Properties *)

Import Scan Fmt.

Definition num_char (c : Z) : Prop := is_digit c \/ c = ch "-".

Lemma fmt_longlong_chars i : in_i64 i -> Forall num_char (fmt_longlong i).
Proof.
  intros Hi. unfold fmt_longlong.
  assert (D : forall u, 0 <= u -> Forall num_char (fmt_ulonglong u)).
  { intros u Hu. eapply Forall_impl; [by apply fmt_ulonglong_digits|]. by left. }
  case_test; [constructor; [by right|]|]; apply D, u64_range.
Qed.

Lemma fmt_longlong_head i : in_i64 i -> i <> 0 -> chd (fmt_longlong i) <> 48.
Proof.
  intros Hi H0. unfold fmt_longlong. case_test; [done|]. zify_bool. unfold in_i64 in Hi.
  rewrite u64_small by (unfold in_u64; lia). apply fmt_ulonglong_head; [unfold in_u64; lia|done].
Qed.

Lemma fmt_longlong_nil i : fmt_longlong i <> [].
Proof.
  unfold fmt_longlong. case_test; [done|]. by destruct (fmt_ulonglong_cons (u64 i)) as (? & ? & ->).
Qed.

Lemma scan_ulonglong_prefix s dest :
  Forall is_byte s ->
  exists k v, scan_ulonglong s dest = (k, v)
    /\ (k <= List.length s)%nat
    /\ Forall is_digit (take k s)
    /\ v = (if (0 <? k)%nat then dec_value (take k s) else dest)
    /\ in_u64 (dec_value (take k s))
    /\ (forall c, s !! k = Some c -> is_digit c -> 2 ^ 64 <= dec_value (take (S k) s)).
Proof.
  intros HF. destruct (ull_loop_spec s 0 0 HF) as (m & E & H1 & H2 & H3 & H4);
    [split; lia|].
  unfold scan_ulonglong. rewrite E. simpl Nat.add.
  eexists m, _. split_and!; done.
Qed.

Lemma take_digits_app ds rest :
  Forall is_digit ds -> ~ is_digit (chd rest) ->
  forall k, Forall is_digit (take k (ds ++ rest)) ->
  (k <= List.length (ds ++ rest))%nat -> (k <= List.length ds)%nat.
Proof.
  intros Hd Hr k Hk Hl. destruct (decide (k <= List.length ds)%nat) as [|Hn]; [done|].
  exfalso. rewrite take_app, firstn_all2 in Hk by lia.
  apply Forall_app in Hk as [_ Hk]. destruct rest as [|c rest].
  - rewrite length_app in Hl. simpl in Hl. lia.
  - destruct (k - List.length ds)%nat eqn:E; [lia|]. simpl in Hk.
    by inversion_clear Hk.
Qed.

(** Digits that fit are all read, whatever follows them. *)
Lemma scan_ulonglong_digits ds rest dest :
  Forall is_digit ds -> ds <> [] -> in_u64 (dec_value ds) ->
  Forall is_byte rest -> ~ is_digit (chd rest) ->
  scan_ulonglong (ds ++ rest) dest = (List.length ds, dec_value ds).
Proof.
  intros Hd Hne Hv Hb Hr.
  assert (HB : Forall is_byte (ds ++ rest)).
  { apply Forall_app. split; [|done]. eapply Forall_impl; [exact Hd|].
    unfold is_digit, is_byte. simpl. lia. }
  destruct (scan_ulonglong_prefix _ dest HB) as (k & v & E & H1 & H2 & H3 & H4 & H5).
  pose proof (take_digits_app ds rest Hd Hr k H2 H1) as Hk.
  destruct (decide (k = List.length ds)) as [->|Hlt].
  - rewrite E, H3, take_app_length. destruct ds; [done|]. done.
  - exfalso. destruct (lookup_lt_is_Some_2 ds k) as [c Hc]; [lia|].
    pose proof (Forall_lookup_1 _ _ _ _ Hd Hc) as Hdc.
    specialize (H5 c (lookup_app_l_Some _ _ _ _ Hc) Hdc).
    rewrite take_app_le in H5 by lia.
    assert (dec_value (take (S k) ds) <= dec_value ds).
    { rewrite <-(take_drop (S k) ds) at 2. rewrite dec_value_app.
      apply fold_digits_mono; [apply dec_value_nonneg; by apply Forall_take|by apply Forall_drop]. }
    unfold in_u64 in Hv. lia.
Qed.

Lemma scan_ulong_digits ds rest : Forall is_digit ds -> ds <> [] -> in_u64 (dec_value ds) ->
  Forall is_byte rest -> ~ is_digit (chd rest) ->
  scan_ulong (ds ++ rest) = (List.length ds, dec_value ds).
Proof.
  intros Hd Hne Hv Hb Hr. pose proof (scan_ulonglong_digits ds rest 0 Hd Hne Hv Hb Hr) as E.
  unfold scan_ulong, scan_ulongn. rewrite ulong_loop_ull by (done || by unfold in_u64).
  unfold scan_ulonglong in E. destruct (ull_loop (ds ++ rest) 0 0) as [k l]. injection E as -> <-.
  destruct ds; done.
Qed.

Lemma scan_ulong_fmt i rest : in_u64 i -> Forall is_byte rest -> ~ is_digit (chd rest) ->
  scan_ulong (fmt_ulong i ++ rest) = (List.length (fmt_ulong i), i).
Proof.
  intros Hi Hb Hr. change (fmt_ulong i) with (fmt_ulonglong i).
  rewrite scan_ulong_digits; rewrite ?fmt_ulonglong_value; try done.
  - apply fmt_ulonglong_digits. unfold in_u64 in Hi. lia.
  - destruct (fmt_ulonglong_cons i) as (d & s & ->). done.
Qed.

Lemma maxlong_val : maxlong = 2 ^ 63 - 1.
Proof. reflexivity. Qed.

(** [scan_ulonglong] reads the longest run of leading decimal digits
    whose value fits in 64 bits: it stops exactly at the first byte that is
    not a digit or at the first digit that would make the value overflow,
    stores the exact value of what it read, and stores nothing when it read
    nothing. *)
Theorem scan_ulonglong_longest (s : bytes) (dest : Z) :
  Forall is_byte s ->
  exists k v, scan_ulonglong s dest = (k, v)
    /\ Forall is_digit (take k s)
    /\ v = (if (0 <? k)%nat then dec_value (take k s) else dest)
    /\ 0 <= dec_value (take k s) < 2 ^ 64
    /\ (k = List.length s
        \/ exists c, s !! k = Some c /\ (~ is_digit c \/ 2 ^ 64 <= dec_value (take (S k) s))).
Proof.
  intros HF. destruct (scan_ulonglong_prefix s dest HF) as (k & v & E & H1 & H2 & H3 & H4 & H5).
  exists k, v. split_and!; try done; try apply H4.
  destruct (decide (k = List.length s)) as [|Hn]; [by left|right].
  destruct (lookup_lt_is_Some_2 s k) as [c Hc]; [lia|].
  exists c. split; [done|]. destruct (c_isdigit c) eqn:Hd.
  - right. apply (H5 c Hc). by apply c_isdigit_spec.
  - left. intros Hc'. apply c_isdigit_spec in Hc'. congruence.
Qed.

Lemma scan_ulonglong_longest_witness :
  Forall is_byte (b "18446744073709551616;") /\
  scan_ulonglong (b "18446744073709551616;") 7 = (19%nat, 1844674407370955161) /\
  exists k v, scan_ulonglong (b "18446744073709551616;") 7 = (k, v)
    /\ Forall is_digit (take k (b "18446744073709551616;"))
    /\ v = (if (0 <? k)%nat then dec_value (take k (b "18446744073709551616;")) else 7)
    /\ 0 <= dec_value (take k (b "18446744073709551616;")) < 2 ^ 64
    /\ (k = List.length (b "18446744073709551616;")
        \/ exists c, b "18446744073709551616;" !! k = Some c
             /\ (~ is_digit c \/ 2 ^ 64 <= dec_value (take (S k) (b "18446744073709551616;")))).
Proof.
  assert (H : Forall is_byte (b "18446744073709551616;")).
  { vm_compute. repeat constructor; discriminate. }
  split; [exact H|]. split; [vm_compute; reflexivity|].
  exact (scan_ulonglong_longest (b "18446744073709551616;") 7 H).
Defined.

Lemma scan_fmt_longlong (i : Z) (rest : bytes) (dest : Z) :
  in_i64 i -> Forall is_byte rest -> ~ is_digit (chd rest) ->
  scan_longlong (fmt_longlong i ++ rest) dest = (List.length (fmt_longlong i), i).
Proof.
  intros Hi Hb Hr. unfold fmt_longlong, scan_longlong. destruct (i <? 0) eqn:Hs; zify_bool.
  - assert (Hu : u64 (i64 (- i)) = - i).
    { rewrite u64_i64. apply u64_small. unfold in_i64, in_u64 in *. lia. }
    rewrite Hu. assert (Hi' : in_u64 (- i)) by (unfold in_i64, in_u64 in *; lia).
    cbn [app chd cnth nth]. change (ch "-" =? ch "-") with true. cbn [orb drop]. rewrite drop_0.
    rewrite scan_ulonglong_digits; try done;
      [|by apply fmt_ulonglong_digits; lia|by destruct (fmt_ulonglong_cons (- i)) as (? & ? & ->)
       |by rewrite fmt_ulonglong_value].
    rewrite fmt_ulonglong_value by done. cbn [List.length].
    destruct (fmt_ulonglong_cons (- i)) as (d & ds & ->). cbn [List.length Nat.ltb Nat.leb].
    rewrite maxlong_val. rewrite (u64_small (_ + _)) by (split; vm_compute; congruence).
    rewrite Z.gtb_ltb, (proj2 (Z.ltb_ge _ _)) by (unfold in_i64 in Hi; simpl; lia).
    replace (S (List.length ds) + 1)%nat with (S (S (List.length ds))) by lia. cbn.
    f_equal. rewrite i64_u64, Z.opp_involutive. by apply i64_small.
  - assert (Hi' : in_u64 i) by (unfold in_i64, in_u64 in *; lia).
    rewrite (u64_small i) by done.
    pose proof (fmt_ulonglong_digits i Hs) as Hdig.
    pose proof (fmt_ulonglong_value i Hi') as Hval.
    destruct (fmt_ulonglong_cons i) as (d & ds & Eds). rewrite Eds in *.
    assert (Hd : is_digit d) by (by inversion Hdig). unfold is_digit in Hd.
    cbn [app]. change (chd (d :: ds ++ rest)) with d.
    rewrite (proj2 (Z.eqb_neq d (ch "-"))) by (vm_compute (ch "-"); lia).
    rewrite (proj2 (Z.eqb_neq d (ch "+"))) by (vm_compute (ch "+"); lia).
    cbn [orb drop]. change (d :: ds ++ rest) with ((d :: ds) ++ rest).
    rewrite scan_ulonglong_digits by (done || by rewrite Hval).
    rewrite Hval. cbn [List.length Nat.ltb Nat.leb c_bool].
    rewrite maxlong_val. rewrite (u64_small (_ + _)) by (split; vm_compute; congruence).
    rewrite Z.gtb_ltb, (proj2 (Z.ltb_ge _ _)) by (unfold in_i64 in Hi; lia).
    rewrite Nat.add_0_r. cbn [Nat.ltb Nat.leb]. f_equal. by apply i64_small.
Qed.

(** C33: formatting a 64-bit signed integer and scanning the text back
    gives the integer again and consumes exactly the formatted text, for every
    value including INT64_MIN, whatever non-digit byte follows. *)
Theorem scan_fmt_longlong_roundtrip (i : Z) (rest : bytes) (dest : Z) :
  in_i64 i -> Forall is_byte rest -> ~ is_digit (chd rest) ->
  scan_longlong (fmt_longlong i ++ rest) dest = (List.length (fmt_longlong i), i).
Proof. apply scan_fmt_longlong. Qed.

Lemma scan_fmt_longlong_roundtrip_witness :
  fmt_longlong INT64_MIN = b "-9223372036854775808" /\
  scan_longlong (fmt_longlong INT64_MIN ++ b " x") 0
  = (List.length (fmt_longlong INT64_MIN), INT64_MIN).
Proof.
  split; [vm_compute; reflexivity|].
  apply (scan_fmt_longlong_roundtrip INT64_MIN (b " x") 0).
  - unfold in_i64, INT64_MIN. lia.
  - vm_compute. repeat constructor; discriminate.
  - vm_compute. intros [H _]. congruence.
Defined.

Definition sign_len (s : bytes) : nat :=
  if (chd s =? ch "-") || (chd s =? ch "+") then 1%nat else 0%nat.

Definition signed_value (s : bytes) (v : Z) : Z := if chd s =? ch "-" then - v else v.

Lemma dec_value_pred k s :
  (0 < k <= List.length s)%nat -> Forall is_digit (take k s) ->
  dec_value (take (k - 1) s) = dec_value (take k s) / 10.
Proof.
  intros Hk HF. destruct k as [|k]; [lia|]. replace (S k - 1)%nat with k by lia.
  destruct (lookup_lt_is_Some_2 s k) as [c Hc]; [lia|].
  rewrite (take_S_r _ _ _ Hc) in *. rewrite dec_value_snoc.
  apply Forall_app in HF as [_ HF]. inversion_clear HF as [|? ? Hd _]. unfold is_digit in Hd.
  rewrite Z.add_comm, Z_div_plus by lia. rewrite (Z.div_small (c - 48)); lia.
Qed.

Lemma longlong_limit s d :
  in_u64 d -> (d >? u64 (maxlong + c_bool (chd s =? ch "-"))) = true <-> ~ in_i64 (signed_value s d).
Proof.
  unfold signed_value, in_i64, in_u64. rewrite maxlong_val, Z.gtb_ltb, Z.ltb_lt. intros Hd.
  destruct (chd s =? ch "-"); cbn [c_bool]; rewrite u64_small by (unfold in_u64; lia); lia.
Qed.

Lemma signed_store s d :
  in_i64 (signed_value s d) ->
  i64 (if chd s =? ch "-" then u64 (- d) else d) = signed_value s d.
Proof. unfold signed_value. intros H. destruct (_ =? _); [rewrite i64_u64|]; by apply i64_small. Qed.

Lemma dec_value_one s : Forall is_digit (take 1 s) -> dec_value (take 1 s) < 10.
Proof.
  destruct s as [|c s]; [intros _; vm_compute; done|]. intros HF.
  change (0 * 10 + (c - 48) < 10). inversion_clear HF as [|? ? Hd _]. unfold is_digit in Hd. lia.
Qed.

Lemma cnth_drop s o j : is_digit (cnth s (j + o)) -> drop o s !! j = Some (cnth s (j + o)).
Proof.
  rewrite lookup_drop, cnth_lookup, (Nat.add_comm j o). intros Hj.
  destruct (s !! (o + j)%nat); [done|]. unfold is_digit in Hj. simpl in Hj. lia.
Qed.

(** [scan_longlong] reads an optional sign and the longest run of
    decimal digits whose signed value fits in an [int64]; the value stored is
    exact, a digit that would leave the range is handed back, and without any
    digit nothing is consumed and nothing stored. *)
Theorem scan_longlong_longest (s : bytes) (dest : Z) :
  Forall is_byte s ->
  let o := sign_len s in
  exists k v, scan_longlong s dest = (k, v)
    /\ (k = 0%nat -> v = dest /\ ~ is_digit (cnth s o))
    /\ ((0 < k)%nat ->
        let ds := drop o s in
        (o < k)%nat /\ Forall is_digit (take (k - o) ds)
        /\ v = signed_value s (dec_value (take (k - o) ds)) /\ in_i64 v
        /\ (is_digit (cnth s k) -> ~ in_i64 (signed_value s (dec_value (take (S (k - o)) ds))))).
Proof.
  intros HF o. assert (HFo : Forall is_byte (drop o s)) by (by apply Forall_drop).
  destruct (scan_ulonglong_prefix (drop o s) 0 HFo) as (i & l & E & H1 & H2 & H3 & H4 & H5).
  unfold scan_longlong. fold (sign_len s). fold o. rewrite E. rewrite length_drop in H1.
  destruct (0 <? i)%nat eqn:Hi; zify_bool.
  2: { assert (i = 0%nat) as -> by lia. exists 0%nat, dest. split_and!; [done| |lia].
       intros _. split; [done|]. intros Hd. pose proof (H5 _ (cnth_drop s o 0 Hd) Hd) as H6.
       assert (dec_value (take 1 (drop o s)) < 10); [|lia].
       apply dec_value_one. rewrite (take_S_r _ _ _ (cnth_drop s o 0 Hd)). by constructor. }
  subst l. set (d := dec_value (take i (drop o s))) in *.
  destruct (d >? u64 (maxlong + c_bool (chd s =? ch "-"))) eqn:Hov.
  - apply longlong_limit in Hov; [|done].
    assert (Hd10 : 2 ^ 63 <= d) by (unfold signed_value, in_i64, in_u64 in *; destruct (_ =? _); lia).
    assert (Hi2 : (1 < i)%nat).
    { destruct (decide (i = 1%nat)) as [->|]; [|lia]. pose proof (dec_value_one _ H2). lia. }
    pose proof (dec_value_pred i (drop o s)) as Hp. rewrite length_drop in Hp.
    specialize (Hp (conj Hi H1) H2). fold d in Hp.
    assert (Hq : 0 <= d / 10 < 2 ^ 63).
    { unfold in_u64 in H4. split; [apply Z.div_pos; lia|apply Z.div_lt_upper_bound; lia]. }
    assert (Hin : in_i64 (signed_value s (d / 10))) by (unfold signed_value, in_i64; destruct (_ =? _); lia).
    rewrite (proj2 (Nat.ltb_lt 0 (i - 1 + o))) by lia. rewrite signed_store by done.
    eexists _, _. split_and!; [reflexivity|lia|intros _].
    replace (i - 1 + o - o)%nat with (i - 1)%nat by lia.
    replace (S (i - 1)) with i by lia. rewrite Hp. fold d.
    split_and!; [lia| |done|done|done].
    replace (i - 1)%nat with ((i - 1) `min` i)%nat by lia. rewrite <-take_take. by apply Forall_take.
  - assert (Hin : in_i64 (signed_value s d)).
    { destruct (decide (in_i64 (signed_value s d))) as [|Hn]; [done|].
      apply longlong_limit in Hn; [congruence|done]. }
    rewrite (proj2 (Nat.ltb_lt 0 (i + o))) by lia. rewrite signed_store by done.
    eexists _, _. split_and!; [reflexivity|lia|intros _].
    replace (i + o - o)%nat with i by lia.
    split_and!; [lia|done|done|done|].
    intros Hd. pose proof (H5 _ (cnth_drop s o i Hd) Hd). unfold in_i64, signed_value.
    destruct (_ =? _); lia.
Qed.

Lemma scan_longlong_longest_witness :
  scan_longlong (b "-9223372036854775809") 0 = (19%nat, -922337203685477580) /\
  let s := b "-9223372036854775809" in let o := sign_len s in
  exists k v, scan_longlong s 0 = (k, v)
    /\ (k = 0%nat -> v = 0 /\ ~ is_digit (cnth s o))
    /\ ((0 < k)%nat ->
        let ds := drop o s in
        (o < k)%nat /\ Forall is_digit (take (k - o) ds)
        /\ v = signed_value s (dec_value (take (k - o) ds)) /\ in_i64 v
        /\ (is_digit (cnth s k) -> ~ in_i64 (signed_value s (dec_value (take (S (k - o)) ds))))).
Proof.
  split; [vm_compute; reflexivity|].
  apply (scan_longlong_longest (b "-9223372036854775809") 0).
  vm_compute. repeat constructor; discriminate.
Defined.
