(* ===== verification/Getopt.v ===== *)
(** * Reading options (lib/shell/shell_getopt.c)

    [shell_getopt_long_r] returns one option of the argument list at a time
    and remembers in [struct optstate] where it stands: the word [st_ind] and,
    inside a word of several letters, [st_ofs].  argv[0] is not looked at; the
    list ends where the NULL does.  A NULL [st_prefixes] and reading behind the
    end of a word are [None]. *)

From S2P Require Import Prelude CStr.

Definition SHELL_OPT_HELP : Z := 0x100.
Definition SHELL_OPTERR_UNKNOWN : Z := 1.
Definition SHELL_OPTERR_MISSING : Z := 2.
Definition SHELL_OPTERR_NOARG : Z := 3.
Definition SHELL_OPTERR_HELP : Z := 4.

Record optstate := Optstate {
  st_prefixes : option bytes;                          (** none: NULL *)
  st_ind : nat;
  st_ofs : nat;
  st_opt : Z;
  st_arg : option bytes;
  st_prefix : Z;
  st_lname : option bytes;
  st_err : Z
}.

Definition default_prefixes : bytes := b "-".

(** shell_opt, before the first call *)
Definition shell_opt : optstate := Optstate (Some default_prefixes) 0 0 0 None 0 None 0.

Definition state_clear (st : optstate) : optstate :=
  Optstate (Some default_prefixes) 0 0 0 None (st_prefix st) (st_lname st) (st_err st).

Definition with_prefixes (x : option bytes) (st : optstate) : optstate :=
  Optstate x (st_ind st) (st_ofs st) (st_opt st) (st_arg st) (st_prefix st) (st_lname st) (st_err st).
Definition with_pos (ind ofs : nat) (st : optstate) : optstate :=
  Optstate (st_prefixes st) ind ofs (st_opt st) (st_arg st) (st_prefix st) (st_lname st) (st_err st).
Definition with_opt (x : Z) (st : optstate) : optstate :=
  Optstate (st_prefixes st) (st_ind st) (st_ofs st) x (st_arg st) (st_prefix st) (st_lname st) (st_err st).
Definition with_arg (x : option bytes) (st : optstate) : optstate :=
  Optstate (st_prefixes st) (st_ind st) (st_ofs st) (st_opt st) x (st_prefix st) (st_lname st) (st_err st).
Definition with_prefix (x : Z) (st : optstate) : optstate :=
  Optstate (st_prefixes st) (st_ind st) (st_ofs st) (st_opt st) (st_arg st) x (st_lname st) (st_err st).
Definition with_lname (x : option bytes) (st : optstate) : optstate :=
  Optstate (st_prefixes st) (st_ind st) (st_ofs st) (st_opt st) (st_arg st) (st_prefix st) x (st_err st).
Definition with_err (x : Z) (st : optstate) : optstate :=
  Optstate (st_prefixes st) (st_ind st) (st_ofs st) (st_opt st) (st_arg st) (st_prefix st) (st_lname st) x.

(** optind++ *)
Definition next_word (st : optstate) : optstate := with_pos (S (st_ind st)) (st_ofs st) st.

Section Getopt.
Context (argv : list bytes).

(** ** Long options *)

(** The end of the name of the option at the start of [w], which is [l] bytes
    long *)
Fixpoint long_name_end (w : bytes) (l n : nat) : nat :=
  match l with
  | O => n
  | S l => if (cnth w n =? ch "=") || (cnth w n =? ch ":") || (cnth w n =? ch "?") then n
           else long_name_end w l (S n)
  end.

(** The match of [name], [nl] bytes of which are the option's name: the mode
    and the code *)
Fixpoint find_long (fuel : nat) (w name : bytes) (nl : nat) : option (Z * Z) :=
  match fuel with
  | O => None
  | S fuel =>
      if (List.length w =? 0)%nat then None
      else
        let l := str_chr w (ch " ") in
        let n := long_name_end w l 0 in
        if (n =? nl)%nat && (str_diffn w name nl =? 0) then
          let mode := if cnth w n =? ch "=" then 0 else cnth w n in
          Some (mode, cnth w (n + (if mode =? 0 then 1 else 2)))
        else
          let w := drop l w in
          find_long fuel (if cnth w 0 =? ch " " then drop 1 w else w) name nl
  end.

Definition getopt_long (st : optstate) (longopts : option bytes) : Z * optstate :=
  let word := default [] (argv !! st_ind st) in
  let name := drop 2 word in
  let nl := str_chr name (ch "=") in
  let w := default [] longopts in
  let st := with_lname (Some word) st in
  match find_long (S (List.length w)) w name nl with
  | Some (mode, code) =>
      let hasval := cnth name nl =? ch "=" in
      let st := with_arg None (with_opt code st) in
      if (mode =? 0) && hasval then (ch "?", next_word (with_err SHELL_OPTERR_NOARG st))
      else if negb (mode =? 0) && hasval then (code, next_word (with_arg (Some (drop (S nl) name)) st))
      else if mode =? ch ":" then
        match argv !! S (st_ind st) with
        | None => (ch ":", next_word (with_err SHELL_OPTERR_MISSING st))
        | Some value => (code, next_word (next_word (with_arg (Some value) st)))
        end
      else (code, next_word st)
  | None =>
      let st := next_word st in
      if (nl =? 4)%nat && (str_diffn name (b "help") 4 =? 0) && (cnth name 4 =? 0)
      then (SHELL_OPT_HELP, with_err SHELL_OPTERR_HELP st)
      else (ch "?", with_err SHELL_OPTERR_UNKNOWN st)
  end.

(** ** Options of one letter *)

(** What a pass of the function does: returns, or goes to [again] *)
Inductive pass := Returned (c : Z) (st : optstate) | Again (st : optstate).

(** From [again] on; none: not defined *)
Definition getopt_pass (st : optstate) (optstring : bytes) (longopts : option bytes) : option pass :=
  match argv !! st_ind st, st_prefixes st with
  | None, _ => Some (Returned (-1) st)
  | Some _, None => None
  | Some word, Some prefixes =>
      let st := with_prefix (cnth prefixes (str_chr prefixes (cnth word 0))) st in
      if (st_prefix st =? 0) || (cnth word 1 =? 0) then Some (Returned (-1) st)
      else if (cnth word 1 =? ch "-") && (cnth word 2 =? 0) then Some (Returned (-1) (next_word st))
      else if bool_decide (prefixes = default_prefixes) && (st_ofs st =? 0)%nat && (cnth word 1 =? ch "-") then
        let '(c, st) := getopt_long st longopts in Some (Returned c st)
      else if (List.length word <? st_ofs st + 1)%nat then None
      else
        let c := cnth word (st_ofs st + 1) in
        let st := with_opt (schar c) st in
        let offset := str_chr optstring c in
        if c =? 0 then Some (Again (with_pos (S (st_ind st)) 0 st))
        else if cnth optstring offset =? 0 then
          Some (Returned (ch "?") (next_word (with_err SHELL_OPTERR_UNKNOWN st)))
        else if cnth optstring (offset + 1) =? ch ":" then
          let rest := drop (st_ofs st + 2) word in
          if (cnth optstring (offset + 2) =? ch ":") || negb (List.length rest =? 0)%nat then
            let st := with_arg (if (List.length rest =? 0)%nat then None else Some rest) st in
            Some (Returned (schar c) (next_word st))
          else
            match argv !! S (st_ind st) with
            | None => Some (Returned (ch ":") (next_word (with_err SHELL_OPTERR_MISSING (with_arg None st))))
            | Some value => Some (Returned (schar c) (next_word (next_word (with_arg (Some value) st))))
            end
        else Some (Returned (schar c) (with_pos (st_ind st) (S (st_ofs st)) st))
  end.

Fixpoint getopt_passes (fuel : nat) (st : optstate) (optstring : bytes) (longopts : option bytes)
    : option (Z * optstate) :=
  match fuel with
  | O => None
  | S fuel =>
      match getopt_pass st optstring longopts with
      | Some (Returned c st) => Some (c, st)
      | Some (Again st) => getopt_passes fuel st optstring longopts
      | None => None
      end
  end.

Definition shell_getopt_long_r (st : optstate) (optstring : bytes) (longopts : option bytes) : option (Z * optstate) :=
  let first := (st_ind st =? 0)%nat in
  let plus := first && (cnth optstring 0 =? ch "+") in
  let optstring := if plus then drop 1 optstring else optstring in
  let st := if first then next_word (with_prefixes (Some (if plus then b "+-" else default_prefixes)) (state_clear st)) else st in
  getopt_passes (S (S (List.length argv))) (with_lname None (with_err 0 st)) optstring longopts.

Definition shell_getopt_r (st : optstate) (optstring : bytes) : option (Z * optstate) :=
  shell_getopt_long_r st optstring None.

End Getopt.
