(* ===== verification/GetoptProps.v ===== *)
(** * What reading options returns (lib/shell/shell_getopt.c)

    Reading all options of an argument list ends; and a list written from
    options in the ways the utility syntax guidelines allow is read as those
    options, up to the first operand. *)

From S2P Require Import Prelude CStr Getopt.

(** ** Reading all options *)

(** The options with their arguments and the index of the first operand *)
Inductive options_end := Options (l : list (Z * option bytes)) (ind : nat) | Overread | Cut.

Definition prepend (o : Z * option bytes) (r : options_end) : options_end :=
  match r with Options l ind => Options (o :: l) ind | r => r end.

Section Options.
Context (argv : list bytes) (optstring : bytes) (longopts : option bytes).

(** A letter that takes no argument *)
Definition is_flag (c : Z) : bool := negb (cnth optstring (S (str_chr optstring c)) =? ch ":").

(** The argument of the option [c] just read: a letter without one leaves the
    previous in [st_arg]. *)
Definition option_arg (c : Z) (st : optstate) : option bytes :=
  match st_lname st with None => if is_flag c then None else st_arg st | Some _ => st_arg st end.

Fixpoint all_options (fuel : nat) (st : optstate) : options_end :=
  match fuel with
  | O => Cut
  | S fuel =>
      match shell_getopt_long_r argv st optstring longopts with
      | None => Overread
      | Some (c, st) =>
          if c =? -1 then Options [] (st_ind st) else prepend (c, option_arg c st) (all_options fuel st)
      end
  end.

(** ** It ends *)

Definition word_len (i : nat) : nat := List.length (default [] (argv !! i)).

(** What is left to read *)
Definition left (st : optstate) : nat :=
  (list_sum (List.map (fun w => S (List.length w)) (drop (st_ind st) argv)) - Nat.min (st_ofs st) (word_len (st_ind st)))%nat.

Lemma sum_drop i w : argv !! i = Some w ->
  list_sum (List.map (fun w => S (List.length w)) (drop i argv))
    = (S (List.length w) + list_sum (List.map (fun w => S (List.length w)) (drop (S i) argv)))%nat.
Proof. intros L. by rewrite (drop_S _ _ _ L). Qed.

(** Going to a later word leaves less, wherever one is in it. *)
Lemma left_next st w st' : argv !! st_ind st = Some w -> (st_ind st < st_ind st')%nat -> (left st' < left st)%nat.
Proof.
  intros L I. unfold left, word_len. rewrite (sum_drop _ _ L), L. cbn [default id].
  assert (D : forall i j, (i <= j)%nat -> (list_sum (List.map (fun w => S (List.length w)) (drop j argv)) <=
    list_sum (List.map (fun w => S (List.length w)) (drop i argv)))%nat).
  { intros i j J. replace j with (i + (j - i))%nat by lia. rewrite <-drop_drop.
    rewrite <-(take_drop (j - i) (drop i argv)) at 2. rewrite List.map_app, list_sum_app. lia. }
  specialize (D (S (st_ind st)) (st_ind st') ltac:(lia)). lia.
Qed.

Lemma left_letter st w st' : argv !! st_ind st = Some w -> st_ind st' = st_ind st -> st_ofs st' = S (st_ofs st) ->
  (st_ofs st < List.length w)%nat -> (left st' < left st)%nat.
Proof.
  intros L I O B. unfold left, word_len. rewrite I, O, (sum_drop _ _ L), L. cbn [default id].
  lia.
Qed.

(** An option read, or a word finished, leaves less. *)
Definition after (st : optstate) (c : Z) (st' : optstate) : Prop :=
  (st_ind st <= st_ind st')%nat /\ (c = -1 \/ (left st' < left st)%nat).

Definition progress (st : optstate) (p : pass) : Prop :=
  match p with
  | Returned c st' => after st c st'
  | Again st' => (st_ind st' = S (st_ind st))%nat /\ (st_ind st < List.length argv)%nat /\ (left st' < left st)%nat
  end.

Lemma after_next st w c st' : argv !! st_ind st = Some w -> (st_ind st < st_ind st')%nat -> after st c st'.
Proof. intros L I. split; [lia|right]. by eapply left_next. Qed.

Lemma getopt_long_progress st w : argv !! st_ind st = Some w ->
  after st (fst (getopt_long argv st longopts)) (snd (getopt_long argv st longopts)).
Proof.
  intros L. unfold getopt_long.
  destruct (find_long _ _ _ _) as [[mode code]|]; repeat case_match; (eapply after_next; [exact L|cbn; lia]).
Qed.

Lemma cnth_lt w i : cnth w i <> 0 -> (i < List.length w)%nat.
Proof. unfold cnth. intros N. destruct (decide (i < List.length w)%nat); [done|]. rewrite nth_overflow in N by lia. done. Qed.

Lemma pass_progress st p : getopt_pass argv st optstring longopts = Some p -> progress st p.
Proof.
  unfold getopt_pass. destruct (argv !! st_ind st) as [w|] eqn:L; [|intros [= <-]; split; [done|by left]].
  destruct (st_prefixes st) as [ps|]; [|done]. cbv zeta.
  case_test; [intros [= <-]; split; [done|by left]|]. case_test; [intros [= <-]; split; [cbn; lia|by left]|].
  case_test.
  { pose proof (getopt_long_progress (with_prefix (cnth ps (str_chr ps (cnth w 0))) st) w L) as P.
    destruct (getopt_long _ _ _). by intros [= <-]. }
  case_test; [done|]. case_test.
  { intros [= <-]. split_and!; [done|by eapply lookup_lt_Some|]. eapply left_next; [exact L|cbn; lia]. }
  case_test; [intros [= <-]; eapply after_next; [exact L|cbn; lia]|].
  case_test.
  - case_test; [intros [= <-]; eapply after_next; [exact L|cbn; lia]|].
    case_match; intros [= <-]; eapply after_next; try exact L; cbn; lia.
  - intros [= <-]. split; [done|right]. eapply left_letter; [exact L|done|done|]. cbn [st_ofs with_pos with_opt with_prefix] in *.
    zify_bool. match goal with H : cnth w _ <> 0 |- _ => apply cnth_lt in H end. cbn in *. lia.
Qed.

Lemma passes_progress fuel : forall st, (List.length argv - st_ind st < fuel)%nat ->
  match getopt_passes argv fuel st optstring longopts with
  | Some (c, st') => after st c st'
  | None => True
  end.
Proof.
  induction fuel as [|fuel IH]; intros st F; [lia|]. cbn [getopt_passes].
  destruct (getopt_pass argv st optstring longopts) as [p|] eqn:E; [|done]. apply pass_progress in E.
  destruct p as [c st'|st']; [done|]. destruct E as (I & B & L). specialize (IH st' ltac:(lia)).
  destruct (getopt_passes _ _ _ _ _) as [[c st2]|]; [|done]. destruct IH as [I2 [?|?]]; (split; [lia|]); [by left|right; lia].
Qed.

(** The passes of the model's bound are enough for the words left. *)
Lemma passes_enough fuel k : forall st, (List.length argv - st_ind st < fuel)%nat ->
  getopt_passes argv (fuel + k) st optstring longopts = getopt_passes argv fuel st optstring longopts.
Proof.
  induction fuel as [|fuel IH]; intros st F; [lia|]. cbn [getopt_passes Nat.add].
  destruct (getopt_pass argv st optstring longopts) as [p|] eqn:E; [|done]. apply pass_progress in E.
  destruct p as [c st'|st']; [done|]. destruct E as (I & B & L). apply IH. lia.
Qed.

(** Where the first call starts *)
Definition first_state (st : optstate) : optstate :=
  if (st_ind st =? 0)%nat
  then next_word (with_prefixes (Some (if cnth optstring 0 =? ch "+" then b "+-" else default_prefixes)) (state_clear st))
  else st.

Definition letters_of (st : optstate) : bytes :=
  if (st_ind st =? 0)%nat && (cnth optstring 0 =? ch "+") then drop 1 optstring else optstring.

Lemma call_passes st : shell_getopt_long_r argv st optstring longopts =
  getopt_passes argv (S (S (List.length argv))) (with_lname None (with_err 0 (first_state st))) (letters_of st) longopts.
Proof. unfold shell_getopt_long_r, first_state, letters_of. by destruct (st_ind st =? 0)%nat, (cnth optstring 0 =? ch "+"). Qed.

End Options.

Section Ends.
Context (argv : list bytes) (optstring : bytes) (longopts : option bytes).

Lemma first_state_ind st : (st_ind (first_state optstring st) <> 0)%nat.
Proof. unfold first_state. destruct (Nat.eqb_spec (st_ind st) 0); [done|lia]. Qed.

Lemma first_state_again st : st_ind st <> 0%nat -> first_state optstring st = st.
Proof. intros N. unfold first_state. by destruct (Nat.eqb_spec (st_ind st) 0). Qed.

Lemma call_after st :
  match shell_getopt_long_r argv st optstring longopts with
  | Some (c, st') => after argv (first_state optstring st) c st'
  | None => True
  end.
Proof.
  rewrite call_passes.
  pose proof (passes_progress argv (letters_of optstring st) longopts (S (S (List.length argv)))
    (with_lname None (with_err 0 (first_state optstring st))) ltac:(lia)) as P.
  by destruct (getopt_passes _ _ _ _ _) as [[c st']|].
Qed.

Lemma all_options_from fuel : forall st, (left argv (first_state optstring st) < fuel)%nat ->
  all_options argv optstring longopts fuel st <> Cut.
Proof.
  induction fuel as [|fuel IH]; intros st F; [lia|]. cbn [all_options]. pose proof (call_after st) as A.
  destruct (shell_getopt_long_r _ _ _ _) as [[c st']|]; [|done]. destruct A as [I L].
  destruct (Z.eqb_spec c (-1)); [done|]. destruct L as [?|L]; [done|]. pose proof (first_state_ind st).
  specialize (IH st'). rewrite first_state_again in IH by lia. specialize (IH ltac:(lia)).
  by destruct (all_options _ _ _ _ _).
Qed.

End Ends.

(** ** A list written from options is read as them *)

(** *** The text of the long options *)

(** "name=X", "name:=X" or "name?=X" *)
Record long_option := Long { l_name : bytes; l_mode : Z; l_code : Z }.

Definition long_text (e : long_option) : bytes :=
  l_name e ++ (if l_mode e =? 0 then [] else [l_mode e]) ++ [ch "="; l_code e].

Fixpoint long_texts (es : list long_option) : bytes :=
  match es with
  | [] => []
  | e :: es => long_text e ++ match es with [] => [] | _ => ch " " :: long_texts es end
  end.

Record long_ok (e : long_option) : Prop := {
  lo_name : cstring (l_name e);
  lo_blank : ch " " ∉ l_name e;
  lo_marks : Forall (fun c => ((c =? ch "=") || (c =? ch ":") || (c =? ch "?")) = false) (l_name e);
  lo_some : l_name e <> [];
  lo_mode : l_mode e = 0 \/ l_mode e = ch ":" \/ l_mode e = ch "?";
  lo_code : 0 < l_code e < 256;
  lo_coded : l_code e <> ch " "
}.

Lemma long_text_cstring e : long_ok e -> cstring (long_text e).
Proof.
  intros E. unfold long_text. rewrite !cstring_app. split_and!; [apply E| |].
  - case_test; [constructor|]. pose proof (lo_mode _ E) as M. zify_bool.
    constructor; [|constructor]. by destruct M as [M|[-> | ->]].
  - repeat constructor; try done; apply E.
Qed.

Lemma long_text_blank e : long_ok e -> ch " " ∉ long_text e.
Proof.
  intros E. unfold long_text. rewrite !not_elem_of_app. split_and!; [apply E| |].
  - case_test; [apply not_elem_of_nil|]. pose proof (lo_mode _ E) as M. zify_bool. apply not_elem_of_cons. split; [|apply not_elem_of_nil].
    by destruct M as [M|[-> | ->]].
  - rewrite !not_elem_of_cons. split_and!; [done| |apply not_elem_of_nil]. pose proof (lo_coded _ E). congruence.
Qed.

(** The first entry's text, and what is behind it *)
Lemma long_text_split e tl : long_ok e -> (tl = [] \/ exists t, tl = ch " " :: t) ->
  str_chr (long_text e ++ tl) (ch " ") = List.length (long_text e).
Proof.
  intros E [->|[t ->]].
  - rewrite app_nil_r. apply str_chr_none; [by apply long_text_cstring|by apply long_text_blank].
  - apply str_chr_app; [by apply long_text_cstring|by apply long_text_blank|done].
Qed.

Lemma long_name_end_from s : Forall (fun c => ((c =? ch "=") || (c =? ch ":") || (c =? ch "?")) = false) s ->
  forall p m t l, ((m =? ch "=") || (m =? ch ":") || (m =? ch "?")) = true -> (List.length s < l)%nat ->
  long_name_end (p ++ s ++ m :: t) l (List.length p) = (List.length p + List.length s)%nat.
Proof.
  induction 1 as [|c s C S IH]; intros p m t l M L; (destruct l as [|l]; [cbn in L; lia|]); cbn [long_name_end].
  - replace (cnth (p ++ [] ++ m :: t) (List.length p)) with m by (unfold cnth; by rewrite app_nth2, Nat.sub_diag by lia).
    rewrite M. cbn. lia.
  - replace (cnth _ _) with c by (unfold cnth; by rewrite app_nth2, Nat.sub_diag by lia). rewrite C.
    specialize (IH (p ++ [c]) m t l M ltac:(cbn in L; lia)). rewrite <-app_assoc, length_app in IH. cbn in IH |- *.
    rewrite Nat.add_1_r in IH. rewrite IH. lia.
Qed.

Lemma long_text_name e tl : long_ok e ->
  long_name_end (long_text e ++ tl) (List.length (long_text e)) 0 = List.length (l_name e).
Proof.
  intros E. pose proof (lo_mode _ E) as M. unfold long_text.
  assert (S : exists m t, (l_name e ++ (if l_mode e =? 0 then [] else [l_mode e]) ++ [ch "="; l_code e]) ++ tl
    = [] ++ l_name e ++ m :: t /\ ((m =? ch "=") || (m =? ch ":") || (m =? ch "?")) = true).
  { destruct M as [M|[M|M]]; rewrite M, <-app_assoc; eexists _, _; split; reflexivity. }
  destruct S as (m & t & -> & S). rewrite (long_name_end_from _ (lo_marks _ E) [] m t) by (done || rewrite !length_app; cbn; lia).
  done.
Qed.

Lemma cnth_behind s t k : cnth (s ++ t) (List.length s + k) = cnth t k.
Proof. unfold cnth. rewrite app_nth2 by lia. f_equal. lia. Qed.

Lemma cnth_first s t : cnth (s ++ t) (List.length s) = cnth t 0.
Proof. rewrite <-(cnth_behind s t 0). f_equal. lia. Qed.

(** The search looks at the entries in their order. *)
Lemma find_long_step fuel f tl name nl : long_ok f -> (tl = [] \/ exists t, tl = ch " " :: t) ->
  find_long (S fuel) (long_text f ++ tl) name nl =
    if (List.length (l_name f) =? nl)%nat && (str_diffn (long_text f ++ tl) name nl =? 0)
    then Some (l_mode f, l_code f) else find_long fuel (drop 1 tl) name nl.
Proof.
  intros F T. cbn [find_long]. rewrite (long_text_split _ _ F T), (long_text_name _ _ F).
  assert (W : (List.length (long_text f ++ tl) =? 0)%nat = false).
  { apply Nat.eqb_neq. rewrite length_app. unfold long_text. rewrite !length_app. cbn. lia. }
  rewrite W. case_test.
  - pose proof (lo_mode _ F) as M. unfold long_text. rewrite <-!app_assoc, !cnth_first, cnth_behind.
    by destruct M as [M|[M|M]]; rewrite M.
  - rewrite drop_app_length. f_equal. by destruct T as [->|[t ->]].
Qed.

Lemma find_long_first es1 e es2 r : Forall long_ok (es1 ++ e :: es2) -> Forall (fun f => l_name f <> l_name e) es1 ->
  cstring (l_name e) -> forall fuel, (List.length (long_texts (es1 ++ e :: es2)) < fuel)%nat ->
  find_long fuel (long_texts (es1 ++ e :: es2)) (l_name e ++ r) (List.length (l_name e)) = Some (l_mode e, l_code e).
Proof.
  intros W N C. induction es1 as [|f es1 IH]; intros fuel F; (destruct fuel as [|fuel]; [lia|]).
  - cbn [app long_texts]. apply Forall_cons in W as [E W]. rewrite find_long_step; [|done|destruct es2; eauto].
    rewrite Nat.eqb_refl. unfold long_text. rewrite <-!app_assoc.
    by rewrite (proj2 (Z.eqb_eq _ _) (proj2 (str_diffn_eq (l_name e) (l_name e) _ r C C eq_refl) eq_refl)).
  - cbn [app long_texts] in *. apply Forall_cons in W as [E W]. apply Forall_cons in N as [D N].
    rewrite find_long_step; [|done|destruct (es1 ++ e :: es2); eauto].
    replace ((_ =? _)%nat && _) with false.
    + destruct (es1 ++ e :: es2) eqn:S; [by destruct es1|]. rewrite <-S in *. apply IH; [done|done|].
      rewrite length_app in F. cbn in F. unfold drop. lia.
    + symmetry. apply andb_false_iff. destruct (Nat.eqb_spec (List.length (l_name f)) (List.length (l_name e))) as [L|]; [right|by left].
      apply Z.eqb_neq. rewrite <-L. unfold long_text. rewrite <-!app_assoc. rewrite str_diffn_eq by (done || apply E). done.
Qed.

(** *** The ways to write options *)

Section Written.
Context (optstring : bytes) (es : list long_option).

(** What a letter is followed by in the option string *)
Definition behind (c : Z) (n : nat) : Z := cnth optstring (str_chr optstring c + n).

Definition letter (c : Z) : Prop := 0 < c < 128 /\ c <> ch "-" /\ behind c 0 <> 0.
Definition flag (c : Z) : Prop := letter c /\ behind c 1 <> ch ":".
Definition required (c : Z) : Prop := letter c /\ behind c 1 = ch ":" /\ behind c 2 <> ch ":".
Definition optional (c : Z) : Prop := letter c /\ behind c 1 = ch ":" /\ behind c 2 = ch ":".

(** The first entry of its name *)
Definition entry (e : long_option) : Prop :=
  exists es1 es2, es = es1 ++ e :: es2 /\ Forall (fun f => l_name f <> l_name e) es1.

Inductive item :=
| Flags (cs : bytes)                                  (** -abc *)
| Joined (c : Z) (v : bytes)                          (** -ovalue *)
| Separate (c : Z) (v : bytes)                        (** -o value *)
| Lone (c : Z)                                        (** -o, the value being optional *)
| LongFlag (e : long_option)                          (** --name *)
| LongJoined (e : long_option) (v : bytes)            (** --name=value *)
| LongSeparate (e : long_option) (v : bytes)          (** --name value *)
| LongLone (e : long_option).                         (** --name, the value being optional *)

Definition item_ok (it : item) : Prop :=
  match it with
  | Flags cs => cs <> [] /\ Forall flag cs
  | Joined c v => (required c \/ optional c) /\ v <> []
  | Separate c _ => required c
  | Lone c => optional c
  | LongFlag e => entry e /\ l_mode e = 0
  | LongJoined e _ => entry e /\ l_mode e <> 0
  | LongSeparate e _ => entry e /\ l_mode e = ch ":"
  | LongLone e => entry e /\ l_mode e = ch "?"
  end.

Definition item_words (it : item) : list bytes :=
  match it with
  | Flags cs => [ch "-" :: cs]
  | Joined c v => [ch "-" :: c :: v]
  | Separate c v => [[ch "-"; c]; v]
  | Lone c => [[ch "-"; c]]
  | LongFlag e | LongLone e => [ch "-" :: ch "-" :: l_name e]
  | LongJoined e v => [ch "-" :: ch "-" :: l_name e ++ ch "=" :: v]
  | LongSeparate e v => [ch "-" :: ch "-" :: l_name e; v]
  end.

Definition meaning (it : item) : list (Z * option bytes) :=
  match it with
  | Flags cs => List.map (fun c => (c, None)) cs
  | Joined c v | Separate c v => [(c, Some v)]
  | Lone c => [(c, None)]
  | LongFlag e | LongLone e => [(l_code e, None)]
  | LongJoined e v | LongSeparate e v => [(l_code e, Some v)]
  end.

(** What stops the options: no word, "--", which is an operand no more, "-" or
    a word without a dash *)
Definition options_stop (rest : list bytes) : option nat :=
  match rest with
  | [] => Some 0%nat
  | w :: _ => if bool_decide (w = [ch "-"; ch "-"]) then Some 1%nat
              else if negb (chd w =? ch "-") || bool_decide (w = [ch "-"]) then Some 0%nat else None
  end.

Context (es_ok : Forall long_ok es).
Context (argv : list bytes).
Let longopts := Some (long_texts es).

(** At letter [k] of word [i] *)
Definition at_letter (i k : nat) (st : optstate) : Prop :=
  st_prefixes st = Some default_prefixes /\ st_ind st = i /\ st_ofs st = k /\ st_lname st = None.

Lemma pass_letter st i k w c : at_letter i k st -> argv !! i = Some w -> w !! 0%nat = Some (ch "-") ->
  w !! S k = Some c -> (k = 0%nat \/ cnth w 1 <> ch "-") -> letter c -> cnth w 1 <> 0 ->
  exists st2, with_opt c (with_prefix (ch "-") st) = st2 /\
  getopt_pass argv st optstring longopts =
    Some (if behind c 1 =? ch ":" then
            let rest := drop (k + 2) w in
            if (behind c 2 =? ch ":") || negb (List.length rest =? 0)%nat then
              Returned c (next_word (with_arg (if (List.length rest =? 0)%nat then None else Some rest) st2))
            else match argv !! S i with
                 | None => Returned (ch ":") (next_word (with_err SHELL_OPTERR_MISSING (with_arg None st2)))
                 | Some v => Returned c (next_word (next_word (with_arg (Some v) st2)))
                 end
          else Returned c (with_pos i (S k) st2)).
Proof.
  intros (P & I & O & L) W D C K (R & M & N) Z. eexists. split; [done|].
  unfold getopt_pass. rewrite I, W, P. cbv zeta.
  rewrite (cnth_lookup w 0), D. cbn [default id].
  replace (cnth default_prefixes (str_chr default_prefixes (ch "-"))) with (ch "-") by done.
  assert (C' : cnth w (k + 1) = c) by (rewrite cnth_lookup, Nat.add_1_r, C; done).
  assert (L' : (List.length w <? k + 1)%nat = false) by (apply Nat.ltb_ge; apply lookup_lt_Some in C; lia).
  cbn [st_prefix with_prefix st_ofs]. rewrite O, L', C'.
  rewrite (proj2 (Z.eqb_neq _ _) Z).
  assert (S1 : (cnth w 1 =? ch "-") && (cnth w 2 =? 0) = false).
  { destruct K as [->|K]; [|by rewrite (proj2 (Z.eqb_neq _ _) K)]. cbn in C'. rewrite C'. by rewrite (proj2 (Z.eqb_neq _ _) M). }
  assert (S2 : (k =? 0)%nat && (cnth w 1 =? ch "-") = false).
  { destruct K as [->|K]; [|by rewrite (proj2 (Z.eqb_neq _ _) K), andb_false_r]. cbn in C'. rewrite C'. by rewrite (proj2 (Z.eqb_neq _ _) M). }
  rewrite S1, <-andb_assoc, S2, andb_false_r. cbn [orb ch b_of_ascii].
  replace (schar c) with c by (unfold schar; case_test; bool_lia).
  rewrite (proj2 (Z.eqb_neq c 0)) by lia.
  unfold behind in N. rewrite Nat.add_0_r in N. rewrite (proj2 (Z.eqb_neq _ _) N).
  fold (behind c 1) (behind c 2).
  change (st_ofs (with_opt c (with_prefix (ch "-") st))) with (st_ofs st).
  change (st_ind (with_opt c (with_prefix (ch "-") st))) with (st_ind st). rewrite I, O. cbv zeta.
  replace (ch "-" =? 0) with false by done. cbn [orb].
  destruct (behind c 1 =? ch ":"); [|done].
  destruct ((behind c 2 =? ch ":") || _); [done|]. by destruct (argv !! S i).
Qed.

(** Before the word [i], or behind the letters of the word in front of it *)
Definition before (i : nat) (st : optstate) : Prop :=
  st_ofs st = 0%nat /\ st_ind st = i \/
  S (st_ind st) = i /\ exists c cs, argv !! st_ind st = Some (ch "-" :: c :: cs) /\ letter c /\ st_ofs st = S (List.length cs).

Definition ready (i : nat) (st : optstate) : Prop :=
  st_ind st = 0%nat /\ i = 1%nat \/ st_ind st <> 0%nat /\ st_prefixes st = Some default_prefixes /\ before i st.

Context (no_plus : cnth optstring 0 <> ch "+").

Lemma letters_all st : letters_of optstring st = optstring.
Proof. unfold letters_of. by rewrite (proj2 (Z.eqb_neq _ _) no_plus), andb_false_r. Qed.

Lemma call_at st i k (Q : Z -> optstate -> Prop) : st_ind st <> 0%nat ->
  st_prefixes st = Some default_prefixes -> st_ind st = i -> st_ofs st = k ->
  (forall st', at_letter i k st' -> exists c st2, getopt_pass argv st' optstring longopts = Some (Returned c st2) /\ Q c st2) ->
  exists c st2, shell_getopt_long_r argv st optstring longopts = Some (c, st2) /\ Q c st2.
Proof.
  intros N P I O H. rewrite call_passes, letters_all, first_state_again by done.
  destruct (H (with_lname None (with_err 0 st))) as (c & st2 & E & QQ); [done|].
  exists c, st2. split; [|done]. cbn [getopt_passes]. by rewrite E.
Qed.

(** The pass over a word's end *)
Lemma pass_word_end st i c cs : st_ind st = i -> st_prefixes st = Some default_prefixes ->
  argv !! i = Some (ch "-" :: c :: cs) -> letter c -> st_ofs st = S (List.length cs) -> st_lname st = None ->
  exists st', getopt_pass argv st optstring longopts = Some (Again st') /\ at_letter (S i) 0 st'.
Proof.
  intros I P W (R & M & N) O L. eexists. unfold getopt_pass. rewrite I, W, P. cbv zeta.
  change (cnth (ch "-" :: c :: cs) 0) with (ch "-"). change (cnth (ch "-" :: c :: cs) 1) with c.
  change (cnth default_prefixes (str_chr default_prefixes (ch "-"))) with (ch "-").
  rewrite (proj2 (Z.eqb_neq c 0)), (proj2 (Z.eqb_neq _ _) M) by lia. cbn [st_ofs with_prefix st_prefix]. rewrite O.
  rewrite andb_false_r. cbn [andb].
  replace (List.length _ <? _)%nat with false by (symmetry; apply Nat.ltb_ge; cbn; lia).
  replace (cnth _ _) with 0 by (unfold cnth; rewrite nth_overflow by (cbn; lia); done).
  cbn [ch b_of_ascii orb Z.eqb schar]. split; [reflexivity|]. unfold at_letter; cbn. by rewrite I, P, L.
Qed.

Lemma call_ready st i (Q : Z -> optstate -> Prop) : ready i st ->
  (forall st', at_letter i 0 st' -> exists c st2, getopt_pass argv st' optstring longopts = Some (Returned c st2) /\ Q c st2) ->
  exists c st2, shell_getopt_long_r argv st optstring longopts = Some (c, st2) /\ Q c st2.
Proof.
  intros [[I ->]|(N & P & [[O I]|(I & c & cs & W & C & O)])] H.
  - rewrite call_passes, letters_all. unfold first_state. rewrite I, (proj2 (Z.eqb_neq _ _) no_plus). cbn [Nat.eqb].
    edestruct (H (with_lname None (with_err 0 (next_word (with_prefixes (Some default_prefixes) (state_clear st))))))
      as (c & st2 & E & QQ); [done|]. exists c, st2. split; [|done]. cbn [getopt_passes]. by rewrite E.
  - by eapply call_at.
  - rewrite call_passes, letters_all, first_state_again by done.
    destruct (pass_word_end (with_lname None (with_err 0 st)) (st_ind st) c cs) as (st' & E & A); [done..|].
    rewrite I in A. destruct (H _ A) as (d & st2 & F & QQ). exists d, st2. split; [|done].
    cbn [getopt_passes]. by rewrite E, F.
Qed.

(** *** Reading one item *)

Definition prepend_all (os : list (Z * option bytes)) (r : options_end) : options_end := foldr prepend r os.

Definition reads (st : optstate) (os : list (Z * option bytes)) (st' : optstate) : Prop :=
  forall fuel, all_options argv optstring longopts (List.length os + fuel) st
    = prepend_all os (all_options argv optstring longopts fuel st').

Lemma options_trans st1 os1 st2 os2 st3 : reads st1 os1 st2 -> reads st2 os2 st3 -> reads st1 (os1 ++ os2) st3.
Proof. intros R S fuel. rewrite length_app, <-Nat.add_assoc, R, S. unfold prepend_all. by rewrite foldr_app. Qed.

Lemma reads_call st i k o (Q : optstate -> Prop) :
  (st_ind st <> 0%nat /\ st_prefixes st = Some default_prefixes /\ st_ind st = i /\ st_ofs st = k) \/ (ready i st /\ k = 0%nat) ->
  (forall st', at_letter i k st' -> exists st2, getopt_pass argv st' optstring longopts = Some (Returned (fst o) st2) /\
    option_arg optstring (fst o) st2 = snd o /\ Q st2) -> fst o <> -1 ->
  exists st2, reads st [o] st2 /\ Q st2.
Proof.
  intros C P M.
  assert (R : exists c st2, shell_getopt_long_r argv st optstring longopts = Some (c, st2) /\
    (c = fst o /\ option_arg optstring c st2 = snd o /\ Q st2)).
  { destruct C as [(N & F & I & O)|[B ->]]; [eapply call_at; try done|eapply call_ready; [done|]];
      intros st' A; destruct (P st' A) as (st2 & E & X & Y); by exists (fst o), st2. }
  destruct R as (c & st2 & E & -> & X & Y). exists st2. split; [|done]. intros fuel. cbn [List.length Nat.add all_options].
  rewrite E, X. rewrite (proj2 (Z.eqb_neq _ _) M). by destruct o.
Qed.

Lemma ready_behind i n st st2 : at_letter i 0 st -> i <> 0%nat -> st_ind st2 = (i + n)%nat ->
  st_ofs st2 = st_ofs st -> st_prefixes st2 = st_prefixes st -> ready (i + n) st2.
Proof. intros (P & I & O & L) N J K F. right. rewrite J, F. split_and!; [lia|done|]. left. split; [congruence|done]. Qed.

Lemma letter_flag c : is_flag optstring c = negb (behind c 1 =? ch ":").
Proof. unfold is_flag, behind. by rewrite Nat.add_1_r. Qed.

(** A letter with an argument, which is in its word or in the next *)
Lemma value_reads i st c v o rest : i <> 0%nat -> ready i st -> letter c -> behind c 1 = ch ":" ->
  (o = Some v /\ v <> [] /\ argv !! i = Some (ch "-" :: c :: v) /\ rest = 1%nat \/
   o = Some v /\ behind c 2 <> ch ":" /\ argv !! i = Some [ch "-"; c] /\ argv !! S i = Some v /\ rest = 2%nat \/
   o = None /\ behind c 2 = ch ":" /\ argv !! i = Some [ch "-"; c] /\ rest = 1%nat) ->
  exists st', reads st [(c, o)] st' /\ ready (i + rest) st'.
Proof.
  intros N R C B H. pose proof C as (? & M & ?). apply (reads_call _ i 0%nat); [by right| |cbn; lia]. intros st' A. cbn [fst snd].
  pose proof A as (A1 & A2 & A3 & A4).
  assert (W : exists w, argv !! i = Some (ch "-" :: c :: w)) by (destruct H as [?|[?|?]]; destruct_and?; eauto).
  destruct W as [w W].
  destruct (pass_letter st' i 0%nat (ch "-" :: c :: w) c A W) as (st2 & D & E); [done|done|by left|done|cbn; lia|].
  rewrite E, (proj2 (Z.eqb_eq _ _) B). change (drop (0 + 2) (_ :: _ :: w)) with w. cbv zeta.
  destruct H as [(-> & V & W2 & ->)|[(-> & V & W2 & W3 & ->)|(-> & V & W2 & ->)]]; rewrite W in W2; injection W2 as ->.
  - rewrite (proj2 (Nat.eqb_neq _ _)) by (by destruct v). rewrite orb_true_r. eexists. split; [reflexivity|].
    subst st2. split; [unfold option_arg; rewrite letter_flag, B; cbn; by rewrite A4|].
    eapply ready_behind; [exact A|done|cbn; lia|done|done].
  - rewrite (proj2 (Z.eqb_neq _ _) V), W3. cbn. eexists. split; [reflexivity|].
    subst st2. split; [unfold option_arg; rewrite letter_flag, B; cbn; by rewrite A4|].
    eapply ready_behind; [exact A|done|cbn; lia|done|done].
  - rewrite (proj2 (Z.eqb_eq _ _) V). cbn. eexists. split; [reflexivity|].
    subst st2. split; [unfold option_arg; rewrite letter_flag, B; cbn; by rewrite A4|].
    eapply ready_behind; [exact A|done|cbn; lia|done|done].
Qed.

Definition inside (i k : nat) (st : optstate) : Prop :=
  st_ind st <> 0%nat /\ st_prefixes st = Some default_prefixes /\ st_ind st = i /\ st_ofs st = k.

Lemma flags_from i cs : i <> 0%nat -> Forall flag cs -> forall pre st, argv !! i = Some (ch "-" :: pre ++ cs) ->
  Forall letter pre -> pre = [] /\ ready i st \/ pre <> [] /\ inside i (List.length pre) st -> pre ++ cs <> [] ->
  exists st', reads st (List.map (fun c => (c, None)) cs) st' /\ ready (i + 1) st'.
Proof.
  intros N. induction 1 as [|c cs [C F] _ IH]; intros pre st W P S E.
  - destruct S as [[-> _]|[_ (I1 & I2 & I3 & I4)]]; [done|]. exists st. split; [by intros|].
    rewrite app_nil_r in W, E. destruct pre as [|d pre]; [done|]. right. split_and!; [done|done|]. right. split; [lia|].
    exists d, pre. rewrite I3. apply Forall_cons in P as [D _]. done.
  - cbn [List.map].
    destruct (reads_call st i (List.length pre) (c, None) (inside i (List.length (pre ++ [c])))) as (st2 & R & S2).
    + destruct S as [[-> B]|[_ I]]; [by right|by left].
    + intros st' A. pose proof A as (A1 & A2 & A3 & A4). cbn [fst snd].
      edestruct (pass_letter st' i (List.length pre) _ c A W) as (st2 & D & G).
      * done.
      * by apply (list_lookup_middle (ch "-" :: pre)).
      * destruct pre as [|d pre]; [by left|right]. apply Forall_cons in P as [(_ & M & _) _]. exact M.
      * done.
      * destruct pre as [|d pre]; [|apply Forall_cons in P as [(? & M & _) _]]; [destruct C|]; cbn; lia.
      * rewrite G, (proj2 (Z.eqb_neq _ _) F). eexists. split; [reflexivity|]. split.
        -- unfold option_arg. rewrite letter_flag, (proj2 (Z.eqb_neq _ _) F). subst st2. cbn. by rewrite A4.
        -- subst st2. unfold inside. cbn. rewrite length_app. cbn. split_and!; [done|done|done|lia].
    + destruct C. cbn. lia.
    + destruct (IH (pre ++ [c]) st2) as (st3 & R3 & S3).
      * by rewrite <-app_assoc.
      * apply Forall_app. split; [done|]. by constructor.
      * right. split; [by destruct pre|done].
      * by rewrite <-app_assoc.
      * exists st3. split; [|done]. exact (options_trans _ [(c, None)] _ _ _ R R3).
Qed.

(** A long option *)
Lemma pass_long st i name tl : at_letter i 0 st -> argv !! i = Some (ch "-" :: ch "-" :: name ++ tl) -> chd (name ++ tl) <> 0 ->
  getopt_pass argv st optstring longopts =
    let '(c, st) := getopt_long argv (with_prefix (ch "-") st) longopts in Some (Returned c st).
Proof.
  intros (P & I & O & L) W N. unfold getopt_pass. rewrite I, W, P. cbv zeta.
  change (cnth (ch "-" :: ch "-" :: name ++ tl) 0) with (ch "-"). change (cnth (ch "-" :: ch "-" :: name ++ tl) 1) with (ch "-").
  change (cnth (ch "-" :: ch "-" :: name ++ tl) 2) with (chd (name ++ tl)).
  change (cnth default_prefixes (str_chr default_prefixes (ch "-"))) with (ch "-").
  rewrite (proj2 (Z.eqb_neq _ _) N), andb_false_r. cbn [st_ofs with_prefix st_prefix]. rewrite O, Z.eqb_refl.
  rewrite bool_decide_true by done. done.
Qed.

Lemma long_reads i st e tl o n : i <> 0%nat -> ready i st -> entry e -> argv !! i = Some (ch "-" :: ch "-" :: l_name e ++ tl) ->
  (tl = [] /\ (l_mode e = 0 \/ l_mode e = ch "?") /\ o = None /\ n = 1%nat \/
   (exists v, tl = ch "=" :: v /\ l_mode e <> 0 /\ o = Some v /\ n = 1%nat) \/
   tl = [] /\ l_mode e = ch ":" /\ o = argv !! S i /\ o <> None /\ n = 2%nat) ->
  exists st', reads st [(l_code e, o)] st' /\ ready (i + n) st'.
Proof.
  intros N R (es1 & es2 & Q & F) W H. pose proof es_ok as K0. rewrite Q in K0.
  assert (E : long_ok e) by (rewrite Forall_forall in K0; apply K0, elem_of_app; right; by left).
  pose proof (lo_code _ E) as K. pose proof (lo_name _ E) as NC.
  apply (reads_call _ i 0%nat); [by right| |cbn; lia]. intros st' A. cbn [fst snd]. pose proof A as (A1 & A2 & A3 & A4).
  rewrite (pass_long _ _ _ _ A W).
  2:{ pose proof (lo_some _ E). destruct (l_name e); [done|]. apply Forall_cons in NC as [? _]. cbn. lia. }
  assert (NL : str_chr (l_name e ++ tl) (ch "=") = List.length (l_name e)).
  { assert (ch "=" ∉ l_name e) by (intros J; pose proof (lo_marks _ E) as M; rewrite Forall_forall in M; by specialize (M _ J)).
    destruct H as [[-> _]|[(v & -> & _)|[-> _]]]; [rewrite app_nil_r; by apply str_chr_none|by apply str_chr_app|rewrite app_nil_r; by apply str_chr_none]. }
  unfold getopt_long. cbn [st_ind with_prefix with_lname]. rewrite A2, W. cbn [default id].
  change (drop 2 (ch "-" :: ch "-" :: l_name e ++ tl)) with (l_name e ++ tl). rewrite NL.
  unfold longopts. cbn [default id]. rewrite Q, (find_long_first es1 e es2 tl K0 F NC) by lia. cbv zeta. rewrite cnth_first.
  destruct H as [(-> & M & -> & ->)|[(v & -> & M & -> & ->)|(-> & M & -> & V & ->)]].
  - destruct M as [M|M]; rewrite M; cbn; (eexists; split; [reflexivity|]; split; [done|]);
      (eapply ready_behind; [exact A|done|cbn; lia|done|done]).
  - rewrite (proj2 (Z.eqb_neq _ _) M). cbn. replace (drop _ _) with v; [eexists; split; [reflexivity|]; split; [done|]|].
    + eapply ready_behind; [exact A|done|cbn; lia|done|done].
    + by rewrite (cons_middle _ (l_name e)), app_assoc, drop_app_length' by (rewrite length_app; cbn; lia).
  - rewrite M. cbn. destruct (argv !! S i) as [v|] eqn:X; [|done]. cbn. eexists; split; [rewrite A2, X; reflexivity|]. split; [done|].
    eapply ready_behind; [exact A|done|cbn; lia|done|done].
Qed.

Lemma drop_words i ws rest k w : drop i argv = ws ++ rest -> ws !! k = Some w -> argv !! (i + k)%nat = Some w.
Proof. intros D W. rewrite <-lookup_drop, D. by apply lookup_app_l_Some. Qed.

Lemma item_reads it i st rest : item_ok it -> i <> 0%nat -> ready i st -> drop i argv = item_words it ++ rest ->
  exists st', reads st (meaning it) st' /\ ready (i + List.length (item_words it)) st'.
Proof.
  intros K N R D.
  pose proof (fun k w => drop_words i _ rest k w D) as W. pose proof (W 0%nat) as W0. pose proof (W 1%nat) as W1.
  rewrite Nat.add_0_r in W0. rewrite Nat.add_1_r in W1.
  destruct it as [cs|c v|c v|c|e|e v|e v|e]; cbn [item_ok item_words meaning] in *.
  - destruct K as [C F]. apply (flags_from i cs N F []); [by apply W0|constructor|by left|done].
  - destruct K as [K V]. assert (letter c /\ behind c 1 = ch ":") as [L B] by (destruct K as [K|K]; split; apply K).
    apply (value_reads i st c v (Some v) 1); [done..|]. left. split_and!; [done|done|by apply W0|done].
  - destruct K as (L & B & B2). apply (value_reads i st c v (Some v) 2); [done..|]. right; left.
    split_and!; [done|done|by apply W0|by apply W1|done].
  - destruct K as (L & B & B2). apply (value_reads i st c [] None 1); [done..|]. right; right.
    split_and!; [done|done|by apply W0|done].
  - destruct K as [E M]. apply (long_reads i st e [] None 1); [done..|rewrite app_nil_r; by apply W0|left; auto].
  - destruct K as [E M]. apply (long_reads i st e (ch "=" :: v) (Some v) 1); [done..|by apply W0|right; left; eauto].
  - destruct K as [E M]. apply (long_reads i st e [] (Some v) 2); [done..|rewrite app_nil_r; by apply W0|].
    right; right. by rewrite (W1 v).
  - destruct K as [E M]. apply (long_reads i st e [] None 1); [done..|rewrite app_nil_r; by apply W0|left; auto].
Qed.

Lemma items_read its : Forall item_ok its -> forall i st rest, i <> 0%nat -> ready i st ->
  drop i argv = concat (List.map item_words its) ++ rest ->
  exists st', reads st (concat (List.map meaning its)) st' /\ ready (i + List.length (concat (List.map item_words its))) st'.
Proof.
  induction 1 as [|it its I _ IH]; intros i st rest N R D; cbn [List.map concat] in *.
  - exists st. rewrite Nat.add_0_r. split; [by intros|done].
  - rewrite <-app_assoc in D. destruct (item_reads it i st _ I N R D) as (st2 & R2 & S2).
    destruct (IH (i + List.length (item_words it))%nat st2 rest) as (st3 & R3 & S3); [lia|done| |].
    + by rewrite <-drop_drop, D, drop_app_length.
    + exists st3. split; [by eapply options_trans|]. by rewrite length_app, Nat.add_assoc.
Qed.

(** Where the options stop *)
Lemma stop_reads i st rest n fuel : i <> 0%nat -> ready i st -> drop i argv = rest -> options_stop rest = Some n ->
  all_options argv optstring longopts (S fuel) st = Options [] (i + n).
Proof.
  intros N R D E.
  edestruct (call_ready st i (fun c st2 => c = -1 /\ st_ind st2 = (i + n)%nat) R) as (c & st2 & C & -> & I);
    [|cbn [all_options]; rewrite C; cbn; by rewrite I].
  intros st' (A1 & A2 & A3 & A4).
  assert (H : argv !! i = head rest) by (rewrite <-D, head_lookup, lookup_drop; by rewrite Nat.add_0_r).
  unfold getopt_pass. rewrite A2, H, A1. unfold options_stop in E. destruct rest as [|w rest]; cbn [head].
  - injection E as <-. eexists _, _. split; [reflexivity|]. split; [done|]. rewrite A2. lia.
  - case_bool_decide as B; [subst w; injection E as <-; cbn; eexists _, _; split; [reflexivity|]; split; [done|]; cbn; lia|].
    destruct (negb (chd w =? ch "-") || _) eqn:Heqb; [|done]. injection E as <-. apply orb_true_iff in Heqb as [F|F].
    + apply negb_true_iff, Z.eqb_neq in F. unfold chd in F.
      assert (P : cnth default_prefixes (str_chr default_prefixes (cnth w 0)) = 0).
      { change default_prefixes with [ch "-"]. cbn [str_chr]. destruct (Z.eqb_spec (ch "-") (cnth w 0)); [congruence|done]. }
      cbv zeta. rewrite P. cbn. eexists _, _. split; [reflexivity|]. split; [done|]. cbn. lia.
    + apply bool_decide_eq_true in F as ->. cbn. eexists _, _. split; [reflexivity|]. split; [done|]. cbn. lia.
Qed.

End Written.

(** *** Theorems *)

(** C27: [shell_getopt_long_r] called until it returns -1 reads back an
    argument list written from options: letters without an argument in one
    word, a letter with its argument in the same word or in the next, and long
    options with or without a value, in any order.  It returns each option
    with its argument, and leaves [ind] at the first operand: behind the
    options, behind "--" where that follows, and at the end of the list where
    nothing does. *)
Theorem getopt_reads_options optstring es name its rest n fuel :
  Forall long_ok es -> cnth optstring 0 <> ch "+" -> Forall (item_ok optstring es) its -> options_stop rest = Some n ->
  (List.length (concat (List.map meaning its)) < fuel)%nat ->
  all_options (name :: concat (List.map item_words its) ++ rest) optstring (Some (long_texts es)) fuel shell_opt =
    Options (concat (List.map meaning its)) (S (List.length (concat (List.map item_words its))) + n).
Proof.
  intros L P I E F. set (argv := name :: _).
  destruct (items_read optstring es L argv P its I 1 shell_opt rest) as (st & R & S); [done|by left|done|].
  specialize (R (fuel - List.length (concat (List.map meaning its)))%nat).
  replace (_ + (fuel - _))%nat with fuel in R by lia. rewrite R.
  destruct (fuel - _)%nat as [|k] eqn:K; [lia|].
  rewrite (stop_reads optstring es argv P (1 + List.length (concat (List.map item_words its))) st rest n k); [|lia|exact S| |done].
  - generalize (concat (List.map meaning its)) as os. unfold prepend_all. induction os as [|o os IH]; [done|]. cbn [foldr]. by rewrite IH.
  - unfold argv. cbn [Nat.add drop skipn]. apply drop_app_length.
Qed.

(** Reading all options ends whatever the words and the option string
    are: every call but the last leaves less of the argument list, and inside
    a call the passes over finished words are at most as many as the words. *)
Theorem all_options_end argv optstring longopts st fuel :
  (List.length (concat argv) + List.length argv < fuel)%nat ->
  all_options argv optstring longopts fuel st <> Cut.
Proof.
  intros F. apply all_options_from. eapply Nat.le_lt_trans; [|exact F]. unfold left.
  assert (D : forall i, (list_sum (List.map (fun w => S (List.length w)) (drop i argv)) <= List.length (concat argv) + List.length argv)%nat).
  { clear. induction argv as [|w argv IH]; intros [|i]; cbn; [lia..| |].
    - specialize (IH 0%nat). rewrite length_app. change (drop 0 argv) with argv in IH. unfold list_sum in IH. lia.
    - specialize (IH i). rewrite length_app. unfold list_sum in *. lia. }
  specialize (D (st_ind (first_state optstring st))). lia.
Qed.

Lemma getopt_reads_options_witness :
  all_options (List.map b ["x"; "-ab"; "-o"; "f"; "--size=3"; "-og"; "--name"; "--color"; "--size"; "4"; "-a"; "--"; "-b"]%string)
    (b "abo:") (Some (b "name=n size:=s color?=c")) 20 shell_opt =
  Options [(ch "a", None); (ch "b", None); (ch "o", Some (b "f")); (ch "s", Some (b "3")); (ch "o", Some (b "g"));
           (ch "n", None); (ch "c", None); (ch "s", Some (b "4")); (ch "a", None)] 12.
Proof.
  set (n := Long (b "name") 0 (ch "n")). set (s := Long (b "size") (ch ":") (ch "s")). set (c := Long (b "color") (ch "?") (ch "c")).
  apply (getopt_reads_options (b "abo:") [n; s; c] (b "x")
    [Flags (b "ab"); Separate (ch "o") (b "f"); LongJoined s (b "3"); Joined (ch "o") (b "g"); LongFlag n; LongLone c;
     LongSeparate s (b "4"); Flags (b "a")] [b "--"; b "-b"] 1 20).
  - assert (O : forall e, cstring (l_name e) -> bool_decide (ch " " ∉ l_name e) = true ->
      forallb (fun c => negb ((c =? ch "=") || (c =? ch ":") || (c =? ch "?"))) (l_name e) = true -> l_name e <> [] ->
      l_mode e = 0 \/ l_mode e = ch ":" \/ l_mode e = ch "?" -> 0 < l_code e < 256 -> l_code e <> ch " " -> long_ok e).
    { intros e ? B M **. split; try done; [by apply bool_decide_eq_true in B|].
      apply Forall_forall. intros d I. rewrite forallb_forall in M. apply negb_true_iff, M. by apply list_elem_of_In. }
    repeat constructor; (apply O; [by apply cstring_b_check|done|done|done|auto|done|done]).
  - discriminate.
  - assert (E1 : entry [n; s; c] n) by (exists [], [s; c]; by repeat constructor).
    assert (E2 : entry [n; s; c] s) by (exists [n], [c]; by repeat constructor).
    assert (E3 : entry [n; s; c] c) by (exists [n; s], []; by repeat constructor).
    repeat constructor; try done; try (by left).
  - reflexivity.
  - cbn. lia.
Defined.

(** An option with its argument behind other letters of its word leaves [ofs]
    where it was, so that the first letters of the next word are skipped: of
    "-ao f -v y" the -v is lost. *)
Example cluster_argument_skips :
  all_options (List.map b ["x"; "-ao"; "f"; "-v"; "y"]%string) (b "ao:v") None 20 shell_opt
  = Options [(ch "a", None); (ch "o", Some (b "f"))] 4.
Proof. vm_compute. reflexivity. Qed.

(** Behind two letters the byte looked at next is not in the word any more. *)
Example cluster_argument_overreads :
  all_options (List.map b ["x"; "-avo"; "f"; "-v"; "y"]%string) (b "ao:v") None 20 shell_opt = Overread.
Proof. vm_compute. reflexivity. Qed.

(** So does a letter that is not known: the option behind it is not read. *)
Example unknown_letter_skips :
  all_options (List.map b ["x"; "-az"; "-v"; "y"]%string) (b "av") None 20 shell_opt
  = Options [(ch "a", None); (ch "?", None)] 3.
Proof. vm_compute. reflexivity. Qed.

(** The '+' that makes plus signs start options is dropped from the option
    string by the first call only, and is a letter for the calls behind it. *)
Example plus_becomes_letter :
  all_options (List.map b ["x"; "+"; "y"]%string) (b "+a") None 20 shell_opt = Options [] 1 /\
  all_options (List.map b ["x"; "-+"]%string) (b "+a") None 20 shell_opt = Options [(ch "?", None)] 2 /\
  all_options (List.map b ["x"; "-a+"]%string) (b "+a") None 20 shell_opt = Options [(ch "a", None); (ch "+", None)] 2.
Proof. vm_compute. by split_and!. Qed.
