(* ===== verification/TestCmd.v ===== *)
(** * The builtin test (src/builtin/core/builtin_test.c)

    The number of words decides how they are read ([test_count]); what its
    table does not cover, the grammar of test_expr reads.  The static
    variables test_i and test_err are the state of that grammar; [err] is 0,
    1 for an invalid expression and 2 for a word that is no integer.  What
    the file system answers is the class [Files]. *)

From S2P Require Import Prelude CStr Scan.

(** ** The file system *)

Inductive file_type := S_REG | S_DIR | S_CHR | S_BLK | S_FIFO | S_LNK | S_SOCK.

#[export] Instance file_type_eq : EqDecision file_type.
Proof. solve_decision. Defined.

(** The members of [struct stat] that test reads *)
Record file_stat := FileStat {
  f_type : file_type;
  f_setgid : bool;
  f_setuid : bool;
  f_size : Z;
  f_mtime : Z;
  f_dev : Z;
  f_ino : Z
}.

Inductive access_mode := R_OK | W_OK | X_OK.

(** stat(2), lstat(2), access(2) and isatty(3) *)
Class Files := {
  stat : bytes -> option file_stat;
  lstat : bytes -> option file_stat;
  access : bytes -> access_mode -> bool;
  isatty : Z -> bool
}.

Section Test.
Context `{Files}.

(** ** Primaries *)

Definition unary_ops : bytes := b "nzafdbchLSesrwxgput".

Definition contains (s : bytes) (c : Z) : bool := (str_chr s c <? List.length s)%nat.

Definition filetime (arg : bytes) : Z :=
  match stat arg with Some st => f_mtime st | None => -1 end.

(** The number, and [err] *)
Definition intarg (arg : bytes) (err : Z) : Z * Z :=
  let '(n, num) := Scan.scan_longlong arg 0 in
  (num, if (n =? 0)%nat || negb (cnth arg n =? 0) then 2 else err).

Definition is_unary (op : bytes) : bool :=
  (cnth op 0 =? ch "-") && negb (cnth op 1 =? 0) && (cnth op 2 =? 0) && contains unary_ops (cnth op 1).

Definition binary_ops : list bytes :=
  List.map b ["="; "!="; "<"; ">"; "-eq"; "-ne"; "-lt"; "-le"; "-gt"; "-ge"; "-nt"; "-ot"; "-ef"]%string.

Definition is_binary (op : bytes) : bool := existsb (fun p => str_equal p op) binary_ops.

Definition file_is (t : file_type) (arg : bytes) : bool :=
  match stat arg with Some st => bool_decide (f_type st = t) | None => false end.

(** The answers carry [err]. *)
Definition test_unary (op arg : bytes) (err : Z) : bool * Z :=
  let c := cnth op 1 in
  if c =? ch "n" then (negb (cnth arg 0 =? 0), err)
  else if c =? ch "z" then (cnth arg 0 =? 0, err)
  else if (c =? ch "a") || (c =? ch "e") then (match stat arg with Some _ => true | None => false end, err)
  else if c =? ch "f" then (file_is S_REG arg, err)
  else if c =? ch "d" then (file_is S_DIR arg, err)
  else if c =? ch "c" then (file_is S_CHR arg, err)
  else if c =? ch "b" then (file_is S_BLK arg, err)
  else if c =? ch "p" then (file_is S_FIFO arg, err)
  else if (c =? ch "h") || (c =? ch "L") then
    (match lstat arg with Some st => bool_decide (f_type st = S_LNK) | None => false end, err)
  else if c =? ch "S" then (file_is S_SOCK arg, err)
  else if c =? ch "s" then (match stat arg with Some st => 0 <? f_size st | None => false end, err)
  else if c =? ch "r" then (access arg R_OK, err)
  else if c =? ch "w" then (access arg W_OK, err)
  else if c =? ch "x" then (access arg X_OK, err)
  else if c =? ch "g" then (match stat arg with Some st => f_setgid st | None => false end, err)
  else if c =? ch "u" then (match stat arg with Some st => f_setuid st | None => false end, err)
  else if c =? ch "t" then (isatty (i32 (snd (Scan.scan_uint arg 1))), err)
  else (false, 1).

Definition test_binary (left op right : bytes) (err : Z) : bool * Z :=
  let o := cnth op 0 in
  let o1 := cnth op 1 in
  let o2 := cnth op 2 in
  if negb (o =? ch "-") then
    let r := str_diff left right in
    if o =? ch "=" then (r =? 0, err)
    else if o =? ch "!" then (negb (r =? 0), err)
    else if o =? ch "<" then (if o1 =? ch "=" then r <=? 0 else r <? 0, err)
    else if o =? ch ">" then (if o1 =? ch "=" then 0 <=? r else 0 <? r, err)
    else (false, 1)
  else if (o1 =? ch "e") && (o2 =? ch "f") then
    (match stat left, stat right with
     | Some x, Some y => (f_dev x =? f_dev y) && (f_ino x =? f_ino y)
     | _, _ => false
     end, err)
  else
    let times := ((o1 =? ch "n") && (o2 =? ch "t")) || (o1 =? ch "o") in
    let '(l, err) := if times then (0, err) else intarg left err in
    let '(r, err) := if times then (0, err) else intarg right err in
    if o1 =? ch "n" then
      (if o2 =? ch "t" then filetime right <? filetime left else negb (l =? r), err)
    else if o1 =? ch "o" then (filetime left <? filetime right, err)
    else if o1 =? ch "e" then (l =? r, err)
    else if o1 =? ch "l" then (if o2 =? ch "e" then l <=? r else l <? r, err)
    else if o1 =? ch "g" then (if o2 =? ch "e" then r <=? l else r <? l, err)
    else (false, 1).

(** ** The grammar *)

Section Grammar.
Context (v : list bytes).

Definition test_n : nat := List.length v.
Definition word (i : nat) : bytes := nth i v [].
Definition at_word (s : string) (i : nat) : bool := (i <? test_n)%nat && str_equal (word i) (b s).

(** A reader of an expression: the answer, test_i and test_err; none: the
    recursion was cut off. *)
Definition reader := nat -> Z -> option (bool * nat * Z).

Definition test_primary (test_expr : reader) : reader := fun i err =>
  if (test_n <=? i)%nat then Some (false, i, 1)
  else if str_equal (word i) (b "(") then
    match test_expr (S i) err with
    | Some (r, i, err) => if at_word ")" i then Some (r, S i, err) else Some (false, i, 1)
    | None => None
    end
  else if (i + 2 <? test_n)%nat && is_binary (word (i + 1)) then
    let '(r, err) := test_binary (word i) (word (i + 1)) (word (i + 2)) err in
    Some (r, (i + 3)%nat, err)
  else if (i + 1 <? test_n)%nat && is_unary (word i) then
    let '(r, err) := test_unary (word i) (word (i + 1)) err in
    Some (r, (i + 2)%nat, err)
  else Some (negb (cnth (word i) 0 =? 0), S i, err).

(** The while loop of test_not: at most [k] passes *)
Fixpoint skip_not (k i : nat) (neg : bool) : bool * nat :=
  match k with
  | O => (neg, i)
  | S k => if at_word "!" i && (i + 1 <? test_n)%nat then skip_not k (S i) (negb neg) else (neg, i)
  end.

Definition test_not (test_expr : reader) : reader := fun i err =>
  let '(neg, i) := skip_not (test_n - i) i false in
  match test_primary test_expr i err with
  | Some (r, i, err) => Some (xorb neg r, i, err)
  | None => None
  end.

(** The while loops of test_and and test_expr: [operand] behind every [op] *)
Fixpoint operator_loop (op : string) (combine : bool -> bool -> bool) (operand : reader) (k : nat) (r : bool)
    (i : nat) (err : Z) : option (bool * nat * Z) :=
  if at_word op i then
    match k with
    | O => None
    | S k =>
        match operand (S i) err with
        | Some (r', i, err) => operator_loop op combine operand k (combine r' r) i err
        | None => None
        end
    end
  else Some (r, i, err).

Definition operators (op : string) (combine : bool -> bool -> bool) (operand : reader) : reader := fun i err =>
  match operand i err with
  | Some (r, i, err) => operator_loop op combine operand (test_n - i) r i err
  | None => None
  end.

Definition test_and (test_expr : reader) : reader := operators "-a" andb (test_not test_expr).

Fixpoint test_expr (fuel : nat) : reader :=
  match fuel with
  | O => fun _ _ => None
  | S fuel => operators "-o" orb (test_and (test_expr fuel))
  end.

End Grammar.

(** ** Counting the words *)

(** One more than the parentheses that can be open *)
Definition test_grammar (v : list bytes) (err : Z) : option (bool * Z) :=
  match test_expr v (S (List.length v)) 0%nat err with
  | Some (r, i, err) => Some (r, if (i =? List.length v)%nat then err else 1)
  | None => None
  end.

Definition not_null (s : bytes) : bool := negb (cnth s 0 =? 0).


Definition word_is (x : bytes) (s : string) : bool := str_equal x (b s).

Definition test_two (v : list bytes) (err : Z) : option (bool * Z) :=
  match v with
  | [x; y] =>
      if word_is x "!" then Some (negb (not_null y), err)
      else if is_unary x then Some (test_unary x y err)
      else test_grammar v err
  | _ => None
  end.

Definition negated (r : option (bool * Z)) : option (bool * Z) :=
  match r with Some (r, err) => Some (negb r, err) | None => None end.

Definition test_three (v : list bytes) (err : Z) : option (bool * Z) :=
  match v with
  | [x; y; z] =>
      if is_binary y then Some (test_binary x y z err)
      else if word_is y "-a" then Some (not_null x && not_null z, err)
      else if word_is y "-o" then Some (not_null x || not_null z, err)
      else if word_is x "!" then negated (test_two [y; z] err)
      else if word_is x "(" && word_is z ")" then Some (not_null y, err)
      else test_grammar v err
  | _ => None
  end.

Definition test_count (v : list bytes) (err : Z) : option (bool * Z) :=
  match v with
  | [] => Some (false, err)
  | [x] => Some (not_null x, err)
  | [_; _] => test_two v err
  | [_; _; _] => test_three v err
  | [x; y; z; u] =>
      if word_is x "!" then negated (test_three [y; z; u] err)
      else if word_is x "(" && word_is u ")" then test_two [y; z] err
      else test_grammar v err
  | _ => test_grammar v err
  end.

(** ** The builtin *)

Definition EXIT_ERROR : Z := 2.

Inductive test_message := Missing_bracket | Integer_expected | Invalid_expression.

(** The status and the message of the words [argv]; none: cut off *)
Definition builtin_test (argv : list bytes) : option (Z * option test_message) :=
  let bracket := cnth (nth 0 argv []) 0 =? ch "[" in
  let argc := (if bracket then List.length argv - 1 else List.length argv)%nat in
  if bracket && negb (cnth (nth argc argv []) 0 =? ch "]") then Some (EXIT_ERROR, Some Missing_bracket)
  else if (argc <=? 1)%nat then Some (1, None)
  else
    match test_count (take (argc - 1) (drop 1 argv)) 0 with
    | Some (result, err) =>
        if err =? 0 then Some (if result then 0 else 1, None)
        else Some (EXIT_ERROR, Some (if err =? 2 then Integer_expected else Invalid_expression))
    | None => None
    end.

End Test.
