(* ===== verification/TestProps.v ===== *)
(** * What test answers (src/builtin/core/builtin_test.c)

    Every list of words has an answer; words printed from an expression are
    read as that expression; and with three words an operator is an operator,
    whatever its operands look like. *)

From S2P Require Import Prelude CStr Scan TestCmd.

Section Props.
Context `{Files}.

(** ** Every expression ends *)

(** The errors a reader can leave *)
Definition err_from (err err' : Z) : Prop := err' = err \/ err' = 1 \/ err' = 2.

Lemma err_from_refl err : err_from err err.
Proof. by left. Qed.

Lemma err_from_trans e1 e2 e3 : err_from e1 e2 -> err_from e2 e3 -> err_from e1 e3.
Proof. unfold err_from. intuition congruence. Qed.

Lemma intarg_err arg err : err_from err (snd (intarg arg err)).
Proof. unfold intarg. destruct (Scan.scan_longlong arg 0). cbn. case_test; [by right; right|by left]. Qed.

Lemma test_unary_err op arg err : err_from err (snd (test_unary op arg err)).
Proof. unfold test_unary, err_from. repeat case_test; cbn; auto. Qed.

Lemma test_binary_err l op r err : err_from err (snd (test_binary l op r err)).
Proof.
  unfold test_binary. case_test.
  - repeat case_test; unfold err_from; cbn; auto.
  - case_test; [by left|].
    match goal with |- context [if ?t then (0, err) else intarg l err] => destruct t end.
    + repeat case_test; unfold err_from; cbn; auto.
    + pose proof (intarg_err l err) as E1. destruct (intarg l err) as [x e1]. cbn in E1.
      pose proof (intarg_err r e1) as E2. destruct (intarg r e1) as [y e2]. cbn in E2.
      pose proof (err_from_trans _ _ _ E1 E2).
      repeat case_test; cbn; done || by right; left.
Qed.

Section Grammar.
Context (v : list bytes).
#[local] Abbreviation n := (test_n v).

(** A reader that returns from [i], without going back *)
Definition returns (rd : reader) (i : nat) : Prop :=
  forall err, exists r i' err', rd i err = Some (r, i', err') /\ (i <= i')%nat /\ err_from err err'.

Lemma at_word_lt s i : at_word v s i = true -> (i < n)%nat.
Proof. unfold at_word. intros E. bool_lia. Qed.

Lemma test_primary_returns te i : ((i < n)%nat -> returns te (S i)) -> returns (test_primary v te) i.
Proof.
  intros T err. unfold test_primary. destruct (Nat.leb_spec n i) as [L|L].
  - eexists _, _, _. split_and!; [done|done|by right; left].
  - case_test.
    { destruct (T L err) as (r & i' & err' & -> & L' & E'). case_test; eexists _, _, _; split_and!;
        [done|lia|done|done|lia|by right; left]. }
    case_test.
    { pose proof (test_binary_err (word v i) (word v (i + 1)) (word v (i + 2)) err) as B.
      destruct (test_binary _ _ _ _) as [r err']. eexists _, _, _. split_and!; [done|lia|done]. }
    case_test.
    { pose proof (test_unary_err (word v i) (word v (i + 1)) err) as B.
      destruct (test_unary _ _ _) as [r err']. eexists _, _, _. split_and!; [done|lia|done]. }
    eexists _, _, _. split_and!; [done|lia|by left].
Qed.

Lemma skip_not_le k : forall i neg, (i <= snd (skip_not v k i neg))%nat.
Proof.
  induction k as [|k IH]; intros i neg; cbn; [lia|]. case_test; [|cbn; lia].
  specialize (IH (S i) (negb neg)). lia.
Qed.

Lemma test_not_returns te i : (forall j, (i <= j)%nat -> (j < n)%nat -> returns te (S j)) -> returns (test_not v te) i.
Proof.
  intros T err. unfold test_not. pose proof (skip_not_le (n - i) i false) as L.
  destruct (skip_not v (n - i) i false) as [neg j]. cbn in L.
  destruct (test_primary_returns te j (T j L) err) as (r & i' & err' & -> & L' & E').
  eexists _, _, _. split_and!; [done|lia|done].
Qed.

Lemma operator_loop_returns op comb operand : forall k r i err,
  (forall j, (i < j)%nat -> returns operand j) -> (n - i <= k)%nat ->
  exists r' i' err', operator_loop v op comb operand k r i err = Some (r', i', err') /\ (i <= i')%nat /\ err_from err err'.
Proof.
  induction k as [|k IH]; intros r i err T K; cbn [operator_loop]; destruct (at_word v op i) eqn:A.
  - apply at_word_lt in A. lia.
  - eexists _, _, _. split_and!; [done|lia|by left].
  - apply at_word_lt in A. destruct (T (S i) ltac:(lia) err) as (r1 & i1 & err1 & -> & L1 & E1).
    destruct (IH (comb r1 r) i1 err1) as (r2 & i2 & err2 & -> & L2 & E2); [intros j J; apply T; lia|lia|].
    eexists _, _, _. split_and!; [done|lia|by eapply err_from_trans].
  - eexists _, _, _. split_and!; [done|lia|by left].
Qed.

Lemma operators_returns op comb operand i : (forall j, (i <= j)%nat -> returns operand j) ->
  returns (operators v op comb operand) i.
Proof.
  intros T err. unfold operators. destruct (T i ltac:(lia) err) as (r & i1 & err1 & -> & L1 & E1).
  destruct (operator_loop_returns op comb operand (n - i1) r i1 err1) as (r2 & i2 & err2 & -> & L2 & E2);
    [intros j J; apply T; lia|lia|].
  eexists _, _, _. split_and!; [done|lia|by eapply err_from_trans].
Qed.

Lemma test_and_returns te i : (forall j, (i <= j)%nat -> (j < n)%nat -> returns te (S j)) -> returns (test_and v te) i.
Proof. intros T. apply operators_returns. intros j J. apply test_not_returns. intros k K. apply T. lia. Qed.

Lemma test_expr_returns fuel : forall i, (n - i < fuel)%nat -> returns (test_expr v fuel) i.
Proof.
  induction fuel as [|fuel IH]; intros i F; [lia|]. apply operators_returns. intros j J.
  apply test_and_returns. intros k K Kn. apply IH. lia.
Qed.

End Grammar.

Lemma test_grammar_returns v err : exists r err', test_grammar v err = Some (r, err') /\ err_from err err'.
Proof.
  unfold test_grammar. destruct (test_expr_returns v (S (List.length v)) 0 ltac:(unfold test_n; lia) err)
    as (r & i & err' & -> & _ & E). case_test; eexists _, _; (split; [done|]); [done|by right; left].
Qed.

Definition answers (err : Z) (x : option (bool * Z)) : Prop := exists r err', x = Some (r, err') /\ err_from err err'.

Lemma answers_some err r err' : err_from err err' -> answers err (Some (r, err')).
Proof. intros E. by exists r, err'. Qed.

Lemma answers_pair err (x : bool * Z) : err_from err (snd x) -> answers err (Some x).
Proof. destruct x. apply answers_some. Qed.

Lemma answers_negated err x : answers err x -> answers err (negated x).
Proof. intros (r & err' & -> & E). by apply answers_some. Qed.

Lemma answers_grammar v err : answers err (test_grammar v err).
Proof. apply test_grammar_returns. Qed.

#[local] Hint Resolve answers_some answers_pair answers_negated answers_grammar err_from_refl test_unary_err
  test_binary_err : core.

Lemma test_two_answers x y err : answers err (test_two [x; y] err).
Proof. cbn. repeat case_test; auto. Qed.

Lemma test_three_answers x y z err : answers err (test_three [x; y; z] err).
Proof. unfold test_three. pose proof (test_two_answers y z err). repeat case_test; auto. Qed.

Lemma test_count_answers v err : answers err (test_count v err).
Proof.
  destruct v as [|x [|y [|z [|u [|w v]]]]]; cbn [test_count]; auto.
  - apply test_two_answers.
  - apply test_three_answers.
  - pose proof (test_three_answers y z u err). pose proof (test_two_answers y z err). repeat case_test; auto.
Qed.

(** Test answers every list of words, with 0, 1 or 2; it is 2 exactly when
    there is a message.  Neither the loops of the grammar nor its recursion
    through parentheses are ever cut off. *)
Theorem test_status argv : exists status msg, builtin_test argv = Some (status, msg) /\
  (status = 0 \/ status = 1 \/ status = 2) /\ (status = 2 <-> msg <> None).
Proof.
  unfold builtin_test. case_test; [eexists _, _; split_and!; [done|auto|done]|].
  case_test; [eexists _, _; split_and!; [done|auto|done]|].
  match goal with |- context [test_count ?v 0] => destruct (test_count_answers v 0) as (r & err & -> & E) end.
  destruct (Z.eqb_spec err 0); eexists _, _; (split; [done|]); destruct r; split; auto; done.
Qed.

(** ** Expressions and their words *)

Inductive test_exp :=
| TStr (s : bytes)
| TUnary (op arg : bytes)
| TBinary (l op r : bytes)
| TNot (e : test_exp)
| TAnd (e1 e2 : test_exp)
| TOr (e1 e2 : test_exp).

(** How tightly an expression binds: "-o" 0, "-a" 1, "!" 2, the rest 3 *)
Definition level (e : test_exp) : nat :=
  match e with TOr _ _ => 0 | TAnd _ _ => 1 | TNot _ => 2 | _ => 3 end.

(** The words of an expression where one of level [l] is expected *)
Fixpoint words (l : nat) (e : test_exp) : list bytes :=
  let ws :=
    match e with
    | TStr s => [s]
    | TUnary op arg => [op; arg]
    | TBinary x op y => [x; op; y]
    | TNot e => b "!" :: words 2 e
    | TAnd e1 e2 => words 1 e1 ++ [b "-a"] ++ words 2 e2
    | TOr e1 e2 => words 0 e1 ++ [b "-o"] ++ words 1 e2
    end in
  if (level e <? l)%nat then [b "("] ++ ws ++ [b ")"] else ws.

(** The truth of an expression, and whether its numbers are numbers *)
Fixpoint holds (e : test_exp) : bool :=
  match e with
  | TStr s => not_null s
  | TUnary op arg => fst (test_unary op arg 0)
  | TBinary x op y => fst (test_binary x op y 0)
  | TNot e => negb (holds e)
  | TAnd e1 e2 => holds e1 && holds e2
  | TOr e1 e2 => holds e1 || holds e2
  end.

Fixpoint numbers_ok (e : test_exp) : bool :=
  match e with
  | TStr _ | TUnary _ _ => true
  | TBinary x op y => snd (test_binary x op y 0) =? 0
  | TNot e => numbers_ok e
  | TAnd e1 e2 | TOr e1 e2 => numbers_ok e1 && numbers_ok e2
  end.

(** A first operand that is not read as the start of something else *)
Definition plain (s : bytes) : Prop := cstring s /\ s <> b "(" /\ s <> b "!".

(** Words that the grammar takes for what they are *)
Fixpoint readable (e : test_exp) : Prop :=
  match e with
  | TStr s => plain s /\ is_unary s = false
  | TUnary op arg => cstring op /\ is_unary op = true /\ cstring arg /\ is_binary arg = false
  | TBinary x op y => plain x /\ cstring op /\ is_binary op = true /\ cstring y
  | TNot e => readable e
  | TAnd e1 e2 | TOr e1 e2 => readable e1 /\ readable e2
  end.

Definition err_after (e : test_exp) (err : Z) : Z := if numbers_ok e then err else 2.

(** ** Primaries *)

Lemma is_unary_head op : is_unary op = true -> cnth op 0 = ch "-".
Proof. unfold is_unary. intros E. zify_bool. done. Qed.

Lemma contains_elem s c : cstring s -> contains s c = true -> c ∈ s.
Proof.
  intros S E. destruct (decide (c ∈ s)) as [I|N]; [done|].
  unfold contains in E. rewrite str_chr_none in E by done. bool_lia.
Qed.

Lemma is_unary_letter op : is_unary op = true -> cnth op 1 ∈ unary_ops.
Proof. unfold is_unary. intros E. zify_bool. by apply contains_elem; [apply cstring_b_check|]. Qed.

Lemma test_unary_ok op arg err : is_unary op = true ->
  test_unary op arg err = (fst (test_unary op arg 0), err).
Proof.
  intros U. apply is_unary_letter in U. unfold test_unary. set (c := cnth op 1) in *. clearbody c.
  unfold unary_ops in U. cbn in U. repeat (apply elem_of_cons in U as [->|U]; [done|]). by apply elem_of_nil in U.
Qed.

Lemma is_binary_op op : cstring op -> is_binary op = true -> op ∈ binary_ops.
Proof.
  intros O E. unfold is_binary in E. apply existsb_exists in E as (p & I & E). apply list_elem_of_In in I.
  rewrite str_equal_eq in E; [apply bool_decide_eq_true in E; congruence| |done].
  unfold binary_ops in I. cbn in I.
  repeat (apply elem_of_cons in I as [->|I]; [by apply cstring_b_check|]). by apply elem_of_nil in I.
Qed.

(** Decides the comparisons of one character with another. *)
Ltac eval_chars :=
  repeat match goal with
  | |- context [b_of_ascii ?x =? ch ?y] =>
      let r := eval vm_compute in (b_of_ascii x =? ch y) in change (b_of_ascii x =? ch y) with r
  end; cbn.

(** Whether a word is no integer *)
Definition no_number (arg : bytes) : bool :=
  let '(n, _) := Scan.scan_longlong arg 0 in (n =? 0)%nat || negb (cnth arg n =? 0).

Lemma intarg_eq arg err : intarg arg err = (snd (Scan.scan_longlong arg 0), if no_number arg then 2 else err).
Proof. unfold intarg, no_number. by destruct (Scan.scan_longlong arg 0). Qed.

Lemma test_binary_ok l op r err : cstring op -> is_binary op = true ->
  test_binary l op r err = (fst (test_binary l op r 0), if snd (test_binary l op r 0) =? 0 then err else 2).
Proof.
  intros O E. apply is_binary_op in E; [|done]. unfold binary_ops in E. cbn in E.
  repeat (apply elem_of_cons in E as [->|E];
    [unfold test_binary; cbn; eval_chars; try done; rewrite !intarg_eq; by destruct (no_number l), (no_number r)|]).
  by apply elem_of_nil in E.
Qed.

(** ** Reading what was printed *)

Section Reading.
Context (v : list bytes).
#[local] Abbreviation n := (test_n v).

(** The reader of level [l], with [te] for what stands in parentheses *)
Definition reader_of (l : nat) (te : reader) : reader :=
  match l with
  | O => operators v "-o" orb (test_and v te)
  | S O => test_and v te
  | S (S O) => test_not v te
  | _ => test_primary v te
  end.

(** What may stand behind an expression of level [l] *)
Definition follow (l : nat) (rest : list bytes) : Prop :=
  match rest with
  | [] => True
  | w :: _ => w = b ")" \/ ((1 <= l)%nat /\ w = b "-o") \/ ((2 <= l)%nat /\ w = b "-a")
  end.

Lemma follow_le l l' rest : (l <= l')%nat -> follow l rest -> follow l' rest.
Proof. destruct rest as [|w rest]; [done|]. intros L [?|[[]|[]]]; [by left|right; left; by split; [lia|]|right; right; by split; [lia|]]. Qed.

Lemma word_at pre w rest : v = pre ++ w :: rest -> (List.length pre < n)%nat /\ word v (List.length pre) = w.
Proof.
  intros ->. unfold test_n, word. rewrite length_app. cbn. split; [lia|].
  by rewrite app_nth2, Nat.sub_diag by lia.
Qed.

Lemma at_word_here s pre w rest : v = pre ++ w :: rest -> at_word v s (List.length pre) = str_equal w (b s).
Proof. intros E. destruct (word_at _ _ _ E) as [L W]. unfold at_word. by rewrite W, (proj2 (Nat.ltb_lt _ _) L). Qed.

Lemma at_word_end s pre : v = pre -> at_word v s (List.length pre) = false.
Proof. intros ->. unfold at_word, test_n. by rewrite Nat.ltb_irrefl. Qed.

(** No operator in sight: the loop of a level is over. *)
Lemma follow_stops l rest pre : v = pre ++ rest -> follow l rest ->
  ((l = 0)%nat -> at_word v "-o" (List.length pre) = false) /\ ((l <= 1)%nat -> at_word v "-a" (List.length pre) = false).
Proof.
  intros E F. destruct rest as [|w rest].
  - rewrite app_nil_r in E. by rewrite !at_word_end.
  - rewrite !(at_word_here _ _ _ _ E). destruct F as [->|[[L ->]|[L ->]]]; split; intros ?; done || lia.
Qed.

Lemma follow_not_binary l rest pre w : v = pre ++ w :: rest -> follow l rest ->
  (List.length pre + 2 <? n)%nat && is_binary (word v (List.length pre + 1)) = false.
Proof.
  intros E F. destruct rest as [|x rest].
  - rewrite (proj2 (Nat.ltb_ge _ _)); [done|]. subst v. unfold test_n. rewrite length_app. cbn. lia.
  - rewrite cons_middle, app_assoc in E. destruct (word_at _ _ _ E) as [_ W].
    rewrite length_app in W. cbn in W. rewrite W. apply andb_false_iff. right.
    by destruct F as [->|[[_ ->]|[_ ->]]].
Qed.

Definition reads (l : nat) (e : test_exp) : Prop := forall fuel pre rest err,
  v = pre ++ words l e ++ rest -> follow l rest -> (n - List.length pre <= fuel)%nat ->
  reader_of l (test_expr v fuel) (List.length pre) err
    = Some (holds e, (List.length pre + List.length (words l e))%nat, err_after e err).

Lemma plain_not_paren s : plain s -> str_equal s (b "(") = false /\ str_equal s (b "!") = false.
Proof. intros (C & N1 & N2). split; apply str_equal_ne; done || by apply cstring_b_check. Qed.

Lemma unary_not_paren op : is_unary op = true -> str_equal op (b "(") = false /\ str_equal op (b "!") = false.
Proof. intros U. apply is_unary_head in U. destruct op as [|c op]; [done|]. cbn in U. subst c. done. Qed.

(** Primaries *)
Lemma str_reads s : readable (TStr s) -> reads 3 (TStr s).
Proof.
  intros [P U] fuel pre rest err E F _. cbn [words level Nat.ltb Nat.leb app] in *. cbn [reader_of]. unfold test_primary.
  destruct (word_at _ _ _ E) as [L W]. rewrite (proj2 (Nat.leb_gt _ _)) by done.
  rewrite W, (proj1 (plain_not_paren s P)), (follow_not_binary _ _ _ _ E F), U, andb_false_r. cbn. do 3 f_equal. lia.
Qed.

Lemma unary_reads op arg : readable (TUnary op arg) -> reads 3 (TUnary op arg).
Proof.
  intros (O & U & A & Bn) fuel pre rest err E F _. cbn [words level Nat.ltb Nat.leb app] in *. cbn [reader_of]. unfold test_primary.
  destruct (word_at _ _ _ E) as [L W]. rewrite (proj2 (Nat.leb_gt _ _)) by done.
  pose proof E as E'. rewrite cons_middle, app_assoc in E'. destruct (word_at _ _ _ E') as [L' W']. rewrite length_app in L', W'. cbn in L', W'.
  rewrite W, W', (proj1 (unary_not_paren op U)), Bn, andb_false_r, (proj2 (Nat.ltb_lt _ _)), U by lia. cbn [andb].
  by rewrite (test_unary_ok op arg err U).
Qed.

Lemma binary_reads x op y : readable (TBinary x op y) -> reads 3 (TBinary x op y).
Proof.
  intros (P & O & Bn & Y) fuel pre rest err E F _. cbn [words level Nat.ltb Nat.leb app] in *. cbn [reader_of]. unfold test_primary.
  destruct (word_at _ _ _ E) as [L W]. rewrite (proj2 (Nat.leb_gt _ _)) by done.
  pose proof E as E1. rewrite cons_middle, app_assoc in E1. destruct (word_at _ _ _ E1) as [L1 W1].
  pose proof E1 as E2. rewrite cons_middle, app_assoc in E2. destruct (word_at _ _ _ E2) as [L2 W2].
  rewrite !length_app in *. cbn in L1, W1, L2, W2. rewrite <-Nat.add_assoc in L2, W2. cbn in L2, W2.
  rewrite W, W1, W2, (proj1 (plain_not_paren x P)), (proj2 (Nat.ltb_lt _ _)), Bn by lia. cbn [andb].
  by rewrite (test_binary_ok x op y err O Bn).
Qed.

(** An expression in parentheses *)
Lemma paren_reads l e : (level e < l)%nat -> words l e = [b "("] ++ words 0 e ++ [b ")"] -> reads 0 e ->
  forall fuel pre rest err, v = pre ++ words l e ++ rest -> (n - List.length pre <= fuel)%nat ->
  test_primary v (test_expr v fuel) (List.length pre) err
    = Some (holds e, (List.length pre + List.length (words l e))%nat, err_after e err).
Proof.
  intros L Wd R fuel pre rest err E K. rewrite Wd in *. cbn [app] in E. rewrite <-app_assoc in E. cbn [app] in E.
  destruct (word_at _ _ _ E) as [Ln W]. unfold test_primary. rewrite (proj2 (Nat.leb_gt _ _)), W, str_equal_refl by done.
  destruct fuel as [|fuel]; [lia|]. rewrite cons_middle, app_assoc in E.
  pose proof (R fuel _ _ err E ltac:(by left)) as R'. rewrite length_app, Nat.add_1_r in R'. cbn [List.length] in R'.
  change (test_expr v (S fuel)) with (reader_of 0 (test_expr v fuel)). rewrite R' by lia.
  rewrite app_assoc in E. pose proof (at_word_here ")" _ _ _ E) as A. rewrite !length_app in A. cbn [List.length] in A.
  rewrite Nat.add_1_r in A. rewrite A, str_equal_refl. cbn [app List.length]. rewrite length_app. cbn [List.length]. do 3 f_equal. lia.
Qed.

(** ** Loops *)

Lemma reader_returns l fuel i : (n - i <= fuel)%nat -> returns (reader_of l (test_expr v fuel)) i.
Proof.
  intros K. assert (T : forall j k, (i <= j)%nat -> (j <= k)%nat -> (k < n)%nat -> returns (test_expr v fuel) (S k)).
  { intros j k J Kj Kn. apply test_expr_returns. lia. }
  destruct l as [|[|[|l]]]; cbn [reader_of].
  - apply operators_returns. intros j J. apply test_and_returns. intros k. by apply T.
  - apply test_and_returns. intros k. by apply (T i).
  - apply test_not_returns. intros k. by apply (T i).
  - apply test_primary_returns. intros Kn. by apply (T i i).
Qed.

Lemma operator_loop_passes op comb operand : forall k k' r i err, (forall j, (i < j)%nat -> returns operand j) ->
  (n - i <= k)%nat -> (n - i <= k')%nat ->
  operator_loop v op comb operand k r i err = operator_loop v op comb operand k' r i err.
Proof.
  induction k as [|k IH]; intros k' r i err T K K'; destruct k' as [|k']; cbn [operator_loop]; try done;
    destruct (at_word v op i) eqn:A; try done; apply at_word_lt in A; try lia.
  destruct (T (S i) ltac:(lia) err) as (r1 & i1 & err1 & -> & L1 & _).
  apply IH; [intros j J; apply T; lia|lia|lia].
Qed.

Lemma operator_loop_ends op comb operand k r i err : at_word v op i = false ->
  operator_loop v op comb operand k r i err = Some (r, i, err).
Proof. intros A. destruct k; cbn [operator_loop]; by rewrite A. Qed.

Lemma operator_step op comb operand r i err r' i' err' : (forall j, (i < j)%nat -> returns operand j) ->
  at_word v op i = true -> operand (S i) err = Some (r', i', err') ->
  operator_loop v op comb operand (n - i) r i err = operator_loop v op comb operand (n - i') (comb r' r) i' err'.
Proof.
  intros T A E. pose proof (at_word_lt _ _ _ A). destruct (n - i)%nat as [|k] eqn:K; [lia|].
  cbn [operator_loop]. rewrite A, E. destruct (T (S i) ltac:(lia) err) as (? & ? & ? & E' & L & _).
  rewrite E in E'. simplify_eq. apply operator_loop_passes; [intros j J; apply T; lia|lia|lia].
Qed.

(** Reading an expression of level [l] leaves the loop of the level behind it. *)
Definition loops (l : nat) (op : string) (comb : bool -> bool -> bool) (e : test_exp) : Prop :=
  forall fuel pre rest err,
  v = pre ++ words l e ++ rest -> follow (S l) rest -> (n - List.length pre <= fuel)%nat ->
  let j := (List.length pre + List.length (words l e))%nat in
  reader_of l (test_expr v fuel) (List.length pre) err
    = operator_loop v op comb (reader_of (S l) (test_expr v fuel)) (n - j) (holds e) j (err_after e err).

Section Level.
Context (l : nat) (op : string) (comb : bool -> bool -> bool).
Hypothesis level_reader : forall te, reader_of l te = operators v op comb (reader_of (S l) te).
Hypothesis level_follow : forall rest, follow (S l) (b op :: rest).
Hypothesis level_stops : forall pre rest, v = pre ++ rest -> follow l rest -> at_word v op (List.length pre) = false.

Lemma loops_lift e : words l e = words (S l) e -> reads (S l) e -> loops l op comb e.
Proof.
  intros W R fuel pre rest err E F K. cbv zeta. rewrite W in *. rewrite level_reader. unfold operators.
  by rewrite (R fuel pre rest err E F K).
Qed.

Lemma loops_reads e : loops l op comb e -> reads l e.
Proof.
  intros Lp fuel pre rest err E F K. rewrite (Lp fuel pre rest err E (follow_le l (S l) rest ltac:(lia) F) K).
  rewrite app_assoc in E. pose proof (level_stops _ _ E F) as A. rewrite length_app in A.
  rewrite operator_loop_ends by done. done.
Qed.

Lemma loops_operator e1 e2 e : loops l op comb e1 -> reads (S l) e2 ->
  words l e = words l e1 ++ [b op] ++ words (S l) e2 -> holds e = comb (holds e2) (holds e1) ->
  numbers_ok e = numbers_ok e1 && numbers_ok e2 -> loops l op comb e.
Proof.
  intros L1 R2 W Hd N fuel pre rest err E F K. cbv zeta. rewrite W in *. cbn [app] in *.
  rewrite <-!app_assoc in E. cbn [app] in E.
  rewrite (L1 fuel pre _ err E (level_follow _) K). rewrite app_assoc in E.
  pose proof (at_word_here op _ _ _ E) as A. rewrite str_equal_refl, length_app in A.
  rewrite cons_middle, app_assoc in E. pose proof (R2 fuel _ _ (err_after e1 err) E F) as R.
  rewrite !length_app in R. cbn [List.length] in R. rewrite Nat.add_1_r in R.
  assert (T : forall j, (List.length pre + List.length (words l e1) < j)%nat -> returns (reader_of (S l) (test_expr v fuel)) j)
    by (intros j J; apply reader_returns; lia).
  rewrite (operator_step _ comb _ (holds e1) _ _ _ _ _ T A (R ltac:(lia))).
  rewrite Hd, !length_app. cbn [List.length]. rewrite <-!plus_n_Sm, Nat.add_assoc. cbn [Nat.add].
  replace (err_after e err) with (err_after e2 (err_after e1 err)); [done|].
  unfold err_after. rewrite N. by destruct (numbers_ok e1), (numbers_ok e2).
Qed.

End Level.

Lemma or_stops pre rest : v = pre ++ rest -> follow 0 rest -> at_word v "-o" (List.length pre) = false.
Proof. intros E F. by apply (follow_stops 0 rest pre E F). Qed.
Lemma and_stops pre rest : v = pre ++ rest -> follow 1 rest -> at_word v "-a" (List.length pre) = false.
Proof. intros E F. by apply (follow_stops 1 rest pre E F). Qed.
Lemma or_follows rest : follow 1 (b "-o" :: rest).
Proof. right. left. by split; [lia|]. Qed.
Lemma and_follows rest : follow 2 (b "-a" :: rest).
Proof. right. right. by split; [lia|]. Qed.

(** ** Negations *)

Lemma skip_not_neg k : forall i neg, skip_not v k i (negb neg) = (negb (fst (skip_not v k i neg)), snd (skip_not v k i neg)).
Proof.
  induction k as [|k IH]; intros i neg; cbn; [done|]. destruct (_ && _); [apply IH|done].
Qed.

Lemma words_nonempty l e : words l e <> [].
Proof. destruct e; cbn [words]; case_test; cbn [app]; try done; by destruct (words _ _). Qed.

Lemma not_reads e : reads 2 e -> reads 2 (TNot e).
Proof.
  intros R fuel pre rest err E F K. change (words 2 (TNot e)) with ([b "!"] ++ words 2 e) in *. cbn [app] in E.
  pose proof (at_word_here "!" _ _ _ E) as A. rewrite str_equal_refl in A. pose proof (at_word_lt _ _ _ A).
  rewrite cons_middle, app_assoc in E. assert (Ln : (List.length pre + 1 < n)%nat).
  { unfold test_n. rewrite E, !length_app. pose proof (words_nonempty 2 e). destruct (words 2 e); [done|]. cbn. lia. }
  pose proof (R fuel _ _ err E F) as R'. rewrite length_app in R'. cbn [List.length] in R'. rewrite Nat.add_1_r in R'.
  specialize (R' ltac:(lia)). cbn [reader_of] in *. unfold test_not in *.
  destruct (n - List.length pre)%nat as [|k] eqn:Kn; [lia|]. cbn [skip_not]. rewrite A, (proj2 (Nat.ltb_lt _ _)) by done. cbn [andb].
  rewrite skip_not_neg. replace k with (n - S (List.length pre))%nat by lia.
  destruct (skip_not v _ _ false) as [neg j]. cbn [fst snd]. destruct (test_primary _ _ _ _) as [[[r i] e']|]; [|done].
  injection R' as Hr -> ->. cbn [holds]. rewrite <-Hr. cbn [app List.length]. rewrite <-plus_n_Sm. by destruct neg, r.
Qed.

Lemma no_not_reads e w ws : words 2 e = words 3 e -> words 3 e = w :: ws -> str_equal w (b "!") = false ->
  reads 3 e -> reads 2 e.
Proof.
  intros W W3 Nw R fuel pre rest err E F K. rewrite W in *. cbn [reader_of]. unfold test_not.
  assert (A : at_word v "!" (List.length pre) = false) by (rewrite W3 in E; by rewrite (at_word_here _ _ _ _ E)).
  assert (S' : skip_not v (n - List.length pre) (List.length pre) false = (false, List.length pre)).
  { destruct (n - _)%nat; cbn [skip_not]; [done|]. by rewrite A. }
  rewrite S'. pose proof (R fuel pre rest err E (follow_le 2 3 rest ltac:(lia) F) K) as R'. cbn [reader_of] in R'. rewrite R'.
  by rewrite xorb_false_l.
Qed.

(** ** Every level *)

Record read_well (e : test_exp) : Prop := {
  rw_or : loops 0 "-o" orb e;
  rw_or_reads : reads 0 e;
  rw_and : loops 1 "-a" andb e;
  rw_and_reads : reads 1 e;
  rw_not : reads 2 e;
  rw_primary : reads 3 e
}.

Lemma or_reads e : loops 0 "-o" orb e -> reads 0 e.
Proof. apply loops_reads, or_stops. Qed.
Lemma and_reads e : loops 1 "-a" andb e -> reads 1 e.
Proof. apply loops_reads, and_stops. Qed.
Lemma or_lift e : words 0 e = words 1 e -> reads 1 e -> loops 0 "-o" orb e.
Proof. by apply loops_lift. Qed.
Lemma and_lift e : words 1 e = words 2 e -> reads 2 e -> loops 1 "-a" andb e.
Proof. by apply loops_lift. Qed.

Lemma paren_primary e : (level e < 3)%nat -> words 3 e = [b "("] ++ words 0 e ++ [b ")"] -> reads 0 e -> reads 3 e.
Proof. intros L W R fuel pre rest err E _ K. by apply (paren_reads 3 e L W R fuel pre rest err). Qed.

#[local] Hint Resolve or_reads and_reads or_lift and_lift : core.

Lemma read_well_from_not e : words 0 e = words 1 e -> words 1 e = words 2 e -> reads 2 e -> reads 3 e -> read_well e.
Proof. intros. split; auto. Qed.

Lemma read_well_from_primary e w ws : words 0 e = words 1 e -> words 1 e = words 2 e -> words 2 e = words 3 e ->
  words 3 e = w :: ws -> str_equal w (b "!") = false -> reads 3 e -> read_well e.
Proof. intros. apply read_well_from_not; auto. by apply (no_not_reads e w ws). Qed.

Lemma all_read_well e : readable e -> read_well e.
Proof.
  induction e as [s|op arg|x op y|e IH|e1 IH1 e2 IH2|e1 IH1 e2 IH2]; intros Rd.
  - eapply read_well_from_primary; try done; [apply plain_not_paren, Rd|by apply str_reads].
  - eapply read_well_from_primary; try done; [apply unary_not_paren, Rd|by apply unary_reads].
  - eapply read_well_from_primary; try done; [apply plain_not_paren, Rd|by apply binary_reads].
  - assert (R2 : reads 2 (TNot e)) by apply not_reads, IH, Rd.
    apply read_well_from_not; try done. apply paren_primary; [cbn; lia|done|]. auto.
  - destruct Rd as [Rd1 Rd2]. assert (L1 : loops 1 "-a" andb (TAnd e1 e2)).
    { eapply (loops_operator 1 "-a" andb); try done; [apply and_follows|apply IH1, Rd1|apply IH2, Rd2|cbn; apply andb_comm]. }
    assert (R3 : reads 3 (TAnd e1 e2)) by (apply paren_primary; [cbn; lia|done|auto]).
    split; auto. by eapply no_not_reads.
  - destruct Rd as [Rd1 Rd2]. assert (L0 : loops 0 "-o" orb (TOr e1 e2)).
    { eapply (loops_operator 0 "-o" orb); try done; [apply or_follows|apply IH1, Rd1|apply IH2, Rd2|cbn; apply orb_comm]. }
    assert (R3 : reads 3 (TOr e1 e2)) by (apply paren_primary; [cbn; lia|done|auto]).
    assert (R2 : reads 2 (TOr e1 e2)) by by eapply no_not_reads.
    split; auto.
Qed.

End Reading.

(** ** What test answers *)

Lemma reading v e err : readable e -> v = words 0 e -> test_grammar v err = Some (holds e, err_after e err).
Proof.
  intros Rd E. unfold test_grammar. change (test_expr v (S (List.length v))) with (reader_of v 0 (test_expr v (List.length v))).
  pose proof (rw_or_reads v e (all_read_well v e Rd) (List.length v) [] [] err) as R. cbn [List.length app] in R.
  rewrite R; [by rewrite E, Nat.add_0_l, Nat.eqb_refl|by rewrite app_nil_r|done|unfold test_n; lia].
Qed.

(** The status of a truth value, or of an expression with a bad number *)
Definition status_of (r ok : bool) : Z * option test_message :=
  if ok then (if r then 0 else 1, None) else (2, Some Integer_expected).

Lemma test_command argv name ws r (ok : bool) : argv = name :: ws -> cnth name 0 <> ch "[" -> ws <> [] ->
  test_count ws 0 = Some (r, if ok then 0 else 2) -> builtin_test argv = Some (status_of r ok).
Proof.
  intros -> N W E. unfold builtin_test. cbn [nth]. rewrite (proj2 (Z.eqb_neq _ _)) by done. cbn [andb List.length].
  destruct ws as [|w ws]; [done|]. cbn [List.length Nat.leb].
  change (drop 1 (name :: w :: ws)) with (w :: ws). rewrite take_ge by (cbn; lia). rewrite E.
  by destruct ok.
Qed.

Lemma test_bracket argv ws r (ok : bool) : argv = b "[" :: ws ++ [b "]"] -> ws <> [] ->
  test_count ws 0 = Some (r, if ok then 0 else 2) -> builtin_test argv = Some (status_of r ok).
Proof.
  intros -> W E. unfold builtin_test. cbn [nth]. change (cnth (b "[") 0 =? ch "[") with true. cbn iota.
  cbn [andb List.length]. rewrite length_app. cbn [List.length]. replace (S (List.length ws + 1) - 1)%nat with (S (List.length ws)) by lia.
  cbn [nth]. rewrite app_nth2, Nat.sub_diag by lia. change (negb (cnth (nth 0 [b "]"] []) 0 =? ch "]")) with false. cbn iota.
  destruct ws as [|w ws]; [done|]. cbn [List.length Nat.leb Nat.sub drop]. rewrite drop_0.
  rewrite <-(Nat.add_0_r (S (List.length ws))). change (S (List.length ws)) with (List.length (w :: ws)).
  rewrite take_app_add. cbn [take]. rewrite app_nil_r, E. by destruct ok.
Qed.

(** C26: an expression is read as it was meant.  Take an expression, write it with
    parentheses only where "!", "-a" and "-o" need them, and give the words to
    test or to "[": the answer is the truth of the expression, or 2 when it
    compares a word that is no integer as a number.  The words must be more
    than four, as fewer are read by their number, and the name test is called
    by does not start with "[".  And every primary is one the grammar can
    tell from the words alone ([readable]): a word on its own is not "(", "!"
    or an operator of one operand; the left operand of a comparison is not "("
    or "!"; the operand of an operator of one operand is no operator of two
    (the grammar reads "-n = -a" as a comparison, see [operator_as_operand]);
    the right operand of a comparison is anything. *)
Theorem test_reads_expression e name : readable e -> (4 < List.length (words 0 e))%nat -> cnth name 0 <> ch "[" ->
  builtin_test (name :: words 0 e) = Some (status_of (holds e) (numbers_ok e)) /\
  builtin_test (b "[" :: words 0 e ++ [b "]"]) = Some (status_of (holds e) (numbers_ok e)).
Proof.
  intros Rd L N. assert (E : test_count (words 0 e) 0 = Some (holds e, if numbers_ok e then 0 else 2)).
  { pose proof (reading (words 0 e) e 0 Rd eq_refl) as R.
    by destruct (words 0 e) as [|x [|y [|z [|u [|w ws]]]]]; cbn in L; [lia|lia|lia|lia|lia|]. }
  assert (words 0 e <> []) by (destruct (words 0 e); [cbn in L; lia|done]).
  split; [by eapply test_command|by eapply test_bracket].
Qed.

(** The comparisons of numbers *)
Definition int_ops : list (string * (Z -> Z -> bool)) :=
  [("-eq"%string, Z.eqb); ("-ne"%string, fun x y => negb (x =? y)); ("-lt"%string, Z.ltb);
   ("-le"%string, Z.leb); ("-gt"%string, fun x y => y <? x); ("-ge"%string, fun x y => y <=? x)].

Lemma intarg_fmt i err : in_i64 i -> intarg (Fmt.fmt_longlong i) err = (i, err).
Proof.
  intros I. rewrite intarg_eq. pose proof (scan_fmt_longlong i [] 0 I ltac:(constructor)) as S.
  rewrite app_nil_r in S. unfold no_number. rewrite S by (vm_compute; intros [? _]; congruence). cbn [snd].
  unfold cnth. rewrite nth_overflow by done. destruct (Fmt.fmt_longlong i) eqn:E; [|done].
  by apply fmt_longlong_nil in E.
Qed.

Lemma int_op_holds op rel l r : (op, rel) ∈ int_ops -> in_i64 l -> in_i64 r ->
  is_binary (b op) = true /\ test_binary (Fmt.fmt_longlong l) (b op) (Fmt.fmt_longlong r) 0 = (rel l r, 0).
Proof.
  intros I L R. unfold int_ops in I. cbn in I.
  repeat (apply elem_of_cons in I as [[= -> ->]|I];
    [split; [done|]; unfold test_binary; cbn; eval_chars; by rewrite !intarg_fmt|]).
  by apply elem_of_nil in I.
Qed.

Lemma test_answer name ws r : cnth name 0 <> ch "[" -> ws <> [] -> test_count ws 0 = Some (r, 0) ->
  builtin_test (name :: ws) = Some (if r then 0 else 1, @None test_message).
Proof. intros N W E. exact (test_command _ name ws r true eq_refl N W E). Qed.

(** What "!" makes of an answer: 0 and 1 change places, an error stays. *)
Definition opposite (answer : option (Z * option test_message)) : option (Z * option test_message) :=
  match answer with
  | Some (status, msg) => Some (if status =? 0 then 1 else if status =? 1 then 0 else status, msg)
  | None => None
  end.

Lemma builtin_test_words name ws : cnth name 0 <> ch "[" -> ws <> [] ->
  builtin_test (name :: ws) =
    match test_count ws 0 with
    | Some (result, err) =>
        if err =? 0 then Some (if result then 0 else 1, None)
        else Some (EXIT_ERROR, Some (if err =? 2 then Integer_expected else Invalid_expression))
    | None => None
    end.
Proof.
  intros N W. unfold builtin_test. cbn [nth]. rewrite (proj2 (Z.eqb_neq _ _)) by done. cbn [andb List.length].
  destruct ws as [|w ws]; [done|]. cbn [List.length Nat.leb].
  change (drop 1 (name :: w :: ws)) with (w :: ws). by rewrite take_ge by (cbn; lia).
Qed.

Lemma test_not_words name ws : cnth name 0 <> ch "[" -> ws <> [] ->
  test_count (b "!" :: ws) 0 = negated (test_count ws 0) ->
  builtin_test (name :: b "!" :: ws) = opposite (builtin_test (name :: ws)).
Proof.
  intros N W E. rewrite !builtin_test_words, E by done.
  destruct (test_count ws 0) as [[[] err]|]; cbn; [by destruct (err =? 0)..|done].
Qed.

Lemma eq_is_binary : is_binary (b "=") = true.
Proof. done. Qed.
Lemma ne_is_binary : is_binary (b "!=") = true.
Proof. done. Qed.

(** C40: with three words the one in the middle decides, whatever the others
    look like: any two strings can be compared with "=" and "!=", also "(", "!",
    "-n" or "=" themselves, and any two integers of 64 bits with "-eq" to
    "-ge", by their values.  One word is true when it is not empty, and "!" in
    front of one to three words, whatever they are, negates what they mean
    alone: status 0 becomes 1, 1 becomes 0, and 2 and the message stay.  Only
    in front of two words of which the first is an operator of two operands,
    "-a" or "-o" is "!" an operand itself. *)
Theorem test_operands_literal name x y l r op rel : cnth name 0 <> ch "[" -> cstring x -> cstring y ->
  in_i64 l -> in_i64 r -> (op, rel) ∈ int_ops ->
  let yes (p : bool) := Some (if p then 0 else 1, @None test_message) in
  builtin_test [name; x; b "="; y] = yes (bool_decide (x = y)) /\
  builtin_test [name; x; b "!="; y] = yes (negb (bool_decide (x = y))) /\
  builtin_test [name; Fmt.fmt_longlong l; b op; Fmt.fmt_longlong r] = yes (rel l r) /\
  builtin_test [name; x] = yes (negb (bool_decide (x = []))) /\
  (forall u, builtin_test [name; b "!"; u] = opposite (builtin_test [name; u])) /\
  (forall u v, is_binary u = false -> word_is u "-a" = false -> word_is u "-o" = false ->
     builtin_test [name; b "!"; u; v] = opposite (builtin_test [name; u; v])) /\
  (forall u v w, builtin_test [name; b "!"; u; v; w] = opposite (builtin_test [name; u; v; w])).
Proof.
  intros N X Y L R I yes. pose proof (int_op_holds op rel l r I L R) as [O T].
  assert (Nn : not_null x = negb (bool_decide (x = []))).
  { destruct X as [|c x C _]; [done|]. unfold not_null. cbn. rewrite (proj2 (Z.eqb_neq _ _)) by lia. done. }
  assert (Q : test_binary x (b "=") y 0 = (bool_decide (x = y), 0)) by (by rewrite <-(str_equal_eq x y)).
  assert (D : test_binary x (b "!=") y 0 = (negb (bool_decide (x = y)), 0)) by (by rewrite <-(str_equal_eq x y)).
  split_and!; try (apply test_answer; [done|done|]); try (intros; apply test_not_words; [done|done|]).
  - cbn [test_count]. unfold test_three. by rewrite eq_is_binary, Q.
  - cbn [test_count]. unfold test_three. by rewrite ne_is_binary, D.
  - cbn [test_count]. unfold test_three. by rewrite O, T.
  - cbn [test_count]. by rewrite Nn.
  - done.
  - cbn [test_count]. unfold test_three. by rewrite H0, H1, H2.
  - done.
Qed.

End Props.

(** ** Witnesses *)

(** A system with one regular file, "data", and a terminal behind descriptor 1 *)
Definition data_stat : file_stat := FileStat S_REG false false 12 1000 1 2.

#[export] Instance one_file : Files := {
  stat f := if bool_decide (f = b "data") then Some data_stat else None;
  lstat f := if bool_decide (f = b "data") then Some data_stat else None;
  access f m := bool_decide (f = b "data") && match m with X_OK => false | _ => true end;
  isatty n := n =? 1
}.

(** ! ( -f data -a 2 -lt 10 ) -o x != "" *)
Definition sample_exp : test_exp :=
  TOr (TNot (TAnd (TUnary (b "-f") (b "data")) (TBinary (b "2") (b "-lt") (b "10")))) (TBinary (b "x") (b "!=") []).

Lemma sample_words : words 0 sample_exp =
  List.map b ["!"; "("; "-f"; "data"; "-a"; "2"; "-lt"; "10"; ")"; "-o"; "x"; "!="]%string ++ [[]].
Proof. reflexivity. Qed.

Lemma plain_check s : forallb (fun c => (0 <? c) && (c <? 256)) s = true -> bool_decide (s = b "(") = false ->
  bool_decide (s = b "!") = false -> plain s.
Proof. intros C N1 N2. split; [by apply cstring_b_check|]. by apply bool_decide_eq_false in N1, N2. Qed.

Lemma test_reads_expression_witness :
  builtin_test (b "test" :: words 0 sample_exp) = Some (0, None) /\
  builtin_test (b "[" :: words 0 sample_exp ++ [b "]"]) = Some (0, None).
Proof.
  assert (E : status_of (holds sample_exp) (numbers_ok sample_exp) = (0, None)) by (vm_compute; reflexivity).
  rewrite <-E. apply (test_reads_expression sample_exp (b "test")).
  - repeat split; reflexivity || (apply cstring_b_check; reflexivity) || (apply plain_check; reflexivity).
  - vm_compute. lia.
  - vm_compute. discriminate.
Defined.

Lemma test_operands_literal_witness :
  let yes (p : bool) := Some (if p then 0 else 1, @None test_message) in
  builtin_test [b "test"; b "("; b "="; b "!"] = yes false /\
  builtin_test [b "test"; b "("; b "!="; b "!"] = yes true /\
  builtin_test [b "test"; Fmt.fmt_longlong (-9223372036854775808); b "-lt"; Fmt.fmt_longlong 7] = yes true /\
  builtin_test [b "test"; b "("] = yes true /\
  (forall u, builtin_test [b "test"; b "!"; u] = opposite (builtin_test [b "test"; u])) /\
  (forall u v, is_binary u = false -> word_is u "-a" = false -> word_is u "-o" = false ->
     builtin_test [b "test"; b "!"; u; v] = opposite (builtin_test [b "test"; u; v])) /\
  (forall u v w, builtin_test [b "test"; b "!"; u; v; w] = opposite (builtin_test [b "test"; u; v; w])).
Proof.
  apply (test_operands_literal (b "test") (b "(") (b "!") (-9223372036854775808) 7 "-lt" Z.ltb).
  - vm_compute. discriminate.
  - apply cstring_b_check. reflexivity.
  - apply cstring_b_check. reflexivity.
  - unfold in_i64. lia.
  - unfold in_i64. lia.
  - apply list_elem_of_In. cbn. tauto.
Defined.

(** ** What the code does differently *)

(** Only the first character of the last word of "[" is compared with "]". *)
Example bracket_with_tail : builtin_test (List.map b ["["; "x"; "]y"]%string) = Some (0, None).
Proof. by vm_compute. Qed.

(** An operand of "-n" that looks like an operator: the primary is the
    comparison of "-n" and "-a", and the rest is left over. *)
Example operator_as_operand :
  builtin_test (List.map b ["test"; "-n"; "="; "-a"; "x"; "-a"; "y"]%string) = Some (2, Some Invalid_expression).
Proof. by vm_compute. Qed.

(** An operand of "-t" that is no number means descriptor 1. *)
Example terminal_of_no_number : builtin_test (List.map b ["test"; "-t"; "x"]%string) = Some (0, None).
Proof. by vm_compute. Qed.
