(* ===== verification/Source.v ===== *)
(** * The input source (src/source)

    A source is the unread text of its buffer, the state of its backslash
    scanner and its position.  [source_peekn] looks ahead without consuming,
    except that a [\<newline>] at the very front is consumed for good;
    [source_skip] consumes one character.  The text is all in memory (a [-c]
    string, an [eval] or a mapped script), so [buffer_prefetch] never brings
    more; no alias frame and no pending here-document is on the stack. *)

From S2P Require Import Prelude.

(** ** State *)

Record source := Source {
  s_text : bytes;      (* b->x[b->p .. b->n) *)
  s_bs : bool;         (* source_bs: the last skipped char was an unescaped backslash *)
  s_squoted : bool;    (* source_squoted *)
  s_comment : bool;    (* source_comment *)
  s_line : Z;          (* position.line *)
  s_column : Z;        (* position.column *)
  s_offset : Z;        (* position.offset *)
  s_skips : Z          (* source_skips *)
}.

Definition BSL : Z := 92.
Definition NL : Z := 10.

Definition with_text (st : source) (x : bytes) : source :=
  Source x (s_bs st) (s_squoted st) (s_comment st) (s_line st) (s_column st) (s_offset st) (s_skips st).

Definition with_bs (st : source) (v : bool) : source :=
  Source (s_text st) v (s_squoted st) (s_comment st) (s_line st) (s_column st) (s_offset st) (s_skips st).

Definition with_squoted (st : source) (v : bool) : source :=
  Source (s_text st) (s_bs st) v (s_comment st) (s_line st) (s_column st) (s_offset st) (s_skips st).

(** source_push: a new source starts at line 1, column 1 *)
Definition source_push (x : bytes) : source := Source x false false false 1 1 0 0.

Definition source_newline (st : source) : source :=
  Source (s_text st) (s_bs st) (s_squoted st) (s_comment st)
    (u32 (s_line st + 1)) 1 (u64 (s_offset st + 1)) (s_skips st).

(** ** Peeking *)

Definition raw_mode (st : source) : bool := s_squoted st || s_comment st.

(** The loop of source_peekn once the front is not a continuation: the
    [n]-th logical character, continuations not counting. *)
Fixpoint peek_from (x : bytes) (esc : bool) (n : nat) : option Z :=
  match x with
  | [] => None
  | c :: x' =>
      let go := match n with
                | O => Some c
                | S n' => peek_from x' (negb esc && (c =? BSL)) n'
                end in
      if negb esc && (c =? BSL) then
        match x' with
        | d :: x'' => if d =? NL then peek_from x'' esc n else go
        | [] => go
        end
      else go
  end.

(** A continuation at the very front is consumed, and counts as a newline. *)
Fixpoint front_cont (fuel : nat) (st : source) : source :=
  match fuel with
  | O => st
  | S f =>
      match s_text st with
      | c :: d :: x =>
          if negb (s_bs st) && (c =? BSL) && (d =? NL)
          then front_cont f (source_newline (with_text st x))
          else st
      | _ => st
      end
  end.

Definition source_peekn (st : source) (n : nat) : option Z * source :=
  if raw_mode st then (s_text st !! n, st)
  else
    let st := front_cont (List.length (s_text st)) st in
    (peek_from (s_text st) (s_bs st) n, st).

Definition source_peek (st : source) : option Z * source := source_peekn st 0.

(** ** Consuming *)

Definition advance (st : source) (c : Z) : source :=
  if c =? NL then source_newline st
  else
    Source (s_text st) (s_bs st) (s_squoted st) (s_comment st)
      (s_line st) (u32 (s_column st + 1)) (u64 (s_offset st + 1)) (s_skips st).

Definition source_skip (st : source) : bool * source :=
  let st := snd (source_peekn st 0) in
  match s_text st with
  | [] => (false, st)
  | c :: x =>
      let st := Source x (s_bs st) (s_squoted st) (s_comment st)
                  (s_line st) (s_column st) (s_offset st) (u64 (s_skips st + 1)) in
      if (c =? BSL) && negb (s_bs st) && negb (raw_mode st) then
        let st := with_bs st true in
        match source_peek st with
        | (Some d, st) =>
            if d =? NL
            then (true, advance (with_bs (with_text st (drop 1 (s_text st))) false) NL)
            else (true, advance st BSL)
        | (None, st) => (true, advance st BSL)
        end
      else (true, advance (with_bs st false) c)
  end.

Definition source_get (st : source) : option Z * source :=
  match source_peek st with
  | (Some c, st) => (Some c, snd (source_skip st))
  | (None, st) => (None, st)
  end.

Definition source_next (st : source) : option Z * source :=
  source_peek (snd (source_skip st)).

(** source_flush: drop the rest of the current line *)
Fixpoint flush_line (x : bytes) : bytes :=
  match x with
  | [] => []
  | c :: x' => if c =? NL then x' else flush_line x'
  end.

Definition source_flush (st : source) : source := with_text st (flush_line (s_text st)).

(** ** Abstract view: the text with its line continuations removed *)

Fixpoint logical (x : bytes) (esc : bool) : bytes :=
  match x with
  | [] => []
  | c :: x' =>
      let go := c :: logical x' (negb esc && (c =? BSL)) in
      if negb esc && (c =? BSL) then
        match x' with
        | d :: x'' => if d =? NL then logical x'' esc else go
        | [] => go
        end
      else go
  end.

(** What is left to read *)
Definition unread (st : source) : bytes :=
  if raw_mode st then s_text st else logical (s_text st) (s_bs st).

Fixpoint newlines (x : bytes) : Z :=
  match x with [] => 0 | c :: x' => (if c =? NL then 1 else 0) + newlines x' end.

(** ** Lemmas *)

(** Induction two characters at a time. *)
Lemma list_ind2 {A} (P : list A -> Prop) :
  P [] -> (forall x, P [x]) -> (forall x y l, P l -> P (y :: l) -> P (x :: y :: l)) ->
  forall l, P l.
Proof.
  intros H0 H1 H2 l. enough (P l /\ forall x, P (x :: l)) by tauto.
  induction l as [|y l [IH1 IH2]]; split; auto.
Qed.

Lemma peek_from_logical x : forall esc n, peek_from x esc n = logical x esc !! n.
Proof.
  induction x as [|c|c d x IH IH'] using list_ind2; intros esc n; [done| |].
  - simpl. by destruct (negb esc && (c =? BSL)), n.
  - cbn [peek_from logical]. destruct (negb esc && (c =? BSL)).
    + destruct (d =? NL); [apply IH|]. destruct n; [done|]. apply IH'.
    + destruct n; [done|]. apply IH'.
Qed.

Lemma front_cont_spec fuel : forall st,
  let st' := front_cont fuel st in
  raw_mode st' = raw_mode st /\ s_bs st' = s_bs st
  /\ logical (s_text st') (s_bs st') = logical (s_text st) (s_bs st)
  /\ u32 (s_line st' + newlines (s_text st')) = u32 (s_line st + newlines (s_text st))
  /\ (List.length (s_text st') <= List.length (s_text st))%nat.
Proof.
  induction fuel as [|f IH]; intros st; [done|]. cbn [front_cont].
  destruct (s_text st) as [|c [|d x]] eqn:E; [by rewrite E| by rewrite E|].
  destruct (negb (s_bs st) && (c =? BSL) && (d =? NL)) eqn:T; [|by rewrite E].
  zify_bool. subst. destruct (IH (source_newline (with_text st x))) as (H1 & H2 & H3 & H4 & H5).
  simpl in *. split_and!; try done.
  - rewrite H2, H. rewrite H2, H in H3. done.
  - rewrite H4. unfold u32. rewrite Zplus_mod_idemp_l. f_equal. lia.
  - lia.
Qed.

(** With enough fuel no continuation is left at the front. *)
Lemma front_cont_done fuel : forall st,
  (List.length (s_text st) <= fuel)%nat ->
  match s_text (front_cont fuel st) with
  | c :: d :: _ => negb (s_bs st) && (c =? BSL) && (d =? NL) = false
  | _ => True
  end.
Proof.
  induction fuel as [|f IH]; intros st Hf; cbn [front_cont].
  - by destruct (s_text st) as [|? [|? ?]]; simpl in Hf; [|lia|lia].
  - destruct (s_text st) as [|c [|d x]] eqn:E; [by rewrite E|by rewrite E|].
    destruct (negb (s_bs st) && (c =? BSL) && (d =? NL)) eqn:T; [|by rewrite E, T].
    apply (IH (source_newline (with_text st x))). simpl in *. lia.
Qed.

Lemma peekn_state st n :
  let st' := snd (source_peekn st n) in
  raw_mode st' = raw_mode st /\ s_bs st' = s_bs st /\ unread st' = unread st
  /\ u32 (s_line st' + newlines (s_text st')) = u32 (s_line st + newlines (s_text st)).
Proof.
  unfold source_peekn, unread. destruct (raw_mode st) eqn:R; simpl; [by rewrite R|].
  destruct (front_cont_spec (List.length (s_text st)) st) as (H1 & H2 & H3 & H4 & _).
  rewrite H1, R. by split_and!.
Qed.

Lemma peekn_unread st n : fst (source_peekn st n) = unread st !! n.
Proof.
  unfold source_peekn, unread. destruct (raw_mode st) eqn:R; simpl; [done|].
  rewrite peek_from_logical.
  by destruct (front_cont_spec (List.length (s_text st)) st) as (_ & _ & -> & _).
Qed.

(** After a peek the front of the buffer is the next logical character. *)
Lemma peekn_front st n :
  let st' := snd (source_peekn st n) in
  raw_mode st = false ->
  match s_text st' with
  | [] => unread st = []
  | c :: x => unread st = c :: logical x (negb (s_bs st) && (c =? BSL))
  end.
Proof.
  intros st' R. destruct (peekn_state st n) as (H1 & H2 & H3 & _). fold st' in H1, H2, H3.
  rewrite <-H3. unfold unread. rewrite H1, R, H2.
  pose proof (front_cont_done (List.length (s_text st)) st (le_n _)) as HF.
  replace (front_cont (List.length (s_text st)) st) with st' in HF
    by (unfold st', source_peekn; by rewrite R).
  destruct (s_text st') as [|c [|d x]]; [done| |]; cbn [logical].
  - by destruct (negb (s_bs st) && (c =? BSL)).
  - destruct (negb (s_bs st) && (c =? BSL)) eqn:T; [|done].
    simpl in HF. by rewrite HF.
Qed.

Lemma advance_state st c :
  raw_mode (advance st c) = raw_mode st /\ s_bs (advance st c) = s_bs st
  /\ s_text (advance st c) = s_text st
  /\ u32 (s_line (advance st c) + newlines (s_text st))
     = u32 (s_line st + (if c =? NL then 1 else 0) + newlines (s_text st)).
Proof.
  unfold advance. destruct (c =? NL); split_and!; try done; simpl; [|f_equal; lia].
  unfold u32. rewrite Zplus_mod_idemp_l. done.
Qed.

(** After an unescaped backslash nothing is a continuation any more. *)
Lemma peek_escaped st :
  s_bs st = true -> source_peek st = (s_text st !! 0%nat, st).
Proof.
  intros B. unfold source_peek, source_peekn. destruct (raw_mode st); [done|].
  assert (F : forall n, front_cont n st = st).
  { intros [|n]; [done|]. cbn [front_cont]. rewrite B. by destruct (s_text st) as [|? [|? ?]]. }
  rewrite F, B. by destruct (s_text st).
Qed.

Lemma source_skip_spec st :
  let '(ok, st') := source_skip st in
  raw_mode st' = raw_mode st
  /\ unread st' = tail (unread st)
  /\ ok = (match unread st with [] => false | _ => true end)
  /\ u32 (s_line st' + newlines (s_text st')) = u32 (s_line st + newlines (s_text st)).
Proof.
  unfold source_skip. destruct (peekn_state st 0) as (P1 & P2 & P3 & P4).
  pose proof (peekn_front st 0) as PF. cbv zeta in P1, P2, P3, P4, PF.
  set (st1 := snd (source_peekn st 0)) in *. rewrite <-P3.
  rewrite <-P1 in PF. rewrite <-P3, <-P2 in PF.
  pose proof (front_cont_done (List.length (s_text st)) st (le_n _)) as HF.
  destruct (s_text st1) as [|c x] eqn:E.
  { destruct (raw_mode st1) eqn:R; [unfold unread; rewrite R, E|rewrite PF by done]; by rewrite ?E. }
  set (st2 := Source x _ _ _ _ _ _ _).
  assert (R2 : raw_mode st2 = raw_mode st1) by done.
  destruct ((c =? BSL) && negb (s_bs st2) && negb (raw_mode st2)) eqn:T.
  - rewrite peek_escaped by done. cbn [with_bs s_text st2] in *. zify_bool. subst c.
    rewrite R2 in H0. change (s_bs st2) with (s_bs st1) in H1.
    specialize (PF H0). rewrite H1 in PF. simpl in PF. rewrite PF.
    set (adv := fun st : source => advance st BSL).
    assert (Good : let st' := advance (with_bs st2 true) BSL in
      raw_mode st' = raw_mode st /\ unread st' = logical x true
      /\ u32 (s_line st' + newlines (s_text st')) = u32 (s_line st + newlines (s_text st))).
    { destruct (advance_state (with_bs st2 true) BSL) as (A1 & A2 & A3 & A4). cbv zeta.
      rewrite A1, A3. unfold unread. rewrite A1, A2, A3. change (raw_mode (with_bs st2 true)) with (raw_mode st2).
      rewrite R2, H0. cbn in A4 |- *. split_and!; [congruence|done|].
      rewrite A4, <-P4. simpl. f_equal. lia. }
    destruct Good as (G1 & G2 & G3).
    destruct x as [|d x]; cbn [lookup list_lookup]; [by split_and!|].
    destruct (d =? NL) eqn:D; [|by split_and!].
    exfalso. replace (front_cont (List.length (s_text st)) st) with st1 in HF
      by (unfold st1, source_peekn; by rewrite <-P1, H0).
    rewrite E, <-P2, H1, D in HF. done.
  - destruct (advance_state (with_bs st2 false) c) as (A1 & A2 & A3 & A4).
    rewrite A1, A3. unfold unread at 1. rewrite A1, A2, A3.
    change (raw_mode (with_bs st2 false)) with (raw_mode st1). cbn [with_bs s_text st2] in *.
    split_and!; [done| | |].
    + destruct (raw_mode st1) eqn:R; [unfold unread; by rewrite R, E|].
      rewrite PF by done. simpl. f_equal. rewrite R2 in T. change (s_bs st2) with (s_bs st1) in T.
      by destruct (s_bs st1), (c =? BSL).
    + destruct (raw_mode st1) eqn:R; [unfold unread; by rewrite R, E|by rewrite PF].
    + simpl in A4 |- *. rewrite A4, <-P4. simpl. f_equal. lia.
Qed.

(** ** Properties *)

(** Reading the whole input, the way every consumer of the source does. *)
Fixpoint read_all (fuel : nat) (st : source) : bytes * source :=
  match fuel with
  | O => ([], st)
  | S f =>
      match source_get st with
      | (Some c, st) => let '(cs, st) := read_all f st in (c :: cs, st)
      | (None, st) => ([], st)
      end
  end.

Lemma source_get_spec st :
  let '(c, st') := source_get st in
  c = unread st !! 0%nat /\ unread st' = tail (unread st)
  /\ u32 (s_line st' + newlines (s_text st')) = u32 (s_line st + newlines (s_text st)).
Proof.
  unfold source_get, source_peek. pose proof (peekn_unread st 0) as P.
  destruct (peekn_state st 0) as (_ & _ & P3 & P4).
  destruct (source_peekn st 0) as [c st1]. simpl in *. subst c.
  destruct (unread st !! 0%nat) as [c|] eqn:E.
  - pose proof (source_skip_spec st1) as S. destruct (source_skip st1) as [ok st2]. simpl.
    destruct S as (_ & S2 & _ & S4). split_and!; [done|by rewrite S2, P3|by rewrite S4].
  - split_and!; [done| |done]. rewrite P3. by destruct (unread st).
Qed.

(** C34: whatever the text, looking ahead shows the characters of the text
    with its line continuations removed, escaped backslashes respected, and
    does not change that text. Line continuations at the front of the input
    are dropped on the way, and each has advanced the line number by then: the
    number and the newlines still in the input add up to what they did. *)
Theorem source_peekn_refines (st : source) (n : nat) :
  fst (source_peekn st n) = unread st !! n
  /\ unread (snd (source_peekn st n)) = unread st
  /\ (forall m, fst (source_peekn (snd (source_peekn st n)) m) = unread st !! m)
  /\ (let st' := snd (source_peekn st n) in
      u32 (s_line st' + newlines (s_text st')) = u32 (s_line st + newlines (s_text st))).
Proof.
  destruct (peekn_state st n) as (H1 & H2 & H3 & H4). split_and!; [apply peekn_unread|done| |done].
  intros m. by rewrite peekn_unread, H3.
Qed.

Lemma newlines_nonneg x : 0 <= newlines x.
Proof. induction x; simpl; [lia|]. destruct (_ =? _); lia. Qed.

Lemma unread_nil_newlines st : s_text st = [] -> newlines (s_text st) = 0.
Proof. by intros ->. Qed.

(** Reading a source to its end returns exactly the text with its line
    continuations removed (all of it verbatim inside single quotes), and
    every physical newline of the text, also the removed ones, has advanced
    the line number once. *)
Theorem source_read_all (st : source) (fuel : nat) :
  (List.length (unread st) < fuel)%nat ->
  let '(cs, st') := read_all fuel st in
  cs = unread st
  /\ unread st' = []
  /\ u32 (s_line st' + newlines (s_text st')) = u32 (s_line st + newlines (s_text st)).
Proof.
  revert st. induction fuel as [|f IH]; intros st Hf; [lia|]. cbn [read_all].
  pose proof (source_get_spec st) as G. destruct (source_get st) as [c st1].
  destruct G as (-> & G2 & G3). destruct (unread st) as [|c u] eqn:E; cbn [lookup list_lookup].
  - by split_and!.
  - simpl in Hf, G2. specialize (IH st1). rewrite G2 in IH.
    destruct (read_all f st1) as [cs st2]. destruct IH as (I1 & I2 & I3); [lia|].
    split_and!; [by subst|done|by rewrite I3].
Qed.

Lemma source_read_all_witness :
  let st := source_push (b "ab\" ++ NL :: b "c\\" ++ NL :: b "d") in
  (List.length (unread st) < 10)%nat /\
  unread st = b "abc\\" ++ NL :: b "d" /\
  s_line (snd (read_all 10 st)) = 3 /\
  let '(cs, st') := read_all 10 st in
  cs = unread st /\ unread st' = []
  /\ u32 (s_line st' + newlines (s_text st')) = u32 (s_line st + newlines (s_text st)).
Proof.
  split; [vm_compute; lia|]. split; [vm_compute; reflexivity|].
  split; [vm_compute; reflexivity|].
  apply (source_read_all (source_push (b "ab\" ++ NL :: b "c\\" ++ NL :: b "d")) 10).
  vm_compute; lia.
Defined.
