(* ===== verification/Chars.v ===== *)
(** * Character classes of the lexer (src/parse/parse_chartable.c, src/parse.h)

    The 256-entry class table and the predicates read from it. *)

From S2P Require Import Prelude.

Declare Scope chars_scope.
Delimit Scope chars_scope with chars.
Notation "x .| y" := (Z.lor x y) (at level 50, left associativity) : chars_scope.
Open Scope chars_scope.

(** ** Class bits *)

Definition C_UNDEF : Z := 0x00.
Definition C_SPACE : Z := 0x01.
Definition C_DIGIT : Z := 0x02.
Definition C_UPPER : Z := 0x04.
Definition C_LOWER : Z := 0x08.
Definition C_NAME : Z := 0x10.
Definition C_SPCL : Z := 0x20.
Definition C_CTRL : Z := 0x40.
Definition C_ESC : Z := 0x80.
Definition C_DESC : Z := 0x100.
Definition C_QUOT : Z := 0x200.
Definition C_HEX : Z := 0x400.
Definition C_OCTAL : Z := 0x800.
Definition C_BINARY : Z := 0x1000.
Definition C_ARITHOP : Z := 0x2000.
Definition C_FNNAME : Z := 0x4000.

Definition parse_chartable : list Z :=
    replicate 9 (C_UNDEF) ++
    [C_SPACE; C_SPACE; C_UNDEF; C_UNDEF; C_SPACE] ++
    replicate 18 (C_UNDEF) ++
    [C_SPACE .| C_ESC; C_SPCL .| C_ARITHOP; C_DESC .| C_QUOT; C_SPCL; C_SPCL .| C_DESC;
     C_ARITHOP; C_ARITHOP .| C_CTRL; C_QUOT; C_CTRL; C_CTRL; C_SPCL .| C_ESC .| C_ARITHOP;
     C_ARITHOP; C_UNDEF; C_SPCL .| C_ARITHOP .| C_FNNAME; C_UNDEF; C_ARITHOP; C_DIGIT .|
     C_HEX .| C_OCTAL .| C_BINARY; C_DIGIT .| C_HEX .| C_OCTAL .| C_BINARY] ++
    replicate 6 (C_DIGIT .| C_HEX .| C_OCTAL) ++
    [C_DIGIT .| C_HEX; C_DIGIT .| C_HEX; C_UNDEF; C_CTRL; C_ARITHOP; C_ARITHOP; C_ARITHOP;
     C_SPCL .| C_ESC; C_SPCL] ++
    replicate 6 (C_UPPER .| C_HEX) ++
    replicate 20 (C_UPPER) ++
    [C_ESC; C_ESC; C_ESC; C_ARITHOP; C_NAME; C_DESC .| C_QUOT] ++
    replicate 6 (C_LOWER .| C_HEX) ++
    replicate 20 (C_LOWER) ++
    [C_UNDEF; C_CTRL; C_UNDEF; C_ARITHOP] ++
    replicate 129 (C_UNDEF).

(** [parse_chartable[(int)(unsigned char)c]]; a character is its value as an
    unsigned char. *)
Definition char_class (c : Z) : Z := nth (Z.to_nat c) parse_chartable 0.

Definition class_has (c mask : Z) : bool := negb (Z.land (char_class c) mask =? 0).

Definition parse_isspace (c : Z) : bool := class_has c C_SPACE.
Definition parse_isdigit (c : Z) : bool := class_has c C_DIGIT.
Definition parse_isxdigit (c : Z) : bool := class_has c C_HEX.
Definition parse_isodigit (c : Z) : bool := class_has c C_OCTAL.
Definition parse_isupper (c : Z) : bool := class_has c C_UPPER.
Definition parse_islower (c : Z) : bool := class_has c C_LOWER.
Definition parse_isalpha (c : Z) : bool := class_has c (C_LOWER .| C_UPPER).
Definition parse_isalnum (c : Z) : bool := class_has c (C_LOWER .| C_UPPER .| C_DIGIT).
Definition parse_isspcl (c : Z) : bool := class_has c C_SPCL.
Definition parse_isctrl (c : Z) : bool := class_has c C_CTRL.
Definition parse_isesc (c : Z) : bool := class_has c C_ESC.
Definition parse_isdesc (c : Z) : bool := class_has c C_DESC.

(** [pos] is where in the name the character stands. *)
Definition parse_isname (c : Z) (pos : nat) : bool :=
  class_has c (C_LOWER .| C_UPPER .| C_NAME) || ((0 <? pos)%nat && parse_isdigit c).

Definition parse_isfname (c : Z) (pos : nat) : bool :=
  class_has c (C_LOWER .| C_UPPER .| C_NAME)
  || ((0 <? pos)%nat && (parse_isdigit c || (c =? ch "-"))).

Definition parse_isparam (c : Z) : bool :=
  class_has c (C_LOWER .| C_UPPER .| C_DIGIT .| C_NAME .| C_SPCL).
Definition parse_isarith (c : Z) : bool := class_has c C_ARITHOP.

Fixpoint all_name (isname : Z -> nat -> bool) (s : bytes) (pos : nat) : bool :=
  match s with
  | [] => true
  | c :: s' => isname c pos && all_name isname s' (S pos)
  end.

Definition parse_isfuncname (s : bytes) : bool := all_name parse_isfname s 0.

(** A name is not empty and all of it is name characters. *)
Definition parse_validname (s : bytes) : bool :=
  if (List.length s =? 0)%nat then false else all_name parse_isname s 0.

(** ** The classes are the POSIX ones *)

Definition is_alpha (c : Z) : bool := ((65 <=? c) && (c <=? 90)) || ((97 <=? c) && (c <=? 122)).

Ltac class_by_table P x H :=
  apply (byte_forall P); [vm_compute; reflexivity|exact H].

Lemma isdigit_spec c : is_byte c -> parse_isdigit c = c_isdigit c.
Proof.
  intros H. apply Bool.eqb_prop.
  class_by_table (fun c => Bool.eqb (parse_isdigit c) (c_isdigit c)) c H.
Qed.

Lemma isalpha_spec c : is_byte c -> parse_isalpha c = is_alpha c.
Proof.
  intros H. apply Bool.eqb_prop.
  class_by_table (fun c => Bool.eqb (parse_isalpha c) (is_alpha c)) c H.
Qed.

Lemma isname_spec c pos : is_byte c ->
  parse_isname c pos = is_alpha c || (c =? 95) || ((0 <? pos)%nat && c_isdigit c).
Proof.
  intros H. unfold parse_isname. rewrite isdigit_spec by done. f_equal. apply Bool.eqb_prop.
  class_by_table (fun c => Bool.eqb (class_has c (C_LOWER .| C_UPPER .| C_NAME))
                             (is_alpha c || (c =? 95))) c H.
Qed.

Lemma isspace_spec c : is_byte c ->
  parse_isspace c = (c =? 32) || (c =? 9) || (c =? 10) || (c =? 13).
Proof.
  intros H. apply Bool.eqb_prop.
  class_by_table (fun c => Bool.eqb (parse_isspace c)
     ((c =? 32) || (c =? 9) || (c =? 10) || (c =? 13))) c H.
Qed.

Lemma char_class_out c : ~ 0 <= c < 256 -> char_class c = 0.
Proof.
  intros H. unfold char_class. destruct (decide (c < 0)).
  - by replace (Z.to_nat c) with 0%nat by lia.
  - apply nth_overflow. change (List.length parse_chartable) with 256%nat. lia.
Qed.
