(* ===== verification/Tree.v ===== *)
(** * The syntax tree (src/tree.h, src/tree, flags of src/expand.h)

    [node] is [union node]: one constructor per member structure, named as the
    structure, with the [id] field where several kinds share it.  A chain of
    nodes linked through [next] is a [list node]; a pointer that may be NULL on
    its own is an [option node]. *)

From S2P Require Import Prelude.

(** ** Kinds *)

Inductive kind :=
  | N_SIMPLECMD | N_PIPELINE | N_AND | N_OR | N_NOT | N_TIME | N_LIST
  | N_SUBSHELL | N_BRACEGROUP | N_FOR | N_CASE | N_CASENODE | N_IF | N_WHILE | N_UNTIL
  | N_FUNCTION | N_ARG | N_ASSIGN | N_REDIR
  | N_ARGSTR | N_ARGCMD | N_ARGPARAM | N_ARGARITH
  | A_NUM | A_PAREN | A_TERNARY
  | A_OR | A_AND | A_BITOR | A_BITXOR | A_BITAND | A_EQ | A_NE | A_LT | A_GT | A_GE | A_LE
  | A_SHL | A_SHR | A_ADD | A_SUB | A_MUL | A_DIV | A_MOD | A_EXP
  | A_UNARYMINUS | A_UNARYPLUS | A_NOT | A_BNOT | A_PREDECR | A_PREINCR | A_POSTDECR | A_POSTINCR
  | A_VASSIGN | A_VADD | A_VSUB | A_VMUL | A_VDIV | A_VMOD | A_VSHL | A_VSHR
  | A_VBITAND | A_VBITXOR | A_VBITOR.

#[export] Instance kind_eq_dec : EqDecision kind.
Proof. solve_decision. Defined.

Definition all_kinds : list kind :=
  [ N_SIMPLECMD; N_PIPELINE; N_AND; N_OR; N_NOT; N_TIME; N_LIST;
    N_SUBSHELL; N_BRACEGROUP; N_FOR; N_CASE; N_CASENODE; N_IF; N_WHILE; N_UNTIL;
    N_FUNCTION; N_ARG; N_ASSIGN; N_REDIR;
    N_ARGSTR; N_ARGCMD; N_ARGPARAM; N_ARGARITH;
    A_NUM; A_PAREN; A_TERNARY;
    A_OR; A_AND; A_BITOR; A_BITXOR; A_BITAND; A_EQ; A_NE; A_LT; A_GT; A_GE; A_LE;
    A_SHL; A_SHR; A_ADD; A_SUB; A_MUL; A_DIV; A_MOD; A_EXP;
    A_UNARYMINUS; A_UNARYPLUS; A_NOT; A_BNOT; A_PREDECR; A_PREINCR; A_POSTDECR; A_POSTINCR;
    A_VASSIGN; A_VADD; A_VSUB; A_VMUL; A_VDIV; A_VMOD; A_VSHL; A_VSHR;
    A_VBITAND; A_VBITXOR; A_VBITOR ].

Definition kind_eqb (a c : kind) : bool := bool_decide (a = c).

(** The value of the enumerator: its rank. *)
Fixpoint rank (k : kind) (l : list kind) (i : nat) : nat :=
  match l with
  | [] => i
  | x :: l' => if kind_eqb x k then i else rank k l' (S i)
  end.

Definition kind_num (k : kind) : nat := rank k all_kinds 0.

Definition kind_in (k : kind) (l : list kind) : bool := existsb (kind_eqb k) l.

(** ** Flags of words and parameters *)

Definition S_TABLE : Z := 0x0f.
Definition S_UNQUOTED : Z := 0x00.
Definition S_DQUOTED : Z := 0x01.
Definition S_SQUOTED : Z := 0x02.
Definition S_SPECIAL : Z := 0xf0.
Definition S_ARGC : Z := 0x10.
Definition S_ARGV : Z := 0x20.
Definition S_ARGVS : Z := 0x30.
Definition S_EXITCODE : Z := 0x40.
Definition S_FLAGS : Z := 0x50.
Definition S_BGEXCODE : Z := 0x60.
Definition S_ARG : Z := 0x70.
Definition S_PID : Z := 0x80.
Definition S_VAR : Z := 0x0f00.
Definition S_DEFAULT : Z := 0x0000.
Definition S_ASGNDEF : Z := 0x0100.
Definition S_ERRNULL : Z := 0x0200.
Definition S_ALTERNAT : Z := 0x0300.
Definition S_RSSFX : Z := 0x0400.
Definition S_RLSFX : Z := 0x0500.
Definition S_RSPFX : Z := 0x0600.
Definition S_RLPFX : Z := 0x0700.
Definition S_RANGE : Z := 0x0800.
Definition S_STRLEN : Z := 0x1000.
Definition S_NULL : Z := 0x2000.
Definition S_NOSPLIT : Z := 0x4000.
Definition S_ESCAPED : Z := 0x8000.
Definition S_GLOB : Z := 0x10000.
Definition S_ARITH : Z := 0x20000.
Definition S_BQUOTE : Z := 0x40000.
Definition S_HEREDOC : Z := 0x80000.
Definition S_QUOTEDEMPTY : Z := 0x100000.

(** ** Nodes *)

Inductive node :=
  | ncmd (bgnd : bool) (rdir vars args : list node)
  | npipe (bgnd : bool) (cmds : list node)
  | nandor (id : kind) (bgnd : bool) (left right : node)      (* N_AND N_OR *)
  | nnot (bgnd : bool) (pipeline : node)
  | ntime (bgnd posix : bool) (pipeline : node)
  | ngrp (id : kind) (bgnd : bool) (rdir cmds : list node)   (* N_LIST N_SUBSHELL N_BRACEGROUP *)
  | nfor (bgnd has_in : bool) (rdir cmds args : list node) (varn : bytes)
  | ncase (bgnd : bool) (rdir cases : list node) (word : option node)
  | ncasenode (pats cmds : list node)
  | nif (bgnd : bool) (rdir cmd0 cmd1 test : list node)
  | nloop (id : kind) (bgnd : bool) (rdir cmds test : list node)  (* N_WHILE N_UNTIL *)
  | nfunc (name : bytes) (body : option node)
  | narg (id : kind) (flag : Z) (parts : list node)          (* N_ARG N_ASSIGN *)
  | nredir (flag : Z) (word delim : list node) (fdes : Z)          (* bare chains *)
  | nargstr (flag : Z) (s : bytes)
  | nargparam (flag : Z) (name : bytes) (word : option node) (numb : Z)
  | nargcmd (flag : Z) (cmds : list node)
  | nargarith (flag : Z) (tree : option node)
  | narithnum (num base : Z)
  | narithparen (tree : list node)
  | narithternary (cond ontrue onfalse : node)
  | narithbinary (id : kind) (left : node) (right : option node)
  | narithunary (id : kind) (arg : option node).

Definition node_id (n : node) : kind :=
  match n with
  | ncmd _ _ _ _ => N_SIMPLECMD
  | npipe _ _ => N_PIPELINE
  | nandor id _ _ _ => id
  | nnot _ _ => N_NOT
  | ntime _ _ _ => N_TIME
  | ngrp id _ _ _ => id
  | nfor _ _ _ _ _ _ => N_FOR
  | ncase _ _ _ _ => N_CASE
  | ncasenode _ _ => N_CASENODE
  | nif _ _ _ _ _ => N_IF
  | nloop id _ _ _ _ => id
  | nfunc _ _ => N_FUNCTION
  | narg id _ _ => id
  | nredir _ _ _ _ => N_REDIR
  | nargstr _ _ => N_ARGSTR
  | nargparam _ _ _ _ => N_ARGPARAM
  | nargcmd _ _ => N_ARGCMD
  | nargarith _ _ => N_ARGARITH
  | narithnum _ _ => A_NUM
  | narithparen _ => A_PAREN
  | narithternary _ _ _ => A_TERNARY
  | narithbinary id _ _ => id
  | narithunary id _ => id
  end.

Definition is_id (n : node) (k : kind) : bool := kind_eqb (node_id n) k.

(** The [bgnd] bit, at the same place in every statement structure. *)
Definition node_bgnd (n : node) : bool :=
  match n with
  | ncmd g _ _ _ | npipe g _ | nandor _ g _ _ | nnot g _ | ntime g _ _ | ngrp _ g _ _
  | nfor g _ _ _ _ _ | ncase g _ _ _ | nif g _ _ _ _ | nloop _ g _ _ _ => g
  | _ => false
  end.

Definition tree_isbgnd (n : node) : bool :=
  if kind_in (node_id n)
       [N_SIMPLECMD; N_PIPELINE; N_AND; N_OR; N_NOT; N_TIME; N_SUBSHELL; N_BRACEGROUP;
        N_FOR; N_CASE; N_IF; N_WHILE; N_UNTIL]
  then node_bgnd n else false.

Definition tree_count (l : list node) : nat := List.length l.

(** ** Allocation sizes *)

Inductive struct_tag :=
  | T_ncmd | T_npipe | T_nandor | T_nnot | T_ntime | T_nlist | T_ngrp | T_nfor | T_ncase
  | T_ncasenode | T_nif | T_nloop | T_nfunc | T_narg | T_nredir | T_nargstr | T_nargcmd
  | T_nargparam | T_nargarith | T_narithnum | T_narithternary | T_narithbinary | T_narithunary.

#[export] Instance struct_tag_eq_dec : EqDecision struct_tag.
Proof. solve_decision. Defined.

Definition tree_nodesizes : list struct_tag :=
  [ T_ncmd; T_npipe; T_nandor; T_nandor; T_nnot; T_ntime; T_nlist; T_ngrp; T_ngrp; T_nfor;
    T_ncase; T_ncasenode; T_nif; T_nloop; T_nloop; T_nfunc; T_narg; T_narg; T_nredir;
    T_nargstr; T_nargcmd; T_nargparam; T_nargarith; T_narithnum; T_nargarith; T_narithternary;
    T_narithbinary; T_narithbinary; T_narithbinary; T_narithbinary; T_narithbinary;
    T_narithbinary; T_narithbinary; T_narithbinary; T_narithbinary; T_narithbinary;
    T_narithbinary; T_narithbinary; T_narithbinary; T_narithbinary; T_narithbinary;
    T_narithbinary; T_narithbinary; T_narithbinary; T_narithbinary;
    T_narithunary; T_narithunary; T_narithunary; T_narithunary; T_narithunary;
    T_narithunary; T_narithunary; T_narithunary;
    T_narithbinary; T_narithbinary; T_narithbinary; T_narithbinary; T_narithbinary;
    T_narithbinary; T_narithbinary; T_narithbinary; T_narithbinary; T_narithbinary;
    T_narithbinary ].

(** ** Deep copy

    [tree_copy] walks a chain and copies every node; [None] is the NULL chain. *)
Definition copy_opt (f : node -> node) (o : option node) : option node :=
  match o with Some n => Some (f n) | None => None end.

Fixpoint tree_copy (n : node) : node :=
  match n with
  | ncmd g rdir vars args =>
      ncmd g (List.map tree_copy rdir) (List.map tree_copy vars) (List.map tree_copy args)
  | npipe g cmds => npipe g (List.map tree_copy cmds)
  | nandor id g l r => nandor id g (tree_copy l) (tree_copy r)
  | nnot g p => nnot g (tree_copy p)
  | ntime g px p => ntime g px (tree_copy p)
  | ngrp id g rdir cmds =>
      ngrp id g (if kind_eqb id N_LIST then rdir else List.map tree_copy rdir)
        (List.map tree_copy cmds)
  | nfor g h rdir cmds args v =>
      nfor g h (List.map tree_copy rdir) (List.map tree_copy cmds) (List.map tree_copy args) v
  | ncase g rdir cases word =>
      ncase g (List.map tree_copy rdir) (List.map tree_copy cases) (copy_opt tree_copy word)
  | ncasenode pats cmds => ncasenode (List.map tree_copy pats) (List.map tree_copy cmds)
  | nif g rdir c0 c1 test =>
      nif g (List.map tree_copy rdir) (List.map tree_copy c0) (List.map tree_copy c1)
        (List.map tree_copy test)
  | nloop id g rdir cmds test =>
      nloop id g (List.map tree_copy rdir) (List.map tree_copy cmds) (List.map tree_copy test)
  | nfunc name body => nfunc name (copy_opt tree_copy body)
  | narg id f parts => narg id f (List.map tree_copy parts)
  | nredir f word delim fd => nredir f (List.map tree_copy word) (List.map tree_copy delim) fd
  | nargstr f s => nargstr f s
  | nargparam f name word numb => nargparam f name (copy_opt tree_copy word) numb
  | nargcmd f cmds => nargcmd f (List.map tree_copy cmds)
  | nargarith f t => nargarith f (copy_opt tree_copy t)
  | narithnum v base => narithnum v base
  | narithparen t => narithparen (List.map tree_copy t)
  | narithternary c t f => narithternary (tree_copy c) (tree_copy t) (tree_copy f)
  | narithbinary id l r => narithbinary id (tree_copy l) (copy_opt tree_copy r)
  | narithunary id a => narithunary id (copy_opt tree_copy a)
  end.

(** ** Induction over trees with their child chains *)

Definition opt_all (P : node -> Prop) (o : option node) : Prop :=
  match o with Some n => P n | None => True end.

Section NodeInd.
Context (P : node -> Prop).
Context (Hcmd : forall g r v a, Forall P r -> Forall P v -> Forall P a -> P (ncmd g r v a)).
Context (Hpipe : forall g c, Forall P c -> P (npipe g c)).
Context (Handor : forall id g l r, P l -> P r -> P (nandor id g l r)).
Context (Hnot : forall g p, P p -> P (nnot g p)).
Context (Htime : forall g x p, P p -> P (ntime g x p)).
Context (Hgrp : forall id g r c, Forall P r -> Forall P c -> P (ngrp id g r c)).
Context (Hfor : forall g h r c a v, Forall P r -> Forall P c -> Forall P a -> P (nfor g h r c a v)).
Context (Hcase : forall g r c w, Forall P r -> Forall P c -> opt_all P w -> P (ncase g r c w)).
Context (Hcasenode : forall p c, Forall P p -> Forall P c -> P (ncasenode p c)).
Context (Hif : forall g r c0 c1 t, Forall P r -> Forall P c0 -> Forall P c1 -> Forall P t ->
  P (nif g r c0 c1 t)).
Context (Hloop : forall id g r c t, Forall P r -> Forall P c -> Forall P t -> P (nloop id g r c t)).
Context (Hfunc : forall n body, opt_all P body -> P (nfunc n body)).
Context (Harg : forall id f l, Forall P l -> P (narg id f l)).
Context (Hredir : forall f w d fd, Forall P w -> Forall P d -> P (nredir f w d fd)).
Context (Hargstr : forall f s, P (nargstr f s)).
Context (Hargparam : forall f n w k, opt_all P w -> P (nargparam f n w k)).
Context (Hargcmd : forall f c, Forall P c -> P (nargcmd f c)).
Context (Hargarith : forall f t, opt_all P t -> P (nargarith f t)).
Context (Hnum : forall v base, P (narithnum v base)).
Context (Hparen : forall t, Forall P t -> P (narithparen t)).
Context (Htern : forall c t f, P c -> P t -> P f -> P (narithternary c t f)).
Context (Hbin : forall id l r, P l -> opt_all P r -> P (narithbinary id l r)).
Context (Hun : forall id a, opt_all P a -> P (narithunary id a)).

Fixpoint node_ind' (n : node) : P n :=
  let fix chain (l : list node) : Forall P l :=
    match l with
    | [] => List.Forall_nil P
    | x :: l' => List.Forall_cons P x l' (node_ind' x) (chain l')
    end in
  let opt (o : option node) : opt_all P o :=
    match o with Some x => node_ind' x | None => I end in
  match n with
  | ncmd g r v a => Hcmd g r v a (chain r) (chain v) (chain a)
  | npipe g c => Hpipe g c (chain c)
  | nandor id g l r => Handor id g l r (node_ind' l) (node_ind' r)
  | nnot g p => Hnot g p (node_ind' p)
  | ntime g x p => Htime g x p (node_ind' p)
  | ngrp id g r c => Hgrp id g r c (chain r) (chain c)
  | nfor g h r c a v => Hfor g h r c a v (chain r) (chain c) (chain a)
  | ncase g r c w => Hcase g r c w (chain r) (chain c) (opt w)
  | ncasenode p c => Hcasenode p c (chain p) (chain c)
  | nif g r c0 c1 t => Hif g r c0 c1 t (chain r) (chain c0) (chain c1) (chain t)
  | nloop id g r c t => Hloop id g r c t (chain r) (chain c) (chain t)
  | nfunc name body => Hfunc name body (opt body)
  | narg id f l => Harg id f l (chain l)
  | nredir f w d fd => Hredir f w d fd (chain w) (chain d)
  | nargstr f s => Hargstr f s
  | nargparam f name w k => Hargparam f name w k (opt w)
  | nargcmd f c => Hargcmd f c (chain c)
  | nargarith f t => Hargarith f t (opt t)
  | narithnum v base => Hnum v base
  | narithparen t => Hparen t (chain t)
  | narithternary c t f => Htern c t f (node_ind' c) (node_ind' t) (node_ind' f)
  | narithbinary id l r => Hbin id l r (node_ind' l) (opt r)
  | narithunary id a => Hun id a (opt a)
  end.
End NodeInd.

Lemma map_id_Forall {A} (f : A -> A) l : Forall (fun x => f x = x) l -> List.map f l = l.
Proof. induction 1 as [|x l E _ IH]; simpl; [done|]. by rewrite E, IH. Qed.

Lemma copy_opt_id f o : opt_all (fun n => f n = n) o -> copy_opt f o = o.
Proof. destruct o; simpl; [by intros ->|done]. Qed.

#[export] Hint Resolve map_id_Forall copy_opt_id : core.

(** ** Properties *)

(** The copy a function definition keeps is the tree that was parsed:
    [tree_copy] reproduces every node, child, name, flag and redirection. *)
Theorem tree_copy_faithful (n : node) : tree_copy n = n.
Proof.
  induction n using node_ind'; simpl; f_equal; auto.
  destruct (kind_eqb id N_LIST); auto.
Qed.

(** The structure each node constructor stands for. *)
Definition node_struct (n : node) : struct_tag :=
  match n with
  | ncmd _ _ _ _ => T_ncmd | npipe _ _ => T_npipe | nandor _ _ _ _ => T_nandor
  | nnot _ _ => T_nnot | ntime _ _ _ => T_ntime
  | ngrp id _ _ _ => if kind_eqb id N_LIST then T_nlist else T_ngrp
  | nfor _ _ _ _ _ _ => T_nfor | ncase _ _ _ _ => T_ncase | ncasenode _ _ => T_ncasenode
  | nif _ _ _ _ _ => T_nif | nloop _ _ _ _ _ => T_nloop | nfunc _ _ => T_nfunc
  | narg _ _ _ => T_narg | nredir _ _ _ _ => T_nredir | nargstr _ _ => T_nargstr
  | nargparam _ _ _ _ => T_nargparam | nargcmd _ _ => T_nargcmd | nargarith _ _ => T_nargarith
  | narithnum _ _ => T_narithnum | narithparen _ => T_nargarith
  | narithternary _ _ _ => T_narithternary | narithbinary _ _ _ => T_narithbinary
  | narithunary _ _ => T_narithunary
  end.

Definition binary_kinds : list kind :=
  [ A_OR; A_AND; A_BITOR; A_BITXOR; A_BITAND; A_EQ; A_NE; A_LT; A_GT; A_GE; A_LE;
    A_SHL; A_SHR; A_ADD; A_SUB; A_MUL; A_DIV; A_MOD; A_EXP ].
Definition unary_kinds : list kind :=
  [ A_UNARYMINUS; A_UNARYPLUS; A_NOT; A_BNOT; A_PREDECR; A_PREINCR; A_POSTDECR; A_POSTINCR ].
Definition assign_kinds : list kind :=
  [ A_VASSIGN; A_VADD; A_VSUB; A_VMUL; A_VDIV; A_VMOD; A_VSHL; A_VSHR;
    A_VBITAND; A_VBITXOR; A_VBITOR ].

(** A shared structure carries only the kinds it is used for. *)
Definition id_ok (n : node) : Prop :=
  match n with
  | nandor id _ _ _ => id ∈ [N_AND; N_OR]
  | ngrp id _ _ _ => id ∈ [N_LIST; N_SUBSHELL; N_BRACEGROUP]
  | nloop id _ _ _ _ => id ∈ [N_WHILE; N_UNTIL]
  | narg id _ _ => id ∈ [N_ARG; N_ASSIGN]
  | narithbinary id _ _ => id ∈ binary_kinds ++ assign_kinds
  | narithunary id _ => id ∈ unary_kinds
  | _ => True
  end.

(** [tree_newnode] indexes [tree_nodesizes] by the kind; for every node
    the size found there is the size of the structure the node is used as. *)
Theorem tree_nodesizes_ok (n : node) :
  id_ok n -> tree_nodesizes !! kind_num (node_id n) = Some (node_struct n).
Proof.
  destruct n; simpl; try (intros _; reflexivity);
    rewrite ?list_elem_of_In; simpl; intros Hid;
    repeat (destruct Hid as [<-|Hid]; [reflexivity|]); destruct Hid.
Qed.

Lemma tree_nodesizes_ok_witness :
  id_ok (narithunary A_POSTINCR None) /\
  tree_nodesizes !! kind_num A_POSTINCR = Some T_narithunary.
Proof.
  assert (H : id_ok (narithunary A_POSTINCR None)) by (apply list_elem_of_In; simpl; tauto).
  split; [exact H|]. exact (tree_nodesizes_ok (narithunary A_POSTINCR None) H).
Defined.
