(* ===== verification/TreeTypes.v ===== *)
(** * Well-formed trees

    [union node] lets any node stand anywhere; the grammar does not.  [wf s n]
    decides that [n] may stand where a node of the sort [s] is expected, all the
    way down.  The sorts of statements are the levels of the grammar, from the
    commands of parse_command to the items of a compound list. *)

From S2P Require Import Prelude Tree.

Inductive sort :=
  | Cmd          (* parse_command *)
  | Pipe         (* parse_pipeline *)
  | AndOr        (* parse_and_or *)
  | Item         (* parse_list: one statement, or the N_LIST of several *)
  | Case         (* one "pattern) list" of a case *)
  | Word         (* N_ARG over parts *)
  | Loose        (* N_ARG over parts or over one stray redirection *)
  | Part         (* a piece of a word *)
  | Redir
  | Stray        (* a redirection whose operand may be one again *)
  | Arith.

#[export] Instance sort_eq_dec : EqDecision sort.
Proof. solve_decision. Defined.

Definition sort_in (s : sort) (l : list sort) : bool := existsb (fun x => bool_decide (x = s)) l.

Definition opt_wf (f : node -> bool) (o : option node) : bool :=
  match o with Some n => f n | None => true end.

Definition nonempty {A} (l : list A) : bool := match l with [] => false | _ => true end.

(** A redirection's descriptor is a number below FD_MAX. *)
Definition fd_ok (fd : Z) : bool := (0 <=? fd) && (fd <? 1024).

Fixpoint wf (s : sort) (n : node) {struct n} : bool :=
  match n with
  | ncmd _ rdir vars args =>
      sort_in s [Cmd; Pipe; AndOr; Item] && forallb (wf Redir) rdir && forallb (wf Word) vars && forallb (wf Word) args
  | npipe _ cmds => sort_in s [Pipe; AndOr; Item] && (1 <? List.length cmds)%nat && forallb (wf Cmd) cmds
  | nandor id _ l r => sort_in s [AndOr; Item] && kind_in id [N_AND; N_OR] && wf AndOr l && wf Pipe r
  | nnot _ p | ntime _ _ p => sort_in s [Pipe; AndOr; Item] && wf Pipe p
  | ngrp id _ rdir cmds =>
      if kind_eqb id N_LIST
      then sort_in s [Item] && negb (nonempty rdir) && (1 <? List.length cmds)%nat && forallb (wf AndOr) cmds
      else sort_in s [Cmd; Pipe; AndOr; Item] && kind_in id [N_SUBSHELL; N_BRACEGROUP] && nonempty cmds &&
        forallb (wf Redir) rdir && forallb (wf Item) cmds
  | nfor _ _ rdir cmds args _ =>
      sort_in s [Cmd; Pipe; AndOr; Item] && forallb (wf Redir) rdir && forallb (wf Item) cmds && forallb (wf Word) args
  | ncase _ rdir cases word =>
      sort_in s [Cmd; Pipe; AndOr; Item] && forallb (wf Redir) rdir && forallb (wf Case) cases && opt_wf (wf Word) word
  | ncasenode pats cmds => sort_in s [Case] && forallb (wf Loose) pats && forallb (wf Item) cmds
  | nif _ rdir cmd0 cmd1 test =>
      sort_in s [Cmd; Pipe; AndOr; Item] && forallb (wf Redir) rdir && forallb (wf Item) cmd0 &&
        forallb (wf Item) cmd1 && forallb (wf Item) test
  | nloop id _ rdir cmds test =>
      sort_in s [Cmd; Pipe; AndOr; Item] && kind_in id [N_WHILE; N_UNTIL] && forallb (wf Redir) rdir &&
        forallb (wf Item) cmds && forallb (wf Item) test
  | nfunc _ body =>
      sort_in s [Cmd; Pipe; AndOr; Item] && match body with Some n => wf Cmd n | None => false end
  | narg id _ parts =>
      kind_eqb id N_ARG &&
      match s with
      | Word => forallb (wf Part) parts
      | Loose => forallb (wf Part) parts || ((List.length parts =? 1)%nat && forallb (wf Stray) parts)
      | _ => false
      end
  | nredir _ word delim fd =>
      negb (nonempty delim) && fd_ok fd &&
      match s with
      | Redir => forallb (wf Part) word
      | Stray => forallb (wf Part) word || ((List.length word =? 1)%nat && forallb (wf Stray) word)
      | _ => false
      end
  | nargstr _ _ => sort_in s [Part]
  | nargparam _ _ word _ => sort_in s [Part; Arith] && opt_wf (wf Loose) word
  | nargcmd _ cmds => sort_in s [Part; Arith] && nonempty cmds && forallb (wf Item) cmds
  | nargarith _ tree => sort_in s [Part; Arith] && match tree with Some n => wf Arith n | None => false end
  | narithnum _ _ => sort_in s [Arith]
  | narithparen tree => sort_in s [Arith] && nonempty tree && forallb (wf Arith) tree
  | narithternary c t f => sort_in s [Arith] && wf Arith c && wf Arith t && wf Arith f
  | narithbinary id l r =>
      sort_in s [Arith] && kind_in id (binary_kinds ++ assign_kinds) && wf Arith l &&
        match r with Some r => wf Arith r | None => kind_in id assign_kinds end &&
        (negb (kind_in id assign_kinds) || match l with nargparam _ _ _ _ => true | _ => false end)
  | narithunary id a => sort_in s [Arith] && kind_in id unary_kinds && opt_wf (wf Arith) a
  end.

(** Words are loose words, a command is a statement of every level. *)

(** Evaluate the tests of sorts. *)
Ltac sorts :=
  repeat match goal with
  | |- context [sort_in ?s ?l] => let x := eval vm_compute in (sort_in s l) in change (sort_in s l) with x
  end;
  cbn [andb].

Lemma wf_loose n : wf Word n -> wf Loose n.
Proof. destruct n; simpl; try done. rewrite !andb_True, orb_True. tauto. Qed.

Definition above (s s' : sort) : bool :=
  match s, s' with
  | Cmd, (Pipe | AndOr | Item) | Pipe, (AndOr | Item) | AndOr, Item => true
  | _, _ => false
  end.

Lemma wf_up s s' n : above s s' -> wf s n -> wf s' n.
Proof.
  destruct s, s'; simpl; intros A; try contradiction; clear A; destruct n; cbn [wf]; sorts;
    try done; by destruct (kind_eqb id N_LIST).
Qed.

Lemma forallb_snoc {A} (f : A -> bool) l x : forallb f l -> f x -> forallb f (l ++ [x]).
Proof. rewrite forallb_app, andb_True. simpl. rewrite andb_true_r. done. Qed.

Lemma forallb_join {A} (f : A -> bool) l l' : forallb f l -> forallb f l' -> forallb f (l ++ l').
Proof. rewrite forallb_app, andb_True. done. Qed.

Lemma forallb_imp {A} (f g : A -> bool) l : (forall x, f x -> g x) -> forallb f l -> forallb g l.
Proof.
  intros H. induction l as [|x l IH]; simpl; [done|]. rewrite !andb_True. intros [? ?]. split; auto.
Qed.

Lemma forallb_last {A} (f : A -> bool) l x : forallb f l -> last l = Some x -> f x.
Proof.
  intros H E. apply last_Some in E as [k ->]. rewrite forallb_app, andb_True in H. destruct H as [_ H].
  simpl in H. by rewrite andb_true_r in H.
Qed.

(** ** The tree of a word being read: its parts, or the redirection they became *)

Definition parts (l : list node) : bool := forallb (wf Part) l.
Definition one_redir (l : list node) : bool := (List.length l =? 1)%nat && forallb (wf Redir) l.
Definition chain (l : list node) : bool := parts l || ((List.length l =? 1)%nat && forallb (wf Stray) l).

Lemma wf_stray n : wf Redir n -> wf Stray n.
Proof.
  destruct n; cbn [wf]; sorts; try done; try (by destruct (kind_eqb id N_LIST)).
  rewrite !andb_True, orb_True. tauto.
Qed.

(** What stands alone, and is no part *)
Lemma single_inv s n : s = Redir \/ s = Stray -> wf s n -> exists fl w fd, n = nredir fl w [] fd /\ fd_ok fd /\
  (if decide (s = Redir) then parts w else chain w).
Proof.
  intros [-> | ->]; destruct n; cbn [wf]; sorts; try done.
  all: try (by destruct (kind_eqb id N_LIST)).
  all: rewrite ?andb_false_r; try done; rewrite !andb_True; destruct delim; simpl; try tauto.
  all: intros [[_ ?] ?]; by eexists _, _, _.
Qed.

Lemma one_redir_inv l : one_redir l -> exists fl w fd, l = [nredir fl w [] fd] /\ fd_ok fd /\ parts w.
Proof.
  unfold one_redir. destruct l as [|n [|]]; [done| |done]. cbn [forallb]. rewrite andb_true_r.
  intros (fl & w & fd & -> & ?)%(single_inv Redir); [|by left]. by eexists _, _, _.
Qed.

Lemma one_redir_intro fl w fd : parts w -> fd_ok fd -> one_redir [nredir fl w [] fd].
Proof. unfold one_redir, parts. simpl. rewrite !andb_True. done. Qed.

Lemma narg_word l : parts l -> wf Word (narg N_ARG 0 l).
Proof. done. Qed.

Lemma narg_loose l : chain l -> wf Loose (narg N_ARG 0 l).
Proof. done. Qed.

Lemma parts_chain l : parts l -> chain l.
Proof. unfold chain. rewrite orb_True. tauto. Qed.

Lemma redir_chain l : one_redir l -> chain l.
Proof.
  unfold chain, one_redir. rewrite orb_True, !andb_True. intros [? ?]. right. split; [done|].
  eapply forallb_imp; [apply wf_stray|done].
Qed.

Lemma stray_intro fl w fd : chain w -> fd_ok fd -> chain [nredir fl w [] fd].
Proof.
  intros Hw Hf. unfold chain. rewrite orb_True. right. cbn [forallb wf negb nonempty].
  rewrite !andb_True. split_and!; [done|done|done|exact Hw|done].
Qed.
