(* ===== verification/VarHash.v ===== *)
(** * Hashes of variable names (src/var/var_lexhash.c, var_rndhash.c, var_valid.c)

    A name is hashed twice: [var_lexhash] packs its first characters so that
    comparing hashes compares names, [var_rndhash] scatters it over the
    buckets.  Both read "NAME" and "NAME=value" alike. *)

From S2P Require Import Prelude Chars.

(** ** Definitions *)

(** VAR_HASH is uint64. *)
Definition VAR_BITS : Z := 64.
Definition VAR_MASK : Z := VAR_BITS - 1.
Definition VAR_HALF : Z := VAR_BITS / 2.
Definition VAR_CHAR : Z := 6.
Definition VAR_CHARS : Z := VAR_BITS / VAR_CHAR.

Fixpoint valid_from (v : bytes) (i : nat) : bool :=
  match v with
  | [] => true
  | c :: v => if c =? ch "=" then true else if parse_isname c i then valid_from v (S i) else false
  end.

Definition var_valid (v : bytes) : bool :=
  if parse_isdigit (chd v) then false else valid_from v 0.

(** The name in front of "=" *)
Fixpoint name_of (v : bytes) : bytes :=
  match v with
  | [] => []
  | c :: v => if c =? ch "=" then [] else c :: name_of v
  end.

(** 0-9 A-Z _ a-z, in this order, on 0 to 62 *)
Definition reduce (c : Z) : Z :=
  if c <? ch "A" then c - ch "0"
  else if c <=? ch "Z" then c - ch "A" + 10
  else if c <? ch "a" then c - ch "_" + 36
  else c - ch "a" + 37.

(** The loop of var_lexhash: at most 11 rounds, [shift] from 58 down to -2 *)
Fixpoint lexhash_loop (rounds : nat) (p : bytes) (shift hash : Z) : Z :=
  match rounds with
  | O => hash
  | S rounds =>
      let value := u64 (1 + u64 (reduce (chd p))) in
      let hash := u64 (hash + (if shift <? 0 then Z.shiftr value (- shift) else u64 (Z.shiftl value shift))) in
      match p with
      | _ :: c :: rest =>
          if c =? ch "=" then hash
          else if -6 <? shift - 6 then lexhash_loop rounds (c :: rest) (shift - 6) hash
          else hash
      | _ => hash
      end
  end.

Definition var_lexhash (v : bytes) : Z :=
  lexhash_loop 11 v (VAR_BITS - 6) (u64 (Z.shiftl (u64 (-10)) (VAR_BITS - 6))).

Definition seeds : list Z :=
  [ 0x2e8b1c8a; 0xa8fa6d8c; 0x20c91d6c; 0x9625e261; 0xbbe5d3ae; 0x0b67aab9; 0xaeabca3b; 0xb0a3595a;
    0x8898bba8; 0xe164242e; 0xf85afdd0; 0x49d7d461; 0xcec21aa0; 0x5c77fd0d; 0xd011e8ec; 0x6bfb5d73 ].
Definition seed (x : Z) : Z := nth (Z.to_nat (Z.land x 0x0f)) seeds 0.

Definition ROR (v c : Z) : Z :=
  if c =? 0 then v else Z.lor (Z.shiftr v c) (u64 (Z.shiftl v (VAR_BITS - c))).
Definition ROL (v c : Z) : Z :=
  if c =? 0 then v else Z.lor (u64 (Z.shiftl v c)) (Z.shiftr v (VAR_BITS - c)).

(** One round of var_rndhash, where [*v] is a signed char; [hash = +(VAR_HASH)a] is an assignment, so what
    the two lines before it computed is lost. *)
Definition rndhash_round (c a b hash : Z) : Z * Z * Z :=
  let a := Z.lxor a (u32 (Z.land (schar c) 0x0f)) in
  let b := Z.lxor b (u32 (Z.shiftr (schar c) 4)) in
  let a := u32 (a - seed b) in
  let b := u32 (b + seed a) in
  let hash := ROL (u64 (hash - b)) VAR_HALF in
  let hash := a in
  let hash := ROR hash (Z.land a VAR_MASK) in
  let a := Z.lxor a (seed b) in
  let b := Z.lxor b (seed a) in
  let hash := ROR (Z.lxor hash a) VAR_HALF in
  let hash := ROL (Z.lxor hash b) (Z.land b VAR_MASK) in
  let b := u32 (b + seed a) in
  let a := u32 (a - seed b) in
  let hash := ROL (u64 (hash - b)) VAR_HALF in
  let hash := a in
  let hash := ROR hash (Z.land a VAR_MASK) in
  let b := Z.lxor b (seed a) in
  let a := Z.lxor a (seed b) in
  let hash := ROR (Z.lxor hash a) VAR_HALF in
  let hash := ROL (Z.lxor hash b) (Z.land b VAR_MASK) in
  (a, b, hash).

Fixpoint rndhash_loop (v : bytes) (a b hash : Z) : Z :=
  match v with
  | [] => hash
  | c :: v =>
      let '(a, b, hash) := rndhash_round c a b hash in
      match v with
      | [] => hash
      | c :: _ => if c =? ch "=" then hash else rndhash_loop v a b hash
      end
  end.

(** Of a name of at least one character: the empty one is read past its end. *)
Definition var_rndhash (v : bytes) : Z := rndhash_loop v 0 0 0.

Definition VARTAB_BUCKETS : Z := 64.
Definition bucket (v : bytes) : nat := Z.to_nat (var_rndhash v mod VARTAB_BUCKETS).

(** ** The order of names *)

(** How the name [m] of a list (chars, which are signed) relates to the wanted name [w] when var_bsearch
    compares them character by character: [m] is ahead, [m] is a longer name,
    [m] is behind by a character, [m] is a shorter one, equal. *)
Inductive order := Before | Longer | After (d : Z) | Shorter (c : Z) | Same.

Fixpoint compare (m w : bytes) : order :=
  match m, w with
  | [], [] => Same
  | [], c :: _ => Shorter c
  | _ :: _, [] => Longer
  | x :: m, y :: w => if x =? y then compare m w else if schar x <? schar y then Before else After (schar x - schar y)
  end.

Definition is_name_char (c : Z) : bool :=
  ((48 <=? c) && (c <=? 57)) || ((65 <=? c) && (c <=? 90)) || (c =? 95) || ((97 <=? c) && (c <=? 122)).

Abbreviation name_chars := (Forall (fun c => is_name_char c = true)).

(** A name as POSIX has it *)
Definition is_varname (s : bytes) : Prop :=
  s <> [] /\ c_isdigit (chd s) = false /\ name_chars s.

#[export] Instance is_varname_dec s : Decision (is_varname s).
Proof. unfold is_varname. apply _. Defined.

(** ** The lexical hash as a number *)

Definition code (c : Z) : Z := 1 + reduce c.

(** What a name adds to the hash from round [12 - r] on *)
Fixpoint lexval (r : nat) (p : bytes) : Z :=
  match r, p with
  | S r', c :: p => (if (r =? 1)%nat then code c / 4 else code c * 2 ^ (6 * Z.of_nat r - 8)) + lexval r' p
  | _, _ => 0
  end.

Lemma is_name_char_cases c :
  is_name_char c = true -> 48 <= c <= 57 \/ 65 <= c <= 90 \/ c = 95 \/ 97 <= c <= 122.
Proof. unfold is_name_char. rewrite !orb_true_iff, !andb_true_iff, !Z.leb_le, Z.eqb_eq. lia. Qed.

Lemma schar_name c : is_name_char c = true -> schar c = c.
Proof. intros N. apply is_name_char_cases in N. unfold schar. destruct (Z.ltb_spec c 128); lia. Qed.

Lemma reduce_cases c : is_name_char c = true ->
  (48 <= c <= 57 /\ reduce c = c - 48) \/ (65 <= c <= 90 /\ reduce c = c - 55) \/
  (c = 95 /\ reduce c = 36) \/ (97 <= c <= 122 /\ reduce c = c - 60).
Proof.
  intros N. apply is_name_char_cases in N. unfold reduce. change (ch "A") with 65. change (ch "0") with 48.
  change (ch "Z") with 90. change (ch "a") with 97. change (ch "_") with 95.
  destruct (Z.ltb_spec c 65); [lia|]. destruct (Z.leb_spec c 90); [lia|]. destruct (Z.ltb_spec c 97); lia.
Qed.

Lemma code_range c : is_name_char c = true -> 1 <= code c <= 63.
Proof. intros N. pose proof (reduce_cases c N). unfold code. lia. Qed.

Lemma code_lt x y : is_name_char x = true -> is_name_char y = true -> x < y -> code x < code y.
Proof. intros X Y. pose proof (reduce_cases x X). pose proof (reduce_cases y Y). unfold code. lia. Qed.

Lemma code_first c : is_name_char c = true -> c_isdigit c = false -> 11 <= code c.
Proof.
  intros N D. pose proof (reduce_cases c N). unfold code.
  assert (~ (48 <= c <= 57)) by (rewrite <- c_isdigit_spec; congruence). lia.
Qed.

(** The weight of round [r] *)
Lemma weight_pos r : (2 <= r)%nat -> 0 < 2 ^ (6 * Z.of_nat r - 8).
Proof. intros. apply Z.pow_pos_nonneg; lia. Qed.

Lemma weight_step r : (2 <= r)%nat -> 2 ^ (6 * Z.of_nat r - 2) = 64 * 2 ^ (6 * Z.of_nat r - 8).
Proof.
  intros. replace (6 * Z.of_nat r - 2) with (6 + (6 * Z.of_nat r - 8)) by lia.
  rewrite Z.pow_add_r by lia. reflexivity.
Qed.

Lemma lexval_range r p : (1 <= r)%nat -> name_chars p -> 0 <= lexval r p < 2 ^ (6 * Z.of_nat r - 2).
Proof.
  intros R N. revert r R. induction N as [|c p C _ IH]; intros r R.
  - destruct r; [lia|]. cbn [lexval]. pose proof (Z.pow_pos_nonneg 2 (6 * Z.of_nat (S r) - 2)). lia.
  - destruct r as [|r]; [lia|]. pose proof (code_range c C). cbn [lexval].
    destruct (Nat.eqb_spec (S r) 1) as [E|E].
    + injection E as ->. replace (lexval 0 p) with 0 by (now destruct p). change (2 ^ (6 * Z.of_nat 1 - 2)) with 16.
      pose proof (Z.div_le_mono (code c) 63 4). pose proof (Z.div_pos (code c) 4). change (63 / 4) with 15 in *. lia.
    + specialize (IH r ltac:(lia)). rewrite (weight_step (S r)) by lia.
      replace (6 * Z.of_nat r - 2) with (6 * Z.of_nat (S r) - 8) in IH by lia.
      pose proof (weight_pos (S r) ltac:(lia)). nia.
Qed.

(** Two names whose first different characters are [x] and [y] *)
Lemma lexval_head r x y p q :
  name_chars (x :: p) -> name_chars (y :: q) -> x < y -> lexval r (x :: p) <= lexval r (y :: q).
Proof.
  intros P Q L. apply Forall_cons_1 in P as [X P], Q as [Y Q]. destruct r as [|r]; [reflexivity|].
  pose proof (code_lt x y X Y L). cbn [lexval]. destruct (Nat.eqb_spec (S r) 1) as [E|E].
  - injection E as ->. replace (lexval 0 p) with 0 by (now destruct p). replace (lexval 0 q) with 0 by (now destruct q).
    pose proof (Z.div_le_mono (code x) (code y) 4). lia.
  - pose proof (lexval_range r p ltac:(lia) P). pose proof (lexval_range r q ltac:(lia) Q).
    replace (6 * Z.of_nat r - 2) with (6 * Z.of_nat (S r) - 8) in * by lia. nia.
Qed.

Lemma lexval_cons_le r c p q : lexval (pred r) p <= lexval (pred r) q -> lexval r (c :: p) <= lexval r (c :: q).
Proof. destruct r; cbn [lexval pred]; lia. Qed.

(** Comparing hashes compares names. *)
Lemma lexval_compare r m w :
  name_chars m -> name_chars w ->
  match compare m w with
  | Before | Shorter _ => lexval r m <= lexval r w
  | Longer | After _ => lexval r w <= lexval r m
  | Same => m = w
  end.
Proof.
  intros M. revert r w. induction M as [|x m X M IH]; intros r w Wn.
  - destruct w as [|y w]; cbn [compare]; [reflexivity|]. destruct r; [reflexivity|].
    pose proof (lexval_range (S r) (y :: w) ltac:(lia) Wn). cbn [lexval] in *. lia.
  - destruct w as [|y w]; cbn [compare].
    + destruct r; [reflexivity|]. pose proof (lexval_range (S r) (x :: m) ltac:(lia) ltac:(now constructor)).
      cbn [lexval] in *. lia.
    + apply Forall_cons_1 in Wn as [Y Wn]. destruct (Z.eqb_spec x y) as [->|Ne].
      * specialize (IH (pred r) w Wn). destruct (compare m w); try (now apply lexval_cons_le). now subst.
      * rewrite (schar_name x X), (schar_name y Y).
        destruct (Z.ltb_spec x y); apply lexval_head; try (now constructor); lia.
Qed.

(** Of short names, equal hashes are equal names. *)
Lemma lexval_inj r m w :
  name_chars m -> name_chars w ->
  (S (List.length w) < r \/ (List.length w < r /\ List.length m < r))%nat ->
  lexval r m = lexval r w -> m = w.
Proof.
  intros M. revert r w. induction M as [|x m X M IH]; intros r w Wn Len E.
  - destruct w as [|y w]; [reflexivity|]. destruct r as [|r]; [cbn in Len; lia|].
    apply Forall_cons_1 in Wn as [Y Wn]. cbn [lexval List.length] in *. pose proof (code_range y Y).
    destruct (Nat.eqb_spec (S r) 1); [lia|]. pose proof (lexval_range r w ltac:(lia) Wn).
    pose proof (weight_pos (S r) ltac:(lia)). nia.
  - destruct r as [|r]; [cbn in Len; lia|]. pose proof (code_range x X). cbn [lexval] in E.
    destruct w as [|y w]; cbn [List.length] in Len.
    + destruct (Nat.eqb_spec (S r) 1); [lia|]. pose proof (lexval_range r m ltac:(lia) M).
      pose proof (weight_pos (S r) ltac:(lia)). nia.
    + apply Forall_cons_1 in Wn as [Y Wn]. cbn [lexval] in E. destruct (Nat.eqb_spec (S r) 1) as [R|R]; [lia|].
      pose proof (lexval_range r m ltac:(lia) M). pose proof (lexval_range r w ltac:(lia) Wn).
      pose proof (code_range y Y). replace (6 * Z.of_nat r - 2) with (6 * Z.of_nat (S r) - 8) in * by lia.
      assert (code x = code y) by nia.
      assert (x = y).
      { destruct (Z.lt_trichotomy x y) as [L|[L|L]]; [|exact L|].
        - pose proof (code_lt x y X Y L). lia.
        - pose proof (code_lt y x Y X L). lia. }
      subst y. f_equal. apply (IH r); [exact Wn|lia|lia].
Qed.

(** The loop computes that number. *)
Lemma lexhash_loop_val r p hash :
  (1 <= r)%nat -> p <> [] -> name_chars p -> 0 <= hash -> hash + lexval r p < 2 ^ 64 -> (r <= 11)%nat ->
  lexhash_loop r p (6 * Z.of_nat r - 8) hash = hash + lexval r p.
Proof.
  revert p hash. induction r as [|r IH]; intros p hash R Ne N H0 H1 R11; [lia|].
  destruct p as [|c p]; [easy|]. apply Forall_cons_1 in N as [C N]. pose proof (code_range c C) as Cr.
  cbn [lexhash_loop lexval chd cnth nth] in *.
  assert (V : u64 (1 + u64 (reduce c)) = code c).
  { unfold code in *. rewrite (u64_small (reduce c)) by (unfold in_u64; lia).
    apply u64_small. unfold in_u64. lia. }
  unfold chd, cnth. cbn [nth]. rewrite V.
  assert (Rng : 0 <= lexval r p).
  { destruct r; [now destruct p|]. apply (lexval_range (S r) p); [lia|exact N]. }
  set (d := if (S r =? 1)%nat then code c / 4 else code c * 2 ^ (6 * Z.of_nat (S r) - 8)) in *.
  assert (D : (if 6 * Z.of_nat (S r) - 8 <? 0 then Z.shiftr (code c) (- (6 * Z.of_nat (S r) - 8))
      else u64 (Z.shiftl (code c) (6 * Z.of_nat (S r) - 8))) = d).
  { unfold d. destruct (Nat.eqb_spec (S r) 1) as [E|E].
    - injection E as ->. cbn [Z.of_nat]. rewrite Z.shiftr_div_pow2 by (cbn; lia). reflexivity.
    - destruct (Z.ltb_spec (6 * Z.of_nat (S r) - 8) 0); [lia|]. rewrite Z.shiftl_mul_pow2 by lia.
      apply u64_small. unfold in_u64. pose proof (Z.pow_le_mono_r 2 (6 * Z.of_nat (S r) - 8) 58 ltac:(lia) ltac:(lia)).
      change (2 ^ 58) with 288230376151711744 in *. pose proof (weight_pos (S r) ltac:(lia)). nia. }
  rewrite D. assert (Dp : 0 <= d).
  { unfold d. destruct (Nat.eqb_spec (S r) 1); [apply Z.div_pos; lia|]. pose proof (weight_pos (S r) ltac:(lia)). nia. }
  rewrite u64_small by (unfold in_u64; lia).
  destruct p as [|c' p].
  { destruct r; cbn [lexval]; lia. }
  apply Forall_cons_1 in N as [C' N].
  assert ((c' =? ch "=") = false) as ->.
  { apply Z.eqb_neq. apply is_name_char_cases in C'. change (ch "=") with 61. lia. }
  destruct (Z.ltb_spec (-6) (6 * Z.of_nat (S r) - 8 - 6)) as [L|L].
  - replace (6 * Z.of_nat (S r) - 8 - 6) with (6 * Z.of_nat r - 8) by lia.
    rewrite IH; [lia|lia|easy|now constructor|lia|lia|lia].
  - destruct r as [|r]; [cbn [lexval]; lia|lia].
Qed.

Lemma var_lexhash_val s : is_varname s -> var_lexhash s = lexval 11 s - 10 * 2 ^ 58.
Proof.
  intros (Ne & Dg & N). unfold var_lexhash. destruct s as [|c s]; [easy|].
  apply Forall_cons_1 in N as [C N]. cbn [chd cnth nth] in Dg. unfold chd, cnth in Dg. cbn [nth] in Dg.
  pose proof (code_range c C) as Cr. pose proof (code_first c C Dg) as C11.
  pose proof (lexval_range 10 s ltac:(lia) N) as Rg. change (2 ^ (6 * Z.of_nat 10 - 2)) with (2 ^ 58) in Rg.
  assert (V : u64 (1 + u64 (reduce c)) = code c).
  { unfold code in *. rewrite (u64_small (reduce c)) by (unfold in_u64; lia).
    apply u64_small. unfold in_u64. lia. }
  assert (L : lexval 11 (c :: s) = code c * 2 ^ 58 + lexval 10 s) by reflexivity. rewrite L.
  change (VAR_BITS - 6) with 58. remember 10%nat as r eqn:R. cbn [lexhash_loop]. unfold chd, cnth. cbn [nth].
  rewrite V. change (58 <? 0) with false. cbv iota.
  rewrite (Z.shiftl_mul_pow2 (code c)), (u64_small (code c * 2 ^ 58)) by (unfold in_u64; lia).
  assert (H0 : u64 (u64 (Z.shiftl (u64 (-10)) 58) + code c * 2 ^ 58) = code c * 2 ^ 58 - 10 * 2 ^ 58).
  { change (u64 (Z.shiftl (u64 (-10)) 58)) with (2 ^ 64 - 10 * 2 ^ 58). unfold u64.
    replace (2 ^ 64 - 10 * 2 ^ 58 + code c * 2 ^ 58) with (code c * 2 ^ 58 - 10 * 2 ^ 58 + 1 * 2 ^ 64) by lia.
    rewrite Z.mod_add by lia. apply Z.mod_small. lia. }
  rewrite H0. destruct s as [|c' s]; [subst r; cbn [lexval]; lia|].
  assert ((c' =? ch "=") = false) as ->.
  { apply Forall_cons_1 in N as [C' _]. apply Z.eqb_neq. apply is_name_char_cases in C'.
    change (ch "=") with 61. lia. }
  change (-6 <? 58 - 6) with true. cbv iota. replace (58 - 6) with (6 * Z.of_nat r - 8) by (subst r; reflexivity).
  subst r. rewrite lexhash_loop_val; [lia|lia|easy|exact N|lia|lia|lia].
Qed.

(** Both hashes read a name up to "=". *)
Lemma lexhash_loop_name r s t shift hash :
  name_chars s -> s <> [] -> lexhash_loop r (s ++ ch "=" :: t) shift hash = lexhash_loop r s shift hash.
Proof.
  intros N. revert s shift hash N. induction r as [|r IH]; intros s shift hash N Ne; [reflexivity|].
  destruct s as [|c [|c' s]]; [easy|..]; cbn [lexhash_loop app]; unfold chd, cnth; cbn [nth].
  - reflexivity.
  - destruct (c' =? ch "="); [reflexivity|]. destruct (-6 <? shift - 6); [|reflexivity].
    apply (IH (c' :: s)); [now apply Forall_cons_1 in N|easy].
Qed.

Lemma var_lexhash_name s t : is_varname s -> var_lexhash (s ++ ch "=" :: t) = var_lexhash s.
Proof. intros (Ne & _ & N). now apply lexhash_loop_name. Qed.

Lemma rndhash_loop_name s t a b h :
  name_chars s -> s <> [] -> rndhash_loop (s ++ ch "=" :: t) a b h = rndhash_loop s a b h.
Proof.
  intros N. revert a b h. induction N as [|c s C N IH]; intros a b h Ne; [easy|].
  cbn [rndhash_loop app]. destruct (rndhash_round c a b h) as [[a' b'] h'].
  destruct s as [|c' s]; cbn [app]; [reflexivity|].
  destruct (c' =? ch "="); [reflexivity|]. apply (IH a' b' h'). easy.
Qed.

Lemma bucket_name s t : is_varname s -> bucket (s ++ ch "=" :: t) = bucket s.
Proof. intros (Ne & _ & N). unfold bucket, var_rndhash. now rewrite rndhash_loop_name. Qed.

Lemma name_of_name s t : is_varname s -> name_of (s ++ ch "=" :: t) = s.
Proof.
  intros (_ & _ & N). induction N as [|c s C N IH]; cbn [name_of app]; [reflexivity|].
  apply is_name_char_cases in C. destruct (Z.eqb_spec c (ch "=")) as [->|_]; [change (ch "=") with 61 in C; lia|].
  now rewrite IH.
Qed.

Lemma name_of_self s : is_varname s -> name_of s = s.
Proof.
  intros (_ & _ & N). induction N as [|c s C N IH]; cbn [name_of]; [reflexivity|].
  apply is_name_char_cases in C. destruct (Z.eqb_spec c (ch "=")) as [->|_]; [change (ch "=") with 61 in C; lia|].
  now rewrite IH.
Qed.

Lemma bucket_range s : (bucket s < 64)%nat.
Proof. unfold bucket. pose proof (Z.mod_pos_bound (var_rndhash s) VARTAB_BUCKETS). unfold VARTAB_BUCKETS in *. lia. Qed.

(** ** The order of hashes is that of names *)

Lemma lexhash_compare m w :
  is_varname m -> is_varname w ->
  match compare m w with
  | Before | Shorter _ => var_lexhash m <= var_lexhash w
  | Longer | After _ => var_lexhash w <= var_lexhash m
  | Same => m = w
  end.
Proof.
  intros M Wn. rewrite !var_lexhash_val by assumption.
  pose proof (lexval_compare 11 m w (proj2 (proj2 M)) (proj2 (proj2 Wn))) as X.
  destruct (compare m w); try exact X; lia.
Qed.

Lemma lexhash_short m w :
  is_varname m -> is_varname w -> var_lexhash m = var_lexhash w ->
  Z.of_nat (List.length w) < VAR_CHARS \/
    (Z.of_nat (List.length w) <= VAR_CHARS /\ Z.of_nat (List.length m) <= VAR_CHARS) ->
  m = w.
Proof.
  intros M Wn E Len. change VAR_CHARS with 10 in Len. rewrite !var_lexhash_val in E by assumption.
  apply (lexval_inj 11 m w); [apply M|apply Wn|lia|lia].
Qed.

Lemma var_lexhash_range s : is_varname s -> in_u64 (var_lexhash s).
Proof.
  intros V. rewrite var_lexhash_val by exact V. destruct V as (Ne & Dg & N). unfold in_u64.
  pose proof (lexval_range 11 s ltac:(lia) N) as Rg. change (2 ^ (6 * Z.of_nat 11 - 2)) with (2 ^ 64) in Rg.
  destruct s as [|c s]; [easy|]. apply Forall_cons_1 in N as [C N]. unfold chd, cnth in Dg. cbn [nth] in Dg.
  pose proof (code_first c C Dg). pose proof (lexval_range 10 s ltac:(lia) N).
  assert (L : lexval 11 (c :: s) = code c * 2 ^ 58 + lexval 10 s) by reflexivity. rewrite L in *. lia.
Qed.

(** ** The relation [compare] computes *)

Definition after (m w : bytes) : Prop := match compare m w with After _ => True | _ => False end.
Definition shorter (m w : bytes) : Prop := match compare m w with Shorter _ => True | _ => False end.

Lemma compare_cons x m y w :
  is_name_char x = true -> is_name_char y = true ->
  compare (x :: m) (y :: w) = if x =? y then compare m w else if x <? y then Before else After (x - y).
Proof. intros X Y. cbn [compare]. now rewrite (schar_name x X), (schar_name y Y). Qed.

Lemma compare_refl m : compare m m = Same.
Proof. induction m as [|x m IH]; cbn [compare]; [reflexivity|]. now rewrite Z.eqb_refl. Qed.

Lemma compare_same m w : compare m w = Same -> m = w.
Proof.
  revert w. induction m as [|x m IH]; intros [|y w]; cbn [compare]; try easy.
  destruct (Z.eqb_spec x y) as [->|]; [intros H; f_equal; now apply IH|]. now destruct (schar x <? schar y).
Qed.

Lemma compare_longer m w : compare m w = Longer -> (List.length w < List.length m)%nat.
Proof.
  revert w. induction m as [|x m IH]; intros [|y w]; cbn [compare List.length]; try easy; [lia|].
  destruct (x =? y); [intros C; specialize (IH w C); lia|]. now destruct (schar x <? schar y).
Qed.

(** What a name is to a second one, the second is to the first. *)
Lemma compare_flip m w :
  name_chars m -> name_chars w ->
  match compare m w with
  | Before => after w m
  | Longer => shorter w m
  | After _ => compare w m = Before
  | Shorter _ => compare w m = Longer
  | Same => compare w m = Same
  end.
Proof.
  intros M. revert w. induction M as [|x m X M IH]; intros [|y w] W; try exact I; try reflexivity; cbn [compare].
  apply Forall_cons_1 in W as [Y W]. rewrite (schar_name x X), (schar_name y Y).
  unfold after, shorter in *. rewrite (compare_cons y w x m Y X), (Z.eqb_sym y x).
  destruct (Z.eqb_spec x y) as [->|Ne]; [exact (IH w W)|].
  destruct (Z.ltb_spec x y), (Z.ltb_spec y x); (lia || reflexivity || exact I).
Qed.

(** Behind or a prefix of a name that is behind or a prefix of a third one *)
Lemma compare_trans m w z :
  name_chars m -> name_chars w -> name_chars z ->
  (after m w -> after w z \/ shorter w z -> after m z) /\
  (shorter m w -> after w z -> after m z \/ shorter m z) /\
  (shorter m w -> shorter w z -> shorter m z).
Proof.
  intros M. revert w z. induction M as [|x m X M IH]; intros w z W Zn.
  { unfold after, shorter. destruct w as [|y w], z as [|u z]; cbn [compare]; tauto. }
  destruct w as [|y w]; [unfold after, shorter; cbn [compare]; tauto|].
  apply Forall_cons_1 in W as [Y W]. destruct z as [|u z]; [unfold after, shorter; cbn [compare]; tauto|].
  apply Forall_cons_1 in Zn as [U Zn]. specialize (IH w z W Zn).
  unfold after, shorter in *. rewrite (compare_cons x m y w X Y), (compare_cons y w u z Y U), (compare_cons x m u z X U).
  destruct (Z.eqb_spec x y), (Z.eqb_spec y u), (Z.eqb_spec x u); try lia; try exact IH;
    destruct (Z.ltb_spec x y), (Z.ltb_spec y u), (Z.ltb_spec x u); (lia || tauto).
Qed.

Lemma compare_dist m w :
  name_chars m -> name_chars w ->
  match compare m w with After d => u64 d <> 0 | Shorter c => u64 (schar c) <> 0 | _ => True end.
Proof.
  intros M. revert w. induction M as [|x m X M IH]; intros [|y w] W; try exact I; cbn [compare].
  - apply Forall_cons_1 in W as [Y _]. rewrite (schar_name y Y). apply is_name_char_cases in Y.
    rewrite u64_small; unfold in_u64; lia.
  - apply Forall_cons_1 in W as [Y W]. rewrite (schar_name x X), (schar_name y Y).
    destruct (Z.eqb_spec x y) as [->|]; [exact (IH w W)|]. destruct (Z.ltb_spec x y); [exact I|].
    apply is_name_char_cases in X, Y. rewrite u64_small; unfold in_u64; lia.
Qed.

(** The lexical hash orders names: of two valid names, a smaller hash means
    that the first name is a prefix of the second or has the smaller character
    at the first difference; and names with equal hashes are equal when the
    wanted one is shorter than the ten characters a hash holds. *)
Theorem var_lexhash_orders m w :
  is_varname m -> is_varname w ->
  (var_lexhash m < var_lexhash w -> compare m w = Before \/ exists c, compare m w = Shorter c) /\
  (var_lexhash m = var_lexhash w -> Z.of_nat (List.length w) < VAR_CHARS -> m = w).
Proof.
  intros M Wn. split.
  - intros L. pose proof (lexhash_compare m w M Wn) as X. destruct (compare m w); eauto; try lia.
    subst. lia.
  - intros E Len. apply lexhash_short; auto.
Qed.

Lemma var_lexhash_orders_witness :
  var_lexhash (b "PATH") < var_lexhash (b "PATHX=1") /\
  (var_lexhash (b "HOME") < var_lexhash (b "PATH") ->
    compare (b "HOME") (b "PATH") = Before \/ exists c, compare (b "HOME") (b "PATH") = Shorter c) /\
  (var_lexhash (b "HOME") = var_lexhash (b "PATH") -> Z.of_nat (List.length (b "PATH")) < VAR_CHARS ->
    b "HOME" = b "PATH").
Proof.
  split; [vm_compute; reflexivity|]. apply (var_lexhash_orders (b "HOME") (b "PATH"));
    (split; [discriminate|split; [reflexivity|repeat constructor]]).
Defined.
