(* ===== verification/Vartab.v ===== *)
(** * Variables (src/var, src/vartab; var.h, vartab.h)

    A variable table is 64 hash buckets, each a list kept in an order that lets
    a search stop early; the shell keeps a stack of tables, the innermost on
    top: one per function call, per command with assignments in front of it and
    per subshell.  The model has the stack as a list, a variable's place as its
    table's index in it and its index in the bucket.  Not modelled: the sorted
    list of all visible variables that [export] and [set] print, $RANDOM's
    generator, and the buffers strings live in (whether one is owned is). *)

From S2P Require Import Prelude Chars VarHash.

(** ** Definitions *)

Definition V_DEFAULT : Z := 0x00.
Definition V_FREE : Z := 0x01.
Definition V_FREESTR : Z := 0x02.
Definition V_ZEROSA : Z := 0x04.
Definition V_EXPORT : Z := 0x08.
Definition V_LOCAL : Z := 0x10.
Definition V_UNSET : Z := 0x20.
Definition V_INIT : Z := 0x40.
Definition V_READONLY : Z := 0x80.

Definition flag (flags f : Z) : bool := c_true (Z.land flags f).

(** struct var.  [v_owned] is [sa.a != 0]: the string is not borrowed from a
    shadowed variable or the environment; [v_parent] is the shadowed variable's
    table, counted from the outermost. *)
Record var := Var
  { v_sa : bytes; v_owned : bool; v_len : nat; v_offset : nat; v_flags : Z;
    v_lexhash : Z; v_rndhash : Z; v_parent : option nat }.

Record vartab := Vartab { t_table : list (list var); t_function : bool }.

(** What the operations change: the stack, and whether the locations of
    commands found so far are still trusted (exec_hash_invalidate_all). *)
Record vars := Vars { varstack : list vartab; hash_valid : bool }.

(** struct search; [pos] is threaded through the searches *)
Record search := Search
  { s_name : bytes; s_lexhash : Z; s_rndhash : Z; s_hdist : Z; s_bdist : Z;
    s_bucket : nat; s_len : nat; s_exact : bool }.

(** (VAR_HASH)-1 *)
Definition NO_DIST : Z := u64 (-1).

Definition vartab_hash (v : bytes) : search :=
  Search v (var_lexhash v) (var_rndhash v) NO_DIST NO_DIST (bucket v) (List.length (name_of v)) false.

Definition exactly (c : search) : search :=
  Search (s_name c) (s_lexhash c) (s_rndhash c) (s_hdist c) (s_bdist c) (s_bucket c) (s_len c) true.

Definition nearest (c : search) (hdist bdist : Z) : search :=
  Search (s_name c) (s_lexhash c) (s_rndhash c) hdist bdist (s_bucket c) (s_len c) (s_exact c).

(** The distance and the position the search stops at *)
Fixpoint var_hsearch (c : search) (l : list var) (pos : nat) : Z * nat :=
  match l with
  | [] => (NO_DIST, pos)
  | v :: l =>
      if v_lexhash v <? s_lexhash c then var_hsearch c l (S pos)
      else if s_exact c && (negb (s_len c =? v_len v)%nat || negb (s_rndhash c =? v_rndhash v))
      then var_hsearch c l (S pos)
      else (u64 (v_lexhash v - s_lexhash c), pos)
  end.

Definition name (v : var) : bytes := take (v_len v) (v_sa v).

Fixpoint var_bsearch (c : search) (l : list var) (pos : nat) : Z * nat :=
  match l with
  | [] => (NO_DIST, pos)
  | v :: l =>
      match compare (name v) (take (s_len c) (s_name c)) with
      | Before | Longer => var_bsearch c l (S pos)
      | After d => (u64 d, pos)
      | Shorter w => (u64 (schar w), pos)
      | Same => (0, pos)
      end
  end.

Definition bucket_of (t : vartab) (n : nat) : list var := default [] (t_table t !! n).

(** The context afterwards, the position, and whether it is the variable's *)
Definition vartab_search (t : vartab) (c : search) : search * nat * bool :=
  let l := bucket_of t (s_bucket c) in
  match l with
  | [] => (c, O, false)
  | _ :: _ =>
      let '(dist, pos) := var_hsearch c l 0 in
      let len := Z.of_nat (s_len c) in
      let len' := match l !! pos with Some v => Z.of_nat (v_len v) | None => 0 end in
      if (dist =? 0) && ((len <? VAR_CHARS) || (len <=? VAR_CHARS) && (len' <=? VAR_CHARS)) then (c, pos, true)
      else if negb (dist =? 0) && s_exact c then (c, O, false)
      else if dist <=? s_hdist c then
        let c := if dist <? s_hdist c then nearest c dist NO_DIST else c in
        let '(bdist, pos) := var_bsearch c (drop pos l) pos in
        if bdist =? 0 then (c, pos, true)
        else ((if bdist <=? s_bdist c then nearest c (s_hdist c) bdist else c), pos, false)
      else (c, pos, false)
  end.

(** The position in each table searched in vain, and the variable's place *)
Fixpoint search_tables (st : list vartab) (c : search) (i : nat) : list nat * option (nat * nat) :=
  match st with
  | [] => ([], None)
  | t :: st =>
      let '(c, pos, hit) := vartab_search t c in
      if hit then ([], Some (i, pos))
      else let '(ps, r) := search_tables st c (S i) in (pos :: ps, r)
  end.

(** With no context of the caller's *)
Definition var_search (st : list vartab) (v : bytes) : option (nat * nat) :=
  snd (search_tables st (exactly (vartab_hash v)) 0).

Definition var_at (st : list vartab) (n : nat) (p : nat * nat) : option var :=
  t ← st !! fst p; bucket_of t n !! snd p.

Definition with_bucket (n : nat) (f : list var -> list var) (t : vartab) : vartab :=
  Vartab (alter f n (t_table t)) (t_function t).

Definition at_place (st : list vartab) (n : nat) (p : nat * nat) (f : var -> var) : list vartab :=
  alter (with_bucket n (alter f (snd p))) (fst p) st.

Definition var_init (v : bytes) (c : search) : var :=
  Var (take (s_len c) v) true (s_len c) (s_len c) V_UNSET (s_lexhash c) (s_rndhash c) None.

Fixpoint insert_at (pos : nat) (v : var) (l : list var) : list var :=
  match pos, l with
  | S pos, x :: l => x :: insert_at pos v l
  | _, _ => v :: l
  end.

Definition vartab_add (pos n : nat) (v : var) (t : vartab) : vartab := with_bucket n (insert_at pos v) t.

(** The first table that is no function's *)
Fixpoint first_non_function (st : list vartab) : option nat :=
  match st with
  | [] => None
  | t :: st => if t_function t then S <$> first_non_function st else Some O
  end.

(** var_create returns NULL, or a variable's place; [Undefined] is a table
    searched to no end (no table but functions', or a position left in the table
    by an earlier search for another name). *)
Inductive created := Null | Undefined | At (st : list vartab) (p : nat * nat).

Definition shadow (st : list vartab) (i : nat) (old : var) (v : var) : var :=
  Var (v_sa old) false (v_len v) (v_offset v) (Z.lor (v_flags v) (Z.land (v_flags old) V_READONLY))
    (v_lexhash v) (v_rndhash v) (Some (List.length st - 1 - i)%nat).

Definition fresh (s : bytes) (c : search) : var :=
  let v := var_init s c in
  Var (v_sa v) (v_owned v) (v_len v) (v_offset v) (Z.lor (v_flags v) V_FREE)
    (v_lexhash v) (v_rndhash v) (v_parent v).

(** A new variable in table [tab], found missing there at [ps !! tab] *)
Definition create_in (st : list vartab) (s : bytes) (c : search) (ps : list nat)
    (found : option (nat * nat)) (tab : nat) : created :=
  let newv := fresh s c in
  let newv :=
    match found with
    | Some p => match var_at st (s_bucket c) p with Some v => shadow st (fst p) v newv | None => newv end
    | None => newv
    end in
  match ps !! tab with
  | Some pos => At (alter (vartab_add pos (s_bucket c) newv) tab st) (tab, pos)
  | None => Undefined
  end.

Definition create (st : list vartab) (s : bytes) (flags : Z) : created :=
  let c := vartab_hash s in
  let '(ps, found) := search_tables st c 0 in
  let is_at i := match found with Some p => (fst p =? i)%nat | None => false end in
  let is_local :=
    match found with
    | Some p => match var_at st (s_bucket c) p with Some v => flag (v_flags v) V_LOCAL | None => false end
    | None => false
    end in
  match found with
  | Some p =>
      if flag flags V_INIT then Null
      else if is_at 0%nat || is_local then At st p
      else if flag flags V_LOCAL then create_in st s c ps found 0
      else
        match first_non_function st with
        | Some tab => if is_at tab then At st p else create_in st s c ps found tab
        | None => Undefined
        end
  | None =>
      if flag flags V_LOCAL then create_in st s c ps found 0
      else
        match first_non_function st with
        | Some tab => create_in st s c ps found tab
        | None => Undefined
        end
  end.

(** !str_diffn(s, "PATH", 4) && (s[4] == '\0' || s[4] == '=') *)
Definition is_path (s : bytes) : bool :=
  bool_decide (take 4 s = b "PATH") &&
  ((cnth s 4 =? 0) || (cnth s 4 =? ch "=")).

(** How a call ends: it returns non-NULL or NULL; [Readonly] is NULL too, with
    the message; [Crash] reads a NULL or is undefined. *)
Inductive done := Done (x : vars) | Failed (x : vars) | Readonly (x : vars) | Crash.

(** var_create, then what the caller does with the variable *)
Definition var_create (x : vars) (s : bytes) (flags : Z) (null : vars -> done)
    (k : vars -> nat * nat -> var -> done) : done :=
  let valid := if is_path s then false else hash_valid x in
  match create (varstack x) s flags with
  | Null => null (Vars (varstack x) valid)
  | Undefined => Crash
  | At st p =>
      match var_at st (bucket s) p with
      | Some v => k (Vars st valid) p v
      | None => Crash
      end
  end.

Definition store (x : vars) (s : bytes) (p : nat * nat) (v : var) : vars :=
  Vars (at_place (varstack x) (bucket s) p (fun _ => v)) (hash_valid x).

Definition with_value (v : var) (sa : bytes) (owned : bool) (offset : nat) (flags : Z) : var :=
  Var sa owned (v_len v) offset flags (v_lexhash v) (v_rndhash v) (v_parent v).

Definition is_set (flags : Z) : Z := Z.land flags (Z.lnot V_UNSET).

Definition var_setv (allexport : bool) (x : vars) (name value : bytes) (flags : Z) : done :=
  var_create x name flags (fun _ => Crash) (fun x p v =>
    if flag (v_flags v) V_READONLY then Readonly x
    else
      let sa := if v_owned v then v_sa v else name in
      let sa := take (v_len v) sa ++ [ch "="] in
      let flags := if allexport then Z.lor flags V_EXPORT else flags in
      Done (store x name p
        (with_value v (sa ++ value) true (List.length sa) (is_set (Z.lor (v_flags v) flags))))).

Definition var_setsa (allexport : bool) (x : vars) (sa : bytes) (flags : Z) : done :=
  match sa with
  | [] => Crash
  | _ =>
      var_create x sa flags (fun _ => Crash) (fun x p v =>
        if flag (v_flags v) V_READONLY then Readonly x
        else
          let flags := if allexport then Z.lor flags V_EXPORT else flags in
          let offset := if (v_len v <? List.length sa)%nat then S (v_len v) else v_offset v in
          Done (store x sa p (with_value v sa true offset (is_set (Z.lor (v_flags v) flags)))))
  end.

(** [own]: the place of the variable whose string [s] itself is, if it is one's *)
Definition var_set (own : option (nat * nat)) (x : vars) (s : bytes) (flags : Z) : done :=
  var_create x s flags Failed (fun x p v =>
    if flag (v_flags v) V_READONLY then Readonly x
    else if flag (v_flags v) V_UNSET then
      Done (store x s p (with_value v s true (v_offset v) (is_set (v_flags v))))
    else if bool_decide (own = Some p) then Done x
    else if cnth s (v_len v) =? 0 then
      Done (store x s p (with_value v (take (v_offset v) (v_sa v)) true (v_offset v) (is_set (v_flags v))))
    else
      let offset := if (v_len v <? List.length s)%nat then S (v_len v) else v_len v in
      Done (store x s p (with_value v s false offset (is_set (v_flags v))))).

Definition var_copys (x : vars) (s : bytes) (flags : Z) : done :=
  var_create x s flags Failed (fun x p v =>
    let offset := if (v_len v <? List.length s)%nat then S (v_len v) else v_offset v in
    Done (store x s p (with_value v s true offset (is_set (v_flags v))))).

(** [digits]: what stralloc_catlong appends for the int *)
Definition var_setvint (digits : Z -> bytes) (x : vars) (s : bytes) (i : Z) (flags : Z) : done :=
  var_create x s flags (fun _ => Crash) (fun x p v =>
    if flag (v_flags v) V_READONLY then Readonly x
    else
      Done (store x s p
        (with_value v (take (v_len v) s ++ [ch "="] ++ digits (i32 i)) true (S (v_len v))
          (is_set (Z.lor (v_flags v) flags))))).

(** [level]: the table of the shell's environment (sh->varstack), counted from
    the outermost *)
Definition var_chflg (level : nat) (x : vars) (s : bytes) (flags : Z) (set : bool) : done :=
  let change f := if set then Z.lor f flags else Z.land f (Z.lnot flags) in
  var_create x s 0 Failed (fun x p v =>
    if (List.length (varstack x) - 1 - fst p =? level)%nat then
      Done (store x s p (with_value v (v_sa v) (v_owned v) (v_offset v) (change (v_flags v))))
    else
      match var_set (Some p) x (v_sa v) (change (v_flags v)) with
      | Crash => Crash
      | Done x | Failed x | Readonly x => Done x
      end).

Definition var_vdefault (x : vars) (s default : bytes) : bytes :=
  match var_search (varstack x) s with
  | Some p =>
      match var_at (varstack x) (bucket s) p with
      | Some v => drop (v_offset v) (v_sa v)
      | None => default
      end
  | None => default
  end.

Definition var_value (x : vars) (s : bytes) : bytes := var_vdefault x s [].

(** Unlinking from the bucket list (var_cleanup) *)
Definition remove_var (st : list vartab) (n : nat) (p : nat * nat) : list vartab :=
  alter (with_bucket n (fun l => take (snd p) l ++ drop (S (snd p)) l)) (fst p) st.

Fixpoint place_of (s : bytes) (l : list var) (pos : nat) : option nat :=
  match l with
  | [] => None
  | v :: l => if bool_decide (name v = s) then Some pos else place_of s l (S pos)
  end.

(** The variable and all it shadows; [fuel]: the tables below *)
Fixpoint unset_chain (fuel : nat) (st : list vartab) (s : bytes) (p : nat * nat) : list vartab :=
  match var_at st (bucket s) p with
  | None => st
  | Some v =>
      let st' := remove_var st (bucket s) p in
      match fuel, v_parent v with
      | S fuel, Some level =>
          let i := (List.length st - 1 - level)%nat in
          match t ← st' !! i; place_of (name v) (bucket_of t (bucket s)) 0 with
          | Some pos => unset_chain fuel st' s (i, pos)
          | None => st'
          end
      | _, _ => st'
      end
  end.

Definition var_unset (x : vars) (s : bytes) : vars * bool :=
  match var_search (varstack x) s with
  | Some p => (Vars (unset_chain (List.length (varstack x)) (varstack x) s p) (hash_valid x), true)
  | None => (x, false)
  end.

Definition empty_table (function : bool) : vartab := Vartab (replicate 64 []) function.

(** vartab_root, of the outermost shell *)
Definition vartab_root : vartab := empty_table false.

Definition vartab_push (x : vars) (function : bool) : vars :=
  Vars (empty_table function :: varstack x) (hash_valid x).

Definition vartab_pop (x : vars) : vars := Vars (tail (varstack x)) (hash_valid x).

(** A var with no string of its own, in the outermost table (var_import) *)
Definition var_import (x : vars) (s : bytes) (flags : Z) : done :=
  match varstack x with
  | [t] =>
      if negb (var_valid s) then Failed x
      else
        let c := vartab_hash s in
        let set v :=
          Var s (v_owned v) (v_len v) (if (v_len v <? List.length s)%nat then S (v_len v) else v_offset v) flags
            (v_lexhash v) (v_rndhash v) (v_parent v) in
        match search_tables [t] c 0 with
        | (_, Some p) =>
            if flag flags V_INIT then Failed x
            else Done (Vars (at_place [t] (bucket s) p set) (hash_valid x))
        | (ps, None) =>
            match ps with
            | pos :: _ =>
                let v := var_init s c in
                let v := with_value v [] false (v_offset v) (v_flags v) in
                Done (Vars [vartab_add pos (bucket s) (set v) t] (hash_valid x))
            | [] => Crash
            end
        end
  | _ => Crash
  end.

(** ** The builtins, after their options *)

Inductive finished := Status (x : vars) (status : Z) | Exit (x : vars) (status : Z) | Crashed.

Definition has_eq (s : bytes) : bool := existsb (Z.eqb (ch "=")) s.

Definition is_readonly (x : vars) (s : bytes) : bool :=
  match var_search (varstack x) s with
  | Some p =>
      match var_at (varstack x) (bucket s) p with Some v => flag (v_flags v) V_READONLY | None => false end
  | None => false
  end.

(** The loops of [export] and [readonly]: [f] is the flag, [set] is false for
    [export -n], [invalid] the status of an invalid name *)
Fixpoint mark_args (interactive : bool) (level : nat) (f : Z) (set : bool) (invalid status : Z) (x : vars)
    (argv : list bytes) : finished :=
  match argv with
  | [] => Status x status
  | a :: argv =>
      if negb (var_valid a) then
        mark_args interactive level f set invalid (if invalid =? 0 then status else invalid) x argv
      else if has_eq a && is_readonly x a then if interactive then Status x 1 else Exit x 1
      else
        match (if has_eq a then var_copys x a f else Done x) with
        | Crash => Crashed
        | Done x | Failed x | Readonly x =>
            match var_chflg level x a f set with
            | Crash => Crashed
            | Done x | Failed x | Readonly x => mark_args interactive level f set invalid status x argv
            end
        end
  end.

Definition builtin_export (interactive : bool) (level : nat) (clear : bool) (x : vars) (argv : list bytes) : finished :=
  mark_args interactive level V_EXPORT (negb clear) 1 0 x argv.
Definition builtin_readonly (interactive : bool) (level : nat) (x : vars) (argv : list bytes) : finished :=
  mark_args interactive level V_READONLY true 0 0 x argv.

Definition assigned (s : bytes) : bytes := drop (S (List.length (name_of s))) s.

Fixpoint builtin_local (allexport : bool) (x : vars) (argv : list bytes) : finished :=
  match argv with
  | [] => Status x 0
  | a :: argv =>
      if negb (var_valid a) then builtin_local allexport x argv
      else
        let a' := if has_eq a then a else a ++ [ch "="] in
        match var_setv allexport x a' (assigned a) V_LOCAL with
        | Crash => Crashed
        | Done x | Failed x | Readonly x => builtin_local allexport x argv
        end
  end.
