(* ===== verification/VartabSearch.v ===== *)
(** * Searching a bucket (proofs about vartab_search and vartab_add)

    The order of a bucket: a name is never behind one that follows it, and
    before a name that extends it, all hashes up to its own are smaller than
    that of the longer name.  This is what the early exits of the two search
    loops rely on, and inserting where the search stopped keeps it. *)

From S2P Require Import Prelude Chars VarHash Vartab.

(** ** The invariant *)

Record var_ok (n : nat) (v : var) : Prop :=
  { ok_name : is_varname (name v);
    ok_len : (v_len v <= List.length (v_sa v))%nat;
    ok_lexhash : v_lexhash v = var_lexhash (name v);
    ok_rndhash : v_rndhash v = var_rndhash (name v);
    ok_bucket : bucket (name v) = n }.

Definition in_order (l : list var) (i j : nat) (v u : var) : Prop :=
  ~ after (name v) (name u) /\
  (shorter (name v) (name u) -> forall k t, (k <= i)%nat -> l !! k = Some t -> v_lexhash t < v_lexhash u).

Record bucket_ok (n : nat) (l : list var) : Prop :=
  { ok_vars : Forall (var_ok n) l;
    ok_nodup : NoDup (map name l);
    ok_order : forall i j v u, (i < j)%nat -> l !! i = Some v -> l !! j = Some u -> in_order l i j v u }.

(** The context of a search for the name [w] *)
Record wants (c : search) (w : bytes) : Prop :=
  { wants_name : is_varname w;
    wants_text : take (s_len c) (s_name c) = w;
    wants_len : s_len c = List.length w;
    wants_lexhash : s_lexhash c = var_lexhash w;
    wants_rndhash : s_rndhash c = var_rndhash w;
    wants_bucket : s_bucket c = bucket w }.

Definition holds (l : list var) (w : bytes) : Prop := exists v, v ∈ l /\ name v = w.

(** Where [w] belongs in the bucket: after the names with a smaller hash (up to
    [p]), and after those that are ahead of it or extend it *)
Record gap (l : list var) (w : bytes) (p pos : nat) : Prop :=
  { gap_range : (p <= pos <= List.length l)%nat;
    gap_smaller : forall k v, (k < p)%nat -> l !! k = Some v -> v_lexhash v < var_lexhash w;
    gap_first : forall v, l !! p = Some v -> var_lexhash w <= v_lexhash v;
    gap_ahead : forall k v, (p <= k < pos)%nat -> l !! k = Some v ->
      compare (name v) w = Before \/ compare (name v) w = Longer;
    gap_behind : forall v, l !! pos = Some v -> after (name v) w \/ shorter (name v) w }.

(** ** The loops *)

Definition skips (c : search) (v : var) : bool :=
  (v_lexhash v <? s_lexhash c) ||
  (s_exact c && (negb (s_len c =? v_len v)%nat || negb (s_rndhash c =? v_rndhash v))).

Definition hdistance (c : search) (o : option var) : Z :=
  match o with Some v => u64 (v_lexhash v - s_lexhash c) | None => NO_DIST end.

Definition bdistance (w : bytes) (o : option var) : Z :=
  match o with
  | Some v => match compare (name v) w with After d => u64 d | Shorter x => u64 (schar x) | _ => 0 end
  | None => NO_DIST
  end.

Definition passes (w : bytes) (v : var) : Prop :=
  compare (name v) w = Before \/ compare (name v) w = Longer.

Lemma var_hsearch_stops c l pos :
  exists k, var_hsearch c l pos = (hdistance c (l !! k), (pos + k)%nat) /\ (k <= List.length l)%nat /\
    (forall j v, (j < k)%nat -> l !! j = Some v -> skips c v = true) /\
    (forall v, l !! k = Some v -> skips c v = false).
Proof.
  revert pos. induction l as [|v l IH]; intros pos; cbn [var_hsearch].
  - exists O. split; [now rewrite Nat.add_0_r|]. split; [cbn; lia|]. split; [intros; lia|easy].
  - destruct (skips c v) eqn:K.
    + destruct (IH (S pos)) as (k & E & L & A & B). exists (S k).
      assert (var_hsearch c l (S pos) = (hdistance c ((v :: l) !! S k), (pos + S k)%nat)) as F.
      { rewrite E. cbn. f_equal. lia. }
      split.
      { unfold skips in K. destruct (v_lexhash v <? s_lexhash c); [exact F|]. cbn [orb] in K. now rewrite K. }
      split; [cbn; lia|]. split; [|exact B].
      intros [|j] u J; cbn; [now intros [= ->]|apply A; lia].
    + exists O. split.
      { unfold skips in K. apply orb_false_iff in K as [-> ->]. cbn. f_equal. lia. }
      split; [cbn; lia|]. split; [intros; lia|]. now intros u [= ->].
Qed.

Lemma var_bsearch_stops c w l pos :
  take (s_len c) (s_name c) = w ->
  exists k, var_bsearch c l pos = (bdistance w (l !! k), (pos + k)%nat) /\ (k <= List.length l)%nat /\
    (forall j v, (j < k)%nat -> l !! j = Some v -> passes w v) /\
    (forall v, l !! k = Some v -> ~ passes w v).
Proof.
  intros Wt. revert pos. induction l as [|v l IH]; intros pos; cbn [var_bsearch].
  - exists O. split; [now rewrite Nat.add_0_r|]. split; [cbn; lia|]. split; [intros; lia|easy].
  - rewrite Wt. assert (P : passes w v \/ ~ passes w v) 
      by (unfold passes; destruct (compare (name v) w);
        first [left; left; reflexivity|left; right; reflexivity|right; intros [?|?]; discriminate]).
    destruct P as [P|P].
    + destruct (IH (S pos)) as (k & E & L & A & B). exists (S k).
      assert (var_bsearch c l (S pos) = (bdistance w ((v :: l) !! S k), (pos + S k)%nat)) as F.
      { rewrite E. cbn. f_equal. lia. }
      split; [unfold passes in P; destruct P as [-> | ->]; exact F|].
      split; [cbn; lia|]. split; [|exact B].
      intros [|j] u J; cbn; [now intros [= ->]|apply A; lia].
    + exists O. cbn [lookup list_lookup]. unfold passes in P. rewrite Nat.add_0_r. split.
      { cbn. destruct (compare (name v) w) eqn:C; try reflexivity; exfalso; auto. }
      split; [cbn; lia|]. split; [intros; lia|]. intros u [= ->]. exact P.
Qed.

(** ** What the order gives *)

Section bucket.
Context (n : nat) (l : list var) (w : bytes) (B : bucket_ok n l) (W : is_varname w).

Lemma var_in k v : l !! k = Some v -> var_ok n v.
Proof. intros E. eapply Forall_lookup_1; [apply B|exact E]. Qed.

Lemma var_chars k v : l !! k = Some v -> name_chars (name v).
Proof. intros E. apply (ok_name n v). now apply (var_in k). Qed.

Let Wc : name_chars w := proj2 (proj2 W).

Lemma lexhash_in k v : l !! k = Some v -> in_u64 (v_lexhash v).
Proof. intros E. pose proof (var_in k v E) as V. rewrite (ok_lexhash n v V). apply var_lexhash_range, V. Qed.

Lemma same_place k j v u : l !! k = Some v -> l !! j = Some u -> name v = name u -> k = j.
Proof.
  intros K J E. apply (proj1 (NoDup_alt (map name l)) (ok_nodup n l B) k j (name v)); rewrite list_lookup_fmap.
  - now rewrite K.
  - rewrite J. cbn. now rewrite E.
Qed.

(** Everything between the first name whose hash is not smaller and the name
    itself is stepped over. *)
Lemma passes_before p k t :
  l !! k = Some t -> name t = w -> (exists v, l !! p = Some v /\ var_lexhash w <= v_lexhash v) ->
  forall j v, (p <= j < k)%nat -> l !! j = Some v -> passes w v.
Proof.
  intros K Nm (vp & P & Hp) j v J Ej.
  destruct (ok_order n l B j k v t ltac:(lia) Ej K) as [NA Sh]. rewrite Nm in NA, Sh.
  unfold passes, after, shorter in *. destruct (compare (name v) w) eqn:C; auto; exfalso.
  - now apply NA.
  - specialize (Sh I p vp ltac:(lia) P). rewrite (ok_lexhash n t (var_in k t K)), Nm in Sh. lia.
  - apply compare_same in C. pose proof (same_place j k v t Ej K ltac:(congruence)). lia.
Qed.

Lemma passes_not_found p q :
  (forall j v, (p <= j < q)%nat -> l !! j = Some v -> passes w v) ->
  forall j v, (p <= j < q)%nat -> l !! j = Some v -> name v <> w.
Proof.
  intros A j v J E Nm. specialize (A j v J E). subst w. unfold passes in A. rewrite compare_refl in A. now destruct A.
Qed.

Lemma smaller_not_found p :
  (forall j v, (j < p)%nat -> l !! j = Some v -> v_lexhash v < var_lexhash w) ->
  forall j v, (j < p)%nat -> l !! j = Some v -> name v <> w.
Proof. intros A j v J E Nm. specialize (A j v J E). rewrite (ok_lexhash n v (var_in j v E)), Nm in A. lia. Qed.

(** A gap is only where the name is not. *)
Lemma gap_not_held p pos : gap l w p pos -> ~ holds l w.
Proof.
  intros G (v & E & Nm). apply list_elem_of_lookup in E as [k E].
  destruct (decide (k < p)%nat) as [L|L].
  - pose proof (gap_smaller _ _ _ _ G k v L E). rewrite (ok_lexhash n v (var_in k v E)), Nm in *. lia.
  - destruct (decide (k < pos)%nat) as [L2|L2].
    + destruct (gap_ahead _ _ _ _ G k v ltac:(lia) E) as [C|C]; rewrite Nm, compare_refl in C; discriminate.
    + assert (pos < List.length l)%nat as Lt by (apply lookup_lt_Some in E; lia).
      destruct (lookup_lt_is_Some_2 l pos Lt) as [u U]. pose proof (gap_behind _ _ _ _ G u U) as Bh.
      destruct (decide (k = pos)) as [->|Nk].
      * unfold after, shorter in Bh. assert (u = v) as -> by congruence. rewrite Nm, compare_refl in Bh. tauto.
      * destruct (ok_order n l B pos k u v ltac:(lia) U E) as [NA Sh]. rewrite Nm in *. destruct Bh as [Bh|Bh]; [tauto|].
        assert (p < List.length l)%nat as Pl by (pose proof (gap_range _ _ _ _ G); lia).
        destruct (lookup_lt_is_Some_2 l p Pl) as [vp P]. pose proof (gap_first _ _ _ _ G vp P).
        specialize (Sh Bh p vp ltac:(pose proof (gap_range _ _ _ _ G); lia) P).
        rewrite (ok_lexhash n v (var_in k v E)), Nm in Sh. lia.
Qed.
End bucket.

(** ** Inserting at the gap *)

Lemma insert_at_split pos v l : (pos <= List.length l)%nat -> insert_at pos v l = take pos l ++ v :: drop pos l.
Proof.
  revert l. induction pos as [|pos IH]; intros l L; [now destruct l|].
  destruct l as [|x l]; cbn in L; [lia|]. cbn [insert_at take drop app]. f_equal. apply IH. lia.
Qed.

Lemma insert_at_lookup pos v l k u :
  (pos <= List.length l)%nat -> insert_at pos v l !! k = Some u ->
  ((k < pos)%nat /\ l !! k = Some u) \/ (k = pos /\ u = v) \/ ((pos < k)%nat /\ l !! pred k = Some u).
Proof.
  intros L. rewrite insert_at_split by exact L. intros E.
  destruct (decide (k < pos)%nat).
  - left. rewrite lookup_app_l in E by (rewrite length_take; lia). split; [lia|]. now rewrite lookup_take_lt in E.
  - right. rewrite lookup_app_r in E by (rewrite length_take; lia). rewrite length_take, Nat.min_l in E by lia.
    destruct (k - pos)%nat as [|i] eqn:D.
    + left. split; [lia|]. now injection E.
    + right. split; [lia|]. change (drop pos l !! i = Some u) in E. rewrite lookup_drop in E. rewrite <- E. f_equal. lia.
Qed.

Lemma insert_at_elem pos v l : (pos <= List.length l)%nat -> insert_at pos v l ≡ₚ v :: l.
Proof.
  intros L. rewrite insert_at_split by exact L. rewrite <- Permutation_middle. now rewrite take_drop.
Qed.

(** What is in front of the gap *)
Lemma gap_in_front n l w p pos i x :
  bucket_ok n l -> is_varname w -> gap l w p pos -> (i < pos)%nat -> l !! i = Some x ->
  ~ after (name x) w /\
  (shorter (name x) w -> forall k t, (k <= i)%nat -> l !! k = Some t -> v_lexhash t < var_lexhash w).
Proof.
  intros B W G Li Ei. destruct (decide (i < p)%nat) as [Ip|Ip].
  - pose proof (gap_smaller _ _ _ _ G i x Ip Ei) as S1. rewrite (ok_lexhash n x (var_in n l B i x Ei)) in S1.
    pose proof (lexhash_compare (name x) w (ok_name n x (var_in n l B i x Ei)) W) as C. split.
    + unfold after. destruct (compare (name x) w); auto. lia.
    + intros _ k t K Ek. apply (gap_smaller _ _ _ _ G k t); [lia|exact Ek].
  - destruct (gap_ahead _ _ _ _ G i x ltac:(lia) Ei) as [C|C]; split; unfold after, shorter; rewrite C; tauto.
Qed.

(** What is behind it *)
Lemma gap_in_back n l w p pos q y :
  bucket_ok n l -> is_varname w -> gap l w p pos -> (pos <= q)%nat -> l !! q = Some y ->
  ~ after w (name y) /\
  (shorter w (name y) ->
    var_lexhash w < v_lexhash y /\ forall k t, (k <= q)%nat -> l !! k = Some t -> (k < pos)%nat -> v_lexhash t < v_lexhash y).
Proof.
  intros B W G Q Ey. pose proof (gap_range _ _ _ _ G) as R. pose proof (lookup_lt_Some _ _ _ Ey) as Ly.
  destruct (lookup_lt_is_Some_2 l pos ltac:(lia)) as [u Eu]. destruct (lookup_lt_is_Some_2 l p ltac:(lia)) as [z Ez].
  pose proof (gap_first _ _ _ _ G z Ez) as Hz. pose proof (gap_behind _ _ _ _ G u Eu) as Bh.
  pose proof (var_in n l B q y Ey) as Vy. pose proof (var_in n l B pos u Eu) as Vu.
  assert (Wc : name_chars w) by apply W. assert (Uc : name_chars (name u)) by apply Vu.
  assert (Yc : name_chars (name y)) by apply Vy.
  destruct (compare_trans (name u) w (name y) Uc Wc Yc) as (T1 & T2 & T3).
  pose proof (lexhash_compare w (name y) W (ok_name n y Vy)) as C. rewrite <- (ok_lexhash n y Vy) in C.
  destruct (decide (pos = q)) as [->|Ne].
  { assert (u = y) as -> by congruence. pose proof (compare_flip (name y) w Uc Wc) as Fl. unfold after, shorter in *.
    destruct (compare (name y) w); try tauto; rewrite Fl; tauto. }
  destruct (ok_order n l B pos q u y ltac:(lia) Eu Ey) as [NA Sh]. destruct Bh as [Bh|Bh]; [tauto|]. split.
  - intros A. destruct (T2 Bh A) as [|S]; [tauto|]. specialize (Sh S p z ltac:(lia) Ez).
    unfold after in A. destruct (compare w (name y)); try tauto. lia.
  - intros S. specialize (Sh (T3 Bh S)). split.
    + pose proof (Sh p z ltac:(lia) Ez). lia.
    + intros k t _ Ek K. apply (Sh k t); [lia|exact Ek].
Qed.

Lemma bucket_ok_insert n l w p pos v :
  bucket_ok n l -> gap l w p pos -> var_ok n v -> name v = w -> bucket_ok n (insert_at pos v l).
Proof.
  intros B G V <-. pose proof (ok_name n v V) as W. pose proof (gap_range _ _ _ _ G) as R.
  pose proof (ok_lexhash n v V) as Hv.
  constructor.
  - rewrite insert_at_elem by lia. constructor; [exact V|apply B].
  - rewrite insert_at_elem by lia. cbn. constructor; [|apply B].
    intros I. apply list_elem_of_fmap in I as (u & E & I). apply (gap_not_held n l (name v) B p pos G). now exists u.
  - intros i j x y Lt Ei Ej.
    apply insert_at_lookup in Ei as [[Li Ei]|[[-> ->]|[Li Ei]]]; try lia;
    apply insert_at_lookup in Ej as [[Lj Ej]|[[-> ->]|[Lj Ej]]]; try lia;
    unfold in_order.
    + destruct (ok_order n l B i j x y Lt Ei Ej) as [NA Sh]. split; [exact NA|].
      intros S k t K Ek. apply insert_at_lookup in Ek as [[Lk Ek]|[[-> ->]|[Lk Ek]]]; try lia. now apply (Sh S k).
    + destruct (gap_in_front n l (name v) p pos i x B W G Li Ei) as [NA Sh]. split; [exact NA|].
      intros S k t K Ek. apply insert_at_lookup in Ek as [[Lk Ek]|[[-> ->]|[Lk Ek]]]; try lia.
      rewrite Hv. now apply (Sh S k).
    + destruct (ok_order n l B i (pred j) x y ltac:(lia) Ei Ej) as [NA Sh]. split; [exact NA|].
      intros S k t K Ek. apply insert_at_lookup in Ek as [[Lk Ek]|[[-> ->]|[Lk Ek]]]; try lia. now apply (Sh S k).
    + destruct (gap_in_back n l (name v) p pos (pred j) y B W G ltac:(lia) Ej) as [NA Sh]. split; [exact NA|].
      intros S k t K Ek. destruct (Sh S) as [S1 S2].
      apply insert_at_lookup in Ek as [[Lk Ek]|[[-> ->]|[Lk Ek]]]; try lia. apply (S2 k t); auto; lia.
    + destruct (ok_order n l B (pred i) (pred j) x y ltac:(lia) Ei Ej) as [NA Sh]. split; [exact NA|].
      intros S k t K Ek. apply insert_at_lookup in Ek as [[Lk Ek]|[[-> ->]|[Lk Ek]]]; try lia.
      * apply (Sh S k); [lia|exact Ek].
      * rewrite Hv. destruct (lookup_lt_is_Some_2 l p) as [z Ez]; [apply lookup_lt_Some in Ej; lia|].
        pose proof (gap_first _ _ _ _ G z Ez). pose proof (Sh S p z ltac:(lia) Ez). lia.
      * apply (Sh S (pred k)); [lia|exact Ek].
Qed.

(** ** One table *)

Definition table_ok (t : vartab) : Prop :=
  List.length (t_table t) = 64%nat /\ forall n, bucket_ok n (bucket_of t n).

(** Every name of the bucket is smaller: a search goes to its end. *)
Definition clear (l : list var) (w : bytes) : bool := forallb (fun v => v_lexhash v <? var_lexhash w) l.

Lemma hdistance_zero c w n l k v :
  wants c w -> bucket_ok n l -> l !! k = Some v -> skips c v = false ->
  (hdistance c (Some v) =? 0) = true <-> v_lexhash v = var_lexhash w.
Proof.
  intros Wc B E S. unfold hdistance. rewrite (wants_lexhash c w Wc). unfold skips in S.
  apply orb_false_iff in S as [S _]. rewrite (wants_lexhash c w Wc) in S. apply Z.ltb_ge in S.
  pose proof (lexhash_in n l B k v E) as R1. pose proof (var_lexhash_range w (wants_name c w Wc)) as R2.
  unfold in_u64 in *. rewrite u64_small by (unfold in_u64; lia). rewrite Z.eqb_eq. lia.
Qed.

Lemma bdistance_zero c w n l k v :
  wants c w -> bucket_ok n l -> l !! k = Some v -> ~ passes w v ->
  if bdistance w (Some v) =? 0 then name v = w else after (name v) w \/ shorter (name v) w.
Proof.
  intros Wc B E NP. unfold bdistance, passes in *. pose proof (var_chars n l B k v E) as Vc.
  pose proof (compare_dist (name v) w Vc (proj2 (proj2 (wants_name c w Wc)))) as D.
  unfold after, shorter. destruct (compare (name v) w) eqn:C; try tauto; cbn.
  - destruct (Z.eqb_spec (u64 d) 0); [easy|auto].
  - destruct (Z.eqb_spec (u64 (schar c0)) 0); [easy|auto].
  - now apply compare_same.
Qed.

Lemma name_length n v : var_ok n v -> List.length (name v) = v_len v.
Proof. intros V. unfold name. rewrite length_take. pose proof (ok_len n v V). lia. Qed.

Lemma wants_nearest c w h d : wants c w -> wants (nearest c h d) w.
Proof. intros []. now constructor. Qed.

Lemma wants_hash s w : is_varname w -> s = w \/ (exists t, s = w ++ ch "=" :: t) -> wants (vartab_hash s) w.
Proof.
  intros W [->|[t ->]].
  - constructor; cbn [vartab_hash s_name s_len s_lexhash s_rndhash s_bucket]; rewrite ?name_of_self by exact W; auto.
    apply firstn_all.
  - constructor; cbn [vartab_hash s_name s_len s_lexhash s_rndhash s_bucket]; rewrite ?name_of_name by exact W; auto.
    + apply take_app_length.
    + now apply var_lexhash_name.
    + unfold var_rndhash. apply rndhash_loop_name; apply W.
    + now apply bucket_name.
Qed.

Lemma wants_exactly c w : wants c w -> wants (exactly c) w.
Proof. intros []. now constructor. Qed.

(** The search, in three parts: nothing in the bucket, the hash decides, the
    names are compared. *)
Inductive searched (l : list var) (c : search) : search * nat * bool -> Prop :=
  | Searched_empty : l = [] -> searched l c (c, O, false)
  | Searched_hash k v :
      l !! k = Some v -> skips c v = false -> hdistance c (Some v) = 0 ->
      (Z.of_nat (s_len c) < VAR_CHARS \/ (Z.of_nat (s_len c) <= VAR_CHARS /\ Z.of_nat (v_len v) <= VAR_CHARS)) ->
      searched l c (c, k, true)
  | Searched_none k :
      (forall j v, (j < k)%nat -> l !! j = Some v -> skips c v = true) -> (forall v, l !! k = Some v -> skips c v = false) ->
      hdistance c (l !! k) <> 0 -> s_exact c = true -> searched l c (c, O, false)
  | Searched_far k :
      s_hdist c < hdistance c (l !! k) -> (forall v, l !! k = Some v -> skips c v = false) -> s_exact c = false ->
      searched l c (c, k, false)
  | Searched_names k q c' :
      (k <= q <= List.length l)%nat ->
      (forall j v, (j < k)%nat -> l !! j = Some v -> skips c v = true) -> (forall v, l !! k = Some v -> skips c v = false) ->
      hdistance c (l !! k) <= s_hdist c -> (s_exact c = true -> hdistance c (l !! k) = 0) ->
      (forall j v, (k <= j < q)%nat -> l !! j = Some v -> passes (take (s_len c) (s_name c)) v) ->
      (forall v, l !! q = Some v -> ~ passes (take (s_len c) (s_name c)) v) ->
      (exists d, c' = nearest c (hdistance c (l !! k)) d) ->
      searched l c (c', q, bdistance (take (s_len c) (s_name c)) (l !! q) =? 0).

Lemma nearest_same c : c = nearest c (s_hdist c) (s_bdist c).
Proof. now destruct c. Qed.

Lemma vartab_search_cases t c : 0 <= s_hdist c -> searched (bucket_of t (s_bucket c)) c (vartab_search t c).
Proof.
  intros H0. unfold vartab_search. set (l := bucket_of t (s_bucket c)).
  destruct l as [|v0 l0] eqn:L; [now constructor|]. rewrite <- L. clearbody l. clear v0 l0 L.
  destruct (var_hsearch_stops c l 0) as (k & E & Lk & A & B). cbn [Nat.add] in E. rewrite E.
  match goal with |- context [if ?x then (c, k, true) else _] => destruct x eqn:Q end.
  { apply andb_true_iff in Q as [D Len]. apply Z.eqb_eq in D.
    destruct (l !! k) as [v|] eqn:Ek; [|discriminate D]. apply (Searched_hash _ _ k v); auto.
    apply orb_true_iff in Len as [Len|Len]; [left; now apply Z.ltb_lt|right].
    apply andb_true_iff in Len as [L1 L2]. split; now apply Z.leb_le. }
  clear Q. destruct (negb (hdistance c (l !! k) =? 0) && s_exact c) eqn:Q.
  { apply andb_true_iff in Q as [Q X]. apply negb_true_iff in Q. apply Z.eqb_neq in Q. now apply (Searched_none _ _ k). }
  assert (X : s_exact c = true -> hdistance c (l !! k) = 0).
  { intros X. rewrite X, andb_true_r in Q. apply negb_false_iff in Q. now apply Z.eqb_eq. }
  clear Q. destruct (Z.leb_spec (hdistance c (l !! k)) (s_hdist c)) as [Le|Gt].
  2:{ apply Searched_far; auto. destruct (s_exact c); [specialize (X eq_refl); lia|reflexivity]. }
  set (c1 := if hdistance c (l !! k) <? s_hdist c then nearest c (hdistance c (l !! k)) NO_DIST else c).
  assert (C1 : exists d, c1 = nearest c (hdistance c (l !! k)) d).
  { unfold c1. destruct (Z.ltb_spec (hdistance c (l !! k)) (s_hdist c)); [now eexists|].
    assert (hdistance c (l !! k) = s_hdist c) as -> by lia. exists (s_bdist c). apply nearest_same. }
  destruct C1 as [d1 C1]. clearbody c1. subst c1.
  destruct (var_bsearch_stops (nearest c (hdistance c (l !! k)) d1) _ (drop k l) k eq_refl) as (q & E2 & Lq & A2 & B2).
  rewrite E2. cbn [s_len s_name nearest] in *. rewrite lookup_drop. rewrite length_drop in Lq.
  assert (Sx : forall c', (exists d, c' = nearest c (hdistance c (l !! k)) d) ->
    searched l c (c', (k + q)%nat, bdistance (take (s_len c) (s_name c)) (l !! (k + q)%nat) =? 0)).
  { intros c' C'. apply (Searched_names l c k); auto; [lia|..].
    - intros j v J Ej. apply (A2 (j - k)%nat); [lia|]. rewrite lookup_drop. rewrite <- Ej. f_equal. lia.
    - intros v Ev. apply B2. now rewrite lookup_drop. }
  match goal with |- context [?x =? 0] => destruct (x =? 0) eqn:Z0 end.
  - apply Sx. eauto.
  - apply Sx. case_test; eexists; reflexivity.
Qed.

Section search.
Context (t : vartab) (w : bytes) (T : table_ok t).
Let n := bucket w.
Let l := bucket_of t n.
Let B : bucket_ok n l := proj2 T n.

Lemma skips_smaller c v : wants c w -> s_exact c = false -> skips c v = (v_lexhash v <? var_lexhash w).
Proof. intros Wc X. unfold skips. rewrite X, (wants_lexhash c w Wc). apply orb_false_r. Qed.

Lemma skips_not c k v : wants c w -> l !! k = Some v -> skips c v = false -> var_lexhash w <= v_lexhash v.
Proof.
  intros Wc E S. unfold skips in S. apply orb_false_iff in S as [S _]. rewrite (wants_lexhash c w Wc) in S.
  now apply Z.ltb_ge in S.
Qed.

Lemma wanted_not_skipped c k v : wants c w -> l !! k = Some v -> name v = w -> skips c v = false.
Proof.
  intros Wc E Nm. pose proof (var_in n l B k v E) as V. unfold skips.
  rewrite (wants_lexhash c w Wc), (ok_lexhash n v V), Nm, Z.ltb_irrefl, (wants_len c w Wc), <- (name_length n v V), Nm,
    Nat.eqb_refl, (wants_rndhash c w Wc), (ok_rndhash n v V), Nm, Z.eqb_refl. now destruct (s_exact c).
Qed.

Lemma vartab_search_wants c : wants c w -> 0 <= s_hdist c ->
  let '(c', _, _) := vartab_search t c in
  wants c' w /\ 0 <= s_hdist c' /\ s_exact c' = s_exact c.
Proof.
  intros Wc H0. pose proof (vartab_search_cases t c H0) as S.
  destruct S as [| | | |k q c' ? ? ? ? ? ? ? [d ->]]; auto. split; [now apply wants_nearest|]. split; [|reflexivity]. cbn [nearest s_hdist].
  destruct (_ !! k); cbn [hdistance]; [apply u64_range|unfold NO_DIST; apply u64_range].
Qed.

(** A hit is the variable wanted. *)
Lemma vartab_search_hit c c' pos : wants c w -> 0 <= s_hdist c ->
  vartab_search t c = (c', pos, true) -> exists v, l !! pos = Some v /\ name v = w.
Proof.
  intros Wc H0 E. pose proof (vartab_search_cases t c H0) as S.
  rewrite E, (wants_bucket c w Wc) in S. fold n l in S. remember (c', pos, true) as r eqn:R.
  destruct S as [L|k v Ek Sk D Len| | |p q c1 Pq A Sp D Dx Pa Np _]; try discriminate; injection R as R1 R2; subst.
  - exists v. split; [exact Ek|]. pose proof (var_in n l B pos v Ek) as V. apply lexhash_short; [apply V|apply Wc|..].
    + rewrite <- (ok_lexhash n v V). apply (hdistance_zero c' w n l pos v); auto. now apply Z.eqb_eq.
    + rewrite <- (wants_len c' w Wc), (name_length n v V). exact Len.
  - rewrite (wants_text c w Wc) in *. destruct (l !! pos) as [v|] eqn:Ek; [|discriminate].
    exists v. split; [reflexivity|]. pose proof (bdistance_zero c w n l pos v Wc B Ek (Np v eq_refl)) as Dz.
    now rewrite H in Dz.
Qed.

(** The comparison of names stops at the one wanted. *)
Lemma names_reach c k p q v :
  wants c w -> l !! k = Some v -> name v = w -> (p <= q)%nat ->
  (forall j u, (j < p)%nat -> l !! j = Some u -> skips c u = true) -> (forall u, l !! p = Some u -> skips c u = false) ->
  (forall j u, (p <= j < q)%nat -> l !! j = Some u -> passes w u) -> (forall u, l !! q = Some u -> ~ passes w u) ->
  q = k.
Proof.
  intros Wc Ek Nm Pq A Sp Pa Np. pose proof (wanted_not_skipped c k v Wc Ek Nm) as NS.
  assert (P : (p <= k)%nat).
  { destruct (decide (k < p)%nat) as [L|]; [|lia]. rewrite (A k v L Ek) in NS. discriminate. }
  destruct (lookup_lt_is_Some_2 l p) as [z Ez]; [apply lookup_lt_Some in Ek; lia|].
  assert (PB := passes_before n l w B p k v Ek Nm (ex_intro _ z (conj Ez (skips_not c p z Wc Ez (Sp z Ez))))).
  destruct (Nat.lt_trichotomy q k) as [L|[L|L]]; [exfalso|exact L|exfalso].
  - destruct (lookup_lt_is_Some_2 l q) as [u Eu]; [apply lookup_lt_Some in Ek; lia|].
    apply (Np u Eu). now apply (PB q u).
  - specialize (Pa k v ltac:(lia) Ek). unfold passes in Pa. rewrite Nm, compare_refl in Pa. now destruct Pa.
Qed.

(** A miss of an exact search: it is not there. *)
Lemma vartab_search_exact c c' pos : wants c w -> 0 <= s_hdist c -> s_exact c = true ->
  vartab_search t c = (c', pos, false) -> ~ holds l w.
Proof.
  intros Wc H0 X E (v & I & Nm). apply list_elem_of_lookup in I as [k Ek].
  pose proof (vartab_search_cases t c H0) as S. rewrite E, (wants_bucket c w Wc) in S. fold n l in S.
  pose proof (wanted_not_skipped c k v Wc Ek Nm) as NS. pose proof (var_in n l B k v Ek) as V.
  remember (c', pos, false) as r eqn:R. destruct S as [L|k' v' ? ? ? ?|p A Sp D _|? ? ? X'|p q c1 Pq A Sp D Dx Pa Np _].
  - rewrite L in Ek. discriminate.
  - discriminate.
  - destruct (decide (p = k)) as [->|Ne].
    { apply D. rewrite Ek. apply Z.eqb_eq, (hdistance_zero c w n l k v); auto. now rewrite (ok_lexhash n v V), Nm. }
    assert (P : (p < k)%nat) by (destruct (decide (k < p)%nat) as [L|]; [rewrite (A k v L Ek) in NS; discriminate|lia]).
    destruct (lookup_lt_is_Some_2 l p) as [u Eu]; [apply lookup_lt_Some in Ek; lia|]. specialize (Sp u Eu).
    assert (Hu : v_lexhash u <> var_lexhash w).
    { intros Hu. apply D. rewrite Eu. apply Z.eqb_eq, (hdistance_zero c w n l p u); auto. }
    pose proof (skips_not c p u Wc Eu Sp) as Hle. unfold skips in Sp. rewrite X in Sp. apply orb_false_iff in Sp as [_ Sp].
    cbn [andb] in Sp. apply orb_false_iff in Sp as [Sl _]. apply negb_false_iff, Nat.eqb_eq in Sl.
    pose proof (var_in n l B p u Eu) as U. destruct (ok_order n l B p k u v P Eu Ek) as [NA _]. rewrite Nm in NA.
    pose proof (lexhash_compare (name u) w (ok_name n u U) (wants_name c w Wc)) as C.
    rewrite <- (ok_lexhash n u U) in C. pose proof (compare_longer (name u) w) as Lg.
    rewrite (name_length n u U), <- Sl, (wants_len c w Wc) in Lg. unfold after in NA.
    destruct (compare (name u) w) eqn:Cm; try lia; try (now apply NA);
      [specialize (Lg eq_refl); lia|]. rewrite (ok_lexhash n u U), C in Hu. now apply Hu.
  - congruence.
  - rewrite (wants_text c w Wc) in *. injection R as _ _ R.
    pose proof (names_reach c k p q v Wc Ek Nm ltac:(lia) A Sp Pa Np) as ->.
    rewrite Ek in R. unfold bdistance in R. rewrite Nm, compare_refl in R. discriminate.
Qed.

(** A miss of a search for a place: it is the gap. *)
Lemma vartab_search_gap c c' pos : wants c w -> s_exact c = false -> s_hdist c = NO_DIST ->
  vartab_search t c = (c', pos, false) -> exists p, gap l w p pos.
Proof.
  intros Wc X H0 E.
  pose proof (vartab_search_cases t c ltac:(rewrite H0; apply u64_range)) as S.
  rewrite E, (wants_bucket c w Wc) in S. fold n l in S.
  remember (c', pos, false) as r eqn:R. destruct S as [L|k' v' ? ? ? ?|p A Sp D X'|p Far _ _|p q c1 Pq A Sp D Dx Pa Np _].
  - exists O. injection R as _ <-. rewrite L. now constructor.
  - discriminate.
  - congruence.
  - rewrite H0 in Far. destruct (l !! p); cbn [hdistance] in Far; [|lia].
    pose proof (u64_range (v_lexhash v - s_lexhash c)) as U. unfold in_u64 in U.
    change NO_DIST with (2 ^ 64 - 1) in Far. lia.
  - rewrite (wants_text c w Wc) in *. injection R as _ <- R. exists p. constructor.
    + exact Pq.
    + intros k v K Ek. specialize (A k v K Ek). rewrite (skips_smaller c v Wc X) in A. now apply Z.ltb_lt.
    + intros v Ev. apply (skips_not c p v Wc Ev (Sp v Ev)).
    + exact Pa.
    + intros v Ev. rewrite Ev in R. pose proof (bdistance_zero c w n l q v Wc B Ev (Np v Ev)) as Bz. now rewrite R in Bz.
Qed.

(** A bucket of smaller names only does not bring the search nearer. *)
Lemma vartab_search_clear c c' pos hit : wants c w -> s_exact c = false -> s_hdist c = NO_DIST ->
  clear l w = true -> vartab_search t c = (c', pos, hit) -> hit = false /\ s_hdist c' = NO_DIST.
Proof.
  intros Wc X H0 Cl E.
  assert (Sm : forall k v, l !! k = Some v -> skips c v = true).
  { intros k v Ek. rewrite (skips_smaller c v Wc X). unfold clear in Cl. rewrite forallb_forall in Cl.
    apply Cl, list_elem_of_In, (list_elem_of_lookup_2 _ _ _ Ek). }
  pose proof (vartab_search_cases t c ltac:(rewrite H0; apply u64_range)) as S.
  rewrite E, (wants_bucket c w Wc) in S. fold n l in S.
  remember (c', pos, hit) as r eqn:R.
  destruct S as [L|k v Ek Sk ? ?|p A Sp D X'|p Far _ _|p q c1 Pq A Sp D Dx Pa Np [d C1]]; injection R as R1 R2 R3;
    subst c' pos hit.
  - auto.
  - rewrite (Sm k v Ek) in Sk. discriminate.
  - auto.
  - auto.
  - assert (Pn : l !! p = None).
    { destruct (l !! p) as [u|] eqn:Eu; [|reflexivity]. specialize (Sp u eq_refl).
      now rewrite (Sm p u Eu) in Sp. }
    assert (Qn : l !! q = None) by (apply lookup_ge_None in Pn; apply lookup_ge_None; lia).
    subst c1. rewrite Pn, Qn. auto.
Qed.
End search.
