(* ===== verification/VartabProps.v ===== *)
(** * What variables promise

    The stack of tables is a map from names to variables, the innermost
    declaration first; assigning changes one name; a function's locals leave
    with its table. *)

From S2P Require Import Prelude Chars VarHash Vartab VartabSearch.

(** ** The specification: the first table that holds the name *)

Definition find_in (w : bytes) (l : list var) : option var := List.find (fun v => bool_decide (name v = w)) l.

Fixpoint find_var (w : bytes) (st : list vartab) : option var :=
  match st with
  | [] => None
  | t :: st => match find_in w (bucket_of t (bucket w)) with Some v => Some v | None => find_var w st end
  end.

Definition value_of (v : var) : bytes := drop (v_offset v) (v_sa v).

Definition stack_ok (st : list vartab) : Prop := Forall table_ok st.

(** [s] is the name [w] alone or with a value. *)
Definition spells (s w : bytes) : Prop := s = w \/ exists t, s = w ++ ch "=" :: t.

Definition held (t : vartab) (w : bytes) : bool := existsb (fun v => bool_decide (name v = w)) (bucket_of t (bucket w)).

(** No table above the one that holds [w], or above the outermost, has a name
    of a larger hash in its bucket: such a name would end the search in the
    tables below (see [carried_distance]). *)
Fixpoint reachable (st : list vartab) (w : bytes) : bool :=
  match st with
  | [] | [_] => true
  | t :: st => held t w || (clear (bucket_of t (bucket w)) w && reachable st w)
  end.

(** What functions' tables hold was made by [local] or in front of a command. *)
Fixpoint scoped (st : list vartab) : bool :=
  match st with
  | [] => false
  | t :: st =>
      if t_function t then forallb (forallb (fun v => flag (v_flags v) V_LOCAL)) (t_table t) && scoped st else true
  end.

(** ** Buckets *)

Lemma held_holds t w : held t w = true <-> holds (bucket_of t (bucket w)) w.
Proof.
  unfold held, holds. rewrite existsb_exists. split; intros (v & I & E); exists v;
    (split; [now apply list_elem_of_In|]); [now apply bool_decide_eq_true_1 in E|now apply bool_decide_eq_true_2].
Qed.

Lemma find_in_none w l : find_in w l = None <-> ~ holds l w.
Proof.
  unfold find_in, holds. induction l as [|v l IH]; cbn.
  - split; [|easy]. intros _ (v & I & _). now apply not_elem_of_nil in I.
  - destruct (bool_decide_reflect (name v = w)) as [E|E].
    + split; [easy|]. intros N. exfalso. apply N. exists v. split; [constructor|exact E].
    + rewrite IH. split; intros N (u & I & Eu); apply N.
      * apply elem_of_cons in I as [->|I]; [easy|now exists u].
      * exists u. split; [now constructor|exact Eu].
Qed.

Lemma find_in_at w n l k v : bucket_ok n l -> l !! k = Some v -> name v = w -> find_in w l = Some v.
Proof.
  intros B E Nm. destruct (find_in w l) as [u|] eqn:F.
  - unfold find_in in F. apply find_some in F as [I Nu]. apply bool_decide_eq_true_1 in Nu.
    apply list_elem_of_In, list_elem_of_lookup in I as [j J].
    assert (j = k) as -> by (apply (same_place n l B j k u v J E); congruence). congruence.
  - apply find_in_none in F. exfalso. apply F. exists v. split; [now apply (list_elem_of_lookup_2 _ k)|exact Nm].
Qed.

Lemma find_in_insert u pos v l : name v <> u -> (pos <= List.length l)%nat -> find_in u (insert_at pos v l) = find_in u l.
Proof.
  intros Ne. revert l. unfold find_in. induction pos as [|pos IH]; intros [|x l] L; cbn in *; try lia;
    rewrite ?bool_decide_eq_false_2 by exact Ne; try reflexivity.
  destruct (bool_decide (name x = u)); [reflexivity|]. apply IH. lia.
Qed.

Lemma find_in_alter u k v l x :
  name v <> u -> l !! k = Some x -> name x <> u -> find_in u (alter (fun _ => v) k l) = find_in u l.
Proof.
  intros Ne. revert k. unfold find_in. induction l as [|y l IH]; intros [|k] E Nx; cbn in *; try easy.
  - injection E as ->. now rewrite !bool_decide_eq_false_2.
  - destruct (bool_decide (name y = u)); [reflexivity|]. now apply IH.
Qed.

Lemma bucket_of_with_same n f t : (n < List.length (t_table t))%nat -> bucket_of (with_bucket n f t) n = f (bucket_of t n).
Proof.
  intros L. unfold bucket_of, with_bucket. cbn. rewrite list_lookup_alter_eq.
  destruct (lookup_lt_is_Some_2 (t_table t) n L) as [l ->]. reflexivity.
Qed.

Lemma bucket_of_with_other n m f t : n <> m -> bucket_of (with_bucket n f t) m = bucket_of t m.
Proof. intros Ne. unfold bucket_of, with_bucket. cbn. now rewrite list_lookup_alter_ne. Qed.

Lemma with_bucket_ok n f t : table_ok t -> (n < 64)%nat -> bucket_ok n (f (bucket_of t n)) -> table_ok (with_bucket n f t).
Proof.
  intros [L B] N F. split; [unfold with_bucket; cbn; now rewrite length_alter|].
  intros m. destruct (decide (n = m)) as [<-|Ne].
  - rewrite bucket_of_with_same by lia. exact F.
  - now rewrite bucket_of_with_other.
Qed.

(** The order sees names and hashes only. *)
Lemma bucket_ok_replace n l k v x :
  bucket_ok n l -> l !! k = Some x -> var_ok n v -> name v = name x -> bucket_ok n (alter (fun _ => v) k l).
Proof.
  intros B E V Nm. assert (Hl : v_lexhash v = v_lexhash x).
  { rewrite (ok_lexhash n v V), (ok_lexhash n x (var_in n l B k x E)). now rewrite Nm. }
  assert (Look : forall i u, alter (fun _ => v) k l !! i = Some u ->
    exists u', l !! i = Some u' /\ name u = name u' /\ v_lexhash u = v_lexhash u').
  { intros i u. destruct (decide (i = k)) as [->|Ne].
    - rewrite list_lookup_alter_eq, E. intros [= <-]. now exists x.
    - rewrite list_lookup_alter_ne by congruence. eauto. }
  constructor.
  - apply Forall_lookup. intros i u Eu. destruct (decide (i = k)) as [->|Ne].
    + rewrite list_lookup_alter_eq, E in Eu. now injection Eu as <-.
    + rewrite list_lookup_alter_ne in Eu by congruence. now apply (var_in n l B i).
  - assert (map name (alter (fun _ => v) k l) = map name l) as ->; [|apply B].
    apply list_eq. intros i. rewrite !list_lookup_fmap. destruct (decide (i = k)) as [->|Ne].
    + rewrite list_lookup_alter_eq, E. cbn. now rewrite Nm.
    + now rewrite list_lookup_alter_ne by congruence.
  - intros i j a c Lt Ea Ec. apply Look in Ea as (a' & Ea & Na & Ha). apply Look in Ec as (c' & Ec & Nc & Hc).
    destruct (ok_order n l B i j a' c' Lt Ea Ec) as [NA Sh]. unfold in_order. rewrite Na, Nc. split; [exact NA|].
    intros S p t P Et. apply Look in Et as (t' & Et & _ & Ht). rewrite Ht, Hc. now apply (Sh S p).
Qed.

(** ** Places *)

Record at_first (st : list vartab) (w : bytes) (p : nat * nat) (v : var) : Prop :=
  { at_table : exists t, st !! fst p = Some t /\ bucket_of t (bucket w) !! snd p = Some v;
    at_name : name v = w;
    at_above : forall i t, (i < fst p)%nat -> st !! i = Some t -> ~ holds (bucket_of t (bucket w)) w }.

Lemma at_first_var st w p v : at_first st w p v -> var_at st (bucket w) p = Some v.
Proof. intros [(t & T & E) _ _]. unfold var_at. now rewrite T. Qed.

Lemma table_at st i t : stack_ok st -> st !! i = Some t -> table_ok t.
Proof. intros K. apply (Forall_lookup_1 _ _ _ _ K). Qed.

Lemma var_at_first st w p v : stack_ok st -> at_first st w p v -> var_ok (bucket w) v.
Proof.
  intros K [(t & T & E) _ _]. apply (var_in _ _ (proj2 (table_at st _ t K T) (bucket w)) (snd p) v E).
Qed.

Lemma find_var_first st w p v : stack_ok st -> at_first st w p v -> find_var w st = Some v.
Proof.
  destruct p as [i k]. intros K A. revert i A. induction K as [|t st T K IH]; intros i A.
  - destruct A as [(t & E & _) _ _]. discriminate.
  - cbn [find_var]. destruct i as [|i].
    + destruct A as [(t' & E & Ek) Nm _]. injection E as <-. cbn [fst snd] in *.
      now rewrite (find_in_at w _ _ k v (proj2 T _) Ek Nm).
    + assert (~ holds (bucket_of t (bucket w)) w) as N by (apply (at_above _ _ _ _ A O); [cbn; lia|reflexivity]).
      apply find_in_none in N. rewrite N. apply (IH i). destruct A as [(t' & E & Ek) Nm Ab]. constructor.
      * exists t'. now split.
      * exact Nm.
      * intros j u J. apply (Ab (S j) u). cbn in *. lia.
Qed.

Lemma find_var_none st w :
  (forall i t, st !! i = Some t -> ~ holds (bucket_of t (bucket w)) w) -> find_var w st = None.
Proof.
  induction st as [|t st IH]; intros N; [reflexivity|]. cbn [find_var].
  rewrite (proj2 (find_in_none w _) (N O t eq_refl)). apply IH. intros i u. apply (N (S i)).
Qed.

(** ** The two searches of the stack *)

Section searches.
Context (w : bytes).

Lemma at_first_S t st i k v :
  ~ holds (bucket_of t (bucket w)) w -> at_first st w (i, k) v -> at_first (t :: st) w (S i, k) v.
Proof.
  intros N [(t' & E & Ek) Nm Ab]. constructor; [now exists t'|exact Nm|].
  intros [|j] u J; cbn in *; [now intros [= <-]|apply Ab; lia].
Qed.

(** What a search of the whole stack answers *)
Definition answers (st : list vartab) (i : nat) (r : option (nat * nat)) : Prop :=
  match r with
  | Some (j, k) => (i <= j)%nat /\ exists v, at_first st w ((j - i)%nat, k) v
  | None => forall m t, st !! m = Some t -> ~ holds (bucket_of t (bucket w)) w
  end.

Lemma answers_hit t st i k v : bucket_of t (bucket w) !! k = Some v -> name v = w -> answers (t :: st) i (Some (i, k)).
Proof.
  intros E Nm. split; [lia|]. exists v. rewrite Nat.sub_diag. constructor; [now exists t|exact Nm|cbn; lia].
Qed.

Lemma answers_miss t st i r :
  ~ holds (bucket_of t (bucket w)) w -> answers st (S i) r -> answers (t :: st) i r.
Proof.
  intros N A. destruct r as [[j k]|]; cbn in *.
  - destruct A as (L & v & A). split; [lia|]. exists v. replace (j - i)%nat with (S (j - S i)) by lia.
    now apply at_first_S.
  - intros [|m] u; cbn; [now intros [= <-]|apply A].
Qed.

Lemma search_tables_exact st c i :
  stack_ok st -> wants c w -> 0 <= s_hdist c -> s_exact c = true -> answers st i (snd (search_tables st c i)).
Proof.
  intros K. revert c i. induction K as [|t st T K IH]; intros c i Wc H0 X; [now intros m t|].
  cbn [search_tables]. destruct (vartab_search t c) as [[c' pos] hit] eqn:E.
  pose proof (vartab_search_wants t w c Wc H0) as P. rewrite E in P. destruct P as (Wc' & H0' & X').
  destruct hit.
  - destruct (vartab_search_hit t w T c c' pos Wc H0 E) as (v & Ek & Nm). now apply (answers_hit t st i pos v).
  - pose proof (vartab_search_exact t w T c c' pos Wc H0 X E) as N. specialize (IH c' (S i) Wc' H0' ltac:(congruence)).
    destruct (search_tables st c' (S i)) as [ps r]. cbn [snd] in *. now apply answers_miss.
Qed.

(** The places found missing on the way *)
Definition gaps (st : list vartab) (ps : list nat) : Prop :=
  forall m pos, ps !! m = Some pos -> exists t p, st !! m = Some t /\ gap (bucket_of t (bucket w)) w p pos.

Lemma search_tables_near st c i :
  stack_ok st -> wants c w -> s_hdist c = NO_DIST -> s_exact c = false -> reachable st w = true ->
  let '(ps, r) := search_tables st c i in
  answers st i r /\ gaps st ps /\ List.length ps = match r with Some (j, _) => (j - i)%nat | None => List.length st end.
Proof.
  intros K. revert c i. induction K as [|t st T K IH]; intros c i Wc H0 X R; [now split|].
  cbn [search_tables]. destruct (vartab_search t c) as [[c' pos] hit] eqn:E.
  assert (H0' : 0 <= s_hdist c) by (rewrite H0; apply u64_range).
  pose proof (vartab_search_wants t w c Wc H0') as P. rewrite E in P. destruct P as (Wc' & _ & X'). destruct hit.
  { destruct (vartab_search_hit t w T c c' pos Wc H0' E) as (v & Ek & Nm).
    split; [now apply (answers_hit t st i pos v)|]. split; [easy|]. now rewrite Nat.sub_diag. }
  destruct (vartab_search_gap t w T c c' pos Wc X H0 E) as [p G].
  pose proof (gap_not_held _ _ w (proj2 T (bucket w)) p pos G) as N.
  assert (Gs : forall ps, gaps st ps -> gaps (t :: st) (pos :: ps)).
  { intros ps Gp [|m] q; cbn; [intros [= <-]; now exists t, p|apply Gp]. }
  destruct st as [|t2 st].
  { cbn. split; [now intros [|m] u; [intros [= <-]|]|]. split; [|reflexivity]. apply (Gs []). now intros m q. }
  assert (hd : held t w = false) by (destruct (held t w) eqn:D; [now apply held_holds in D|reflexivity]).
  cbn [reachable] in R. rewrite hd in R. apply andb_true_iff in R as [Cl R].
  destruct (vartab_search_clear t w c c' pos false Wc X H0 Cl E) as [_ H1].
  specialize (IH c' (S i) Wc' H1 ltac:(congruence) R).
  destruct (search_tables (t2 :: st) c' (S i)) as [ps r]. destruct IH as (A & Gp & L).
  split; [now apply answers_miss|]. split; [now apply Gs|]. cbn [List.length]. rewrite L.
  destruct r as [[j k]|]; [|reflexivity]. destruct A as [A _]. lia.
Qed.
End searches.

Lemma spells_bucket s w : is_varname w -> spells s w -> bucket s = bucket w.
Proof. intros W [->|[t ->]]; [reflexivity|now apply bucket_name]. Qed.

Lemma spells_take s w : spells s w -> take (List.length w) s = w.
Proof. intros [->|[t ->]]; [apply firstn_all|apply take_app_length]. Qed.

Lemma var_search_answers st s w :
  stack_ok st -> is_varname w -> spells s w -> answers w st 0 (var_search st s).
Proof.
  intros K W Sp. apply search_tables_exact; auto.
  - apply wants_exactly, wants_hash; auto.
  - cbn. apply u64_range.
Qed.

Lemma lookup_found st s w :
  stack_ok st -> is_varname w -> spells s w ->
  match var_search st s with Some p => var_at st (bucket s) p | None => None end = find_var w st.
Proof.
  intros K W Sp. pose proof (var_search_answers st s w K W Sp) as A. rewrite (spells_bucket s w W Sp).
  destruct (var_search st s) as [[j k]|].
  - destruct A as (_ & v & A). rewrite Nat.sub_0_r in A. rewrite (at_first_var st w (j, k) v A).
    symmetry. now apply (find_var_first st w (j, k)).
  - symmetry. now apply find_var_none.
Qed.

Lemma var_value_spec x s w :
  stack_ok (varstack x) -> is_varname w -> spells s w ->
  var_value x s = match find_var w (varstack x) with Some v => value_of v | None => [] end.
Proof.
  intros K W Sp. unfold var_value, var_vdefault. rewrite <- (lookup_found (varstack x) s w K W Sp).
  destruct (var_search (varstack x) s); [|reflexivity]. now destruct (var_at _ _ _).
Qed.

Lemma is_readonly_spec x s w :
  stack_ok (varstack x) -> is_varname w -> spells s w ->
  is_readonly x s = match find_var w (varstack x) with Some v => flag (v_flags v) V_READONLY | None => false end.
Proof.
  intros K W Sp. unfold is_readonly. rewrite <- (lookup_found (varstack x) s w K W Sp).
  destruct (var_search (varstack x) s); [|reflexivity]. now destruct (var_at _ _ _).
Qed.

(** ** Changing one table *)

Lemma with_bucket_of w f t m : table_ok t ->
  bucket_of (with_bucket (bucket w) f t) m = if decide (bucket w = m) then f (bucket_of t (bucket w)) else bucket_of t m.
Proof.
  intros [L _]. case_decide as D.
  - subst m. apply bucket_of_with_same. rewrite L. apply bucket_range.
  - now apply bucket_of_with_other.
Qed.

(** A change of the bucket of [w] in table [i] that only adds or replaces
    variables of that name *)
Section change.
Context (w : bytes) (W : is_varname w) (f : list var -> list var) (i : nat) (st : list vartab) (t : vartab)
  (K : stack_ok st) (T : st !! i = Some t) (F : bucket_ok (bucket w) (f (bucket_of t (bucket w))))
  (Same : forall u, u <> w -> find_in u (f (bucket_of t (bucket w))) = find_in u (bucket_of t (bucket w))).
Let st' := alter (with_bucket (bucket w) f) i st.

Lemma change_ok : stack_ok st'.
Proof.
  apply Forall_lookup. intros j u J. unfold st' in J. destruct (decide (j = i)) as [->|Ne].
  - rewrite list_lookup_alter_eq, T in J. injection J as <-.
    apply with_bucket_ok; [now apply (table_at st i)|apply bucket_range|exact F].
  - rewrite list_lookup_alter_ne in J by congruence. now apply (table_at st j).
Qed.

Lemma change_others u : u <> w -> find_var u st' = find_var u st.
Proof.
  intros Ne. unfold st'. clear st'. revert i T. induction K as [|t0 st0 T0 K0 IH]; intros [|j] T; try discriminate.
  - injection T as ->. cbn [alter list_alter find_var]. rewrite (with_bucket_of w f t _ T0).
    case_decide as D; [|reflexivity]. now rewrite (Same u Ne), D.
  - cbn. now rewrite <- (IH K0 j T).
Qed.

Lemma change_first k v :
  f (bucket_of t (bucket w)) !! k = Some v -> name v = w ->
  (forall j u, (j < i)%nat -> st !! j = Some u -> ~ holds (bucket_of u (bucket w)) w) ->
  at_first st' w (i, k) v.
Proof.
  intros E Nm Ab. constructor.
  - exists (with_bucket (bucket w) f t). cbn [fst snd]. unfold st'. rewrite list_lookup_alter_eq, T.
    split; [reflexivity|]. rewrite (with_bucket_of w f t _ (table_at st i t K T)).
    now rewrite decide_True.
  - exact Nm.
  - cbn [fst]. intros j u L J. unfold st' in J. rewrite list_lookup_alter_ne in J by lia. now apply (Ab j).
Qed.
End change.

(** Storing a variable of the same name where one was found *)
Lemma store_spec st w p v v' :
  stack_ok st -> at_first st w p v -> var_ok (bucket w) v' -> name v' = w ->
  let st' := at_place st (bucket w) p (fun _ => v') in
  stack_ok st' /\ at_first st' w p v' /\ (forall u, u <> w -> find_var u st' = find_var u st).
Proof.
  intros K [(t & T & E) Nm Ab] V' Nm'. pose proof (ok_name _ _ V') as W. rewrite Nm' in W. destruct p as [i k].
  cbn [fst snd] in *. assert (B := proj2 (table_at st i t K T) (bucket w)).
  assert (F : bucket_ok (bucket w) (alter (fun _ => v') k (bucket_of t (bucket w)))).
  { apply (bucket_ok_replace _ _ k v' v); auto. congruence. }
  unfold at_place. cbn [fst snd]. split; [|split].
  - now apply (change_ok w _ i st t).
  - apply (change_first w _ i st t K T); auto. now rewrite list_lookup_alter_eq, E.
  - intros u Ne. apply (change_others w _ i st t K T); [|exact Ne].
    intros u' Ne'. apply (find_in_alter u' k v' _ v); auto; congruence.
Qed.

(** ** var_create *)

Lemma fresh_ok s w v0 : is_varname w -> spells s w ->
  v0 = fresh s (vartab_hash s) -> name v0 = w /\ var_ok (bucket w) v0.
Proof.
  intros W Sp ->. pose proof (wants_hash s w W Sp) as Wc. pose proof (spells_take s w Sp) as Tk.
  assert (Nm : name (fresh s (vartab_hash s)) = w).
  { unfold name, fresh, var_init. cbn [v_len v_sa]. rewrite (wants_len _ w Wc), Tk. apply firstn_all. }
  split; [exact Nm|]. constructor; rewrite ?Nm; auto; cbn [fresh var_init v_len v_sa v_lexhash v_rndhash].
  - rewrite (wants_len _ w Wc), Tk. lia.
  - apply Wc.
  - apply Wc.
Qed.

Lemma shadow_ok st i old w v0 :
  name v0 = w -> var_ok (bucket w) v0 -> name old = w -> var_ok (bucket w) old ->
  name (shadow st i old v0) = w /\ var_ok (bucket w) (shadow st i old v0).
Proof.
  intros N0 V0 N1 V1. assert (L : v_len v0 = v_len old).
  { rewrite <- (name_length _ _ V0), <- (name_length _ _ V1). congruence. }
  assert (Nm : name (shadow st i old v0) = w) by (unfold name, shadow in *; cbn [v_len v_sa]; rewrite L; exact N1).
  split; [exact Nm|]. destruct V0, V1. constructor; rewrite ?Nm; auto; cbn [shadow v_len v_sa v_lexhash v_rndhash]; try congruence; lia.
Qed.

(** A new variable: empty, or the shadow of one further out *)
Definition is_new (st : list vartab) (w s : bytes) (r : option (nat * nat)) (v : var) : Prop :=
  match r with
  | Some p => exists old, find_var w st = Some old /\ v = shadow st (fst p) old (fresh s (vartab_hash s))
  | None => v = fresh s (vartab_hash s)
  end.

Lemma create_in_spec st s w ps r tab :
  stack_ok st -> is_varname w -> spells s w -> gaps w st ps -> answers w st 0 r ->
  (tab < List.length ps)%nat -> match r with Some (j, _) => (tab <= j)%nat | None => True end ->
  exists st' p v, create_in st s (vartab_hash s) ps r tab = At st' p /\
    stack_ok st' /\ at_first st' w p v /\ (forall u, u <> w -> find_var u st' = find_var u st) /\
    is_new st w s r v.
Proof.
  intros K W Sp Gp An Lt Le. destruct (lookup_lt_is_Some_2 ps tab Lt) as [pos Ps].
  destruct (Gp tab pos Ps) as (t & q & T & G). pose proof (wants_hash s w W Sp) as Wc.
  pose proof (wants_bucket _ w Wc) as Bk.
  set (v := match r with
    | Some p => match var_at st (s_bucket (vartab_hash s)) p with
                | Some old => shadow st (fst p) old (fresh s (vartab_hash s)) | None => fresh s (vartab_hash s) end
    | None => fresh s (vartab_hash s) end).
  assert (V : (name v = w /\ var_ok (bucket w) v) /\ is_new st w s r v).
  { destruct (fresh_ok s w _ W Sp eq_refl) as [N0 V0]. unfold v. destruct r as [[j k]|]; [|now split].
    destruct An as (_ & old & A). rewrite Nat.sub_0_r in A. rewrite Bk, (at_first_var st w (j, k) old A). split.
    - apply shadow_ok; auto; [apply A|now apply (var_at_first st w (j, k))].
    - exists old. split; [|reflexivity]. now apply (find_var_first st w (j, k)). }
  destruct V as ([Nm V] & New).
  assert (R : (pos <= List.length (bucket_of t (bucket w)))%nat) by apply G.
  assert (B := proj2 (table_at st tab t K T) (bucket w)).
  assert (F := bucket_ok_insert _ _ w q pos v B G V Nm).
  exists (alter (vartab_add pos (bucket w) v) tab st), (tab, pos), v. unfold create_in. rewrite Ps. fold v. rewrite Bk.
  split; [reflexivity|]. split; [now apply (change_ok w (insert_at pos v) tab st t)|]. split; [|split; [|exact New]].
  - apply (change_first w _ tab st t K T); auto.
    + rewrite insert_at_split, lookup_app_r, length_take, Nat.min_l, Nat.sub_diag by (rewrite ?length_take; lia). reflexivity.
    + intros j u L J. destruct r as [[j0 k]|].
      * destruct An as (_ & old & A). apply (at_above _ _ _ _ A j u); [cbn; lia|exact J].
      * now apply (An j u).
  - intros u Ne. apply (change_others w (insert_at pos v) tab st t K T); [|exact Ne].
    intros u' Ne'. apply find_in_insert; [congruence|exact R].
Qed.

Lemma scoped_first st : scoped st = true ->
  exists tab, first_non_function st = Some tab /\ (tab < List.length st)%nat /\
    forall j t n k v, (j < tab)%nat -> st !! j = Some t -> bucket_of t n !! k = Some v -> flag (v_flags v) V_LOCAL = true.
Proof.
  induction st as [|t st IH]; intros S; [discriminate|]. cbn [scoped first_non_function] in *.
  destruct (t_function t); [|exists O; split; [reflexivity|cbn; split; [lia|intros; lia]]].
  apply andb_true_iff in S as [L S]. destruct (IH S) as (tab & E & Lt & A). exists (Datatypes.S tab). rewrite E.
  split; [reflexivity|]. split; [cbn; lia|]. intros [|j] u n k v Lj J Ek.
  - injection J as <-. rewrite forallb_forall in L. unfold bucket_of in Ek.
    destruct (t_table t !! n) as [l|] eqn:El; [|discriminate]. cbn in Ek.
    specialize (L l (proj1 (list_elem_of_In _ _) (list_elem_of_lookup_2 _ _ _ El))). rewrite forallb_forall in L.
    apply L, list_elem_of_In, (list_elem_of_lookup_2 _ _ _ Ek).
  - apply (A j u n k v); auto. lia.
Qed.

Lemma create_spec st s w flags :
  stack_ok st -> is_varname w -> spells s w -> reachable st w = true -> scoped st = true -> flag flags V_INIT = false ->
  exists st' p v, create st s flags = At st' p /\
    stack_ok st' /\ at_first st' w p v /\ (forall u, u <> w -> find_var u st' = find_var u st) /\
    ((st' = st /\ find_var w st = Some v) \/ exists r, answers w st 0 r /\ is_new st w s r v).
Proof.
  intros K W Sp R S I. destruct (scoped_first st S) as (tab & Ft & Lt & Loc). pose proof (wants_hash s w W Sp) as Wc.
  assert (N := search_tables_near w st (vartab_hash s) 0 K Wc eq_refl eq_refl R).
  unfold create. destruct (search_tables st (vartab_hash s) 0) as [ps r]. destruct N as (An & Gp & Lp).
  assert (New : forall i, (i < List.length ps)%nat -> match r with Some (j, _) => (i <= j)%nat | None => True end ->
    exists st' p v, create_in st s (vartab_hash s) ps r i = At st' p /\ stack_ok st' /\ at_first st' w p v /\
      (forall u, u <> w -> find_var u st' = find_var u st) /\
      ((st' = st /\ find_var w st = Some v) \/ exists r, answers w st 0 r /\ is_new st w s r v)).
  { intros i Li Le. destruct (create_in_spec st s w ps r i K W Sp Gp An Li Le) as (st' & p & v & E & K' & A & O & Nw).
    exists st', p, v. split; [exact E|]. split; [exact K'|]. split; [exact A|]. split; [exact O|]. right. now exists r. }
  assert (st <> []) as Ns by (now destruct st).
  destruct r as [[j k]|].
  2:{ rewrite Ft. destruct (flag flags V_LOCAL); apply New; auto; rewrite Lp; [|lia]. destruct st; [easy|cbn; lia]. }
  rewrite I. pose proof An as (_ & v & A). rewrite Nat.sub_0_r in A. rewrite (wants_bucket _ w Wc), (at_first_var st w (j, k) v A).
  rewrite Nat.sub_0_r in Lp. cbn [fst].
  assert (Old : exists st' p v, At st (j, k) = At st' p /\ stack_ok st' /\ at_first st' w p v /\
      (forall u, u <> w -> find_var u st' = find_var u st) /\
      ((st' = st /\ find_var w st = Some v) \/ exists r, answers w st 0 r /\ is_new st w s r v)).
  { exists st, (j, k), v. pose proof (find_var_first st w (j, k) v K A). auto 8. }
  destruct (Nat.eqb_spec j 0) as [->|Nj]; [exact Old|]. cbn [orb].
  destruct (flag (v_flags v) V_LOCAL) eqn:Lv; [exact Old|].
  destruct (flag flags V_LOCAL); [apply New; lia|]. rewrite Ft.
  destruct (Nat.eqb_spec j tab) as [->|Nt]; [exact Old|].
  assert (tab < j)%nat; [|apply New; lia].
  destruct (decide (j < tab)%nat) as [L|]; [|lia]. destruct A as [(t & T & E) _ _]. cbn [fst snd] in *.
  rewrite (Loc j t (bucket w) k v L T E) in Lv. discriminate.
Qed.

(** A variable the innermost table holds is found there. *)
Lemma create_top t st s w flags :
  stack_ok (t :: st) -> is_varname w -> spells s w -> reachable (t :: st) w = true -> held t w = true ->
  flag flags V_INIT = false -> exists p, create (t :: st) s flags = At (t :: st) p.
Proof.
  intros K W Sp R H I. pose proof (wants_hash s w W Sp) as Wc. apply held_holds in H.
  assert (N := search_tables_near w (t :: st) (vartab_hash s) 0 K Wc eq_refl eq_refl R).
  unfold create. destruct (search_tables (t :: st) (vartab_hash s) 0) as [ps r]. destruct N as (An & _ & _).
  destruct r as [[j k]|]; [|by destruct (An O t)]. destruct An as (_ & v & A). rewrite Nat.sub_0_r in A.
  rewrite I. assert (j = O) as -> by (destruct j as [|j]; [done|destruct (at_above _ _ _ _ A O t); [cbn; lia|done|exact H]]).
  exists (O, k). reflexivity.
Qed.

(** ** Assigning *)

(** What is left of a variable whose assignment was refused: the variable
    itself, or a new one in front of it that borrows its string and has no
    value of its own (it reads from the "=" on). *)
Definition still (w : bytes) (v v' : var) : Prop :=
  v_sa v' = v_sa v /\ flag (v_flags v') V_READONLY = true /\
  (v' = v \/ v_owned v' = false /\ v_offset v' = List.length w).

Lemma flag_inherited f : flag (Z.lor (Z.lor V_UNSET V_FREE) (Z.land f V_READONLY)) V_READONLY = flag f V_READONLY.
Proof.
  unfold flag. rewrite Z.land_lor_distr_l, <- Z.land_assoc. reflexivity.
Qed.

(** The variable var_create answers is read-only when the visible one is. *)
Lemma created_readonly st st' w s v r :
  (st' = st /\ find_var w st = Some v) \/ (exists r, answers w st 0 r /\ is_new st w s r v) ->
  r = match find_var w st with Some v => flag (v_flags v) V_READONLY | None => false end ->
  flag (v_flags v) V_READONLY = r.
Proof.
  intros [[_ ->]|(p & An & Nw)] ->; [reflexivity|]. destruct p as [p|]; cbn in Nw.
  - destruct Nw as (old & -> & ->). apply flag_inherited.
  - subst v. rewrite (find_var_none st w An). reflexivity.
Qed.

Lemma created_still st st' w s p v :
  stack_ok st' -> at_first st' w p v -> is_varname w -> spells s w ->
  (st' = st /\ find_var w st = Some v) \/ (exists r, answers w st 0 r /\ is_new st w s r v) ->
  match find_var w st with Some v => flag (v_flags v) V_READONLY | None => false end = true ->
  exists old, find_var w st = Some old /\ find_var w st' = Some v /\ still w old v.
Proof.
  intros K A W Sp Or Ro. pose proof (find_var_first st' w p v K A) as F.
  pose proof (created_readonly _ _ w s v _ Or eq_refl) as Fl. rewrite Ro in Fl.
  destruct Or as [[_ F0]|(r & An & Nw)].
  { exists v. split; [exact F0|]. split; [exact F|]. split; [done|]. split; [exact Fl|by left]. }
  destruct r as [q|]; cbn in Nw; [|by rewrite (find_var_none st w An) in Ro].
  destruct Nw as (old & F0 & E). exists old. split; [exact F0|]. split; [exact F|]. subst v.
  split; [done|]. split; [exact Fl|]. right. split; [done|]. apply (wants_len _ w (wants_hash s w W Sp)).
Qed.

Lemma with_value_ok n v sa o off fl :
  var_ok n v -> take (v_len v) sa = name v -> (v_len v <= List.length sa)%nat ->
  name (with_value v sa o off fl) = name v /\ var_ok n (with_value v sa o off fl).
Proof.
  intros V T L. assert (Nm : name (with_value v sa o off fl) = name v) by exact T. split; [exact Nm|].
  destruct V. constructor; rewrite ?Nm; auto.
Qed.

(** The text var_setv stores *)
Definition setv_text (s : bytes) (v : var) : bytes := take (v_len v) (if v_owned v then v_sa v else s) ++ [ch "="].

Lemma setv_text_name n s w v : var_ok n v -> name v = w -> spells s w -> setv_text s v = w ++ [ch "="].
Proof.
  intros V Nm Sp. unfold setv_text. f_equal. destruct (v_owned v); [exact Nm|].
  rewrite <- (name_length n v V), Nm. now apply spells_take.
Qed.

Lemma setv_ok n s w v value o fl :
  var_ok n v -> name v = w -> spells s w ->
  let v' := with_value v (setv_text s v ++ value) o (List.length (setv_text s v)) fl in
  name v' = w /\ var_ok n v' /\ value_of v' = value.
Proof.
  intros V Nm Sp v'. pose proof (setv_text_name n s w v V Nm Sp) as T. pose proof (name_length n v V) as L. rewrite Nm in L.
  destruct (with_value_ok n v (setv_text s v ++ value) o (List.length (setv_text s v)) fl V) as [N V'].
  - rewrite T, <- app_assoc, <- L, take_app_length. now symmetry.
  - rewrite T, !length_app. lia.
  - split; [now rewrite <- Nm|]. split; [exact V'|]. unfold v', value_of. cbn. now rewrite drop_app_length.
Qed.

Section assign.
Context (x : vars) (s w value : bytes) (flags : Z) (allexport : bool)
  (K : stack_ok (varstack x)) (W : is_varname w) (Sp : spells s w)
  (R : reachable (varstack x) w = true) (S : scoped (varstack x) = true) (I : flag flags V_INIT = false).

Lemma var_setv_runs :
  exists x', stack_ok (varstack x') /\ (forall u, u <> w -> find_var u (varstack x') = find_var u (varstack x)) /\
    (if is_readonly x s then var_setv allexport x s value flags = Readonly x' /\
       (exists v v', find_var w (varstack x) = Some v /\ find_var w (varstack x') = Some v' /\ still w v v') /\
       (match varstack x with t :: _ => held t w = true | [] => False end -> varstack x' = varstack x)
     else var_setv allexport x s value flags = Done x' /\
       exists v, find_var w (varstack x') = Some v /\ value_of v = value).
Proof.
  destruct (create_spec (varstack x) s w flags K W Sp R S I) as (st & p & v & E & K' & A & O & Or).
  pose proof (created_readonly _ _ w s v _ Or (is_readonly_spec x s w K W Sp)) as Ro.
  unfold var_setv, var_create. rewrite E, (spells_bucket s w W Sp), (at_first_var st w p v A), Ro.
  destruct (is_readonly x s) eqn:RO.
  { eexists. split; [|split; [|split; [reflexivity|split]]]; [exact K'|exact O|..].
    - rewrite (is_readonly_spec x s w K W Sp) in RO.
      destruct (created_still _ st w s p v K' A W Sp Or RO) as (old & F0 & F & St). by exists old, v.
    - destruct (varstack x) as [|t st0]; [done|]. intros H.
      destruct (create_top t st0 s w flags K W Sp R H I) as [q C]. rewrite E in C. by injection C. }
  pose proof (var_at_first st w p v K' A) as V.
  destruct (setv_ok _ s w v value true
    (is_set (Z.lor (v_flags v) (if allexport then Z.lor flags V_EXPORT else flags))) V (at_name _ _ _ _ A) Sp) as (Nm & V' & Val).
  destruct (store_spec st w p v _ K' A V' Nm) as (K2 & A2 & O2).
  eexists. split; [|split; [|split; [reflexivity|]]]; unfold store; cbn [varstack];
    rewrite (spells_bucket s w W Sp).
  - exact K2.
  - intros u Ne. unfold setv_text in O2. rewrite (O2 u Ne). now apply O.
  - eexists. split; [exact (find_var_first _ w p _ K2 A2)|exact Val].
Qed.
End assign.

(** C15: The stack of hash tables is a map: searching it for a name, alone or
    with "=value" behind, finds the variable of that name in the first table
    that has one, and nothing exactly when no table does. *)
Theorem var_search_first st s w :
  stack_ok st -> is_varname w -> spells s w ->
  match var_search st s with
  | Some p => exists v, var_at st (bucket w) p = Some v /\ name v = w /\ find_var w st = Some v
  | None => find_var w st = None
  end.
Proof.
  intros K W Sp. pose proof (var_search_answers st s w K W Sp) as A. destruct (var_search st s) as [[j k]|].
  - destruct A as (_ & v & A). rewrite Nat.sub_0_r in A. exists v.
    split; [now apply at_first_var|]. split; [apply A|]. now apply (find_var_first st w (j, k)).
  - now apply find_var_none.
Qed.

(** C16: Assigning to a variable that is not read-only succeeds: its value is then
    the one assigned, every other variable has the value it had, and the tables
    are in order again. The flags are without V_INIT (with it var_create finds
    a variable but answers NULL), and the stack is one on which the search finds its
    way, which the code does not ensure by itself: no table above the one that
    holds the name has a name of a larger hash in its bucket ([reachable]; see
    [carried_distance] for what happens otherwise), some table is no
    function's, and the functions' tables above it hold nothing but locals
    ([scoped]; see [assign_below_refused_local]). *)
Theorem var_setv_reads_back allexport x w value flags :
  stack_ok (varstack x) -> is_varname w -> reachable (varstack x) w = true -> scoped (varstack x) = true ->
  flag flags V_INIT = false -> is_readonly x w = false ->
  exists x', var_setv allexport x w value flags = Done x' /\ var_value x' w = value /\
    (forall u, is_varname u -> u <> w -> var_value x' u = var_value x u) /\ stack_ok (varstack x').
Proof.
  intros K W R S I Ro. assert (Sp : spells w w) by now left.
  destruct (var_setv_runs x w w value flags allexport K W Sp R S I) as (x' & K' & O & E).
  rewrite Ro in E. destruct E as (E & v & F & Val). exists x'. split; [exact E|]. split; [|split; [|exact K']].
  - now rewrite (var_value_spec x' w w K' W Sp), F.
  - intros u U Ne. rewrite (var_value_spec x' u u), (var_value_spec x u u) by (auto; now left). now rewrite O.
Qed.

(** C32: A read-only variable is not assigned: var_setv answers with the error
    and the variable stays read-only. If the innermost table holds it, the
    whole stack is as it was. If not, the visible variable is the same one, or
    a new one in front of it that borrows its string "name=value" and reads
    from the "=" on ([still]; see [local_of_readonly_reads_eq]): the value
    assigned is nowhere. No other variable has another value, and the tables
    are in order. As in an assignment that succeeds, the flags are without
    V_INIT and the stack is [reachable] for the name and [scoped]. *)
Theorem var_setv_readonly allexport x w value flags :
  stack_ok (varstack x) -> is_varname w -> reachable (varstack x) w = true -> scoped (varstack x) = true ->
  flag flags V_INIT = false -> is_readonly x w = true ->
  exists x', var_setv allexport x w value flags = Readonly x' /\ is_readonly x' w = true /\
    (exists v v', find_var w (varstack x) = Some v /\ find_var w (varstack x') = Some v' /\ still w v v') /\
    (match varstack x with t :: _ => held t w = true | [] => False end -> varstack x' = varstack x) /\
    (forall u, is_varname u -> u <> w -> var_value x' u = var_value x u) /\ stack_ok (varstack x').
Proof.
  intros K W R S I Ro. assert (Sp : spells w w) by now left.
  destruct (var_setv_runs x w w value flags allexport K W Sp R S I) as (x' & K' & O & E).
  rewrite Ro in E. destruct E as (E & (v & v' & F & F' & St) & Top). exists x'. split; [exact E|].
  split; [by rewrite (is_readonly_spec x' w w K' W Sp), F'; apply St|]. split; [by exists v, v'|].
  split; [exact Top|]. split; [|exact K'].
  intros u U Ne. rewrite (var_value_spec x' u u), (var_value_spec x u u) by (auto; now left). now rewrite O.
Qed.

(** ** The scope of a function *)

(** No table holds a variable made by [local] or in front of a command. *)
Definition no_locals (st : list vartab) : bool :=
  forallb (fun t => forallb (forallb (fun v => negb (flag (v_flags v) V_LOCAL))) (t_table t)) st.

Lemma no_locals_at st n p v : no_locals st = true -> var_at st n p = Some v -> flag (v_flags v) V_LOCAL = false.
Proof.
  unfold no_locals, var_at, bucket_of. rewrite forallb_forall. intros N E. destruct p as [i k]. cbn [fst snd] in E.
  destruct (st !! i) as [t|] eqn:T; [|easy]. cbn in E.
  destruct (t_table t !! n) as [l|] eqn:L; [|easy]. cbn in E.
  specialize (N t (proj1 (list_elem_of_In _ _) (list_elem_of_lookup_2 _ _ _ T))). rewrite forallb_forall in N.
  specialize (N l (proj1 (list_elem_of_In _ _) (list_elem_of_lookup_2 _ _ _ L))). rewrite forallb_forall in N.
  specialize (N v (proj1 (list_elem_of_In _ _) (list_elem_of_lookup_2 _ _ _ E))). now apply negb_true_iff in N.
Qed.

(** Whatever it carries from table to table, the search finds the name wanted. *)
Lemma search_tables_sound w st c i ps j k :
  stack_ok st -> wants c w -> 0 <= s_hdist c -> search_tables st c i = (ps, Some (j, k)) ->
  (i <= j)%nat /\ exists v, var_at st (bucket w) ((j - i)%nat, k) = Some v /\ name v = w.
Proof.
  intros K. revert c i ps. induction K as [|t st T K IH]; intros c i ps Wc H0 E; [discriminate|].
  cbn [search_tables] in E. destruct (vartab_search t c) as [[c' pos] hit] eqn:Et.
  pose proof (vartab_search_wants t w c Wc H0) as P. rewrite Et in P. destruct P as (Wc' & H0' & _). destruct hit.
  - injection E as _ <- <-. split; [lia|]. rewrite Nat.sub_diag. now apply (vartab_search_hit t w T c c').
  - destruct (search_tables st c' (S i)) as [ps' r] eqn:Es. injection E as <- ->.
    destruct (IH c' (S i) ps' Wc' H0' Es) as (L & v & A & Nm). split; [lia|]. exists v.
    replace (j - i)%nat with (S (j - S i)) by lia. now split.
Qed.

Lemma search_tables_from st c i ps j k : search_tables st c i = (ps, Some (j, k)) -> (i <= j)%nat.
Proof.
  revert c i ps. induction st as [|t st IH]; intros c i ps E; [discriminate|]. cbn [search_tables] in E.
  destruct (vartab_search t c) as [[c' pos] [|]]; [injection E as _ <- _; lia|].
  destruct (search_tables st c' (S i)) as [ps' r] eqn:Es. injection E as _ ->. specialize (IH c' (S i) ps' Es). lia.
Qed.

Lemma var_at_ok st w p v : stack_ok st -> var_at st (bucket w) p = Some v -> var_ok (bucket w) v.
Proof.
  intros K E. unfold var_at in E. destruct (st !! fst p) as [t|] eqn:T; [|easy]. cbn in E.
  apply (var_in _ _ (proj2 (table_at st _ t K T) (bucket w)) _ v E).
Qed.

(** In a table of its own, a new local touches nothing below. *)
Lemma create_local t st s w :
  stack_ok (t :: st) -> is_varname w -> spells s w -> no_locals st = true ->
  exists t' k v, create (t :: st) s V_LOCAL = At (t' :: st) (O, k) /\ table_ok t' /\
    bucket_of t' (bucket w) !! k = Some v /\ name v = w.
Proof.
  intros K W Sp N. pose proof (wants_hash s w W Sp) as Wc. pose proof (wants_bucket _ w Wc) as Bk.
  pose proof (Forall_inv K) as T. assert (H0 : 0 <= s_hdist (vartab_hash s)) by (apply u64_range).
  unfold create. destruct (search_tables (t :: st) (vartab_hash s) 0) as [ps r] eqn:E.
  pose proof E as E'. cbn [search_tables] in E'. destruct (vartab_search t (vartab_hash s)) as [[c' pos] hit] eqn:Et.
  destruct hit.
  { injection E' as <- <-. cbn [fst]. change (flag V_LOCAL V_INIT) with false. cbn [Nat.eqb orb].
    destruct (vartab_search_hit t w T _ c' pos Wc H0 Et) as (v & Ev & Nm). exists t, pos, v. auto. }
  destruct (vartab_search_gap t w T _ c' pos Wc eq_refl eq_refl Et) as [q G].
  destruct (search_tables st c' 1) as [ps' r'] eqn:Er. injection E' as <- <-.
  assert (New : exists t' k v, create_in (t :: st) s (vartab_hash s) (pos :: ps') r' 0 = At (t' :: st) (O, k) /\
    table_ok t' /\ bucket_of t' (bucket w) !! k = Some v /\ name v = w).
  { unfold create_in. cbn [lookup list_lookup]. rewrite Bk.
    match goal with |- context [vartab_add pos (bucket w) ?x] => set (v := x) end.
    assert (V : name v = w /\ var_ok (bucket w) v).
    { unfold v. pose proof (fresh_ok s w _ W Sp eq_refl) as [N0 V0]. destruct r' as [[j k]|]; [|now split].
      destruct (search_tables_sound w _ _ 0 _ j k K Wc H0 E) as (_ & old & A & Nm). rewrite Nat.sub_0_r in A.
      rewrite A. apply shadow_ok; auto. now apply (var_at_ok (t :: st) w (j, k)). }
    destruct V as [Nm V]. assert (R : (pos <= List.length (bucket_of t (bucket w)))%nat) by apply G.
    exists (vartab_add pos (bucket w) v t), pos, v. split; [reflexivity|]. split; [|split; [|exact Nm]].
    - apply with_bucket_ok; [exact T|apply bucket_range|]. now apply (bucket_ok_insert _ _ w q pos v (proj2 T _) G).
    - unfold vartab_add. rewrite (with_bucket_of w _ t _ T), decide_True by reflexivity.
      rewrite insert_at_split, lookup_app_r, length_take, Nat.min_l, Nat.sub_diag by (rewrite ?length_take; lia). reflexivity. }
  destruct r' as [[j k]|]; [|exact New]. change (flag V_LOCAL V_INIT) with false. cbv iota.
  destruct (search_tables_sound w _ _ 0 _ j k K Wc H0 E) as (_ & old & A & Nm). rewrite Nat.sub_0_r in A.
  rewrite Bk, A. cbn [fst]. pose proof (search_tables_from st c' 1 ps' j k Er) as J.
  destruct (Nat.eqb_spec j 0) as [->|_]; [lia|]. cbn [orb].
  assert (flag (v_flags old) V_LOCAL = false) as ->; [|exact New].
  destruct j as [|j]; [lia|]. apply (no_locals_at st (bucket w) (j, k)); [exact N|exact A].
Qed.

Lemma name_of_spells a : spells a (name_of a).
Proof.
  induction a as [|c a [E|[t E]]]; [now left|..]; cbn [name_of]; (destruct (Z.eqb_spec c (ch "=")) as [->|_]; [right; now exists a|]).
  - left. congruence.
  - right. exists t. cbn [app]. congruence.
Qed.

Lemma spells_eq a : spells (if has_eq a then a else a ++ [ch "="]) (name_of a).
Proof.
  destruct (has_eq a) eqn:H; [apply name_of_spells|]. right. exists [].
  destruct (name_of_spells a) as [E|[t E]]; [now rewrite <- E|]. unfold has_eq in H.
  rewrite E, existsb_app, orb_false_iff in H. destruct H as [_ H]. discriminate.
Qed.

(** The store after a local: only the top table. *)
Lemma setv_local allexport x t st s w value :
  varstack x = t :: st -> stack_ok (t :: st) -> is_varname w -> spells s w -> no_locals st = true ->
  exists x' t', varstack x' = t' :: st /\ table_ok t' /\
    (var_setv allexport x s value V_LOCAL = Done x' \/ var_setv allexport x s value V_LOCAL = Readonly x').
Proof.
  intros X K W Sp N. pose proof (Forall_inv_tail K) as K'.
  destruct (create_local t st s w K W Sp N) as (t' & k & v & E & T' & Ek & Nm).
  pose proof (var_in _ _ (proj2 T' (bucket w)) k v Ek) as V. unfold var_setv, var_create. rewrite X, E, (spells_bucket s w W Sp).
  assert (A : at_first (t' :: st) w (O, k) v) by (constructor; [now exists t'|exact Nm|cbn; lia]).
  rewrite (at_first_var _ _ _ _ A). destruct (flag (v_flags v) V_READONLY).
  { eexists _, t'. split; [|split; [exact T'|right; reflexivity]]. reflexivity. }
  set (fl := is_set _). destruct (setv_ok _ s w v value true fl V Nm Sp) as (Nm' & V' & _).
  destruct (store_spec (t' :: st) w (O, k) v _ (Forall_cons_2 _ _ _ T' K') A V' Nm') as (K2 & _ & _).
  eexists _, _. split; [|split; [|left; reflexivity]].
  - unfold store. cbn [varstack]. rewrite (spells_bucket s w W Sp). reflexivity.
  - apply (Forall_inv K2).
Qed.

(** A string var_valid accepts has a name in front, unless that is empty. *)
Lemma isname_chars c i : is_byte c -> parse_isname c i = is_name_char c && ((0 <? i)%nat || negb (c_isdigit c)).
Proof.
  intros Bc.
  assert (A : forallb (fun c => let c := Z.of_nat c in
    Bool.eqb (class_has c (C_LOWER .| C_UPPER .| C_NAME)) (is_name_char c && negb (c_isdigit c)) &&
    Bool.eqb (parse_isdigit c) (c_isdigit c)) (seq 0 256) = true) by (vm_compute; reflexivity).
  rewrite forallb_forall in A. specialize (A (Z.to_nat c)). rewrite in_seq in A. unfold is_byte in Bc.
  specialize (A ltac:(lia)). cbv zeta in A. rewrite Z2Nat.id in A by lia. apply andb_true_iff in A as [A1 A2].
  apply Bool.eqb_prop in A1, A2. unfold parse_isname. rewrite A1, A2.
  destruct (c_isdigit c) eqn:D; [|destruct (is_name_char c), (0 <? i)%nat; reflexivity].
  assert (is_name_char c = true) as ->.
  { unfold is_name_char. unfold c_isdigit in D. now rewrite D. }
  now destruct (0 <? i)%nat.
Qed.

Lemma valid_from_name a i : Forall is_byte a -> valid_from a i = true -> name_chars (name_of a).
Proof.
  intros Ba. revert i. induction Ba as [|c a Bc Ba IH]; intros i V; cbn [name_of valid_from] in *; [constructor|].
  destruct (c =? ch "="); [constructor|]. rewrite (isname_chars c i Bc) in V.
  destruct (is_name_char c) eqn:N; [|discriminate]. cbn [andb] in V.
  destruct ((0 <? i)%nat || negb (c_isdigit c)); [|discriminate]. constructor; [exact N|now apply (IH (S i))].
Qed.

Lemma var_valid_name a : Forall is_byte a -> name_of a <> [] -> var_valid a = true -> is_varname (name_of a).
Proof.
  intros Ba Ne V. unfold var_valid in V. destruct (parse_isdigit (chd a)); [discriminate|]. split; [exact Ne|].
  split; [|now apply (valid_from_name a 0)]. destruct Ba as [|c a Bc Ba]; [reflexivity|]. cbn [valid_from name_of] in *.
  destruct (c =? ch "="); [easy|]. rewrite (isname_chars c 0 Bc) in V. unfold chd, cnth. cbn [nth].
  destruct (is_name_char c), (c_isdigit c); easy.
Qed.

Lemma builtin_local_runs allexport argv x t st :
  varstack x = t :: st -> stack_ok (t :: st) -> no_locals st = true ->
  Forall (fun a => Forall is_byte a /\ name_of a <> []) argv ->
  exists x' t', builtin_local allexport x argv = Status x' 0 /\ varstack x' = t' :: st /\ table_ok t'.
Proof.
  intros X K N A. revert x t X K. induction A as [|a argv [Ba Ne] _ IH]; intros x t X K; cbn [builtin_local].
  - exists x, t. split; [reflexivity|]. split; [exact X|apply (Forall_inv K)].
  - destruct (var_valid a) eqn:V; cbn [negb]; [|now apply (IH x t)].
    destruct (setv_local allexport x t st _ (name_of a) (assigned a) X K (var_valid_name a Ba Ne V) (spells_eq a) N)
      as (x' & t' & X' & T' & [-> | ->]); apply (IH x' t'); auto; constructor; auto; apply (Forall_inv_tail K).
Qed.

Lemma empty_table_ok f : table_ok (empty_table f).
Proof.
  split; [reflexivity|]. intros n. assert (bucket_of (empty_table f) n = []) as ->.
  { unfold bucket_of, empty_table. cbn [t_table]. destruct (replicate 64 [] !! n) as [l|] eqn:E; [|reflexivity].
    apply lookup_replicate in E as [-> _]. reflexivity. }
  constructor; [constructor|constructor|intros; easy].
Qed.

(** C19: What [local] declares in a function called from the top level is gone
    when the function returns: with a table pushed for the call, any run of the
    builtin ends well and changes that table only, so that popping it gives the
    stack from before the call, every variable with the value it had. *)
Theorem local_scope allexport x argv :
  stack_ok (varstack x) -> no_locals (varstack x) = true ->
  Forall (fun a => Forall is_byte a /\ name_of a <> []) argv ->
  exists x', builtin_local allexport (vartab_push x true) argv = Status x' 0 /\
    varstack (vartab_pop x') = varstack x /\ forall s, var_value (vartab_pop x') s = var_value x s.
Proof.
  intros K N A.
  destruct (builtin_local_runs allexport argv (vartab_push x true) (empty_table true) (varstack x) eq_refl
    (Forall_cons_2 _ _ _ (empty_table_ok true) K) N A) as (x' & t' & E & X' & _).
  exists x'. assert (P : varstack (vartab_pop x') = varstack x) by (unfold vartab_pop; cbn; now rewrite X').
  split; [exact E|]. split; [exact P|]. intros s. unfold var_value, var_vdefault. now rewrite P.
Qed.

(** ** Runs *)

Module Runs.
Definition root : vars := Vars [vartab_root] true.

Inductive op :=
| Assign (s : string) (value : string)
| Local (args : list string)
| Export (level : nat) (args : list string)
| Mark (level : nat) (args : list string)
| Unset (s : string)
| Push (function : bool)
| Pop.

(** [None]: the shell has left, or the program is undefined *)
Definition run1 (x : vars) (o : op) : option vars :=
  let status r := match r with Status x _ => Some x | _ => None end in
  match o with
  | Assign s v =>
      match var_setv false x (b s) (b v) V_DEFAULT with Done x | Readonly x => Some x | _ => None end
  | Local l => status (builtin_local false x (map b l))
  | Export n l => status (builtin_export false n false x (map b l))
  | Mark n l => status (builtin_readonly false n x (map b l))
  | Unset s => Some (fst (var_unset x (b s)))
  | Push f => Some (vartab_push x f)
  | Pop => Some (vartab_pop x)
  end.

Fixpoint run (x : vars) (l : list op) : option vars :=
  match l with
  | [] => Some x
  | o :: l => match run1 x o with Some x => run x l | None => None end
  end.

Definition value (o : option vars) (s : string) : option bytes :=
  match o with Some x => Some (var_value x (b s)) | None => None end.
Definition flags (o : option vars) (s : string) : option Z :=
  match o with Some x => match find_var (b s) (varstack x) with Some v => Some (v_flags v) | None => None end | None => None end.
Definition start (l : list op) : vars := match run root l with Some x => x | None => root end.
End Runs.

Import Runs.

Example assign_shadow_restore :
  let x := run root [Assign "x" "1"; Assign "y" "2"; Push true; Local ["x=5"%string]; Assign "y" "6"] in
  value x "x" = Some (b "5") /\ value x "y" = Some (b "6") /\
  value (match x with Some x => run x [Pop] | None => None end) "x" = Some (b "1").
Proof. vm_compute. auto. Qed.

(** A [local x] of a function called by one that has a local x of its own
    assigns the caller's. *)
Example local_of_callee_is_the_callers :
  value (run root [Push true; Local ["x=1"%string]; Push true; Local ["x=2"%string]; Pop]) "x" = Some (b "2").
Proof. vm_compute. reflexivity. Qed.

(** [export FOO] in a function, whose table is the environment's (sh->varstack),
    leaves FOO as it was. *)
Example export_in_function_lost :
  flags (run root [Assign "FOO" "1"; Push true; Export 1 ["FOO"%string]; Pop]) "FOO" = Some V_FREE /\
  flags (run root [Assign "FOO" "1"; Export 0 ["FOO"%string]]) "FOO" = Some (Z.lor V_FREE V_EXPORT).
Proof. vm_compute. auto. Qed.

(** [(export X)]: in the subshell, X has the value "=1". *)
Example export_in_subshell_reads_eq :
  value (run root [Assign "X" "1"; Push false; Export 1 ["X"%string]]) "X" = Some (b "=1").
Proof. vm_compute. reflexivity. Qed.

(** [(unset X)] unsets X in the shell around it. *)
Example unset_in_subshell_escapes :
  value (run root [Assign "X" "1"; Push false; Unset "X"; Pop]) "X" = Some [].
Proof. vm_compute. reflexivity. Qed.

(** [readonly x; f() { local x=2; }]: refused, but x reads "=1" in f. *)
Example local_of_readonly_reads_eq :
  value (run root [Assign "x" "1"; Mark 0 ["x"%string]; Push true; Local ["x=2"%string]]) "x" = Some (b "=1").
Proof. vm_compute. reflexivity. Qed.

(** ... and a function called from there that assigns x inserts it where some
    earlier search of the outermost table ended. *)
Example assign_below_refused_local :
  run root [Assign "x" "1"; Mark 0 ["x"%string]; Push true; Local ["x=2"%string]; Push true; Assign "x" "3"] = None.
Proof. vm_compute. reflexivity. Qed.

(** The distance found in an inner table keeps the search of the outer one from
    comparing names: "a" is there, behind "abm" in its bucket, and is missed
    when a local "abe" shares the bucket; assigning it makes a second "a". *)
Example carried_distance :
  let x := start [Assign "abm" "1"; Assign "a" "1"] in
  let y := start [Assign "abm" "1"; Assign "a" "1"; Push true; Local ["abe=1"%string]] in
  reachable (varstack y) (b "a") = false /\
  snd (search_tables (varstack y) (vartab_hash (b "a")) 0) = None /\ var_search (varstack y) (b "a") <> None /\
  List.length (bucket_of (nth 0 (varstack x) vartab_root) (bucket (b "a"))) = 2%nat /\
  List.length (bucket_of (nth 1 (varstack (start [Assign "abm" "1"; Assign "a" "1"; Push true; Local ["abe=1"%string];
    Assign "a" "2"])) vartab_root) (bucket (b "a"))) = 3%nat.
Proof. vm_compute. repeat split. discriminate. Qed.

(** ** Witnesses *)

Lemma setv_keeps_order allexport x s w value flags x' :
  stack_ok (varstack x) -> is_varname w -> spells s w -> reachable (varstack x) w = true -> scoped (varstack x) = true ->
  flag flags V_INIT = false -> var_setv allexport x s value flags = Done x' -> stack_ok (varstack x').
Proof.
  intros K W Sp R S I E. destruct (var_setv_runs x s w value flags allexport K W Sp R S I) as (y & K' & _ & D).
  destruct (is_readonly x s); rewrite E in D; destruct D as [D _]; [discriminate|]. now injection D as ->.
Qed.

Lemma is_varname_home : is_varname (b "HOME").
Proof. split; [discriminate|split; [reflexivity|repeat constructor]]. Qed.

Definition sample : vars := start [Assign "HOME" "/root"].

Lemma sample_ok : stack_ok (varstack sample).
Proof.
  apply (setv_keeps_order false root (b "HOME") (b "HOME") (b "/root") V_DEFAULT);
    [constructor; [apply empty_table_ok|constructor]|exact is_varname_home|now left|vm_compute; reflexivity..].
Qed.

Lemma var_search_first_witness :
  var_search (varstack sample) (b "HOME=x") = Some (O, O) /\
  match var_search (varstack sample) (b "HOME=x") with
  | Some p => exists v, var_at (varstack sample) (bucket (b "HOME")) p = Some v /\ name v = b "HOME" /\
      find_var (b "HOME") (varstack sample) = Some v
  | None => find_var (b "HOME") (varstack sample) = None
  end.
Proof.
  split; [vm_compute; reflexivity|].
  apply (var_search_first (varstack sample) (b "HOME=x") (b "HOME") sample_ok is_varname_home).
  right. exists (b "x"). reflexivity.
Defined.

Lemma var_setv_reads_back_witness :
  var_value sample (b "HOME") = b "/root" /\
  exists x', var_setv false sample (b "HOME") (b "/tmp") V_EXPORT = Done x' /\ var_value x' (b "HOME") = b "/tmp" /\
    (forall u, is_varname u -> u <> b "HOME" -> var_value x' u = var_value sample u) /\ stack_ok (varstack x').
Proof.
  split; [vm_compute; reflexivity|].
  apply (var_setv_reads_back false sample (b "HOME") (b "/tmp") V_EXPORT sample_ok is_varname_home); vm_compute; reflexivity.
Defined.

Definition read_only : vars :=
  match builtin_readonly false 0 sample [b "HOME"] with Status x _ => x | _ => sample end.

Lemma read_only_ok : stack_ok (varstack read_only).
Proof.
  assert (E : exists v, at_first (varstack sample) (b "HOME") (O, O) v /\
    varstack read_only = at_place (varstack sample) (bucket (b "HOME")) (O, O)
      (fun _ => with_value v (v_sa v) (v_owned v) (v_offset v) (Z.lor (v_flags v) V_READONLY))).
  { pose proof (var_search_answers (varstack sample) (b "HOME") (b "HOME") sample_ok is_varname_home (or_introl eq_refl)) as A.
    replace (var_search (varstack sample) (b "HOME")) with (Some (O, O)) in A by (vm_compute; reflexivity).
    destruct A as (_ & v & A). exists v. split; [exact A|]. apply at_first_var in A.
    assert (D : var_at (varstack sample) (bucket (b "HOME")) (O, O) = var_at (varstack sample) (bucket (b "HOME")) (O, O)) by reflexivity.
    rewrite A in D at 1. clear A. vm_compute in D. injection D as ->. vm_compute. reflexivity. }
  destruct E as (v & A & ->). pose proof (var_at_first _ _ _ _ sample_ok A) as V.
  destruct (with_value_ok _ v (v_sa v) (v_owned v) (v_offset v) (Z.lor (v_flags v) V_READONLY) V eq_refl (ok_len _ _ V)) as [N V'].
  apply (store_spec _ _ _ _ _ sample_ok A V'). rewrite N. apply A.
Qed.

Lemma var_setv_readonly_witness :
  is_readonly read_only (b "HOME") = true /\
  exists x', var_setv false read_only (b "HOME") (b "/tmp") V_DEFAULT = Readonly x' /\
    is_readonly x' (b "HOME") = true /\
    (exists v v', find_var (b "HOME") (varstack read_only) = Some v /\ find_var (b "HOME") (varstack x') = Some v' /\
       still (b "HOME") v v') /\
    (match varstack read_only with t :: _ => held t (b "HOME") = true | [] => False end ->
       varstack x' = varstack read_only) /\
    (forall u, is_varname u -> u <> b "HOME" -> var_value x' u = var_value read_only u) /\ stack_ok (varstack x').
Proof.
  split; [vm_compute; reflexivity|].
  apply (var_setv_readonly false read_only (b "HOME") (b "/tmp") V_DEFAULT read_only_ok is_varname_home); vm_compute; reflexivity.
Defined.

Lemma local_scope_witness :
  no_locals (varstack sample) = true /\
  exists x', builtin_local false (vartab_push sample true) [b "HOME=/a"; b "y"] = Status x' 0 /\
    varstack (vartab_pop x') = varstack sample /\ forall s, var_value (vartab_pop x') s = var_value sample s.
Proof.
  split; [vm_compute; reflexivity|].
  apply (local_scope false sample [b "HOME=/a"; b "y"] sample_ok); [vm_compute; reflexivity|].
  repeat (constructor; [split; [apply (bool_decide_unpack (Forall is_byte _)); vm_compute; exact I|discriminate]|]).
  constructor.
Defined.
