(* ===== verification/ArithParse.v ===== *)
(** * The arithmetic expression parser (src/parse/parse_arith_*.c, parse_param.c)

    The recursive-descent parser of [$((...))]: it reads the source with
    [source_peekn]/[source_skip] and builds arithmetic nodes.  Every call
    takes one unit of fuel; [PFuel] is the only result that says the fuel
    ran out.  [PUndef] is undefined behaviour of the C code (a NULL tree
    dereferenced, an uninitialised kind or number used).  The word parser
    that reads the word of [${x:-word}], the nested [$((...))] and the two
    forms of command substitution are operations of the class
    [SubstParsers], which the lexer (Lexer.v) implements. *)

From S2P Require Import Prelude Scan Chars Source Tree.

Import Scan.

(** ** Results *)

(** Why there is nothing more to say of a parse: the C code is undefined, the
    shell left on a syntax error, or a here-document was opened, whose body
    (read when its line ends, into a node already made) is not modelled. *)
Inductive stop := Undefined | SyntaxExit | HereDocument.

Inductive pres :=
  | PRes (n : option node) (st : source)
  | PStop (why : stop)
  | PFuel.

Abbreviation PUndef := (PStop Undefined).

Definition bindP (r : pres) (k : option node -> source -> pres) : pres :=
  match r with
  | PRes n st => k n st
  | PStop w => PStop w
  | PFuel => PFuel
  end.

(** [x <- r; k]: the tree and the source go on. *)
Notation "'let!' ( n , st ) := r 'in' k" := (bindP r (fun n st => k))
  (at level 10, n name, st name, k at level 200).

(** The rest of the lexer, as parse_subst and parse_param call it. *)
Class SubstParsers := {
  (* parse_init(&newp, flags); parse_word(&newp); parse_getarg(&newp) *)
  sub_word : Z -> source -> pres;
  (* parse_arith, on the second "(" of "$((" *)
  sub_arith : source -> pres;
  (* parse_bquoted, on "(" or on "`" *)
  sub_command : source -> pres
}.

Definition P_SUBSTW : Z := 0x0020.
Definition P_DQSUBST : Z := 0x1000.
Definition Q_UNQUOTED : Z := 0.
Definition Q_DQUOTED : Z := 1.

(** ** Whitespace *)

Inductive skip_result := SK_EOF | SK_NL | SK_NONE | SK_LOOPS.

(** parse_skipspace under the flags P_ARITH, P_HERE and P_SKIPNL *)
Fixpoint parse_skipspace (fuel : nat) (arith here skipnl : bool) (st : source)
    : skip_result * source :=
  match fuel with
  | O => (SK_LOOPS, st)
  | S f =>
      match source_peek st with
      | (None, st) => (SK_EOF, st)
      | (Some c, st) =>
          if c =? NL then
            if arith then parse_skipspace f arith here skipnl (snd (source_skip st))
            else if here then (SK_NONE, st)
            else if negb skipnl then (SK_NL, st)
            else parse_skipspace f arith here skipnl st
          else if negb (parse_isspace c) then (SK_NONE, st)
          else parse_skipspace f arith here skipnl (snd (source_skip st))
      end
  end.

(** Inside [$((...))] a round per unread character is enough. *)
Definition skipspace (st : source) : source :=
  snd (parse_skipspace (S (List.length (s_text st))) true false false st).

Definition parse_skip (st : source) : source := snd (source_skip st).

(** ** Parameters: [name], [$name], [${...}] *)

Section Parse.
Context `{SubstParsers}.

(** while(source_peek(&c) > 0 && test(c, len)) { catc; skip; }; the last
    character peeked stays in [c] at the end of the input. *)
Fixpoint peek_while (test : Z -> nat -> bool) (fuel : nat) (acc : bytes) (c : Z) (st : source)
    : bytes * Z * source :=
  match fuel with
  | O => (acc, c, st)
  | S f =>
      match source_peek st with
      | (None, st) => (acc, c, st)
      | (Some c, st) =>
          if test c (List.length acc)
          then peek_while test f (acc ++ [c]) c (parse_skip st)
          else (acc, c, st)
      end
  end.

Definition special_flag (c : Z) : Z :=
  if c =? ch "#" then S_ARGC
  else if c =? ch "*" then S_ARGV
  else if c =? ch "@" then S_ARGVS
  else if c =? ch "?" then S_EXITCODE
  else if c =? ch "-" then S_FLAGS
  else if c =? ch "!" then S_BGEXCODE
  else if c =? ch "$" then S_PID
  else 0.

(** "${#x}", but "${#-w}" is [$#] with an operator *)
Definition is_length_op (st : source) : bool * source :=
  match source_peek st with
  | (Some nextc, st) =>
      if parse_isparam nextc then
        if negb ((nextc =? ch "-") || (nextc =? ch "+") || (nextc =? ch "=")
                 || (nextc =? ch "?") || (nextc =? ch ":"))
        then (true, st)
        else if (nextc =? ch "-") || (nextc =? ch "?") then
          let '(after, st) := source_peekn st 1 in
          (match after with Some a => a =? ch "}" | None => false end, st)
        else (false, st)
      else (false, st)
  | (None, st) => (false, st)
  end.

(** The operator of "${name<op>word}": the flags and the source after it. *)
Definition param_operator (flag c : Z) (st : source) : Z * source :=
  if (c =? ch "%") || (c =? ch "#") then
    let flag := Z.lor flag (if c =? ch "%" then S_RSSFX else S_RSPFX) in
    match source_next st with
    | (Some nextc, st) =>
        if nextc =? c then (flag + Z.shiftl 1 8, parse_skip st) else (flag, st)
    | (None, st) => (flag, st)
    end
  else
    let '(flag, c, st) :=
      if c =? ch ":" then
        let '(n, st) := source_next st in (Z.lor flag S_NULL, default c n, st)
      else (flag, c, st) in
    if c =? ch "-" then (Z.lor flag S_DEFAULT, parse_skip st)
    else if c =? ch "=" then (Z.lor flag S_ASGNDEF, parse_skip st)
    else if c =? ch "?" then (Z.lor flag S_ERRNULL, parse_skip st)
    else if c =? ch "+" then (Z.lor flag S_ALTERNAT, parse_skip st)
    else if negb (Z.land flag S_NULL =? 0)
      then (Z.lor (Z.land flag (Z.lnot S_NULL)) S_RANGE, st)
      else (flag, st).

(** parse_param; the result is the tree left in [p->tree] (an empty name is
    the NULL left behind when the input ends right after "${"). *)
Definition parse_param (quot : Z) (arith : bool) (st : source) : pres :=
  match source_peek st with
  | (None, st) => PRes None st
  | (Some c, st) =>
      let braces := c =? ch "{" in
      let st := if braces then parse_skip st else st in
      match source_get st with
      | (None, st) => PRes (Some (nargparam quot [] None 0)) st
      | (Some c, st) =>
          let '(islen, st) :=
            if (c =? ch "#") && braces then is_length_op st else (false, st) in
          let flag := if islen then Z.lor quot S_STRLEN else quot in
          let '(c, st) :=
            if islen then let '(n, st) := source_get st in (default c n, st) else (c, st) in
          let flag := Z.lor flag (special_flag c) in
          let fuel := S (List.length (s_text st)) in
          let '(flag, name, c, st) :=
            if Z.land flag S_SPECIAL =? 0 then
              if parse_isdigit c then
                let '(name, c, st) :=
                  if braces then peek_while (fun c _ => parse_isdigit c) fuel [c] c st
                  else ([c], c, st) in
                (Z.lor flag S_ARG, name, c, st)
              else
                let '(name, c, st) := peek_while parse_isname fuel [c] c st in
                (flag, name, c, st)
            else (flag, [c], c, st) in
          let numb := if Z.land flag S_ARG =? 0 then 0 else snd (scan_uint name 0) in
          if negb braces then PRes (Some (nargparam flag name None numb)) st
          else
            let '(_, c, st) := peek_while (fun c _ => parse_isspace c) fuel [] c st in
            if c =? ch "}" then PRes (Some (nargparam flag name None numb)) (parse_skip st)
            else
              let '(flag, st) := param_operator flag c st in
              let flag := if arith then Z.lor flag S_ARITH else flag in
              let op := Z.land flag S_VAR in
              let wflags :=
                Z.lor P_SUBSTW
                  (if (quot =? Q_DQUOTED) && ((op <? S_RSSFX) || (S_RLPFX <? op))
                   then P_DQSUBST else 0) in
              let! (word, st) := sub_word wflags st in
              PRes (Some (nargparam flag name word numb)) st
      end
  end.

(** parse_subst, on a parser whose tree is empty: the tree left in [p->tree].
    The [$] that starts no substitution only grows the string buffer, and
    [$'...'] is left to the word parser: both leave no tree. *)
Definition parse_subst (quot : Z) (arith : bool) (st : source) : pres :=
  match source_peek st with
  | (None, st) => PRes None st
  | (Some c, st) =>
      let '(c, st) :=
        if c =? ch "$" then let '(n, st) := source_next st in (default c n, st) else (c, st) in
      if c =? ch "(" then
        match source_peekn st 1 with
        | (None, st) => PRes None st
        | (Some c1, st) =>
            if c1 =? ch "(" then sub_arith (parse_skip st) else sub_command st
        end
      else if parse_isparam c || (c =? ch "{") then parse_param quot arith st
      else PRes None st
  end.

(** ** Numbers *)

Definition FMT_LONG : nat := 41.

(** The loop of parse_arith_value: the digits read, their base, the source.
    Every round consumes a character, so the unread text bounds the rounds. *)
Fixpoint num_loop (fuel : nat) (x : bytes) (c : Z) (base cclass : Z) (st : source)
    : option (bytes * Z * source) :=
  match fuel with
  | O => None
  | S f =>
      let x := x ++ [c] in
      match source_next st with
      | (None, st) => Some (x, base, st)
      | (Some c, st) =>
          let classes := char_class c in
          let digit := negb (Z.land classes cclass =? 0) in
          let '(x, c, base, cclass, digit, st) :=
            if ((List.length x =? 1)%nat && (cnth x 0 =? ch "0"))%bool then
              let '(base, cclass) :=
                if c =? ch "x" then (16, C_HEX)
                else if (ch "0" <=? c) && (c <=? ch "7") then (8, C_OCTAL)
                else (base, cclass) in
              if negb (Z.land classes (C_UPPER .| C_LOWER) =? 0) then
                match source_next st with
                | (Some c, st) => ([], c, base, cclass, true, st)
                | (None, st) => ([], c, base, cclass, false, st)
                end
              else (x, c, base, cclass, digit, st)
            else (x, c, base, cclass, digit, st) in
          if digit && (List.length x <? FMT_LONG)%nat
          then num_loop f x c base cclass st
          else Some (x, base, st)
      end
  end.

(** The scanned value; [None] when the decimal scanner stored nothing. *)
Definition num_value (x : bytes) (base : Z) : option Z :=
  if base =? 8 then Some (i64 (snd (scan_8longlong x)))
  else if base =? 16 then Some (i64 (snd (scan_xlonglong x)))
  else let '(k, v) := scan_longlong x 0 in if (k =? 0)%nat then None else Some v.

Definition parse_number (c : Z) (st : source) : pres :=
  match num_loop (S (List.length (s_text st))) [] c 10 C_DIGIT st with
  | None => PFuel
  | Some (x, base, st) =>
      match num_value x base with
      | Some v => PRes (Some (narithnum v base)) st
      | None => PUndef
      end
  end.

(** ** Operators *)

Definition ARITH_PREC_TOP : nat := 11.

(** The two characters looked at, and the third where it matters. *)
Definition peek2 (st : source) : option (Z * Z) * source :=
  match source_peek st with
  | (None, st) => (None, st)
  | (Some a, st) =>
      match source_peekn st 1 with
      | (None, st) => (None, st)
      | (Some c, st) => (Some (a, c), st)
      end
  end.

Inductive opmatch :=
  | OpNone               (* no operator of this level: try the next tighter one *)
  | OpReturnNull         (* return NULL *)
  | OpReturnLeft         (* return left *)
  | OpFound (op : kind) (extra : bool).   (* matched; [extra]: a second character to skip *)

(** One round of the do-while of parse_arith_binary. *)
Definition match_level (precedence : nat) (a c2 : Z) (st : source) : opmatch * source :=
  if (precedence <=? ARITH_PREC_TOP)%nat && (((a =? ch "-") || (a =? ch "+")) && (c2 =? a))
  then (OpReturnNull, st)
  else if (precedence <=? 1)%nat then
    (if (a =? ch "*") && (c2 =? ch "*") then OpFound A_EXP true else OpNone, st)
  else if (precedence <=? 2)%nat then
    (if c2 =? ch "=" then OpNone
     else if a =? ch "*" then OpFound A_MUL false
     else if a =? ch "/" then OpFound A_DIV false
     else if a =? ch "%" then OpFound A_MOD false
     else OpNone, st)
  else if (precedence <=? 3)%nat then
    (if c2 =? ch "=" then OpNone
     else if a =? ch "+" then OpFound A_ADD false
     else if a =? ch "-" then OpFound A_SUB false
     else OpNone, st)
  else if (precedence <=? 4)%nat then
    match source_peekn st 2 with
    | (None, st) => (OpReturnLeft, st)
    | (Some c3, st) =>
        (if c3 =? ch "=" then OpNone
         else if ((a =? ch ">") || (a =? ch "<")) && (a =? c2)
              then OpFound (if a =? ch ">" then A_SHR else A_SHL) true
         else OpNone, st)
    end
  else if (precedence <=? 5)%nat then
    (if (a =? ch ">") && negb (c2 =? ch ">") then
       OpFound (if c2 =? ch "=" then A_GE else A_GT) (c2 =? ch "=")
     else if (a =? ch "<") && negb (c2 =? ch "<") then
       OpFound (if c2 =? ch "=" then A_LE else A_LT) (c2 =? ch "=")
     else OpNone, st)
  else if (precedence <=? 6)%nat then
    (if (c2 =? ch "=") && ((a =? ch "=") || (a =? ch "!"))
     then OpFound (if a =? ch "!" then A_NE else A_EQ) true else OpNone, st)
  else if (precedence <=? 7)%nat then
    (if (a =? ch "&") && negb (c2 =? ch "&") && negb (c2 =? ch "=")
     then OpFound A_BITAND false else OpNone, st)
  else if (precedence <=? 8)%nat then
    (if (a =? ch "^") && negb (c2 =? ch "=") then OpFound A_BITXOR false else OpNone, st)
  else if (precedence <=? 9)%nat then
    (if (a =? ch "|") && negb (c2 =? ch "|") && negb (c2 =? ch "=")
     then OpFound A_BITOR false else OpNone, st)
  else if (precedence <=? 10)%nat then
    (if (a =? ch "&") && (c2 =? ch "&") then OpFound A_AND true else OpNone, st)
  else if (precedence <=? 11)%nat then
    (if (a =? ch "|") && (c2 =? ch "|") then OpFound A_OR true else OpNone, st)
  else (OpNone, st).

(** The do-while: from [precedence] down, the first level that matches. *)
Fixpoint match_op (precedence : nat) (a c2 : Z) (st : source) : opmatch * nat * source :=
  match precedence with
  | O => (OpNone, 0%nat, st)
  | S p =>
      match match_level (S p) a c2 st with
      | (OpNone, st) => match_op p a c2 st
      | (r, st) => (r, S p, st)
      end
  end.

(** The assignment operator at the front of the source. *)
Inductive assignmatch :=
  | AsNone                       (* not one: leave the loop *)
  | AsOp (op : kind) (skips : nat)
  | AsUndef.                     (* "<=" or ">=": the kind is never set *)

Definition match_assign (st : source) : assignmatch * source :=
  match source_peek st with
  | (None, st) => (AsNone, st)
  | (Some c0, st) =>
      if negb (existsb (Z.eqb c0) (b "=*/%+-<>&^|")) then (AsNone, st)
      else if c0 =? ch "=" then (AsOp A_VASSIGN 1, st)
      else
        match source_peekn st 1 with
        | (None, st) => (AsNone, st)
        | (Some c1, st) =>
            if ((c0 =? ch "<") || (c0 =? ch ">")) && (c0 =? c1) then
              match source_peekn st 2 with
              | (Some c2, st) =>
                  (if c2 =? ch "=" then AsOp (if c0 =? ch "<" then A_VSHL else A_VSHR) 3 else AsNone, st)
              | (None, st) => (AsNone, st)
              end
            else if c1 =? ch "=" then
              (if c0 =? ch "*" then AsOp A_VMUL 2
               else if c0 =? ch "/" then AsOp A_VDIV 2
               else if c0 =? ch "%" then AsOp A_VMOD 2
               else if c0 =? ch "+" then AsOp A_VADD 2
               else if c0 =? ch "-" then AsOp A_VSUB 2
               else if c0 =? ch "&" then AsOp A_VBITAND 2
               else if c0 =? ch "^" then AsOp A_VBITXOR 2
               else if c0 =? ch "|" then AsOp A_VBITOR 2
               else AsUndef, st)
            else (AsNone, st)
        end
  end.

Fixpoint skip_n (n : nat) (st : source) : source :=
  match n with O => st | S n' => skip_n n' (parse_skip st) end.

(** The unary operator at [c] (then [c2]); [None] is the default case. *)
Definition unary_op (c c2 : Z) : option kind :=
  if c =? ch "!" then Some A_NOT
  else if c =? ch "~" then Some A_BNOT
  else if c =? ch "-" then Some (if c2 =? ch "-" then A_PREDECR else A_UNARYMINUS)
  else if c =? ch "+" then Some (if c2 =? ch "+" then A_PREINCR else A_UNARYPLUS)
  else None.

(** "++" or "--" behind a value *)
Definition postfix_op (st : source) : option (kind * Z) * source :=
  match source_peek st with
  | (None, st) => (None, st)
  | (Some c, st) =>
      if (c =? ch "+") || (c =? ch "-") then
        match source_peekn st 1 with
        | (Some c2, st) =>
            (if c2 =? c then Some (if c =? ch "-" then A_POSTDECR else A_POSTINCR, c) else None, st)
        | (None, st) => (None, st)
        end
      else (None, st)
  end.

(** Behind the operator: the second character of "++" or "--", the space and
    the operand, which the two increments take from parse_arith_value. *)
Definition finish_unary (value unary : source -> pres) (n : kind) (c c2 : Z) (st : source) : pres :=
  let st := if c =? c2 then parse_skip st else st in
  let st := skipspace (parse_skip st) in
  let! (a, st) := (if kind_eqb n A_PREINCR || kind_eqb n A_PREDECR then value st else unary st) in
  PRes (Some (narithunary n a)) st.

(** ** The grammar *)

Fixpoint parse_arith_expr (fuel : nat) (st : source) : pres :=
  match fuel with
  | O => PFuel
  | S f =>
      let st := skipspace st in
      match source_peek st with
      | (None, st) => PRes None st
      | (Some _, st) =>
          let! (n, st) := parse_arith_assign f st in
          match n with
          | Some _ => PRes n st
          | None =>
              let! (n, st) := parse_arith_unary f st in
              match n with
              | Some _ => PRes n st
              | None => parse_arith_value f st
              end
          end
      end
  end

(** The loop hangs each right-hand side below the assignment before it. *)
with parse_arith_assign (fuel : nat) (st : source) : pres :=
  match fuel with
  | O => PFuel
  | S f =>
      let! (n, st) := parse_arith_ternary f st in
      match n with
      | Some (nargparam fl name word numb) =>
          let lhs := nargparam fl name word numb in
          let st := skipspace st in
          match match_assign st with
          | (AsNone, st) => PRes (Some lhs) st
          | (AsUndef, st) => PUndef
          | (AsOp op skips, st) =>
              let st := skipspace (skip_n skips st) in
              let! (right, st) := parse_arith_assign f st in
              PRes (Some (narithbinary op lhs right)) st
          end
      | _ => PRes n st
      end
  end

with parse_arith_ternary (fuel : nat) (st : source) : pres :=
  match fuel with
  | O => PFuel
  | S f =>
      let! (n, st) := parse_arith_binary f ARITH_PREC_TOP st in
      match n with
      | None => PRes None st
      | Some cond =>
          let st := skipspace st in
          match source_peek st with
          | (Some c, st) =>
              if negb (c =? ch "?") then PRes (Some cond) st
              else
                let st := skipspace (parse_skip st) in
                let! (n, st) := parse_arith_expr f st in
                match n with
                | None => PRes None st
                | Some ontrue =>
                    let st := skipspace st in
                    match source_peek st with
                    | (Some c, st) =>
                        if negb (c =? ch ":") then PRes None st
                        else
                          let st := skipspace (parse_skip st) in
                          let! (n, st) := parse_arith_ternary f st in
                          match n with
                          | None => PRes None st
                          | Some onfalse => PRes (Some (narithternary cond ontrue onfalse)) st
                          end
                    | (None, st) => PRes None st
                    end
                end
          | (None, st) => PRes (Some cond) st
          end
      end
  end

with parse_arith_binary (fuel : nat) (precedence : nat) (st : source) : pres :=
  match fuel with
  | O => PFuel
  | S f =>
      let! (n, st) := (if (precedence <=? 1)%nat then parse_arith_unary f st
                       else parse_arith_binary f (precedence - 1) st) in
      match n with
      | None => PRes None st
      | Some lhs =>
          let st := skipspace st in
          match peek2 st with
          | (None, st) => PRes (Some lhs) st
          | (Some (a, c2), st) =>
              match match_op precedence a c2 st with
              | (OpNone, _, st) => PRes (Some lhs) st
              | (OpReturnNull, _, st) => PRes None st
              | (OpReturnLeft, _, st) => PRes (Some lhs) st
              | (OpFound op extra, prec, st) =>
                  let st := if extra then parse_skip st else st in
                  let st := skipspace (parse_skip st) in
                  let! (right, st) := (if (prec <=? 1)%nat then parse_arith_unary f st
                                       else parse_arith_binary f (prec - 1) st) in
                  let! (right, st) := (match right with
                                       | Some _ => PRes right st
                                       | None => parse_arith_value f st
                                       end) in
                  match right with
                  | None => PRes (Some lhs) st
                  | Some _ => PRes (Some (narithbinary op lhs right)) st
                  end
              end
          end
      end
  end

with parse_arith_unary (fuel : nat) (st : source) : pres :=
  match fuel with
  | O => PFuel
  | S f =>
      match source_peek st with
      | (None, st) => PRes None st
      | (Some c, st) =>
          let '(c2, st) := if (c =? ch "+") || (c =? ch "-") then source_peekn st 1
                           else (Some 0, st) in
          match c2 with
          | None => PRes None st
          | Some c2 =>
              let finish := finish_unary (parse_arith_value f) (parse_arith_unary f) in
              match unary_op c c2 with
              | Some n => finish n c c2 st
              | None =>
                  let! (n, st) := parse_arith_value f st in
                  match n with
                  | None => PRes None st
                  | Some _ =>
                      match postfix_op st with
                      | (Some (op, c), st) => finish op c c st
                      | (None, st) => PRes n st
                      end
                  end
              end
          end
      end
  end

with parse_arith_value (fuel : nat) (st : source) : pres :=
  match fuel with
  | O => PFuel
  | S f =>
      match source_peek st with
      | (None, st) => PRes None st
      | (Some c, st) =>
          if c =? ch "(" then parse_arith_paren f st
          else if parse_isdigit c then parse_number c st
          else if parse_isalpha c || (c =? ch "_") || (c =? ch "$") then
            let '(c', st) := if c =? ch "$" then source_peekn st 1 else (Some c, st) in
            let c' := default c c' in
            if negb (c =? ch "$") || parse_isparam c' || existsb (Z.eqb c') (b "({") then
              let! (n, st) := parse_subst Q_UNQUOTED true st in
              match n with
              | None => PUndef
              | Some (nargparam fl name word numb) =>
                  PRes (Some (nargparam (Z.lor fl S_ARITH) name word numb)) st
              | _ => PRes n st
              end
            else if c' =? ch "`" then sub_command st
            else PRes None st
          else if c =? ch "`" then sub_command st
          else PRes None st
      end
  end

(** "(" expr { "," expr } ")": a wrong closer frees the node, parse_error is
    silent because this parser has read no token. *)
with parse_arith_paren (fuel : nat) (st : source) : pres :=
  match fuel with
  | O => PFuel
  | S f =>
      match source_peek st with
      | (None, st) => PRes None st
      | (Some c, st) =>
          if negb (c =? ch "(") then PRes None st
          else parse_paren_items f [] (skipspace (parse_skip st))
      end
  end

with parse_paren_items (fuel : nat) (acc : list node) (st : source) : pres :=
  match fuel with
  | O => PFuel
  | S f =>
      let! (n, st) := parse_arith_expr f st in
      match n with
      | None => PRes None st
      | Some e =>
          match source_peek st with
          | (None, st) => PRes None st
          | (Some c, st) =>
              if c =? ch "," then parse_paren_items f (acc ++ [e]) (parse_skip st)
              else if negb (c =? ch ")") then PRes None st
              else PRes (Some (narithparen (acc ++ [e]))) (parse_skip st)
          end
      end
  end.

End Parse.

(** A parser with no substitutions: what plain arithmetic text needs. *)
Definition no_subst : SubstParsers := {|
  sub_word := fun _ st => PRes None st;
  sub_arith := fun st => PRes None st;
  sub_command := fun st => PRes None st |}.

Definition parse_text (fuel : nat) (x : bytes) : pres :=
  parse_arith_expr (H := no_subst) fuel (source_push x).

Definition parsed (r : pres) : option (option node * bytes) :=
  match r with PRes n st => Some (n, s_text st) | _ => None end.

(** ** Termination *)

Definition left_over (st : source) : nat := List.length (s_text st).

(** The parse ended, and gave nothing back. *)
Definition shrinks (k : nat) (r : pres) : Prop :=
  match r with
  | PRes _ st' => (left_over st' <= k)%nat
  | PStop _ => True
  | PFuel => False
  end.

(** The flags parse_param reads a word under *)
Definition word_flags (fl : Z) : Prop := fl = P_SUBSTW \/ fl = Z.lor P_SUBSTW P_DQSUBST.

(** On texts of at most [n] characters the rest of the lexer ends, and never
    gives characters back. *)
Class SubstOk (n : nat) (S : SubstParsers) : Prop := {
  sub_word_le : forall fl st, word_flags fl -> (left_over st <= n)%nat -> shrinks (left_over st) (sub_word fl st);
  sub_arith_le : forall st, (left_over st <= n)%nat -> shrinks (left_over st) (sub_arith st);
  sub_command_le : forall st, (left_over st <= n)%nat -> shrinks (left_over st) (sub_command st)
}.

#[export] Instance no_subst_ok n : SubstOk n no_subst.
Proof. split; intros; apply le_n. Qed.

Lemma logical_length x : forall e, (List.length (logical x e) <= List.length x)%nat.
Proof.
  induction x as [|c|c d x IH IH'] using list_ind2; intros e; [done| |].
  - simpl. by destruct (negb e && (c =? BSL)).
  - cbn [logical]. pose proof (IH e). pose proof (IH' (negb e && (c =? BSL))).
    destruct (negb e && (c =? BSL)); [destruct (d =? NL)|]; simpl in *; lia.
Qed.

Lemma unread_left st : (List.length (unread st) <= left_over st)%nat.
Proof. unfold left_over, unread. destruct (raw_mode st); [done|apply logical_length]. Qed.

Lemma peekn_left st n : (left_over (snd (source_peekn st n)) <= left_over st)%nat.
Proof.
  unfold left_over, source_peekn. destruct (raw_mode st); [done|]. cbn [snd].
  apply front_cont_spec.
Qed.

Lemma advance_text st c : s_text (advance st c) = s_text st.
Proof. apply advance_state. Qed.

Lemma skip_left st : (left_over (parse_skip st) <= left_over st - 1)%nat.
Proof.
  unfold parse_skip, source_skip. pose proof (peekn_left st 0) as P.
  set (st1 := snd (source_peekn st 0)) in *. unfold left_over in *.
  destruct (s_text st1) as [|c x] eqn:E; simpl in P |- *; [rewrite E; simpl; lia|].
  case_test; cbn [snd].
  - rewrite peek_escaped by done. simpl.
    destruct x as [|d x]; simpl; try case_test; cbn [snd]; rewrite ?advance_text, ?drop_0; simpl in *; lia.
  - rewrite advance_text. simpl in *. lia.
Qed.

Lemma peekn_some' st st' n c : source_peekn st n = (Some c, st') ->
  (n < left_over st')%nat /\ (left_over st' <= left_over st)%nat.
Proof.
  intros E. pose proof (peekn_left st n) as P. pose proof (peekn_unread st n) as U.
  destruct (peekn_state st n) as (_ & _ & S & _). rewrite E in P, U, S. cbn [fst snd] in *.
  split; [|done]. symmetry in U. apply lookup_lt_Some in U. pose proof (unread_left st') as L.
  rewrite S in L. lia.
Qed.

Lemma peekn_none' st st' n : source_peekn st n = (None, st') -> (left_over st' <= left_over st)%nat.
Proof. intros E. pose proof (peekn_left st n) as P. by rewrite E in P. Qed.

Lemma next_left st : (left_over (snd (source_next st)) <= left_over st - 1)%nat.
Proof.
  unfold source_next, source_peek. etransitivity; [apply peekn_left|apply skip_left].
Qed.

Lemma get_left st : (left_over (snd (source_get st)) <= left_over st)%nat.
Proof.
  unfold source_get, source_peek. pose proof (peekn_left st 0).
  destruct (source_peekn st 0) as [[c|] st1]; cbn [snd] in *; [|done].
  pose proof (skip_left st1) as S. unfold parse_skip in S. lia.
Qed.

(** Facts about one source step, gathered for the proofs below. *)
Ltac skip_fact st :=
  lazymatch goal with
  | _ : (left_over (parse_skip st) <= left_over st - 1)%nat |- _ => fail
  | _ => pose proof (skip_left st)
  end.

Ltac source_facts :=
  repeat match goal with
  | H : source_peek _ = _ |- _ => unfold source_peek in H
  | H : source_peekn _ _ = (Some _, _) |- _ => apply peekn_some' in H as [? ?]
  | H : source_peekn _ _ = (None, _) |- _ => apply peekn_none' in H
  | |- context [left_over (parse_skip ?st)] => skip_fact st
  | _ : context [left_over (parse_skip ?st)] |- _ => skip_fact st
  end.

Lemma skipspace_left fuel a h s st :
  (left_over (snd (parse_skipspace fuel a h s st)) <= left_over st)%nat.
Proof.
  revert st. induction fuel as [|f IH]; intros st; cbn [parse_skipspace]; [done|].
  destruct (source_peek st) as [[c|] st1] eqn:E; source_facts; [|simpl; lia].
  pose proof (IH (parse_skip st1)) as I1. pose proof (IH st1) as I2. source_facts.
  fold (parse_skip st1). repeat case_test; simpl; lia.
Qed.

Lemma skipspace_le st : (left_over (skipspace st) <= left_over st)%nat.
Proof. apply skipspace_left. Qed.

Lemma num_loop_left fuel : forall x c bs cl st,
  (left_over st < fuel)%nat ->
  exists x' bs' st', num_loop fuel x c bs cl st = Some (x', bs', st')
    /\ (left_over st' <= left_over st)%nat /\ (left_over st' <= left_over st - 1)%nat.
Proof.
  induction fuel as [|f IH]; intros x c bs cl st Hf; [lia|]. cbn [num_loop].
  pose proof (next_left st) as N1. destruct (source_next st) as [[c1|] st1] eqn:E1; simpl in N1.
  2: { eexists _, _, _. split_and!; [done|lia|lia]. }
  assert (Hlt : (left_over st1 < left_over st)%nat).
  { unfold source_next in E1. fold (parse_skip st) in E1. source_facts. lia. }
  set (v := if ((List.length (x ++ [c]) =? 1)%nat && _)%bool then _ else _).
  assert (Hv : match v with (_, _, _, _, _, st2) => (left_over st2 <= left_over st1)%nat end).
  { unfold v. repeat case_test; try (simpl; lia);
      pose proof (next_left st1) as N2; destruct (source_next st1) as [[c2|] st2]; simpl in *; lia. }
  destruct v as [[[[[x2 c2] bs2] cl2] dg] st2].
  destruct (dg && _).
  - destruct (IH x2 c2 bs2 cl2 st2) as (x' & bs' & st' & -> & L1 & L2); [lia|].
    eexists _, _, _. split_and!; [done|lia|lia].
  - eexists _, _, _. split_and!; [done|lia|lia].
Qed.

Lemma peek_while_left test fuel : forall acc c st,
  (left_over (snd (peek_while test fuel acc c st)) <= left_over st)%nat.
Proof.
  induction fuel as [|f IH]; intros acc c st; cbn [peek_while]; [done|].
  destruct (source_peek st) as [[c1|] st1] eqn:E; source_facts; [|simpl; lia].
  case_test; [|simpl; lia]. etransitivity; [apply IH|]. source_facts. lia.
Qed.

Lemma is_length_op_left st : (left_over (snd (is_length_op st)) <= left_over st)%nat.
Proof.
  unfold is_length_op. destruct (source_peek st) as [[c1|] st1] eqn:E; source_facts; [|simpl; lia].
  repeat case_test; simpl; try lia.
  pose proof (peekn_left st1 1) as P. destruct (source_peekn st1 1) as [[c2|] st2]; simpl in *; lia.
Qed.

Lemma param_operator_left flag c st :
  (left_over (snd (param_operator flag c st)) <= left_over st)%nat.
Proof.
  unfold param_operator. pose proof (next_left st) as N.
  destruct (source_next st) as [[d|] st1]; simpl in N.
  all: destruct (c =? ch ":"); unfold default; cbn [from_option id].
  all: repeat case_test; cbn [snd]; source_facts; lia.
Qed.

Lemma shrinks_bind k r c : shrinks k r ->
  (forall n st', (left_over st' <= k)%nat -> shrinks k (c n st')) -> shrinks k (bindP r c).
Proof. destruct r; simpl; auto. Qed.

Lemma shrinks_le k k' r : (k <= k')%nat -> shrinks k r -> shrinks k' r.
Proof. destruct r; simpl; auto. lia. Qed.

Section Shrinks.
Context {S0 : SubstParsers} (n0 : nat) `{!SubstOk n0 S0}.

Lemma parse_param_left q a st : (left_over st <= n0)%nat -> shrinks (left_over st) (parse_param q a st).
Proof.
  intros Hn. unfold parse_param.
  destruct (source_peek st) as [[c|] st1] eqn:E; source_facts; [|simpl; lia].
  set (st2 := if c =? ch "{" then _ else _).
  assert (L2 : (left_over st2 <= left_over st1)%nat) by (unfold st2; case_test; source_facts; lia).
  pose proof (get_left st2) as L3. destruct (source_get st2) as [[c1|] st3]; simpl in L3; [|simpl; lia].
  set (v := if (c1 =? ch "#") && _ then _ else _).
  assert (L4 : (left_over (snd v) <= left_over st3)%nat).
  { unfold v; case_test; [apply is_length_op_left|done]. }
  destruct v as [islen st4]. cbn [snd] in L4.
  set (v := if islen then let '(n, st) := source_get st4 in _ else _).
  assert (L5 : (left_over (snd v) <= left_over st4)%nat).
  { unfold v; destruct islen; [|done]. pose proof (get_left st4). by destruct (source_get st4). }
  destruct v as [c2 st5]. cbn [snd] in L5.
  set (fuel := S (List.length (s_text st5))).
  set (v := if Z.land _ S_SPECIAL =? 0 then _ else _).
  assert (L6 : (left_over (snd v) <= left_over st5)%nat).
  { unfold v. case_test; [|done]. case_test; [case_test|].
    - pose proof (peek_while_left (fun c _ => parse_isdigit c) fuel [c2] c2 st5) as P.
      by destruct (peek_while _ _ _ _ _) as [[? ?] ?].
    - done.
    - pose proof (peek_while_left parse_isname fuel [c2] c2 st5) as P.
      by destruct (peek_while _ _ _ _ _) as [[? ?] ?]. }
  destruct v as [[[flag name] c3] st6]. cbn [snd] in L6.
  destruct (negb (c =? ch "{")); [simpl; lia|].
  pose proof (peek_while_left (fun c _ => parse_isspace c) fuel [] c3 st6) as L7.
  destruct (peek_while _ _ _ _ _) as [[? c4] st7]. cbn [snd] in L7.
  destruct (c4 =? ch "}"); [cbn [shrinks]; source_facts; lia|].
  pose proof (param_operator_left flag c4 st7) as L8.
  destruct (param_operator flag c4 st7) as [flag' st8]. cbn [snd] in L8.
  apply shrinks_bind; [|intros word st9 L9; cbn; lia].
  apply (shrinks_le (left_over st8)); [lia|]. apply sub_word_le; [|lia].
  unfold word_flags. case_test; [by right|by left; rewrite Z.lor_0_r].
Qed.

Lemma parse_subst_left q a st : (left_over st <= n0)%nat -> shrinks (left_over st) (parse_subst q a st).
Proof.
  intros Hn. unfold parse_subst.
  destruct (source_peek st) as [[c|] st1] eqn:E; source_facts; [|simpl; lia].
  set (v := if c =? ch "$" then _ else _).
  assert (L2 : (left_over (snd v) <= left_over st1)%nat).
  { unfold v. case_test; [|done]. pose proof (next_left st1). destruct (source_next st1); simpl in *; lia. }
  destruct v as [c1 st2]. cbn [snd] in L2. case_test.
  - destruct (source_peekn st2 1) as [[c2|] st3] eqn:E3; source_facts; [|simpl; lia]. case_test.
    + eapply shrinks_le; [|apply sub_arith_le]; source_facts; lia.
    + eapply shrinks_le; [|apply sub_command_le]; lia.
  - case_test; [|simpl; lia]. eapply shrinks_le; [|apply parse_param_left]; lia.
Qed.

(** Fuel enough for every production started with [k] characters left. *)
Definition covers (f : nat) (rank k : nat) : Prop := (20 * k + rank < f /\ k <= n0)%nat.

Ltac fuel_lia := unfold covers in *; lia.

Record all_shrink (f : nat) : Prop := {
  sh_expr st k : (left_over st <= k)%nat -> covers f 17 k -> shrinks k (parse_arith_expr f st);
  sh_assign st k : (left_over st <= k)%nat -> covers f 16 k -> shrinks k (parse_arith_assign f st);
  sh_ternary st k : (left_over st <= k)%nat -> covers f 15 k -> shrinks k (parse_arith_ternary f st);
  sh_binary st p k : (0 < p <= 11)%nat -> (left_over st <= k)%nat -> covers f (2 + p) k ->
    shrinks k (parse_arith_binary f p st);
  sh_unary st k : (left_over st <= k)%nat -> covers f 2 k -> shrinks k (parse_arith_unary f st);
  sh_value st k : (left_over st <= k)%nat -> covers f 1 k -> shrinks k (parse_arith_value f st);
  sh_paren st k : (left_over st <= k)%nat -> covers f 0 k -> shrinks k (parse_arith_paren f st);
  sh_items acc st k : (left_over st <= k)%nat -> covers f 18 k ->
    shrinks k (parse_paren_items f acc st)
}.

Lemma num_left c st k : (left_over st <= k)%nat -> shrinks k (parse_number c st).
Proof.
  intros Hk. unfold parse_number.
  destruct (num_loop_left (S (List.length (s_text st))) [] c 10 C_DIGIT st) as (x & bs & st' & -> & L & _);
    [apply le_n|]. destruct (num_value x bs); simpl; lia.
Qed.

Lemma match_level_left p a c st m st' : match_level p a c st = (m, st') ->
  (left_over st' <= left_over st)%nat.
Proof.
  unfold match_level. destruct (source_peekn st 2) as [[c3|] st3] eqn:E; source_facts;
    intros Hm; repeat match goal with H : (if ?c then _ else _) = _ |- _ => destruct c end; by simplify_eq.
Qed.

Lemma match_op_left p a c : forall st m q st',
  match_op p a c st = (m, q, st') ->
  (left_over st' <= left_over st)%nat /\ (m = OpNone \/ 0 < q <= p)%nat.
Proof.
  induction p as [|p IH]; intros st m q st' E; cbn [match_op] in E; [simplify_eq; by auto|].
  destruct (match_level (S p) a c st) as [m1 st1] eqn:E1. apply match_level_left in E1.
  destruct m1; simplify_eq; [apply IH in E as [? [?|?]]; split; auto with lia|auto with lia..].
Qed.

Lemma peek2_left st r st' : peek2 st = (r, st') ->
  (left_over st' <= left_over st)%nat /\ match r with Some _ => (1 < left_over st)%nat | None => True end.
Proof.
  unfold peek2. destruct (source_peek st) as [[c|] st1] eqn:E1; source_facts.
  - destruct (source_peekn st1 1) as [[c2|] st2] eqn:E2; source_facts; intros; simplify_eq; split; lia || done.
  - intros; simplify_eq; auto with lia.
Qed.

Lemma match_assign_left st m st' : match_assign st = (m, st') ->
  (left_over st' <= left_over st)%nat /\
  match m with AsOp _ k => (0 < k /\ 0 < left_over st)%nat | _ => True end.
Proof.
  unfold match_assign. destruct (source_peek st) as [[c|] st1] eqn:E1; source_facts; [|by intros; simplify_eq; auto with lia].
  destruct (source_peekn st1 1) as [[c2|] st2] eqn:E2; source_facts.
  2: { intros; repeat case_match; simplify_eq; split; lia || done. }
  destruct (source_peekn st2 2) as [[c3|] st3] eqn:E3; source_facts;
    intros E; repeat match goal with H : (if ?c then _ else _) = _ |- _ => destruct c end;
    simplify_eq; repeat case_match; simplify_eq; split; lia || done || auto with lia.
Qed.

Lemma postfix_op_left st r st' : postfix_op st = (r, st') ->
  (left_over st' <= left_over st)%nat /\ match r with Some _ => (1 < left_over st)%nat | None => True end.
Proof.
  unfold postfix_op. destruct (source_peek st) as [[c|] st1] eqn:E1; source_facts; [|by intros; simplify_eq; auto with lia].
  destruct (source_peekn st1 1) as [[c2|] st2] eqn:E2; source_facts;
    intros E; repeat match goal with H : (if ?c then _ else _) = _ |- _ => destruct c end;
    simplify_eq; repeat case_match; simplify_eq; split; lia || done || auto with lia.
Qed.

Lemma skip_n_left n st : (left_over (skip_n n st) <= left_over st - n)%nat.
Proof.
  revert st. induction n as [|n IH]; intros st; cbn [skip_n]; [lia|].
  pose proof (IH (parse_skip st)). source_facts. lia.
Qed.

(** One step of each production, with the others below it. *)
Section Step.
Context (f : nat) (IH : all_shrink f).

(** Going on below, at most [k - 1] characters left when one was read. *)
Lemma shrinks_after k r : (0 < k)%nat -> shrinks (k - 1) r -> shrinks k r.
Proof. intros. apply (shrinks_le (k - 1)); [lia|done]. Qed.

Lemma step_expr st k : (left_over st <= k)%nat -> covers (S f) 17 k ->
  shrinks k (parse_arith_expr (S f) st).
Proof.
  intros Hk Hf. cbn [parse_arith_expr]. pose proof (skipspace_le st).
  destruct (source_peek (skipspace st)) as [[c|] st1] eqn:E; source_facts; [|simpl; lia].
  apply shrinks_bind; [apply (sh_assign f IH); fuel_lia|].
  intros [n|] st2 L2; [simpl; lia|].
  apply shrinks_bind; [apply (sh_unary f IH); fuel_lia|].
  intros [n|] st3 L3; [simpl; lia|].
  apply (sh_value f IH); fuel_lia.
Qed.

Lemma step_assign st k : (left_over st <= k)%nat -> covers (S f) 16 k ->
  shrinks k (parse_arith_assign (S f) st).
Proof.
  intros Hk Hf. cbn [parse_arith_assign].
  apply shrinks_bind; [apply (sh_ternary f IH); fuel_lia|].
  intros [n|] st1 L1; [|simpl; lia]. destruct n; try (simpl; lia).
  pose proof (skipspace_le st1).
  destruct (match_assign (skipspace st1)) as [m st2] eqn:E. apply match_assign_left in E as [L2 Hm].
  destruct m as [|op n|]; [simpl; lia| |done].
  pose proof (skipspace_le (skip_n n st2)) as L3. rewrite skip_n_left in L3.
  apply shrinks_bind; [|simpl; lia]. apply shrinks_after; [lia|].
  apply (sh_assign f IH); fuel_lia.
Qed.

Lemma step_ternary st k : (left_over st <= k)%nat -> covers (S f) 15 k ->
  shrinks k (parse_arith_ternary (S f) st).
Proof.
  intros Hk Hf. cbn [parse_arith_ternary].
  apply shrinks_bind; [apply (sh_binary f IH); unfold ARITH_PREC_TOP; fuel_lia|].
  intros [cond|] st1 L1; [|simpl; lia]. pose proof (skipspace_le st1).
  destruct (source_peek (skipspace st1)) as [[c|] st2] eqn:E; source_facts; [|simpl; lia].
  destruct (negb (c =? ch "?")); [simpl; lia|]. apply shrinks_after; [lia|].
  pose proof (skipspace_le (parse_skip st2)) as L3. source_facts.
  apply shrinks_bind; [apply (sh_expr f IH); fuel_lia|].
  intros [ontrue|] st4 L4; [|simpl; lia]. pose proof (skipspace_le st4).
  destruct (source_peek (skipspace st4)) as [[c'|] st5] eqn:E'; source_facts; [|simpl; lia].
  destruct (negb (c' =? ch ":")); [simpl; lia|].
  pose proof (skipspace_le (parse_skip st5)) as L6. source_facts.
  apply shrinks_bind; [apply (sh_ternary f IH); fuel_lia|].
  intros [onfalse|] st7 L7; simpl; lia.
Qed.

Lemma step_operand st p k : (0 < p <= 11)%nat -> (left_over st <= k)%nat -> covers f (1 + p) k ->
  shrinks k (if (p <=? 1)%nat then parse_arith_unary f st else parse_arith_binary f (p - 1) st).
Proof.
  intros Hp Hk Hf.
  case_test; zify_bool; [apply (sh_unary f IH)|apply (sh_binary f IH)]; fuel_lia.
Qed.

Lemma step_binary st p k : (0 < p <= 11)%nat -> (left_over st <= k)%nat ->
  covers (S f) (2 + p) k -> shrinks k (parse_arith_binary (S f) p st).
Proof.
  intros Hp Hk Hf. cbn [parse_arith_binary].
  apply shrinks_bind; [apply step_operand; fuel_lia|].
  intros [lhs|] st1 L1; [|simpl; lia]. pose proof (skipspace_le st1).
  destruct (peek2 (skipspace st1)) as [[[a c2]|] st2] eqn:E; apply peek2_left in E as [L2 L2'];
    [|simpl; lia].
  destruct (match_op p a c2 st2) as [[m q] st3] eqn:E. apply match_op_left in E as [L3 [->|Hq]]; [simpl; lia|].
  destruct m as [| | |op extra]; try (simpl; lia). apply shrinks_after; [lia|].
  set (st4 := if extra then _ else _).
  assert (L4 : (left_over st4 <= left_over st3)%nat) by (unfold st4; destruct extra; source_facts; lia).
  assert (L5 : (left_over (skipspace (parse_skip st4)) <= k - 1)%nat).
  { pose proof (skipspace_le (parse_skip st4)). source_facts. lia. }
  apply shrinks_bind; [apply step_operand; fuel_lia|]. intros right st6 L6.
  apply shrinks_bind; [destruct right; [simpl; lia|apply (sh_value f IH); fuel_lia]|].
  intros [r|] st7 L7; simpl; lia.
Qed.

Lemma step_unary st k : (left_over st <= k)%nat -> covers (S f) 2 k ->
  shrinks k (parse_arith_unary (S f) st).
Proof.
  intros Hk Hf. cbn [parse_arith_unary].
  destruct (source_peek st) as [[c|] st1] eqn:E; source_facts; [|simpl; lia].
  set (v := if (c =? ch "+") || _ then _ else _).
  assert (L2 : (left_over (snd v) <= left_over st1)%nat).
  { unfold v. case_test; [by rewrite peekn_left|done]. }
  destruct v as [[c2|] st2]; cbn [snd] in L2; [|simpl; lia].
  assert (Fin : forall n d d2 st', (left_over st' <= k)%nat -> (0 < k)%nat ->
    shrinks k (finish_unary (parse_arith_value f) (parse_arith_unary f) n d d2 st')).
  { intros n d d2 st' L' Hk0. unfold finish_unary. apply shrinks_after; [done|].
    set (st3 := if d =? d2 then _ else _).
    assert (L3 : (left_over st3 <= left_over st')%nat) by (unfold st3; case_test; source_facts; lia).
    pose proof (skipspace_le (parse_skip st3)) as L4. source_facts.
    apply shrinks_bind; [|simpl; lia].
    case_test; [apply (sh_value f IH)|apply (sh_unary f IH)]; fuel_lia. }
  destruct (unary_op c c2) as [n|]; [apply Fin; lia|].
  apply shrinks_bind; [apply (sh_value f IH); fuel_lia|].
  intros [n|] st3 L3; [|simpl; lia].
  destruct (postfix_op st3) as [[[op d]|] st4] eqn:E4; apply postfix_op_left in E4 as [L4 ?];
    [apply Fin; lia|simpl; lia].
Qed.

Lemma step_value st k : (left_over st <= k)%nat -> covers (S f) 1 k ->
  shrinks k (parse_arith_value (S f) st).
Proof.
  intros Hk Hf. cbn [parse_arith_value].
  destruct (source_peek st) as [[c|] st1] eqn:E; source_facts; [|simpl; lia].
  case_test; [apply (sh_paren f IH); fuel_lia|].
  case_test; [apply num_left; lia|]. case_test.
  - set (v := if c =? ch "$" then _ else _).
    assert (L2 : (left_over (snd v) <= left_over st1)%nat).
    { unfold v. case_test; [by rewrite peekn_left|done]. }
    destruct v as [c' st2]. cbn [snd] in L2. case_test.
    2: { case_test; [|simpl; lia]. eapply shrinks_le; [|apply sub_command_le]; fuel_lia. }
    apply shrinks_bind; [eapply shrinks_le; [|apply parse_subst_left]; fuel_lia|].
    intros [n|] st3 L3; [|done]. destruct n; simpl; lia.
  - case_test; [|simpl; lia]. eapply shrinks_le; [|apply sub_command_le]; fuel_lia.
Qed.

Lemma step_paren st k : (left_over st <= k)%nat -> covers (S f) 0 k ->
  shrinks k (parse_arith_paren (S f) st).
Proof.
  intros Hk Hf. cbn [parse_arith_paren].
  destruct (source_peek st) as [[c|] st1] eqn:E; source_facts; [|simpl; lia].
  case_test; [simpl; lia|]. pose proof (skipspace_le (parse_skip st1)). source_facts.
  apply shrinks_after; [lia|]. apply (sh_items f IH); fuel_lia.
Qed.

Lemma step_items acc st k : (left_over st <= k)%nat -> covers (S f) 18 k ->
  shrinks k (parse_paren_items (S f) acc st).
Proof.
  intros Hk Hf. cbn [parse_paren_items].
  apply shrinks_bind; [apply (sh_expr f IH); fuel_lia|].
  intros [e|] st1 L1; [|simpl; lia].
  destruct (source_peek st1) as [[c|] st2] eqn:E; source_facts; [|simpl; lia].
  case_test.
  - apply shrinks_after; [lia|]. apply (sh_items f IH); source_facts; fuel_lia.
  - case_test; simpl; source_facts; lia.
Qed.
End Step.

Lemma all_shrink_fuel f : all_shrink f.
Proof.
  induction f as [|f IH]; [split; intros; fuel_lia|].
  split; eauto using step_expr, step_assign, step_ternary, step_binary, step_unary, step_value,
    step_paren, step_items.
Qed.

End Shrinks.

(** Fuel that is enough for any text. *)
Definition parse_fuel (st : source) : nat := 20 * left_over st + 20.

Lemma arith_shrinks n {S : SubstParsers} `{!SubstOk n S} st : (left_over st <= n)%nat ->
  shrinks (left_over st) (parse_arith_expr (parse_fuel st) st).
Proof.
  intros Hn. apply (sh_expr n _ (all_shrink_fuel n (parse_fuel st))); [done|].
  unfold covers, parse_fuel. lia.
Qed.

(** The parser of arithmetic expressions ends on every input, given that
    the word and command parsers below it end and do not give characters back on
    texts that are no longer: with a
    fuel proportional to the unread text it never runs out, and what it leaves
    unread is no longer than what it was given. *)
Theorem parse_arith_expr_terminates (S : SubstParsers) (st : source) :
  SubstOk (left_over st) S ->
  match parse_arith_expr (parse_fuel st) st with
  | PRes _ st' => (left_over st' <= left_over st)%nat
  | PStop _ => True
  | PFuel => False
  end.
Proof.
  intros HS. apply (arith_shrinks (left_over st)), le_n.
Qed.

Lemma parse_arith_expr_terminates_witness :
  let st := source_push (b "1+2*(x ? 0x1f : 3) )") in
  match parse_arith_expr (H := no_subst) (parse_fuel st) st with
  | PRes _ st' => (left_over st' <= left_over st)%nat
  | PStop _ => True
  | PFuel => False
  end /\
  parsed (parse_arith_expr (H := no_subst) (parse_fuel st) st) =
    Some (Some (narithbinary A_ADD (narithnum 1 10)
      (Some (narithbinary A_MUL (narithnum 2 10)
        (Some (narithparen [narithternary (nargparam S_ARITH (b "x") None 0)
           (narithnum 31 16) (narithnum 3 10)]))))), b ")").
Proof.
  split; [|vm_compute; reflexivity].
  apply (parse_arith_expr_terminates no_subst (source_push (b "1+2*(x ? 0x1f : 3) )")) (no_subst_ok _)).
Defined.
