(* ===== verification/ArithTyped.v ===== *)
(** * Arithmetic expressions are well formed

    What parse_arith_expr returns is an expression all the way down
    ([wf Arith]), when the rest of the lexer returns well-formed pieces
    ([SubstTyped]); parse_param builds well-formed parameters. *)

From S2P Require Import Prelude Scan Chars Source Tree TreeTypes ArithParse.

(** A tree, if there is one, satisfies [P]. *)
Definition gives (P : node -> Prop) (r : pres) : Prop :=
  match r with PRes (Some n) _ => P n | _ => True end.

Lemma gives_bind (P Q : node -> Prop) r k : gives P r ->
  (forall st, gives Q (k None st)) -> (forall n st, P n -> gives Q (k (Some n) st)) -> gives Q (bindP r k).
Proof. destruct r as [[n|] st| |]; simpl; auto. Qed.

Class SubstTyped (S : SubstParsers) : Prop := {
  sub_word_typed : forall fl st, word_flags fl -> gives (wf Loose) (sub_word fl st);
  sub_arith_typed : forall st, gives (wf Arith) (sub_arith st);
  sub_command_typed : forall st, gives (wf Arith) (sub_command st)
}.

#[export] Instance no_subst_typed : SubstTyped no_subst.
Proof. by split. Qed.

(** The same pieces stand in words and in expressions. *)
Lemma wf_param_sort fl name word numb : wf Arith (nargparam fl name word numb) <-> wf Part (nargparam fl name word numb).
Proof. done. Qed.

Section Typed.
Context {S0 : SubstParsers} `{!SubstTyped S0}.

Ltac skip_ifs :=
  repeat first [ done | progress cbv zeta | match goal with
  | |- gives _ (if ?c then _ else _) => destruct c
  | |- gives _ (match source_peek ?st with _ => _ end) => destruct (source_peek st) as [[?|] ?]
  | |- gives _ (match source_peekn ?st ?n with _ => _ end) => destruct (source_peekn st n) as [[?|] ?]
  | |- gives _ (match source_get ?st with _ => _ end) => destruct (source_get st) as [[?|] ?]
  end ].

Lemma parse_param_typed quot arith st :
  gives (fun n => (exists fl name word numb, n = nargparam fl name word numb) /\ wf Part n)
    (parse_param quot arith st).
Proof.
  assert (R : forall fl name word numb st, opt_wf (wf Loose) word ->
    gives (fun n => (exists fl name word numb, n = nargparam fl name word numb) /\ wf Part n)
      (PRes (Some (nargparam fl name word numb)) st)).
  { intros fl name word numb st' H. split; [by eexists _, _, _, _|]. cbn [wf]. by sorts. }
  unfold parse_param. destruct (source_peek st) as [[c|] st1]; [|done]. cbv zeta.
  destruct (source_get _) as [[c1|] st2]; [|by apply R].
  repeat match goal with |- gives _ (let '(_, _) := ?v in _) => destruct v as [? ?] end.
  case_test; [by apply R|]. destruct (peek_while _ _ _ _ _) as [[? c4] st4].
  case_test; [by apply R|]. destruct (param_operator _ _ _) as [flag' st5].
  eapply (gives_bind (wf Loose)); [apply sub_word_typed| |].
  - unfold word_flags. case_test; [by right|by left; rewrite Z.lor_0_r].
  - intros. by apply R.
  - intros. by apply R.
Qed.

Lemma parse_param_arith quot arith st : gives (wf Arith) (parse_param quot arith st).
Proof.
  pose proof (parse_param_typed quot arith st) as T. destruct (parse_param quot arith st) as [[n|] ?| |]; [|done..].
  by destruct T as [(fl & name & word & numb & ->) H].
Qed.

Lemma parse_subst_typed quot arith st : gives (wf Arith) (parse_subst quot arith st).
Proof.
  unfold parse_subst. destruct (source_peek st) as [[c|] st1]; [|done].
  destruct (if c =? ch "$" then _ else _) as [c1 st2].
  case_test; [destruct (source_peekn st2 1) as [[c2|] st3]; [|done]; case_test|case_test; [|done]].
  - apply sub_arith_typed.
  - apply sub_command_typed.
  - apply parse_param_arith.
Qed.

(** ** Operators *)

Lemma kind_in_elem k l : kind_in k l <-> k ∈ l.
Proof.
  unfold kind_in, kind_eqb. rewrite Is_true_true, existsb_exists. split.
  - intros (x & H & E%bool_decide_eq_true). subst. by apply list_elem_of_In.
  - intros H. exists k. split; [by apply list_elem_of_In|]. by apply bool_decide_eq_true.
Qed.

Lemma match_op_kind p a c : forall st,
  match fst (fst (match_op p a c st)) with OpFound op _ => Is_true (kind_in op binary_kinds) | _ => True end.
Proof.
  induction p as [|p IH]; intros st; [done|]. cbn [match_op].
  destruct (match_level (S p) a c st) as [m st'] eqn:E.
  destruct m as [| | |op x]; [apply IH|done..|]. cbn. revert E. unfold match_level.
  destruct (source_peekn st 2) as [[c3|] st3].
  all: intros E; repeat match goal with H : (if ?c then _ else _) = _ |- _ => destruct c end; simplify_eq; try done.
  all: repeat case_match; simplify_eq; try done.
  all: repeat match goal with |- context [if ?c then _ else _] => destruct c end; done.
Qed.

Lemma match_assign_kind st : match fst (match_assign st) with AsOp op _ => Is_true (kind_in op assign_kinds) | _ => True end.
Proof.
  unfold match_assign. destruct (source_peek st) as [[c|] st1]; [|done].
  destruct (source_peekn st1 1) as [[c1|] st2]; [destruct (source_peekn st2 2) as [[c2|] st3]|].
  all: repeat match goal with |- context [if ?c then _ else _] => destruct c end; done.
Qed.

Lemma unary_op_kind c c2 : match unary_op c c2 with Some op => Is_true (kind_in op unary_kinds) | None => True end.
Proof. unfold unary_op. repeat case_test; done. Qed.

Lemma postfix_op_kind st : match fst (postfix_op st) with Some (op, _) => Is_true (kind_in op unary_kinds) | None => True end.
Proof.
  unfold postfix_op. destruct (source_peek st) as [[c|] st1]; [|done].
  destruct (source_peekn st1 1) as [[c1|] st2]; repeat case_test; done.
Qed.

Lemma binary_not_assign op : kind_in op binary_kinds -> kind_in op assign_kinds = false.
Proof. by destruct op. Qed.

Lemma wf_binary op l r : kind_in op binary_kinds -> wf Arith l -> wf Arith r -> wf Arith (narithbinary op l (Some r)).
Proof.
  intros K Hl Hr. cbn [wf]. sorts. rewrite (binary_not_assign _ K). unfold kind_in. rewrite existsb_app.
  fold (kind_in op binary_kinds). rewrite !andb_True, orb_True. by repeat split; auto.
Qed.

Lemma wf_assign op fl name word numb r : kind_in op assign_kinds -> wf Arith (nargparam fl name word numb) ->
  opt_wf (wf Arith) r -> wf Arith (narithbinary op (nargparam fl name word numb) r).
Proof.
  intros K Hl Hr. cbn [wf] in *. sorts. unfold kind_in at 1. rewrite existsb_app.
  fold (kind_in op assign_kinds). rewrite !andb_True, !orb_True. repeat split; auto. by destruct r.
Qed.

(** ** The grammar *)

Record all_typed (f : nat) : Prop := {
  ty_expr st : gives (wf Arith) (parse_arith_expr f st);
  ty_assign st : gives (wf Arith) (parse_arith_assign f st);
  ty_ternary st : gives (wf Arith) (parse_arith_ternary f st);
  ty_binary st p : gives (wf Arith) (parse_arith_binary f p st);
  ty_unary st : gives (wf Arith) (parse_arith_unary f st);
  ty_value st : gives (wf Arith) (parse_arith_value f st);
  ty_paren st : gives (wf Arith) (parse_arith_paren f st);
  ty_items acc st : forallb (wf Arith) acc -> gives (wf Arith) (parse_paren_items f acc st)
}.

Section Step.
Context (f : nat) (IH : all_typed f).

Ltac sub H := eapply gives_bind; [apply (H f IH)| |]; intros.

Lemma typed_expr st : gives (wf Arith) (parse_arith_expr (S f) st).
Proof.
  cbn [parse_arith_expr]. skip_ifs. sub ty_assign; [|done]. sub ty_unary; [apply (ty_value f IH)|done].
Qed.

Lemma typed_assign st : gives (wf Arith) (parse_arith_assign (S f) st).
Proof.
  cbn [parse_arith_assign]. sub ty_ternary; [done|]. destruct n; try done.
  match goal with |- context [match_assign ?st] => pose proof (match_assign_kind st) as K; destruct (match_assign st) as [[|op k|] st'] end;
    [done| |done].
  cbn in K. sub ty_assign; apply wf_assign; done.
Qed.

Lemma typed_ternary st : gives (wf Arith) (parse_arith_ternary (S f) st).
Proof.
  cbn [parse_arith_ternary]. sub ty_binary; [done|]. skip_ifs.
  sub ty_expr; [done|]. skip_ifs. sub ty_ternary; [done|]. cbn [gives wf]. sorts. rewrite !andb_True. done.
Qed.

Lemma typed_operand p st : gives (wf Arith) (if (p <=? 1)%nat then parse_arith_unary f st else parse_arith_binary f (p - 1) st).
Proof. case_test; [apply (ty_unary f IH)|apply (ty_binary f IH)]. Qed.

Lemma typed_binary st p : gives (wf Arith) (parse_arith_binary (S f) p st).
Proof.
  cbn [parse_arith_binary]. eapply gives_bind; [apply typed_operand|done|]. intros lhs st1 Hl.
  destruct (peek2 (skipspace st1)) as [[[a c2]|] st2]; [|done].
  pose proof (match_op_kind p a c2 st2) as K. destruct (match_op p a c2 st2) as [[[| | |op x] q] st3]; try done.
  cbn in K. eapply (gives_bind (wf Arith)); [apply typed_operand|intros st4|intros r st4 Hr].
  - sub ty_value; [done|]. by apply wf_binary.
  - by apply wf_binary.
Qed.

Lemma typed_finish op c c2 st : kind_in op unary_kinds ->
  gives (wf Arith) (finish_unary (parse_arith_value f) (parse_arith_unary f) op c c2 st).
Proof.
  intros K. unfold finish_unary. eapply (gives_bind (wf Arith)).
  - case_test; [apply (ty_value f IH)|apply (ty_unary f IH)].
  - intros. cbn [gives wf]. sorts. by rewrite andb_True.
  - intros. cbn [gives wf]. sorts. by rewrite andb_True.
Qed.

Lemma typed_unary st : gives (wf Arith) (parse_arith_unary (S f) st).
Proof.
  cbn [parse_arith_unary]. destruct (source_peek st) as [[c|] st1]; [|done].
  destruct (if (c =? ch "+") || _ then _ else _) as [[c2|] st2]; [|done].
  pose proof (unary_op_kind c c2) as K. destruct (unary_op c c2) as [op|]; [by apply typed_finish|].
  sub ty_value; [done|]. pose proof (postfix_op_kind st0) as K'. destruct (postfix_op st0) as [[[op d]|] st4]; [|done].
  by apply typed_finish.
Qed.

Lemma parse_number_typed c st : gives (wf Arith) (parse_number c st).
Proof.
  unfold parse_number. destruct (num_loop _ _ _ _ _ _) as [[[x bs] st']|]; [|done]. by destruct (num_value x bs).
Qed.

Lemma typed_value st : gives (wf Arith) (parse_arith_value (S f) st).
Proof.
  cbn [parse_arith_value]. destruct (source_peek st) as [[c|] st1]; [|done].
  case_test; [apply (ty_paren f IH)|]. case_test; [apply parse_number_typed|]. case_test.
  - destruct (if c =? ch "$" then _ else _) as [c' st2]. case_test.
    + eapply gives_bind; [apply parse_subst_typed|done|]. intros [] st3 H; done.
    + case_test; [apply sub_command_typed|done].
  - case_test; [apply sub_command_typed|done].
Qed.

Lemma typed_paren st : gives (wf Arith) (parse_arith_paren (S f) st).
Proof. cbn [parse_arith_paren]. skip_ifs. by apply (ty_items f IH). Qed.

Lemma typed_items acc st : forallb (wf Arith) acc -> gives (wf Arith) (parse_paren_items (S f) acc st).
Proof.
  intros Ha. cbn [parse_paren_items]. sub ty_expr; [done|]. skip_ifs.
  - apply (ty_items f IH). by apply forallb_snoc.
  - cbn [gives wf]. sorts. rewrite andb_True. split; [by destruct acc|by apply forallb_snoc].
Qed.
End Step.

Lemma all_typed_fuel f : all_typed f.
Proof.
  induction f as [|f IH]; [by split|].
  split; eauto using typed_expr, typed_assign, typed_ternary, typed_binary, typed_unary, typed_value,
    typed_paren, typed_items.
Qed.

Lemma parse_arith_expr_typed f st : gives (wf Arith) (parse_arith_expr f st).
Proof. apply (ty_expr f (all_typed_fuel f)). Qed.

End Typed.
