(* ===== verification/ArithEval.v ===== *)
(** * Evaluation of arithmetic expressions (src/expand/expand_arith*.c)

    An evaluator gets the store of variables and gives the [int64] left in
    [*r] with the store after it ([AOk]); a non-zero return value ([AErr]);
    the end of the shell through [sh_exit] ([AExit]); or undefined behaviour
    of C ([AUndef]): signed overflow, a shift count outside the width or of a
    negative number to the left, a division that traps, a name that is not
    one.  Variables, parameter expansion, command substitution and [pow] are
    the operations of the class [ArithEnv]. *)

From stdpp Require Import gmap.
From S2P Require Import Prelude Scan Tree VarHash.

Import Scan Fmt.

(** ** Results *)

Section Result.
Context (E : Type).

Inductive ares :=
  | AOk (v : Z) (e : E)
  | AErr (e : E)
  | AExit (e : E)
  | AUndef.
End Result.

Arguments AOk {E}.
Arguments AErr {E}.
Arguments AExit {E}.
Arguments AUndef {E}.

Definition bindA {E} (r : ares E) (k : Z -> E -> ares E) : ares E :=
  match r with
  | AOk v e => k v e
  | AErr e => AErr e
  | AExit e => AExit e
  | AUndef => AUndef
  end.

Notation "'leta' ( v , e ) := r 'in' k" := (bindA r (fun v e => k))
  (at level 10, v name, e name, k at level 200).

(** What the evaluator calls. *)
Class ArithEnv (E : Type) := {
  (* var_vdefault(name, NULL): the value of a variable that is set *)
  var_lookup : bytes -> E -> option bytes;
  (* var_setv, var_setvint; None for a readonly variable *)
  var_setv : bytes -> bytes -> E -> option E;
  var_setvint : bytes -> Z -> E -> option E;
  (* expand_param(&expr->nargparam, ...); None when it leaves through sh_exit *)
  expand_param : node -> E -> option bytes * E;
  (* expand_tosa of a command substitution *)
  expand_tosa : node -> E -> bytes * E;
  (* (int64)pow((double)left, (double)right); None when not representable *)
  c_pow : Z -> Z -> option Z
}.

(** ** Operators on [int64] *)

(** A result out of range is a signed overflow. *)
Definition chk {E} (z : Z) (e : E) : ares E :=
  if bool_decide (in_i64 z) then AOk z e else AUndef.

Definition shift_left {E} (l r : Z) (e : E) : ares E :=
  if (r <? 0) || (64 <=? r) || (l <? 0) then AUndef else chk (Z.shiftl l r) e.

Definition shift_right {E} (l r : Z) (e : E) : ares E :=
  if (r <? 0) || (64 <=? r) then AUndef else AOk (Z.shiftr l r) e.

(** The machine division: zero and INT64_MIN / -1 trap. *)
Definition c_div {E} (l r : Z) (e : E) : ares E :=
  if (r =? 0) || ((r =? -1) && (l =? INT64_MIN)) then AUndef else AOk (Z.quot l r) e.

Definition c_mod {E} (l r : Z) (e : E) : ares E :=
  if (r =? 0) || ((r =? -1) && (l =? INT64_MIN)) then AUndef else AOk (Z.rem l r) e.

Definition is_blank (c : Z) : bool := (c =? 32) || (c =? 9) || (c =? 10).

Fixpoint trim_front (s : bytes) : bytes :=
  match s with
  | c :: s' => if is_blank c then trim_front s' else s
  | [] => []
  end.

Definition trim_back (s : bytes) : bytes := rev (trim_front (rev s)).

Definition pre_post (id : kind) : bool := kind_in id [A_PREDECR; A_PREINCR; A_POSTDECR; A_POSTINCR].

Section Eval.
Context {E : Type} `{ArithEnv E}.

(** The switch of expand_arith_binary, both operands known. *)
Definition binary_op (id : kind) (l r : Z) (e : E) : ares E :=
  match id with
  | A_OR => AOk (c_bool (c_true l || c_true r)) e
  | A_AND => AOk (c_bool (c_true l && c_true r)) e
  | A_BITOR => AOk (Z.lor l r) e
  | A_BITXOR => AOk (Z.lxor l r) e
  | A_BITAND => AOk (Z.land l r) e
  | A_EQ => AOk (c_bool (l =? r)) e
  | A_NE => AOk (c_bool (negb (l =? r))) e
  | A_LT => AOk (c_bool (l <? r)) e
  | A_GT => AOk (c_bool (r <? l)) e
  | A_GE => AOk (c_bool (r <=? l)) e
  | A_LE => AOk (c_bool (l <=? r)) e
  | A_SHL => shift_left l r e
  | A_SHR => shift_right l r e
  | A_ADD => chk (l + r) e
  | A_SUB => chk (l - r) e
  | A_MUL => chk (l * r) e
  | A_DIV | A_MOD =>
      if (r =? 0) || ((r =? -1) && (l =? INT64_MIN)) then AErr e
      else if kind_eqb id A_DIV then c_div l r e else c_mod l r e
  | A_EXP => match c_pow l r with Some v => AOk v e | None => AUndef end
  | _ => AErr e
  end.

(** Operands are evaluators, run in the order of the C code. *)
Definition expand_arith_binary (id : kind) (left right : E -> ares E) (e : E) : ares E :=
  leta (l, e) := left e in
  if kind_eqb id A_AND && negb (c_true l) then AOk 0 e
  else if kind_eqb id A_OR && c_true l then AOk 1 e
  else
    leta (r, e) := right e in
    binary_op id l r e.

Definition expand_arith_ternary (cond ontrue onfalse : E -> ares E) (e : E) : ares E :=
  leta (c, e) := cond e in
  if c_true c then ontrue e else onfalse e.

(** The result and the value to store. *)
Definition unary_result (id : kind) (v : Z) : Z * Z :=
  match id with
  | A_UNARYMINUS => (0 - v, v)
  | A_UNARYPLUS => (v, v)
  | A_PREINCR => (v + 1, v + 1)
  | A_POSTINCR => (v, v + 1)
  | A_PREDECR => (v - 1, v - 1)
  | A_POSTDECR => (v, v - 1)
  | A_NOT => (c_bool (negb (c_true v)), v)
  | A_BNOT => (Z.lnot v, v)
  | _ => (0, v)
  end.

(** [arg] is the node whose name the increments store to; any other node read
    as a parameter is undefined. *)
Definition expand_arith_unary (id : kind) (arg : option node) (operand : E -> ares E) (e : E) : ares E :=
  leta (v, e) := operand e in
  let '(r, v') := unary_result id v in
  leta (r, e) := chk r e in
  leta (v', e) := chk v' e in
  if pre_post id then
    match arg with
    | Some (nargparam _ (c :: name) _ _) =>
        match var_setvint (c :: name) (i32 v') e with
        | Some e => AOk r e
        | None => AExit e
        end
    | _ => AUndef
    end
  else AOk r e.

(** The switch of expand_arith_assign *)
Definition assign_op (id : kind) (l r : Z) (e : E) : ares E :=
  match id with
  | A_VASSIGN => AOk r e
  | A_VADD => chk (l + r) e
  | A_VSUB => chk (l - r) e
  | A_VMUL => chk (l * r) e
  | A_VDIV => c_div l r e
  | A_VMOD => c_mod l r e
  | A_VSHL => shift_left l r e
  | A_VSHR => shift_right l r e
  | A_VBITAND => AOk (Z.land l r) e
  | A_VBITXOR => AOk (Z.lxor l r) e
  | A_VBITOR => AOk (Z.lor l r) e
  | _ => AErr e
  end.

(** [var_vdefault(name, "0", 0)], then scan_number; nothing scanned is 0. *)
Definition var_number (name : bytes) (e : E) : Z :=
  let s := default (b "0") (var_lookup name e) in
  let '(k, v, _) := scan_number s 0 in
  if (k =? 0)%nat then 0 else v.

Definition expand_arith_assign (id : kind) (lhs : node) (right : E -> ares E) (e : E) : ares E :=
  match lhs with
  | nargparam _ (c :: name) _ _ =>
      let name := c :: name in
      let l := var_number name e in
      leta (r, e) := (match right e with AErr e => AOk 0 e | x => x end) in
      leta (v, e) := assign_op id l r e in
      match var_setv name (fmt_longlong v) e with
      | Some e => AOk v e
      | None => AExit e
      end
  | _ => AUndef
  end.

(** The value of a parameter: blanks around it do not count, empty is 0. *)
Definition param_number (value : bytes) (e : E) : ares E :=
  match trim_front (trim_back value) with
  | [] => AOk 0 e
  | t =>
      let '(k, v) := scan_longlong t 0 in
      if (k =? 0)%nat then AErr e else AOk v e
  end.

Fixpoint expand_arith_expr (expr : node) (e : E) : ares E :=
  match expr with
  | nargcmd _ _ =>
      let '(s, e) := expand_tosa expr e in
      let '(_, v, _) := scan_number s 0 in AOk v e
  | narithparen l =>
      match l with x :: _ => expand_arith_expr x e | [] => AErr e end
  | narithternary c t f =>
      expand_arith_ternary (expand_arith_expr c) (expand_arith_expr t) (expand_arith_expr f) e
  | narithunary id a =>
      if kind_in id unary_kinds
      then expand_arith_unary id a
             (match a with Some a => expand_arith_expr a | None => AErr end) e
      else AErr e
  | narithbinary id l r =>
      let r := match r with Some r => expand_arith_expr r | None => AErr end in
      if kind_in id binary_kinds then expand_arith_binary id (expand_arith_expr l) r e
      else if kind_in id assign_kinds then expand_arith_assign id l r e
      else AErr e
  | narithnum v _ => AOk v e
  | nargparam _ _ _ _ =>
      match expand_param expr e with
      | (Some value, e) => param_number value e
      | (None, e) => AExit e
      end
  | _ => AErr e
  end.

(** expand_arith: the field it adds, [inl], or the error, [inr]: the shell
    ends with status 1 unless it is interactive. *)
Inductive arith_word := AWord (field : bytes) (e : E) | AError (exits : bool) (e : E) | AWUndef.

Definition expand_arith (interactive : bool) (tree : option node) (e : E) : arith_word :=
  match (match tree with Some t => expand_arith_expr t e | None => AErr e end) with
  | AOk v e => AWord (fmt_longlong v) e
  | AErr e => AError (negb interactive) e
  | AExit e => AError true e
  | AUndef => AWUndef
  end.

End Eval.

(** ** A store of plain variables *)

Definition vars := gmap bytes (bytes * bool).   (* value, readonly *)

Definition vars_set (name value : bytes) (e : vars) : option vars :=
  match e !! name with
  | Some (_, true) => None
  | _ => Some (<[name := (value, false)]> e)
  end.

(** pow on integers whose power is small enough to be exact in a double *)
Definition exact_pow (l r : Z) : option Z :=
  if (r <? 0) || (2 ^ 53 <? Z.abs l ^ Z.max r 0) then None else Some (l ^ r).

#[export] Instance vars_env : ArithEnv vars := {
  var_lookup := fun name e => fst <$> e !! name;
  var_setv := vars_set;
  var_setvint := fun name i => vars_set name (fmt_long i);
  expand_param := fun n e =>
    (match n with
     | nargparam _ name _ _ => Some (default [] (fst <$> e !! name))
     | _ => None
     end, e);
  expand_tosa := fun _ e => ([], e);
  c_pow := exact_pow
}.

(** Names that expand_param looks up among the variables; it computes the
    values of the last four. *)
Definition stored (name : bytes) : Prop :=
  is_varname name /\ name <> b "RANDOM" /\ name <> b "LINENO" /\ name <> b "LINES" /\ name <> b "COLUMNS".

(** What variables promise: a value set is the value read by name, and also as
    "x" where the name is one that is looked up.  The expansion engine keeps
    this promise when its store of variables does (see [ExpandArith]). *)
Class ArithEnvOk (E : Type) `{ArithEnv E} : Prop := {
  setv_lookup : forall name s e e', stored name -> var_setv name s e = Some e' -> var_lookup name e' = Some s;
  setv_param : forall name s e e', stored name -> var_setv name s e = Some e' ->
    expand_param (nargparam S_ARITH name None 0) e' = (Some s, e');
  setvint_param : forall name i e e', stored name -> i32 i = i -> var_setvint name i e = Some e' ->
    expand_param (nargparam S_ARITH name None 0) e' = (Some (fmt_long i), e')
}.

Lemma vars_set_lookup name s (e e' : vars) :
  vars_set name s e = Some e' -> e' !! name = Some (s, false).
Proof.
  unfold vars_set. destruct (e !! name) as [[? []]|]; intros; simplify_eq; apply lookup_insert_eq.
Qed.

#[export] Instance vars_env_ok : ArithEnvOk vars.
Proof.
  split; simpl; intros; match goal with H : vars_set _ _ _ = _ |- _ => apply vars_set_lookup in H; by rewrite H end.
Qed.

(** ** Reference semantics: integers without a width *)

Definition number_of (s : bytes) : option Z :=
  match trim_front (trim_back s) with
  | [] => Some 0
  | t => let '(k, v) := scan_longlong t 0 in if (k =? 0)%nat then None else Some v
  end.

Section Meaning.
Context (value : node -> option Z).

(** Division is by truncation; one whose result is no [int64] has no value. *)
Definition math_op (id : kind) (l r : Z) : option Z :=
  match id with
  | A_OR => Some (c_bool (c_true l || c_true r))
  | A_AND => Some (c_bool (c_true l && c_true r))
  | A_BITOR => Some (Z.lor l r)
  | A_BITXOR => Some (Z.lxor l r)
  | A_BITAND => Some (Z.land l r)
  | A_EQ => Some (c_bool (bool_decide (l = r)))
  | A_NE => Some (c_bool (bool_decide (l <> r)))
  | A_LT => Some (c_bool (bool_decide (l < r)))
  | A_GT => Some (c_bool (bool_decide (l > r)))
  | A_GE => Some (c_bool (bool_decide (l >= r)))
  | A_LE => Some (c_bool (bool_decide (l <= r)))
  | A_SHL => Some (l * 2 ^ r)
  | A_SHR => Some (l / 2 ^ r)
  | A_ADD => Some (l + r)
  | A_SUB => Some (l - r)
  | A_MUL => Some (l * r)
  | A_DIV => if bool_decide (r = 0 \/ ~ in_i64 (Z.quot l r)) then None else Some (Z.quot l r)
  | A_MOD => if bool_decide (r = 0 \/ ~ in_i64 (Z.quot l r)) then None else Some (Z.rem l r)
  | _ => None
  end.

Definition math_unary (id : kind) (v : Z) : option Z :=
  match id with
  | A_UNARYMINUS => Some (- v)
  | A_UNARYPLUS => Some v
  | A_NOT => Some (c_bool (bool_decide (v = 0)))
  | A_BNOT => Some (- v - 1)
  | _ => None
  end.

Fixpoint meaning (n : node) : option Z :=
  match n with
  | narithnum v _ => Some v
  | nargparam _ _ _ _ => value n
  | narithparen (x :: _) => meaning x
  | narithternary c t f =>
      match meaning c with
      | Some c => if bool_decide (c = 0) then meaning f else meaning t
      | None => None
      end
  | narithunary id (Some a) => meaning a ≫= math_unary id
  | narithbinary id l (Some r) =>
      match meaning l with
      | Some l =>
          if bool_decide (id = A_AND /\ l = 0) then Some 0
          else if bool_decide (id = A_OR /\ l <> 0) then Some 1
          else meaning r ≫= math_op id l
      | None => None
      end
  | _ => None
  end.

End Meaning.

(** The operators of exact arithmetic: all but "**", which goes through [double] *)
Definition exact_kinds : list kind := List.filter (fun id => negb (kind_eqb id A_EXP)) binary_kinds.

(** Expressions without assignments, increments, "**" and command substitutions *)
Fixpoint pure_expr (n : node) : bool :=
  match n with
  | narithnum v _ => bool_decide (in_i64 v)
  | nargparam _ _ _ _ => true
  | narithparen (x :: _) => pure_expr x
  | narithternary c t f => pure_expr c && pure_expr t && pure_expr f
  | narithunary id (Some a) =>
      kind_in id [A_UNARYMINUS; A_UNARYPLUS; A_NOT; A_BNOT] && pure_expr a
  | narithbinary id l (Some r) => kind_in id exact_kinds && pure_expr l && pure_expr r
  | _ => false
  end.

(** Where C defines the operator: no overflow, a shift count below the width,
    nothing negative shifted to the left. *)
Definition op_defined (id : kind) (l r : Z) : Prop :=
  match id with
  | A_SHL => 0 <= r < 64 /\ 0 <= l /\ in_i64 (l * 2 ^ r)
  | A_SHR => 0 <= r < 64
  | A_ADD => in_i64 (l + r)
  | A_SUB => in_i64 (l - r)
  | A_MUL => in_i64 (l * r)
  | _ => True
  end.

(** Every operator that is evaluated is defined, every parameter has a text. *)
Fixpoint defined (value : node -> option Z) (text : node -> Prop)
    (n : node) : Prop :=
  match n with
  | nargparam _ _ _ _ => text n
  | narithparen (x :: _) => defined value text x
  | narithternary c t f =>
      defined value text c /\
      (forall v, meaning value c = Some v ->
         if v =? 0 then defined value text f else defined value text t)
  | narithunary id (Some a) =>
      defined value text a /\
      (forall v r, meaning value a = Some v -> math_unary id v = Some r -> in_i64 r)
  | narithbinary id l (Some r) =>
      defined value text l /\
      (forall v, meaning value l = Some v -> (id = A_AND -> v <> 0) -> (id = A_OR -> v = 0) ->
         defined value text r /\
         forall w, meaning value r = Some w -> op_defined id v w)
  | _ => True
  end.

(** ** The evaluator computes the meaning *)

(** [scan_longlong] stays in range, whatever the text. *)
Lemma scan_longlong_range s : in_i64 (snd (scan_longlong s 0)).
Proof.
  unfold scan_longlong. set (o := if (chd s =? ch "-") || _ then _ else _).
  destruct (scan_ulonglong (drop o s) 0) as [i l]. destruct (0 <? i)%nat; [|done].
  destruct (l >? _); cbn [snd]; case_test; auto with words; done.
Qed.

Lemma number_of_range s v : number_of s = Some v -> in_i64 v.
Proof.
  unfold number_of. pose proof (scan_longlong_range (trim_front (trim_back s))) as R.
  destruct (trim_front (trim_back s)); [by intros; simplify_eq|].
  destruct (scan_longlong _ 0) as [k w]. case_test; intros; by simplify_eq.
Qed.

Section Correct.
Context {E : Type} `{ArithEnv E} (e : E).
Context (param_pure : forall n, snd (expand_param n e) = e).

Definition param_value (n : node) : option Z :=
  match expand_param n e with
  | (Some s, _) => number_of s
  | (None, _) => None
  end.

(** How a result relates to the meaning: the value is exact and fits, an error
    means there is none; no promise on undefined behaviour. *)
Definition agrees (r : ares E) (m : option Z) : Prop :=
  match r with
  | AOk v e' => e' = e /\ m = Some v /\ in_i64 v
  | AErr e' => e' = e /\ m = None
  | AExit _ | AUndef => True
  end.

Lemma agrees_chk z : agrees (chk z e) (Some z).
Proof. unfold chk. by case_bool_decide. Qed.

Lemma bool_decide_eqb x y : bool_decide (x = y) = (x =? y).
Proof. case_bool_decide; symmetry; [by apply Z.eqb_eq|by apply Z.eqb_neq]. Qed.

Lemma agrees_bool x y : x = y -> agrees (AOk (c_bool x) e) (Some (c_bool y)).
Proof. intros ->. simpl. auto with words. Qed.

Lemma agrees_div id l r : id = A_DIV \/ id = A_MOD -> in_i64 l ->
  agrees (binary_op id l r e) (math_op id l r).
Proof.
  intros Hid Hl. set (q := if kind_eqb id A_DIV then Z.quot l r else Z.rem l r).
  assert (G : binary_op id l r e = (if (r =? 0) || ((r =? -1) && (l =? INT64_MIN)) then AErr e else AOk q e)
    /\ math_op id l r = (if bool_decide (r = 0 \/ ~ in_i64 (Z.quot l r)) then None else Some q)).
  { unfold q, binary_op, c_div, c_mod. destruct Hid as [-> | ->]; cbn; by case_test. }
  destruct G as [-> ->].
  assert (T : (r =? 0) || ((r =? -1) && (l =? INT64_MIN)) = bool_decide (r = 0 \/ ~ in_i64 (Z.quot l r))).
  { apply eq_true_iff_eq. rewrite orb_true_iff, andb_true_iff, !Z.eqb_eq, bool_decide_eq_true.
    destruct (Z.eq_dec r 0); [tauto|]. rewrite quot_in_i64 by done. unfold INT64_MIN. lia. }
  rewrite T. case_bool_decide as D; [done|]. apply Decidable.not_or in D as [Hr Q].
  cbn [agrees]. split_and!; [done..|]. unfold q. destruct (kind_eqb id A_DIV); [|auto with words].
  apply dec_stable in Q. done.
Qed.

Lemma exact_kind id : kind_in id exact_kinds = true -> kind_in id binary_kinds = true /\ id <> A_EXP.
Proof. by destruct id. Qed.

Lemma agrees_binary id l r : id <> A_EXP -> in_i64 l -> in_i64 r -> agrees (binary_op id l r e) (math_op id l r).
Proof.
  intros Ne Hl Hr.
  destruct id; try done; try (by apply agrees_div; auto); try apply agrees_chk;
    try (apply agrees_bool; first [done | apply eq_true_iff_eq; rewrite ?negb_true_iff, ?bool_decide_eq_true;
      rewrite ?Z.eqb_eq, ?Z.eqb_neq, ?Z.ltb_lt, ?Z.leb_le; lia]);
    try (cbn [binary_op math_op agrees]; auto with words).
  - (* << *) unfold shift_left. case_test; [done|]. zify_bool.
    rewrite Z.shiftl_mul_pow2 by done. apply agrees_chk.
  - (* >> *) unfold shift_right. case_test; [done|]. zify_bool.
    cbn [agrees]. rewrite <-Z.shiftr_div_pow2 by done. auto with words.
Qed.

Lemma agrees_unary id v : in_i64 v -> kind_in id [A_UNARYMINUS; A_UNARYPLUS; A_NOT; A_BNOT] = true ->
  forall a, agrees (expand_arith_unary id a (fun e => AOk v e) e) (math_unary id v).
Proof.
  intros Hv Hid a. assert (Hp : pre_post id = false) by (by destruct id).
  unfold expand_arith_unary. cbn [bindA].
  assert (C : forall r, math_unary id v = Some r -> unary_result id v = (r, v) ->
    agrees (let '(r, v') := unary_result id v in
            leta (r, e) := chk r e in leta (v', e) := chk v' e in AOk r e) (math_unary id v)).
  { intros r -> ->. unfold chk at 1. case_bool_decide; [|done]. cbn [bindA].
    unfold chk. rewrite bool_decide_true by done. done. }
  rewrite Hp. destruct id; try done; apply (C _ eq_refl); cbn [unary_result]; repeat f_equal;
    unfold Z.lnot, c_true; try lia. by rewrite negb_involutive, bool_decide_eqb.
Qed.

(** A sequenced evaluation agrees when both halves do. *)
Lemma agrees_bind r m k f : agrees r m ->
  (forall v, in_i64 v -> r = AOk v e -> m = Some v -> agrees (k v e) (f v)) ->
  agrees (bindA r k) (m ≫= f).
Proof.
  intros Hr Hk. destruct r; simpl in *; [|by destruct Hr as [-> ->]|done..].
  destruct Hr as (-> & -> & Hv). auto.
Qed.

Lemma param_agrees n : agrees
  (match expand_param n e with (Some s, e) => param_number s e | (None, e) => AExit e end)
  (param_value n).
Proof.
  unfold param_value, param_number. pose proof (param_pure n) as P.
  destruct (expand_param n e) as [[s|] e'] eqn:X; simpl in P; subst; [|done].
  pose proof (number_of_range s) as R. unfold number_of in *.
  destruct (trim_front (trim_back s)); [simpl; auto|].
  destruct (scan_longlong _ 0) as [k v]. case_test; simpl; auto.
Qed.

(** A pure expression is evaluated to its meaning. *)
Lemma pure_agrees n : pure_expr n = true ->
  agrees (expand_arith_expr n e) (meaning param_value n).
Proof.
  induction n using node_ind'; try done; intros Hp.
  - apply param_agrees.
  - cbn in Hp |- *. apply bool_decide_eq_true in Hp. done.
  - destruct t as [|x t]; [done|]. inversion_clear H0. auto.
  - cbn [pure_expr expand_arith_expr meaning] in Hp |- *.
    apply andb_true_iff in Hp as [[Hc Ht]%andb_true_iff Hf]. unfold expand_arith_ternary.
    replace (match meaning param_value n1 with Some _ => _ | None => _ end) with
      (meaning param_value n1 ≫= fun c => if bool_decide (c = 0) then meaning param_value n3
         else meaning param_value n2) by (by destruct (meaning _ n1)).
    apply agrees_bind; [auto|]. intros v _ _ _. rewrite bool_decide_eqb.
    unfold c_true. destruct (v =? 0); simpl; auto.
  - destruct r as [r|]; [|done]. cbn [pure_expr expand_arith_expr meaning] in Hp |- *.
    apply andb_true_iff in Hp as [[[Hid Hne]%exact_kind Hl']%andb_true_iff Hr]. rewrite Hid.
    unfold expand_arith_binary.
    replace (match meaning param_value n with Some _ => _ | None => _ end) with
      (meaning param_value n ≫= fun l =>
         if bool_decide (id = A_AND /\ l = 0) then Some 0
         else if bool_decide (id = A_OR /\ l <> 0) then Some 1
         else meaning param_value r ≫= math_op id l) by (by destruct (meaning _ n)).
    apply agrees_bind; [auto|]. intros l Hl _ _.
    replace (kind_eqb id A_AND && negb (c_true l)) with (bool_decide (id = A_AND /\ l = 0)).
    2: { unfold kind_eqb, c_true. rewrite bool_decide_and, bool_decide_eqb, negb_involutive. done. }
    replace (kind_eqb id A_OR && c_true l) with (bool_decide (id = A_OR /\ l <> 0)).
    2: { unfold kind_eqb, c_true. rewrite bool_decide_and, bool_decide_not, bool_decide_eqb. done. }
    case_bool_decide; [by split_and!|]. case_bool_decide; [by split_and!|].
    apply agrees_bind; [auto|]. intros v Hv _ _. by apply agrees_binary.
  - destruct a as [a|]; [|done]. cbn [pure_expr expand_arith_expr meaning] in Hp |- *.
    apply andb_true_iff in Hp as [Hid Ha].
    assert (kind_in id unary_kinds = true) as -> by (by destruct id).
    specialize (H0 Ha). pose proof (fun v Hv => agrees_unary id v Hv Hid (Some a)) as U.
    unfold expand_arith_unary in *. apply agrees_bind; [done|]. intros v Hv _ _. by apply U.
Qed.

Definition is_result (r : ares E) : Prop :=
  match r with AOk _ _ | AErr _ => True | AExit _ | AUndef => False end.

Lemma is_result_bind r m k : agrees r m -> is_result r ->
  (forall v, in_i64 v -> m = Some v -> is_result (k v e)) -> is_result (bindA r k).
Proof. destruct r; simpl; try done. intros (-> & -> & Hv) _ Hk. auto. Qed.

Lemma chk_result z : in_i64 z -> chk z e = AOk z e.
Proof. intros. unfold chk. by rewrite bool_decide_true. Qed.

Lemma binary_result id l r : id <> A_EXP -> in_i64 l -> in_i64 r -> op_defined id l r ->
  is_result (binary_op id l r e).
Proof.
  intros Ne Hl Hr. destruct id; cbn [op_defined binary_op]; intros D; rewrite ?chk_result by done; try done.
  - unfold shift_left. destruct D as (? & ? & D). replace (_ || _) with false by lia.
    rewrite Z.shiftl_mul_pow2 by lia. by rewrite chk_result.
  - unfold shift_right. by replace (_ || _) with false by lia.
  - unfold c_div. by destruct ((r =? 0) || _).
  - unfold c_mod. by destruct ((r =? 0) || _).
Qed.

Lemma pure_defined n : pure_expr n = true ->
  defined param_value (fun n => is_Some (fst (expand_param n e))) n ->
  is_result (expand_arith_expr n e).
Proof.
  induction n using node_ind'; try done; intros Hp D.
  - cbn [expand_arith_expr]. cbn in D. destruct D as [s D].
    destruct (expand_param _ e) as [o e']. simpl in D. subst. unfold param_number.
    destruct (trim_front _); [done|]. destruct (scan_longlong _ 0). by case_test.
  - destruct t as [|x t]; [done|]. inversion_clear H0. auto.
  - cbn [pure_expr expand_arith_expr defined] in *.
    apply andb_true_iff in Hp as [[Hc Ht]%andb_true_iff Hf]. destruct D as [D1 D2].
    unfold expand_arith_ternary. apply (is_result_bind _ _ _ (pure_agrees _ Hc)); [auto|].
    intros v _ Hv. specialize (D2 v Hv). unfold c_true. destruct (v =? 0); simpl; auto.
  - destruct r as [r|]; [|done]. cbn [pure_expr expand_arith_expr defined] in *.
    apply andb_true_iff in Hp as [[[Hid Hne]%exact_kind Hl']%andb_true_iff Hr]. rewrite Hid. destruct D as [D1 D2].
    unfold expand_arith_binary. apply (is_result_bind _ _ _ (pure_agrees _ Hl')); [auto|].
    intros l Hl Hv. specialize (D2 l Hv).
    unfold c_true, kind_eqb. rewrite negb_involutive.
    destruct (bool_decide (id = A_AND) && (l =? 0)) eqn:S1; [done|].
    destruct (bool_decide (id = A_OR) && negb (l =? 0)) eqn:S2; [done|].
    destruct D2 as [D2 D3].
    { intros ->. cbn in S1. by apply Z.eqb_neq in S1. }
    { intros ->. cbn in S2. apply negb_false_iff in S2. by apply Z.eqb_eq in S2. }
    apply (is_result_bind _ _ _ (pure_agrees _ Hr)); [by apply H0|].
    intros v Hv' Hm. apply binary_result; auto.
  - destruct a as [a|]; [|done]. cbn [pure_expr expand_arith_expr defined] in *.
    apply andb_true_iff in Hp as [Hid Ha]. destruct D as [D1 D2].
    assert (kind_in id unary_kinds = true) as -> by (by destruct id).
    unfold expand_arith_unary. apply (is_result_bind _ _ _ (pure_agrees _ Ha)); [by apply H0|].
    intros v Hv Hm. specialize (D2 v).
    assert (pre_post id = false) as -> by (by destruct id).
    destruct id; try done; cbn [unary_result];
      (rewrite chk_result; [cbn [bindA]; by rewrite chk_result|]);
      auto with words; apply (D2 _ Hm); simpl; f_equal; lia.
Qed.

End Correct.

(** ** Reading a variable back *)

Lemma num_char_blank c : num_char c -> is_blank c = false.
Proof. unfold num_char, is_digit, is_blank. intros [?| ->]; [|done]. lia. Qed.

Lemma trim_numbers s : Forall num_char s -> trim_front (trim_back s) = s.
Proof.
  intros Hs. assert (T : forall l, Forall num_char l -> trim_front l = l).
  { intros [|c l] Hl; [done|]. inversion_clear Hl. simpl. by rewrite num_char_blank. }
  unfold trim_back. rewrite (T (rev s)) by (by apply Forall_rev). rewrite rev_involutive. auto.
Qed.

Lemma scan_fmt_value v : in_i64 v -> exists k, scan_longlong (fmt_longlong v) 0 = (S k, v).
Proof.
  intros Hv. pose proof (scan_fmt_longlong v [] 0 Hv (List.Forall_nil _)) as S. rewrite app_nil_r in S.
  pose proof (fmt_longlong_nil v). destruct (fmt_longlong v) as [|c s]; [done|].
  exists (List.length s). apply S. vm_compute. intros [? ?]; congruence.
Qed.

Lemma param_number_fmt {E} v (e : E) : in_i64 v -> param_number (fmt_longlong v) e = AOk v e.
Proof.
  intros Hv. unfold param_number. rewrite trim_numbers by (by apply fmt_longlong_chars).
  destruct (scan_fmt_value v Hv) as [k S]. pose proof (fmt_longlong_nil v).
  destruct (fmt_longlong v); [done|]. by rewrite S.
Qed.

(** The base detection of scan_number does not misread a stored decimal. *)
Lemma scan_number_fmt v : in_i64 v ->
  (let '(k, w, _) := scan_number (fmt_longlong v) 0 in if (k =? 0)%nat then 0 else w) = v.
Proof.
  intros Hv. unfold scan_number. destruct (Z.eq_dec v 0) as [->|H0]; [done|].
  pose proof (fmt_longlong_head v Hv H0) as Hh. apply Z.eqb_neq in Hh.
  change (ch "0") with 48. rewrite Hh. destruct (scan_fmt_value v Hv) as [k ->]. done.
Qed.

(** ** Properties *)


Definition sample_vars : vars := {[ b "x" := (b " 7 ", false); b "y" := (b "7", false); b "r" := (b "1", true) ]}.

(** "(x - 1) / 2 * 3 > 8 && 1 << 4" *)
Definition sample_expr : node :=
  narithbinary A_AND
    (narithbinary A_GT
       (narithbinary A_MUL
          (narithbinary A_DIV
             (narithparen [narithbinary A_SUB (nargparam S_ARITH (b "x") None 0) (Some (narithnum 1 10))])
             (Some (narithnum 2 10)))
          (Some (narithnum 3 10)))
       (Some (narithnum 8 10)))
    (Some (narithbinary A_SHL (narithnum 1 10) (Some (narithnum 4 10)))).


(** An assignment leaves the value it has: after [name = e], [name += e] and
    the others gave [v], the variable is [v], used as an operand and as the left
    side of an assignment. *)
Lemma assign_reads_back {E} `{ArithEnvOk E} (id : kind) (name : bytes)
    (right : option node) (e e' : E) (v : Z) :
  stored name -> in_i64 v -> kind_in id assign_kinds = true ->
  expand_arith_expr (narithbinary id (nargparam S_ARITH name None 0) right) e = AOk v e' ->
  expand_arith_expr (nargparam S_ARITH name None 0) e' = AOk v e' /\ var_number name e' = v.
Proof.
  intros St Hv Hid Hrun. cbn [expand_arith_expr] in Hrun.
  replace (kind_in id binary_kinds) with false in Hrun by (by destruct id). rewrite Hid in Hrun.
  unfold expand_arith_assign in Hrun. destruct name as [|c name]; [done|].
  set (nm := c :: name) in *.
  destruct (match _ with AErr e => AOk 0 e | x => x end) as [r e1| | |]; try done. cbn [bindA] in Hrun.
  destruct (assign_op id _ r e1) as [w e2| | |]; try done. cbn [bindA] in Hrun.
  destruct (var_setv nm (fmt_longlong w) e2) as [e3|] eqn:Hset; [|done]. injection Hrun as -> ->.
  split.
  - cbn [expand_arith_expr]. rewrite (setv_param _ _ _ _ St Hset). by apply param_number_fmt.
  - unfold var_number. rewrite (setv_lookup _ _ _ _ St Hset). exact (scan_number_fmt v Hv).
Qed.

Lemma i32_i32 z : i32 (i32 z) = i32 z.
Proof.
  unfold i32. pose proof (Z.mod_pos_bound (z + 2 ^ 31) (2 ^ 32)).
  rewrite (Z.mod_small (_ - 2 ^ 31 + 2 ^ 31)) by lia. lia.
Qed.

(** An increment or decrement stores its new value as a C [int]: the
    variable read afterwards has the low 32 bits, sign-extended, of the value
    the expression of [++name] or [--name] had (a name whose value is stored, not
    computed, see [stored]). *)
Theorem expand_arith_incr_stores_int {E} `{ArithEnvOk E} (id : kind) (name : bytes) (e e' : E) (r : Z) :
  stored name -> id = A_PREINCR \/ id = A_PREDECR ->
  expand_arith_expr (narithunary id (Some (nargparam S_ARITH name None 0))) e = AOk r e' ->
  expand_arith_expr (nargparam S_ARITH name None 0) e' = AOk (i32 r) e'.
Proof.
  intros St Hid Hrun. cbn [expand_arith_expr] in Hrun.
  replace (kind_in id unary_kinds) with true in Hrun by (by destruct Hid as [-> | ->]).
  unfold expand_arith_unary in Hrun.
  match type of Hrun with bindA ?o _ = _ => destruct o as [v e1| | |] end; try done.
  cbn [bindA] in Hrun.
  destruct (unary_result id v) as [w w'] eqn:U.
  assert (w' = w) as -> by (destruct Hid as [-> | ->]; cbn in U; congruence).
  replace (pre_post id) with true in Hrun by (by destruct Hid as [-> | ->]).
  unfold chk in Hrun. case_bool_decide; [|done]. cbn [bindA] in Hrun. destruct name as [|c name]; [done|].
  set (nm := c :: name) in *.
  destruct (var_setvint nm (i32 w) e1) as [e2|] eqn:Hset; [|done]. injection Hrun as -> ->.
  cbn [expand_arith_expr]. rewrite (setvint_param _ _ _ _ St (i32_i32 _) Hset).
  apply (param_number_fmt (i32 r)). unfold in_i64, i32. pose proof (Z.mod_pos_bound (r + 2 ^ 31) (2 ^ 32)). lia.
Qed.

Lemma expand_arith_incr_stores_int_witness :
  let e : vars := {[ b "x" := (b "2147483647", false) ]} in
  let e' : vars := {[ b "x" := (b "-2147483648", false) ]} in
  expand_arith_expr (narithunary A_PREINCR (Some (nargparam S_ARITH (b "x") None 0))) e
    = AOk 2147483648 e' /\
  expand_arith_expr (nargparam S_ARITH (b "x") None 0) e' = AOk (-2147483648) e'.
Proof.
  cbv zeta. set (e := {[ b "x" := (b "2147483647", false) ]} : vars).
  set (e' := {[ b "x" := _ ]} : vars).
  assert (R : expand_arith_expr (narithunary A_PREINCR (Some (nargparam S_ARITH (b "x") None 0))) e
    = AOk 2147483648 e') by (vm_compute; reflexivity).
  split; [exact R|].
  apply (expand_arith_incr_stores_int A_PREINCR (b "x") e e' 2147483648 ltac:(by repeat split; repeat constructor) (or_introl eq_refl) R).
Defined.

(** Only what decides the result is evaluated: when the left operand of
    "&&" is zero, or that of "||" is not, the right operand is not run, and of
    the two branches of "?:" only the taken one is, whatever the other would
    have done to the variables or to the shell. *)
Theorem expand_arith_lazy {E} `{ArithEnv E} (c x y y' : node) (e e' : E) (v : Z) :
  expand_arith_expr c e = AOk v e' ->
  expand_arith_expr (narithbinary A_AND c (Some x)) e
    = (if v =? 0 then AOk 0 e' else leta (r, e2) := expand_arith_expr x e' in AOk (c_bool (c_true r)) e2)
  /\ expand_arith_expr (narithbinary A_OR c (Some x)) e
    = (if v =? 0 then leta (r, e2) := expand_arith_expr x e' in AOk (c_bool (c_true r)) e2 else AOk 1 e')
  /\ expand_arith_expr (narithternary c y y') e = expand_arith_expr (if v =? 0 then y' else y) e'.
Proof.
  intros Hc. cbn [expand_arith_expr]. unfold expand_arith_binary, expand_arith_ternary.
  change (kind_in A_AND binary_kinds) with true. change (kind_in A_OR binary_kinds) with true.
  rewrite Hc. cbn [bindA].
  change (kind_eqb A_AND A_AND) with true. change (kind_eqb A_OR A_AND) with false.
  change (kind_eqb A_AND A_OR) with false. change (kind_eqb A_OR A_OR) with true.
  unfold c_true. destruct (v =? 0) eqn:V; cbn [negb andb]; split_and!; try done.
  all: destruct (expand_arith_expr x e') as [r e2| | |]; try done; cbn [bindA binary_op];
    unfold c_true; by rewrite V.
Qed.

(** "0 && (x = 1)", "x ? 1 : (x /= 0)" *)
Lemma expand_arith_lazy_witness :
  let e := sample_vars in
  expand_arith_expr (narithnum 0 10) e = AOk 0 e /\
  expand_arith_expr (narithbinary A_AND (narithnum 0 10)
    (Some (narithbinary A_VASSIGN (nargparam S_ARITH (b "x") None 0) (Some (narithnum 1 10))))) e
  = AOk 0 e.
Proof.
  cbv zeta. split; [reflexivity|].
  refine (proj1 (expand_arith_lazy (narithnum 0 10) _ (narithnum 0 10) (narithnum 0 10)
    sample_vars sample_vars 0 eq_refl)).
Defined.

(** ** Behaviour worth knowing *)

(** "x /= 0" divides: the guard of "/" is missing from the assignments. *)
Example assign_division_undefined :
  expand_arith_expr (narithbinary A_VDIV (nargparam S_ARITH (b "x") None 0) (Some (narithnum 0 10)))
    sample_vars = AUndef
  /\ expand_arith_expr (narithbinary A_DIV (nargparam S_ARITH (b "x") None 0) (Some (narithnum 0 10)))
    sample_vars = AErr sample_vars.
Proof. split; vm_compute; reflexivity. Qed.

(** "x = 1 / 0" assigns 0 and succeeds: the error of the right side is dropped. *)
Example assign_ignores_error :
  expand_arith_expr (narithbinary A_VASSIGN (nargparam S_ARITH (b "x") None 0)
    (Some (narithbinary A_DIV (narithnum 1 10) (Some (narithnum 0 10))))) sample_vars
  = AOk 0 (<[b "x" := (b "0", false)]> sample_vars).
Proof. vm_compute. reflexivity. Qed.

(** "010" is 10 as an operand, 8 as the left side of "+=". *)
Example octal_read_differs :
  let e : vars := {[ b "x" := (b "010", false) ]} in
  expand_arith_expr (nargparam S_ARITH (b "x") None 0) e = AOk 10 e /\ var_number (b "x") e = 8.
Proof. split; vm_compute; reflexivity. Qed.

(** The parenthesised list "(1, 2)" has the value of its first member. *)
Example comma_takes_first :
  expand_arith_expr (narithparen [narithnum 1 10; narithnum 2 10]) sample_vars = AOk 1 sample_vars.
Proof. vm_compute. reflexivity. Qed.

(** A nested "$((1))" is not an operand. *)
Example nested_arith_unsupported :
  expand_arith_expr (nargarith 0 (Some (narithnum 1 10))) sample_vars = AErr sample_vars.
Proof. reflexivity. Qed.
