(* ===== verification/LexState.v ===== *)
(** * The parser's state and tokens (src/parse.h, parse_init.c, parse_string.c,
      parse_newnode.c, parse_getarg.c, parse_keyword.c)

    What the functions of src/parse share: the parser structure, the token
    flags, and the steps that move text into the tree of the word being read.
    The source the parser reads is the global [source]; here it is a field. *)

From S2P Require Import Prelude Chars Source Tree ArithParse.

(** ** Tokens *)

Definition T_EOF : Z := 0x1.
Definition T_NL : Z := 0x2.
Definition T_SEMI : Z := 0x4.
Definition T_ECASE : Z := 0x8.
Definition T_BGND : Z := 0x10.
Definition T_AND : Z := 0x20.
Definition T_PIPE : Z := 0x40.
Definition T_OR : Z := 0x80.
Definition T_LP : Z := 0x100.
Definition T_RP : Z := 0x200.
Definition T_BQ : Z := 0x400.
Definition T_NAME : Z := 0x800.
Definition T_WORD : Z := 0x1000.
Definition T_ASSIGN : Z := 0x2000.
Definition T_REDIR : Z := 0x4000.
Definition T_NOT : Z := 0x8000.
Definition T_CASE : Z := 0x10000.
Definition T_DO : Z := 0x20000.
Definition T_DONE : Z := 0x40000.
Definition T_ELIF : Z := 0x80000.
Definition T_ELSE : Z := 0x100000.
Definition T_ESAC : Z := 0x200000.
Definition T_FI : Z := 0x400000.
Definition T_FOR : Z := 0x800000.
Definition T_IF : Z := 0x1000000.
Definition T_IN : Z := 0x2000000.
Definition T_THEN : Z := 0x4000000.
Definition T_UNTIL : Z := 0x8000000.
Definition T_WHILE : Z := 0x10000000.
Definition T_BEGIN : Z := 0x20000000.
Definition T_END : Z := 0x40000000.
Definition T_NONE : Z := -1.

Definition tok_in (tok mask : Z) : bool := c_true (Z.land tok mask).

(** The names of TI_CASE to TI_WHILE in parse_tokens *)
Definition keywords : list (bytes * Z) :=
  [ (b "case", T_CASE); (b "do", T_DO); (b "done", T_DONE); (b "elif", T_ELIF); (b "else", T_ELSE);
    (b "esac", T_ESAC); (b "fi", T_FI); (b "for", T_FOR); (b "if", T_IF); (b "in", T_IN);
    (b "then", T_THEN); (b "until", T_UNTIL); (b "while", T_WHILE) ].

(** ** Flags of a parser *)

Definition P_DEFAULT : Z := 0x0000.
Definition P_IACTIVE : Z := 0x0001.
Definition P_NOKEYWD : Z := 0x0002.
Definition P_NOASSIGN : Z := 0x0004.
Definition P_NOREDIR : Z := 0x0008.
Definition P_SKIPNL : Z := 0x0010.
Definition P_BQUOTE : Z := 0x0040.
Definition P_NOSUBST : Z := 0x0080.
Definition P_HERE : Z := 0x0100.
Definition P_ARITH : Z := 0x0200.
Definition P_KWIN : Z := 0x2000.
Definition P_KWDO : Z := 0x4000.

Definition Q_SQUOTED : Z := 2.

(** ** State *)

(** struct parser.  [p_tree] is the chain from [tree]; [node] is its last
    node, or, with [p_node] and no tree, what parse_getarg left behind. *)
Record parser := Parser
  { p_flags : Z; p_pushback : bool; p_quot : Z; p_tok : Z; p_sa : bytes;
    p_tree : list node; p_node : bool; p_source : source }.

(** parse_init *)
Definition parse_init (flags : Z) (st : source) : parser := Parser flags false Q_UNQUOTED 0 [] [] false st.

Definition with_source (st : source) (p : parser) : parser :=
  Parser (p_flags p) (p_pushback p) (p_quot p) (p_tok p) (p_sa p) (p_tree p) (p_node p) st.
Definition with_flags (fl : Z) (p : parser) : parser :=
  Parser fl (p_pushback p) (p_quot p) (p_tok p) (p_sa p) (p_tree p) (p_node p) (p_source p).
Definition with_pushback (x : bool) (p : parser) : parser :=
  Parser (p_flags p) x (p_quot p) (p_tok p) (p_sa p) (p_tree p) (p_node p) (p_source p).
Definition with_quot (q : Z) (p : parser) : parser :=
  Parser (p_flags p) (p_pushback p) q (p_tok p) (p_sa p) (p_tree p) (p_node p) (p_source p).
Definition with_tok (t : Z) (p : parser) : parser :=
  Parser (p_flags p) (p_pushback p) (p_quot p) t (p_sa p) (p_tree p) (p_node p) (p_source p).
Definition with_sa (sa : bytes) (p : parser) : parser :=
  Parser (p_flags p) (p_pushback p) (p_quot p) (p_tok p) sa (p_tree p) (p_node p) (p_source p).
Definition with_tree (l : list node) (node : bool) (p : parser) : parser :=
  Parser (p_flags p) (p_pushback p) (p_quot p) (p_tok p) (p_sa p) l node (p_source p).

(** ** Steps *)

Inductive lres (A : Type) :=
  | LOk (a : A) (p : parser)
  | LStop (why : stop)
  | LFuel.
Arguments LOk {A} _ _.
Arguments LStop {A} _.
Arguments LFuel {A}.

Definition L (A : Type) : Type := parser -> lres A.

Definition retL {A} (a : A) : L A := fun p => LOk a p.
Definition bindL {A B} (m : L A) (k : A -> L B) : L B := fun p =>
  match m p with
  | LOk a p => k a p
  | LStop w => LStop w
  | LFuel => LFuel
  end.
Definition stopL {A} (w : stop) : L A := fun _ => LStop w.
Definition out_of_fuel {A} : L A := fun _ => LFuel.
Definition change (f : parser -> parser) : L unit := fun p => LOk tt (f p).
Definition ask {A} (f : parser -> A) : L A := fun p => LOk (f p) p.
Definition reading {A} (f : source -> A * source) : L A := fun p =>
  let '(a, st) := f (p_source p) in LOk a (with_source st p).

Declare Scope lex_scope.
Delimit Scope lex_scope with lex.
Notation "x <- m ;; k" := (bindL m (fun x => k))
  (at level 100, m at next level, k at level 200, right associativity) : lex_scope.
Notation "m ;; k" := (bindL m (fun _ => k))
  (at level 100, k at level 200, right associativity) : lex_scope.
#[global] Open Scope lex_scope.

Definition peek : L (option Z) := reading source_peek.
Definition peekn (n : nat) : L (option Z) := reading (fun st => source_peekn st n).
Definition next : L (option Z) := reading source_next.
Definition get : L (option Z) := reading source_get.
Definition skip : L unit := reading (fun st => (tt, snd (source_skip st))).

(** A bound for any loop that reads at least a character in each round *)
Definition rounds : L nat := ask (fun p => S (S (List.length (s_text (p_source p))))).

(** stralloc_catc and stralloc_catb on p->sa *)
Definition cat (x : bytes) : L unit := change (fun p => with_sa (p_sa p ++ x) p).

Definition flagged (mask : Z) : L bool := ask (fun p => tok_in (p_flags p) mask).

(** "if(p->tok == T_NAME) p->tok = T_WORD" *)
Definition no_name : L unit := change (fun p => if p_tok p =? T_NAME then with_tok T_WORD p else p).

(** [node]: the last of the tree; when redir_parse has made the tree the operand
    of a redirection, it still is the last of that operand. *)
Definition is_redir (n : node) : bool := match n with nredir _ _ _ _ => true | _ => false end.

Fixpoint open_operand (n : node) : list node :=
  match n with
  | nredir _ w _ _ => match w with [m] => if is_redir m then open_operand m else w | _ => w end
  | _ => []
  end.

Definition node_chain (l : list node) : list node :=
  match l with [m] => if is_redir m then open_operand m else l | _ => l end.

(** A change of that chain *)
Fixpoint in_operand (f : list node -> list node) (n : node) : node :=
  match n with
  | nredir fl w d fd =>
      nredir fl (match w with [m] => if is_redir m then [in_operand f m] else f w | _ => f w end) d fd
  | n => n
  end.

Definition in_chain (f : list node -> list node) (l : list node) : list node :=
  match l with [m] => if is_redir m then [in_operand f m] else f l | _ => f l end.

(** parse_newnode; [None]: a tree without a [node] *)
Definition new_node (n : node) (l : list node) : option (list node) :=
  match l, node_chain l with
  | _ :: _, [] => None
  | _, _ => Some (in_chain (fun w => w ++ [n]) l)
  end.

Definition put_node (n : node) : L unit := fun p =>
  match new_node n (p_tree p) with
  | Some l => LOk tt (with_tree l true p)
  | None => LStop Undefined
  end.

(** The node the next text of this quoting joins *)
Definition joins (quot : Z) (o : option node) : bool :=
  match o with Some (nargstr fl _) => Z.land fl S_TABLE =? quot | _ => false end.

Definition join (fl : Z) (s : bytes) (n : node) : node :=
  match n with nargstr fl' s' => nargstr (Z.lor fl' fl) (s' ++ s) | n => n end.

Definition on_last (f : node -> node) (l : list node) : list node :=
  match last l with Some n => take (pred (List.length l)) l ++ [f n] | None => [] end.

Definition on_node (f : node -> node) : list node -> list node := in_chain (on_last f).

Definition parse_string (flags : Z) : L unit :=
  nothing <- ask (fun p => (List.length (p_sa p) =? 0)%nat && (p_quot p =? 0)) ;;
  if nothing : bool then retL tt
  else
    fl <- ask (fun p => Z.lor (p_quot p) flags) ;;
    more <- ask (fun p => joins (p_quot p) (last (node_chain (p_tree p)))) ;;
    (if more : bool then retL tt else put_node (nargstr fl [])) ;;
    change (fun p => with_sa [] (with_tree (on_node (join fl (p_sa p)) (p_tree p)) true p)).

(** N_ARG around the tree; once taken, the tree is gone but [node] is not. *)
Definition parse_getarg : L (option node) := fun p =>
  if p_node p || negb (List.length (p_tree p) =? 0)%nat
  then LOk (Some (narg N_ARG 0 (p_tree p))) (with_tree [] (p_node p) p)
  else LOk None p.

(** ** Keywords *)

(** The inner loop: the text and the name end together. *)
Fixpoint kw_match (sa name : bytes) : bool :=
  match sa with
  | [] => chd name =? 0
  | c :: sa => if c =? chd name then kw_match sa (tail name) else false
  end.

(** The outer loop stops at the first name that is ahead of the text. *)
Fixpoint kw_loop (sa : bytes) (l : list (bytes * Z)) : option Z :=
  match l with
  | [] => None
  | (name, tok) :: l =>
      if schar (chd sa) <? chd name then None
      else if kw_match sa name then Some tok
      else kw_loop sa l
  end.

(** Whether the text is a keyword, which the token then is.  A name of more than
    five characters is none, but the answer is the (nonzero) token. *)
Definition parse_keyword : L bool := fun p =>
  if negb (p_tok p =? T_NAME) then
    match p_sa p with
    | [c] =>
        if c =? ch "{" then LOk true (with_tok T_BEGIN p)
        else if c =? ch "}" then LOk true (with_tok T_END p)
        else if c =? ch "!" then LOk true (with_tok T_NOT p)
        else LOk false p
    | _ => LOk false p
    end
  else if (5 <? List.length (p_sa p))%nat then LOk true p
  else
    match kw_loop (p_sa p) keywords with
    | Some tok => LOk true (with_tok tok p)
    | None => LOk false p
    end.
