(* ===== verification/Lexer.v ===== *)
(** * Words and tokens (src/parse/parse_word.c, parse_unquoted.c, parse_dquoted.c,
      parse_squoted.c, parse_ansiquoted.c, parse_bquoted.c, parse_subst.c,
      parse_param.c, parse_arith.c, parse_simpletok.c, parse_gettok.c,
      src/redir/redir_parse.c, src/sh/sh_unescape.c)

    A word contains commands and a command contains words: the functions here
    take the entry points they call back ([calls]) from Grammar.v, which
    ties the knot.  No alias is defined (parse_findalias finds none), so
    [alias_ok] has no part in the model; what "<<" reads when its line ends is
    not modelled, and such a redirection stops the parse. *)

From S2P Require Import Prelude Scan Chars Source Tree ArithParse LexState.

(** ** Escapes of $'...' (sh_unescape) *)

Fixpoint xchar_loop (s : bytes) (n : nat) (l : Z) (k : nat) : nat * Z :=
  match n, s with
  | S n, x :: s =>
      if negb (Z.shiftr l 4 =? 0) then (k, l)
      else
        let c := u8 (Scan.scan_fromhex x) in
        if c <? 16 then xchar_loop s n (u8 (Z.shiftl l 4 + c)) (S k) else (k, l)
  | _, _ => (k, l)
  end.

(** At most two digits *)
Definition scan_xchar (src : bytes) : nat * Z := xchar_loop src 2 0 0.

Fixpoint oct8_loop (s : bytes) (l : Z) (k : nat) : nat * Z :=
  match s with
  | [] => (k, l)
  | x :: s =>
      let c := u8 (x - ch "0") in
      if (c <? 8) && (Z.shiftr l 29 =? 0) then oct8_loop s (u32 (l * 8 + c)) (S k) else (k, l)
  end.

Definition scan_8int (src : bytes) : nat * Z := oct8_loop src 0 0.

(** The escape behind a backslash: how many characters it takes, and the
    character it is; [ch] keeps its low byte when stored. *)
Definition escape (s : bytes) : nat * Z :=
  let c := chd s in
  if c =? ch "x" then
    let '(n, v) := scan_xchar (tail s) in if (0 <? n)%nat then (S n, v) else (O, v)
  else if c =? ch "0" then scan_8int s
  else if (c =? ch "E") || (c =? ch "e") then (1%nat, 27)
  else if c =? ch "f" then (1%nat, 12)
  else if c =? ch "n" then (1%nat, 10)
  else if c =? ch "r" then (1%nat, 13)
  else if c =? ch "t" then (1%nat, 9)
  else if c =? ch "v" then (1%nat, 11)
  else if c =? ch "b" then (1%nat, 8)
  else if c =? BSL then (1%nat, BSL)
  else (O, BSL).

Fixpoint sh_unescape (fuel : nat) (src : bytes) : bytes :=
  match fuel, src with
  | S fuel, c :: src =>
      if c =? BSL then
        let '(n, v) := escape src in
        u8 v :: sh_unescape fuel (drop n src)
      else c :: sh_unescape fuel src
  | _, _ => []
  end.

(** ** Single quotes *)

(** "break" is [true] here, the return of [-1] too; [0] is [false] *)
Fixpoint squoted_loop (fuel : nat) : L bool :=
  match fuel with
  | O => out_of_fuel
  | S fuel =>
      o <- get ;;
      here <- flagged P_HERE ;;
      match o with
      | None =>
          reading (fun st => (tt, with_squoted st false)) ;;
          if here then cat [NL] ;; retL false else retL true
      | Some c =>
          if negb here && (c =? ch "'") then
            reading (fun st => (tt, with_squoted st false)) ;;
            parse_string 0 ;;
            change (with_quot Q_UNQUOTED) ;;
            parse_string 0 ;;
            retL false
          else
            (if parse_isesc c && negb here then cat [BSL] else retL tt) ;;
            cat [c] ;;
            if here && (c =? NL)
            then reading (fun st => (tt, with_squoted st false)) ;; retL false
            else squoted_loop fuel
      end
  end.

Definition parse_squoted : L bool :=
  no_name ;;
  change (with_quot Q_SQUOTED) ;;
  reading (fun st => (tt, with_squoted st true)) ;;
  n <- rounds ;;
  squoted_loop n.

(** The raw text of $'...', and whether its end was there *)
Fixpoint ansi_loop (fuel : nat) (raw : bytes) : L (option bytes) :=
  match fuel with
  | O => out_of_fuel
  | S fuel =>
      o <- get ;;
      match o with
      | None => retL None
      | Some c =>
          if c =? BSL then
            o <- get ;;
            match o with
            | None => retL None
            | Some n => ansi_loop fuel (raw ++ (if n =? ch "'" then [n] else [c; n]))
            end
          else if c =? ch "'" then retL (Some raw)
          else ansi_loop fuel (raw ++ [c])
      end
  end.

Definition parse_ansiquoted : L bool :=
  n <- rounds ;;
  o <- ansi_loop n [] ;;
  match o with
  | None => retL true
  | Some raw =>
      parse_string 0 ;;
      change (with_quot Q_SQUOTED) ;;
      cat (concat (map (fun c => if parse_isesc c then [BSL; c] else [c]) (sh_unescape (List.length raw) raw))) ;;
      parse_string 0 ;;
      change (with_quot Q_UNQUOTED) ;;
      retL false
  end.

(** ** What words contain *)

(** The functions called back: parse_gettok, parse_word, parse_compound_list and
    parse_command *)
Record calls := Calls
  { r_gettok : Z -> L Z; r_word : L Z; r_compound_list : Z -> L (list node);
    r_command : Z -> L (option node) }.

Section Lexer.
Context (rec : calls) (interactive : bool).

(** The shell leaves on a syntax error unless it is interactive; a parser that
    has read no token (tok 0) says nothing. *)
Definition parse_error : L unit := fun p =>
  if (p_tok p =? 0) || interactive then LOk tt p else LStop SyntaxExit.

Definition parse_dropkeyword : L unit := change (with_tree [] false).

Definition parse_expect (gettok : Z -> L Z) (tempflags toks : Z) : L Z :=
  tok <- gettok tempflags ;;
  if negb (tok_in tok toks) then parse_error ;; retL 0
  else
    change (with_pushback false) ;;
    (if tok_in tok (Z.lor T_FI (Z.lor T_DONE (Z.lor T_ESAC T_END))) then parse_dropkeyword else retL tt) ;;
    retL tok.

(** The body of `...` with its escapes undone *)
Fixpoint parse_bquoted_raw (fuel : nat) (dquoted : bool) (raw : bytes) : L (option bytes) :=
  match fuel with
  | O => out_of_fuel
  | S fuel =>
      o <- peek ;;
      match o with
      | None => retL None
      | Some c =>
          if c =? ch "`" then skip ;; retL (Some raw)
          else if c =? BSL then
            o <- next ;;
            match o with
            | None => retL None
            | Some n =>
                let keep := negb (n =? ch "$") && negb (n =? ch "`") && negb (n =? BSL) && negb (dquoted && (n =? 34)) in
                skip ;;
                parse_bquoted_raw fuel dquoted (raw ++ (if keep then [BSL] else []) ++ [n])
            end
          else skip ;; parse_bquoted_raw fuel dquoted (raw ++ [c])
      end
  end.

(** A parser of its own on the same source *)
Definition sub_parser {A} (flags : Z) (m : L A) : L A := fun p =>
  match m (parse_init flags (p_source p)) with
  | LOk a q => LOk a (with_source (p_source q) p)
  | LStop w => LStop w
  | LFuel => LFuel
  end.

(** On a source of its own (source_buffer, source_popfd): the scanner's state is
    shared. *)
Definition on_text {A} (x : bytes) (m : L A) : L A := fun p =>
  let st := p_source p in
  match m (with_source (Source x (s_bs st) (s_squoted st) (s_comment st) (s_line st) 1 0 (s_skips st)) p) with
  | LOk a q =>
      let st' := p_source q in
      LOk a (with_source (Source (s_text st) (s_bs st') (s_squoted st') (s_comment st')
        (s_line st) (s_column st) (s_offset st) (s_skips st')) q)
  | LStop w => LStop w
  | LFuel => LFuel
  end.

(** The node parse_bquoted makes; [None] is the return of -1 *)
Definition bquoted_node (quot : Z) (dquoted : bool) : L (option node) :=
  o <- peek ;;
  match o with
  | None => retL None
  | Some c =>
      if c =? ch "(" then
        o <- next ;;
        match o with
        | None => retL None
        | Some _ =>
            cmds <- sub_parser P_DEFAULT (r_compound_list rec T_RP) ;;
            retL (match cmds with [] => None | _ => Some (nargcmd quot cmds) end)
        end
      else
        skip ;;
        n <- rounds ;;
        o <- parse_bquoted_raw n dquoted [] ;;
        match o with
        | None => retL None
        | Some raw =>
            cmds <- on_text raw (sub_parser P_DEFAULT (r_compound_list rec T_EOF)) ;;
            retL (match cmds with [] => None | _ => Some (nargcmd (Z.lor S_BQUOTE quot) cmds) end)
        end
  end.

Definition parse_bquoted : L bool :=
  no_name ;;
  quot <- ask p_quot ;;
  here <- flagged P_HERE ;;
  o <- bquoted_node quot ((quot =? Q_DQUOTED) || here) ;;
  match o with
  | None => retL true
  | Some n => put_node n ;; retL false
  end.

Definition as_pres (r : lres (option node)) : pres :=
  match r with LOk n p => PRes n (p_source p) | LStop w => PStop w | LFuel => PFuel end.

Definition of_pres (f : source -> pres) : L (option node) := fun p =>
  match f (p_source p) with
  | PRes n st => LOk n (with_source st p)
  | PStop w => LStop w
  | PFuel => LFuel
  end.

(** "$((": the expression and the two parentheses; [subs] is the rest of the
    lexer as the expression parser sees it. *)
Definition arith_node (subs : SubstParsers) (quot : Z) : L (option node) :=
  skip ;;
  sub_parser (Z.lor P_ARITH P_NOREDIR)
    (tree <- of_pres (fun st => parse_arith_expr (parse_fuel st) st) ;;
     match tree with
     | None => retL None
     | Some _ =>
         t <- parse_expect (r_gettok rec) P_DEFAULT T_RP ;;
         if t =? 0 then retL None
         else
           t <- parse_expect (r_gettok rec) P_DEFAULT T_RP ;;
           if t =? 0 then retL None else retL (Some (nargarith quot tree))
     end).

(** The lexer below an arithmetic expression, nesting at most [depth] deep *)
Fixpoint subst_parsers (depth : nat) : SubstParsers := {|
  sub_word := fun fl st =>
    as_pres ((r_word rec ;; parse_getarg) (parse_init fl st));
  sub_arith := fun st =>
    match depth with
    | O => PFuel
    | S depth => as_pres (arith_node (subst_parsers depth) Q_UNQUOTED (parse_init (Z.lor P_ARITH P_NOREDIR) st))
    end;
  sub_command := fun st => as_pres (bquoted_node Q_UNQUOTED false (parse_init (Z.lor P_ARITH P_NOREDIR) st)) |}.

Definition parse_arith : L bool :=
  quot <- ask p_quot ;;
  n <- rounds ;;
  o <- arith_node (subst_parsers n) quot ;;
  match o with
  | None => retL true
  | Some n => put_node n ;; retL false
  end.

(** The parameter takes the place of an empty unquoted text. *)
Definition put_param (n : node) : L unit :=
  empty <- ask (fun p => match last (node_chain (p_tree p)) with
                         | Some (nargstr fl []) => Z.land fl S_TABLE =? 0
                         | _ => false
                         end) ;;
  if empty : bool then change (fun p => with_tree (on_node (fun _ => n) (p_tree p)) true p)
  else put_node n.

Definition parse_param_word : L bool :=
  quot <- ask p_quot ;;
  arith <- flagged P_ARITH ;;
  n <- rounds ;;
  o <- of_pres (parse_param (H := subst_parsers n) quot arith) ;;
  match o with
  | None => retL true
  | Some (nargparam fl [] word numb) => put_param (nargparam fl [] word numb) ;; retL true
  | Some n => put_param n ;; retL false
  end.

Definition parse_subst_word : L bool :=
  o <- peek ;;
  match o with
  | None => retL true
  | Some c =>
      c <- (if c =? ch "$" then o <- next ;; retL (default c o) else retL c) ;;
      if c =? ch "(" then
        o <- peekn 1 ;;
        match o with
        | None => retL true
        | Some c1 => if c1 =? ch "(" then skip ;; parse_arith else parse_bquoted
        end
      else if parse_isparam c || (c =? ch "{") then parse_param_word
      else
        quot <- ask p_quot ;;
        if (c =? ch "'") && negb (quot =? Q_DQUOTED) then skip ;; parse_ansiquoted
        else cat [ch "$"] ;; retL false
  end.

(** ** Double quotes *)

(** S_QUOTEDEMPTY on the node the opening quote left, when nothing came between *)
Definition quoted_empty (before : nat) : L unit := change (fun p =>
  if (List.length (node_chain (p_tree p)) =? before)%nat then
    match last (node_chain (p_tree p)) with
    | Some (nargstr fl []) => with_tree (on_node (join S_QUOTEDEMPTY []) (p_tree p)) true p
    | _ => p
    end
  else p).

(** [true]: "return -1"; the end of the loop falls to what follows it. *)
Fixpoint dquoted_loop (fuel : nat) : L bool :=
  match fuel with
  | O => out_of_fuel
  | S fuel =>
      here <- flagged P_HERE ;;
      let add c :=
        (if parse_isesc c && negb here then cat [BSL] else retL tt) ;;
        cat [c] ;;
        if here && (c =? NL) then retL false else dquoted_loop fuel in
      o <- peek ;;
      match o with
      | None => if here then cat [NL] ;; retL false else retL true
      | Some c =>
          if c =? BSL then
            line <- ask (fun p => s_line (p_source p)) ;;
            o <- next ;;
            match o with
            | None => retL true
            | Some n =>
                line' <- ask (fun p => s_line (p_source p)) ;;
                if negb (line' =? line) then dquoted_loop fuel
                else if (parse_isdesc n && negb (here && (n =? 34))) || (n =? BSL) then skip ;; add n
                else add c
            end
          else if c =? ch "`" then
            bq <- flagged P_BQUOTE ;;
            if bq then retL false
            else
              parse_string 0 ;;
              stop <- parse_bquoted ;;
              if stop : bool then retL false else dquoted_loop fuel
          else if c =? ch "$" then
            parse_string 0 ;;
            stop <- parse_subst_word ;;
            if stop : bool then retL false else dquoted_loop fuel
          else if negb here && (c =? 34) then
            before <- ask (fun p => if (List.length (p_sa p) =? 0)%nat then List.length (node_chain (p_tree p)) else O) ;;
            skip ;;
            parse_string 0 ;;
            (if (0 <? before)%nat then quoted_empty before else retL tt) ;;
            change (with_quot Q_UNQUOTED) ;;
            retL false
          else skip ;; add c
      end
  end.

Definition parse_dquoted : L bool :=
  flags <- ask p_flags ;;
  no_name ;;
  change (with_quot Q_DQUOTED) ;;
  n <- rounds ;;
  fail <- dquoted_loop n ;;
  if fail : bool then retL true
  else (if tok_in flags P_HERE then retL tt else parse_string flags) ;; retL false.

(** ** Redirections *)

Definition R_IN : Z := 0x01.
Definition R_OUT : Z := 0x02.
Definition R_OPEN : Z := 0x04.
Definition R_DUP : Z := 0x08.
Definition R_HERE : Z := 0x10.
Definition R_STRIP : Z := 0x20.
Definition R_APPEND : Z := 0x40.
Definition R_CLOBBER : Z := 0x80.
Definition FD_MAX : Z := 1024.

(** The operator behind "<" or ">": its flags; [None] is the end of the input *)
Definition redir_operator (rf c : Z) : L (option Z) :=
  if tok_in rf R_IN then
    if c =? ch "<" then
      cat [c] ;;
      o <- next ;;
      match o with
      | None => retL None
      | Some c =>
          rf <- (if c =? ch "-" then cat [c] ;; skip ;; retL (Z.lor rf (Z.lor R_HERE R_STRIP))
                 else retL (Z.lor rf R_HERE)) ;;
          change (fun p => with_flags (Z.lor (p_flags p) P_NOSUBST) p) ;;
          retL (Some rf)
      end
    else if c =? ch "&" then cat [c] ;; skip ;; retL (Some (Z.lor rf R_DUP))
    else if c =? ch ">" then cat [c] ;; skip ;; retL (Some (Z.lor rf (Z.lor R_OUT R_OPEN)))
    else retL (Some (Z.lor rf R_OPEN))
  else
    if c =? ch "&" then cat [c] ;; skip ;; retL (Some (Z.lor rf R_DUP))
    else if c =? ch ">" then cat [c] ;; skip ;; retL (Some (Z.lor rf (Z.lor R_APPEND R_OPEN)))
    else if c =? ch "|" then cat [c] ;; skip ;; retL (Some (Z.lor rf (Z.lor R_CLOBBER R_OPEN)))
    else retL (Some (Z.lor rf R_OPEN)).

(** [true] is the return of 1 (T_EOF is 1 too); [false]: no word followed *)
Definition redir_parse (rf fd : Z) : L bool :=
  o <- peek ;;
  cat [default 0 o] ;;
  o <- next ;;
  match o with
  | None => retL true
  | Some c =>
      o <- redir_operator rf c ;;
      match o with
      | None => retL true
      | Some rf =>
          tok <- r_gettok rec P_DEFAULT ;;
          if tok_in tok (Z.lor T_NAME T_WORD) then
            if tok_in rf R_HERE then stopL HereDocument
            else
              change (fun p => with_tok T_REDIR (with_tree [nredir rf (p_tree p) [] fd] (p_node p) p)) ;;
              retL true
          else retL false
      end
  end.

(** ** Unquoted text *)

Fixpoint tilde_start (sa : bytes) (i : nat) : nat :=
  match i with
  | O => O
  | S i' =>
      let c := cnth sa i' in
      if (c =? ch "/") || (c =? ch ":") || (c =? ch "=") then i else tilde_start sa i'
  end.

Definition parse_in_tilde_prefix : L bool := ask (fun p =>
  if negb (List.length (p_tree p) =? 0)%nat then false
  else
    let sa := p_sa p in
    let i := tilde_start sa (List.length sa) in
    (i <? List.length sa)%nat && (cnth sa i =? ch "~") &&
    ((i =? 0)%nat || (cnth sa (pred i) =? ch "=") || (cnth sa (pred i) =? ch ":"))).

(** Where a word ends: a keyword, or text for the tree *)
Definition word_ends (fl : Z) : L unit :=
  plain <- ask (fun p => tok_in (p_flags p) P_NOKEYWD || negb (List.length (p_tree p) =? 0)%nat) ;;
  if plain : bool then parse_string fl
  else
    kw <- parse_keyword ;;
    if kw : bool then retL tt else parse_string fl.

(** What the token is with one more character: a "=" behind something makes an
    assignment, one that is in no function name an ordinary word. *)
Definition char_tok (tok c : Z) (sa : bytes) : Z :=
  let tok := if (tok =? T_NAME) && negb (List.length sa =? 0)%nat && (c =? ch "=") then T_ASSIGN else tok in
  if (tok =? T_NAME) && negb (parse_isfname c (List.length sa)) then T_WORD else tok.

(** [true] is a nonzero return. *)
Fixpoint unquoted_loop (fuel : nat) (fl : Z) (in_bracket : bool) : L bool :=
  match fuel with
  | O => out_of_fuel
  | S fuel =>
      let add c fl in_bracket :=
        change (fun p => with_tok (char_tok (p_tok p) c (p_sa p)) p) ;;
        cat [c] ;;
        skip ;;
        unquoted_loop fuel fl in_bracket in
      flags <- ask p_flags ;;
      o <- peek ;;
      match o with
      | None => word_ends fl ;; retL true
      | Some c =>
          if c =? BSL then
            change (fun p => with_tok (if p_tok p =? T_ASSIGN then T_ASSIGN else T_WORD) p) ;;
            o <- next ;;
            match o with
            | None => retL true
            | Some n =>
                (if tok_in flags P_DQSUBST && negb (n =? ch "$") && negb (n =? ch "`") && negb (n =? 34) && negb (n =? BSL)
                 then cat [BSL; BSL] else retL tt) ;;
                (if parse_isesc n then cat [BSL] else retL tt) ;;
                let fl := Z.lor fl S_ESCAPED in
                tilde <- parse_in_tilde_prefix ;;
                if ((Z.land flags (Z.lor P_SUBSTW P_DQSUBST) =? P_SUBSTW) && ((n =? ch " ") || (n =? 9))) ||
                   ((n =? ch "~") && negb (tok_in flags (Z.lor P_DQSUBST P_HERE))) ||
                   (((n =? ch "/") || tilde) && negb (tok_in flags (Z.lor P_SUBSTW (Z.lor P_DQSUBST P_HERE))))
                then
                  (if parse_isesc n then change (fun p => with_sa (take (pred (List.length (p_sa p))) (p_sa p)) p)
                   else retL tt) ;;
                  parse_string fl ;;
                  change (with_quot Q_SQUOTED) ;;
                  cat [n] ;;
                  parse_string 0 ;;
                  change (with_quot Q_UNQUOTED) ;;
                  skip ;;
                  unquoted_loop fuel fl in_bracket
                else add n fl in_bracket
            end
          else if c =? 34 then
            parse_string 0 ;; skip ;; change (with_quot Q_DQUOTED) ;; parse_string 0 ;; retL false
          else if (c =? ch "'") && negb (tok_in flags P_DQSUBST) then
            parse_string 0 ;; skip ;; change (with_quot Q_SQUOTED) ;; parse_string 0 ;; retL false
          else if c =? ch "`" then
            if tok_in flags P_BQUOTE then retL true
            else
              parse_string 0 ;;
              stop <- parse_bquoted ;;
              if stop : bool then retL false else unquoted_loop fuel fl in_bracket
          else if c =? ch "$" then
            parse_string 0 ;;
            stop <- parse_subst_word ;;
            if stop : bool then retL false else unquoted_loop fuel fl in_bracket
          else if negb (tok_in flags P_NOREDIR) && ((c =? ch "<") || (c =? ch ">")) then
            sa <- ask p_sa ;;
            tree <- ask p_tree ;;
            let fd := c_bool (c =? ch ">") in
            let some := negb (List.length sa =? 0)%nat in
            let notree := (List.length tree =? 0)%nat in
            let '(k, v) := Scan.scan_uint sa fd in
            let scanned := some && notree && negb (tok_in fl S_ESCAPED) in
            let digits := scanned && (k =? List.length sa)%nat in
            let fd := if scanned then i32 v else fd in
            if (negb some && notree) || (digits && (0 <=? fd) && (fd <? FD_MAX))
            then redir_parse (if c =? ch "<" then R_IN else R_OUT) fd
            else if negb digits && negb (tok_in flags (Z.lor P_SUBSTW P_DQSUBST)) then word_ends fl ;; retL true
            else add c fl in_bracket
          else if tok_in flags P_SUBSTW then
            if c =? ch "}" then skip ;; parse_string fl ;; retL true else add c fl in_bracket
          else if parse_isctrl c || parse_isspace c then word_ends fl ;; retL true
          else if c =? ch "[" then add c fl true
          else if c =? ch "]" then add c (if in_bracket then Z.lor fl S_GLOB else fl) false
          else add c (if parse_isesc c then Z.lor fl S_GLOB else fl) in_bracket
      end
  end.

Definition parse_unquoted : L bool :=
  change (with_quot Q_UNQUOTED) ;;
  n <- rounds ;;
  unquoted_loop n 0 false.

(** ** Words *)

Fixpoint word_loop (fuel : nat) : L unit :=
  match fuel with
  | O => out_of_fuel
  | S fuel =>
      o <- peek ;;
      match o with
      | None => retL tt
      | Some _ =>
          quot <- ask p_quot ;;
          stop <- (if quot =? Q_DQUOTED then parse_dquoted
                   else if quot =? Q_SQUOTED then parse_squoted
                   else parse_unquoted) ;;
          if stop : bool then retL tt else word_loop fuel
      end
  end.

Definition parse_word : L Z :=
  change (fun p => with_tok T_NAME (with_sa [] (with_quot Q_UNQUOTED (with_tree [] false p)))) ;;
  n <- rounds ;;
  word_loop n ;;
  kw <- ask (fun p => (p_quot p =? Q_UNQUOTED) && negb (tok_in (p_flags p) P_NOKEYWD) && (List.length (p_tree p) =? 0)%nat) ;;
  (if kw : bool then parse_keyword else retL false) ;;
  parse_string 0 ;;
  ask p_tok.

(** ** Tokens *)

(** Skip the blanks; [None] at the end of the input *)
Fixpoint skip_blanks (fuel : nat) (c : Z) : L (option Z) :=
  match fuel with
  | O => out_of_fuel
  | S fuel =>
      skipnl <- flagged P_SKIPNL ;;
      if parse_isspace c && (skipnl || negb (c =? NL)) then
        o <- next ;;
        match o with None => retL None | Some c => skip_blanks fuel c end
      else retL (Some c)
  end.

(** A comment, and the comment lines right below it; [false] at the end of the
    input *)
Fixpoint skip_comment (fuel : nat) (c : Z) : L bool :=
  match fuel with
  | O => out_of_fuel
  | S fuel =>
      o <- (if c =? NL then peekn 1 else retL None) ;;
      if (c =? NL) && negb (default (-1) o =? ch "#") then retL true
      else
        o <- next ;;
        match o with None => retL false | Some c => skip_comment fuel c end
  end.

Definition set_comment (x : bool) : L unit := reading (fun st =>
  (tt, Source (s_text st) (s_bs st) (s_squoted st) x (s_line st) (s_column st) (s_offset st) (s_skips st))).

(** ";" and ";;", "&" and "&&", "|" and "||" *)
Definition double_tok (tok c : Z) : L Z :=
  o <- next ;;
  if default (-1) o =? c then skip ;; retL (Z.shiftl tok 1) else retL tok.

Fixpoint parse_simpletok (fuel : nat) : L Z :=
  match fuel with
  | O => out_of_fuel
  | S fuel =>
      let newline :=
        skipnl <- flagged P_SKIPNL ;;
        if skipnl : bool then parse_simpletok fuel else skip ;; retL T_NL in
      o <- peek ;;
      match o with
      | None => retL T_EOF
      | Some c =>
          n <- rounds ;;
          o <- skip_blanks n c ;;
          match o with
          | None => retL T_EOF
          | Some c =>
              if c =? ch "#" then
                set_comment true ;;
                n <- rounds ;;
                more <- skip_comment n c ;;
                if more : bool then set_comment false ;; newline else retL T_EOF
              else if c =? BSL then
                o <- peekn 1 ;;
                match o with
                | None => retL T_EOF
                | Some c =>
                    if c =? 13 then
                      o <- next ;;
                      match o with
                      | None => retL T_EOF
                      | Some c => (if c =? NL then skip else retL tt) ;; skip ;; parse_simpletok fuel
                      end
                    else if c =? NL then skip ;; skip ;; parse_simpletok fuel
                    else retL T_NONE
                end
              else if c =? 13 then
                o <- next ;;
                match o with
                | None => retL T_EOF
                | Some c => (if c =? NL then skip else retL tt) ;; newline
                end
              else if c =? NL then newline
              else if c =? ch "|" then double_tok T_PIPE c
              else if c =? ch "&" then double_tok T_BGND c
              else if c =? ch ";" then double_tok T_SEMI c
              else if c =? ch "(" then skip ;; retL T_LP
              else if c =? ch ")" then skip ;; retL T_RP
              else if c =? ch "`" then
                bq <- flagged P_BQUOTE ;;
                if bq : bool then skip ;; retL T_BQ else retL T_NONE
              else retL T_NONE
          end
      end
  end.

Definition all_keywords : Z :=
  fold_right Z.lor 0 [ T_CASE; T_DO; T_DONE; T_ELIF; T_ELSE; T_ESAC; T_FI; T_FOR; T_IF; T_IN; T_THEN; T_UNTIL;
    T_WHILE; T_BEGIN; T_END; T_NOT ].

(** A keyword that is none where only "in" or "do" are *)
Definition only_keywords (flags tok : Z) : Z :=
  if tok_in flags (Z.lor P_KWIN P_KWDO) then
    let only := Z.lor (if tok_in flags P_KWIN then T_IN else 0) (if tok_in flags P_KWDO then T_DO else 0) in
    if tok_in tok all_keywords && negb (tok_in tok only) then T_NAME else tok
  else tok.

Definition empty_head (l : list node) : list node :=
  match l with nargstr fl _ :: l => nargstr fl [] :: l | l => l end.

Definition scan_token : L unit :=
  change (fun p => with_sa [] (with_tree (empty_head (p_tree p)) (p_node p) (with_tok T_NONE p))) ;;
  n <- rounds ;;
  tok <- parse_simpletok n ;;
  change (with_tok tok) ;;
  (if tok =? T_NONE then tok <- parse_word ;; change (with_tok tok) else retL tt) ;;
  name <- ask (fun p => tok_in (p_tok p) T_NAME && negb (tok_in (p_flags p) P_NOKEYWD) &&
    match last (node_chain (p_tree p)) with Some (nargstr _ _) => true | _ => false end) ;;
  (if name : bool then parse_keyword else retL false) ;;
  change (fun p => with_tok (only_keywords (p_flags p) (p_tok p)) p).

Definition parse_gettok (tempflags : Z) : L Z :=
  old <- ask p_flags ;;
  change (fun p => with_flags (Z.lor (p_flags p) tempflags) p) ;;
  again <- ask (fun p => negb (p_pushback p) || (tok_in (p_flags p) P_SKIPNL && (p_tok p =? T_NL))) ;;
  (if again : bool then scan_token else retL tt) ;;
  change (fun p => with_pushback false (with_flags old p)) ;;
  ask p_tok.
End Lexer.
