(* ===== verification/Grammar.v ===== *)
(** * The shell grammar (src/parse/parse_list.c, parse_and_or.c, parse_pipeline.c,
      parse_command.c, parse_simple_command.c, parse_compound_list.c,
      parse_grouping.c, parse_if.c, parse_for.c, parse_case.c, parse_loop.c,
      parse_function.c, parse_skipspace.c; the reading half of sh_loop.c)

    The functions are written over [calls]; [grammar] ties the knot, one unit of
    fuel for each word, token or command inside another.  A chain of nodes is a
    list, so a pointer into it ([nptr]) is the end of an accumulated list. *)

From S2P Require Import Prelude Chars Source Tree ArithParse LexState Lexer.

(** ** Pieces of commands *)

(** Setting [ngrp.bgnd]: the bit is at the same place in every statement;
    a function definition has an unused one there. *)
Definition set_bgnd (n : node) : node :=
  match n with
  | ncmd _ r v a => ncmd true r v a
  | npipe _ c => npipe true c
  | nandor id _ l r => nandor id true l r
  | nnot _ p => nnot true p
  | ntime _ x p => ntime true x p
  | ngrp id _ r c => ngrp id true r c
  | nfor _ h r c a v => nfor true h r c a v
  | ncase _ r c w => ncase true r c w
  | nif _ r c0 c1 t => nif true r c0 c1 t
  | nloop id _ r c t => nloop id true r c t
  | n => n
  end.

(** Redirections behind a command; [None]: its structure has no [rdir] there. *)
Definition add_rdir (l : list node) (n : node) : option node :=
  match n with
  | ncmd g r v a => Some (ncmd g (r ++ l) v a)
  | ngrp id g r c => Some (ngrp id g (r ++ l) c)
  | nfor g h r c a v => Some (nfor g h (r ++ l) c a v)
  | ncase g r c w => Some (ncase g (r ++ l) c w)
  | nif g r c0 c1 t => Some (nif g (r ++ l) c0 c1 t)
  | nloop id g r c t => Some (nloop id g (r ++ l) c t)
  | _ => None
  end.

Definition push_back : L unit := change (with_pushback true).

Definition or_undefined {A} (o : option A) : L A :=
  match o with Some a => retL a | None => stopL Undefined end.

(** tree_move(p->tree, rptr) *)
Definition move_tree : L (list node) :=
  l <- ask p_tree ;; change (fun p => with_tree [] (p_node p) p) ;; retL l.

Definition drop_flags (mask : Z) : L unit :=
  change (fun p => with_flags (Z.land (p_flags p) (Z.lnot mask)) p).

Definition set_flags (mask : Z) : L unit := change (fun p => with_flags (Z.lor (p_flags p) mask) p).

(** "is the word just lexed the plain text s?" *)
Definition word_is (s : bytes) : L bool := ask (fun p =>
  match p_tree p with [nargstr _ x] => bool_decide (x = s) | _ => false end).

Fixpoint skipspace_loop (fuel : nat) : L unit :=
  match fuel with
  | O => out_of_fuel
  | S fuel =>
      o <- peek ;;
      match o with
      | None => retL tt
      | Some c =>
          flags <- ask p_flags ;;
          if c =? NL then
            if tok_in flags P_ARITH then skip ;; skipspace_loop fuel
            else if tok_in flags P_HERE then retL tt
            else if negb (tok_in flags P_SKIPNL) then retL tt
            else skipspace_loop fuel
          else if negb (parse_isspace c) then retL tt
          else skip ;; skipspace_loop fuel
      end
  end.

Definition parse_skipspace : L unit := n <- rounds ;; skipspace_loop n.

Section Grammar.
Context (rec : calls) (interactive : bool).

Definition gettok : Z -> L Z := parse_gettok rec interactive.
Definition expect : Z -> Z -> L Z := parse_expect interactive gettok.

(** "while(parse_gettok(p, flags) & mask) ;" *)
Fixpoint skip_toks (fuel : nat) (tempflags mask : Z) : L unit :=
  match fuel with
  | O => out_of_fuel
  | S fuel =>
      tok <- gettok tempflags ;;
      if tok_in tok mask then skip_toks fuel tempflags mask else retL tt
  end.

Definition skip_newlines (tempflags : Z) : L unit := n <- rounds ;; skip_toks n tempflags T_NL.

(** "while(parse_gettok(p, P_DEFAULT) & T_REDIR) tree_move(p->tree, rptr);" *)
Fixpoint redirs_loop (fuel : nat) (acc : list node) : L (list node) :=
  match fuel with
  | O => out_of_fuel
  | S fuel =>
      tok <- gettok P_DEFAULT ;;
      if tok_in tok T_REDIR then l <- move_tree ;; redirs_loop fuel (acc ++ l) else retL acc
  end.

Definition redirs : L (list node) := n <- rounds ;; redirs_loop n [].

(** ** Simple commands *)

Fixpoint simple_loop (fuel : nat) (rdir vars args : list node) : L node :=
  match fuel with
  | O => out_of_fuel
  | S fuel =>
      tok <- gettok P_DEFAULT ;;
      noassign <- flagged P_NOASSIGN ;;
      if (tok =? T_ASSIGN) && negb noassign then
        o <- parse_getarg ;;
        n <- or_undefined o ;;
        drop_flags P_SKIPNL ;;
        simple_loop fuel rdir (vars ++ [n]) args
      else if (tok =? T_ASSIGN) || (tok =? T_NAME) || (tok =? T_WORD) then
        o <- parse_getarg ;;
        set_flags (Z.lor P_NOASSIGN P_NOKEYWD) ;;
        drop_flags P_SKIPNL ;;
        simple_loop fuel rdir vars (args ++ option_list o)
      else if tok =? T_REDIR then
        l <- move_tree ;;
        drop_flags P_SKIPNL ;;
        simple_loop fuel (rdir ++ l) vars args
      else
        push_back ;;
        drop_flags (Z.lor P_NOKEYWD P_NOASSIGN) ;;
        retL (ncmd false rdir vars args)
  end.

Definition parse_simple_command : L node := n <- rounds ;; simple_loop n [] [] [].

(** ** Compound commands *)

Definition parse_grouping (tempflags : Z) : L (option node) :=
  tok <- expect (Z.lor P_DEFAULT tempflags) (Z.lor T_BEGIN T_LP) ;;
  if tok =? 0 then retL None
  else
    cmds <- r_compound_list rec (Z.shiftl tok 1) ;;
    t <- expect P_DEFAULT (Z.shiftl tok 1) ;;
    if t =? 0 then retL None
    else
      match cmds with
      | [] => retL None
      | _ =>
          rdir <- redirs ;;
          push_back ;;
          retL (Some (ngrp (if tok =? T_BEGIN then N_BRACEGROUP else N_SUBSHELL) false rdir cmds))
      end.

(** One "if" or "elif" and what follows it *)
Fixpoint if_loop (fuel : nat) : L (option node) :=
  match fuel with
  | O => out_of_fuel
  | S fuel =>
      test <- r_compound_list rec T_THEN ;;
      t <- expect P_DEFAULT T_THEN ;;
      if t =? 0 then retL None
      else
        cmd0 <- r_compound_list rec (Z.lor T_ELIF (Z.lor T_ELSE T_FI)) ;;
        tok <- gettok P_DEFAULT ;;
        if tok =? T_ELIF then
          o <- if_loop fuel ;;
          retL (option_map (fun n => nif false [] cmd0 [n] test) o)
        else
          cmd1 <- (if tok =? T_ELSE then r_compound_list rec T_FI else push_back ;; retL []) ;;
          t <- expect P_DEFAULT T_FI ;;
          if t =? 0 then retL None else retL (Some (nif false [] cmd0 cmd1 test))
  end.

Definition parse_if : L (option node) := n <- rounds ;; if_loop n.

(** The text of the word is taken: its node stays behind empty. *)
Definition take_name : L bytes :=
  tree <- ask p_tree ;;
  match last (node_chain tree) with
  | Some (nargstr fl s) =>
      change (fun p => with_tree (on_node (fun _ => nargstr fl []) tree) (p_node p) p) ;; retL s
  | _ => stopL Undefined
  end.

Fixpoint words_loop (fuel : nat) (acc : list node) : L (list node) :=
  match fuel with
  | O => out_of_fuel
  | S fuel =>
      tok <- gettok P_NOKEYWD ;;
      if tok_in tok (Z.lor T_WORD (Z.lor T_NAME T_ASSIGN)) then
        o <- parse_getarg ;;
        n <- or_undefined o ;;
        words_loop fuel (acc ++ [n])
      else retL acc
  end.

Definition do_group : L (option (list node)) :=
  cmds <- r_compound_list rec T_DONE ;;
  t <- expect P_DEFAULT T_DONE ;;
  retL (if t =? 0 then None else Some cmds).

Definition parse_for : L (option node) :=
  t <- expect P_NOKEYWD T_NAME ;;
  if t =? 0 then retL None
  else
    varn <- take_name ;;
    tok <- gettok (Z.lor P_SKIPNL (Z.lor P_KWIN P_KWDO)) ;;
    n <- rounds ;;
    args <- (if tok_in tok T_IN then words_loop n [] else retL []) ;;
    push_back ;;
    t <- gettok P_KWDO ;;
    (if tok_in t T_SEMI then retL tt else push_back) ;;
    t <- expect (Z.lor P_SKIPNL P_KWDO) T_DO ;;
    if t =? 0 then retL None
    else
      o <- do_group ;;
      retL (option_map (fun cmds => nfor false (tok_in tok T_IN) [] cmds args varn) o).

(** The patterns of a case; the token behind them is pushed back. *)
Fixpoint pats_loop (fuel : nat) (acc : list node) : L (list node) :=
  match fuel with
  | O => out_of_fuel
  | S fuel =>
      tok <- gettok (Z.lor P_SKIPNL P_NOKEYWD) ;;
      if tok_in tok (Z.lor T_WORD (Z.lor T_NAME (Z.lor T_ASSIGN T_LP))) then
        if tok =? T_LP then pats_loop fuel acc
        else
          o <- parse_getarg ;;
          n <- or_undefined o ;;
          tok <- gettok P_NOKEYWD ;;
          if tok_in tok T_PIPE then pats_loop fuel (acc ++ [n]) else push_back ;; retL (acc ++ [n])
      else push_back ;; retL acc
  end.

Definition pattern_start (tok : Z) : L unit :=
  if tok_in tok T_LP then retL tt
  else
    (if (tok =? T_WORD) || (tok =? T_NAME) || (tok =? T_ASSIGN) then retL tt else change (with_tok T_NAME)) ;;
    push_back.

Fixpoint cases_loop (fuel : nat) (acc : list node) : L (option (list node)) :=
  match fuel with
  | O => out_of_fuel
  | S fuel =>
      tok <- gettok P_SKIPNL ;;
      if tok_in tok T_ESAC then retL (Some acc)
      else
        pattern_start tok ;;
        n <- rounds ;;
        pats <- pats_loop n [] ;;
        t <- expect P_NOKEYWD (Z.lor T_RP T_PIPE) ;;
        if t =? 0 then retL None
        else
          cmds <- r_compound_list rec (Z.lor T_ESAC T_ECASE) ;;
          t <- expect P_DEFAULT (Z.lor T_ESAC T_ECASE) ;;
          if t =? 0 then retL None
          else if tok_in t T_ESAC then retL (Some (acc ++ [ncasenode pats cmds]))
          else cases_loop fuel (acc ++ [ncasenode pats cmds])
  end.

Definition parse_case : L (option node) :=
  t <- expect P_NOKEYWD (Z.lor T_WORD (Z.lor T_NAME T_ASSIGN)) ;;
  if t =? 0 then retL None
  else
    word <- parse_getarg ;;
    t <- expect (Z.lor P_SKIPNL P_KWIN) T_IN ;;
    if t =? 0 then retL None
    else
      n <- rounds ;;
      o <- cases_loop n [] ;;
      match o with
      | None => retL None
      | Some cases => parse_dropkeyword ;; retL (Some (ncase false [] cases word))
      end.

Definition parse_loop : L (option node) :=
  tok <- ask p_tok ;;
  test <- r_compound_list rec T_DO ;;
  t <- expect P_DEFAULT T_DO ;;
  if t =? 0 then retL None
  else
    o <- do_group ;;
    retL (option_map (fun cmds => nloop (if tok =? T_WHILE then N_WHILE else N_UNTIL) false [] cmds test) o).

(** ** Functions *)

(** "do tok = parse_gettok(p, P_DEFAULT); while(tok == T_NL || tok == T_NAME);" *)
Fixpoint to_body (fuel : nat) : L unit :=
  match fuel with
  | O => out_of_fuel
  | S fuel =>
      tok <- gettok P_DEFAULT ;;
      if (tok =? T_NL) || (tok =? T_NAME) then to_body fuel else retL tt
  end.

Definition parse_function : L (option node) :=
  _ <- gettok P_DEFAULT ;;
  tree <- ask p_tree ;;
  name <- or_undefined (match tree with nargstr _ s :: _ => Some s | _ => None end) ;;
  change (with_tree [] false) ;;
  n <- rounds ;;
  to_body n ;;
  push_back ;;
  tok <- gettok P_SKIPNL ;;
  push_back ;;
  let group := (tok =? T_BEGIN) || (tok =? T_LP) in
  o <- (if group then parse_grouping P_SKIPNL else r_command rec P_DEFAULT) ;;
  match o with
  | None => if group then stopL Undefined else retL None
  | Some body =>
      _ <- or_undefined (add_rdir [] body) ;;
      l <- redirs ;;
      push_back ;;
      retL (Some (nfunc name (add_rdir l body)))
  end.

(** ** Commands *)

(** How many characters "( )" takes behind a name, when that follows: the blanks
    between are tabs and spaces.  At the end of the input "(" is compared with
    what its variable held, which nothing has set when it is the next one. *)
Fixpoint parens (fuel i : nat) (seen : bool) : L (option nat) :=
  match fuel with
  | O => out_of_fuel
  | S fuel =>
      o <- peekn i ;;
      match o with
      | None => if seen then retL None else stopL Undefined
      | Some c =>
          if (c =? ch " ") || (c =? 9) then parens fuel (S i) true
          else retL (if c =? ch ")" then Some i else None)
      end
  end.

Fixpoint skips (n : nat) : L unit :=
  match n with O => retL tt | S n => skip ;; skips n end.

(** Whether "name ( )" was read *)
Definition function_head : L bool :=
  parse_skipspace ;;
  o <- peek ;;
  if default (-1) o =? ch "(" then
    n <- rounds ;;
    o <- parens n 1 false ;;
    match o with
    | Some i => skips i ;; skip ;; retL true
    | None => retL false
    end
  else retL false.

(** The redirections of a command; [None] as the command stays [None]. *)
Definition with_redirs (o : option node) : L (option node) :=
  r <- match o with
       | None => retL None
       | Some n =>
           l <- redirs ;;
           n <- or_undefined (add_rdir l n) ;;
           retL (Some n)
       end ;;
  push_back ;;
  retL r.

Definition simple : L (option node) :=
  push_back ;;
  n <- parse_simple_command ;;
  with_redirs (Some n).

Definition parse_command (tempflags : Z) : L (option node) :=
  tok <- gettok tempflags ;;
  if tok =? T_FOR then o <- parse_for ;; with_redirs o
  else if tok =? T_CASE then o <- parse_case ;; with_redirs o
  else if tok =? T_IF then o <- parse_if ;; with_redirs o
  else if (tok =? T_WHILE) || (tok =? T_UNTIL) then o <- parse_loop ;; with_redirs o
  else if (tok =? T_LP) || (tok =? T_BEGIN) then
    push_back ;; o <- parse_grouping 0 ;; with_redirs o
  else if tok =? T_NAME then
    f <- function_head ;;
    if f : bool then push_back ;; parse_function else simple
  else if (tok =? T_WORD) || (tok =? T_REDIR) || (tok =? T_ASSIGN) then simple
  else push_back ;; retL None.

(** ** Pipelines *)

Record prefix := Prefix { x_negate : bool; x_timed : bool; x_posix : bool }.

Fixpoint prefix_loop (fuel : nat) (x : prefix) : L prefix :=
  match fuel with
  | O => out_of_fuel
  | S fuel =>
      tok <- gettok P_DEFAULT ;;
      if tok =? T_NOT then prefix_loop fuel (Prefix (negb (x_negate x)) (x_timed x) (x_posix x))
      else
        time <- word_is (b "time") ;;
        if (tok =? T_NAME) && negb (x_timed x) && time then
          tok <- gettok P_DEFAULT ;;
          p <- word_is (b "-p") ;;
          if tok_in tok (Z.lor T_NAME T_WORD) && p
          then prefix_loop fuel (Prefix (x_negate x) true true)
          else push_back ;; prefix_loop fuel (Prefix (x_negate x) true (x_posix x))
        else retL x
  end.

Fixpoint pipe_loop (fuel : nat) (acc : list node) : L (option (list node)) :=
  match fuel with
  | O => out_of_fuel
  | S fuel =>
      o <- parse_command P_SKIPNL ;;
      match o with
      | None => parse_error interactive ;; retL None
      | Some n =>
          tok <- gettok P_DEFAULT ;;
          if tok =? T_PIPE then pipe_loop fuel (acc ++ [n]) else retL (Some (acc ++ [n]))
      end
  end.

Definition parse_pipeline : L (option node) :=
  n <- rounds ;;
  x <- prefix_loop n (Prefix false false false) ;;
  push_back ;;
  o <- parse_command P_DEFAULT ;;
  match o with
  | None => (if x_timed x then parse_error interactive else retL tt) ;; retL None
  | Some node =>
      tok <- gettok P_DEFAULT ;;
      n <- rounds ;;
      o <- (if tok =? T_PIPE
            then o <- pipe_loop n [node] ;; retL (option_map (npipe false) o)
            else retL (Some node)) ;;
      match o with
      | None => retL None
      | Some node =>
          push_back ;;
          let node := if x_timed x then ntime false (x_posix x) node else node in
          retL (Some (if x_negate x then nnot false node else node))
      end
  end.

(** ** Lists *)

Fixpoint and_or_loop (fuel : nat) (pipeline0 : node) : L node :=
  match fuel with
  | O => out_of_fuel
  | S fuel =>
      tok <- gettok P_DEFAULT ;;
      if negb (tok_in tok (Z.lor T_AND T_OR)) then push_back ;; retL pipeline0
      else
        skip_newlines P_SKIPNL ;;
        push_back ;;
        o <- parse_pipeline ;;
        match o with
        | None => push_back ;; retL pipeline0
        | Some pipeline1 =>
            and_or_loop fuel (nandor (if tok =? T_AND then N_AND else N_OR) false pipeline0 pipeline1)
        end
  end.

Definition parse_and_or : L (option node) :=
  o <- parse_pipeline ;;
  match o with
  | None => retL None
  | Some n => m <- rounds ;; n <- and_or_loop m n ;; retL (Some n)
  end.

Fixpoint list_loop (fuel : nat) (acc : list node) : L (list node) :=
  match fuel with
  | O => out_of_fuel
  | S fuel =>
      o <- parse_and_or ;;
      match o with
      | None => retL acc
      | Some n =>
          tok <- gettok P_DEFAULT ;;
          if tok_in tok T_NL then retL (acc ++ [n])
          else if negb (tok_in tok (Z.lor T_SEMI T_BGND)) then push_back ;; retL (acc ++ [n])
          else list_loop fuel (acc ++ [if tok_in tok T_BGND then set_bgnd n else n])
      end
  end.

(** More than one command is an N_LIST. *)
Definition parse_list : L (list node) :=
  n <- rounds ;;
  cmds <- list_loop n [] ;;
  retL (if (1 <? List.length cmds)%nat then [ngrp N_LIST false [] cmds] else cmds).

(** "while(p->tok & T_NL) parse_gettok(p, P_DEFAULT);" *)
Fixpoint after_newlines (fuel : nat) : L unit :=
  match fuel with
  | O => out_of_fuel
  | S fuel =>
      tok <- ask p_tok ;;
      if tok_in tok T_NL then _ <- gettok P_DEFAULT ;; after_newlines fuel else retL tt
  end.

Fixpoint compound_loop (fuel : nat) (end_tok : Z) (acc : list node) : L (list node) :=
  match fuel with
  | O => out_of_fuel
  | S fuel =>
      (if end_tok =? T_END then drop_flags (Z.lor P_NOKEYWD P_SKIPNL) else retL tt) ;;
      skip_newlines P_DEFAULT ;;
      push_back ;;
      tok <- gettok P_DEFAULT ;;
      push_back ;;
      if tok =? end_tok then retL acc
      else
        l <- parse_list ;;
        n <- rounds ;;
        after_newlines (S n) ;;
        push_back ;;
        match l with
        | [] => retL acc
        | _ => compound_loop fuel end_tok (acc ++ l)
        end
  end.

Definition parse_compound_list (end_tok : Z) : L (list node) := n <- rounds ;; compound_loop n end_tok [].

End Grammar.

(** ** The knot *)

Fixpoint grammar (interactive : bool) (fuel : nat) : calls :=
  match fuel with
  | O => Calls (fun _ => out_of_fuel) out_of_fuel (fun _ => out_of_fuel) (fun _ => out_of_fuel)
  | S fuel =>
      let rec := grammar interactive fuel in
      Calls (parse_gettok rec interactive) (parse_word rec interactive)
        (parse_compound_list rec interactive) (parse_command rec interactive)
  end.

(** ** Reading a script *)

(** What ends the reading: the end of the input, the same right behind a command
    (the shell leaves with its status), or a syntax error *)
Inductive script_end := EndOfInput | EndBehindCommand | SyntaxError | Stopped (why : stop) | NoEnd.

Definition script := (list (list node) * script_end)%type.

(** The lists sh_loop reads one after the other, each to be run before the next
    is read; an interactive shell drops the line a syntax error is in. *)
Fixpoint script_loop (rec : calls) (interactive : bool) (fuel : nat) (acc : list (list node)) (p : parser)
    : script :=
  match fuel with
  | O => (acc, NoEnd)
  | S fuel =>
      let step : L (option (list node)) :=
        tok <- gettok rec interactive P_DEFAULT ;;
        if tok_in tok T_EOF then retL None
        else push_back ;; l <- parse_list rec interactive ;; retL (Some l) in
      match step p with
      | LFuel => (acc, NoEnd)
      | LStop SyntaxExit => (acc, SyntaxError)
      | LStop w => (acc, Stopped w)
      | LOk None _ => (acc, EndOfInput)
      | LOk (Some l) p =>
          let acc := match l with [] => acc | _ => acc ++ [l] end in
          let tok := p_tok p in
          let p := with_pushback false p in
          if tok_in tok (Z.lor T_NL (Z.lor T_SEMI T_BGND)) then script_loop rec interactive fuel acc p
          else if negb interactive then (acc, if tok =? T_EOF then EndBehindCommand else SyntaxError)
          else script_loop rec interactive fuel acc (with_source (source_flush (p_source p)) p)
      end
  end.

(** The fuel for a text *)
Definition grammar_fuel (x : bytes) : nat := S (S (List.length x)).

Definition parse_script (interactive : bool) (x : bytes) : script :=
  script_loop (grammar interactive (grammar_fuel x)) interactive (grammar_fuel x) []
    (parse_init (if interactive then P_IACTIVE else P_DEFAULT) (source_push x)).
