(* ===== verification/ParseLogic.v ===== *)
(** * Reasoning about the parser

    Weakest preconditions for the monad of LexState.v: [wp t m Q p] says that [m]
    started in [p] only ends in states [Q] accepts and, with [t], that its fuel is
    enough.  A parse that is cut off ([LStop]) satisfies everything.  Then what
    each step does to the source. *)

From S2P Require Import Prelude Chars Source Tree ArithParse LexState.

(** ** Weakest preconditions *)

Definition wp {A} (t : bool) (m : L A) (Q : A -> parser -> Prop) (p : parser) : Prop :=
  match m p with
  | LOk a q => Q a q
  | LStop _ => True
  | LFuel => if t then False else True
  end.

Section Rules.
Context {A B : Type} (t : bool).
Implicit Types (p q : parser).

Lemma wp_ret (a : A) Q p : Q a p -> wp t (retL a) Q p.
Proof. done. Qed.

Lemma wp_bind (m : L A) (k : A -> L B) Q p :
  wp t m (fun a => wp t (k a) Q) p -> wp t (bindL m k) Q p.
Proof. unfold wp, bindL. by destruct (m p). Qed.

Lemma wp_mono (m : L A) (Q Q' : A -> parser -> Prop) p :
  wp t m Q p -> (forall a q, Q a q -> Q' a q) -> wp t m Q' p.
Proof. unfold wp. destruct (m p); auto. Qed.

Lemma wp_change f (Q : unit -> parser -> Prop) p : Q tt (f p) -> wp t (change f) Q p.
Proof. done. Qed.

Lemma wp_ask (f : parser -> A) Q p : Q (f p) p -> wp t (ask f) Q p.
Proof. done. Qed.

Lemma wp_reading (f : source -> A * source) (Q : A -> parser -> Prop) p :
  Q (fst (f (p_source p))) (with_source (snd (f (p_source p))) p) -> wp t (reading f) Q p.
Proof. unfold wp, reading. by destruct (f (p_source p)). Qed.

Lemma wp_stop w (Q : A -> parser -> Prop) p : wp t (stopL w) Q p.
Proof. done. Qed.

Lemma wp_or_stop (o : option A) w (Q : A -> parser -> Prop) p :
  (forall a, o = Some a -> Q a p) -> wp t (match o with Some a => retL a | None => stopL w end) Q p.
Proof. destruct o; simpl; intros H; [by apply H|done]. Qed.

End Rules.

(** ** Reading the source *)

Definition head (st : source) : option Z := unread st !! 0%nat.

Lemma head_pos st c : head st = Some c -> (0 < left_over st)%nat.
Proof. intros H%lookup_lt_Some. pose proof (unread_left st). lia. Qed.

(** What a peek does: only continuations in front of the text may go. *)
Definition peeked (st st' : source) : Prop :=
  (left_over st' <= left_over st)%nat /\ unread st' = unread st.

Lemma peekn_peeked st n : peeked st (snd (source_peekn st n)).
Proof. split; [apply peekn_left|apply peekn_state]. Qed.

Lemma peeked_head st st' : peeked st st' -> head st' = head st.
Proof. unfold head. by intros [_ ->]. Qed.

Section Source.
Context (t : bool).
Implicit Types (p q : parser).

Lemma wp_peekn n (Q : option Z -> parser -> Prop) p :
  (forall st, peeked (p_source p) st -> Q (unread (p_source p) !! n) (with_source st p)) ->
  wp t (peekn n) Q p.
Proof.
  intros H. apply wp_reading. rewrite peekn_unread. apply H, peekn_peeked.
Qed.

Lemma wp_peek (Q : option Z -> parser -> Prop) p :
  (forall st, peeked (p_source p) st -> head (p_source p) = None -> Q None (with_source st p)) ->
  (forall c st, peeked (p_source p) st -> head st = Some c -> (0 < left_over st)%nat ->
     Q (Some c) (with_source st p)) ->
  wp t peek Q p.
Proof.
  intros H1 H2. apply (wp_peekn 0). intros st Hst. change (unread (p_source p) !! 0%nat) with (head (p_source p)).
  destruct (head (p_source p)) as [c|] eqn:E; [|auto].
  assert (head st = Some c) by (by rewrite (peeked_head _ _ Hst)).
  apply H2; [done..|by apply (head_pos _ c)].
Qed.

Lemma wp_peek_at c (Q : option Z -> parser -> Prop) p : head (p_source p) = Some c ->
  (forall st, peeked (p_source p) st -> head st = Some c -> (0 < left_over st)%nat -> Q (Some c) (with_source st p)) ->
  wp t peek Q p.
Proof.
  intros E H. apply wp_peek; [congruence|]. intros c' st P E' Z.
  pose proof (peeked_head _ _ P). replace c' with c in * by congruence. by apply H.
Qed.

Lemma wp_skip (Q : unit -> parser -> Prop) p :
  (forall st, (left_over st <= left_over (p_source p) - 1)%nat -> Q tt (with_source st p)) ->
  wp t skip Q p.
Proof. intros H. apply wp_reading, H, skip_left. Qed.

Lemma wp_next (Q : option Z -> parser -> Prop) p :
  (forall st, (left_over st <= left_over (p_source p) - 1)%nat -> head st = None -> Q None (with_source st p)) ->
  (forall c st, (left_over st <= left_over (p_source p) - 1)%nat -> head st = Some c ->
     (0 < left_over st)%nat -> Q (Some c) (with_source st p)) ->
  wp t next Q p.
Proof.
  intros H1 H2. apply wp_reading. unfold source_next, source_peek.
  pose proof (next_left (p_source p)) as N. unfold source_next, source_peek in N.
  set (st0 := snd (source_skip (p_source p))) in *.
  pose proof (peekn_unread st0 0) as U. pose proof (peekn_peeked st0 0) as K%peeked_head.
  destruct (source_peekn st0 0) as [o st] eqn:E. cbn [fst snd] in *. change (unread st0 !! 0%nat) with (head st0) in U.
  destruct o as [c|]; [|apply H1; [done|congruence]]. apply H2; [done|congruence|apply (head_pos _ c); congruence].
Qed.

Lemma wp_get (Q : option Z -> parser -> Prop) p :
  (forall st, peeked (p_source p) st -> head (p_source p) = None -> Q None (with_source st p)) ->
  (forall c st, (left_over st < left_over (p_source p))%nat -> Q (Some c) (with_source st p)) ->
  wp t get Q p.
Proof.
  intros H1 H2. apply wp_reading. unfold source_get, source_peek.
  pose proof (peekn_unread (p_source p) 0) as U. destruct (peekn_peeked (p_source p) 0) as [L K].
  destruct (source_peekn (p_source p) 0) as [[c|] st] eqn:E; cbn [fst snd] in *; [|by apply H1].
  apply H2. pose proof (skip_left st) as S. unfold parse_skip in S.
  pose proof (unread_left st) as P. rewrite K in P. symmetry in U. apply lookup_lt_Some in U. lia.
Qed.

End Source.

(** ** How much there is left to read *)

(** Characters, a token pushed back counted as one *)
Definition size (p : parser) : nat := left_over (p_source p).
Definition held (p : parser) : nat := (size p + Nat.b2n (p_pushback p))%nat.

(** The same when the end of the input that is pushed back counts as nothing:
    [todo], and [todo] once the current token is pushed back. *)
Definition eof (p : parser) : bool := p_tok p =? T_EOF.
Definition todo (p : parser) : nat := (size p + Nat.b2n (p_pushback p && negb (eof p)))%nat.
Definition after (p : parser) : nat := (size p + Nat.b2n (negb (eof p)))%nat.

Lemma todo_after p : (todo p <= after p)%nat.
Proof. unfold todo, after. destruct (p_pushback p), (eof p); simpl; lia. Qed.

Lemma todo_held p : (todo p <= held p)%nat.
Proof. unfold todo, held. destruct (p_pushback p), (eof p); simpl; lia. Qed.

Lemma size_after p : (size p <= after p)%nat.
Proof. unfold after. lia. Qed.

Lemma todo_read p : p_pushback p = false -> todo p = size p.
Proof. unfold todo. intros ->. simpl. lia. Qed.

(** No parser of shell text has the flags of here-documents and of `...`. *)
Definition clean (fl : Z) : Prop := tok_in fl (Z.lor P_BQUOTE P_HERE) = false.
(** Outside a token no newline is skipped either. *)
Definition plain (fl : Z) : Prop := tok_in fl (Z.lor P_BQUOTE (Z.lor P_HERE P_SKIPNL)) = false.

Lemma tok_in_lor fl a c : tok_in fl (Z.lor a c) = tok_in fl a || tok_in fl c.
Proof.
  unfold tok_in, c_true. rewrite Z.land_lor_distr_r.
  set (x := Z.land fl a). set (y := Z.land fl c).
  destruct (Z.eqb_spec x 0) as [->|Hx]; [done|].
  destruct (Z.eqb_spec (Z.lor x y) 0) as [[E1 E2]%Z.lor_eq_0_iff|N]; done.
Qed.

Lemma tok_in_lor_l a c mask : tok_in (Z.lor a c) mask = tok_in a mask || tok_in c mask.
Proof.
  unfold tok_in. rewrite !(Z.land_comm _ mask). apply (tok_in_lor mask a c).
Qed.

Lemma clean_off fl : clean fl -> tok_in fl P_BQUOTE = false /\ tok_in fl P_HERE = false.
Proof. unfold clean. rewrite tok_in_lor. apply Bool.orb_false_elim. Qed.

Lemma plain_clean fl : plain fl -> clean fl.
Proof.
  unfold plain, clean. rewrite !tok_in_lor. intros (-> & (-> & _)%Bool.orb_false_elim)%Bool.orb_false_elim. done.
Qed.

Lemma clean_or fl x : clean fl -> clean x -> clean (Z.lor fl x).
Proof. unfold clean. rewrite tok_in_lor_l. by intros -> ->. Qed.

Lemma plain_or fl x : plain fl -> plain x -> plain (Z.lor fl x).
Proof. unfold plain. rewrite tok_in_lor_l. by intros -> ->. Qed.

Lemma tok_in_drop fl m mask : tok_in fl mask = false -> tok_in (Z.land fl (Z.lnot m)) mask = false.
Proof.
  unfold tok_in, c_true. rewrite !Bool.negb_false_iff, !Z.eqb_eq. intros H.
  by rewrite <-Z.land_assoc, (Z.land_comm (Z.lnot m)), Z.land_assoc, H.
Qed.

(** ** Steps that leave the source alone *)

Section Steps.
Context (t : bool).
Implicit Types (p q : parser).

Lemma with_tree_id p : with_tree (p_tree p) (p_node p) p = p.
Proof. by destruct p. Qed.
Lemma with_sa_id p : with_sa (p_sa p) p = p.
Proof. by destruct p. Qed.
Lemma with_tok_id p : with_tok (p_tok p) p = p.
Proof. by destruct p. Qed.

Lemma wp_put_node n (Q : unit -> parser -> Prop) p :
  (forall l, new_node n (p_tree p) = Some l -> Q tt (with_tree l true p)) -> wp t (put_node n) Q p.
Proof. intros H. unfold wp, put_node. destruct (new_node n (p_tree p)); auto. Qed.

Lemma wp_parse_string fl (Q : unit -> parser -> Prop) p :
  (forall l n sa, Q tt (with_tree l n (with_sa sa p))) -> wp t (parse_string fl) Q p.
Proof.
  intros H. apply wp_bind, wp_ask. case_test.
  - specialize (H (p_tree p) (p_node p) (p_sa p)). by rewrite with_sa_id, with_tree_id in H.
  - do 3 apply wp_bind, wp_ask || apply wp_bind. case_test.
    + apply wp_ret, wp_change. destruct p. apply (H _ true []).
    + apply wp_put_node. intros l _. apply wp_change. destruct p. apply (H _ true []).
Qed.

Lemma wp_cat x (Q : unit -> parser -> Prop) p : (forall sa, Q tt (with_sa sa p)) -> wp t (cat x) Q p.
Proof. intros H. apply H. Qed.

Lemma wp_no_name (Q : unit -> parser -> Prop) p : (forall tok, Q tt (with_tok tok p)) -> wp t no_name Q p.
Proof.
  intros H. apply wp_change. case_test; [apply H|]. specialize (H (p_tok p)). by rewrite with_tok_id in H.
Qed.

(** The tokens parse_keyword makes *)
Definition keyword_toks : list Z := T_BEGIN :: T_END :: T_NOT :: map snd keywords.

Lemma kw_loop_tok sa tok : kw_loop sa keywords = Some tok -> In tok keyword_toks.
Proof.
  intros E. do 3 right. revert E. induction keywords as [|[name tok'] l IH]; simpl; [done|].
  repeat case_test; intros E; simplify_eq; auto.
Qed.

Lemma wp_parse_keyword_cases (Q : bool -> parser -> Prop) p :
  (forall b tok, tok = p_tok p \/ In tok keyword_toks -> Q b (with_tok tok p)) -> wp t parse_keyword Q p.
Proof.
  intros H. unfold wp, parse_keyword.
  assert (Id : forall b, Q b p) by (intros b0; rewrite <-(with_tok_id p) at 1; apply H; by left).
  destruct (negb _).
  - destruct (p_sa p) as [|c [|? ?]]; try apply Id. repeat case_test; apply Id || (apply H; right; simpl; tauto).
  - case_test; [apply Id|]. destruct (kw_loop (p_sa p) keywords) as [tok|] eqn:E; [|apply Id].
    apply H. right. by apply kw_loop_tok in E.
Qed.

Lemma wp_parse_keyword (Q : bool -> parser -> Prop) p :
  (forall b tok, (p_tok p <> T_EOF -> tok <> T_EOF) -> Q b (with_tok tok p)) -> wp t parse_keyword Q p.
Proof.
  intros H. apply wp_parse_keyword_cases. intros b0 tok E. apply H. destruct E as [->|E]; [done|]. intros _.
  assert (Forall (fun x => x <> T_EOF) keyword_toks) as F by by repeat constructor.
  rewrite List.Forall_forall in F. auto.
Qed.

Lemma wp_parse_getarg (Q : option node -> parser -> Prop) p :
  (forall o l, Q o (with_tree l (p_node p) p)) -> wp t parse_getarg Q p.
Proof.
  intros H. unfold wp, parse_getarg. case_test; [apply H|].
  specialize (H None (p_tree p)). by rewrite with_tree_id in H.
Qed.

End Steps.

(** Running the steps of a computation up to its calls *)
Ltac wp_step :=
  cbv beta;
  lazymatch goal with
  | |- wp _ (bindL _ _) _ _ => apply wp_bind
  | |- wp _ (retL _) _ _ => apply wp_ret
  | |- wp _ (stopL _) _ _ => apply wp_stop
  | |- wp _ peek _ _ => apply wp_peek; intros
  | |- wp _ (peekn _) _ _ => apply wp_peekn; intros
  | |- wp _ skip _ _ => apply wp_skip; intros
  | |- wp _ next _ _ => apply wp_next; intros
  | |- wp _ get _ _ => apply wp_get; intros
  | |- wp _ (parse_string _) _ _ => apply wp_parse_string; intros
  | |- wp _ (cat _) _ _ => apply wp_cat; intros
  | |- wp _ no_name _ _ => apply wp_no_name; intros
  | |- wp _ (put_node _) _ _ => apply wp_put_node; intros
  | |- wp _ parse_keyword _ _ => apply wp_parse_keyword; intros
  | |- wp _ parse_getarg _ _ => apply wp_parse_getarg; intros
  | |- wp _ (flagged _) _ _ => apply wp_ask
  | |- wp _ rounds _ _ => apply wp_ask
  | |- wp _ (ask _) _ _ => apply wp_ask
  | |- wp _ (change _) _ _ => apply wp_change
  | |- wp _ (reading _) _ _ => apply wp_reading; cbn [fst snd]
  | |- wp _ (if ?c then _ else _) _ _ => destruct c eqn:?
  | |- wp _ (match ?o with _ => _ end) _ _ => destruct o eqn:?
  | |- wp _ (let x := _ in _) _ _ => cbv zeta
  end.

(** What is known of the flags *)
Ltac use_flags := cbn [p_flags with_source with_flags with_pushback with_quot with_tok with_sa with_tree] in *;
  repeat match goal with E : tok_in ?f ?m = ?v |- context [tok_in ?f ?m] => rewrite E end.
Ltac wp_run := repeat (wp_step; use_flags).

Lemma b2n_le_1 (x : bool) : (Nat.b2n x <= 1)%nat.
Proof. destruct x; simpl; lia. Qed.

(** What became of the state, in numbers *)
Ltac b2n_fact x :=
  lazymatch goal with
  | _ : (Nat.b2n x <= 1)%nat |- _ => fail
  | _ => pose proof (b2n_le_1 x)
  end.
Ltac state_facts :=
  unfold peeked, held, size, eof, left_over in *;
  cbn [p_source p_pushback p_flags p_tok with_source with_flags with_pushback with_quot with_tok with_sa
    with_tree with_squoted with_bs s_text parse_init Nat.b2n] in *;
  repeat match goal with
  | |- context [Nat.b2n ?x] => b2n_fact x
  | _ : context [Nat.b2n ?x] |- _ => b2n_fact x
  end.
Ltac state_lia := state_facts; try congruence; lia.
