(* ===== verification/LexEnds.v ===== *)
(** * The lexer ends

    Every function of Lexer.v comes to an end and gives nothing back, if the
    functions it calls back do so on texts that are a character shorter
    ([CallsEnd]).  How much is left is counted by [held], which only shrinks while
    a token is read. *)

From S2P Require Import Prelude Scan Chars Source Tree ArithParse LexState Lexer ParseLogic.

Implicit Types (p q : parser).

(** ** What is promised *)

(** At most [n] left, or less than [n] *)
Definition upto (n : nat) q : Prop := (held q <= n)%nat /\ clean (p_flags q).
Definition under (n : nat) q : Prop := (held q < n)%nat /\ clean (p_flags q).
Definition under_if (c : bool) (n : nat) q : Prop := if c then under n q else upto n q.

Lemma under_under_if c n q : under n q -> under_if c n q.
Proof. destruct c; [done|]. intros [? ?]. split; [lia|done]. Qed.

(** From a state with a character in front, something is read. *)
Definition forth p q : Prop := upto (held p) q /\ (head (p_source p) <> None -> under (held p) q).

Lemma forth_under c p q : forth p q -> head (p_source p) = Some c -> under (held p) q.
Proof. intros [_ F] E. apply F. congruence. Qed.

(** A token was read; what is left with it pushed back *)
Definition gotten (n : nat) (fl tok : Z) q : Prop :=
  p_pushback q = false /\ p_tok q = tok /\ p_flags q = fl /\ (after q <= n)%nat.

Record CallsEnd (N : nat) (rec : calls) : Prop := {
  ends_gettok p tf : (todo p < N)%nat -> clean (p_flags p) -> clean tf ->
    wp true (r_gettok rec tf) (gotten (todo p) (p_flags p)) p;
  ends_word p : (held p < N)%nat -> clean (p_flags p) ->
    wp true (r_word rec) (fun _ => upto (held p)) p;
  ends_compound_list p e : (todo p < N)%nat -> plain (p_flags p) ->
    wp true (r_compound_list rec e) (fun _ q => (after q <= todo p)%nat /\ plain (p_flags q)) p;
  ends_command p tf : (todo p < N)%nat -> plain (p_flags p) -> clean tf ->
    wp true (r_command rec tf) (fun o q => plain (p_flags q) /\
      match o with Some _ => (after q < todo p)%nat | None => (after q <= todo p)%nat end) p
}.

Ltac clear_ih := repeat match goal with H : forall _ : parser, _ |- _ => clear H end.
Ltac ends_side := clear_ih; unfold under_if, upto, under in *; cbn [negb orb] in *; state_facts;
  repeat match goal with H : _ /\ _ |- _ => destruct H end; repeat split; try assumption; try congruence; try lia; auto.
Ltac ends_auto := clear_ih; unfold forth, under_if, upto, under in *; cbn [negb] in *; state_facts;
  intuition (try congruence; try lia; auto).
Ltac clean_off := match goal with H : clean _ |- _ => destruct (clean_off _ H) as [?NoBq ?NoHere] end.
Ltac calls H := eapply wp_mono; [apply H; solve [ends_side]|intros].
(** The character in front is the one that was peeked. *)
Ltac at_char := cbn [p_source with_source with_flags with_pushback with_quot with_tok with_sa with_tree];
  repeat match goal with H : (?c =? _) = true |- _ => apply Z.eqb_eq in H; subst end; assumption.
Ltac calls_bool H := eapply wp_mono; [apply H; solve [ends_side]|intros [|] ? ?; ends_side].

(** ** Quotes *)

Lemma squoted_loop_ends fuel : forall p, (held p < fuel)%nat -> clean (p_flags p) ->
  wp true (squoted_loop fuel) (fun stop => under_if (negb stop) (held p)) p.
Proof.
  induction fuel as [|fuel IH]; intros p Hf Hc; [lia|]. clean_off. cbn [squoted_loop].
  wp_run.
  all: try (calls_bool IH).
  all: ends_side.
Qed.

Lemma parse_squoted_ends p : clean (p_flags p) ->
  wp true parse_squoted (fun stop => under_if (negb stop) (held p)) p.
Proof.
  intros Hc. unfold parse_squoted. wp_run. calls_bool squoted_loop_ends.
Qed.

Lemma ansi_loop_ends fuel : forall p raw, (held p < fuel)%nat -> clean (p_flags p) ->
  wp true (ansi_loop fuel raw) (fun _ => upto (held p)) p.
Proof.
  induction fuel as [|fuel IH]; intros p raw Hf Hc; [lia|]. cbn [ansi_loop]. wp_run.
  all: try (calls IH; ends_side).
  all: ends_side.
Qed.

Lemma parse_ansiquoted_ends p : clean (p_flags p) ->
  wp true parse_ansiquoted (fun _ => upto (held p)) p.
Proof.
  intros Hc. unfold parse_ansiquoted. wp_run. calls ansi_loop_ends. wp_run; ends_side.
Qed.

Lemma parse_bquoted_raw_ends fuel : forall p dq raw, (held p < fuel)%nat -> clean (p_flags p) ->
  wp true (parse_bquoted_raw fuel dq raw) (fun o q => upto (held p) q /\
    match o with Some r => (List.length r <= List.length raw + size p)%nat | None => True end) p.
Proof.
  induction fuel as [|fuel IH]; intros p dq raw Hf Hc; [lia|]. cbn [parse_bquoted_raw]. wp_run.
  all: try (calls IH; ends_side; repeat case_match; simplify_eq; rewrite ?length_app in *; simpl in *; lia).
  all: ends_side.
Qed.

Lemma redir_operator_ends rf c p : clean (p_flags p) ->
  wp true (redir_operator rf c) (fun _ => upto (held p)) p.
Proof.
  intros Hc. unfold redir_operator.
  wp_run. all: ends_side. all: try (apply clean_or; done).
Qed.

Section Lexer.
Context (N : nat) (rec : calls) (interactive : bool) (REC : CallsEnd N rec).

Lemma parse_error_ends (Q : unit -> parser -> Prop) p : Q tt p -> wp true (parse_error interactive) Q p.
Proof. unfold wp, parse_error. by case_test. Qed.

Lemma expect_ends tf toks p : (todo p < N)%nat -> clean (p_flags p) -> clean tf ->
  wp true (parse_expect interactive (r_gettok rec) tf toks) (fun _ q =>
    p_pushback q = false /\ p_flags q = p_flags p /\ (after q <= todo p)%nat) p.
Proof.
  intros Hn Hc Ht. unfold parse_expect. wp_step. eapply wp_mono; [by apply (ends_gettok N)|].
  intros tok q (E1 & E2 & E3 & E4). wp_run.
  - apply parse_error_ends. wp_run. by split_and!.
  - by split_and!.
  - by split_and!.
Qed.

(** A parser of its own only moves on in the source. *)
Definition moved p q : Prop := exists st, q = with_source st p /\ (left_over st <= size p)%nat.

Lemma sub_parser_ends {A} fl (m : L A) p :
  wp true m (fun _ q => (size q <= size p)%nat) (parse_init fl (p_source p)) ->
  wp true (sub_parser fl m) (fun _ => moved p) p.
Proof.
  unfold wp, sub_parser. destruct (m (parse_init fl (p_source p))) as [a q| |]; [|done..]. intros H.
  by eexists.
Qed.

Lemma compound_ends fl e p : (size p < N)%nat -> plain fl ->
  wp true (sub_parser fl (r_compound_list rec e)) (fun _ => moved p) p.
Proof.
  intros Hn Hfl. apply sub_parser_ends. eapply wp_mono; [apply (ends_compound_list N); [done|..]|].
  - unfold todo, size in *. cbn. lia.
  - done.
  - intros l q [H _]. unfold todo, after, size in *. cbn in H. lia.
Qed.

Lemma on_text_ends {A} x (m : L A) p :
  (forall st, left_over st = List.length x -> wp true m (fun _ => moved (with_source st p)) (with_source st p)) ->
  wp true (on_text x m) (fun _ => moved p) p.
Proof.
  intros H. unfold wp, on_text. cbv zeta. set (st := Source x _ _ _ _ _ _ _).
  specialize (H st eq_refl). unfold wp in H. destruct (m (with_source st p)) as [a q| |]; [|done..].
  destruct H as (st' & -> & _). eexists. split; [reflexivity|]. apply le_n.
Qed.

Lemma moved_upto p q : moved p q -> clean (p_flags p) -> upto (held p) q.
Proof. intros (st & -> & L) Hc. ends_side. Qed.

Lemma bquoted_node_ends quot dq p : (held p <= N)%nat -> clean (p_flags p) ->
  wp true (bquoted_node rec quot dq) (fun _ => forth p) p.
Proof.
  intros Hn Hc. unfold bquoted_node, forth. wp_run.
  - ends_side.
  - ends_side.
  - eapply wp_mono; [apply compound_ends; [ends_side|done]|]. intros cmds q (st' & -> & L). wp_step.
    ends_side.
  - eapply wp_mono; [apply parse_bquoted_raw_ends; ends_side|]. intros o q [K1 K2]. simpl in K2. wp_run; [|ends_side].
    eapply wp_mono; [apply on_text_ends; intros st' E; apply compound_ends; [|done]|].
    + ends_side.
    + intros cmds q' M%moved_upto; [wp_step|]; ends_side.
Qed.

(** *** Substitutions below an arithmetic expression *)

Lemma as_pres_ends (m : L (option node)) fl st :
  wp true m (fun _ q => (size q <= left_over st)%nat) (parse_init fl st) ->
  shrinks (left_over st) (as_pres (m (parse_init fl st))).
Proof. unfold wp. by destruct (m (parse_init fl st)). Qed.

Lemma wp_of_pres k f (Q : option node -> parser -> Prop) p : shrinks k (f (p_source p)) ->
  (forall n st, (left_over st <= k)%nat -> Q n (with_source st p)) -> wp true (of_pres f) Q p.
Proof. unfold wp, of_pres. destruct (f (p_source p)) as [n st| |]; simpl; auto. Qed.

Lemma subst_ok_le k k' subs : SubstOk k subs -> (k' <= k)%nat -> SubstOk k' subs.
Proof. intros [H1 H2 H3] L. split; intros; [apply H1|apply H2|apply H3]; auto; lia. Qed.

Lemma size_init fl st : size (parse_init fl st) = left_over st.
Proof. done. Qed.

(** The expression and the parentheses behind it *)
Lemma arith_node_ends (subs : SubstParsers) quot p : (0 < N)%nat -> (size p <= N)%nat ->
  (forall st, (left_over st <= size p - 1)%nat -> shrinks (left_over st) (parse_arith_expr (parse_fuel st) st)) ->
  wp true (arith_node rec interactive subs quot) (fun _ => moved p) p.
Proof.
  intros HN Hn HE. unfold arith_node. wp_step. wp_step. change (left_over (p_source p)) with (size p) in *.
  eapply wp_mono; [apply sub_parser_ends|]; cycle 1.
  { intros o q (st' & -> & L). exists st'. split; [done|]. unfold size at 1 in L. cbn in L. lia. }
  set (p0 := parse_init _ _).
  wp_step. eapply wp_of_pres; [by apply HE|].
  intros [n|] st' L; [|wp_step; exact L].
  set (p1 := with_source st' p0). assert (todo p1 = left_over st') as E by (unfold todo, size; cbn; lia).
  change (left_over (p_source p0)) with (left_over st) in L.
  wp_step. eapply wp_mono; [apply expect_ends; [rewrite E; lia|done..]|].
  intros t q (P1 & P2 & P3). pose proof (size_after q). pose proof (todo_read q P1).
  change (size (with_source st p)) with (left_over st).
  wp_step; [wp_step; lia|].
  wp_step. eapply wp_mono; [apply expect_ends; [lia|by rewrite P2|done]|].
  intros t' q' (P1' & P2' & P3'). pose proof (size_after q').
  wp_step; wp_step; lia.
Qed.

Lemma peek_empty st : left_over st = 0%nat -> source_peek st = (None, st).
Proof.
  unfold left_over. intros E%length_zero_iff_nil. unfold source_peek, source_peekn. rewrite E.
  destruct (raw_mode st); [done|]. cbn. by rewrite E.
Qed.

Lemma expr_empty {S0 : SubstParsers} f st : left_over st = 0%nat -> parse_arith_expr (S f) st = PRes None st.
Proof.
  intros E. cbn [parse_arith_expr]. unfold skipspace. cbn [parse_skipspace].
  rewrite !(peek_empty st E). cbn [snd]. by rewrite (peek_empty st E).
Qed.

Lemma subst_parsers_ok d : forall k, (k < d)%nat -> (k < N)%nat -> SubstOk k (subst_parsers rec interactive d).
Proof.
  induction d as [|d IH]; intros k Hd Hn; [lia|]. split; intros; cbn [subst_parsers sub_word sub_arith sub_command].
  - apply as_pres_ends. wp_step. assert (clean fl) by (destruct H as [->| ->]; done).
    eapply wp_mono; [apply (ends_word N); [done| |done]|].
    + ends_side.
    + intros w q [L _]. wp_run. ends_side.
  - apply as_pres_ends. eapply wp_mono; [apply arith_node_ends|].
    + lia.
    + ends_side.
    + intros st' L. rewrite size_init in L. destruct (decide (left_over st = 0)%nat) as [E|E].
      * unfold parse_fuel. rewrite Nat.add_comm. cbn [Nat.add]. rewrite expr_empty by lia. apply le_n.
      * assert (SubstOk (left_over st') (subst_parsers rec interactive d)) by (apply IH; lia).
        by apply (arith_shrinks (left_over st')).
    + intros o q (st' & -> & L). ends_side.
  - apply as_pres_ends. eapply wp_mono; [apply bquoted_node_ends; ends_side|]; [done..|].
    intros o q [[L _] _]. ends_side.
Qed.

Lemma parse_arith_ends p : (held p <= N)%nat -> (0 < N)%nat -> clean (p_flags p) ->
  wp true (parse_arith rec interactive) (fun _ => upto (held p)) p.
Proof.
  intros Hp HN Hc. unfold parse_arith. wp_step. wp_step. wp_step. wp_step. wp_step.
  eapply wp_mono; [apply arith_node_ends; [done|ends_side|]|].
  - intros st L. assert (SubstOk (left_over st) (subst_parsers rec interactive (S (S (List.length (s_text (p_source p))))))).
    { apply subst_parsers_ok; ends_side. }
    by apply (arith_shrinks (left_over st)).
  - intros o q M%moved_upto; [|done]. wp_run; ends_side.
Qed.

Lemma wp_put_param t n (Q : unit -> parser -> Prop) p :
  (forall l, Q tt (with_tree l true p)) -> wp t (put_param n) Q p.
Proof.
  intros H. unfold put_param. wp_step. wp_step. case_test; [by apply wp_change|]. by wp_step.
Qed.

Lemma parse_param_word_ends p : (held p < N)%nat -> clean (p_flags p) ->
  wp true (parse_param_word rec interactive) (fun _ => upto (held p)) p.
Proof.
  intros Hp Hc. unfold parse_param_word. wp_run.
  eapply (wp_of_pres (left_over (p_source p))).
  - apply (@parse_param_left _ (left_over (p_source p))); [|done]. apply subst_parsers_ok; ends_side.
  - intros n st L. repeat wp_step; try (apply wp_put_param; intros; wp_step); ends_side.
Qed.

Lemma parse_bquoted_ends p : (held p <= N)%nat -> clean (p_flags p) ->
  wp true (parse_bquoted rec) (fun _ => forth p) p.
Proof.
  intros Hp Hc. unfold parse_bquoted. wp_run.
  eapply wp_mono; [apply bquoted_node_ends; ends_side|]. intros o q F. wp_run; ends_auto.
Qed.

(** From a "$" on *)
Lemma parse_subst_word_ends p : (held p <= N)%nat -> clean (p_flags p) -> head (p_source p) = Some (ch "$") ->
  wp true (parse_subst_word rec interactive) (fun _ => under (held p)) p.
Proof.
  intros Hp Hc Hh. unfold parse_subst_word. wp_step. apply (wp_peek_at _ _ _ _ Hh). intros st P E Z.
  destruct (ch "$" =? ch "$") eqn:D; [|done]. wp_run; try solve [ends_side].
  all: eapply wp_mono; [first [apply parse_arith_ends|apply parse_bquoted_ends|apply parse_param_word_ends|
    apply parse_ansiquoted_ends]; solve [ends_side]|].
  all: intros stop q F; ends_auto.
Qed.

Lemma wp_quoted_empty t n (Q : unit -> parser -> Prop) p :
  (forall l x, Q tt (with_tree l x p)) -> wp t (quoted_empty n) Q p.
Proof.
  intros H. apply wp_change.
  repeat case_match; try apply H; specialize (H (p_tree p) (p_node p)); by rewrite with_tree_id in H.
Qed.

Lemma dquoted_loop_ends fuel : forall p, (held p < fuel)%nat -> (held p <= N)%nat -> clean (p_flags p) ->
  wp true (dquoted_loop rec interactive fuel) (fun fail => under_if (negb fail) (held p)) p.
Proof.
  induction fuel as [|fuel IH]; intros p Hf Hn Hc; [lia|]. clean_off. cbn [dquoted_loop].
  wp_run; try solve [ends_side].
  all: lazymatch goal with |- wp _ (dquoted_loop _ _ _) _ _ => calls_bool IH | _ => idtac end.
  - eapply wp_mono; [apply parse_bquoted_ends; ends_side|]. intros stop q F.
    apply (forth_under c) in F; [|done]. wp_step; [ends_side|]. calls_bool IH.
  - eapply wp_mono; [apply parse_subst_word_ends; [ends_side|ends_side|at_char]|]. intros stop q F.
    wp_step; [ends_side|]. calls_bool IH.
  - apply wp_quoted_empty. intros. wp_run. ends_side.
Qed.

Lemma parse_dquoted_ends p : (held p <= N)%nat -> clean (p_flags p) ->
  wp true (parse_dquoted rec interactive) (fun fail => under_if (negb fail) (held p)) p.
Proof.
  intros Hn Hc. unfold parse_dquoted. wp_run. eapply wp_mono; [apply dquoted_loop_ends; solve [ends_side]|].
  destruct (clean_off _ Hc) as [_ NoHere]. intros [|] q F; wp_run; try congruence; ends_side.
Qed.

Lemma redir_parse_ends rf fd p c : (held p <= N)%nat -> clean (p_flags p) -> head (p_source p) = Some c ->
  wp true (redir_parse rec rf fd) (fun _ => under (held p)) p.
Proof.
  intros Hn Hc Hh. unfold redir_parse. wp_step. apply (wp_peek_at _ _ _ _ Hh). intros st P E Z.
  wp_run; try ends_side.
  eapply wp_mono; [apply redir_operator_ends; ends_side|]. intros [rf'|] q [L C]; [|wp_step; ends_side].
  wp_step. eapply wp_mono; [apply (ends_gettok N); [done| | |done]|].
  - pose proof (todo_held q). ends_side.
  - done.
  - intros tok q' (P1 & P2 & P3 & P4). pose proof (size_after q'). pose proof (todo_held q).
    assert (under (held p) q').
    { unfold under, held in *. rewrite P1, P3. split; [|done]. simpl. ends_side. }
    wp_run; ends_side.
Qed.

Lemma wp_word_ends t fl (Q : unit -> parser -> Prop) p :
  (forall l n sa tok, Q tt (with_tree l n (with_sa sa (with_tok tok p)))) -> wp t (word_ends fl) Q p.
Proof.
  intros H. unfold word_ends. wp_run.
  - specialize (H l n sa (p_tok p)). by rewrite with_tok_id in H.
  - specialize (H (p_tree p) (p_node p) (p_sa p) tok). by destruct p.
  - apply H.
Qed.

(** At the start of a word: nothing was read of it, and what is in front is in
    no other token. *)
Definition fresh p : Prop :=
  p_sa p = [] /\ p_tree p = [] /\
  exists c, head (p_source p) = Some c /\ parse_isctrl c = false /\ parse_isspace c = false.

Lemma unquoted_loop_ends fuel : forall p fl ib (first : bool),
  (held p < fuel)%nat -> (held p <= N)%nat -> clean (p_flags p) -> (first = true -> fresh p) ->
  wp true (unquoted_loop rec interactive fuel fl ib) (fun stop => under_if (negb stop || first) (held p)) p.
Proof.
  induction fuel as [|fuel IH]; intros p fl ib first Hf Hn Hc HF; [lia|]. clean_off. cbn [unquoted_loop].
  unfold parse_in_tilde_prefix.
  wp_run; try solve [apply under_under_if; ends_side].
  all: lazymatch goal with
       | |- wp _ (unquoted_loop _ _ _ _ _) _ _ =>
           eapply wp_mono; [apply (IH _ _ _ false); [ends_side..|done]|intros [|] ? ?; apply under_under_if; ends_side]
       | _ => idtac
       end.
  - apply wp_word_ends. intros. wp_step. destruct first; [|ends_side].
    destruct (HF eq_refl) as (_ & _ & c & E & _). congruence.
  - eapply wp_mono; [apply parse_bquoted_ends; ends_side|]. intros stop q F.
    apply (forth_under c) in F; [|done]. wp_step; [wp_step; apply under_under_if; ends_side|].
    eapply wp_mono; [apply (IH _ _ _ false); [ends_side..|done]|intros [|] ? ?; apply under_under_if; ends_side].
  - eapply wp_mono; [apply parse_subst_word_ends; [ends_side|ends_side|at_char]|]. intros stop q F.
    wp_step; [wp_step; apply under_under_if; ends_side|].
    eapply wp_mono; [apply (IH _ _ _ false); [ends_side..|done]|intros [|] ? ?; apply under_under_if; ends_side].
  - eapply wp_mono; [apply (redir_parse_ends _ _ _ c); [ends_side..|done]|]. intros stop q F.
    apply under_under_if. ends_side.
  - apply wp_word_ends. intros. wp_step. destruct first; [|ends_side].
    destruct (HF eq_refl) as (E1 & E2 & _). cbn [p_sa p_tree with_source] in *.
    rewrite E1, E2 in *. done.
  - apply wp_word_ends. intros. wp_step. destruct first; [|ends_side].
    destruct (HF eq_refl) as (_ & _ & c' & E & E1 & E2). exfalso.
    replace c' with c in * by (pose proof (peeked_head _ _ H); congruence). by rewrite E1, E2 in *.
Qed.

Lemma parse_unquoted_ends p (first : bool) : (held p <= N)%nat -> clean (p_flags p) -> (first = true -> fresh p) ->
  wp true (parse_unquoted rec interactive) (fun stop => under_if (negb stop || first) (held p)) p.
Proof.
  intros Hn Hc HF. unfold parse_unquoted. wp_run. eapply wp_mono; [apply (unquoted_loop_ends _ _ _ _ first)|].
  - ends_side.
  - ends_side.
  - done.
  - exact HF.
  - done.
Qed.

Lemma fresh_peeked p st : fresh p -> peeked (p_source p) st -> fresh (with_source st p).
Proof.
  intros (E1 & E2 & c & E & K) P. split_and!; [done..|]. exists c. split; [|done].
  cbn. by rewrite (peeked_head _ _ P).
Qed.

Lemma word_loop_ends fuel : forall p (first : bool), (held p < fuel)%nat -> (held p <= N)%nat -> clean (p_flags p) ->
  (first = true -> fresh p /\ p_quot p = Q_UNQUOTED) ->
  wp true (word_loop rec interactive fuel) (fun _ => under_if first (held p)) p.
Proof.
  induction fuel as [|fuel IH]; intros p first Hf Hn Hc HF; [lia|]. cbn [word_loop].
  assert (Go : forall q (stop : bool), under_if (negb stop || first) (held p) q ->
    wp true (if stop then retL tt else word_loop rec interactive fuel) (fun _ => under_if first (held p)) q).
  { intros q stop F. destruct stop; [by wp_step|].
    eapply wp_mono; [apply (IH _ false); [ends_side..|done]|]. intros u q' F'. destruct first; ends_side. }
  wp_step. wp_step.
  - wp_step. destruct first; [|ends_side]. destruct (HF eq_refl) as ((_ & _ & c & E & _) & _). congruence.
  - wp_run.
    + destruct first; [destruct (HF eq_refl) as [_ Q]; cbn in *; by rewrite Q in *|].
      eapply wp_mono; [apply parse_dquoted_ends; ends_side|]. intros stop q F. apply Go. destruct stop; ends_side.
    + destruct first; [destruct (HF eq_refl) as [_ Q]; cbn in *; by rewrite Q in *|].
      eapply wp_mono; [apply parse_squoted_ends; ends_side|]. intros stop q F. apply Go. destruct stop; ends_side.
    + eapply wp_mono; [apply (parse_unquoted_ends _ first); [ends_side..|]|].
      * intros F. apply fresh_peeked; [by apply HF|done].
      * intros stop q F. apply Go. destruct stop, first; ends_side.
Qed.

(** What is in front belongs to a word. *)
Definition starts p : Prop :=
  exists c, head (p_source p) = Some c /\ parse_isctrl c = false /\ parse_isspace c = false.

Lemma parse_word_ends p (first : bool) : (held p <= N)%nat -> clean (p_flags p) -> (first = true -> starts p) ->
  wp true (parse_word rec interactive) (fun _ => under_if first (held p)) p.
Proof.
  intros Hn Hc HF. unfold parse_word. wp_run.
  all: eapply wp_mono; [apply (word_loop_ends _ _ first); [ends_side..|]|].
  - intros F. split; [|done]. split_and!; [done|done|by apply HF].
  - intros u q F. wp_run; destruct first; ends_side.
Qed.

(** ** Tokens *)

Lemma isctrl_cases c : parse_isctrl c = true -> existsb (Z.eqb c) [38; 40; 41; 59; 124] = true.
Proof.
  destruct (decide (0 <= c < 256)) as [B|B].
  - intros E. apply (byte_forall (fun c => implb (parse_isctrl c) (existsb (Z.eqb c) [38; 40; 41; 59; 124]))) in B;
      [|vm_compute; reflexivity]. by rewrite E in B.
  - unfold parse_isctrl, class_has. by rewrite char_class_out.
Qed.

Lemma skip_blanks_ends fuel : forall p c, (held p < fuel)%nat -> clean (p_flags p) -> head (p_source p) = Some c ->
  wp true (skip_blanks fuel c) (fun o q => upto (held p) q /\ p_flags q = p_flags p /\
    match o with
    | None => True
    | Some c => head (p_source q) = Some c /\
        (parse_isspace c = false \/ c = NL /\ tok_in (p_flags p) P_SKIPNL = false)
    end) p.
Proof.
  induction fuel as [|fuel IH]; intros p c Hf Hc Hh; [lia|]. cbn [skip_blanks]. wp_run.
  - ends_side.
  - pose proof (head_pos _ _ Hh). eapply wp_mono; [apply IH; ends_side|]. cbv beta. intros o q (U & E & M).
    split; [ends_side|by split].
  - split; [ends_side|]. do 2 (split; [done|]).
    destruct (parse_isspace c); [|by left]. right. cbn in Heqb. zify_bool. by split.
Qed.

Lemma skip_comment_ends fuel : forall p c, (held p < fuel)%nat -> clean (p_flags p) -> (0 < size p)%nat ->
  wp true (skip_comment fuel c) (fun _ => under_if (negb (c =? NL)) (held p)) p.
Proof.
  induction fuel as [|fuel IH]; intros p c Hf Hc Hh; [lia|]. cbn [skip_comment].
  destruct (c =? NL) eqn:E; wp_run; try solve [ends_side].
  all: eapply wp_mono; [apply IH; ends_side|]; intros more q F; destruct (_ =? NL) in F; ends_side.
Qed.

(** A token was read, or the input ended, or a word follows. *)
Definition token_post (n : nat) (tok : Z) q : Prop :=
  if tok =? T_NONE then upto n q /\ starts q else if tok =? T_EOF then upto n q else under n q.

Lemma token_under n tok q : (tok =? T_NONE) = false -> under n q -> token_post n tok q.
Proof. intros E [? ?]. unfold token_post. rewrite E. case_match; split; done || lia. Qed.

Lemma token_le n m tok q : (n <= m)%nat -> token_post n tok q -> token_post m tok q.
Proof. unfold token_post, upto, under. intros L. repeat case_match; intuition lia. Qed.

Ltac token_done := apply token_under; [reflexivity|ends_side].

Ltac tok_close IH :=
  lazymatch goal with
  | |- wp _ (parse_simpletok _) _ _ =>
      eapply wp_mono; [apply IH; solve [ends_side]|intros ? ?; apply token_le; ends_side]
  | |- token_post _ T_EOF _ => unfold token_post; simpl; ends_side
  | |- token_post _ _ _ => token_done
  end.

Lemma backslash_ends n p fuel : (held p <= n)%nat -> clean (p_flags p) -> head (p_source p) = Some BSL ->
  (forall q, (held q < n)%nat -> clean (p_flags q) -> wp true (parse_simpletok fuel) (token_post (held q)) q) ->
  wp true
    (o <- peekn 1 ;;
     match o with
     | None => retL T_EOF
     | Some c =>
         if c =? 13 then
           o <- next ;;
           match o with
           | None => retL T_EOF
           | Some c => (if c =? NL then skip else retL tt) ;; skip ;; parse_simpletok fuel
           end
         else if c =? NL then skip ;; skip ;; parse_simpletok fuel
         else retL T_NONE
     end) (token_post n) p.
Proof.
  intros Hn Hc Hh IH. pose proof (head_pos _ _ Hh).
  wp_run.
  all: try (eapply wp_mono; [apply IH; ends_side|intros tok q; apply token_le; ends_side]).
  all: unfold token_post; simpl; try ends_side.
  exists BSL. split; [|done]. cbn. unfold head in *. congruence.
Qed.

Lemma parse_simpletok_ends fuel : forall p, (held p < fuel)%nat -> clean (p_flags p) ->
  wp true (parse_simpletok fuel) (token_post (held p)) p.
Proof.
  induction fuel as [|fuel IH]; intros p Hf Hc; [lia|]. cbn [parse_simpletok].
  wp_step. wp_step; [wp_step; unfold token_post; simpl; ends_side|].
  wp_step. wp_step. wp_step. eapply wp_mono; [apply skip_blanks_ends; ends_side|]. cbv beta.
  intros [c'|] q (U & E & M); [|wp_step; unfold token_post; simpl; ends_side].
  destruct M as [Hh M]. pose proof (head_pos _ _ Hh) as Z. assert (Cq : clean (p_flags q)) by apply U.
  assert (IH' : forall q', (held q' < held p)%nat -> clean (p_flags q') ->
    wp true (parse_simpletok fuel) (token_post (held q')) q') by (intros; apply IH; [ends_side|done]).
  assert (Lq : (held q <= held p)%nat) by ends_side.
  destruct (c' =? ch "#") eqn:T1.
  { unfold set_comment. wp_run. eapply wp_mono; [apply skip_comment_ends; ends_side|].
    apply Z.eqb_eq in T1. subst c'. change (ch "#" =? NL) with false. cbn [negb under_if].
    intros [|] q' F; wp_run; tok_close IH'. }
  destruct (c' =? BSL) eqn:T2.
  { apply Z.eqb_eq in T2. subst c'. apply backslash_ends; [done..|]. exact IH'. }
  destruct (c' =? 13) eqn:T3.
  { apply Z.eqb_eq in T3. subst c'. by destruct M as [|[? _]]. }
  destruct (c' =? NL) eqn:T4.
  { apply Z.eqb_eq in T4. subst c'. destruct M as [|[_ M]]; [done|]. rewrite <-E in M. wp_run; tok_close IH'. }
  unfold double_tok. wp_run; try tok_close IH'.
  all: split; [done|]; exists c'; split; [done|].
  all: split; [|destruct M as [->|[-> _]]; done].
  all: destruct (parse_isctrl c') eqn:Hk; [apply isctrl_cases in Hk|done]; unfold existsb in Hk.
  all: change (ch "|") with 124 in *; change (ch "&") with 38 in *; change (ch ";") with 59 in *.
  all: change (ch "(") with 40 in *; change (ch ")") with 41 in *.
  all: repeat match goal with H : (_ =? _) = false |- _ => rewrite ?H in Hk; clear H end; done.
Qed.

Definition settled (n : nat) q : Prop :=
  clean (p_flags q) /\ if eof q then (held q <= n)%nat else (held q < n)%nat.

Lemma settled_under n q : under n q -> settled n q.
Proof. intros [? ?]. split; [done|]. case_match; lia. Qed.

Lemma only_keywords_eof fl : only_keywords fl T_EOF = T_EOF.
Proof. unfold only_keywords. case_match; [|done]. by change (tok_in T_EOF all_keywords) with false. Qed.

Lemma scan_token_ends p : (held p <= N)%nat -> clean (p_flags p) ->
  wp true (scan_token rec interactive) (fun _ => settled (held p)) p.
Proof.
  intros Hn Hc. unfold scan_token. wp_step. wp_step. wp_step. wp_step. wp_step.
  eapply wp_mono; [apply parse_simpletok_ends; ends_side|].
  intros tok q T. match type of T with token_post ?h _ _ => change h with (held p) in T end.
  assert (Tail : forall q, settled (held p) q ->
    wp true (name <- ask (fun p => tok_in (p_tok p) T_NAME && negb (tok_in (p_flags p) P_NOKEYWD) &&
        match last (node_chain (p_tree p)) with Some (nargstr _ _) => true | _ => false end) ;;
      (if name : bool then parse_keyword else retL false) ;;
      change (fun p => with_tok (only_keywords (p_flags p) (p_tok p)) p)) (fun _ => settled (held p)) q).
  { clear. intros q [C S]. unfold eof in S. destruct (p_tok q =? T_EOF) eqn:E.
    - apply Z.eqb_eq in E. wp_step. wp_step. rewrite E. change (tok_in T_EOF T_NAME) with false. cbn [andb].
      wp_run. split; [done|]. unfold eof. cbn. rewrite E, only_keywords_eof. done.
    - wp_run; apply settled_under; ends_side. }
  wp_step. wp_step. wp_step. unfold token_post in T. wp_step.
  - destruct T as [U S]. wp_step. eapply wp_mono; [apply (parse_word_ends _ true); [ends_side..|by intros]|].
    intros w q' F. wp_step. apply Tail, settled_under. ends_side.
  - wp_step. apply Tail. destruct (tok =? T_EOF) eqn:E; [|apply settled_under; ends_side].
    split; [ends_side|]. unfold eof. cbn. rewrite E. ends_side.
Qed.

Lemma parse_gettok_ends tf p : (todo p <= N)%nat -> clean (p_flags p) -> clean tf ->
  wp true (parse_gettok rec interactive tf) (gotten (todo p) (p_flags p)) p.
Proof.
  intros Hn Hc Ht. unfold parse_gettok. wp_step. wp_step. wp_step. wp_step. wp_step. wp_step. wp_step.
  set (p1 := with_flags _ p). wp_step.
  - assert (held p1 = todo p) as E.
    { unfold held, todo, size, eof, p1 in *. cbn in *. destruct (p_pushback p); [|done]. cbn in *.
      zify_bool. rewrite H0. done. }
    eapply wp_mono; [apply scan_token_ends; [by rewrite E|by apply clean_or]|].
    intros u q [C S]. wp_run. split_and!; [done|done|done|]. rewrite E in S. clear E p1 Heqb.
    unfold after, held, size, eof in *. cbn in *. destruct (p_tok q =? T_EOF); cbn; lia.
  - wp_run. split_and!; [done|done|done|].
    unfold after, todo, size, eof, p1 in *. cbn in *. destruct (p_pushback p); [|done]. cbn. lia.
Qed.

End Lexer.
