(* ===== verification/GrammarEnds.v ===== *)
(** * The parser ends

    The functions of Grammar.v, like those of the lexer (LexEnds.v), come to an
    end when what they call back does so on less text; the knot is then tied by
    induction on the fuel, and a text's length bounds how deep its parse nests.
    Between tokens what is left is counted by [todo] and [after] (ParseLogic.v). *)

From S2P Require Import Prelude Scan Chars Source Tree ArithParse LexState Lexer Grammar ParseLogic LexEnds.

Implicit Types (p q : parser).

(** ** What is left between tokens *)

Lemma todo_push q : todo (with_pushback true q) = after q.
Proof. done. Qed.
Lemma after_push x q : after (with_pushback x q) = after q.
Proof. done. Qed.
Lemma todo_tree l n q : todo (with_tree l n q) = todo q.
Proof. done. Qed.
Lemma after_tree l n q : after (with_tree l n q) = after q.
Proof. done. Qed.
Lemma todo_flags fl q : todo (with_flags fl q) = todo q.
Proof. done. Qed.
Lemma after_flags fl q : after (with_flags fl q) = after q.
Proof. done. Qed.
Lemma todo_drop q : p_pushback q = false -> todo (with_pushback false q) = todo q.
Proof. unfold todo. by intros ->. Qed.

Create Rewrite HintDb todo.
#[export] Hint Rewrite todo_push after_push todo_tree after_tree todo_flags after_flags : todo.

(** A token that is not the end was read: it counts. *)
Lemma after_read q : p_pushback q = false -> p_tok q <> T_EOF -> after q = S (todo q).
Proof. unfold after, todo, eof. intros -> E%Z.eqb_neq. rewrite E. simpl. lia. Qed.

Lemma todo_rounds q : (todo q < S (S (List.length (s_text (p_source q)))))%nat.
Proof. unfold todo, size, left_over. pose proof (b2n_le_1 (p_pushback q && negb (eof q))). lia. Qed.

Lemma plain_drop fl m : plain fl -> plain (Z.land fl (Z.lnot m)).
Proof. apply tok_in_drop. Qed.

(** Where a function of the grammar leaves the parser *)
Definition left_at (n : nat) q : Prop := plain (p_flags q) /\ (after q <= n)%nat.
Definition read_at (n : nat) q : Prop := p_pushback q = false /\ left_at n q.
Definition left_if {A} (o : option A) (n : nat) q : Prop :=
  plain (p_flags q) /\ match o with Some _ => (after q < n)%nat | None => (after q <= n)%nat end.

Lemma left_weaken n m q : left_at n q -> (n <= m)%nat -> left_at m q.
Proof. intros [? ?] ?. split; [done|lia]. Qed.

Ltac todo_facts :=
  autorewrite with todo in *;
  cbn [p_flags p_pushback p_tok with_source with_flags with_pushback with_quot with_tok with_sa with_tree] in *;
  repeat match goal with
  | H : _ /\ _ |- _ => destruct H
  | q : parser |- _ =>
      lazymatch goal with _ : (todo q <= after q)%nat |- _ => fail | _ => pose proof (todo_after q) end
  end;
  repeat match goal with
  | H : p_pushback ?q = false, E : p_tok ?q <> T_EOF |- _ =>
      lazymatch goal with _ : after q = S (todo q) |- _ => fail | _ => pose proof (after_read q H E) end
  end.

Ltac plain_side := repeat first [assumption|apply plain_drop|apply plain_or|apply plain_clean|reflexivity].

Ltac todo_side :=
  clear_ih; unfold left_if, read_at, left_at in *; todo_facts;
  repeat match goal with |- _ /\ _ => split end; try assumption; try done; try lia; try solve [plain_side].

Lemma shifted_eof t : c_true (Z.land T_EOF (Z.shiftl t 1)) = false.
Proof.
  unfold c_true. apply Bool.negb_false_iff, Z.eqb_eq. change T_EOF with (Z.ones 1).
  rewrite Z.land_comm, Z.land_ones by lia. rewrite Z.shiftl_mul_pow2 by lia. by rewrite Z.mod_mul.
Qed.

Section Grammar.
Context (N : nat) (rec : calls) (interactive : bool) (REC : CallsEnd N rec).

(** ** Tokens *)

Lemma wp_gettok tf (Q : Z -> parser -> Prop) p : (todo p <= N)%nat -> plain (p_flags p) -> clean tf ->
  (forall tok q, read_at (todo p) q -> p_tok q = tok -> (tok <> T_EOF -> (todo q < todo p)%nat) -> Q tok q) ->
  wp true (gettok rec interactive tf) Q p.
Proof.
  intros Hn Hp Ht H. eapply wp_mono; [apply (parse_gettok_ends N); [done|done|by apply plain_clean|done]|].
  intros tok q (P1 & P2 & P3 & P4). apply H; [|done|].
  - unfold read_at, left_at. by rewrite P3.
  - intros E. rewrite <-P2 in E. pose proof (after_read q P1 E). lia.
Qed.

(** A token pushed back is the next one. *)
Lemma wp_gettok_pushed tf (Q : Z -> parser -> Prop) p : (todo p <= N)%nat -> plain (p_flags p) ->
  p_pushback p = true -> p_tok p <> T_NL -> p_tok p <> T_EOF ->
  (forall q, read_at (todo p) q -> p_tok q = p_tok p -> (todo q < todo p)%nat -> Q (p_tok p) q) ->
  wp true (gettok rec interactive tf) Q p.
Proof.
  intros Hn Hp Hb NL EOF H. unfold gettok, parse_gettok.
  wp_step. wp_step. wp_step. wp_step. wp_step. wp_step. wp_step. cbn [p_pushback p_tok p_flags with_flags].
  rewrite Hb. apply Z.eqb_neq in NL as ->. rewrite Bool.andb_false_r. cbn [negb orb].
  wp_run. set (q := with_pushback false _).
  assert (after q = todo p) as E.
  { unfold after, todo, size, eof, q. cbn. by rewrite Hb. }
  assert (after q = S (todo q)) by (by apply after_read).
  change (p_tok q) with (p_tok p). apply H; [|done|lia]. split; [done|]. split; [exact Hp|lia].
Qed.

Definition one_of (tok : Z) (toks : list Z) : bool := existsb (Z.eqb tok) toks.

Definition pushed (toks : list Z) p : Prop := p_pushback p = true /\ one_of (p_tok p) toks = true.

Lemma wp_gettok_first (first : bool) toks tf (Q : Z -> parser -> Prop) p :
  (todo p <= N)%nat -> plain (p_flags p) -> clean tf ->
  one_of T_NL toks = false -> one_of T_EOF toks = false -> (first = true -> pushed toks p) ->
  (forall tok q, read_at (todo p) q -> p_tok q = tok -> (tok <> T_EOF -> (todo q < todo p)%nat) ->
     (first = true -> one_of tok toks = true) -> Q tok q) ->
  wp true (gettok rec interactive tf) Q p.
Proof.
  intros Hn Hp Ht NL EOF HF H. destruct first; [|apply wp_gettok; [done..|]; intros; by apply H].
  destruct (HF eq_refl) as [E T].
  apply wp_gettok_pushed; [done|done|done|intros E'; congruence|intros E'; congruence|]. intros q R K L. by apply H.
Qed.

Lemma wp_expect tf toks (Q : Z -> parser -> Prop) p : (todo p <= N)%nat -> plain (p_flags p) -> clean tf ->
  tok_in T_EOF toks = false ->
  (forall q, left_at (todo p) q -> Q 0 q) ->
  (forall t q, read_at (todo p) q -> p_tok q = t -> tok_in t toks = true -> (todo q < todo p)%nat -> Q t q) ->
  wp true (expect rec interactive tf toks) Q p.
Proof.
  intros Hn Hp Ht HE H0 H1. unfold expect, parse_expect, parse_dropkeyword. wp_step. apply wp_gettok; [done..|].
  intros tok q R E K. wp_step.
  - wp_step. apply parse_error_ends. wp_step. apply H0. by destruct R.
  - assert (tok <> T_EOF) as NE by (intros ->; rewrite HE in *; done). specialize (K NE).
    assert (Q tok (with_pushback false q)) as K1.
    { apply H1; [|done|by zify_bool|]; destruct R; [by split|by rewrite todo_drop]. }
    zify_bool. wp_step. wp_step. wp_step. wp_step; wp_step; wp_step; [|exact K1].
    apply H1; [|done|done|]; destruct R; [by split|]. autorewrite with todo. by rewrite todo_drop.
Qed.

(** A token in a mask without the end of the input is not the end. *)
Ltac not_eof := intros ->; match goal with H : _ = true |- _ => solve [discriminate H|cbn in H; discriminate H] end.
Ltac read_token := apply wp_gettok; [todo_side..|]; intros.
Ltac strictly := match goal with H : ?tok <> T_EOF -> _ |- _ => let N := fresh in assert (N : tok <> T_EOF) by not_eof; specialize (H N) end.

Lemma skip_toks_ends fuel tf mask : clean tf -> tok_in T_EOF mask = false ->
  forall p, (todo p < fuel)%nat -> (todo p <= N)%nat -> plain (p_flags p) ->
  wp true (skip_toks rec interactive fuel tf mask) (fun _ => read_at (todo p)) p.
Proof.
  intros Ht HE. induction fuel as [|fuel IH]; intros p Hf Hn Hp; [lia|]. cbn [skip_toks].
  wp_step. apply wp_gettok; [done..|]. intros tok q R E K. wp_step; [|by wp_step].
  assert (tok <> T_EOF) by (intros ->; congruence).
  eapply wp_mono; [apply IH; todo_side|]. intros u q' F. todo_side.
Qed.

Lemma skip_newlines_ends tf p : clean tf -> (todo p <= N)%nat -> plain (p_flags p) ->
  wp true (skip_newlines rec interactive tf) (fun _ => read_at (todo p)) p.
Proof.
  intros Ht Hn Hp. unfold skip_newlines. wp_step. wp_step.
  apply skip_toks_ends; [done..| |done|done]. apply todo_rounds.
Qed.

Lemma redirs_loop_ends fuel : forall p acc, (todo p < fuel)%nat -> (todo p <= N)%nat -> plain (p_flags p) ->
  wp true (redirs_loop rec interactive fuel acc) (fun _ => read_at (todo p)) p.
Proof.
  induction fuel as [|fuel IH]; intros p acc Hf Hn Hp; [lia|]. cbn [redirs_loop]. unfold move_tree.
  wp_step. apply wp_gettok; [done..|]. intros tok q R E K. wp_step; [|by wp_step]. strictly.
  wp_run. eapply wp_mono; [apply IH; todo_side|]. intros u q' F. todo_side.
Qed.

Lemma redirs_ends p : (todo p <= N)%nat -> plain (p_flags p) ->
  wp true (redirs rec interactive) (fun _ => read_at (todo p)) p.
Proof.
  intros Hn Hp. unfold redirs. wp_step. wp_step. apply redirs_loop_ends; [apply todo_rounds|done..].
Qed.

Lemma with_redirs_ends o p : (todo p <= N)%nat -> plain (p_flags p) ->
  wp true (with_redirs rec interactive o) (fun r q => left_at (after p) q /\ (r <> None -> o <> None)) p.
Proof.
  intros Hn Hp. unfold with_redirs, push_back, or_undefined. destruct o as [n|]; wp_step; wp_step.
  - eapply wp_mono; [by apply redirs_ends|]. intros l q R. wp_step. apply wp_or_stop. intros n' _.
    wp_run. split; [|done]. todo_side.
  - wp_run. split; [|done]. todo_side.
Qed.

(** ** Simple commands *)

Lemma simple_loop_ends fuel : forall p (first : bool) rdir vars args,
  (todo p < fuel)%nat -> (todo p <= N)%nat -> plain (p_flags p) ->
  (first = true -> pushed [T_NAME; T_WORD; T_REDIR; T_ASSIGN] p) ->
  wp true (simple_loop rec interactive fuel rdir vars args)
    (fun _ q => left_at (todo p) q /\ (first = true -> (after q < todo p)%nat)) p.
Proof.
  induction fuel as [|fuel IH]; intros p first rdir vars args Hf Hn Hp HF; [lia|]. cbn [simple_loop].
  unfold drop_flags, set_flags, move_tree, push_back, or_undefined.
  assert (Go : forall q rdir vars args, (todo q < todo p)%nat -> plain (p_flags q) ->
    wp true (simple_loop rec interactive fuel rdir vars args)
      (fun _ q => left_at (todo p) q /\ (first = true -> (after q < todo p)%nat)) q).
  { intros q r v a L Hq. eapply wp_mono; [apply (IH _ false); [lia|lia|done|done]|].
    intros n q' [[F1 F2] _]. split; [split; [done|lia]|]. intros _. lia. }
  wp_step. apply (wp_gettok_first first [T_NAME; T_WORD; T_REDIR; T_ASSIGN]); [done..|].
  intros tok q R E K KF. wp_run; try (strictly; apply Go; todo_side).
  split; [todo_side|]. intros F. specialize (KF F). exfalso. unfold one_of, existsb in KF. zify_bool. lia.
Qed.

Lemma parse_simple_command_ends p : (todo p <= N)%nat -> plain (p_flags p) ->
  pushed [T_NAME; T_WORD; T_REDIR; T_ASSIGN] p ->
  wp true (parse_simple_command rec interactive) (fun _ => left_at (pred (todo p))) p.
Proof.
  intros Hn Hp HF. unfold parse_simple_command. wp_step. wp_step.
  eapply wp_mono; [apply (simple_loop_ends _ _ true); [apply todo_rounds|done..]|].
  intros n q [[F1 _] F2]. split; [done|]. specialize (F2 eq_refl). lia.
Qed.

(** ** Compound commands *)

Ltac failed := cbv beta; change (0 =? 0) with true; cbv iota; wp_step; todo_side.
Ltac expected := apply wp_expect; [todo_side|todo_side|done|done|intros; try failed|intros].

Lemma wp_compound e (Q : list node -> parser -> Prop) p : (todo p < N)%nat -> plain (p_flags p) ->
  (forall l q, left_at (todo p) q -> Q l q) -> wp true (r_compound_list rec e) Q p.
Proof.
  intros Hn Hp H. eapply wp_mono; [by apply (ends_compound_list N)|]. intros l q [F1 F2]. by apply H.
Qed.

Ltac compound := apply wp_compound; [todo_side|todo_side|intros].

Lemma parse_grouping_ends tf p : (todo p <= N)%nat -> plain (p_flags p) -> clean tf ->
  wp true (parse_grouping rec interactive tf) (fun o => left_if o (todo p)) p.
Proof.
  intros Hn Hp Ht. unfold parse_grouping, push_back. wp_step.
  apply wp_expect; [done|done|by apply clean_or|done|intros; failed|]. intros t q R E I L.
  wp_step; [wp_step; todo_side|]. wp_step. compound. wp_step.
  assert (tok_in T_EOF (Z.shiftl t 1) = false) as HE by (unfold tok_in; apply shifted_eof).
  apply wp_expect; [todo_side|todo_side|done|done|intros; failed|]. intros t' q' R' E' I' L'.
  wp_step; [wp_step; todo_side|]. wp_step; [wp_step; todo_side|]. wp_step.
  eapply wp_mono; [apply redirs_ends; todo_side|]. intros r q'' F. wp_run. todo_side.
Qed.

Lemma if_loop_ends fuel : forall p, (todo p < fuel)%nat -> (todo p < N)%nat -> plain (p_flags p) ->
  wp true (if_loop rec interactive fuel) (fun _ => left_at (todo p)) p.
Proof.
  induction fuel as [|fuel IH]; intros p Hf Hn Hp; [lia|]. cbn [if_loop]. unfold push_back.
  wp_step. compound. wp_step. expected.
  wp_step; [wp_step; todo_side|]. wp_step. compound. wp_step. read_token. wp_step.
  - strictly. wp_step. eapply wp_mono; [apply IH; todo_side|]. intros o q' F. wp_step. todo_side.
  - wp_step. wp_step; [strictly|].
    + compound. wp_step. expected; wp_step; wp_step; todo_side.
    + wp_run. expected; wp_step; wp_step; todo_side.
Qed.

Lemma parse_if_ends p : (todo p < N)%nat -> plain (p_flags p) ->
  wp true (parse_if rec interactive) (fun _ => left_at (todo p)) p.
Proof.
  intros Hn Hp. unfold parse_if. wp_step. wp_step. apply if_loop_ends; [apply todo_rounds|done..].
Qed.

Lemma words_loop_ends fuel : forall p acc, (todo p < fuel)%nat -> (todo p <= N)%nat -> plain (p_flags p) ->
  wp true (words_loop rec interactive fuel acc) (fun _ => read_at (todo p)) p.
Proof.
  induction fuel as [|fuel IH]; intros p acc Hf Hn Hp; [lia|]. cbn [words_loop]. unfold or_undefined.
  wp_step. read_token. wp_step; [|by wp_step]. strictly. wp_run.
  eapply wp_mono; [apply IH; todo_side|]. intros u q' F. todo_side.
Qed.

Lemma do_group_ends p : (todo p < N)%nat -> plain (p_flags p) ->
  wp true (do_group rec interactive) (fun _ => left_at (todo p)) p.
Proof.
  intros Hn Hp. unfold do_group. wp_step. compound. wp_step. expected; wp_step; todo_side.
Qed.

Lemma wp_take_name (Q : bytes -> parser -> Prop) p :
  (forall s l, Q s (with_tree l (p_node p) p)) -> wp true take_name Q p.
Proof. intros H. unfold take_name. repeat (wp_step; try apply wp_stop). apply H. Qed.

Lemma parse_for_ends p : (todo p < N)%nat -> plain (p_flags p) ->
  wp true (parse_for rec interactive) (fun _ => left_at (todo p)) p.
Proof.
  intros Hn Hp. unfold parse_for, push_back. wp_step. expected. wp_step; [wp_step; todo_side|].
  wp_step. apply wp_take_name. intros s l. wp_step. read_token. wp_step. wp_step. wp_step.
  eapply (wp_mono _ _ (fun _ => left_at (todo q))).
  { wp_step; [|wp_step; todo_side]. eapply wp_mono; [apply words_loop_ends; [apply todo_rounds|todo_side..]|].
    intros a r F. todo_side. }
  intros args r F. wp_step. wp_step. wp_step. read_token. wp_step.
  eapply (wp_mono _ _ (fun _ => left_at (todo q))).
  { wp_run; todo_side. }
  intros u r' F'. wp_step. expected. wp_step; [wp_step; todo_side|]. wp_step.
  eapply wp_mono; [apply do_group_ends; todo_side|]. intros o r'' F''. wp_step. todo_side.
Qed.

Lemma pats_loop_ends fuel : forall p (first : bool) acc,
  (todo p < fuel)%nat -> (todo p <= N)%nat -> plain (p_flags p) ->
  (first = true -> pushed [T_NAME; T_WORD; T_ASSIGN] p) ->
  wp true (pats_loop rec interactive fuel acc)
    (fun _ q => left_at (todo p) q /\ (first = true -> (after q < todo p)%nat)) p.
Proof.
  induction fuel as [|fuel IH]; intros p first acc Hf Hn Hp HF; [lia|]. cbn [pats_loop].
  unfold push_back, or_undefined. wp_step.
  apply (wp_gettok_first first [T_NAME; T_WORD; T_ASSIGN]); [done..|].
  intros tok q R E K KF.
  assert (Go : forall q acc, (todo q < todo p)%nat -> plain (p_flags q) ->
    wp true (pats_loop rec interactive fuel acc)
      (fun _ q => left_at (todo p) q /\ (first = true -> (after q < todo p)%nat)) q).
  { intros q0 a L Hq. eapply wp_mono; [apply (IH _ false); [lia|lia|done|done]|].
    intros n q' [[F1 F2] _]. split; [split; [done|lia]|]. intros _. lia. }
  wp_step; [strictly; wp_step|].
  - apply Go; todo_side.
  - wp_run. read_token. wp_step; [strictly; apply Go; todo_side|]. wp_run. split; todo_side.
  - wp_run. split; [todo_side|]. intros F. specialize (KF F). unfold one_of, existsb in KF.
    exfalso. rewrite !Bool.orb_true_iff, !Z.eqb_eq in KF. destruct KF as [->|[->|[->|KF]]]; done.
Qed.

(** What is pushed back is a word or, at the end of the input, counts as one. *)
Lemma pattern_start_ends tok n p : read_at n p -> p_tok p = tok -> (tok <> T_EOF -> (todo p < n)%nat) ->
  wp true (pattern_start tok) (fun _ q => plain (p_flags q) /\
    ((todo q < n)%nat \/ (todo q <= S n)%nat /\ pushed [T_NAME; T_WORD; T_ASSIGN] q)) p.
Proof.
  intros (R1 & R2 & R3) E K. unfold pattern_start, push_back. wp_step.
  - strictly. wp_step. by split; [|left].
  - wp_step.
    assert (L : (S (size p) <= S n)%nat) by (pose proof (size_after p); lia).
    wp_step; wp_step; wp_step; (split; [done|]); right; (split; [|split; [done|]]).
    + unfold todo, size, eof in *. cbn in *. pose proof (b2n_le_1 (negb (p_tok p =? T_EOF))). lia.
    + unfold pushed, one_of, existsb. cbn. rewrite E. zify_bool. lia.
    + unfold todo, size, eof in *. cbn in *. lia.
    + done.
Qed.

Lemma cases_loop_ends fuel : forall p acc, (todo p < fuel)%nat -> (todo p < N)%nat -> plain (p_flags p) ->
  wp true (cases_loop rec interactive fuel acc) (fun _ => left_at (todo p)) p.
Proof.
  induction fuel as [|fuel IH]; intros p acc Hf Hn Hp; [lia|]. cbn [cases_loop].
  wp_step. read_token. wp_step; [wp_step; todo_side|]. wp_step.
  eapply wp_mono; [by apply (pattern_start_ends tok (todo p))|]. intros u r (F1 & F2).
  wp_step. wp_step. wp_step.
  eapply (wp_mono _ _ (fun _ => left_at (todo p))).
  { destruct F2 as [F2|[F2 F3]].
    - eapply wp_mono; [apply (pats_loop_ends _ _ false); [apply todo_rounds|todo_side..|done]|].
      intros a r' [F _]. todo_side.
    - eapply wp_mono; [apply (pats_loop_ends _ _ true); [apply todo_rounds|todo_side..|done]|].
      intros a r' [[F F'] F'']. specialize (F'' eq_refl). todo_side. }
  intros pats r' F. wp_step. expected. wp_step; [wp_step; todo_side|]. wp_step. compound. wp_step. expected.
  wp_step; [wp_step; todo_side|]. wp_step; [wp_step; todo_side|].
  eapply wp_mono; [apply IH; todo_side|]. intros o r'' F'. todo_side.
Qed.

Lemma parse_case_ends p : (todo p < N)%nat -> plain (p_flags p) ->
  wp true (parse_case rec interactive) (fun _ => left_at (todo p)) p.
Proof.
  intros Hn Hp. unfold parse_case, parse_dropkeyword. wp_step. expected. wp_step; [wp_step; todo_side|].
  wp_step. wp_step. wp_step. expected. wp_step; [wp_step; todo_side|]. wp_step. wp_step. wp_step.
  eapply wp_mono; [apply cases_loop_ends; [apply todo_rounds|todo_side..]|]. intros o' r F. wp_run; todo_side.
Qed.

Lemma parse_loop_ends p : (todo p < N)%nat -> plain (p_flags p) ->
  wp true (parse_loop rec interactive) (fun _ => left_at (todo p)) p.
Proof.
  intros Hn Hp. unfold parse_loop. wp_step. wp_step. wp_step. compound. wp_step. expected.
  wp_step; [wp_step; todo_side|]. wp_step. eapply wp_mono; [apply do_group_ends; todo_side|].
  intros o r F. wp_step. todo_side.
Qed.

(** ** Functions and commands *)

Lemma to_body_ends fuel : forall p, (todo p < fuel)%nat -> (todo p <= N)%nat -> plain (p_flags p) ->
  wp true (to_body rec interactive fuel) (fun _ => read_at (todo p)) p.
Proof.
  induction fuel as [|fuel IH]; intros p Hf Hn Hp; [lia|]. cbn [to_body].
  wp_step. read_token. wp_step; [|by wp_step]. strictly.
  eapply wp_mono; [apply IH; todo_side|]. intros u q' F. todo_side.
Qed.

Lemma parse_function_ends p : (todo p < N)%nat -> plain (p_flags p) ->
  wp true (parse_function rec interactive) (fun _ => left_at (todo p)) p.
Proof.
  intros Hn Hp. unfold parse_function, push_back, or_undefined. wp_step. read_token. wp_step. wp_step. wp_step.
  apply wp_or_stop. intros name _. wp_step. wp_step. wp_step. wp_step. wp_step.
  eapply wp_mono; [apply to_body_ends; [apply todo_rounds|todo_side..]|]. intros u r F.
  wp_step. wp_step. wp_step. read_token. wp_step. wp_step. cbv zeta. wp_step.
  eapply (wp_mono _ _ (fun _ => left_at (todo p))).
  { wp_step.
    - eapply wp_mono; [apply parse_grouping_ends; [todo_side..|done]|]. intros o r' F'. destruct o; todo_side.
    - eapply wp_mono; [apply (ends_command N); [done|todo_side..|done]|]. cbv beta. intros o r' F'. destruct o; todo_side. }
  intros [body|] r' F'; [|wp_run; todo_side]. wp_step. apply wp_or_stop. intros body' _. wp_step.
  eapply wp_mono; [apply redirs_ends; todo_side|]. intros l r'' F''. wp_run. todo_side.
Qed.

(** In the source only *)
Definition ahead p q : Prop := exists st, q = with_source st p /\ (left_over st <= size p)%nat.

Lemma skipspace_loop_ends fuel : forall p, (size p < fuel)%nat -> plain (p_flags p) ->
  wp true (skipspace_loop fuel) (fun _ => ahead p) p.
Proof.
  induction fuel as [|fuel IH]; intros p Hf Hp; [lia|]. cbn [skipspace_loop].
  assert (tok_in (p_flags p) P_SKIPNL = false) as Hs.
  { unfold plain in Hp. rewrite !tok_in_lor in Hp. zify_bool. done. }
  assert (Go : forall st, (left_over st < size p)%nat ->
    wp true (skipspace_loop fuel) (fun _ => ahead p) (with_source st p)).
  { intros st L. eapply wp_mono; [apply IH; [cbn; unfold size; cbn; lia|done]|].
    intros u q (st' & -> & L'). exists st'. split; [done|]. unfold size in *. cbn in *. lia. }
  wp_run; rewrite ?Hs in *; try discriminate.
  all: try (apply Go; state_facts; lia).
  all: eexists; split; [reflexivity|]; state_facts; lia.
Qed.

Lemma ahead_peeked p st : peeked (p_source p) st -> ahead p (with_source st p).
Proof. intros [L _]. by exists st. Qed.

Lemma ahead_trans p q r : ahead p q -> ahead q r -> ahead p r.
Proof.
  intros (st & -> & L) (st' & -> & L'). exists st'. split; [done|]. unfold size in *. cbn in *. lia.
Qed.

Lemma parens_ends fuel : forall i seen p,
  (i <= S (List.length (unread (p_source p))))%nat -> (S (List.length (unread (p_source p))) < fuel + i)%nat ->
  wp true (parens fuel i seen) (fun _ => ahead p) p.
Proof.
  induction fuel as [|fuel IH]; intros i seen p Hi Hf; [lia|]. cbn [parens].
  wp_step. wp_step. pose proof (ahead_peeked p st H) as A. destruct H as [_ U].
  wp_run; try done.
  match goal with H : unread _ !! i = Some _ |- _ => apply lookup_lt_Some in H end.
  eapply wp_mono; [apply IH; cbn [p_source with_source]; rewrite U; lia|].
  intros o q F. by eapply ahead_trans.
Qed.

Lemma skips_ends n p : wp true (skips n) (fun _ => ahead p) p.
Proof.
  revert p. induction n as [|n IH]; intros p; cbn [skips]; wp_step.
  - exists (p_source p). split; [by destruct p|done].
  - wp_step. eapply wp_mono; [apply IH|]. intros u q F. eapply ahead_trans; [|exact F].
    exists st. split; [done|]. unfold size. lia.
Qed.

Lemma function_head_ends p : plain (p_flags p) ->
  wp true function_head (fun f q => ahead p q /\ (f = true -> (size q < size p)%nat)) p.
Proof.
  intros Hp. unfold function_head, parse_skipspace. wp_step. wp_step. wp_step.
  eapply wp_mono; [apply skipspace_loop_ends; [unfold size, left_over; lia|done]|]. intros u q A.
  assert (size q <= size p)%nat as Sq by (destruct A as (st & -> & L); exact L).
  wp_step. wp_step.
  - change (default (-1) None =? ch "(") with false. cbv iota. wp_step.
    split; [|done]. eapply ahead_trans; [exact A|by apply ahead_peeked].
  - pose proof (ahead_trans _ _ _ A (ahead_peeked _ _ H)) as A'. wp_step; [|wp_step; by split].
    wp_step. wp_step. wp_step. eapply wp_mono; [apply parens_ends|].
    + lia.
    + pose proof (unread_left (p_source (with_source st q))). unfold left_over in *. lia.
    + intros o r B. wp_step; [|wp_step; split; [by eapply ahead_trans|done]].
      wp_step. eapply wp_mono; [apply skips_ends|]. intros u' r' B'. wp_step. wp_step. wp_step.
      pose proof (ahead_trans _ _ _ B B') as (st1 & -> & L1).
      split.
      * eapply ahead_trans; [exact A'|]. exists st0. split; [done|]. cbn in *. lia.
      * intros _. unfold peeked, size in *. cbn in *. lia.
Qed.

Lemma simple_ends p : (after p <= N)%nat -> plain (p_flags p) ->
  one_of (p_tok p) [T_NAME; T_WORD; T_REDIR; T_ASSIGN] = true ->
  wp true (simple rec interactive) (fun o => left_if o (after p)) p.
Proof.
  intros Hn Hp HF. unfold simple, push_back. wp_step. wp_step. wp_step.
  eapply wp_mono; [apply parse_simple_command_ends; [todo_side|done|by split]|]. intros n q F.
  assert (0 < after p)%nat.
  { unfold after, eof. destruct (p_tok p =? T_EOF) eqn:E; [|simpl; lia]. apply Z.eqb_eq in E. by rewrite E in HF. }
  rewrite todo_push in F. eapply wp_mono; [apply with_redirs_ends; todo_side|].
  intros o r [F' _]. destruct o; todo_side.
Qed.

Lemma parse_command_ends tf p : (todo p <= N)%nat -> plain (p_flags p) -> clean tf ->
  wp true (parse_command rec interactive tf) (fun o => left_if o (todo p)) p.
Proof.
  intros Hn Hp Ht. unfold parse_command, push_back. wp_step. read_token.
  assert (Redirs : forall o r, left_at (todo q) r -> (todo q < todo p)%nat ->
    wp true (with_redirs rec interactive o) (fun o => left_if o (todo p)) r).
  { intros o r F L. eapply wp_mono; [apply with_redirs_ends; todo_side|]. intros o' r' [F' _].
    destruct o'; todo_side. }
  wp_step; [strictly; wp_step; eapply wp_mono; [apply parse_for_ends; todo_side|]; intros o r F; by apply Redirs|].
  wp_step; [strictly; wp_step; eapply wp_mono; [apply parse_case_ends; todo_side|]; intros o r F; by apply Redirs|].
  wp_step; [strictly; wp_step; eapply wp_mono; [apply parse_if_ends; todo_side|]; intros o r F; by apply Redirs|].
  wp_step; [strictly; wp_step; eapply wp_mono; [apply parse_loop_ends; todo_side|]; intros o r F; by apply Redirs|].
  wp_step.
  { wp_step. wp_step. wp_step. eapply wp_mono; [apply parse_grouping_ends; [todo_side..|done]|]. intros o r F.
    eapply wp_mono; [apply with_redirs_ends; destruct o; todo_side|]. intros o' r' [F' K].
    destruct o' as [n|], o as [n'|]; try (exfalso; by apply K); todo_side. }
  wp_step.
  - strictly. wp_step. eapply wp_mono; [apply function_head_ends; todo_side|].
    intros f r [(st & -> & L) Lf]. destruct H as [R1 [R2 R3]].
    assert (Hr : after (with_source st q) = S (left_over st)).
    { unfold after, size, eof. cbn. zify_bool. rewrite H0, Heqb4. simpl. lia. }
    pose proof (todo_read _ R1). wp_step.
    + specialize (Lf eq_refl). unfold size at 1 in Lf. cbn in Lf. wp_step. wp_step.
      eapply wp_mono; [apply parse_function_ends; todo_side|]. intros o r F. destruct o; todo_side.
    + eapply wp_mono; [apply simple_ends; [|done|]|].
      * rewrite Hr. lia.
      * cbn. zify_bool. rewrite H0, Heqb4. done.
      * rewrite Hr. intros o r F. destruct o; todo_side.
  - wp_step.
    + strictly. eapply wp_mono; [apply simple_ends; [todo_side|todo_side|]|].
      * rewrite H0. unfold one_of, existsb. zify_bool. lia.
      * intros o r F. destruct o; todo_side.
    + wp_run. todo_side.
Qed.

(** ** Pipelines and lists *)

Lemma prefix_loop_ends fuel : forall p x, (todo p < fuel)%nat -> (todo p <= N)%nat -> plain (p_flags p) ->
  wp true (prefix_loop rec interactive fuel x) (fun _ => read_at (todo p)) p.
Proof.
  induction fuel as [|fuel IH]; intros p x Hf Hn Hp; [lia|]. cbn [prefix_loop]. unfold word_is, push_back.
  wp_step. read_token.
  assert (Go : forall q x, (todo q < todo p)%nat -> plain (p_flags q) ->
    wp true (prefix_loop rec interactive fuel x) (fun _ => read_at (todo p)) q).
  { intros r y L Hr. eapply wp_mono; [apply IH; todo_side|]. intros y' r' F. todo_side. }
  wp_step; [strictly; apply Go; todo_side|]. wp_step. wp_step. wp_step; [|by wp_step].
  strictly. wp_step. read_token. wp_step. wp_step. wp_step.
  - apply Go; todo_side.
  - wp_step. wp_step. apply Go; todo_side.
Qed.

Lemma pipe_loop_ends fuel : forall p acc, (todo p < fuel)%nat -> (todo p <= N)%nat -> plain (p_flags p) ->
  wp true (pipe_loop rec interactive fuel acc) (fun _ => left_at (todo p)) p.
Proof.
  induction fuel as [|fuel IH]; intros p acc Hf Hn Hp; [lia|]. cbn [pipe_loop].
  wp_step. eapply wp_mono; [by apply parse_command_ends|]. intros [n|] q F.
  - wp_step. read_token. wp_step; [|wp_step; todo_side]. strictly.
    eapply wp_mono; [apply IH; todo_side|]. intros o r F'. todo_side.
  - wp_step. apply parse_error_ends. wp_step. todo_side.
Qed.

Lemma parse_pipeline_ends p : (todo p <= N)%nat -> plain (p_flags p) ->
  wp true (parse_pipeline rec interactive) (fun o => left_if o (todo p)) p.
Proof.
  intros Hn Hp. unfold parse_pipeline, push_back. wp_step. wp_step. wp_step.
  eapply wp_mono; [apply prefix_loop_ends; [apply todo_rounds|done..]|]. intros x q F.
  wp_step. wp_step. wp_step. eapply wp_mono; [apply parse_command_ends; [todo_side..|done]|].
  intros [n|] r F'.
  - wp_step. read_token. wp_step. wp_step. wp_step.
    eapply (wp_mono _ _ (fun _ => left_at (pred (todo p)))).
    { wp_step; [|wp_step; todo_side]. wp_step.
      eapply wp_mono; [apply pipe_loop_ends; [apply todo_rounds|todo_side..]|]. intros o r' F''. wp_step. todo_side. }
    intros [n'|] r' F''; wp_run; todo_side.
  - wp_step. eapply (wp_mono _ _ (fun _ => left_at (todo p))).
    { wp_step; [apply parse_error_ends|wp_step]; todo_side. }
    intros u r' F''. wp_step. todo_side.
Qed.

Lemma and_or_loop_ends fuel : forall p n, (todo p < fuel)%nat -> (todo p <= N)%nat -> plain (p_flags p) ->
  wp true (and_or_loop rec interactive fuel n) (fun _ => left_at (todo p)) p.
Proof.
  induction fuel as [|fuel IH]; intros p n Hf Hn Hp; [lia|]. cbn [and_or_loop]. unfold push_back.
  wp_step. read_token. wp_step; [wp_run; todo_side|].
  assert (tok <> T_EOF) as NE by (intros ->; done). specialize (H1 NE).
  wp_step. eapply wp_mono; [apply skip_newlines_ends; [done|todo_side..]|]. intros u r F.
  wp_step. wp_step. wp_step. eapply wp_mono; [apply parse_pipeline_ends; todo_side|]. intros [n'|] r' F'.
  - eapply wp_mono; [apply IH; todo_side|]. intros n'' r'' F''. todo_side.
  - wp_run. todo_side.
Qed.

Lemma parse_and_or_ends p : (todo p <= N)%nat -> plain (p_flags p) ->
  wp true (parse_and_or rec interactive) (fun o => left_if o (todo p)) p.
Proof.
  intros Hn Hp. unfold parse_and_or. wp_step. eapply wp_mono; [by apply parse_pipeline_ends|].
  intros [n|] q F; [|wp_step; todo_side]. wp_step. wp_step. wp_step.
  eapply wp_mono; [apply and_or_loop_ends; [apply todo_rounds|todo_side..]|]. intros n' r F'. wp_step. todo_side.
Qed.

Lemma list_loop_ends fuel : forall p acc, (todo p < fuel)%nat -> (todo p <= N)%nat -> plain (p_flags p) ->
  wp true (list_loop rec interactive fuel acc) (fun l q => left_at (todo p) q /\ (l = acc \/ (after q < todo p)%nat)) p.
Proof.
  induction fuel as [|fuel IH]; intros p acc Hf Hn Hp; [lia|]. cbn [list_loop]. unfold push_back.
  wp_step. eapply wp_mono; [by apply parse_and_or_ends|]. intros [n|] q F.
  - wp_step. read_token. wp_step; [wp_step; split; [todo_side|right; todo_side]|].
    wp_step; [wp_run; split; [todo_side|right; todo_side]|].
    assert (tok <> T_EOF) as NE by (intros ->; done). specialize (H1 NE).
    eapply wp_mono; [apply IH; todo_side|]. intros l r [F' _]. split; [todo_side|right; todo_side].
  - wp_step. split; [todo_side|by left].
Qed.

Lemma parse_list_ends p : (todo p <= N)%nat -> plain (p_flags p) ->
  wp true (parse_list rec interactive) (fun l q => left_at (todo p) q /\ (l = [] \/ (after q < todo p)%nat)) p.
Proof.
  intros Hn Hp. unfold parse_list. wp_step. wp_step. wp_step.
  eapply wp_mono; [apply list_loop_ends; [apply todo_rounds|done..]|]. intros l q [F F'].
  wp_step. split; [done|]. destruct F' as [->|F']; [by left|by right].
Qed.

Lemma after_newlines_ends fuel : forall p, (S (todo p) < fuel)%nat -> (todo p <= N)%nat -> plain (p_flags p) ->
  wp true (after_newlines rec interactive fuel) (fun _ => left_at (after p)) p.
Proof.
  induction fuel as [|fuel IH]; intros p Hf Hn Hp; [lia|]. cbn [after_newlines].
  wp_step. wp_step. wp_step; [|wp_step; todo_side]. wp_step. read_token.
  destruct (decide (tok = T_EOF)) as [->|E].
  - destruct fuel; [lia|]. cbn [after_newlines]. wp_step. wp_step. rewrite H0. wp_step; [done|]. wp_step. todo_side.
  - specialize (H1 E). eapply wp_mono; [apply IH; todo_side|]. intros u r F. todo_side.
Qed.

Lemma compound_loop_ends fuel e : forall p acc, (todo p < fuel)%nat -> (todo p <= N)%nat -> plain (p_flags p) ->
  wp true (compound_loop rec interactive fuel e acc) (fun _ => left_at (todo p)) p.
Proof.
  induction fuel as [|fuel IH]; intros p acc Hf Hn Hp; [lia|]. cbn [compound_loop]. unfold push_back, drop_flags.
  wp_step. eapply (wp_mono _ _ (fun _ q => plain (p_flags q) /\ todo q = todo p)).
  { wp_run; split; done || todo_side. }
  intros u q [Fp Ft]. wp_step. eapply wp_mono; [apply skip_newlines_ends; [done|lia|done]|]. intros u' q1 F1.
  wp_step. wp_step. wp_step. read_token. wp_step. wp_step. wp_step; [wp_step; todo_side|].
  wp_step. eapply wp_mono; [apply parse_list_ends; todo_side|]. intros l r [F F'].
  wp_step. wp_step. wp_step. eapply wp_mono; [apply after_newlines_ends; [pose proof (todo_rounds r); lia|todo_side..]|].
  intros u'' r' F''. wp_run; [todo_side|]. destruct F' as [F'|F']; [congruence|].
  eapply wp_mono; [apply IH; todo_side|]. intros l' r'' F3. todo_side.
Qed.

Lemma parse_compound_list_ends e p : (todo p <= N)%nat -> plain (p_flags p) ->
  wp true (parse_compound_list rec interactive e) (fun _ => left_at (todo p)) p.
Proof.
  intros Hn Hp. unfold parse_compound_list. wp_step. wp_step.
  apply compound_loop_ends; [apply todo_rounds|done..].
Qed.

End Grammar.

(** ** The knot *)

Lemma grammar_ends interactive fuel : CallsEnd fuel (grammar interactive fuel).
Proof.
  induction fuel as [|fuel IH]; split; intros; try lia; cbn [grammar r_gettok r_word r_compound_list r_command].
  - apply (parse_gettok_ends fuel); [done|lia|done|done].
  - apply (parse_word_ends fuel _ _ IH p false); [lia|done|done].
  - eapply wp_mono; [apply (parse_compound_list_ends fuel); [done|lia|done]|]. intros l q [? ?]. by split.
  - eapply wp_mono; [apply (parse_command_ends fuel); [done|lia|done|done]|]. intros o q F. exact F.
Qed.

Lemma script_loop_ends N rec : CallsEnd N rec -> forall fuel acc p,
  (todo p < fuel)%nat -> (todo p <= N)%nat -> plain (p_flags p) ->
  snd (script_loop rec false fuel acc p) <> NoEnd.
Proof.
  intros REC fuel. induction fuel as [|fuel IH]; intros acc p Hf Hn Hp; [lia|]. cbn [script_loop]. cbv zeta.
  set (step := bindL _ _).
  assert (wp true step (fun o q => plain (p_flags q) /\ (o <> None -> (after q <= todo p)%nat)) p) as W.
  { unfold step, push_back. wp_step. apply (wp_gettok N); [done..|]. intros tok q R E K.
    wp_step; [by wp_step; destruct R as [_ [? _]]|]. wp_step. wp_step. wp_step.
    eapply wp_mono; [apply (parse_list_ends N); [done|destruct R as (_ & _ & ?); cbn in *; rewrite todo_push; lia|apply R]|].
    intros l r [[F1 F2] _]. wp_step. split; [done|]. intros _. destruct R as (_ & _ & R). rewrite todo_push in F2. lia. }
  unfold wp in W. destruct (step p) as [[l|] q|[]|]; try done. destruct W as [W1 W2]. specialize (W2 ltac:(done)).
  destruct (tok_in (p_tok q) _) eqn:T; [|cbn; by destruct (p_tok q =? T_EOF)].
  apply IH; [| |done].
  all: assert (p_tok q <> T_EOF) as NE by (intros E; by rewrite E in T).
  all: apply Z.eqb_neq in NE; unfold todo, after, eof in *; cbn in *; unfold size in *; cbn in *; rewrite NE in *;
    cbn in *; lia.
Qed.

(** C4: reading a script always comes to an end: with a fuel of two more than the
    characters of the text, for the loops and for the nesting of the recursive
    descent, the parser reaches the end of the input, a syntax error or one of
    the stops; it never runs out. *)
Theorem parse_script_ends (x : bytes) : snd (parse_script false x) <> NoEnd.
Proof.
  apply (script_loop_ends (grammar_fuel x)); [apply grammar_ends|..|done].
  all: unfold todo, size, grammar_fuel, left_over; cbn; lia.
Qed.

(** C35: the lexer keeps the promise the arithmetic parser is proved against
    (SubstOk): on texts shorter than the fuel, the word of a "${x-word}", a
    nested "$((...))" and a command substitution end and give nothing back. *)
Theorem lexer_subst_ok (interactive : bool) (fuel d n : nat) :
  (n < d)%nat -> (n < fuel)%nat ->
  SubstOk n (subst_parsers (grammar interactive fuel) interactive d).
Proof. intros Hd Hn. by apply (subst_parsers_ok fuel); [apply grammar_ends|..]. Qed.

Lemma lexer_subst_ok_witness :
  let rec := grammar false 40 in
  SubstOk 39 (subst_parsers rec false 40) /\
  let st := source_push (b "1 + ${x:-$((2))} * `wc`)") in
  match parse_arith_expr (H := subst_parsers rec false 40) (parse_fuel st) st with
  | PRes (Some n) st => s_text st = b ")" /\ n =
      narithbinary A_ADD (narithnum 1 10) (Some (narithbinary A_MUL
        (nargparam (Z.lor S_ARITH S_NULL) (b "x")
           (Some (narg N_ARG 0 [nargarith 0 (Some (narithnum 2 10))])) 0)
        (Some (nargcmd S_BQUOTE [ncmd false [] [] [narg N_ARG 0 [nargstr 0 (b "wc")]]]))))
  | _ => False
  end.
Proof.
  split; [apply (lexer_subst_ok false 40 40 39); lia|]. vm_compute. by split.
Defined.
