(* ===== verification/LexTyped.v ===== *)
(** * Words and tokens are well formed

    What the lexer leaves in the tree of a parser: the parts of a word, or the
    redirection they became.  In a parser of commands ([exact]) the token tells
    which of the two, and a word only ends at the end of the input or in front
    of a character that is in no word ([ended]); in the word of a "${x-word}" a
    redirection may be taken for the word, and even be the operand of another. *)

From S2P Require Import Prelude Scan Chars Source Tree TreeTypes ArithParse ArithTyped LexState Lexer ParseLogic.

Implicit Types (p q : parser).

(** ** Changes of a tree *)

Record grows (l l' : list node) : Prop := {
  grows_parts : parts l -> parts l';
  grows_redir : one_redir l -> one_redir l';
  grows_chain : chain l -> chain l'
}.

#[export] Instance grows_preorder : PreOrder grows.
Proof. split; [by intros l|]. intros l1 l2 l3 [] []. split; auto. Qed.

Lemma chain_inv l : chain l -> parts l \/ exists fl w fd, l = [nredir fl w [] fd] /\ fd_ok fd /\ chain w.
Proof.
  unfold chain at 1. rewrite orb_True. intros [?|H]; [by left|right]. destruct l as [|n [|]]; [done| |done].
  cbn [List.length Nat.eqb andb forallb] in H. rewrite andb_true_r in H.
  apply (single_inv Stray) in H as (fl & w & fd & -> & ?); [|by right]. by eexists _, _, _.
Qed.

Lemma redir_not_parts fl w d fd : parts [nredir fl w d fd] -> False.
Proof. unfold parts. cbn. by rewrite andb_false_r. Qed.

Section InChain.
Context (f : list node -> list node) (Hf : forall l, parts l -> parts (f l)).

(** The chain is the tree itself, or it lies below a redirection. *)
Lemma in_chain_cases l : (forall n, l = [n] -> is_redir n -> False) /\ in_chain f l = f l \/
  exists n, l = [n] /\ is_redir n /\ in_chain f l = [in_operand f n].
Proof using Type.
  destruct l as [|n [|]]; [by left| |by left]. simpl. destruct (is_redir n) eqn:E; [right|left].
  - exists n. by rewrite E.
  - split; [|done]. intros m [= <-]. by rewrite E.
Qed.

Lemma in_chain_parts l : parts l -> parts (in_chain f l).
Proof using Hf.
  intros H. destruct (in_chain_cases l) as [[_ ->]|(n & -> & R & _)]; [auto|].
  destruct n; try done; by apply redir_not_parts in H.
Qed.

Lemma in_operand_redir fl w d fd : in_operand f (nredir fl w d fd) = nredir fl (in_chain f w) d fd.
Proof using Type. done. Qed.

Lemma in_chain_redir l : one_redir l -> one_redir (in_chain f l).
Proof using Hf.
  intros (fl & w & fd & -> & ? & ?)%one_redir_inv. simpl. fold (in_chain f w).
  apply one_redir_intro; [by apply in_chain_parts|done].
Qed.

Lemma in_operand_chain n : chain [n] -> is_redir n -> chain [in_operand f n].
Proof using Hf.
  induction n using node_ind'; try done. intros [C|(fl' & w' & fd' & E & Hfd & C)]%chain_inv _.
  { by apply redir_not_parts in C. }
  simplify_eq. rewrite in_operand_redir. apply stray_intro; [|done].
  destruct (in_chain_cases w') as [[N ->]|(n & -> & R & ->)].
  - apply parts_chain, Hf. apply chain_inv in C as [?|(? & ? & ? & -> & _)]; [done|]. by destruct (N _ eq_refl).
  - inversion H. auto.
Qed.

Lemma in_chain_chain l : chain l -> chain (in_chain f l).
Proof using Hf.
  intros C. destruct (in_chain_cases l) as [[N ->]|(n & -> & R & ->)]; [|by apply in_operand_chain].
  apply parts_chain, Hf. apply chain_inv in C as [?|(? & ? & ? & -> & _)]; [done|]. by destruct (N _ eq_refl).
Qed.

Lemma in_chain_grows l : grows l (in_chain f l).
Proof using Hf. split; [apply in_chain_parts|apply in_chain_redir|apply in_chain_chain]. Qed.

End InChain.

(** ** What the lexer does to a parser *)

(** A parser of commands, outside "${x-word}" and "$((" *)
Definition exact fl : bool :=
  negb (tok_in fl (fold_right Z.lor 0 [P_SUBSTW; P_DQSUBST; P_NOREDIR; P_BQUOTE; P_HERE])).

Definition mode p : bool := exact (p_flags p).

(** The end of the input, or a character in front that ends a word *)
Definition ended p : Prop :=
  match head (p_source p) with
  | None => True
  | Some c => (parse_isctrl c || parse_isspace c || (c =? ch "<") || (c =? ch ">")) = true /\ p_quot p = Q_UNQUOTED
  end.

Definition steps p q : Prop :=
  grows (p_tree p) (p_tree q) /\ mode q = mode p /\
  (p_tok q = p_tok p \/ p_tok p = T_NAME /\ p_tok q = T_WORD).

#[export] Instance steps_preorder : PreOrder steps.
Proof.
  split; [intros p; split; [done|split; [done|by left]]|].
  intros p1 p2 p3 (G1 & M1 & T1) (G2 & M2 & T2). split; [by etransitivity|]. split; [congruence|].
  destruct T1 as [T1|[T1 T1']], T2 as [T2|[T2 T2']]; rewrite ?T2, ?T1, ?T1' in *; auto; try done.
Qed.

Lemma steps_trans p q r : steps p q -> steps q r -> steps p r.
Proof. apply transitivity. Qed.

(** ... which do not open a quotation *)
Definition keeps p q : Prop := steps p q /\ (p_quot p = Q_UNQUOTED -> p_quot q = Q_UNQUOTED).

(** A step of a word; [b]: it is the last one. *)
Definition closed p (b : bool) q : Prop := steps p q /\ (b = true -> mode p = true -> ended q).

Lemma closed_trans p q b r : steps p q -> closed q b r -> closed p b r.
Proof. intros S [S' E]. split; [by etransitivity|]. intros. apply E; [done|]. by destruct S as (_ & -> & _). Qed.

(** A tree without a [node]: nothing can be added to it. *)
Definition hung p : Prop := p_tree p <> [] /\ node_chain (p_tree p) = [].

Lemma new_node_grows n l l' : wf Part n -> new_node n l = Some l' -> grows l l'.
Proof.
  intros Hn E. assert (l' = in_chain (fun w => w ++ [n]) l) as -> by (unfold new_node in E; by repeat case_match; simplify_eq).
  apply in_chain_grows. intros w Hw. by apply forallb_snoc.
Qed.

Lemma on_last_parts f l : (forall n, wf Part n -> wf Part (f n)) -> parts l -> parts (on_last f l).
Proof.
  intros Hf H. unfold on_last. destruct (last l) as [n|] eqn:E; [|done]. pose proof (forallb_last _ _ _ H E).
  apply forallb_snoc; [|auto]. apply last_Some in E as [k ->]. unfold parts in H. rewrite forallb_app, andb_True in H.
  destruct H as [H _]. rewrite length_app. simpl. rewrite Nat.add_1_r. simpl.
  replace (length k) with (length k + 0)%nat by lia. rewrite firstn_app_2, app_nil_r. done.
Qed.

Lemma on_node_grows f l : (forall n, wf Part n -> wf Part (f n)) -> grows l (on_node f l).
Proof. intros H. apply in_chain_grows. intros w. by apply on_last_parts. Qed.

Lemma join_part fl s n : wf Part n -> wf Part (join fl s n).
Proof. by destruct n. Qed.

Section Rules.
Context (t : bool).

Lemma new_node_hung n l : l <> [] -> node_chain l = [] -> new_node n l = None.
Proof. intros N E. destruct l as [|m l]; [done|]. unfold new_node. fold (node_chain (m :: l)). by rewrite E. Qed.

Lemma wp_put_node_steps n (Q : unit -> parser -> Prop) p : wf Part n ->
  (forall l, grows (p_tree p) l -> ~ hung p -> Q tt (with_tree l true p)) -> wp t (put_node n) Q p.
Proof.
  intros Hn H. apply wp_put_node. intros l E. apply H; [by eapply new_node_grows|].
  intros [N C]. by rewrite new_node_hung in E.
Qed.

(** Text is only added to a tree with a [node]. *)
Lemma wp_parse_string_steps fl (Q : unit -> parser -> Prop) p :
  (forall q, steps p q -> p_source q = p_source p -> p_quot q = p_quot p -> p_tok q = p_tok p -> p_sa q = [] ->
     (hung p -> p_sa p = []) -> Q tt q) ->
  wp t (parse_string fl) Q p.
Proof.
  intros H. unfold parse_string. apply wp_bind, wp_ask. case_test.
  - zify_bool. assert (p_sa p = []) by (by apply length_zero_iff_nil). by apply wp_ret, H.
  - apply wp_bind, wp_ask, wp_bind, wp_ask, wp_bind. set (fl' := Z.lor _ fl).
    assert (Fin : forall l n, grows (p_tree p) l -> ~ hung p ->
      wp t (change (fun p => with_sa [] (with_tree (on_node (join fl' (p_sa p)) (p_tree p)) true p))) Q (with_tree l n p)).
    { intros l n G N. apply wp_change, H; try done. split_and!; [|done|by left].
      cbn. etransitivity; [apply G|]. apply on_node_grows. intros. by apply join_part. }
    case_test.
    + apply wp_ret. rewrite <-(with_tree_id p). apply Fin; [done|]. intros [N C]. by rewrite C in *.
    + apply wp_put_node_steps; [done|]. intros l G N. by apply Fin.
Qed.

Lemma wp_put_param_steps n (Q : unit -> parser -> Prop) p : wf Part n ->
  (forall l, grows (p_tree p) l -> Q tt (with_tree l true p)) -> wp t (put_param n) Q p.
Proof.
  intros Hn H. apply wp_bind, wp_ask. case_test.
  - apply wp_change, H. by apply on_node_grows.
  - apply wp_put_node_steps; auto.
Qed.

Lemma wp_quoted_empty_steps n (Q : unit -> parser -> Prop) p :
  (forall l x, grows (p_tree p) l -> Q tt (with_tree l x p)) -> wp t (quoted_empty n) Q p.
Proof.
  intros H. apply wp_change.
  repeat case_match; try (specialize (H (p_tree p) (p_node p)); rewrite with_tree_id in H; by apply H).
  apply H. apply on_node_grows. intros. by apply join_part.
Qed.

Lemma wp_no_name_steps (Q : unit -> parser -> Prop) p :
  (forall tok, tok = p_tok p \/ p_tok p = T_NAME /\ tok = T_WORD -> Q tt (with_tok tok p)) -> wp t no_name Q p.
Proof.
  intros H. apply wp_change. case_test; zify_bool; [apply H; by right|].
  specialize (H (p_tok p)). rewrite with_tok_id in H. apply H. by left.
Qed.

End Rules.

(** The steps one after the other *)
Ltac steps_side :=
  cbv beta in *;
  repeat match goal with
  | H : steps ?a ?q |- steps ?p ?r =>
      first [ apply (steps_trans p q r H)
            | refine (steps_trans p q r (steps_trans p a q _ H) _); [solve [split_and!; cbn; [done|done|auto]]|] ];
      clear H
  end;
  first [ exact (reflexivity _) | split_and!; cbn; [done|done|auto] ].

Ltac keeps_side := split; [steps_side|cbn in *; intros; try done; try congruence; auto].

Ltac ty_step :=
  cbv beta;
  lazymatch goal with
  | |- wp _ (parse_string _) _ _ => apply wp_parse_string_steps; intros
  | |- wp _ (put_node _) _ _ => apply wp_put_node_steps; [|intros]
  | |- wp _ (put_param _) _ _ => apply wp_put_param_steps; [|intros]
  | |- wp _ (quoted_empty _) _ _ => apply wp_quoted_empty_steps; intros
  | |- wp _ no_name _ _ => apply wp_no_name_steps; intros
  | |- wp _ parse_keyword _ _ => apply wp_parse_keyword_cases; intros
  | |- wp _ out_of_fuel _ _ => exact I
  | _ => wp_step; use_flags
  end.
Ltac ty_run := repeat ty_step.

Lemma exact_off fl m : exact fl = true -> In m [P_SUBSTW; P_DQSUBST; P_NOREDIR; P_BQUOTE; P_HERE] -> tok_in fl m = false.
Proof.
  unfold exact. rewrite negb_true_iff. cbn [fold_right]. rewrite !tok_in_lor, !orb_false_iff. simpl.
  intros (? & ? & ? & ? & ? & _) [<-|[<-|[<-|[<-|[<-|[]]]]]]; done.
Qed.

Lemma exact_or fl x : exact x = true -> exact (Z.lor fl x) = exact fl.
Proof. unfold exact. rewrite tok_in_lor_l, !negb_true_iff. intros ->. by rewrite orb_false_r. Qed.

Lemma exact_drop fl m : exact fl = true -> exact (Z.land fl (Z.lnot m)) = true.
Proof. unfold exact. rewrite !negb_true_iff. apply tok_in_drop. Qed.

Lemma with_squoted_end st : head st = None -> head (with_squoted st false) = None.
Proof.
  unfold head, unread, raw_mode. cbn. destruct (s_squoted st), (s_comment st); cbn; try done.
  by destruct (s_text st).
Qed.

(** ** Quotes *)

Lemma squoted_loop_typed fuel : forall p, wp false (squoted_loop fuel) (closed p) p.
Proof.
  induction fuel as [|fuel IH]; intros p; [done|]. cbn [squoted_loop].
  ty_run; try (eapply wp_mono; [apply IH|intros b r; apply closed_trans; steps_side]); (split; [steps_side|]); try done.
  - intros _ _. unfold ended. cbn. rewrite with_squoted_end; [done|]. by rewrite (peeked_head _ _ H).
Qed.

Lemma parse_squoted_typed p : wp false parse_squoted (closed p) p.
Proof.
  unfold parse_squoted. ty_run. eapply wp_mono; [apply squoted_loop_typed|]. intros b r. apply closed_trans. steps_side.
Qed.

(** Only the source moves on, and the text collected. *)
Definition reads p q : Prop := exists st, q = with_source st p.

Lemma reads_refl p : reads p p.
Proof. exists (p_source p). by destruct p. Qed.

Lemma reads_trans p st q : reads (with_source st p) q -> reads p q.
Proof. intros [st' ->]. by exists st'. Qed.

Lemma ansi_loop_reads fuel : forall p raw, wp false (ansi_loop fuel raw) (fun _ => reads p) p.
Proof.
  induction fuel as [|fuel IH]; intros p raw; [done|]. cbn [ansi_loop].
  ty_run; try (eapply wp_mono; [apply IH|intros ? ?; apply reads_trans]); by eexists.
Qed.

Lemma parse_ansiquoted_typed p : wp false parse_ansiquoted (fun _ => keeps p) p.
Proof.
  unfold parse_ansiquoted. ty_run. eapply wp_mono; [apply ansi_loop_reads|]. intros o q [st ->]. ty_run; keeps_side.
Qed.

Lemma parse_bquoted_raw_reads fuel : forall p dq raw, wp false (parse_bquoted_raw fuel dq raw) (fun _ => reads p) p.
Proof.
  induction fuel as [|fuel IH]; intros p dq raw; [done|]. cbn [parse_bquoted_raw].
  ty_run; try (eapply wp_mono; [apply IH|intros ? ?; apply reads_trans]); by eexists.
Qed.

(** ** What the functions called back promise *)

Definition not_redir tok : Prop := tok_in tok T_REDIR = false.

Definition word_tok tok : bool := tok_in tok (Z.lor T_WORD (Z.lor T_NAME T_ASSIGN)).

(** A word was read, or a redirection. *)
Definition a_word q : Prop := parts (p_tree q) /\ not_redir (p_tok q).
Definition a_redir q : Prop := one_redir (p_tree q) /\ p_tok q = T_REDIR.
Definition shut q : Prop := p_sa q = [] /\ ended q.

(** What reading a token does *)
Record scanned p q : Prop := {
  sc_pushback : p_pushback q = false;
  sc_flags : p_flags q = p_flags p;
  sc_chain : chain (p_tree p) -> chain (p_tree q);
  sc_exact : mode p = true ->
    (not_redir (p_tok q) /\ (parts (p_tree p) -> parts (p_tree q)) /\
      (word_tok (p_tok q) = true -> parts (p_tree q) /\ shut q)) \/
    (a_redir q /\ shut q)
}.

Definition got p tok q : Prop :=
  tok = p_tok q /\ (p_pushback p = true /\ q = with_pushback false p \/ scanned p q).

(** The state between tokens: the last one fits the tree. *)
Definition ready p : Prop :=
  mode p = true /\ chain (p_tree p) /\
  (tok_in (p_tok p) T_REDIR = true -> forallb (wf Redir) (p_tree p)) /\
  (word_tok (p_tok p) = true -> parts (p_tree p)).

Record CallsTyped (rec : calls) : Prop := {
  ty_gettok p tf : exact tf = true -> wp false (r_gettok rec tf) (got p) p;
  ty_word p : wp false (r_word rec) (fun _ q => chain (p_tree q)) p;
  ty_compound_list p e : ready p ->
    wp false (r_compound_list rec e) (fun l q => ready q /\ forallb (wf Item) l) p;
  ty_command p tf : ready p -> exact tf = true ->
    wp false (r_command rec tf) (fun o q => ready q /\ opt_wf (wf Cmd) o) p
}.

Lemma wp_any {A} (m : L A) p : wp false m (fun _ _ => True) p.
Proof. unfold wp. by destruct (m p). Qed.

Lemma wp_sub_parser {A} fl (m : L A) (Q : A -> parser -> Prop) p :
  wp false m (fun a q => Q a (with_source (p_source q) p)) (parse_init fl (p_source p)) ->
  wp false (sub_parser fl m) Q p.
Proof. unfold wp, sub_parser. by destruct (m _). Qed.

Lemma wp_on_text {A} x (m : L A) (Q : A -> parser -> Prop) p :
  (forall st, wp false m (fun a q => forall st', Q a (with_source st' q)) (with_source st p)) ->
  wp false (on_text x m) Q p.
Proof.
  unfold wp, on_text. intros H. cbv zeta. set (st := Source x _ _ _ _ _ _ _). specialize (H st).
  destruct (m (with_source st p)); [apply H|done..].
Qed.

Lemma wp_of_pres_gives P f (Q : option node -> parser -> Prop) p : gives P (f (p_source p)) ->
  (forall st, Q None (with_source st p)) -> (forall n st, P n -> Q (Some n) (with_source st p)) ->
  wp false (of_pres f) Q p.
Proof. unfold wp, of_pres. destruct (f (p_source p)) as [[n|] st| |]; simpl; auto. Qed.

Lemma ready_init st : ready (parse_init P_DEFAULT st).
Proof. by split_and!. Qed.

(** A piece of a word that can stand in an expression too *)
Definition piece (o : option node) : Prop := match o with Some n => wf Part n /\ wf Arith n | None => True end.

Section Lexer.
Context (rec : calls) (interactive : bool) (REC : CallsTyped rec).

Lemma compound_typed e p :
  wp false (sub_parser P_DEFAULT (r_compound_list rec e)) (fun l q => reads p q /\ forallb (wf Item) l) p.
Proof using REC.
  apply wp_sub_parser. eapply wp_mono; [apply (ty_compound_list _ REC), ready_init|]. intros l q [_ H].
  split; [by eexists|done].
Qed.

Lemma piece_cmd fl cmds : forallb (wf Item) cmds -> piece (match cmds with [] => None | _ => Some (nargcmd fl cmds) end).
Proof using Type. destruct cmds as [|n l]; [done|]. intros H. cbn [piece wf]. sorts. done. Qed.

Lemma bquoted_node_typed quot dq p :
  wp false (bquoted_node rec quot dq) (fun o q => reads p q /\ piece o) p.
Proof using REC.
  unfold bquoted_node. ty_run; try (split; [by eexists|done]).
  - eapply wp_mono; [apply compound_typed|]. intros l q [[st' ->] H']. ty_step. split; [by eexists|by apply piece_cmd].
  - eapply wp_mono; [apply parse_bquoted_raw_reads|]. intros [raw|] q [st' ->]; [|ty_step; split; [by eexists|done]].
    ty_step. apply wp_on_text. intros st''. eapply wp_mono; [apply compound_typed|]. intros l q [[st3 ->] H'] st4.
    ty_step. split; [by eexists|by apply piece_cmd].
Qed.

Lemma arith_node_typed subs quot p : SubstTyped subs ->
  wp false (arith_node rec interactive subs quot) (fun o q => reads p q /\ piece o) p.
Proof using Type.
  intros HS. unfold arith_node. ty_run. apply wp_sub_parser. ty_step.
  apply (wp_of_pres_gives (wf Arith)); [apply parse_arith_expr_typed|intros st'; ty_step; split; [by eexists|done]|].
  intros n st' Hn. ty_step. eapply wp_mono; [apply wp_any|]. intros t q _. ty_run; [split; [by eexists|done]|].
  eapply wp_mono; [apply wp_any|]. intros t' q' _. ty_run; (split; [by eexists|]); [done|]. cbn [piece wf]. by sorts.
Qed.

Lemma gives_as_pres P r p (m : L (option node)) : r = m p ->
  wp false m (fun o _ => match o with Some n => P n | None => True end) p -> gives P (as_pres r).
Proof using Type. intros -> H. unfold wp in H. by destruct (m p) as [[n|] q| |]. Qed.

Lemma subst_parsers_typed d : SubstTyped (subst_parsers rec interactive d).
Proof using REC.
  induction d as [|d IH]; split; intros; cbn [subst_parsers sub_word sub_arith sub_command].
  all: try done.
  all: apply (gives_as_pres _ _ _ _ eq_refl).
  1,3: ty_step; eapply wp_mono; [apply (ty_word _ REC)|]; intros tok q C; unfold wp, parse_getarg; by case_test.
  all: eapply wp_mono; [first [apply bquoted_node_typed|by apply arith_node_typed]|].
  all: intros [n|] q [_ H']; [apply H'|done].
Qed.

Lemma parse_bquoted_typed p : wp false (parse_bquoted rec) (fun _ => keeps p) p.
Proof using REC.
  unfold parse_bquoted. ty_run. eapply wp_mono; [apply bquoted_node_typed|]. intros [n|] q [[st ->] H']; ty_run;
    [apply H'|keeps_side..].
Qed.

Lemma parse_arith_typed p : wp false (parse_arith rec interactive) (fun _ => keeps p) p.
Proof using REC.
  unfold parse_arith. ty_run. eapply wp_mono; [apply arith_node_typed, subst_parsers_typed|].
  intros [n|] q [[st ->] H']; ty_run; [apply H'|keeps_side..].
Qed.

Lemma parse_param_word_typed p : wp false (parse_param_word rec interactive) (fun _ => keeps p) p.
Proof using REC.
  unfold parse_param_word. ty_run.
  eapply wp_of_pres_gives; [apply @parse_param_typed, subst_parsers_typed|intros st; ty_run; keeps_side|].
  intros n st [(fl & name & word & numb & ->) Hn]. ty_run; first [apply Hn|keeps_side].
Qed.

Lemma parse_subst_word_typed p : wp false (parse_subst_word rec interactive) (fun _ => keeps p) p.
Proof using REC.
  unfold parse_subst_word. ty_run; try keeps_side.
  all: eapply wp_mono; [first [apply parse_arith_typed|apply parse_bquoted_typed|apply parse_param_word_typed|
    apply parse_ansiquoted_typed]|].
  all: intros b q [S U]; keeps_side.
Qed.

(** ** Double quotes *)

Lemma closed_here p b q : steps p q -> mode p = true -> tok_in (p_flags p) P_HERE = true -> closed p b q.
Proof using Type.
  intros S M E. pose proof (exact_off _ P_HERE M) as F. rewrite F in E; [done|]. simpl. tauto.
Qed.

Lemma ended_eof q : head (p_source q) = None -> ended q.
Proof using Type. unfold ended. by intros ->. Qed.

Lemma closed_end p b q : steps p q -> head (p_source q) = None -> closed p b q.
Proof using Type. intros S E. split; [done|]. intros _ _. by apply ended_eof. Qed.

Lemma closed_false p q : steps p q -> closed p false q.
Proof using Type. intros S. by split. Qed.

Ltac closed_side :=
  first [ apply closed_false; steps_side
        | apply closed_end; [steps_side|cbn; first [done|erewrite peeked_head; done]] ].

Lemma dquoted_loop_typed fuel : forall p, wp false (dquoted_loop rec interactive fuel) (closed p) p.
Proof using REC.
  induction fuel as [|fuel IH]; intros p; [done|]. cbn [dquoted_loop].
  assert (Go : forall q, steps p q -> wp false (dquoted_loop rec interactive fuel) (closed p) q).
  { intros q S. eapply wp_mono; [apply IH|]. intros b r. by apply closed_trans. }
  ty_run; try closed_side; try (apply Go; steps_side).
  all: eapply wp_mono; [first [apply parse_bquoted_typed|apply parse_subst_word_typed]|].
  all: intros b q' [S _]; ty_run; try closed_side; try (apply Go; steps_side).
Qed.

Lemma parse_dquoted_typed p : wp false (parse_dquoted rec interactive) (closed p) p.
Proof using REC.
  unfold parse_dquoted. ty_run. eapply wp_mono; [apply dquoted_loop_typed|]. intros b r [S E]; ty_run; try closed_side.
  split; [steps_side|]. intros _ M. by apply E.
Qed.

(** ** Redirections *)

(** How the reading of unquoted text ends *)
Record outcome p (b : bool) q : Prop := {
  out_chain : chain (p_tree q);
  out_mode : mode q = mode p;
  out_exact : mode p = true ->
    (a_word q /\ (b = true -> ended q)) \/
    (a_redir q /\ (shut q \/ (b = true /\ hung q /\ p_sa q <> [])))
}.

Lemma outcome_trans p q b r : mode q = mode p -> outcome q b r -> outcome p b r.
Proof using Type. intros M [C M' E]. split; [done|congruence|]. intros. apply E. congruence. Qed.

Lemma outcome_word p b q : parts (p_tree q) -> mode q = mode p -> (mode p = true -> not_redir (p_tok q)) ->
  (b = true -> ended q) -> outcome p b q.
Proof using Type. intros C M T E. split; [by apply parts_chain|done|]. intros M'. left. split; [split; auto|done]. Qed.

Lemma wp_cat_grows x (Q : unit -> parser -> Prop) p :
  (forall sa, (x <> [] -> sa <> []) -> (p_sa p <> [] -> sa <> []) -> Q tt (with_sa sa p)) -> wp false (cat x) Q p.
Proof using Type.
  intros H. apply H; intros N E; apply app_eq_nil in E as [? ?]; done.
Qed.

(** The operator only adds to the text collected. *)
Definition same_word p q : Prop :=
  p_tree q = p_tree p /\ p_tok q = p_tok p /\ mode q = mode p /\ (p_sa p <> [] -> p_sa q <> []).

Lemma redir_operator_same rf c p :
  wp false (redir_operator rf c) (fun o q => same_word p q /\ (o = None -> head (p_source q) = None)) p.
Proof using Type.
  unfold redir_operator.
  repeat first [ match goal with |- wp _ (cat _) _ _ => apply wp_cat_grows; intros end | ty_step ].
  all: split; [split_and!; auto|done].
  all: cbn; by apply exact_or.
Qed.

Lemma a_redir_intro fl w fd p : parts w -> fd_ok fd -> a_redir (with_tok T_REDIR (with_tree [nredir fl w [] fd] (p_node p) p)).
Proof using Type. intros. split; [by apply one_redir_intro|done]. Qed.

Lemma redir_parse_typed rf fd p : p_tree p = [] -> (mode p = true -> not_redir (p_tok p)) -> fd_ok fd ->
  wp false (redir_parse rec rf fd) (outcome p) p.
Proof using REC.
  intros ET Htok Hfd. unfold redir_parse. change peek with (peekn 0). ty_step. ty_step.
  ty_step. apply wp_cat_grows. intros sa Hsa _. ty_step. ty_step.
  { ty_step. apply outcome_word; cbn; [by rewrite ET|done|done|]. intros _. by apply ended_eof. }
  ty_step. eapply wp_mono; [apply redir_operator_same|]. intros [rf'|] q [(E1 & E2 & E3 & E4) E5]; cbn in *.
  2: { apply outcome_word; [by rewrite E1, ET|done|by rewrite E2|]. intros _. by apply ended_eof, E5. }
  ty_step. eapply wp_mono; [by apply (ty_gettok _ REC)|]. intros tok q' [-> G]. rewrite ET in E1.
  change (mode q = mode p) in E3.
  assert (Chain : chain (p_tree q')).
  { destruct G as [[_ ->]|G]; [cbn; by rewrite E1|]. apply (sc_chain _ _ G). by rewrite E1. }
  assert (Mode : mode q' = mode p).
  { destruct G as [[_ ->]|G]; [done|]. unfold mode in *. by rewrite (sc_flags _ _ G). }
  ty_step; [ty_step; [done|]|].
  - ty_run. split; [by apply stray_intro|done|]. intros M. right.
    destruct G as [[_ ->]|G]; cbn [p_tree with_pushback with_tree with_tok p_sa].
    + split; [apply a_redir_intro; cbn; [by rewrite E1|done]|]. right. split_and!; [done|by split; cbn; rewrite E1|auto].
    + destruct (sc_exact _ _ G) as [(N & _ & W)|[[_ T] _]]; [congruence| |by rewrite T in *].
      assert (word_tok (p_tok q') = true) as K.
      { unfold word_tok. rewrite !tok_in_lor in *. by destruct (tok_in _ T_NAME), (tok_in _ T_WORD). }
      destruct (W K) as [P S]. split; [by apply a_redir_intro|]. by left.
  - ty_step. split; [done|done|]. intros M. destruct G as [[_ ->]|G].
    + left. split; [split; cbn; [by rewrite E1|rewrite E2; auto]|done].
    + destruct (sc_exact _ _ G) as [(N & P & W)|[R S]]; [congruence| |].
      * left. split; [split; [apply P; by rewrite E1|done]|done].
      * right. split; [done|by left].
Qed.

(** ** Unquoted text *)

(** Reading goes on: the tree holds the parts of a word. *)
Definition reading_word p : Prop :=
  chain (p_tree p) /\ p_quot p = Q_UNQUOTED /\ (mode p = true -> a_word p).

Lemma reading_keeps p q : reading_word p -> keeps p q -> reading_word q.
Proof using Type.
  intros (C & U & A) [(G & M & T) Q]. split_and!; [by apply G|auto|]. intros M'. rewrite M in M'. destruct (A M') as [P N].
  split; [by apply G|]. destruct T as [->|[_ ->]]; done.
Qed.

Lemma reading_tok p tok : reading_word p -> (mode p = true -> not_redir tok) -> reading_word (with_tok tok p).
Proof using Type. intros (C & U & A) N. split_and!; [done..|]. intros M. destruct (A M). split; [done|by apply N]. Qed.

Lemma reading_tok_id p : reading_word p -> reading_word (with_tok (if p_tok p =? T_ASSIGN then T_ASSIGN else T_WORD) p).
Proof using Type. intros R. apply reading_tok; [done|]. intros _. by case_test. Qed.

Lemma char_tok_not_redir tok c sa : not_redir tok -> not_redir (char_tok tok c sa).
Proof using Type. intros N. unfold char_tok. repeat case_test; done. Qed.

Lemma outcome_reading p b q : reading_word q -> mode q = mode p -> (b = true -> mode p = true -> ended q) -> outcome p b q.
Proof using Type.
  intros (C & U & A) M E. split; [done|done|]. intros M'. left. split; [apply A; congruence|auto].
Qed.

Lemma keyword_not_redir tok : In tok keyword_toks -> not_redir tok.
Proof using Type.
  assert (Forall (fun x => not_redir x) keyword_toks) as F by by repeat constructor.
  rewrite List.Forall_forall in F. auto.
Qed.

Lemma outcome_steps p q : reading_word p -> steps p q -> outcome p false q.
Proof using Type.
  intros (C & _ & A) (G & M & T). split; [by apply G|done|]. intros M'. destruct (A M') as [P N].
  left. split; [|done]. split; [by apply G|]. destruct T as [->|[_ ->]]; done.
Qed.

(** The text before the end of a word *)
Lemma word_ends_typed fl p :
  wp false (word_ends fl) (fun _ q => grows (p_tree p) (p_tree q) /\ mode q = mode p /\
    p_source q = p_source p /\ p_quot q = p_quot p /\ (not_redir (p_tok p) -> not_redir (p_tok q)) /\
    (p_tree p <> [] -> p_tok q = p_tok p /\ p_sa q = [])) p.
Proof using Type.
  unfold word_ends. ty_run.
  - destruct H as (? & ? & ?). split_and!; try done; congruence.
  - cbn in Heqb. split_and!; try done; cbn.
    + intros N. destruct H as [->|H]; [done|]. by apply keyword_not_redir.
    + intros NE. by destruct (p_tree p), (tok_in (p_flags p) P_NOKEYWD).
  - destruct H0 as (? & ? & ?). split_and!; try done; cbn in *.
    + intros N. rewrite H3. destruct H as [->|H]; [done|]. by apply keyword_not_redir.
    + intros NE. by destruct (p_tree p), (tok_in (p_flags p) P_NOKEYWD).
Qed.

Lemma word_ends_outcome fl p0 p : reading_word p -> mode p = mode p0 -> (mode p = true -> ended p) ->
  wp false (word_ends fl) (fun _ => wp false (retL true) (outcome p0)) p.
Proof using Type.
  intros (C & U & A) M E. eapply wp_mono; [apply word_ends_typed|]. intros _ q (G & M' & S & U' & T & _).
  apply wp_ret. split; [by apply G|congruence|]. intros M0. assert (mode p = true) as Mp by congruence.
  destruct (A Mp) as [P N]. left. split; [split; [by apply G|auto]|]. intros _. specialize (E Mp).
  unfold ended in *. by rewrite S, U'.
Qed.

Definition terminators : bytes := [9; 10; 13; 32; 38; 40; 41; 59; 60; 62; 124].

Lemma terminator_cases c : (parse_isctrl c || parse_isspace c || (c =? ch "<") || (c =? ch ">")) = true -> In c terminators.
Proof using Type.
  assert (existsb (Z.eqb c) terminators = true -> In c terminators) as R.
  { intros (x & ? & ->%Z.eqb_eq)%existsb_exists. done. }
  intros E. apply R. destruct (decide (0 <= c < 256)) as [B|B].
  - apply (byte_forall (fun c => implb (parse_isctrl c || parse_isspace c || (c =? ch "<") || (c =? ch ">"))
      (existsb (Z.eqb c) terminators))) in B; [|vm_compute; reflexivity]. by rewrite E in B.
  - assert (char_class c = 0) as Z by (by apply char_class_out). unfold parse_isctrl, parse_isspace, class_has in E.
    rewrite Z in E. cbn [Z.land Z.eqb negb orb] in E.
    apply orb_true_iff in E as [->%Z.eqb_eq| ->%Z.eqb_eq]; by destruct B.
Qed.

(** The tests of a character that is known *)
Ltac closed_if :=
  match goal with
  | |- wp ?t (if ?c then ?x else ?y) ?Q ?p =>
      let v := eval vm_compute in c in
      lazymatch v with true => change (wp t x Q p) | false => change (wp t y Q p) end
  end.

(** Behind a redirection whose operand was another nothing more is read. *)
Lemma unquoted_redir fuel p fl ib : mode p = true -> p_quot p = Q_UNQUOTED -> a_redir p -> shut p ->
  wp false (unquoted_loop rec interactive fuel fl ib) (fun b q => b = true /\ outcome p b q) p.
Proof using Type.
  intros M U [R T] [SA E]. destruct fuel as [|fuel]; [done|]. cbn [unquoted_loop].
  assert (NE : p_tree p <> []) by (intros NE; by rewrite NE in R).
  assert (End : forall st, head st = head (p_source p) -> wp false (word_ends fl ;; retL true) (fun b q => b = true /\ outcome p b q) (with_source st p)).
  { intros st Hst. ty_step. eapply wp_mono; [apply word_ends_typed|]. cbn. intros _ q (G & M' & S & U' & _ & K).
    split; [done|]. destruct (K NE) as [T' SA']. split; [by apply G, redir_chain|done|]. intros _. right.
    split; [split; [by apply G|congruence]|]. left. split; [done|]. unfold ended in *. by rewrite S, U', Hst. }
  ty_step. ty_step. ty_step. apply wp_peek; [intros st P N; cbn in *; by rewrite <-(peeked_head _ _ P) in N; apply End, peeked_head|].
  intros c st P N _. cbn in *. unfold ended in E. pose proof (peeked_head _ _ P) as PH. rewrite <-PH, N in E.
  destruct E as [E%terminator_cases _].
  pose proof (exact_off _ P_SUBSTW M ltac:(simpl; tauto)) as F1.
  pose proof (exact_off _ P_DQSUBST M ltac:(simpl; tauto)) as F2.
  pose proof (exact_off _ P_NOREDIR M ltac:(simpl; tauto)) as F3.
  specialize (End st PH). clear - End E F1 F2 F3 SA NE.
  assert (N : (List.length (p_tree p) =? 0)%nat = false) by (by destruct (p_tree p)).
  unfold terminators in E. simpl in E.
  repeat (destruct E as [<-|E]); [..|done].
  all: rewrite !tok_in_lor, F1, F2, F3.
  all: try exact End.
  all: repeat closed_if; ty_step; ty_step; ty_step; ty_step; cbv zeta; cbn [p_sa p_tree with_source]; rewrite SA, N.
  all: repeat closed_if; exact End.
Qed.

Lemma fd_ok_bool (x : bool) : fd_ok (c_bool x).
Proof using Type. by destruct x. Qed.

Lemma mode_contra p m : mode p = true -> In m [P_SUBSTW; P_DQSUBST; P_NOREDIR; P_BQUOTE; P_HERE] ->
  tok_in (p_flags p) m = true -> False.
Proof using Type. intros M I E. pose proof (exact_off _ m M I). congruence. Qed.

Lemma reading_char p c sa : reading_word p -> reading_word (with_tok (char_tok (p_tok p) c sa) p).
Proof using Type. intros R. apply reading_tok; [done|]. intros M. by apply char_tok_not_redir, R. Qed.

Lemma reading_unquote p q : reading_word p -> steps p q -> reading_word (with_quot Q_UNQUOTED q).
Proof using Type. intros R S. by apply (reading_keeps p). Qed.

Ltac reading_side :=
  cbv beta in *;
  lazymatch goal with
  | |- reading_word (with_source _ ?p) => change (reading_word p); reading_side
  | |- reading_word (with_sa _ ?p) => change (reading_word p); reading_side
  | |- reading_word (with_tok (char_tok _ _ _) _) => apply reading_char; reading_side
  | |- reading_word (with_tok (if _ then _ else _) _) => apply reading_tok_id; reading_side
  | |- reading_word (with_quot Q_UNQUOTED ?r) =>
      match goal with
      | H : steps ?a ?q, H' : steps _ r |- _ => apply (reading_unquote a r); [reading_side|steps_side]
      end
  | H : keeps ?a ?q |- reading_word ?q => apply (reading_keeps a q); [reading_side|exact H]
  | H : steps ?a ?q |- reading_word ?q => apply (reading_keeps a q); [reading_side|keeps_side]
  | |- _ => assumption
  end.

Ltac mode_side :=
  cbv beta in *;
  repeat match goal with
  | |- _ => reflexivity
  | H : keeps _ _ |- _ => destruct H as [H _]
  | H : steps ?a ?q |- mode ?r = mode ?p =>
      transitivity (mode q); [reflexivity|]; transitivity (mode a); [apply H|]; clear H
  end.

Lemma unquoted_loop_typed fuel : forall p fl ib, reading_word p ->
  wp false (unquoted_loop rec interactive fuel fl ib) (outcome p) p.
Proof using REC.
  induction fuel as [|fuel IH]; intros p fl ib R; [done|]. cbn [unquoted_loop]. unfold parse_in_tilde_prefix.
  assert (Go : forall q fl ib, reading_word q -> mode q = mode p -> wp false (unquoted_loop rec interactive fuel fl ib) (outcome p) q).
  { intros q fl' ib' R' M. eapply wp_mono; [by apply IH|]. intros b r. by apply outcome_trans. }
  pose proof R as (C & U & A).
  ty_run.
  all: lazymatch goal with
       | |- wp _ (unquoted_loop _ _ _ _ _) _ _ => apply Go; [reading_side|mode_side]
       | |- outcome _ false _ => apply outcome_steps; [exact R|steps_side]
       | |- outcome _ true (with_source ?st _) =>
           try (apply outcome_reading; [reading_side|mode_side|intros _ _; by apply ended_eof])
       | |- wp _ (word_ends _) _ _ => apply word_ends_outcome; [reading_side|mode_side|intros _]
       | _ => idtac
       end.
  - apply ended_eof. cbn. by rewrite (peeked_head _ _ H).
  - apply outcome_reading; [reading_side|mode_side|]. intros _ M. destruct (mode_contra _ P_BQUOTE M); [simpl; tauto|done].
  - eapply wp_mono; [apply parse_bquoted_typed|]. intros b r K. ty_run; [apply outcome_steps|apply Go; [reading_side|mode_side]].
    + exact R.
    + destruct K as [K _]. steps_side.
  - eapply wp_mono; [apply parse_subst_word_typed|]. intros b r K. ty_run; [apply outcome_steps|apply Go; [reading_side|mode_side]].
    + exact R.
    + destruct K as [K _]. steps_side.
  - eapply wp_mono; [apply redir_parse_typed|intros b r; by apply outcome_trans].
    + destruct (p_tree p) eqn:T; [done|]. cbn in *. by rewrite T, ?andb_false_r in *.
    + intros M. by apply A.
    + cbn in *. apply orb_true_iff in Heqb5 as [E|E].
      * apply andb_prop in E as [E _]. apply negb_true_iff, negb_false_iff in E. rewrite E. apply fd_ok_bool.
      * unfold fd_ok. change 1024 with FD_MAX. rewrite <-andb_assoc in E. apply andb_prop in E as [_ E]. by rewrite E.
  - unfold ended. cbn. rewrite H0. split; [|done].
    match goal with E : negb _ && ((c =? _) || _) = true |- _ => apply andb_prop in E as [_ E]; apply orb_true_iff in E as [-> | ->] end;
      by rewrite !orb_true_r.
  - apply outcome_reading; [reading_side|mode_side|]. intros _ M. destruct (mode_contra _ P_SUBSTW M); [simpl; tauto|done].
  - unfold ended. cbn. rewrite H0. split; [|done].
    match goal with E : parse_isctrl c || parse_isspace c = true |- _ => by rewrite E end.
Qed.

(** ** Words *)

Lemma parse_unquoted_typed p : chain (p_tree p) -> (mode p = true -> a_word p \/ a_redir p /\ shut p /\ p_quot p = Q_UNQUOTED) ->
  wp false (parse_unquoted rec interactive) (outcome p) p.
Proof using REC.
  intros C A. unfold parse_unquoted. ty_run.
  assert (reading_word (with_quot Q_UNQUOTED p) -> wp false (unquoted_loop rec interactive (S (S (length (s_text (p_source p))))) 0 false)
    (outcome p) (with_quot Q_UNQUOTED p)) as Go.
  { intros R. eapply wp_mono; [by apply unquoted_loop_typed|intros b r; by apply outcome_trans]. }
  destruct (mode p) eqn:M; [destruct (A eq_refl) as [W|(W & S & U)]|].
  - apply Go. by split_and!.
  - eapply wp_mono; [apply unquoted_redir; [done|done|done|]|].
    + destruct S as [SA E]. split; [done|]. unfold ended in *. cbn. destruct (head _); [by destruct E|done].
    + intros b r [_ O]. by apply (outcome_trans p (with_quot Q_UNQUOTED p)).
  - apply Go. split_and!; [done|done|]. unfold mode in *. cbn. congruence.
Qed.

(** Between the pieces of a word, and at its end *)
Definition in_word p : Prop :=
  chain (p_tree p) /\ (mode p = true -> a_word p \/ a_redir p /\ shut p).
Definition word_over p q : Prop :=
  mode q = mode p /\ chain (p_tree q) /\
  (mode p = true -> a_word q /\ ended q \/ a_redir q /\ (shut q \/ hung q /\ p_sa q <> [])).

Lemma outcome_over p q : outcome p true q -> word_over p q.
Proof using Type. intros [C M E]. split_and!; [done..|]. intros M'. destruct (E M') as [[W E']|[W [S|(_ & S)]]]; auto. Qed.

Lemma outcome_in_word p q : outcome p false q -> in_word q.
Proof using Type.
  intros [C M E]. split; [done|]. intros M'. rewrite M in M'. destruct (E M') as [[W E']|[W [S|(? & _)]]]; auto. done.
Qed.

Lemma closed_outcome p b q : in_word p -> (mode p = true -> a_word p) -> closed p b q -> outcome p b q.
Proof using Type.
  intros [C _] A [(G & M & T) E]. split; [by apply G|done|]. intros M'. destruct (A M') as [P N]. left.
  split; [|auto]. split; [by apply G|]. destruct T as [->|[_ ->]]; done.
Qed.

Lemma word_loop_typed fuel : forall p, in_word p -> wp false (word_loop rec interactive fuel) (fun _ => word_over p) p.
Proof using REC.
  induction fuel as [|fuel IH]; intros p W; [done|]. cbn [word_loop].
  assert (Go : forall b q, outcome p b q -> wp false (if b then retL tt else word_loop rec interactive fuel) (fun _ => word_over p) q).
  { intros [|] q O; [apply wp_ret; by apply outcome_over|]. eapply wp_mono; [by apply IH, (outcome_in_word p)|].
    intros _ r (M & C & E). destruct O as [_ M' _]. split_and!; [congruence|done|]. intros. apply E. congruence. }
  ty_step. ty_step.
  { apply wp_ret. destruct W as [C A]. split_and!; [done..|]. intros M.
    assert (ended (with_source st p)) by (apply ended_eof; cbn; by rewrite (peeked_head _ _ H)).
    destruct (A M) as [A'|[A' [S _]]]; [by left|]. right. split; [done|]. left. by split. }
  ty_step. ty_step. ty_step.
  assert (W' : in_word (with_source st p) /\ (mode p = true -> p_quot p <> Q_UNQUOTED -> a_word p)).
  { destruct W as [C A]. split.
    - split; [done|]. intros M. destruct (A M) as [?|[? [? E]]]; [by left|right]. split; [done|split; [done|]].
      unfold ended in *. cbn. by rewrite (peeked_head _ _ H).
    - intros M Q. destruct (A M) as [?|[? [_ E]]]; [done|]. unfold ended in E. rewrite <-(peeked_head _ _ H), H0 in E. by destruct E. }
  destruct W' as [W' Q].
  cbn. case_test; [|case_test]; zify_bool; (eapply wp_mono; [|intros b q O; apply Go; exact (outcome_trans p (with_source st p) b q eq_refl O)]).
  - eapply wp_mono; [apply parse_dquoted_typed|]. intros b q. apply closed_outcome; [done|]. intros M. apply Q; [done|by rewrite Heqb||by rewrite Heqb0].
  - eapply wp_mono; [apply parse_squoted_typed|]. intros b q. apply closed_outcome; [done|]. intros M. apply Q; [done|by rewrite Heqb||by rewrite Heqb0].
  - apply parse_unquoted_typed; [apply W'|]. intros M. destruct W' as [_ A]. destruct (A M) as [?|[R S]]; [by left|].
    destruct (decide (p_quot p = Q_UNQUOTED)) as [U|U]; [by right|]. left. by apply Q.
Qed.

(** The word is read: its parts, or a redirection. *)
Definition whole p q : Prop :=
  mode q = mode p /\ chain (p_tree q) /\ (mode p = true -> (a_word q \/ a_redir q) /\ shut q).

Lemma parse_word_typed p : wp false (parse_word rec interactive) (fun tok q => tok = p_tok q /\ whole p q) p.
Proof using REC.
  unfold parse_word. ty_step. ty_step. ty_step. ty_step. ty_step.
  eapply wp_mono; [apply word_loop_typed|].
  - split; [done|]. intros _. left. by split.
  - cbv beta. intros _ q (M & C & E). ty_step. ty_step.
    assert (Fin : forall r, word_over p r -> wp false (parse_string 0 ;; ask p_tok) (fun tok q => tok = p_tok q /\ whole p q) r).
    { clear. intros q (M & C & E). ty_step. apply wp_parse_string_steps. intros r (G & M' & _) S' U' T' SA' Hung.
      ty_step. split; [done|]. split_and!; [congruence|by apply G|]. intros Mp.
      assert (N : ended q -> shut r).
      { intros Eq. split; [done|]. unfold ended in *. by rewrite S', U'. }
      destruct (E Mp) as [[[P T] E']|[[R T] [[? E']|[H1 H2]]]].
      - split; [|auto]. left. split; [by apply G|congruence].
      - split; [|auto]. right. split; [by apply G|congruence].
      - destruct H2. auto. }
    ty_step. ty_step; [|ty_step; by apply Fin]. ty_step. apply Fin. split_and!; [done..|]. intros Mp. cbn in *.
    destruct (E Mp) as [[[P T] E']|[[R _] _]].
    + left. split; [split; [done|]|done]. cbn. destruct H as [->|H]; [done|by apply keyword_not_redir].
    + apply andb_prop in Heqb as [_ E0]. by destruct (p_tree q).
Qed.

(** ** Tokens *)

(** Neither a word nor a redirection, and never taken for a word *)
Definition simple_tok tok : bool := negb (tok_in tok (Z.lor all_keywords (Z.lor T_REDIR (Z.lor T_WORD (Z.lor T_NAME T_ASSIGN))))).

Lemma skip_blanks_reads fuel : forall p c, wp false (skip_blanks fuel c) (fun _ => reads p) p.
Proof using Type.
  induction fuel as [|fuel IH]; intros p c; [done|]. cbn [skip_blanks].
  ty_run; try (eapply wp_mono; [apply IH|intros ? ?; apply reads_trans]); first [by eexists|by apply reads_refl].
Qed.

Lemma skip_comment_reads fuel : forall p c, wp false (skip_comment fuel c) (fun _ => reads p) p.
Proof using Type.
  induction fuel as [|fuel IH]; intros p c; [done|]. cbn [skip_comment].
  assert (Go : forall c st, wp false (skip_comment fuel c) (fun _ => reads p) (with_source st p)).
  { intros c' st. eapply wp_mono; [apply IH|]. intros ? q [s ->]. by exists s. }
  ty_run; lazymatch goal with
    | |- wp _ _ _ (with_source ?st _) => apply (Go _ st)
    | |- reads _ (with_source ?st _) => by exists st
    | |- _ => apply reads_refl
    end.
Qed.

Definition tok_post p tok q : Prop := reads p q /\ (tok = T_NONE \/ simple_tok tok).

Lemma tok_post_trans p st tok q : tok_post (with_source st p) tok q -> tok_post p tok q.
Proof using Type. intros [[st' ->] T]. split; [by exists st'|done]. Qed.

Lemma parse_simpletok_typed fuel : forall p, wp false (parse_simpletok fuel) (tok_post p) p.
Proof using Type.
  induction fuel as [|fuel IH]; intros p; [done|]. cbn [parse_simpletok].
  assert (Go : forall st, wp false (parse_simpletok fuel) (tok_post p) (with_source st p)).
  { intros st. eapply wp_mono; [apply IH|]. intros tok q. apply tok_post_trans. }
  assert (Fin : forall tok st, tok = T_NONE \/ simple_tok tok -> tok_post p tok (with_source st p)).
  { intros tok st T. split; [by eexists|done]. }
  unfold double_tok, set_comment. ty_step. ty_step; [ty_step; apply Fin; by right|]. ty_step. ty_step. ty_step.
  eapply wp_mono; [apply skip_blanks_reads|]. intros o q [st' ->]. ty_run.
  all: lazymatch goal with
       | |- wp _ (parse_simpletok _) _ (with_source ?s _) => apply (Go s)
       | |- tok_post _ T_NONE (with_source ?s _) => apply (Fin _ s); by left
       | |- tok_post _ _ (with_source ?s _) => apply (Fin _ s); by right
       | _ => idtac
       end.
  eapply wp_mono; [apply skip_comment_reads|]. intros more q [st3 ->]. ty_run.
  all: lazymatch goal with
       | |- wp _ (parse_simpletok _) _ (with_source ?s _) => apply (Go s)
       | |- tok_post _ _ (with_source ?s _) => apply (Fin _ s); by right
       end.
Qed.

Lemma simple_tok_facts tok : simple_tok tok -> tok_in tok all_keywords = false /\ not_redir tok /\ word_tok tok = false.
Proof using Type.
  unfold simple_tok, word_tok. rewrite !tok_in_lor. intros (-> & (E & T)%orb_false_iff)%negb_True%Is_true_false%orb_false_iff.
  by split_and!.
Qed.

Lemma empty_head_grows l : grows l (empty_head l).
Proof using Type.
  by destruct l as [|[] l].
Qed.

Lemma only_keywords_cases fl tok : only_keywords fl tok = tok \/ only_keywords fl tok = T_NAME /\ tok_in tok all_keywords = true.
Proof using Type.
  unfold only_keywords. case_test; [|by left]. cbv zeta. case_test; [|by left]. apply andb_prop in Heqb0 as [? _]. by right.
Qed.

Lemma scan_token_typed p :
  wp false (scan_token rec interactive) (fun _ q => mode q = mode p /\ (chain (p_tree p) -> chain (p_tree q)) /\
    (mode p = true ->
      (not_redir (p_tok q) /\ (parts (p_tree p) -> parts (p_tree q)) /\
        (word_tok (p_tok q) = true -> parts (p_tree q) /\ shut q)) \/
      (a_redir q /\ shut q))) p.
Proof using REC.
  unfold scan_token. ty_step. ty_step. ty_step. ty_step. ty_step.
  eapply wp_mono; [apply parse_simpletok_typed|]. intros tok q [[st ->] T]. ty_step. ty_step. ty_step.
  ty_step; zify_bool.
  - (* a word *)
    ty_step. eapply wp_mono; [apply parse_word_typed|]. cbv beta. intros w r [-> (M & C & E)]. ty_step.
    change (mode r = mode p) in M.
    assert (Fin : forall tok, tok = p_tok r \/ In tok keyword_toks /\ tok_in (p_tok r) T_NAME = true ->
      forall q, q = with_tok (only_keywords (p_flags r) tok) r ->
      mode q = mode p /\ (chain (p_tree p) -> chain (p_tree q)) /\
    (mode p = true ->
      (not_redir (p_tok q) /\ (parts (p_tree p) -> parts (p_tree q)) /\
        (word_tok (p_tok q) = true -> parts (p_tree q) /\ shut q)) \/
      (a_redir q /\ shut q))).
    { intros tok' Htok q ->. split_and!; [done|done|]. intros Mp. destruct (E Mp) as [[[P N]|[R N]] S].
      - left. assert (not_redir tok') as N' by (destruct Htok as [->|[K _]]; [done|by apply keyword_not_redir]).
        cbn. split_and!; [|done|done]. destruct (only_keywords_cases (p_flags r) tok') as [->|[-> _]]; done.
      - right. destruct Htok as [->|[_ K]]; [|by rewrite N in K]. rewrite N.
        destruct (only_keywords_cases (p_flags r) T_REDIR) as [->|[_ K]]; [by split|done]. }
    ty_step. ty_step. ty_step. ty_step; ty_step; ty_step; (eapply Fin; [|reflexivity]); cbn; [|by left].
    match goal with K : _ && _ = true |- _ => apply andb_prop in K as [[K _]%andb_prop _] end. destruct H as [->|H]; [by left|by right].
  - destruct T as [T|T]; [done|]. destruct (simple_tok_facts _ T) as (T1 & T2 & T3).
    assert (tok_in tok T_NAME = false) as T4.
    { unfold word_tok in T3. rewrite !tok_in_lor in T3. by destruct (tok_in tok T_WORD), (tok_in tok T_NAME). }
    ty_step. ty_step. ty_step. cbn. rewrite T4. cbn [andb]. ty_step. ty_step. ty_step.
    assert (only_keywords (p_flags p) tok = tok) as OK.
    { destruct (only_keywords_cases (p_flags p) tok) as [->|[_ K]]; [done|congruence]. }
    split_and!; [done|apply empty_head_grows|]. intros Mp. left. cbn. rewrite OK, T3.
    split_and!; [done|apply empty_head_grows|done].
Qed.

Lemma parse_gettok_typed tf p : exact tf = true -> wp false (parse_gettok rec interactive tf) (got p) p.
Proof using REC.
  intros Ht. unfold parse_gettok. ty_step. ty_step. ty_step. ty_step. ty_step. ty_step. ty_step. ty_step.
  - eapply wp_mono; [apply scan_token_typed|]. cbv beta. intros _ q (M & C & E). ty_run. split; [done|]. right.
    assert (mode (with_flags (p_flags p .| tf) p) = mode p) as Mp by by apply exact_or.
    split; [done|done|done|]. intros M'. apply E. by rewrite Mp.
  - ty_run. split; [done|]. left. cbn in Heqb. split; [by destruct (p_pushback p)|]. by destruct p.
Qed.

End Lexer.
