(* ===== verification/GrammarTyped.v ===== *)
(** * Commands are well formed

    Every production returns nodes of its sort, so that what a script is read
    into is well formed all the way down, whatever the text. *)

From S2P Require Import Prelude Scan Chars Source Tree TreeTypes ArithParse LexState Lexer Grammar ParseLogic LexTyped.

Implicit Types (p q : parser).

(** ** States between tokens *)

Lemma scanned_ready p q : mode p = true -> chain (p_tree p) -> scanned p q -> ready q.
Proof.
  intros M C G. assert (mode q = true) as Mq by (unfold mode in *; by rewrite (sc_flags _ _ G)).
  split_and!; [done|by apply (sc_chain _ _ G)|..]; intros K;
    destruct (sc_exact _ _ G M) as [(N & _ & W)|[[R T] _]]; [by rewrite N in K| |by apply W|by rewrite T in K].
  unfold one_redir in R. by apply andb_True in R as [_ R].
Qed.

Lemma got_ready p tok q : ready p -> got p tok q -> ready q /\ tok = p_tok q /\ p_pushback q = false.
Proof.
  intros R [-> [[B ->]|G]]; [done|]. split_and!; [|done|apply (sc_pushback _ _ G)]. by apply (scanned_ready p); [apply R..|].
Qed.

Lemma mode_empty x p : mode p = true -> ready (with_tree [] x p).
Proof. intros M. by split_and!. Qed.

Lemma ready_empty x p : ready p -> ready (with_tree [] x p).
Proof. intros R. apply mode_empty, R. Qed.

(** Facts about the state that the steps between tokens keep *)
Ltac ready_side :=
  unfold ready, ready, mode in *;
  cbn [p_flags p_tree p_pushback p_tok with_source with_flags with_pushback with_quot with_tok with_sa with_tree] in *;
  repeat match goal with H : _ /\ _ |- _ => destruct H end;
  split_and!; first [assumption | done | by rewrite exact_or | by apply exact_drop | by apply exact_drop; rewrite exact_or | congruence | auto].

(** The token is one of these: a word. *)
Ltac word_side :=
  match goal with
  | T : ready ?q |- parts (p_tree ?q) => apply T
  | T : ready ?q |- context [wf Word (narg N_ARG 0 (p_tree ?q))] => 
      let P := fresh in assert (P : parts (p_tree q)) by (apply T; word_side); apply P
  | |- word_tok _ = true =>
      repeat match goal with
      | H : (_ && _) = true |- _ => apply andb_prop in H as [? ?]
      | H : (_ || _) = true |- _ => apply orb_true_iff in H as [?|?]
      | H : (p_tok ?q =? _) = true |- word_tok (p_tok ?q) = true => apply Z.eqb_eq in H; rewrite H; reflexivity
      end; assumption
  end.

Section Grammar.
Context (rec : calls) (interactive : bool) (REC : CallsTyped rec).

Lemma gettok_typed tf p : exact tf = true -> ready p ->
  wp false (gettok rec interactive tf) (fun tok q => ready q /\ tok = p_tok q /\ p_pushback q = false) p.
Proof using REC.
  intros Ht R. eapply wp_mono; [by apply parse_gettok_typed|]. intros tok q. by apply got_ready.
Qed.

Lemma parse_error_typed (Q : unit -> parser -> Prop) p : Q tt p -> wp false (parse_error interactive) Q p.
Proof using Type. unfold wp, parse_error. by case_test. Qed.

Lemma expect_typed tf toks p : exact tf = true -> ready p ->
  wp false (expect rec interactive tf toks) (fun tok q =>
    ready q /\ p_pushback q = false /\ (tok <> 0 -> tok = p_tok q /\ tok_in tok toks = true)) p.
Proof using REC.
  intros Ht R. unfold expect, parse_expect. ty_step. eapply wp_mono; [by apply gettok_typed|].
  cbv beta. intros tok q (T & -> & B). ty_run.
  - apply parse_error_typed. ty_run. by split_and!.
  - split_and!; [|done|by apply negb_false_iff in Heqb].
    destruct T as (? & ? & ? & ?). by split_and!.
  - split_and!; [done|done|by apply negb_false_iff in Heqb].
Qed.

(** A step that reads a token *)
Ltac token :=
  lazymatch goal with
  | |- wp _ (gettok _ _ _) _ _ => eapply wp_mono; [apply gettok_typed; [reflexivity|ready_side]|]; cbv beta; intros ? ? (? & -> & ?)
  | |- wp _ (expect _ _ _ _) _ _ => eapply wp_mono; [apply expect_typed; [reflexivity|ready_side]|]; cbv beta; intros ? ? (? & ? & ?)
  end.

Lemma wp_getarg (Q : option node -> parser -> Prop) p : 
  Q (Some (narg N_ARG 0 (p_tree p))) (with_tree [] (p_node p) p) -> Q None p -> wp false parse_getarg Q p.
Proof using Type. intros H1 H2. unfold wp, parse_getarg. by case_test. Qed.

Lemma wp_move_tree (Q : list node -> parser -> Prop) p : Q (p_tree p) (with_tree [] (p_node p) p) -> wp false move_tree Q p.
Proof using Type. done. Qed.

Lemma wp_or_undefined {A} (o : option A) (Q : A -> parser -> Prop) p : (forall a, o = Some a -> Q a p) -> wp false (or_undefined o) Q p.
Proof using Type. intros H. destruct o; [by apply H|done]. Qed.

Ltac g_step :=
  cbv beta;
  lazymatch goal with
  | |- wp _ (gettok _ _ _) _ _ => token
  | |- wp _ (expect _ _ _ _) _ _ => token
  | |- wp _ parse_getarg _ _ => apply wp_getarg
  | |- wp _ move_tree _ _ => apply wp_move_tree
  | |- wp _ (or_undefined _) _ _ => apply wp_or_undefined; intros
  | |- wp _ push_back _ _ => apply wp_change
  | |- wp _ (drop_flags _) _ _ => apply wp_change
  | |- wp _ (set_flags _) _ _ => apply wp_change
  | |- wp _ (parse_error _) _ _ => apply parse_error_typed
  | |- wp _ parse_dropkeyword _ _ => apply wp_change
  | |- wp _ (word_is _) _ _ => apply wp_ask
  | |- wp _ out_of_fuel _ _ => exact I
  | _ => wp_step
  end.
Ltac g_run := repeat g_step.

Lemma skip_toks_typed fuel : forall p tf mask, exact tf = true -> ready p ->
  wp false (skip_toks rec interactive fuel tf mask) (fun _ q => ready q /\ p_pushback q = false) p.
Proof using REC.
  induction fuel as [|fuel IH]; intros p tf mask Ht R; [done|]. cbn [skip_toks]. g_step.
  eapply wp_mono; [by apply gettok_typed|]. cbv beta. intros tok q (T & -> & B). g_run; [|done].
  apply IH; [done|done].
Qed.

Lemma redirs_loop_typed fuel : forall p acc, ready p -> forallb (wf Redir) acc ->
  wp false (redirs_loop rec interactive fuel acc) (fun l q => ready q /\ forallb (wf Redir) l) p.
Proof using REC.
  induction fuel as [|fuel IH]; intros p acc R Ha; [done|]. cbn [redirs_loop]. g_run; [|done].
  apply IH; [ready_side|]. apply forallb_join; [done|by apply H].
Qed.

Lemma redirs_typed p : ready p ->
  wp false (redirs rec interactive) (fun l q => ready q /\ forallb (wf Redir) l) p.
Proof using REC. intros R. unfold redirs. g_run. by apply redirs_loop_typed. Qed.

Lemma wf_cmd rdir vars args : forallb (wf Redir) rdir -> forallb (wf Word) vars -> forallb (wf Word) args ->
  wf Cmd (ncmd false rdir vars args).
Proof using Type. intros. cbn [wf]. sorts. by rewrite !andb_True. Qed.

Lemma wf_getarg p : parts (p_tree p) -> wf Word (narg N_ARG 0 (p_tree p)).
Proof using Type. done. Qed.

(** ** Simple commands *)

Lemma simple_loop_typed fuel : forall p rdir vars args, ready p ->
  forallb (wf Redir) rdir -> forallb (wf Word) vars -> forallb (wf Word) args ->
  wp false (simple_loop rec interactive fuel rdir vars args) (fun n q => ready q /\ wf Cmd n) p.
Proof using REC.
  induction fuel as [|fuel IH]; intros p rdir vars args R Hr Hv Ha; [done|]. cbn [simple_loop]. g_run.
  all: try (apply IH; [ready_side|try done..]).
  - simplify_eq. apply forallb_snoc; [done|]. word_side.
  - apply forallb_snoc; [done|]. word_side.
  - by rewrite app_nil_r.
  - apply forallb_join; [done|]. apply H. match goal with E : (_ =? T_REDIR) = true |- _ => apply Z.eqb_eq in E; by rewrite E end.
  - split; [ready_side|by apply wf_cmd].
Qed.

Lemma parse_simple_command_typed p : ready p ->
  wp false (parse_simple_command rec interactive) (fun n q => ready q /\ wf Cmd n) p.
Proof using REC. intros R. unfold parse_simple_command. g_run. by apply simple_loop_typed. Qed.

(** ** Compound commands *)

Lemma compound_list_typed p e : ready p ->
  wp false (r_compound_list rec e) (fun l q => ready q /\ forallb (wf Item) l) p.
Proof using REC. apply (ty_compound_list _ REC). Qed.

Ltac sub H := eapply wp_mono; [apply H; [ready_side|..]|]; cbv beta.
Ltac compound := sub compound_list_typed; intros ? ? [? ?].

Lemma wf_group id rdir cmds : kind_in id [N_SUBSHELL; N_BRACEGROUP] -> nonempty cmds ->
  forallb (wf Redir) rdir -> forallb (wf Item) cmds -> wf Cmd (ngrp id false rdir cmds).
Proof using Type.
  intros K N R C. cbn [wf]. destruct (kind_eqb id N_LIST) eqn:E.
  - apply bool_decide_eq_true in E. by subst.
  - sorts. rewrite !andb_True. by split_and!.
Qed.

Lemma parse_grouping_typed tf p : exact tf = true -> ready p ->
  wp false (parse_grouping rec interactive tf) (fun o q => ready q /\ opt_wf (wf Cmd) o) p.
Proof using REC.
  intros Ht R. unfold parse_grouping. g_step.
  eapply wp_mono; [apply expect_typed; [by rewrite exact_or|done]|]. cbv beta. intros tok q (T & B & E). g_step.
  { g_step. split; [ready_side|done]. }
  g_step. compound. g_run.
  - split; [ready_side|done].
  - split; [ready_side|done].
  - sub redirs_typed. intros rdir r [? ?]. g_run; (split; [ready_side|apply wf_group; [by case_test|done..]]).
Qed.

Lemma wf_if cmd0 cmd1 test : forallb (wf Item) cmd0 -> forallb (wf Item) cmd1 -> forallb (wf Item) test ->
  wf Cmd (nif false [] cmd0 cmd1 test).
Proof using Type. intros. cbn [wf]. sorts. rewrite !andb_True. by split_and!. Qed.

Lemma if_loop_typed fuel : forall p, ready p ->
  wp false (if_loop rec interactive fuel) (fun o q => ready q /\ opt_wf (wf Cmd) o) p.
Proof using REC.
  induction fuel as [|fuel IH]; intros p R; [done|]. cbn [if_loop]. g_step. compound. g_run.
  { split; [ready_side|done]. }
  compound. g_run.
  - sub IH. intros o r [? Ho]. g_run. split; [done|]. destruct o as [n|]; [|done]. cbn [option_map opt_wf] in *.
    apply wf_if; try done. cbn [forallb]. rewrite andb_true_r. by apply (wf_up Cmd Item).
  - compound. g_run; (split; [ready_side|]); [done|by apply wf_if].
  - split; [ready_side|done].
  - split; [ready_side|by apply wf_if].
Qed.

Lemma parse_if_typed p : ready p ->
  wp false (parse_if rec interactive) (fun o q => ready q /\ opt_wf (wf Cmd) o) p.
Proof using REC. intros R. unfold parse_if. g_run. by apply if_loop_typed. Qed.

Lemma take_name_typed p : ready p -> parts (p_tree p) -> wp false take_name (fun _ q => ready q) p.
Proof using Type.
  intros (M & C & R & W) P. unfold take_name. g_run.
  assert (G : grows (p_tree p) (on_node (fun _ => nargstr flag []) (p_tree p))) by (apply on_node_grows; intros; exact I).
  split_and!; [done|by apply G| |intros ?; by apply G].
  intros T%R. exfalso. destruct (p_tree p) as [|m l]; [done|].
  unfold parts in P. cbn [forallb] in P, T. apply andb_True in P as [P _], T as [T _].
  apply (single_inv Redir) in T as (fl & w & fd & -> & _); [|by left]. apply (redir_not_parts fl w [] fd). unfold parts.
  cbn [forallb]. by rewrite andb_true_r.
Qed.

Lemma words_loop_typed fuel : forall p acc, ready p -> forallb (wf Word) acc ->
  wp false (words_loop rec interactive fuel acc) (fun l q => ready q /\ forallb (wf Word) l) p.
Proof using REC.
  induction fuel as [|fuel IH]; intros p acc R Ha; [done|]. cbn [words_loop]. g_run; [..|done]; [|done].
  apply IH; [ready_side|]. simplify_eq. apply forallb_snoc; [done|]. by apply H.
Qed.

Lemma do_group_typed p : ready p ->
  wp false (do_group rec interactive) (fun o q => ready q /\ match o with Some l => forallb (wf Item) l | None => True end) p.
Proof using REC.
  intros R. unfold do_group. g_step. compound. g_run. split; [ready_side|]. by case_test.
Qed.

Lemma parse_for_typed p : ready p ->
  wp false (parse_for rec interactive) (fun o q => ready q /\ opt_wf (wf Cmd) o) p.
Proof using REC.
  intros R. unfold parse_for. g_run.
  { split; [ready_side|done]. }
  sub take_name_typed.
  { apply H. unfold word_tok. destruct H1 as [<- E]; [by intros ->|]. rewrite !tok_in_lor, E. apply orb_true_r. }
  intros varn r Hr. g_run.
  1: sub words_loop_typed; [done|intros args q1 [? ?]].
  all: g_run; try (split; [ready_side|done]).
  all: sub do_group_typed; intros o q4 [? Ho]; g_run; (split; [done|]); destruct o as [l|]; [|done].
  all: cbn [option_map opt_wf wf]; sorts; rewrite !andb_True; by split_and!.
Qed.

(** What stands for a pattern may be any token taken for a name, over what was
    left in the tree. *)
Definition stale p : Prop := mode p = true /\ chain (p_tree p) /\ p_tok p = T_NAME.

Lemma pats_loop_typed fuel : forall p acc, ready p \/ stale p -> forallb (wf Loose) acc ->
  wp false (pats_loop rec interactive fuel acc) (fun l q => ready q /\ forallb (wf Loose) l) p.
Proof using REC.
  induction fuel as [|fuel IH]; intros p acc R Ha; [done|]. cbn [pats_loop]. g_step.
  eapply wp_mono; [by apply parse_gettok_typed|]. intros tok q G.
  assert (mode q = true /\ chain (p_tree q) /\ (ready q \/ tok = T_NAME)) as (M & C & T).
  { destruct R as [R|(M & C & T)].
    - destruct (got_ready _ _ _ R G) as (T & _ & B). by split_and!; [apply T|apply T|left].
    - destruct G as [-> [[_ ->]|S]]; [by split_and!; [..|right]|].
      pose proof (scanned_ready _ _ M C S) as T'. by split_and!; [apply T'|apply T'|left]. }
  g_step; [g_step|].
  - apply IH; [|done]. left. destruct T as [T|T]; [done|by subst].
  - g_step. g_step; g_step; g_step; [|done]. simplify_eq.
    assert (R' : ready (with_tree [] (p_node q) q)) by by apply mode_empty.
    assert (forallb (wf Loose) (acc ++ [narg N_ARG 0 (p_tree q)])) by (apply forallb_snoc; [done|by apply narg_loose]).
    g_run; [apply IH; [left; ready_side|done]|]. split; [ready_side|done].
  - g_run. split; [|done]. destruct T as [T|T]; [ready_side|by subst].
Qed.

Lemma pattern_start_typed tok p : ready p -> tok = p_tok p ->
  wp false (pattern_start tok) (fun _ q => ready q \/ stale q) p.
Proof using Type.
  intros T ->. unfold pattern_start. g_run.
  - left. done.
  - left. ready_side.
  - right. destruct T as (? & ? & _). by split_and!.
Qed.

Lemma cases_loop_typed fuel : forall p acc, ready p -> forallb (wf Case) acc ->
  wp false (cases_loop rec interactive fuel acc)
    (fun o q => ready q /\ match o with Some l => forallb (wf Case) l | None => True end) p.
Proof using REC.
  induction fuel as [|fuel IH]; intros p acc R Ha; [done|]. cbn [cases_loop]. g_step. token. g_step.
  { g_step. split; [ready_side|done]. }
  g_step. eapply wp_mono; [by apply pattern_start_typed|]. cbv beta. intros _ q1 R1. g_step. g_step. g_step.
  eapply wp_mono; [by apply pats_loop_typed|]. cbv beta. intros pats q2 [R2 Hp]. g_run.
  { split; [ready_side|done]. }
  compound.
  assert (C : forall cmds, forallb (wf Item) cmds -> forallb (wf Case) (acc ++ [ncasenode pats cmds])).
  { intros cmds Hc. apply forallb_snoc; [done|]. cbn [wf]. sorts. by rewrite andb_True. }
  g_run.
  - split; [ready_side|done].
  - split; [ready_side|auto].
  - apply IH; [ready_side|auto].
Qed.

Lemma parse_case_typed p : ready p ->
  wp false (parse_case rec interactive) (fun o q => ready q /\ opt_wf (wf Cmd) o) p.
Proof using REC.
  intros R. unfold parse_case. g_run; try (split; [ready_side|done]).
  all: sub cases_loop_typed; [done|intros [cases|] q2 [R2 Hc]]; g_run; (split; [try by apply ready_empty|]); try done.
  - cbn [opt_wf wf]. sorts. rewrite !andb_True. split_and!; try done. apply H. unfold word_tok. destruct H1 as [<- ->]; [by intros ->|done].
  - cbn [opt_wf wf]. sorts. rewrite !andb_True. by split_and!.
Qed.

Lemma parse_loop_typed p : ready p ->
  wp false (parse_loop rec interactive) (fun o q => ready q /\ opt_wf (wf Cmd) o) p.
Proof using REC.
  intros R. unfold parse_loop. g_step. g_step. g_step. compound. g_run; [split; [ready_side|done]|].
  sub do_group_typed. intros o q4 [? Ho]. g_run. split; [done|]. destruct o as [l|]; [|done].
  cbn [option_map opt_wf wf]. sorts. rewrite !andb_True. split_and!; try done. by case_test.
Qed.

(** ** Functions *)

Lemma wf_add_rdir l n n' : forallb (wf Redir) l -> wf Cmd n -> add_rdir l n = Some n' -> wf Cmd n'.
Proof using Type.
  intros Hl Hn E. destruct n; cbn [add_rdir] in E; simplify_eq; cbn [wf] in *.
  all: try (destruct (kind_eqb id N_LIST); [by destruct Hn|]).
  all: rewrite ?andb_True in *; rewrite ?forallb_app, ?andb_True; tauto.
Qed.

Lemma to_body_typed fuel : forall p, ready p ->
  wp false (to_body rec interactive fuel) (fun _ q => ready q) p.
Proof using REC.
  induction fuel as [|fuel IH]; intros p R; [done|]. cbn [to_body]. g_run; [|done].
  apply IH. ready_side.
Qed.

Lemma parse_function_typed p : ready p ->
  wp false (parse_function rec interactive) (fun o q => ready q /\ opt_wf (wf Cmd) o) p.
Proof using REC.
  intros R. unfold parse_function. g_step. token. g_step. g_step. g_step. g_step. g_step. g_step. g_step. g_step.
  g_step. eapply wp_mono; [apply to_body_typed|].
  { by apply ready_empty. }
  cbv beta. intros _ q1 T. g_step. g_step. g_step. token. g_step. g_step. g_step.
  assert (Fin : forall o group q, ready q -> opt_wf (wf Cmd) o ->
    wp false (match o with
      | None => if group : bool then stopL Undefined else retL None
      | Some body =>
        _ <- or_undefined (add_rdir [] body) ;;
        l <- redirs rec interactive ;;
        push_back ;;
        retL (Some (nfunc a (add_rdir l body)))
      end) (fun o q => ready q /\ opt_wf (wf Cmd) o) q).
  { intros [body|] group q3 R3 Hb; [|g_run; by split]. g_step. g_step. g_step.
    sub redirs_typed. intros l q4 [? Hl]. g_run. split; [ready_side|]. cbn [opt_wf wf]. sorts.
    destruct (add_rdir l body) eqn:E; [by eapply wf_add_rdir|]. by destruct body. }
  g_step.
  - eapply wp_mono; [apply parse_grouping_typed; [done|ready_side]|]; cbv beta; intros o q3 [? ?]. by apply (Fin o true).
  - eapply wp_mono; [apply (ty_command _ REC); [ready_side|done]|]. cbv beta. intros o q3 [? ?]. by apply (Fin o false).
Qed.

(** ** Commands *)

Lemma skipspace_reads fuel : forall p, wp false (skipspace_loop fuel) (fun _ => reads p) p.
Proof using Type.
  induction fuel as [|fuel IH]; intros p; [done|]. cbn [skipspace_loop].
  assert (Go : forall st, wp false (skipspace_loop fuel) (fun _ => reads p) (with_source st p)).
  { intros st. eapply wp_mono; [apply IH|]. intros ? q [s ->]. by exists s. }
  g_run; lazymatch goal with
    | |- wp _ _ _ (with_source ?st _) => apply (Go st)
    | |- reads _ (with_source ?st _) => by exists st
    end.
Qed.

Lemma parens_reads fuel : forall p i seen, wp false (parens fuel i seen) (fun _ => reads p) p.
Proof using Type.
  induction fuel as [|fuel IH]; intros p i seen; [done|]. cbn [parens].
  g_run; try (by eexists). eapply wp_mono; [apply IH|]. intros ? q' [s ->]. by exists s.
Qed.

Lemma skips_reads n : forall p, wp false (skips n) (fun _ => reads p) p.
Proof using Type.
  induction n as [|n IH]; intros p; cbn [skips]; g_run; [apply reads_refl|].
  eapply wp_mono; [apply IH|]. intros ? q' [s ->]. by exists s.
Qed.

Lemma function_head_reads p : wp false function_head (fun _ => reads p) p.
Proof using Type.
  unfold function_head, parse_skipspace. g_run. eapply wp_mono; [apply skipspace_reads|]. intros _ q [s ->].
  g_run; try (by eexists); eapply wp_mono; try apply parens_reads; intros o q' [s' ->]; g_run; try (by eexists).
  all: eapply wp_mono; [apply skips_reads|]; intros _ q' [s3 ->]; g_run; by eexists.
Qed.

Lemma ready_source st p : ready p -> ready (with_source st p).
Proof using Type. done. Qed.

Lemma with_redirs_typed o p : ready p -> opt_wf (wf Cmd) o ->
  wp false (with_redirs rec interactive o) (fun o q => ready q /\ opt_wf (wf Cmd) o) p.
Proof using REC.
  intros R Ho. unfold with_redirs. destruct o as [n|]; g_run.
  - sub redirs_typed. intros l q [? Hl]. g_run. split; [ready_side|]. by eapply wf_add_rdir.
  - by split.
Qed.

Lemma simple_typed p : ready p ->
  wp false (simple rec interactive) (fun o q => ready q /\ opt_wf (wf Cmd) o) p.
Proof using REC.
  intros R. unfold simple. g_step. g_step. g_step. sub parse_simple_command_typed. intros n q [? ?].
  by apply with_redirs_typed.
Qed.

Lemma parse_command_typed tf p : exact tf = true -> ready p ->
  wp false (parse_command rec interactive tf) (fun o q => ready q /\ opt_wf (wf Cmd) o) p.
Proof using REC.
  intros Ht R. unfold parse_command. g_step. eapply wp_mono; [by apply gettok_typed|]. cbv beta. intros tok q (T & -> & B).
  g_run; try (split; [ready_side|done]).
  all: lazymatch goal with
       | |- wp _ (parse_for _ _) _ _ => sub parse_for_typed
       | |- wp _ (parse_case _ _) _ _ => sub parse_case_typed
       | |- wp _ (parse_if _ _) _ _ => sub parse_if_typed
       | |- wp _ (parse_loop _ _) _ _ => sub parse_loop_typed
       | |- wp _ (parse_grouping _ _ _) _ _ => eapply wp_mono; [apply parse_grouping_typed; [done|ready_side]|]; cbv beta
       | |- wp _ (simple _ _) _ _ => by apply simple_typed
       | _ => idtac
       end.
  all: try (intros o r [? ?]; by apply with_redirs_typed).
  eapply wp_mono; [apply function_head_reads|]. intros f r [st ->]. g_run.
  - apply parse_function_typed. ready_side.
  - apply simple_typed. ready_side.
Qed.

(** ** Pipelines and lists *)

Lemma prefix_loop_typed fuel : forall p x, ready p -> wp false (prefix_loop rec interactive fuel x) (fun _ q => ready q) p.
Proof using REC.
  induction fuel as [|fuel IH]; intros p x R; [done|]. cbn [prefix_loop]. g_run; try (apply IH; ready_side). done.
Qed.

Lemma pipe_loop_typed fuel : forall p acc, ready p -> nonempty acc -> forallb (wf Cmd) acc ->
  wp false (pipe_loop rec interactive fuel acc) (fun o q => ready q /\
    match o with Some l => forallb (wf Cmd) l /\ (1 < List.length l)%nat | None => True end) p.
Proof using REC.
  induction fuel as [|fuel IH]; intros p acc R N Ha; [done|]. cbn [pipe_loop]. g_step.
  eapply wp_mono; [by apply parse_command_typed|]. cbv beta. intros [n|] q [R' Hn]; g_run; [..|by split].
  - apply IH; [ready_side|by destruct acc|by apply forallb_snoc].
  - split; [ready_side|]. split; [by apply forallb_snoc|]. rewrite length_app. destruct acc; [done|]. simpl. lia.
Qed.

Lemma parse_pipeline_typed p : ready p ->
  wp false (parse_pipeline rec interactive) (fun o q => ready q /\ opt_wf (wf Pipe) o) p.
Proof using REC.
  intros R. unfold parse_pipeline. g_step. g_step. g_step. sub prefix_loop_typed. intros x q R1. g_step. g_step. g_step.
  eapply wp_mono; [apply parse_command_typed; [done|ready_side]|]. cbv beta.
  assert (Fin : forall n q, ready q -> wf Pipe n ->
    wp false (push_back ;; (let node := if x_timed x then ntime false (x_posix x) n else n in
      retL (Some (if x_negate x then nnot false node else node)))) (fun o q => ready q /\ opt_wf (wf Pipe) o) q).
  { intros n q' R' Hn. g_run. split; [ready_side|].
    assert (wf Pipe (if x_timed x then ntime false (x_posix x) n else n)) by by case_test.
    by case_test. }
  intros [n|] q2 [R2 Hn]; [|g_run; (split; [ready_side|done])].
  assert (Hp : wf Pipe n) by by apply (wf_up Cmd Pipe).
  g_run.
  - sub pipe_loop_typed; [done|cbn [forallb]; by rewrite andb_true_r|]. intros [l|] q3 [R3 Hl]; g_step; [|g_step; by split].
    apply Fin; [done|]. cbn [wf]. sorts. rewrite andb_True. destruct Hl as [? Hl]. split; [|done].
    apply Nat.ltb_lt in Hl. by rewrite Hl.
  - by apply Fin.
Qed.

Lemma and_or_loop_typed fuel : forall p n, ready p -> wf AndOr n ->
  wp false (and_or_loop rec interactive fuel n) (fun n q => ready q /\ wf AndOr n) p.
Proof using REC.
  induction fuel as [|fuel IH]; intros p n R Hn; [done|]. cbn [and_or_loop]. g_step. token. g_step.
  { g_run. split; [ready_side|done]. }
  g_step. unfold skip_newlines. g_step. g_step.
  eapply wp_mono; [by apply skip_toks_typed|]. cbv beta. intros _ q1 [R1 _]. g_step. g_step. g_step.
  sub parse_pipeline_typed. intros [n'|] q2 [R2 Hn']; [|g_run; (split; [ready_side|done])].
  apply IH; [done|]. cbn [wf]. sorts. rewrite !andb_True. split_and!; [by case_test|done|done].
Qed.

Lemma parse_and_or_typed p : ready p ->
  wp false (parse_and_or rec interactive) (fun o q => ready q /\ opt_wf (wf AndOr) o) p.
Proof using REC.
  intros R. unfold parse_and_or. g_step. sub parse_pipeline_typed. intros [n|] q [R' Hn]; g_run; [|by split].
  sub and_or_loop_typed; [by apply (wf_up Pipe AndOr)|]. intros n' q2 [? ?]. g_run. by split.
Qed.

Lemma wf_set_bgnd s n : wf s n -> wf s (set_bgnd n).
Proof using Type. by destruct n. Qed.

Lemma list_loop_typed fuel : forall p acc, ready p -> forallb (wf AndOr) acc ->
  wp false (list_loop rec interactive fuel acc) (fun l q => ready q /\ forallb (wf AndOr) l) p.
Proof using REC.
  induction fuel as [|fuel IH]; intros p acc R Ha; [done|]. cbn [list_loop]. g_step.
  sub parse_and_or_typed. intros [n|] q [R' Hn]; g_run; [..|by split].
  - split; [ready_side|by apply forallb_snoc].
  - split; [ready_side|by apply forallb_snoc].
  - apply IH; [ready_side|]. apply forallb_snoc; [done|]. case_test; [by apply wf_set_bgnd|done].
Qed.

Lemma parse_list_typed p : ready p ->
  wp false (parse_list rec interactive) (fun l q => ready q /\ forallb (wf Item) l) p.
Proof using REC.
  intros R. unfold parse_list. g_step. g_step. g_step. sub list_loop_typed; [done|]. intros l q [? Hl]. g_step.
  split; [done|]. case_test.
  - cbn [forallb wf]. sorts. cbn [nonempty negb]. rewrite !andb_True. split_and!; try done. by rewrite Heqb.
  - eapply forallb_imp; [|exact Hl]. intros n. by apply (wf_up AndOr Item).
Qed.

Lemma after_newlines_typed fuel : forall p, ready p -> wp false (after_newlines rec interactive fuel) (fun _ q => ready q) p.
Proof using REC.
  induction fuel as [|fuel IH]; intros p R; [done|]. cbn [after_newlines]. g_run; [|done]. apply IH. ready_side.
Qed.

Lemma compound_loop_typed fuel : forall p e acc, ready p -> forallb (wf Item) acc ->
  wp false (compound_loop rec interactive fuel e acc) (fun l q => ready q /\ forallb (wf Item) l) p.
Proof using REC.
  induction fuel as [|fuel IH]; intros p e acc R Ha; [done|]. cbn [compound_loop]. g_step.
  assert (Go : forall p, ready p -> wp false
    (skip_newlines rec interactive P_DEFAULT ;;
      push_back ;;
      tok <- gettok rec interactive P_DEFAULT ;;
      push_back ;;
      if tok =? e then retL acc
      else
        l <- parse_list rec interactive ;;
        n <- rounds ;;
        after_newlines rec interactive (S n) ;;
        push_back ;;
        match l with
        | [] => retL acc
        | _ => compound_loop rec interactive fuel e (acc ++ l)
        end) (fun l q => ready q /\ forallb (wf Item) l) p).
  { clear p R. intros p R. unfold skip_newlines. g_step. g_step. g_step.
    eapply wp_mono; [by apply skip_toks_typed|]. cbv beta. intros _ q1 [R1 _]. g_step. g_step. g_step. token. g_step. g_step.
    g_step; [g_step; split; [ready_side|done]|]. g_step. sub parse_list_typed. intros l q2 [R2 Hl]. g_step. g_step. g_step.
    sub after_newlines_typed. intros _ q3 R3. g_step. g_step. g_step; (g_step || apply IH).
    - split; [ready_side|done].
    - ready_side.
    - by apply forallb_join. }
  g_step; g_step; apply Go; ready_side.
Qed.

Lemma parse_compound_list_typed p e : ready p ->
  wp false (parse_compound_list rec interactive e) (fun l q => ready q /\ forallb (wf Item) l) p.
Proof using REC. intros R. unfold parse_compound_list. g_step. g_step. by apply compound_loop_typed. Qed.

End Grammar.

(** ** The knot *)

Lemma grammar_typed interactive fuel : CallsTyped (grammar interactive fuel).
Proof.
  induction fuel as [|fuel IH]; split; intros; try done; cbn [grammar r_gettok r_word r_compound_list r_command].
  - by apply parse_gettok_typed.
  - eapply wp_mono; [by apply parse_word_typed|]. intros tok q (_ & _ & C & _). done.
  - by apply parse_compound_list_typed.
  - by apply parse_command_typed.
Qed.

Lemma script_loop_typed rec interactive : CallsTyped rec -> forall fuel acc p,
  Forall (fun l => forallb (wf Item) l = true) acc -> ready p ->
  Forall (fun l => forallb (wf Item) l = true) (fst (script_loop rec interactive fuel acc p)).
Proof.
  intros REC fuel. induction fuel as [|fuel IH]; intros acc p Ha R; [done|]. cbn [script_loop]. cbv zeta.
  set (step := bindL _ _).
  assert (wp false step (fun o q => ready q /\ match o with Some l => forallb (wf Item) l | None => True end) p) as W.
  { unfold step, push_back. wp_step. eapply wp_mono; [by apply gettok_typed|]. cbv beta. intros tok q (T & -> & B).
    wp_step; [by wp_step|]. wp_step. wp_step. wp_step. eapply wp_mono; [by apply parse_list_typed|].
    cbv beta. intros l r [? ?]. wp_step. by split. }
  unfold wp in W. destruct (step p) as [[l|] q|[]|]; try done. destruct W as [W1 W2].
  assert (Ha' : Forall (fun l => forallb (wf Item) l = true) (match l with [] => acc | _ => acc ++ [l] end)).
  { destruct l; [done|]. apply Forall_app. split; [done|]. constructor; [|done]. by apply Is_true_true. }
  case_test; [by apply IH|]. case_test; [done|]. by apply IH.
Qed.

(** C3: whatever the text, the commands a script is read into are well formed: at
    every depth a node only holds nodes of the sorts its place asks for (parts in
    words, redirections below commands, at least two commands in a pipeline, a
    body in a function, operands of the right kind below an operator), and a
    redirection's descriptor is below FD_MAX. *)
Theorem parse_script_typed (interactive : bool) (x : bytes) :
  Forall (fun l => forallb (wf Item) l = true) (fst (parse_script interactive x)).
Proof.
  apply script_loop_typed; [apply grammar_typed|constructor|by destruct interactive].
Qed.
