(* ===== verification/Scripts.v ===== *)
(** * Scripts read by the model

    Texts and the commands parse_script reads them into: first the ordinary
    constructs, then texts on which the parser does something else than the
    shell grammar asks for. *)

From S2P Require Import Prelude Chars Source Tree ArithParse LexState Lexer Grammar.

#[local] Abbreviation lit s := (nargstr 0 (b s)).
#[local] Abbreviation word s := (narg N_ARG 0 [nargstr 0 (b s)]).
#[local] Abbreviation cmd l := (ncmd false [] [] l).
#[local] Abbreviation reads x := (parse_script false (b x)).

Definition nl : string := String (ascii_of_nat 10) EmptyString.
Definition dquote : string := String (ascii_of_nat 34) EmptyString.

Open Scope string_scope.

(** ** The grammar *)

Example reads_list : reads "! a | b && time c; d &" =
  ([[ngrp N_LIST false []
       [nandor N_AND false (nnot false (npipe false [cmd [word "a"]; cmd [word "b"]]))
          (ntime false false (cmd [word "c"]));
        ncmd true [] [] [word "d"]]]], EndBehindCommand).
Proof. vm_compute. reflexivity. Qed.

Example reads_if : reads ("if a; then b; elif c; then d; else e; fi 2>x" ++ nl) =
  ([[nif false [nredir (Z.lor R_OUT R_OPEN) [lit "x"] [] 2] [cmd [word "b"]]
       [nif false [] [cmd [word "d"]] [cmd [word "e"]] [cmd [word "c"]]] [cmd [word "a"]]]], EndOfInput).
Proof. vm_compute. reflexivity. Qed.

Example reads_for : reads ("for i in 1 2; do echo $i; done" ++ nl) =
  ([[nfor false true [] [cmd [word "echo"; narg N_ARG 0 [nargparam 0 (b "i") None 0]]] [word "1"; word "2"] (b "i")]],
   EndOfInput).
Proof. vm_compute. reflexivity. Qed.

Example reads_case : reads ("case $x in a|b) c;; *) d; esac" ++ nl) =
  ([[ncase false [] [ncasenode [word "a"; word "b"] [cmd [word "c"]];
                     ncasenode [narg N_ARG 0 [nargstr S_GLOB (b "*")]] [cmd [word "d"]]]
       (Some (narg N_ARG 0 [nargparam 0 (b "x") None 0]))]], EndOfInput).
Proof. vm_compute. reflexivity. Qed.

Example reads_function : reads ("f() { a; } >b" ++ nl) =
  ([[nfunc (b "f") (Some (ngrp N_BRACEGROUP false [nredir (Z.lor R_OUT R_OPEN) [lit "b"] [] 1] [cmd [word "a"]]))]], EndOfInput).
Proof. vm_compute. reflexivity. Qed.

Example reads_words : reads ("x=1 y=$((2+3)) a 'd'" ++ nl) =
  ([[ncmd false [] [word "x=1"; narg N_ARG 0 [lit "y="; nargarith 0 (Some (narithbinary A_ADD (narithnum 2 10) (Some (narithnum 3 10))))]]
       [word "a"; narg N_ARG 0 [nargstr S_SQUOTED (b "d")]]]], EndOfInput).
Proof. vm_compute. reflexivity. Qed.

Example reads_lines : reads ("(a; b)" ++ nl ++ "while a; do b; done") =
  ([[ngrp N_SUBSHELL false [] [ngrp N_LIST false [] [cmd [word "a"]; cmd [word "b"]]]];
    [nloop N_WHILE false [] [cmd [word "b"]] [cmd [word "a"]]]], EndBehindCommand).
Proof. vm_compute. reflexivity. Qed.

(** ** Where the parser departs from the grammar *)

(** A redirection without its operand is dropped, and the command runs. *)
Example redirection_operand_dropped : reads "echo > ; foo" = reads "echo; foo".
Proof. vm_compute. reflexivity. Qed.

(** A file name with an equal sign becomes an argument. *)
Example redirection_to_assignment : reads "echo hi >a=b" = ([[cmd [word "echo"; word "hi"; word "a=b"]]], EndBehindCommand).
Proof. vm_compute. reflexivity. Qed.

(** At the end of the input the operator itself is an argument. *)
Example redirection_at_end : reads "echo hi >" = ([[cmd [word "echo"; word "hi"; word ">"]]], EndBehindCommand).
Proof. vm_compute. reflexivity. Qed.

(** A "$" at the end of the input is lost. *)
Example dollar_at_end : reads "echo $" = reads "echo".
Proof. vm_compute. reflexivity. Qed.

(** Quotes and substitutions need not end. *)
Example unterminated_quote : reads "echo 'ab" = reads "echo 'ab'".
Proof. vm_compute. reflexivity. Qed.

Example unterminated_substitution : reads "echo $(ls" = reads "echo $(ls)".
Proof. vm_compute. reflexivity. Qed.

(** An operator whose right side is missing is dropped. *)
Example missing_right_side : reads "true &&" = reads "true".
Proof. vm_compute. reflexivity. Qed.

(** A condition may be empty. *)
Example empty_condition : reads ("while" ++ nl ++ "do a; done" ++ nl) = ([[nloop N_WHILE false [] [cmd [word "a"]] []]], EndOfInput).
Proof. vm_compute. reflexivity. Qed.

(** A parameter in front of the name makes an assignment of a command. *)
Example parameter_assigned : reads ("${x}y=1" ++ nl) =
  ([[ncmd false [] [narg N_ARG 0 [nargparam 0 (b "x") None 0; lit "y=1"]] []]], EndOfInput).
Proof. vm_compute. reflexivity. Qed.

(** The word of "${x:->y}" is a redirection. *)
Example redirection_in_word : reads ("${x:->y}" ++ nl) =
  ([[cmd [narg N_ARG 0 [nargparam S_NULL (b "x") (Some (narg N_ARG 0 [nredir (Z.lor R_OUT R_OPEN) [lit "y"] [] 1])) 0]]]],
   EndOfInput).
Proof. vm_compute. reflexivity. Qed.

(** A redirection stands for a pattern. *)
Example redirection_as_pattern : reads ("case a in >b) c;; esac" ++ nl) =
  ([[ncase false [] [ncasenode [narg N_ARG 0 [nredir (Z.lor R_OUT R_OPEN) [lit "b"] [] 1]] [cmd [word "c"]]] (Some (word "a"))]],
   EndOfInput).
Proof. vm_compute. reflexivity. Qed.

(** An unknown hexadecimal escape is a NUL character. *)
Example bad_hex_escape : reads ("echo $'a\xg'" ++ nl) =
  ([[cmd [word "echo"; narg N_ARG 0 [nargstr S_SQUOTED [97; 0; 120; 103]]]]], EndOfInput).
Proof. vm_compute. reflexivity. Qed.

(** What the C code leaves undefined: a NULL node used, a node taken for one of
    another kind, a variable that was not set *)
Example empty_function_body : reads "f() { }" = ([], Stopped Undefined).
Proof. vm_compute. reflexivity. Qed.

Example function_as_body : reads ("f() g() { a; }" ++ nl) = ([], Stopped Undefined).
Proof. vm_compute. reflexivity. Qed.

Example parameter_as_variable : reads "for $x in a; do b; done" = ([], Stopped Undefined).
Proof. vm_compute. reflexivity. Qed.

Example parenthesis_at_end : reads "foo (" = ([], Stopped Undefined).
Proof. vm_compute. reflexivity. Qed.

Example redirection_before_do : reads ("for x in a" ++ nl ++ ">f") = ([], Stopped Undefined).
Proof. vm_compute. reflexivity. Qed.
