(* ===== verification/Fnmatch.v ===== *)
(** * Pattern matching (lib/path/path_fnmatch.c)

    The iterative matcher behind [case], the [${x%pattern}] operators and
    [find]: it walks pattern and string together and remembers only the last
    asterisk.  A pattern is its remaining bytes; reading at the end of it
    gives NUL.  [path_fnmatch_loop] takes one unit of fuel per pass through
    the label [start]. *)

From S2P Require Import Prelude.

(** ** Flags *)

Definition PATH_FNM_PATHNAME : Z := 1.
Definition PATH_FNM_NOESCAPE : Z := 2.
Definition PATH_FNM_PERIOD : Z := 4.
Definition NOTFIRST : Z := 0x80.

Definition flag_set (flags f : Z) : bool := negb (Z.land flags f =? 0).

(** ** Character classes of the C locale *)

Definition c_isupper (c : Z) : bool := (65 <=? c) && (c <=? 90).
Definition c_islower (c : Z) : bool := (97 <=? c) && (c <=? 122).
Definition c_isalpha (c : Z) : bool := c_isupper c || c_islower c.
Definition c_isalnum (c : Z) : bool := c_isalpha c || c_isdigit c.
Definition c_isgraph (c : Z) : bool := (33 <=? c) && (c <=? 126).
Definition c_isprint (c : Z) : bool := (32 <=? c) && (c <=? 126).
Definition c_ispunct (c : Z) : bool := c_isgraph c && negb (c_isalnum c).
Definition c_iscntrl (c : Z) : bool := (c <? 32) || (c =? 127).
Definition c_isblank (c : Z) : bool := (c =? 32) || (c =? 9).
Definition c_isspace (c : Z) : bool := (c =? 32) || ((9 <=? c) && (c <=? 13)).
Definition c_isxdigit (c : Z) : bool :=
  c_isdigit c || ((65 <=? c) && (c <=? 70)) || ((97 <=? c) && (c <=? 102)).

Definition path_fnmatch_class (name : bytes) (c : Z) : bool :=
  if bool_decide (name = b "upper") then c_isupper c
  else if bool_decide (name = b "lower") then c_islower c
  else if bool_decide (name = b "alpha") then c_isalpha c
  else if bool_decide (name = b "digit") then c_isdigit c
  else if bool_decide (name = b "alnum") then c_isalnum c
  else if bool_decide (name = b "punct") then c_ispunct c
  else if bool_decide (name = b "graph") then c_isgraph c
  else if bool_decide (name = b "print") then c_isprint c
  else if bool_decide (name = b "cntrl") then c_iscntrl c
  else if bool_decide (name = b "blank") then c_isblank c
  else if bool_decide (name = b "space") then c_isspace c
  else if bool_decide (name = b "xdigit") then c_isxdigit c
  else false.

(** ** Bracket expressions *)

(** The index [i] from [i] on with [delim "]"] at it, plus 2; 0 if none. *)
Fixpoint subexpr_scan (pattern : bytes) (i : nat) (delim : Z) : nat :=
  match pattern with
  | c :: ((d :: _) as rest) =>
      if (c =? delim) && (d =? ch "]") then (i + 2)%nat else subexpr_scan rest (S i) delim
  | _ => 0%nat
  end.

Definition path_fnmatch_subexpr_len (pattern : bytes) (delim : Z) : nat :=
  subexpr_scan (drop 2 pattern) 2 delim.

(** The second endpoint and the bytes of [-<endpoint>]. *)
Definition path_fnmatch_range_end (pattern : bytes) : option (Z * nat) :=
  if (List.length pattern <? 2)%nat || negb (cnth pattern 0 =? ch "-") || (cnth pattern 1 =? ch "]")
  then None
  else if (3 <=? List.length pattern)%nat && (cnth pattern 1 =? ch "[")
          && ((cnth pattern 2 =? ch ".") || (cnth pattern 2 =? ch "=")) then
    let sublen := path_fnmatch_subexpr_len (drop 1 pattern) (cnth pattern 2) in
    if (sublen =? 0)%nat || negb (sublen =? 5)%nat then None
    else Some (cnth pattern 3, S sublen)
  else Some (cnth pattern 1, 2%nat).

Definition opens_subexpr (pattern : bytes) : bool :=
  (chd pattern =? ch "[") && (1 <? List.length pattern)%nat
  && ((cnth pattern 1 =? ch ":") || (cnth pattern 1 =? ch ".") || (cnth pattern 1 =? ch "=")).

Definition escapes (flags : Z) : bool := negb (flag_set flags PATH_FNM_NOESCAPE).

(** The loop of path_fnmatch_has_close, on the pattern from index [j]. *)
Fixpoint has_close_loop (fuel : nat) (pattern : bytes) (flags : Z) : bool :=
  match fuel with
  | O => false
  | S f =>
      match pattern with
      | [] => false
      | c :: rest =>
          if (c =? ch "\") && escapes flags then has_close_loop f (drop 1 rest) flags
          else
            let n := if opens_subexpr pattern
                     then path_fnmatch_subexpr_len pattern (cnth pattern 1) else 0%nat in
            if negb (n =? 0)%nat then has_close_loop f (drop n pattern) flags
            else if c =? ch "]" then true
            else has_close_loop f rest flags
      end
  end.

Definition path_fnmatch_has_close (pattern : bytes) (flags : Z) : bool :=
  let p := drop 1 pattern in
  let p := if (0 <? List.length p)%nat && (chd p =? ch "!") then drop 1 p else p in
  has_close_loop (List.length pattern) (drop 1 p) flags.

(** One member: does it match [c], and the pattern behind it. *)
Definition bracket_member (pattern : bytes) (escaped : bool) (c : Z) : bool * bytes :=
  if negb escaped && opens_subexpr pattern then
    let delim := cnth pattern 1 in
    let sublen := path_fnmatch_subexpr_len pattern delim in
    if (sublen =? 0)%nat then (chd pattern =? c, drop 1 pattern)
    else if delim =? ch ":" then
      (path_fnmatch_class (take (sublen - 4) (drop 2 pattern)) c, drop sublen pattern)
    else if (sublen =? 5)%nat then
      match path_fnmatch_range_end (drop sublen pattern) with
      | Some (rangeend, rangeskip) =>
          ((schar (cnth pattern 2) <=? schar c) && (schar c <=? schar rangeend),
           drop (sublen + rangeskip) pattern)
      | None => (cnth pattern 2 =? c, drop sublen pattern)
      end
    else (false, drop sublen pattern)
  else
    match (if escaped then None else path_fnmatch_range_end (drop 1 pattern)) with
    | Some (rangeend, rangeskip) =>
        ((schar (chd pattern) <=? schar c) && (schar c <=? schar rangeend),
         drop (1 + rangeskip) pattern)
    | None => (chd pattern =? c, drop 1 pattern)
    end.

(** The class has matched: skip to behind its "]". *)
Fixpoint bracket_skip (fuel : nat) (pattern : bytes) (flags : Z) : bytes :=
  match fuel with
  | O => []
  | S f =>
      match pattern with
      | [] => []
      | c :: rest =>
          if c =? ch "]" then rest
          else if (c =? ch "\") && (1 <? List.length pattern)%nat && escapes flags
          then bracket_skip f (drop 1 rest) flags
          else if opens_subexpr pattern then
            let sublen := path_fnmatch_subexpr_len pattern (cnth pattern 1) in
            if (sublen =? 0)%nat then bracket_skip f rest flags
            else bracket_skip f (drop sublen pattern) flags
          else bracket_skip f rest flags
      end
  end.

(** The scan of the members: the pattern behind the class when [c] is in it. *)
Fixpoint bracket_loop (fuel : nat) (pattern : bytes) (at_start neg : bool) (c : Z) (flags : Z)
    : option bytes :=
  match fuel with
  | O => None
  | S f =>
      if (List.length pattern =? 0)%nat then None
      else
        let escaped := (chd pattern =? ch "\") && (1 <? List.length pattern)%nat && escapes flags in
        let pattern := if escaped then drop 1 pattern else pattern in
        if negb escaped && (chd pattern =? ch "]") && negb at_start then None
        else
          let '(res, rest) := bracket_member pattern escaped c in
          if (res && negb neg) || (negb res && neg && (chd rest =? ch "]"))
          then Some (bracket_skip (S (List.length rest)) rest flags)
          else if res && neg then None
          else bracket_loop f rest false neg c flags
  end.

Definition match_bracket (pattern : bytes) (c : Z) (flags : Z) : option bytes :=
  let pattern := drop 1 pattern in
  if (c =? ch "/") && flag_set flags PATH_FNM_PATHNAME then None
  else
    let neg := chd pattern =? ch "!" in
    let pattern := if neg then drop 1 pattern else pattern in
    bracket_loop (S (List.length pattern)) pattern true neg c flags.

(** [match:] *)
Definition match_literal (pattern : bytes) (c : Z) : option bytes :=
  if chd pattern =? c then Some (drop 1 pattern) else None.

(** The switch, but for "*": the pattern left after [c] is consumed, or [fail]. *)
Definition match_one (pattern : bytes) (c : Z) (flags : Z) : option bytes :=
  let p := chd pattern in
  if p =? ch "[" then
    if path_fnmatch_has_close pattern flags then match_bracket pattern c flags
    else match_literal pattern c
  else if p =? ch "\" then
    if escapes flags then
      (if (List.length (drop 1 pattern) =? 0)%nat then None else match_literal (drop 1 pattern) c)
    else match_literal pattern c
  else if p =? ch "?" then
    if (c =? ch "/") && flag_set flags PATH_FNM_PATHNAME then None else Some (drop 1 pattern)
  else match_literal pattern c.

Fixpoint skip_stars (pattern : bytes) : bytes :=
  match pattern with
  | c :: rest => if c =? ch "*" then skip_stars rest else pattern
  | [] => []
  end.

(** A leading period that the pattern does not spell out; [prev] is
    [string[-1]]. *)
Definition hidden_period (pattern : bytes) (prev c : Z) (flags : Z) : bool :=
  (c =? ch ".") && negb (chd pattern =? ch ".") && flag_set flags PATH_FNM_PERIOD
  && negb ((chd pattern =? ch "\") && escapes flags && (1 <? List.length pattern)%nat
           && (cnth pattern 1 =? ch "."))
  && (negb (flag_set flags NOTFIRST) || (flag_set flags PATH_FNM_PATHNAME && (prev =? ch "/"))).

(** The bookmark: the pattern behind the last "*" and the string it was last
    tried on. *)
Record star := Star { star_pattern : bytes; star_string : bytes }.

(** [fail:]: the last "*" takes one more character, [again] goes back to
    [start]. *)
Definition star_fail (again : bytes -> bytes -> Z -> Z -> option star -> option bool)
    (st : option star) (flags : Z) : option bool :=
  match st with
  | Some (Star sp (c :: ss)) =>
      if (c =? ch "/") && flag_set flags PATH_FNM_PATHNAME then Some false
      else again sp ss c flags (Some (Star sp ss))
  | _ => Some false
  end.

(** [start:] with the bookmark; [Some true] is the return of 0. *)
Fixpoint path_fnmatch_loop (fuel : nat) (pattern string : bytes) (prev flags : Z) (st : option star)
    : option bool :=
  match fuel with
  | O => None
  | S f =>
      let fail := star_fail (path_fnmatch_loop f) st in
      match string with
      | [] => if (List.length (skip_stars pattern) =? 0)%nat then Some true else fail flags
      | c :: rest =>
          if (List.length pattern =? 0)%nat then fail flags
          else if hidden_period pattern prev c flags then fail flags
          else
            let flags := Z.lor flags NOTFIRST in
            if chd pattern =? ch "*" then
              let p := skip_stars pattern in
              path_fnmatch_loop f p string prev flags (Some (Star p string))
            else
              match match_one pattern c flags with
              | Some p => path_fnmatch_loop f p rest c flags st
              | None => fail flags
              end
      end
  end.

(** Every pass shortens the string, moves the bookmark or finds a later "*". *)
Definition fnmatch_fuel (pattern string : bytes) : nat :=
  S ((List.length pattern + 2) * ((List.length string + 2) * (List.length string + 2))).

Definition PATH_FNM_NOMATCH : Z := 1.

Definition path_fnmatch (pattern string : bytes) (flags : Z) : option Z :=
  match path_fnmatch_loop (fnmatch_fuel pattern string) pattern string 0 flags None with
  | Some true => Some 0
  | Some false => Some PATH_FNM_NOMATCH
  | None => None
  end.

(** ** The language of a pattern *)

(** What a pattern means, with no bookmark: "*" stands for any text, anything
    else for one character.  Which characters a single element stands for is
    asked of the code's own [match_one]: the language is a specification of
    the treatment of "*", not of "?", escapes and brackets. *)
Inductive wmatch (flags : Z) : bytes -> bytes -> Prop :=
  | wm_nil : wmatch flags [] []
  | wm_skip p s : wmatch flags p s -> wmatch flags (ch "*" :: p) s
  | wm_take p c s : wmatch flags (ch "*" :: p) s -> wmatch flags (ch "*" :: p) (c :: s)
  | wm_one p c s p' : p <> [] -> chd p <> ch "*" -> match_one p c flags = Some p' ->
      wmatch flags p' s -> wmatch flags p (c :: s).

(** The flags [case] and the parameter expansions pass: no pathnames. *)
Definition plain (flags : Z) : Prop :=
  flag_set flags PATH_FNM_PATHNAME = false /\ flag_set flags PATH_FNM_PERIOD = false.

(** What is behind an element of the pattern does not depend on the character
    it matched: every suffix, every byte. *)
Fixpoint suffixes (p : bytes) : list bytes :=
  match p with [] => [[]] | _ :: p' => p :: suffixes p' end.

Definition all_same (l : list bytes) : bool :=
  match l with [] => true | x :: l' => forallb (fun y => bool_decide (y = x)) l' end.

Definition uniform_pattern (flags : Z) (p : bytes) : bool :=
  forallb (fun q => all_same (omap (fun c => match_one q c flags) all_bytes)) (suffixes p).

(** ** Lemmas *)

(** [q] is what is left of [p] after at least one byte. *)
Definition rest_of (p q : bytes) : Prop := exists k, (0 < k)%nat /\ q = drop k p.

Lemma rest_drop p k : (0 < k)%nat -> rest_of p (drop k p).
Proof. intros. by exists k. Qed.

Lemma rest_drop_l p q k : rest_of (drop k p) q -> rest_of p q.
Proof. intros (j & Hj & ->). exists (k + j)%nat. rewrite drop_drop. split; [lia|done]. Qed.

Lemma rest_cons c p q : rest_of p q -> rest_of (c :: p) q.
Proof. intros (j & Hj & ->). exists (S j). split; [lia|done]. Qed.

Lemma rest_one c p : rest_of (c :: p) p.
Proof. exists 1%nat. split; [lia|]. by rewrite skipn_cons. Qed.

Lemma rest_trans p q r : rest_of p q -> rest_of q r -> rest_of p r.
Proof. intros (j & Hj & ->) (k & Hk & ->). exists (j + k)%nat. rewrite drop_drop. split; [lia|done]. Qed.

Lemma rest_length p q : rest_of p q -> (List.length q <= List.length p)%nat.
Proof. intros (k & _ & ->). rewrite length_drop. lia. Qed.

Lemma subexpr_len_bounds p delim : path_fnmatch_subexpr_len p delim <> 0%nat ->
  (4 <= path_fnmatch_subexpr_len p delim)%nat.
Proof.
  unfold path_fnmatch_subexpr_len. intros H. enough (G : forall l i, subexpr_scan l i delim <> 0%nat ->
    (i + 2 <= subexpr_scan l i delim)%nat) by exact (G _ 2%nat H). clear H.
  induction l as [|c l IH]; intros i; [done|]. destruct l as [|d l]; [done|].
  cbn [subexpr_scan] in *. case_test; [lia|]. intros N. specialize (IH (S i) N). lia.
Qed.

#[local] Hint Resolve rest_drop rest_cons rest_one rest_drop_l : core.

Lemma bracket_skip_rest f p flags : p <> [] -> rest_of p (bracket_skip (S f) p flags).
Proof.
  revert p. induction f as [|f IH]; intros p Hp; destruct p as [|c p]; [done| |done|].
  - cbn [bracket_skip]. assert (R : rest_of (c :: p) []).
    { exists (S (List.length p)). split; [lia|]. by rewrite skipn_cons, drop_all. }
    repeat case_test; auto.
  - set (g := S f) in *. cbn [bracket_skip].
    assert (G : forall q, rest_of (c :: p) q -> rest_of (c :: p) (bracket_skip g q flags)).
    { intros [|d q] Hq; [done|]. eapply rest_trans; [exact Hq|]. by apply IH. }
    repeat case_test; try apply G; auto; apply rest_drop + (apply rest_cons, rest_drop);
      zify_bool; lia.
Qed.

Lemma bracket_skip_end f p flags : p <> [] -> (List.length p <= f)%nat ->
  rest_of p (bracket_skip f p flags).
Proof. destruct f; [destruct p; simpl; [done|lia]|]. intros. by apply bracket_skip_rest. Qed.

Lemma range_end_skip p e k : path_fnmatch_range_end p = Some (e, k) -> (0 < k)%nat.
Proof. unfold path_fnmatch_range_end. repeat case_test; intros; simplify_eq; lia. Qed.

Lemma bracket_member_rest p escaped c : p <> [] -> rest_of p (snd (bracket_member p escaped c)).
Proof.
  intros Hp. unfold bracket_member. pose proof (subexpr_len_bounds p (cnth p 1)) as L.
  set (n := path_fnmatch_subexpr_len p (cnth p 1)) in *.
  destruct (path_fnmatch_range_end (drop n p)) as [[e k]|] eqn:R1;
  destruct (path_fnmatch_range_end (drop 1 p)) as [[e' k']|] eqn:R2;
    repeat case_test; cbn [snd]; apply rest_drop; zify_bool; lia.
Qed.

Lemma bracket_loop_rest fuel : forall p at_start neg c flags r,
  bracket_loop fuel p at_start neg c flags = Some r -> rest_of p r \/ r = [].
Proof.
  induction fuel as [|f IH]; intros p at_start neg c flags r; cbn [bracket_loop]; [done|].
  destruct p as [|d p]; [done|]. cbn [List.length Nat.eqb].
  set (esc := (chd (d :: p) =? ch "\") && _ && _).
  set (q := if esc then drop 1 (d :: p) else d :: p).
  assert (Hq : q <> [] /\ (q = d :: p \/ rest_of (d :: p) q)).
  { unfold q. destruct esc eqn:E; [|split; [done|by left]]. unfold esc in E.
    destruct p as [|d' p]; [by rewrite andb_false_r in E|]. split; [done|]. right. apply rest_one. }
  destruct Hq as [Hq0 Hq]. case_test; [done|].
  pose proof (bracket_member_rest q esc c Hq0) as M.
  destruct (bracket_member q esc c) as [res rest]. cbn [snd] in M.
  assert (M' : rest_of (d :: p) rest) by (destruct Hq as [<-|Hq]; [done|by eapply rest_trans]).
  case_test.
  - intros [= <-]. destruct rest as [|x rest]; [by right|left].
    eapply rest_trans; [exact M'|]. exact (bracket_skip_rest (List.length (x :: rest)) (x :: rest) flags ltac:(done)).
  - case_test; [done|]. intros E. apply IH in E as [E| ->]; [left; by eapply rest_trans|by right].
Qed.

(** Matching one character uses up some of the pattern. *)
Lemma match_one_rest p c flags r : p <> [] -> match_one p c flags = Some r -> rest_of p r.
Proof.
  intros Hp. destruct p as [|d p]; [done|].
  assert (N : rest_of (d :: p) []). { exists (S (List.length p)). split; [lia|]. by rewrite skipn_cons, drop_all. }
  assert (L : forall q, q = d :: p \/ rest_of (d :: p) q -> forall r, match_literal q c = Some r -> rest_of (d :: p) r).
  { intros q Hq r'. unfold match_literal. case_test; [|done]. intros [= <-].
    destruct Hq as [->|(k & Hk & ->)]; [apply rest_one|]. rewrite drop_drop. apply rest_drop. lia. }
  unfold match_one. case_test.
  - case_test; [|apply L; by left]. unfold match_bracket. case_test; [done|].
    rewrite !skipn_cons, drop_0. set (q := if chd p =? ch "!" then _ else _).
    assert (Hq : rest_of (d :: p) q).
    { unfold q. case_test; [apply rest_cons, rest_drop; lia|apply rest_one]. }
    intros E. apply bracket_loop_rest in E as [E| ->]; [by eapply rest_trans|done].
  - case_test; [case_test; [case_test; [done|]|]|case_test].
    + apply L. right. rewrite skipn_cons, drop_0. apply rest_one.
    + apply L. by left.
    + case_test; [done|]. intros [= <-]. apply rest_one.
    + apply L. by left.
Qed.

(** *** Flags *)

Lemma flag_set_notfirst flags f : Z.land NOTFIRST f = 0 ->
  flag_set (Z.lor flags NOTFIRST) f = flag_set flags f.
Proof. intros H. unfold flag_set. by rewrite Z.land_lor_distr_l, H, Z.lor_0_r. Qed.

Lemma plain_notfirst flags : plain flags -> plain (Z.lor flags NOTFIRST).
Proof. intros [? ?]. by split; rewrite flag_set_notfirst. Qed.

Lemma escapes_notfirst flags : escapes (Z.lor flags NOTFIRST) = escapes flags.
Proof. unfold escapes. by rewrite flag_set_notfirst. Qed.

Section Flags.
Context (f g : Z) (Hesc : escapes f = escapes g).

Lemma has_close_ext n : forall p, has_close_loop n p f = has_close_loop n p g.
Proof.
  induction n as [|n IH]; intros p; [done|]. cbn [has_close_loop]. rewrite Hesc.
  destruct p; [done|]. repeat case_test; auto.
Qed.

Lemma bracket_skip_ext n : forall p, bracket_skip n p f = bracket_skip n p g.
Proof.
  induction n as [|n IH]; intros p; [done|]. cbn [bracket_skip]. rewrite Hesc.
  destruct p; [done|]. repeat case_test; auto.
Qed.

Lemma bracket_loop_ext n : forall p at_start neg c,
  bracket_loop n p at_start neg c f = bracket_loop n p at_start neg c g.
Proof.
  induction n as [|n IH]; intros p at_start neg c; [done|]. cbn [bracket_loop]. rewrite Hesc.
  destruct (bracket_member _ _ _). rewrite bracket_skip_ext, IH. done.
Qed.

Lemma match_one_ext p c : plain f -> plain g -> match_one p c f = match_one p c g.
Proof.
  intros [Hf _] [Hg _]. unfold match_one, match_bracket, path_fnmatch_has_close.
  by rewrite Hf, Hg, Hesc, has_close_ext, bracket_loop_ext.
Qed.
End Flags.

(** *** The language *)

Section Language.
Context (flags : Z).

Lemma wmatch_starred q s : wmatch flags (ch "*" :: q) s <-> exists v s', s = v ++ s' /\ wmatch flags q s'.
Proof.
  split.
  - intros H. remember (ch "*" :: q) as p eqn:E. induction H; simplify_eq; try done; [by eexists [], _|].
    destruct IHwmatch as (v & s' & -> & ?); [done|]. by exists (c :: v), s'.
  - intros (v & s' & -> & H). induction v as [|c v IH]; simpl; [by constructor|by apply wm_take].
Qed.

Lemma wmatch_skip_stars p s : chd p = ch "*" ->
  wmatch flags p s <-> exists v s', s = v ++ s' /\ wmatch flags (skip_stars p) s'.
Proof.
  destruct p as [|c p]; [done|]. change (chd (c :: p)) with c. intros ->. revert s.
  induction p as [|d p IH]; intros s; rewrite wmatch_starred; [done|].
  cbn [skip_stars]. change (ch "*" =? ch "*") with true. cbn iota.
  destruct (d =? ch "*") eqn:D; [|done]. apply Z.eqb_eq in D as ->.
  split; [|by intros H; exists [], s; split; [|apply IH]; cbn [skip_stars] in *].
  intros (v & s' & -> & H). apply IH in H as (w & s2 & -> & H).
  exists (v ++ w), s2. rewrite <-app_assoc. split; [done|]. exact H.
Qed.

Lemma skip_stars_head p : chd p <> ch "*" -> skip_stars p = p.
Proof.
  destruct p as [|c p]; [done|]. change (chd (c :: p)) with c. intros Hc. cbn [skip_stars].
  by rewrite (proj2 (Z.eqb_neq _ _) Hc).
Qed.

Lemma wmatch_nil p : wmatch flags p [] <-> skip_stars p = [].
Proof.
  split.
  - intros H. remember [] as s eqn:E. induction H; simplify_eq; [done|]. simpl. auto.
  - induction p as [|c p IH]; [constructor|]. cbn [skip_stars]. destruct (c =? ch "*") eqn:C; [|done].
    apply Z.eqb_eq in C as ->. constructor. auto.
Qed.

Lemma wmatch_one p c s : p <> [] -> chd p <> ch "*" ->
  wmatch flags p (c :: s) <-> exists p', match_one p c flags = Some p' /\ wmatch flags p' s.
Proof.
  intros Hp Hs. split; [|intros (p' & E & H); by eapply wm_one].
  intros H. inversion H; simplify_eq; [by destruct Hs..|eauto].
Qed.

(** The elements of [q] consume [u]; [p] is left. *)
Fixpoint run (q u : bytes) : option bytes :=
  match u with
  | [] => Some q
  | c :: u' =>
      if bool_decide (q = [] \/ chd q = ch "*") then None
      else match match_one q c flags with Some q' => run q' u' | None => None end
  end.

Lemma run_snoc q u p c p' : run q u = Some p -> p <> [] -> chd p <> ch "*" ->
  match_one p c flags = Some p' -> run q (u ++ [c]) = Some p'.
Proof.
  intros Hrun Hp Hs Hm. revert q Hrun. induction u as [|a u IH]; intros q; simpl.
  - intros [= ->]. rewrite bool_decide_false by tauto. by rewrite Hm.
  - case_bool_decide; [done|]. destruct (match_one q a flags); [|done]. apply IH.
Qed.

Definition uniform (p : bytes) : Prop :=
  forall k c c' r r', is_byte c -> is_byte c' -> match_one (drop k p) c flags = Some r ->
    match_one (drop k p) c' flags = Some r' -> r = r'.

Lemma uniform_rest p q : uniform p -> rest_of p q -> uniform q.
Proof. intros U (j & _ & ->) k. rewrite drop_drop. apply U. Qed.

(** Why one bookmark is enough: what an earlier "*" could still take, the
    later one can take as well. *)
Lemma later_star q u s p c v s' :
  uniform q -> Forall is_byte (u ++ s) -> run q u = Some p -> chd p = ch "*" ->
  u ++ s = c :: v ++ s' -> wmatch flags q s' ->
  wmatch flags p s.
Proof.
  revert q c v s'. induction u as [|a u IH]; intros q c v s' U HB Hrun Hp Es Hq; simpl in *.
  - simplify_eq. apply wmatch_skip_stars; [done|]. apply wmatch_skip_stars in Hq; [|done].
    destruct Hq as (w & s2 & -> & Hq). exists ((c :: v) ++ w), s2. by rewrite <-app_assoc.
  - case_bool_decide as B; [done|]. destruct (match_one q a flags) as [q'|] eqn:M; [|done].
    injection Es as -> Es. inversion_clear HB as [|? ? Hc HB']. destruct s' as [|d s'].
    + apply wmatch_nil in Hq. exfalso. rewrite skip_stars_head in Hq; tauto.
    + apply wmatch_one in Hq as (q2 & M2 & Hq); [|tauto..].
      assert (is_byte d). { rewrite Es in HB'. apply Forall_app in HB' as [_ HB']. by inversion HB'. }
      assert (q2 = q') as -> by (eapply (U 0%nat d c); rewrite ?drop_0; eauto).
      assert (R : rest_of q q') by (eapply match_one_rest; [tauto|exact M]).
      destruct (v ++ [d]) as [|c2 v2] eqn:V; [by destruct v|].
      eapply (IH q' c2 v2 s'); eauto using uniform_rest.
      change (c2 :: v2 ++ s') with ((c2 :: v2) ++ s'). by rewrite <-V, <-app_assoc.
Qed.

End Language.

(** *** The loop *)

Section Loop.
Context (flags : Z) (Hplain : plain flags) (S : nat).

(** What the loop still has to find out. *)
Definition target (p s : bytes) (st : option star) : Prop :=
  wmatch flags p s \/
  match st with
  | None => False
  | Some (Star q t) => exists c v s', t = c :: v ++ s' /\ wmatch flags q s'
  end.

(** Where the bookmark stands: it was at [t], and its pattern got to [p]. *)
Definition booked (p s : bytes) (st : option star) : Prop :=
  match st with
  | None => True
  | Some (Star q t) => exists u, t = u ++ s /\ run flags q u = Some p /\ Forall is_byte t
                                 /\ (List.length p <= List.length q)%nat
  end.

Definition book_uniform (p : bytes) (st : option star) : Prop :=
  uniform flags p /\ match st with None => True | Some (Star q _) => uniform flags q end.

(** The fuel a state needs. *)
Definition measure (p s : bytes) (st : option star) : nat :=
  match st with
  | None => (List.length p + 1) * ((S + 2) * (S + 2)) + S * (S + 2) + List.length s
  | Some (Star q t) => List.length q * ((S + 2) * (S + 2)) + List.length t * (S + 2) + List.length s
  end.

Definition good (r : option bool) (U T : Prop) : Prop :=
  exists v, r = Some v /\ (v = true -> T) /\ (U -> T -> v = true).

Lemma good_imp r (U U' T T' : Prop) : good r U T -> (T -> T') -> (U' -> U) -> (U' -> T' -> T) -> good r U' T'.
Proof. intros (v & -> & H1 & H2) ? ? ?. exists v. split_and!; auto. Qed.

Lemma book_length p s st : booked p s st -> (List.length s <= S)%nat ->
  match st with Some (Star _ t) => (List.length t <= S)%nat | None => True end ->
  match st with Some (Star _ t) => (List.length s <= List.length t)%nat | None => True end.
Proof. destruct st as [[q t]|]; [|done]. intros (u & -> & _) _ _. rewrite length_app. lia. Qed.

Lemma skip_stars_suffix p : exists k, skip_stars p = drop k p.
Proof.
  induction p as [|c p [k IH]]; [by exists 0%nat|]. cbn [skip_stars]. case_test; [|by exists 0%nat].
  exists (Datatypes.S k). done.
Qed.

Lemma skip_stars_rest p : p <> [] -> chd p = ch "*" -> rest_of p (skip_stars p).
Proof.
  destruct p as [|c p]; [done|]. intros _. change (chd (c :: p)) with c. intros ->.
  cbn [skip_stars]. change (ch "*" =? ch "*") with true. cbn iota.
  destruct (skip_stars_suffix p) as [k ->]. exists (Datatypes.S k). split; [lia|done].
Qed.

(** A later "*" outweighs everything the string can still cost. *)
Lemma weight_later a m x y : (a < m)%nat -> (x <= y)%nat ->
  (a * ((S + 2) * (S + 2)) + x * (S + 2) + x < m * ((S + 2) * (S + 2)) + y * (S + 2) + x)%nat.
Proof.
  intros Ha Hx. assert ((a + 1) * ((S + 2) * (S + 2)) <= m * ((S + 2) * (S + 2)))%nat
    by (apply Nat.mul_le_mono_r; lia).
  assert (x * (S + 2) <= y * (S + 2))%nat by (apply Nat.mul_le_mono_r; lia). nia.
Qed.

Lemma hidden_plain p prev c f : plain f -> hidden_period p prev c f = false.
Proof. intros [_ H]. unfold hidden_period. rewrite H. by rewrite andb_false_r. Qed.

Lemma loop_correct fuel : forall p s prev f st,
  plain f -> escapes f = escapes flags -> booked p s st ->
  (List.length s <= S)%nat -> match st with Some (Star _ t) => (List.length t <= S)%nat | None => True end ->
  (measure p s st < fuel)%nat -> Forall is_byte s ->
  good (path_fnmatch_loop fuel p s prev f st) (book_uniform p st) (target p s st).
Proof.
  induction fuel as [|n IH]; intros p s prev f st Hf He Hb Hs Ht Hm HB; [lia|].
  pose proof (book_length p s st Hb Hs Ht) as Hlen. cbn [path_fnmatch_loop].
  set (fail := star_fail (path_fnmatch_loop n) st).
  assert (Hfail : forall fl, plain fl -> escapes fl = escapes flags -> ~ wmatch flags p s ->
    good (fail fl) (book_uniform p st) (target p s st)).
  { intros fl Hfl Hfe Hno. unfold fail, star_fail, target. destruct st as [[q [|c t]]|].
    - exists false. split_and!; [done..|]. intros _ [?|(? & ? & ? & ? & _)]; done.
    - rewrite (proj1 Hfl), andb_false_r. destruct Hb as (u & Et & Hrun & HBt & Hq).
      apply (good_imp _ (book_uniform q (Some (Star q t))) _ (target q t (Some (Star q t)))).
      + apply IH; try done; simpl in *; [|lia|lia| |by inversion HBt].
        * exists []. split_and!; [done|done|by inversion HBt|lia].
        * nia.
      + unfold target. intros [H|(d & v & s' & -> & H)]; right.
        * by exists c, [], t.
        * by exists c, (d :: v), s'.
      + intros [_ ?]. done.
      + intros _ [?|(d & v & s' & [= <- Et2] & H)]; [done|]. unfold target.
        destruct v as [|d v]; [left; by subst|right]. by exists d, v, s'.
    - exists false. split_and!; [done..|]. intros _ [?|[]]. done. }
  assert (Hne : forall fl, plain (Z.lor fl NOTFIRST) <-> plain fl).
  { intros fl. unfold plain. by rewrite !flag_set_notfirst. }
  destruct s as [|c rest].
  { destruct (skip_stars p) as [|x l] eqn:E; cbn [List.length Nat.eqb].
    - exists true. split_and!; [done| |done]. intros _. left. by apply wmatch_nil.
    - apply Hfail; [done..|]. rewrite wmatch_nil. by rewrite E. }
  destruct p as [|d p]; cbn [List.length Nat.eqb].
  { apply Hfail; [done..|]. intros H. inversion H. done. }
  rewrite hidden_plain by done. set (P := d :: p) in *.
  assert (Pf : plain (Z.lor f NOTFIRST)) by (by apply plain_notfirst).
  assert (Pe : escapes (Z.lor f NOTFIRST) = escapes flags) by (by rewrite escapes_notfirst).
  inversion_clear HB as [|? ? Hc HB'].
  destruct (chd P =? ch "*") eqn:Star0.
  - (* a later star *) apply Z.eqb_eq in Star0.
    pose proof (skip_stars_rest P ltac:(done) Star0) as R. pose proof (rest_length _ _ R) as RL.
    destruct R as (k & Hk & Ek).
    assert (RL' : (List.length (skip_stars P) < List.length P)%nat).
    { rewrite Ek, length_drop. unfold P; simpl; lia. }
    apply (good_imp _ (book_uniform (skip_stars P) (Some (Star (skip_stars P) (c :: rest)))) _
             (target (skip_stars P) (c :: rest) (Some (Star (skip_stars P) (c :: rest))))).
    + apply IH; try done; [| |by constructor].
      { exists []. split_and!; [done|done|by constructor|lia]. }
      unfold measure in Hm |- *. set (l := List.length (skip_stars P)) in *.
      set (x := List.length (c :: rest)) in *. destruct st as [[q t]|].
      * destruct Hb as (u & _ & _ & _ & Hq).
        pose proof (weight_later l (List.length q) x (List.length t)). lia.
      * pose proof (weight_later l (List.length P + 1) x S). lia.
    + unfold target. intros H. left. apply wmatch_skip_stars; [done|].
      destruct H as [H|(c' & v & s' & [= <- ->] & H)]; [by exists [], (c :: rest)|by exists (c :: v), s'].
    + intros [U _]. assert (uniform flags (skip_stars P)) by (apply (uniform_rest flags P); [done|by exists k]).
      done.
    + intros [U Uq] [H|H]; unfold target.
      * apply wmatch_skip_stars in H as (v & s' & E & H); [|done].
        destruct v as [|c' v]; [left; by rewrite E|right]. by exists c', v, s'.
      * destruct st as [[q t]|]; [|done]. destruct H as (c' & v & s' & E & H).
        destruct Hb as (u & Et & Hrun & HBt & _). rewrite Et in E, HBt.
        pose proof (later_star flags q u (c :: rest) P c' v s' Uq HBt Hrun Star0 E H) as W.
        apply wmatch_skip_stars in W as (w & s2 & E2 & W); [|done].
        destruct w as [|c2 w]; [left; by rewrite E2|right]. by exists c2, w, s2.
  - (* one character *) apply Z.eqb_neq in Star0.
    rewrite (match_one_ext (Z.lor f NOTFIRST) flags) by (done || by rewrite escapes_notfirst).
    assert (W : wmatch flags P (c :: rest) <-> exists p', match_one P c flags = Some p' /\ wmatch flags p' rest)
      by (by apply wmatch_one).
    destruct (match_one P c flags) as [p'|] eqn:M.
    2: { apply Hfail; [done..|]. rewrite W. by intros (p' & ? & _). }
    pose proof (match_one_rest P c flags p' ltac:(done) M) as R.
    pose proof (rest_length _ _ R) as RL. destruct R as (k & Hk & Ek).
    apply (good_imp _ (book_uniform p' st) _ (target p' rest st)).
    + apply IH; try done; [|simpl in *; lia|].
      * destruct st as [[q t]|]; [|done]. destruct Hb as (u & Et & Hrun & HBt & Hq).
        exists (u ++ [c]). split_and!; [by rewrite <-app_assoc|by apply (run_snoc flags q u P)|done|lia].
      * unfold measure in Hm |- *. destruct st as [[q t]|]; simpl in *; nia.
    + unfold target. intros [H|H]; [left|by right]. apply W. eauto.
    + intros [U Uq]. split; [|done]. apply (uniform_rest flags P); [done|by exists k].
    + intros _ [H|H]; [left|by right]. apply W in H as (? & [= <-] & H). done.
Qed.

End Loop.

Lemma suffixes_drop p k : In (drop k p) (suffixes p).
Proof.
  revert k. induction p as [|c p IH]; intros [|k]; simpl; auto.
Qed.

Lemma all_same_spec l x y : all_same l = true -> In x l -> In y l -> x = y.
Proof.
  destruct l as [|z l]; [done|]. cbn [all_same]. rewrite forallb_forall. intros H.
  assert (G : forall w, In w (z :: l) -> w = z).
  { intros w [->|Hw]; [done|]. specialize (H w Hw). by apply bool_decide_eq_true in H. }
  intros Hx Hy. by rewrite (G x Hx), (G y Hy).
Qed.

Lemma uniform_pattern_spec flags p : uniform_pattern flags p = true -> uniform flags p.
Proof.
  unfold uniform_pattern. rewrite forallb_forall. intros H k c c' r r' Hc Hc' M M'.
  apply (all_same_spec _ _ _ (H _ (suffixes_drop p k))); apply list_elem_of_In, list_elem_of_omap.
  - exists c. split; [|done]. by apply list_elem_of_In, elem_all_bytes.
  - exists c'. split; [|done]. by apply list_elem_of_In, elem_all_bytes.
Qed.

Lemma match_literal_rest p c r : match_literal p c = Some r -> r = drop 1 p.
Proof. unfold match_literal. case_test; [|done]. by intros [= <-]. Qed.

Lemma no_bracket_uniform flags p : ~ In (ch "[") p -> uniform flags p.
Proof.
  intros Hno k c c' r r' _ _. set (q := drop k p).
  assert (Hq : (chd q =? ch "[") = false).
  { apply Z.eqb_neq. intros E. apply Hno. destruct q as [|d q'] eqn:Q; [done|].
    change (chd (d :: q')) with d in E. subst d. rewrite <-(take_drop k p). fold q. rewrite Q.
    apply in_or_app. right. by left. }
  unfold match_one. rewrite Hq. repeat case_test; try done; intros M M';
    repeat match goal with H : match_literal _ _ = Some _ |- _ => apply match_literal_rest in H end;
    congruence.
Qed.

(** ** Properties *)

(** C5: the matcher decides the language of the pattern.  With the flags
    [case] and the parameter expansions use, it always ends, within the fuel
    given; it reports a match only for a string in the language; and it finds
    every match -- one bookmark, instead of recursion, loses none -- for every
    pattern without a bracket and every pattern whose brackets end at the same
    "]" whatever they match. *)
Theorem path_fnmatch_decides (flags : Z) (pattern string : bytes) :
  plain flags -> Forall is_byte string ->
  exists r, path_fnmatch pattern string flags = Some r
    /\ (r = 0 \/ r = PATH_FNM_NOMATCH)
    /\ (r = 0 -> wmatch flags pattern string)
    /\ (~ In (ch "[") pattern \/ uniform_pattern flags pattern = true ->
        wmatch flags pattern string -> r = 0).
Proof.
  intros Hp HB. unfold path_fnmatch.
  destruct (loop_correct flags Hp (List.length string) (fnmatch_fuel pattern string)
    pattern string 0 flags None) as (v & -> & H1 & H2); try done.
  { unfold fnmatch_fuel, measure. nia. }
  exists (if v then 0 else PATH_FNM_NOMATCH). split; [by destruct v|]. split; [destruct v; auto|]. split.
  - destruct v; [|done]. intros _. destruct (H1 eq_refl) as [?|[]]. done.
  - intros U W. rewrite H2; [done| |by left]. split; [|done].
    destruct U as [U|U]; [by apply no_bracket_uniform|by apply uniform_pattern_spec].
Qed.

Lemma path_fnmatch_decides_witness :
  uniform_pattern 0 (b "*[!a-c]?*.[[:digit:]]") = true /\
  path_fnmatch (b "*[!a-c]?*.[[:digit:]]") (b "abxy.tar.7") 0 = Some 0 /\
  exists r, path_fnmatch (b "*[!a-c]?*.[[:digit:]]") (b "abxy.tar.7") 0 = Some r
    /\ (r = 0 \/ r = PATH_FNM_NOMATCH)
    /\ (r = 0 -> wmatch 0 (b "*[!a-c]?*.[[:digit:]]") (b "abxy.tar.7"))
    /\ (~ In (ch "[") (b "*[!a-c]?*.[[:digit:]]") \/ uniform_pattern 0 (b "*[!a-c]?*.[[:digit:]]") = true ->
        wmatch 0 (b "*[!a-c]?*.[[:digit:]]") (b "abxy.tar.7") -> r = 0).
Proof.
  split; [vm_compute; reflexivity|]. split; [vm_compute; reflexivity|].
  apply (path_fnmatch_decides 0 (b "*[!a-c]?*.[[:digit:]]") (b "abxy.tar.7")).
  - split; reflexivity.
  - repeat (constructor; [vm_compute; split; [discriminate|reflexivity]|]). constructor.
Defined.

(** A pattern without a bracket, as a client of the matcher sees it *)
Lemma path_fnmatch_simple (pattern string : bytes) :
  Forall is_byte string -> ~ In (ch "[") pattern ->
  exists r, path_fnmatch pattern string 0 = Some r /\ (r = 0 <-> wmatch 0 pattern string).
Proof.
  intros HB NB. unfold path_fnmatch.
  destruct (loop_correct 0 (conj eq_refl eq_refl) (List.length string) (fnmatch_fuel pattern string)
    pattern string 0 0 None) as (v & -> & H1 & H2); try done.
  { unfold fnmatch_fuel, measure. nia. }
  exists (if v then 0 else PATH_FNM_NOMATCH). split; [by destruct v|]. split.
  - destruct v; [|done]. intros _. destruct (H1 eq_refl) as [?|[]]. done.
  - intros M. rewrite H2; [done| |by left]. split; [by apply no_bracket_uniform|done].
Qed.

(** Quoting every character, as expansion does for quoted text. *)
Fixpoint quote_all (s : bytes) : bytes :=
  match s with [] => [] | c :: s' => ch "\" :: c :: quote_all s' end.

(** Quoting the characters [q] picks. *)
Fixpoint quote_some (q : Z -> bool) (s : bytes) : bytes :=
  match s with [] => [] | c :: s' => (if q c then [ch "\"; c] else [c]) ++ quote_some q s' end.

Lemma quote_some_all s : quote_some (fun _ => true) s = quote_all s.
Proof. induction s as [|c s IH]; [done|]. simpl. by rewrite IH. Qed.

(** Every character that means something in a pattern is quoted. *)
Definition quotes_special (q : Z -> bool) : Prop :=
  q (ch "\") = true /\ q (ch "*") = true /\ q (ch "?") = true /\ q (ch "[") = true.

Lemma match_one_quoted q c d s flags : quotes_special q -> escapes flags = true ->
  chd (quote_some q (c :: s)) <> ch "*" /\
  match_one (quote_some q (c :: s)) d flags = if c =? d then Some (quote_some q s) else None.
Proof.
  intros (Q1 & Q2 & Q3 & Q4) He. cbn [quote_some]. destruct (q c) eqn:Qc; cbn [app].
  - split; [done|]. unfold match_one. rewrite !chd_cons. cbn iota.
    change (ch "\" =? ch "[") with false. change (ch "\" =? ch "\") with true. cbn iota.
    by rewrite He.
  - assert (forall x, q x = true -> (c =? x) = false) as N.
    { intros x Hx. apply Z.eqb_neq. intros ->. congruence. }
    split; [rewrite chd_cons; by apply Z.eqb_neq, N|].
    unfold match_one. rewrite chd_cons, !N by done. unfold match_literal. by rewrite chd_cons.
Qed.

Lemma quoted_loop q fuel : quotes_special q -> forall s t prev flags, plain flags -> escapes flags = true ->
  (List.length t < fuel)%nat ->
  path_fnmatch_loop fuel (quote_some q s) t prev flags None = Some (bool_decide (s = t)).
Proof.
  intros Q. induction fuel as [|n IH]; intros s t prev flags Hp He Hf; [lia|]. cbn [path_fnmatch_loop].
  destruct s as [|c s]; [by destruct t|].
  assert ((List.length (quote_some q (c :: s)) =? 0)%nat = false) as L by (simpl; by destruct (q c)).
  destruct (match_one_quoted q c (chd t) s (Z.lor flags NOTFIRST) Q) as [St Mo];
    [by rewrite escapes_notfirst|].
  destruct t as [|d t].
  - assert (skip_stars (quote_some q (c :: s)) = quote_some q (c :: s)) as ->.
    { apply Z.eqb_neq in St. destruct (quote_some q (c :: s)) as [|x r]; [done|].
      rewrite chd_cons in St. simpl. by rewrite St. }
    by rewrite L.
  - rewrite L, hidden_plain by done. apply Z.eqb_neq in St. rewrite St. rewrite chd_cons in Mo. rewrite Mo.
    destruct (c =? d) eqn:E.
    + apply Z.eqb_eq in E as ->. rewrite IH; [|by apply plain_notfirst|by rewrite escapes_notfirst|simpl in Hf; lia].
      f_equal. apply bool_decide_ext. split; congruence.
    + cbn [star_fail]. rewrite bool_decide_false; [done|]. apply Z.eqb_neq in E. congruence.
Qed.

(** A pattern whose special characters are quoted matches the text it quotes. *)
Lemma path_fnmatch_some q (s t : bytes) (flags : Z) :
  quotes_special q -> plain flags -> escapes flags = true ->
  path_fnmatch (quote_some q s) t flags = Some (if decide (s = t) then 0 else PATH_FNM_NOMATCH).
Proof.
  intros Q Hp He. unfold path_fnmatch.
  rewrite quoted_loop by (done || unfold fnmatch_fuel; nia). by case_bool_decide; case_decide.
Qed.

(** Quoted text is literal: a pattern with a backslash before every
    character, special or not, matches exactly the text it quotes. *)
Theorem path_fnmatch_quoted (s t : bytes) (flags : Z) :
  plain flags -> escapes flags = true ->
  path_fnmatch (quote_all s) t flags = Some (if decide (s = t) then 0 else PATH_FNM_NOMATCH).
Proof.
  intros Hp He. rewrite <-quote_some_all. by apply path_fnmatch_some.
Qed.

Lemma path_fnmatch_quoted_witness :
  path_fnmatch (quote_all (b "*[a]\")) (b "*[a]\") 0 = Some 0 /\
  path_fnmatch (quote_all (b "*")) (b "x") 0 = Some PATH_FNM_NOMATCH.
Proof.
  split.
  - exact (path_fnmatch_quoted (b "*[a]\") (b "*[a]\") 0 (conj eq_refl eq_refl) eq_refl).
  - exact (path_fnmatch_quoted (b "*") (b "x") 0 (conj eq_refl eq_refl) eq_refl).
Defined.

(** ** Behaviour worth knowing *)

(** A range that ends in a backslash or in "[" is read in two ways: the class
    closes at another "]" when an earlier member has already matched. *)
Example bracket_reading_differs :
  path_fnmatch (b "[xA-\]]") (b "x") 0 = Some 0 /\ path_fnmatch (b "[xA-\]]") (b "B]") 0 = Some 0
  /\ path_fnmatch (b "[xA-\]]") (b "B") 0 = Some PATH_FNM_NOMATCH.
Proof. vm_compute. auto. Qed.
