(* ===== verification/Byteset.v ===== *)
(** * Sets of bytes (lib/byteset)

    A set is the array [unsigned char set[32]] of lib/byteset.h: bit [c & 7]
    of byte [c >> 3] says whether [c] is a member.  [byteset_has] reads a bit,
    the other operations write the array; each law below says what an
    operation does to the members. *)

From S2P Require Import Prelude Fnmatch.

Definition BYTESET_SIZE : nat := 32.

(** ** The operations *)

Definition byteset_zero : bytes := replicate BYTESET_SIZE 0.

Definition byteset_add (set : bytes) (c : Z) : bytes :=
  let c := Z.land c 255 in
  alter (fun x => Z.lor x (u8 (Z.shiftl 1 (Z.land c 7)))) (Z.to_nat (Z.shiftr c 3)) set.

Definition byteset_has (set : bytes) (c : Z) : bool :=
  let c := Z.land c 255 in
  c_true (Z.land (Z.shiftr (cnth set (Z.to_nat (Z.shiftr c 3))) (Z.land c 7)) 1).

(** The values [lo], [lo + 1], ... below [lo + n] *)
Definition upto (lo : Z) (n : nat) : list Z := List.map (fun i => lo + Z.of_nat i) (List.seq 0 n).

(** -1 when the range is reversed, and then nothing is added. *)
Definition byteset_range (set : bytes) (lo hi : Z) : option bytes :=
  if hi <? lo then None
  else Some (fold_left byteset_add (upto lo (Z.to_nat (Z.min hi 255 - lo + 1))) set).

(** The test each name of a class stands for *)
Definition class_test (name : bytes) : option (Z -> bool) :=
  if bool_decide (name = b "upper") then Some c_isupper
  else if bool_decide (name = b "lower") then Some c_islower
  else if bool_decide (name = b "alpha") then Some c_isalpha
  else if bool_decide (name = b "digit") then Some c_isdigit
  else if bool_decide (name = b "alnum") then Some c_isalnum
  else if bool_decide (name = b "punct") then Some c_ispunct
  else if bool_decide (name = b "graph") then Some c_isgraph
  else if bool_decide (name = b "print") then Some c_isprint
  else if bool_decide (name = b "cntrl") then Some c_iscntrl
  else if bool_decide (name = b "blank") then Some c_isblank
  else if bool_decide (name = b "space") then Some c_isspace
  else if bool_decide (name = b "xdigit") then Some c_isxdigit
  else None.

(** [if(fn(c)) byteset_add(set, c)] for the values of a list *)
Definition add_where (f : Z -> bool) (set : bytes) (l : list Z) : bytes :=
  fold_left (fun set c => if f c then byteset_add set c else set) l set.

Definition byteset_class (set : bytes) (name : bytes) : option bytes :=
  match class_test name with
  | Some f => Some (add_where f set (upto 0 256))
  | None => None
  end.

Definition byteset_invert (set : bytes) : bytes := List.map (fun x => u8 (Z.lnot x)) set.

Definition add_other_case (off : Z) (set : bytes) (l : list Z) : bytes :=
  fold_left (fun set c => if byteset_has set c then byteset_add set (c + off) else set) l set.

Definition byteset_icase (set : bytes) : bytes :=
  add_other_case 32 (add_other_case (-32) set (upto 97 26)) (upto 65 26).

(** The smallest member not below [from], or -1 *)
Definition byteset_next (set : bytes) (from : Z) : Z :=
  let from := if from <? 0 then 0 else from in
  default (-1) (List.find (byteset_has set) (upto from (Z.to_nat (256 - from)))).

(** ** Well-formed arrays *)

Record set_ok (set : bytes) : Prop := {
  set_length : List.length set = BYTESET_SIZE;
  set_bytes : Forall is_byte set
}.

Lemma byte_split c : is_byte c ->
  Z.land c 255 = c /\ Z.shiftr c 3 = c / 8 /\ Z.land c 7 = c mod 8.
Proof.
  intros [L H]. split; [|split].
  - change 255 with (Z.ones 8). rewrite Z.land_ones by lia. apply Z.mod_small. lia.
  - by rewrite Z.shiftr_div_pow2.
  - change 7 with (Z.ones 3). by rewrite Z.land_ones by lia.
Qed.

(** [byteset_has] is the bit of the array. *)
Lemma has_testbit set c : is_byte c ->
  byteset_has set c = Z.testbit (cnth set (Z.to_nat (c / 8))) (c mod 8).
Proof.
  intros C. unfold byteset_has. destruct (byte_split c C) as [-> [-> ->]].
  rewrite Z.testbit_odd, <-Z.bit0_odd.
  change 1 with (Z.ones 1). unfold c_true.
  generalize (Z.shiftr (cnth set (Z.to_nat (c / 8))) (c mod 8)). intros z.
  rewrite Z.land_ones by lia. change (2 ^ 1) with 2. rewrite Zmod_odd, Z.bit0_odd.
  by destruct (Z.odd z).
Qed.

Lemma testbit_high z i : is_byte z -> 8 <= i -> Z.testbit z i = false.
Proof.
  intros [L H] I. destruct (Z.eq_dec z 0) as [-> |N]; [apply Z.bits_0|].
  apply Z.bits_above_log2; [lia|]. apply Z.log2_lt_pow2; [lia|].
  apply Z.lt_le_trans with (2 ^ 8); [lia|]. apply Z.pow_le_mono_r; lia.
Qed.

Lemma lor_byte x y : is_byte x -> is_byte y -> is_byte (Z.lor x y).
Proof.
  intros X Y. assert (0 <= Z.lor x y) by (apply Z.lor_nonneg; unfold is_byte in *; lia).
  split; [done|]. destruct (Z.eq_dec (Z.lor x y) 0) as [-> |N]; [lia|].
  apply (Z.log2_lt_pow2 _ 8); [lia|]. rewrite Z.log2_lor by (unfold is_byte in *; lia).
  assert (A : forall z, is_byte z -> Z.log2 z < 8).
  { intros z [? ?]. destruct (Z.eq_dec z 0) as [-> |]; [done|]. apply Z.log2_lt_pow2; lia. }
  apply Z.max_lub_lt; auto.
Qed.

Lemma zero_ok : set_ok byteset_zero.
Proof. split; [reflexivity|]. apply Forall_replicate. done. Qed.

Lemma add_ok set c : set_ok set -> set_ok (byteset_add set c).
Proof.
  intros [L B]. split; unfold byteset_add; [by rewrite length_alter|].
  apply Forall_alter; [done|]. intros x _ X. apply lor_byte; [done|apply u8_range].
Qed.

Lemma invert_ok set : set_ok set -> set_ok (byteset_invert set).
Proof.
  intros [L B]. split; unfold byteset_invert; [by rewrite length_map|].
  rewrite Forall_forall. intros x X. apply list_elem_of_In, in_map_iff in X as (y & <- & _).
  apply u8_range.
Qed.

Create HintDb byteset.
#[export] Hint Resolve zero_ok add_ok invert_ok : byteset.

(** ** What each operation does to the members *)

Lemma zero_has c : is_byte c -> byteset_has byteset_zero c = false.
Proof.
  intros C. rewrite has_testbit, cnth_lookup by done.
  destruct (byteset_zero !! _) as [v|] eqn:V; [|apply Z.bits_0].
  apply lookup_replicate in V as [-> _]. apply Z.bits_0.
Qed.

Lemma byteset_add_has set c x : set_ok set -> is_byte c -> is_byte x ->
  byteset_has (byteset_add set c) x = (x =? c) || byteset_has set x.
Proof.
  intros [L _] C X. rewrite !has_testbit by done. unfold byteset_add.
  destruct (byte_split c C) as [-> [-> ->]]. rewrite !cnth_lookup.
  pose proof (Z.div_mod x 8). pose proof (Z.div_mod c 8).
  pose proof (Z.mod_pos_bound x 8). pose proof (Z.mod_pos_bound c 8). unfold is_byte in *.
  assert (x / 8 < 32) by (apply Z.div_lt_upper_bound; lia).
  assert (0 <= x / 8) by (apply Z.div_pos; lia). assert (0 <= c / 8) by (apply Z.div_pos; lia).
  rewrite list_lookup_alter. case_decide as D.
  - assert (E : c / 8 = x / 8) by lia.
    destruct (lookup_lt_is_Some_2 set (Z.to_nat (x / 8))) as [v V]; [unfold BYTESET_SIZE in L; lia|].
    rewrite D, V. simpl default. rewrite Z.lor_spec.
    assert (T : Z.testbit (u8 (Z.shiftl 1 (c mod 8))) (x mod 8) = (x =? c)).
    { rewrite Z.shiftl_1_l. unfold u8. rewrite Z.mod_small.
      - rewrite Z.pow2_bits_eqb by lia. destruct (Z.eqb_spec x c), (Z.eqb_spec (c mod 8) (x mod 8)); lia.
      - split; [apply Z.pow_nonneg; lia|]. apply Z.pow_lt_mono_r; lia. }
    rewrite T. apply orb_comm.
  - destruct (Z.eqb_spec x c) as [-> |]; [lia|]. done.
Qed.

Lemma byteset_invert_has set c : set_ok set -> is_byte c ->
  byteset_has (byteset_invert set) c = negb (byteset_has set c).
Proof.
  intros [L _] C. rewrite !has_testbit by done. rewrite !cnth_lookup. unfold byteset_invert.
  rewrite list_lookup_fmap. unfold is_byte in C.
  destruct (lookup_lt_is_Some_2 set (Z.to_nat (c / 8))) as [v V].
  { unfold BYTESET_SIZE in L. assert (c / 8 < 32) by (apply Z.div_lt_upper_bound; lia).
    assert (0 <= c / 8) by (apply Z.div_pos; lia). lia. }
  rewrite V. cbn. unfold u8. pose proof (Z.mod_pos_bound c 8).
  rewrite Z.mod_pow2_bits_low, Z.lnot_spec by lia. done.
Qed.

Lemma elem_upto lo n x : In x (upto lo n) <-> lo <= x < lo + Z.of_nat n.
Proof.
  unfold upto. rewrite in_map_iff. split.
  - intros (i & <- & I). apply in_seq in I. lia.
  - intros X. exists (Z.to_nat (x - lo)). rewrite in_seq. lia.
Qed.

Lemma existsb_ext_in {A} (f g : A -> bool) l :
  (forall a, In a l -> f a = g a) -> existsb f l = existsb g l.
Proof.
  induction l as [|a l IH]; intros E; [done|]. simpl.
  rewrite (E a) by (by left). f_equal. apply IH. intros. apply E. by right.
Qed.

(** Adding the values of a list that pass a test *)
Lemma add_where_spec f l set : Forall is_byte l -> set_ok set ->
  set_ok (add_where f set l) /\
  forall x, is_byte x -> byteset_has (add_where f set l) x = byteset_has set x || existsb (fun c => (x =? c) && f c) l.
Proof.
  intros L. revert set. induction L as [|c l C L IH]; intros set S; simpl.
  { split; [done|]. intros x X. by rewrite orb_false_r. }
  destruct (f c) eqn:F.
  - destruct (IH (byteset_add set c)) as [W H]; [auto with byteset|]. split; [done|].
    intros x X. rewrite H, byteset_add_has by done. rewrite andb_true_r.
    by rewrite (orb_comm (x =? c)), orb_assoc.
  - destruct (IH set S) as [W H]. split; [done|]. intros x X. by rewrite H, andb_false_r.
Qed.

Lemma existsb_upto_off off f lo n x :
  existsb (fun c => (x =? c + off) && f c) (upto lo n)
  = (lo <=? x - off) && (x - off <? lo + Z.of_nat n) && f (x - off).
Proof.
  apply eq_true_iff_eq. rewrite existsb_exists, !andb_true_iff, Z.leb_le, Z.ltb_lt. split.
  - intros (c & I & E). apply elem_upto in I. apply andb_true_iff in E as [E F].
    apply Z.eqb_eq in E as ->. replace (c + off - off) with c by lia. auto.
  - intros [X F]. exists (x - off). rewrite elem_upto, F, andb_true_r, Z.eqb_eq. lia.
Qed.

Lemma existsb_upto f lo n x :
  existsb (fun c => (x =? c) && f c) (upto lo n) = (lo <=? x) && (x <? lo + Z.of_nat n) && f x.
Proof.
  pose proof (existsb_upto_off 0 f lo n x) as H. rewrite Z.sub_0_r in H. rewrite <-H. apply existsb_ext_in.
  intros a _. by rewrite Z.add_0_r.
Qed.

Lemma upto_bytes lo n : 0 <= lo -> lo + Z.of_nat n <= 256 -> Forall is_byte (upto lo n).
Proof.
  intros L H. apply Forall_forall. intros x X. apply list_elem_of_In, elem_upto in X.
  unfold is_byte. lia.
Qed.

Lemma fold_add_where set l : fold_left byteset_add l set = add_where (fun _ => true) set l.
Proof. unfold add_where. revert set. induction l as [|c l IH]; intros set; [done|]. apply IH. Qed.

Lemma byteset_range_spec set lo hi set' : set_ok set -> is_byte lo -> is_byte hi ->
  byteset_range set lo hi = Some set' ->
  set_ok set' /\ forall x, is_byte x -> byteset_has set' x = byteset_has set x || ((lo <=? x) && (x <=? hi)).
Proof.
  intros S L H. unfold byteset_range. destruct (Z.ltb_spec hi lo); [done|]. intros [= <-].
  unfold is_byte in *. rewrite fold_add_where.
  destruct (add_where_spec (fun _ => true) (upto lo (Z.to_nat (Z.min hi 255 - lo + 1))) set)
    as [W A]; [apply upto_bytes; lia|done|].
  split; [done|]. intros x X. rewrite A, existsb_upto, andb_true_r by done.
  f_equal. f_equal. apply eq_true_iff_eq. rewrite Z.ltb_lt, Z.leb_le. lia.
Qed.

Lemma byteset_class_spec set name f set' : set_ok set -> class_test name = Some f ->
  byteset_class set name = Some set' ->
  set_ok set' /\ forall x, is_byte x -> byteset_has set' x = byteset_has set x || f x.
Proof.
  intros S F. unfold byteset_class. rewrite F. intros E. apply Some_inj in E as <-.
  destruct (add_where_spec f (upto 0 256) set) as [W A]; [apply upto_bytes; lia|done|].
  split; [done|]. intros x X. rewrite A by done. rewrite existsb_upto.
  replace ((0 <=? x) && (x <? 0 + Z.of_nat 256)) with true; [reflexivity|].
  symmetry. apply andb_true_iff. unfold is_byte in X. split; [apply Z.leb_le|apply Z.ltb_lt]; lia.
Qed.

Lemma class_names_agree name c : path_fnmatch_class name c = default false (option_map (fun f => f c) (class_test name)).
Proof. unfold path_fnmatch_class, class_test. repeat case_bool_decide; done. Qed.

(** Members are only added behind the values already looked at. *)
Lemma add_other_case_spec off l set : Forall is_byte l -> Forall (fun c => is_byte (c + off)) l ->
  (forall c, In c l -> ~ In (c + off) l) -> set_ok set ->
  set_ok (add_other_case off set l) /\
  forall x, is_byte x -> byteset_has (add_other_case off set l) x
    = byteset_has set x || existsb (fun c => (x =? c + off) && byteset_has set c) l.
Proof.
  intros L. revert set. induction L as [|c l C L IH]; intros set O D S; simpl.
  { split; [done|]. intros x X. by rewrite orb_false_r. }
  apply Forall_cons in O as [Oc O]. destruct (byteset_has set c) eqn:F.
  - destruct (IH (byteset_add set (c + off))) as [W H]; [done| |auto with byteset|].
    { intros a A B. apply (D a); by right. }
    split; [done|]. intros x X. rewrite H, byteset_add_has by done. rewrite andb_true_r.
    rewrite (orb_comm (x =? c + off)), <-!orb_assoc. f_equal. f_equal.
    apply existsb_ext_in. intros a A. f_equal.
    rewrite byteset_add_has by (try done; rewrite Forall_forall in L; apply L; by apply list_elem_of_In).
    destruct (Z.eqb_spec a (c + off)) as [-> |]; [|done].
    exfalso. eapply D; [left; reflexivity|]. by right.
  - destruct (IH set O) as [W H]; [|done|]. { intros a A B. apply (D a); by right. }
    split; [done|]. intros x X. by rewrite H, andb_false_r.
Qed.

(** The other case of a letter *)
Definition other_case (c : Z) : Z :=
  if c_islower c then c - 32 else if c_isupper c then c + 32 else c.

Lemma byteset_icase_spec set : set_ok set ->
  set_ok (byteset_icase set) /\
  forall x, is_byte x -> byteset_has (byteset_icase set) x
    = byteset_has set x || (c_isalpha x && byteset_has set (other_case x)).
Proof.
  intros S. unfold byteset_icase.
  destruct (add_other_case_spec (-32) (upto 97 26) set) as [W H]; try done.
  { apply upto_bytes; lia. }
  { apply Forall_forall. intros x X. apply list_elem_of_In, elem_upto in X. unfold is_byte. lia. }
  { intros c. rewrite !elem_upto. lia. }
  destruct (add_other_case_spec 32 (upto 65 26) (add_other_case (-32) set (upto 97 26))) as [W' H'];
    try done.
  { apply upto_bytes; lia. }
  { apply Forall_forall. intros x X. apply list_elem_of_In, elem_upto in X. unfold is_byte. lia. }
  { intros c. rewrite !elem_upto. lia. }
  assert (U : forall x, (97 <=? x - -32) && (x - -32 <? 97 + Z.of_nat 26) = c_isupper x).
  { intros x. apply eq_true_iff_eq. unfold c_isupper.
    rewrite !andb_true_iff, !Z.leb_le, Z.ltb_lt. lia. }
  assert (N : forall x, (65 <=? x - 32) && (x - 32 <? 65 + Z.of_nat 26) = c_islower x).
  { intros x. apply eq_true_iff_eq. unfold c_islower.
    rewrite !andb_true_iff, !Z.leb_le, Z.ltb_lt. lia. }
  split; [done|]. intros x X. rewrite H', H, !existsb_upto_off, U, N by done.
  unfold c_isalpha, other_case. destruct (c_islower x) eqn:Lx.
  - unfold c_islower in Lx. zify_bool. assert (Ux : c_isupper x = false) by (apply andb_false_iff; right; apply Z.leb_gt; lia).
    rewrite Ux, H, existsb_upto_off by (unfold is_byte; lia). simpl. rewrite orb_false_r, U.
    replace (x - 32 - -32) with x by lia.
    by destruct (byteset_has set x); [|rewrite andb_false_r, !orb_false_r].
  - destruct (c_isupper x) eqn:Ux; simpl; rewrite ?orb_false_r; [|done].
    by replace (x - -32) with (x + 32) by lia.
Qed.

Lemma find_upto (f : Z -> bool) lo n :
  match List.find f (upto lo n) with
  | Some m => lo <= m < lo + Z.of_nat n /\ f m = true /\ forall c, lo <= c < m -> f c = false
  | None => forall c, lo <= c < lo + Z.of_nat n -> f c = false
  end.
Proof.
  revert lo. induction n as [|n IH]; intros lo; [simpl; intros; lia|].
  replace (upto lo (S n)) with (lo :: upto (lo + 1) n).
  2: { unfold upto. simpl. f_equal; [lia|]. rewrite <-seq_shift, map_map. apply map_ext. intros; lia. }
  simpl. destruct (f lo) eqn:F; [split; [lia|]; split; [done|]; intros; lia|].
  specialize (IH (lo + 1)). destruct (List.find f _) as [m|].
  - destruct IH as (M & T & B). split; [lia|]. split; [done|]. intros c C.
    destruct (Z.eq_dec c lo) as [-> |]; [done|]. apply B. lia.
  - intros c C. destruct (Z.eq_dec c lo) as [-> |]; [done|]. apply IH. lia.
Qed.

(** The walk [for(c = byteset_next(s, 0); c >= 0; c = byteset_next(s, c + 1))]
    of lib/byteset.h *)
Lemma byteset_next_spec set from : from <= 256 ->
  (byteset_next set from = -1 /\ forall c, is_byte c -> from <= c -> byteset_has set c = false) \/
  (is_byte (byteset_next set from) /\ from <= byteset_next set from /\
   byteset_has set (byteset_next set from) = true /\
   forall c, is_byte c -> from <= c < byteset_next set from -> byteset_has set c = false).
Proof.
  intros L. unfold byteset_next, is_byte.
  set (from' := if from <? 0 then 0 else from).
  assert (R : from <= from' /\ 0 <= from' <= 256 /\ forall c, 0 <= c -> from <= c -> from' <= c).
  { unfold from'. destruct (Z.ltb_spec from 0); split_and!; intros; lia. }
  destruct R as (R1 & R2 & R3).
  pose proof (find_upto (byteset_has set) from' (Z.to_nat (256 - from'))) as F.
  destruct (List.find _ _) as [m|]; simpl.
  - destruct F as (M & T & B). right. split_and!; try lia; [done|].
    intros c C1 C2. apply B. split; [apply R3|]; lia.
  - left. split; [done|]. intros c C1 C2. apply F. specialize (R3 c). lia.
Qed.

