(* ===== verification/Dfa.v ===== *)
(** * Regular expressions: from the pattern to the program (text/dfa)

    [dfa_parse_pattern] of text/dfa/dfa_parse.c reads a basic or extended
    regular expression and emits, while it reads, the instructions of
    text/dfa/dfa_prog.h; text/dfa/dfa_emit.c appends them, dfa_bracket.c reads
    bracket expressions and dfa_compile.c sets the parser up.  [struct
    dfa_parser] is the record [parser]; the pointers [p], [end], [gsrc[i]]
    into the pattern are offsets, and [start] is offset 0.  An error stays in
    the field [ps_err], as in the code, and every caller tests it where the
    code does.

    The recursion is through groups only, [parse_alt] within [parse_group];
    [DFA_MAXNEST] bounds it, so [parse_alt] takes the nesting depth left as
    its measure.  The loops take the number of passes left.  Memory never
    runs out. *)

From S2P Require Import Prelude Fnmatch Byteset.

(** ** Constants *)

Definition DFA_MAXGROUPS : nat := 32.
Definition DFA_MAXNEST : Z := 256.
Definition DFA_MAXDUP : Z := 255.
Definition DFA_MAXPROG : Z := 32767.
Definition DFA_MAXALT : nat := 64.

Definition DFA_ERE : Z := 1.
Definition DFA_ICASE : Z := 2.
Definition DFA_NOTBOL : Z := 4.
Definition DFA_ESC : Z := 8.
Definition DFA_MULTI : Z := 16.

Definition DFA_OK : Z := 0.
Definition DFA_EPAREN : Z := 2.
Definition DFA_EBRACKET : Z := 3.
Definition DFA_EBRACE : Z := 4.
Definition DFA_ERANGE : Z := 5.
Definition DFA_ECLASS : Z := 6.
Definition DFA_ESUBREG : Z := 7.
Definition DFA_EBADRPT : Z := 8.
Definition DFA_EESCAPE : Z := 9.
Definition DFA_ESIZE : Z := 10.

(** ** Programs *)

Inductive dfa_op :=
| DFA_CHAR | DFA_ANY | DFA_SET | DFA_SPLIT | DFA_JMP | DFA_SAVE
| DFA_BOL | DFA_EOL | DFA_WORD | DFA_BACKREF | DFA_MATCH.

#[export] Instance dfa_op_dec : EqDecision dfa_op.
Proof. solve_decision. Defined.

Record dfa_inst := Inst { i_op : dfa_op; i_x : Z; i_y : Z }.

Record dfa := Dfa {
  d_prog : list dfa_inst;
  d_sets : list bytes;
  d_ngroup : nat;
  d_has_backref : bool;
  d_flags : Z
}.

Definition dfa_groups (d : dfa) : nat := d_ngroup d.

(** ** The state of the parser *)

Record parser := Parser {
  ps_p : nat;
  ps_end : nat;
  ps_err : Z;
  ps_gsrc : list nat;           (** ngroup is its length *)
  ps_nest : Z;
  ps_prog : list dfa_inst;
  ps_sets : list bytes;
  ps_has_backref : bool
}.

Definition proglen (ps : parser) : nat := List.length (ps_prog ps).
Definition ngroup (ps : parser) : nat := List.length (ps_gsrc ps).
Definition failed (ps : parser) : bool := negb (ps_err ps =? DFA_OK).

Definition at_p (p : nat) (ps : parser) : parser :=
  Parser p (ps_end ps) (ps_err ps) (ps_gsrc ps) (ps_nest ps) (ps_prog ps) (ps_sets ps) (ps_has_backref ps).
Definition within (p e : nat) (ps : parser) : parser :=
  Parser p e (ps_err ps) (ps_gsrc ps) (ps_nest ps) (ps_prog ps) (ps_sets ps) (ps_has_backref ps).
Definition fail (e : Z) (ps : parser) : parser :=
  Parser (ps_p ps) (ps_end ps) e (ps_gsrc ps) (ps_nest ps) (ps_prog ps) (ps_sets ps) (ps_has_backref ps).
Definition with_gsrc (g : list nat) (ps : parser) : parser :=
  Parser (ps_p ps) (ps_end ps) (ps_err ps) g (ps_nest ps) (ps_prog ps) (ps_sets ps) (ps_has_backref ps).
Definition with_nest (n : Z) (ps : parser) : parser :=
  Parser (ps_p ps) (ps_end ps) (ps_err ps) (ps_gsrc ps) n (ps_prog ps) (ps_sets ps) (ps_has_backref ps).
Definition with_prog (l : list dfa_inst) (ps : parser) : parser :=
  Parser (ps_p ps) (ps_end ps) (ps_err ps) (ps_gsrc ps) (ps_nest ps) l (ps_sets ps) (ps_has_backref ps).
Definition with_sets (l : list bytes) (ps : parser) : parser :=
  Parser (ps_p ps) (ps_end ps) (ps_err ps) (ps_gsrc ps) (ps_nest ps) (ps_prog ps) l (ps_has_backref ps).
Definition with_backref (ps : parser) : parser :=
  Parser (ps_p ps) (ps_end ps) (ps_err ps) (ps_gsrc ps) (ps_nest ps) (ps_prog ps) (ps_sets ps) true.

Definition advance (n : nat) (ps : parser) : parser := at_p (ps_p ps + n) ps.

(** ** dfa_emit.c *)

Definition dfa_emit (op : dfa_op) (x y : Z) (ps : parser) : Z * parser :=
  if failed ps then (-1, ps)
  else if DFA_MAXPROG <=? Z.of_nat (proglen ps) then (-1, fail DFA_ESIZE ps)
  else (Z.of_nat (proglen ps), with_prog (ps_prog ps ++ [Inst op x y]) ps).

Definition emit (op : dfa_op) (x y : Z) (ps : parser) : parser := snd (dfa_emit op x y ps).

(** The first index with equal content *)
Fixpoint set_index (set : bytes) (sets : list bytes) (i : Z) : option Z :=
  match sets with
  | [] => None
  | s :: sets => if bool_decide (s = set) then Some i else set_index set sets (i + 1)
  end.

Definition dfa_addset (set : bytes) (ps : parser) : Z * parser :=
  if failed ps then (-1, ps)
  else match set_index set (ps_sets ps) 0 with
       | Some i => (i, ps)
       | None => (Z.of_nat (List.length (ps_sets ps)), with_sets (ps_sets ps ++ [set]) ps)
       end.

Definition emit_set (set : bytes) (ps : parser) : parser :=
  let '(idx, ps) := dfa_addset set ps in emit DFA_SET idx 0 ps.

(** ** Groups and the repeat operators *)

Fixpoint index_of (src : nat) (l : list nat) (i : nat) : option nat :=
  match l with
  | [] => None
  | g :: l => if (g =? src)%nat then Some i else index_of src l (S i)
  end.

Definition group_index (src : nat) (ps : parser) : nat * parser :=
  match index_of src (ps_gsrc ps) 0 with
  | Some i => (i, ps)
  | None =>
      if (DFA_MAXGROUPS <=? ngroup ps)%nat then (0%nat, fail DFA_ESIZE ps)
      else (ngroup ps, with_gsrc (ps_gsrc ps ++ [src]) ps)
  end.

Definition is_split (op : dfa_op) : bool := match op with DFA_SPLIT => true | _ => false end.
Definition jumps (op : dfa_op) : bool := match op with DFA_SPLIT | DFA_JMP => true | _ => false end.

(** A target behind [pos] moves with its instruction. *)
Definition retarget (pos i : nat) (it : dfa_inst) : dfa_inst :=
  if (i =? pos)%nat || negb (jumps (i_op it)) then it
  else
    let move t := if Z.of_nat pos <? t then t + 1 else t in
    Inst (i_op it) (move (i_x it)) (if is_split (i_op it) then move (i_y it) else i_y it).

Definition inserted (pos : nat) (prog : list dfa_inst) : list dfa_inst :=
  imap (retarget pos)
    (take pos prog ++ [Inst DFA_SPLIT (Z.of_nat pos + 1) (-1)] ++ drop pos prog).

Definition insert_split (pos : nat) (ps : parser) : Z * parser :=
  let ps' := emit DFA_SPLIT 0 0 ps in
  if failed ps' then (-1, ps')
  else (Z.of_nat pos, with_prog (inserted pos (ps_prog ps)) ps').

Definition set_x (pc x : Z) (ps : parser) : parser :=
  with_prog (alter (fun it => Inst (i_op it) x (i_y it)) (Z.to_nat pc) (ps_prog ps)) ps.
Definition set_y (pc y : Z) (ps : parser) : parser :=
  with_prog (alter (fun it => Inst (i_op it) (i_x it) y) (Z.to_nat pc) (ps_prog ps)) ps.

Definition here (ps : parser) : Z := Z.of_nat (proglen ps).

Definition wrap_optional (body_start : nat) (always_skip : bool) (ps : parser) : parser :=
  let '(split_pc, ps) := insert_split body_start ps in
  if failed ps then ps
  else
    let ps := set_x split_pc (if always_skip then here ps else Z.of_nat body_start + 1) ps in
    set_y split_pc (here ps) ps.

Definition wrap_star (body_start : nat) (ps : parser) : parser :=
  let ps := wrap_optional body_start false ps in
  if failed ps then ps
  else
    let ps := emit DFA_JMP (Z.of_nat body_start) 0 ps in
    if failed ps then ps else set_y (Z.of_nat body_start) (here ps) ps.

Definition wrap_plus (body_start : nat) (ps : parser) : parser :=
  let '(split_pc, ps) := dfa_emit DFA_SPLIT (Z.of_nat body_start) (-1) ps in
  if failed ps then ps else set_y split_pc (here ps) ps.

(** ** Bracket expressions (dfa_bracket.c) *)

(** The bytes before [delim "]"] and the bytes behind it *)
Fixpoint class_name (delim : Z) (l : bytes) : option (bytes * bytes) :=
  match l with
  | c :: ((d :: rest) as l') =>
      if (c =? delim) && (d =? ch "]") then Some ([], rest)
      else match class_name delim l' with
           | Some (name, rest) => Some (c :: name, rest)
           | None => None
           end
  | _ => None
  end.

Definition bracket_escape (c : Z) : option Z :=
  if c =? ch "t" then Some 9
  else if c =? ch "f" then Some 12
  else if c =? ch "v" then Some 11
  else if c =? ch "a" then Some 7
  else if c =? ch "r" then Some 13
  else None.

Section Bracket.
Context (flags : Z).

(** What one pass reads at the front of the bytes up to [end]: the set, and
    the bytes left; or the error. *)
Definition bracket_item (l : bytes) (set : bytes) : Z + (bytes * bytes) :=
  match l with
  | c :: d :: rest =>
      if (c =? ch "[") && ((d =? ch ":") || (d =? ch ".") || (d =? ch "=")) then
        match class_name d rest with
        | None => inl DFA_EBRACKET
        | Some (name, rest') =>
            if d =? ch ":" then
              match byteset_class set name with
              | Some set => inr (set, rest')
              | None => inl DFA_ECLASS
              end
            else if (List.length name =? 1)%nat then inr (byteset_add set (chd name), rest')
            else inl DFA_EBRACKET
        end
      else
        match (if has flags DFA_ESC && (c =? ch "\") then bracket_escape d else None) with
        | Some e => inr (byteset_add set e, rest)
        | None =>
            match rest with
            | hi :: rest' =>
                if (d =? ch "-") && negb (hi =? ch "]") then
                  match byteset_range set c hi with
                  | Some set => inr (set, rest')
                  | None => inl DFA_ERANGE
                  end
                else inr (byteset_add set c, d :: rest)
            | [] => inr (byteset_add set c, [d])
            end
        end
  | [c] => inr (byteset_add set c, [])
  | [] => inl DFA_EBRACKET
  end.

Fixpoint bracket_loop (fuel : nat) (l : bytes) (first : bool) (set : bytes) : Z + (bytes * bytes) :=
  match fuel, l with
  | O, _ | _, [] => inl DFA_EBRACKET
  | S fuel, c :: rest =>
      if (c =? ch "]") && negb first then inr (set, rest)
      else match bracket_item l set with
           | inl e => inl e
           | inr (set, l) => bracket_loop fuel l false set
           end
  end.

(** [l] is the text behind the opening bracket; the set, and the text left *)
Definition dfa_bracket_compile (l : bytes) : Z + (bytes * bytes) :=
  let neg := match l with c :: _ => c =? ch "^" | [] => false end in
  let l := if neg then drop 1 l else l in
  match bracket_loop (S (List.length l)) l true byteset_zero with
  | inl e => inl e
  | inr (set, rest) =>
      let set := if neg then byteset_invert set else set in
      let set := if has flags DFA_ICASE then byteset_icase set else set in
      inr (set, rest)
  end.

End Bracket.

(** ** The parser (dfa_parse.c) *)

(** [{m,n}]: the digits at the front of [l], added to [a]; the value and how
    many there were, or none when the value passes [DFA_MAXDUP] *)
Fixpoint dup_digits (l : bytes) (a : Z) (k : nat) : option (Z * nat) :=
  match l with
  | c :: l' =>
      if c_isdigit c then
        let a := a * 10 + (c - 48) in
        if DFA_MAXDUP <? a then None else dup_digits l' a (S k)
      else Some (a, k)
  | [] => Some (a, k)
  end.

(** The value of a digit of an escape, 99 for other bytes *)
Definition digit_value (c : Z) : Z :=
  if (48 <=? c) && (c <=? 57) then c - 48
  else if (97 <=? c) && (c <=? 102) then c - 97 + 10
  else if (65 <=? c) && (c <=? 70) then c - 65 + 10
  else 99.

Fixpoint escape_digits (l : bytes) (base : Z) (digits : nat) (n : Z) (got : nat) : Z * nat :=
  match digits, l with
  | S digits, c :: l =>
      if base <=? digit_value c then (n, got)
      else escape_digits l base digits (n * base + digit_value c) (S got)
  | _, _ => (n, got)
  end.

(** The byte a GNU escape stands for, and how many bytes follow its letter *)
Definition gnu_escape (e : Z) (l : bytes) : option (Z * nat) :=
  let numeric base digits :=
    let '(n, got) := escape_digits l base digits 0 0 in
    if (0 <? got)%nat then Some (Z.land n 255, got) else None in
  if e =? ch "t" then Some (9, 0%nat)
  else if e =? ch "f" then Some (12, 0%nat)
  else if e =? ch "v" then Some (11, 0%nat)
  else if e =? ch "a" then Some (7, 0%nat)
  else if e =? ch "r" then Some (13, 0%nat)
  else if e =? ch "x" then numeric 16 2%nat
  else if e =? ch "d" then numeric 10 3%nat
  else if e =? ch "o" then numeric 8 3%nat
  else None.

Definition c_tolower (c : Z) : Z := if c_isupper c then c + 32 else c.
Definition c_toupper (c : Z) : Z := if c_islower c then c - 32 else c.

Definition word_byte (c : Z) : bool := c_isalnum c || (c =? ch "_").
Definition space_byte (c : Z) : bool := (c =? 32) || ((9 <=? c) && (c <=? 13)).

Section Parse.
Context (pat : bytes) (flags : Z).

Definition ere : bool := has flags DFA_ERE.

(** [p[i]], the test [p + i < end], and the text from [p + i] to [end] *)
Definition peek (i : nat) (ps : parser) : Z := cnth pat (ps_p ps + i).
Definition more (i : nat) (ps : parser) : bool := (ps_p ps + i <? ps_end ps)%nat.
Definition text (i : nat) (ps : parser) : bytes :=
  take (ps_end ps - (ps_p ps + i)) (drop (ps_p ps + i) pat).

Definition at_byte (c : Z) (ps : parser) : bool := more 0 ps && (peek 0 ps =? c).
Definition at_escaped (c : Z) (ps : parser) : bool :=
  more 1 ps && (peek 0 ps =? ch "\") && (peek 1 ps =? c).

(** A special character: itself in an extended expression, with a backslash
    in a basic one; [special_len] is its length. *)
Definition at_special (c : Z) (ps : parser) : bool := if ere then at_byte c ps else at_escaped c ps.
Definition special_len : nat := if ere then 1%nat else 2%nat.

Definition alt_len (ps : parser) : nat := if at_special (ch "|") ps then special_len else 0%nat.

Definition emit_byte (c : Z) (ps : parser) : parser :=
  if has flags DFA_ICASE && c_isalpha c
  then emit_set (byteset_add (byteset_add byteset_zero (c_tolower c)) (c_toupper c)) ps
  else emit DFA_CHAR c 0 ps.

Definition class_escape (e : Z) : bytes :=
  let set := add_where (if (e =? ch "w") || (e =? ch "W") then word_byte else space_byte)
               byteset_zero (upto 0 256) in
  if (e =? ch "W") || (e =? ch "S") then byteset_invert set else set.

Definition word_kind (e : Z) : option Z :=
  if e =? ch "b" then Some 0
  else if e =? ch "B" then Some 1
  else if e =? ch "<" then Some 2
  else if e =? ch ">" then Some 3
  else None.

(** The branch of parse_atom for a backslash *)
Definition parse_escape (ps : parser) : parser :=
  if negb (more 1 ps) then fail DFA_EESCAPE ps
  else
    let e := peek 1 ps in
    if (49 <=? e) && (e <=? 57) then
      let g := e - 48 in
      if Z.of_nat (ngroup ps) <? g then fail DFA_ESUBREG ps
      else emit DFA_BACKREF g 0 (with_backref (advance 2 ps))
    else
      match (if has flags DFA_ESC then gnu_escape e (text 2 ps) else None) with
      | Some (v, k) => emit DFA_CHAR v 0 (advance (2 + k) ps)
      | None =>
          match word_kind e with
          | Some k => advance 2 (emit DFA_WORD k 0 ps)
          | None =>
              if (e =? ch "w") || (e =? ch "W") || (e =? ch "s") || (e =? ch "S")
              then emit_set (class_escape e) (advance 2 ps)
              else emit_byte e (advance 2 ps)
          end
      end.

(** parse_group; [alt] is parse_alt. *)
Definition parse_group (alt : parser -> option parser) (ps : parser) : option parser :=
  let open_src := ps_p ps in
  let ps := advance special_len ps in
  let ps := with_nest (ps_nest ps + 1) ps in
  if DFA_MAXNEST <? ps_nest ps then Some (fail DFA_ESIZE ps)
  else
    let '(g, ps) := group_index open_src ps in
    if failed ps then Some ps
    else
      match alt (emit DFA_SAVE (2 * Z.of_nat g) 0 ps) with
      | None => None
      | Some ps =>
          if failed ps then Some ps
          else if negb (at_special (ch ")") ps) then Some (fail DFA_EPAREN ps)
          else
            let ps := advance special_len ps in
            let ps := with_nest (ps_nest ps - 1) ps in
            Some (emit DFA_SAVE (2 * Z.of_nat g + 1) 0 ps)
      end.

Definition parse_atom (alt : parser -> option parser) (ps : parser) : option parser :=
  if negb (more 0 ps) then Some (fail DFA_EBADRPT ps)
  else if peek 0 ps =? ch "." then Some (emit DFA_ANY 0 0 (advance 1 ps))
  else if peek 0 ps =? ch "[" then
    Some match dfa_bracket_compile flags (text 1 ps) with
         | inl e => fail e ps
         | inr (set, rest) => emit_set set (at_p (ps_end ps - List.length rest) ps)
         end
  else if at_special (ch "(") ps then parse_group alt ps
  else if (peek 0 ps =? ch "^") && (ere || (ps_p ps =? 0)%nat) then
    Some (emit DFA_BOL 0 0 (advance 1 ps))
  else if (peek 0 ps =? ch "$") && (ere || (ps_p ps + 1 =? ps_end ps)%nat) then
    Some (emit DFA_EOL 0 0 (advance 1 ps))
  else if peek 0 ps =? ch "\" then Some (parse_escape ps)
  else Some (emit_byte (peek 0 ps) (advance 1 ps)).

(** Fills [m] and [n] (-1: unbounded) and leaves [p] behind the second. *)
Definition parse_interval_spec (ps : parser) : parser * option (Z * Z) :=
  match dup_digits (text 0 ps) 0 0 with
  | None => (fail DFA_EBRACE ps, None)
  | Some (a, k) =>
      let ps1 := advance k ps in
      if (k =? 0)%nat && negb (at_byte (ch ",") ps1) then (fail DFA_EBRACE ps, None)
      else
        let second :=
          if at_byte (ch ",") ps1 then
            match dup_digits (text 1 ps1) 0 0 with
            | None => None
            | Some (v, j) => Some (if (j =? 0)%nat then -1 else v, advance (1 + j) ps1)
            end
          else Some (a, ps1) in
        match second with
        | None => (fail DFA_EBRACE ps, None)
        | Some (bound, ps') =>
            if (0 <=? bound) && (bound <? a) then (fail DFA_EBRACE ps, None)
            else (ps', Some (a, bound))
        end
  end.

(** Another copy of the atom whose text is [src, srcend) *)
Definition reparse (atom : parser -> option parser) (src srcend : nat) (ps : parser) : option parser :=
  match atom (within src srcend ps) with
  | None => None
  | Some ps' => Some (within (ps_p ps) (ps_end ps) ps')
  end.

(** [k] copies, each made optional when [opt] *)
Fixpoint copies (atom : parser -> option parser) (src srcend : nat) (opt : bool) (k : nat) (ps : parser)
    : option parser :=
  match k with
  | O => Some ps
  | S k =>
      if failed ps then Some ps
      else
        let start := proglen ps in
        match reparse atom src srcend ps with
        | None => None
        | Some ps =>
            if opt then
              if failed ps then Some ps
              else copies atom src srcend opt k (wrap_optional start false ps)
            else copies atom src srcend opt k ps
        end
  end.

Definition apply_interval (atom : parser -> option parser) (body_start src srcend : nat) (m n : Z)
    (ps : parser) : option parser :=
  if (m =? 0) && (n =? 0) then Some (wrap_optional body_start true ps)
  else
    let ps := if m =? 0 then wrap_optional body_start false ps else ps in
    match copies atom src srcend false (Z.to_nat (m - 1)) ps with
    | None => None
    | Some ps =>
        if failed ps then Some ps
        else if n <? 0 then
          let loop_start := proglen ps in
          match reparse atom src srcend ps with
          | None => None
          | Some ps => if failed ps then Some ps else Some (wrap_star loop_start ps)
          end
        else copies atom src srcend true (Z.to_nat (n - (if 0 <? m then m else 1))) ps
    end.

(** The loop of parse_piece over stacked [*], [+] and [?] *)
Fixpoint stacked (fuel : nat) (body_start : nat) (ps : parser) : option parser :=
  match fuel with
  | O => None
  | S fuel =>
      let go ps := if failed ps then Some ps else stacked fuel body_start ps in
      if at_byte (ch "*") ps then go (wrap_star body_start (advance 1 ps))
      else if at_special (ch "+") ps then go (wrap_plus body_start (advance special_len ps))
      else if at_special (ch "?") ps then go (wrap_optional body_start false (advance special_len ps))
      else Some ps
  end.

Definition passes (ps : parser) : nat := S (ps_end ps - ps_p ps).

Definition at_interval (ps : parser) : bool :=
  if ere then at_byte (ch "{") ps && more 1 ps && (c_isdigit (peek 1 ps) || (peek 1 ps =? ch ","))
  else at_escaped (ch "{") ps.

Definition parse_interval (atom : parser -> option parser) (body_start src srcend : nat) (ps : parser)
    : option parser :=
  match parse_interval_spec (advance special_len ps) with
  | (ps, None) => Some ps
  | (ps, Some (m, n)) =>
      if negb (at_special (ch "}") ps) then Some (fail DFA_EBRACE ps)
      else apply_interval atom body_start src srcend m n (advance special_len ps)
  end.

Definition parse_piece (atom : parser -> option parser) (ps : parser) : option parser :=
  let body_start := proglen ps in
  let atom_src := ps_p ps in
  match atom ps with
  | None => None
  | Some ps =>
      if failed ps then Some ps
      else
        let atom_srcend := ps_p ps in
        if negb ere && (atom_src =? 0)%nat && (cnth pat atom_src =? ch "^") then Some ps
        else
          match stacked (passes ps) body_start ps with
          | None => None
          | Some ps =>
              if failed ps then Some ps
              else if at_interval ps then parse_interval atom body_start atom_src atom_srcend ps
              else Some ps
          end
  end.

(** parse_seq: the pieces of one branch *)
Fixpoint parse_seq (fuel : nat) (atom : parser -> option parser) (ps : parser) : option parser :=
  match fuel with
  | O => None
  | S fuel =>
      if negb (more 0 ps) || (0 <? alt_len ps)%nat || at_special (ch ")") ps then Some ps
      else match parse_piece atom ps with
           | None => None
           | Some ps => if failed ps then Some ps else parse_seq fuel atom ps
           end
  end.

(** [for(i = 0; i < njmp; i++) prog[jmp_pcs[i]].x = proglen] *)
Definition patch_jumps (jmps : list Z) (ps : parser) : parser :=
  fold_left (fun ps' pc => set_x pc (here ps) ps') jmps ps.

(** The loop of parse_alt *)
Fixpoint alt_loop (fuel : nat) (atom : parser -> option parser) (split_pc : Z) (jmps : list Z)
    (ps : parser) : option parser :=
  match fuel with
  | O => None
  | S fuel =>
      let '(jp, ps) := dfa_emit DFA_JMP (-1) 0 ps in
      if failed ps then Some ps
      else
        let jmps := if (List.length jmps <? DFA_MAXALT)%nat then jmps ++ [jp] else jmps in
        let ps := set_y split_pc (here ps) ps in
        if (alt_len ps =? 0)%nat then Some (patch_jumps jmps ps)
        else
          let ps := advance (alt_len ps) ps in
          let branch_start := proglen ps in
          match parse_seq (passes ps) atom ps with
          | None => None
          | Some ps =>
              if failed ps then Some ps
              else if (alt_len ps =? 0)%nat then Some (patch_jumps jmps ps)
              else
                let '(split_pc, ps) := insert_split branch_start ps in
                if failed ps then Some ps else alt_loop fuel atom split_pc jmps ps
          end
  end.

Definition alt_body (atom : parser -> option parser) (ps : parser) : option parser :=
  let start := proglen ps in
  match parse_seq (passes ps) atom ps with
  | None => None
  | Some ps =>
      if failed ps || (alt_len ps =? 0)%nat then Some ps
      else
        let '(split_pc, ps) := insert_split start ps in
        if failed ps then Some ps else alt_loop (passes ps) atom split_pc [] ps
  end.

Fixpoint parse_alt (depth : nat) (ps : parser) : option parser :=
  match depth with
  | O => None
  | S depth => alt_body (parse_atom (parse_alt depth)) ps
  end.

(** One level for the pattern itself, one for each level of nesting, and one
    for the level that is refused *)
Definition max_depth : nat := Z.to_nat (DFA_MAXNEST + 2).

Definition dfa_parse_pattern (ps : parser) : option parser :=
  match parse_alt max_depth ps with
  | None => None
  | Some ps =>
      if failed ps then Some ps
      else if negb (ps_p ps =? ps_end ps)%nat then Some (fail DFA_EPAREN ps)
      else Some (emit DFA_MATCH 0 0 ps)
  end.

Definition parser_init : parser := Parser 0 (List.length pat) DFA_OK [] 0 [] [] false.

(** dfa_compile: a program, or the error code *)
Definition dfa_compile : option (dfa + Z) :=
  match dfa_parse_pattern parser_init with
  | None => None
  | Some ps =>
      if failed ps then Some (inr (ps_err ps))
      else Some (inl (Dfa (ps_prog ps) (ps_sets ps) (ngroup ps) (ps_has_backref ps) flags))
  end.

End Parse.

(** dfa_error *)
Definition dfa_error (code : Z) : bytes :=
  if code =? 0 then b "no error"
  else if code =? 1 then b "out of memory"
  else if code =? DFA_EPAREN then b "unbalanced ( )"
  else if code =? DFA_EBRACKET then b "unterminated [ ]"
  else if code =? DFA_EBRACE then b "invalid \{m,n\}"
  else if code =? DFA_ERANGE then b "invalid range in [ ]"
  else if code =? DFA_ECLASS then b "unknown [:class:]"
  else if code =? DFA_ESUBREG then b "invalid back-reference"
  else if code =? DFA_EBADRPT then b "repetition with nothing to repeat"
  else if code =? DFA_EESCAPE then b "trailing backslash"
  else if code =? DFA_ESIZE then b "pattern too large"
  else b "unknown error".
