(* ===== verification/DfaParse.v ===== *)
(** * What the regular expression parser returns

    The parser of text/dfa/dfa_parse.c emits code while it reads, so each of
    its functions extends the program: it leaves the instructions already
    there alone and appends instructions whose targets lie in the program
    ([extends]).  The operators [* + ?] and the alternation insert a
    [DFA_SPLIT] in front of code already emitted; [inserted_app] says that
    this moves only the code behind it.  From these: every function returns
    ([max_depth] and the pass counts suffice), and a pattern with no more
    than [DFA_MAXALT] alternation separators compiles to a program that can
    be run without leaving it. *)

From S2P Require Import Prelude Fnmatch Byteset Dfa.

(** ** Programs whose operands are in range *)

(** [np] instructions, [ns] sets and [ng] groups: a target may be [np], the
    instruction emitted next. *)
Definition inst_ok (np ns ng : nat) (it : dfa_inst) : Prop :=
  match i_op it with
  | DFA_SPLIT => 0 <= i_x it <= Z.of_nat np /\ 0 <= i_y it <= Z.of_nat np
  | DFA_JMP => 0 <= i_x it <= Z.of_nat np
  | DFA_SET => 0 <= i_x it < Z.of_nat ns
  | DFA_SAVE => 0 <= i_x it < 2 * Z.of_nat ng
  | DFA_BACKREF => 1 <= i_x it <= Z.of_nat ng
  | DFA_CHAR => 0 <= i_x it
  | _ => True
  end.

(** No target lies behind [np]; unresolved targets are -1. *)
Definition inst_low (np : nat) (it : dfa_inst) : Prop :=
  jumps (i_op it) = true -> i_x it <= Z.of_nat np /\ (is_split (i_op it) = true -> i_y it <= Z.of_nat np).

Lemma inst_ok_mono np ns ng np' ns' ng' it :
  (np <= np')%nat -> (ns <= ns')%nat -> (ng <= ng')%nat -> inst_ok np ns ng it -> inst_ok np' ns' ng' it.
Proof. unfold inst_ok. destruct (i_op it); lia. Qed.

Lemma inst_low_mono np np' it : (np <= np')%nat -> inst_low np it -> inst_low np' it.
Proof. unfold inst_low. intros L H J. destruct (H J) as [X Y]. split; [lia|]. intros S. specialize (Y S). lia. Qed.

Lemma inst_ok_low np ns ng it : inst_ok np ns ng it -> inst_low np it.
Proof.
  unfold inst_ok, inst_low. destruct it as [op x y]. destruct op; cbn; intros H J; try discriminate J;
    split; try lia; intros S; try discriminate S; lia.
Qed.

(** ** Inserting a split *)

Lemma retarget_low pos i it : inst_low pos it -> retarget pos i it = it.
Proof.
  unfold inst_low, retarget. destruct it as [op x y]; cbn [i_op i_x i_y]. intros H.
  destruct (i =? pos)%nat; [done|]. destruct (jumps op); [|done]. destruct (H eq_refl) as [X Y]. cbn [negb orb].
  destruct (Z.ltb_spec (Z.of_nat pos) x); [lia|]. destruct (is_split op); [|done]. specialize (Y eq_refl).
  destruct (Z.ltb_spec (Z.of_nat pos) y); [lia|done].
Qed.

Lemma retarget_ok pos i np ns ng it : inst_ok np ns ng it -> inst_ok (S np) ns ng (retarget pos i it).
Proof.
  unfold retarget. intros H. destruct (i =? pos)%nat; [eapply inst_ok_mono; [| | |exact H]; lia|].
  unfold inst_ok in *. destruct it as [op x y]; destruct op; cbn -[Z.of_nat] in *;
    repeat match goal with |- context [if ?a <? ?c then _ else _] => destruct (Z.ltb_spec a c) end; lia.
Qed.

Lemma imap_id_on {A} (f : nat -> A -> A) l : (forall i x, In x l -> f i x = x) -> imap f l = l.
Proof.
  revert f. induction l as [|x l IH]; intros f H; [done|]. rewrite imap_cons, H by (by left).
  f_equal. apply IH. intros i y Y. apply H. by right.
Qed.

(** The code in front stays, the code behind moves. *)
Lemma inserted_app P body : Forall (inst_low (List.length P)) P ->
  inserted (List.length P) (P ++ body)
  = P ++ Inst DFA_SPLIT (Z.of_nat (List.length P) + 1) (-1)
      :: imap (fun i => retarget (List.length P) (S (List.length P) + i)) body.
Proof.
  intros L. unfold inserted. rewrite take_app_length, drop_app_length, imap_app. f_equal.
  - apply imap_id_on. intros i x X. apply retarget_low. rewrite Forall_forall in L.
    by apply L, list_elem_of_In.
  - cbn [app]. rewrite imap_cons. f_equal.
    + unfold retarget. rewrite Nat.add_0_r, Nat.eqb_refl. done.
    + apply imap_ext. intros i x _. simpl. f_equal. lia.
Qed.

Lemma imap_retarget_ok P k np ns ng body : Forall (inst_ok np ns ng) body ->
  Forall (inst_ok (S np) ns ng) (imap (fun i => retarget P (k + i)) body).
Proof.
  intros H. revert k. induction H as [|it body I _ IH]; intros k; [constructor|].
  rewrite imap_cons. constructor; [by apply retarget_ok|].
  rewrite (imap_ext _ (fun i => retarget P (S k + i))); [apply IH|].
  intros i x _. simpl. f_equal. lia.
Qed.

(** ** The states of the parser *)

Section Parser.
Context (pat : bytes) (flags : Z).

Definition bar : Z := ch "|".

(** The alternation separators still ahead, or more *)
Definition bars (p : nat) : nat := List.length (List.filter (Z.eqb bar) (drop p pat)).

Definition few_bars : Prop := (bars 0 <= DFA_MAXALT)%nat.

Record wf (ps : parser) : Prop := {
  wf_p : (ps_p ps <= ps_end ps)%nat;
  wf_end : (ps_end ps <= List.length pat)%nat;
  wf_low : Forall (inst_low (proglen ps)) (ps_prog ps);
  wf_sets : Forall set_ok (ps_sets ps)
}.

Abbreviation nsets ps := (List.length (ps_sets ps)).
Abbreviation code_ok ps := (inst_ok (proglen ps) (nsets ps) (ngroup ps)).

(** From [ps] to [ps'], reading at least [k] bytes *)
Record extends (k : nat) (ps ps' : parser) : Prop := {
  ext_prog : exists new, ps_prog ps' = ps_prog ps ++ new /\
    Forall (inst_low (proglen ps')) new /\ (few_bars -> Forall (code_ok ps') new);
  ext_sets : exists l, ps_sets ps' = ps_sets ps ++ l /\ Forall set_ok l;
  ext_gsrc : exists l, ps_gsrc ps' = ps_gsrc ps ++ l;
  ext_p : (ps_p ps + k <= ps_p ps' <= ps_end ps)%nat;
  ext_end : ps_end ps' = ps_end ps;
  ext_nest : ps_nest ps' = ps_nest ps
}.

Definition result (k : nat) (ps ps' : parser) : Prop := failed ps' = true \/ extends k ps ps'.

Lemma ext_len k ps ps' : extends k ps ps' ->
  (proglen ps <= proglen ps' /\ nsets ps <= nsets ps' /\ ngroup ps <= ngroup ps')%nat.
Proof.
  intros [(new & P & _) (ls & S & _) (lg & G) _ _ _]. unfold proglen, ngroup.
  rewrite P, S, G, !length_app. lia.
Qed.

Lemma ext_refl ps : wf ps -> extends 0 ps ps.
Proof.
  intros W. split; try done; [exists []; by rewrite app_nil_r|exists []; by rewrite app_nil_r|
    exists []; by rewrite app_nil_r|]. pose proof (wf_p ps W). lia.
Qed.

Lemma ext_trans j k n ps ps1 ps2 : (n <= j + k)%nat ->
  extends j ps ps1 -> extends k ps1 ps2 -> extends n ps ps2.
Proof.
  intros N E1 E2. pose proof (ext_len _ _ _ E1) as L1. pose proof (ext_len _ _ _ E2) as L2.
  destruct E1 as [(n1 & P1 & W1 & K1) (s1 & S1 & O1) (g1 & G1) B1 D1 M1],
           E2 as [(n2 & P2 & W2 & K2) (s2 & S2 & O2) (g2 & G2) B2 D2 M2].
  split.
  - exists (n1 ++ n2). rewrite P2, P1, app_assoc. split; [done|]. split.
    + apply Forall_app. split; [|done]. eapply Forall_impl; [exact W1|]. intros it. apply inst_low_mono. lia.
    + intros F. apply Forall_app. split; [|by apply K2].
      eapply Forall_impl; [by apply K1|]. intros it. apply inst_ok_mono; lia.
  - exists (s1 ++ s2). rewrite S2, S1, app_assoc. split; [done|]. by apply Forall_app.
  - exists (g1 ++ g2). by rewrite G2, G1, app_assoc.
  - lia.
  - congruence.
  - congruence.
Qed.

Lemma ext_weaken j k ps ps' : (k <= j)%nat -> extends j ps ps' -> extends k ps ps'.
Proof. intros L []. split; try done. lia. Qed.

Lemma extends_wf k ps ps' : wf ps -> extends k ps ps' -> wf ps'.
Proof.
  intros W E. pose proof (ext_len _ _ _ E). destruct W as [Wp We Wl Ws], E as [(n & P & L & _) (l & S & O) _ B D _].
  split; [lia|lia| |].
  - rewrite P. apply Forall_app. split; [|done]. eapply Forall_impl; [exact Wl|].
    intros it. apply inst_low_mono. lia.
  - rewrite S. by apply Forall_app.
Qed.

Lemma result_trans j k n ps ps1 ps2 : (n <= j + k)%nat ->
  extends j ps ps1 -> result k ps1 ps2 -> result n ps ps2.
Proof. intros N E [F|E2]; [by left|right]. by eapply ext_trans. Qed.

(** ** Emitting *)

Lemma fail_failed e ps : e <> 0 -> failed (fail e ps) = true.
Proof. intros E. unfold failed. cbn. destruct (Z.eqb_spec e DFA_OK); [done|reflexivity]. Qed.

Lemma emit_inv op x y ps : failed (emit op x y ps) = false ->
  failed ps = false /\ emit op x y ps = with_prog (ps_prog ps ++ [Inst op x y]) ps.
Proof.
  unfold emit, dfa_emit. destruct (failed ps) eqn:F; cbn; [congruence|].
  destruct (_ <=? _); cbn; [done|auto].
Qed.

Lemma emit_p op x y ps : ps_p (emit op x y ps) = ps_p ps.
Proof. unfold emit, dfa_emit. destruct (failed ps); [done|]. by destruct (_ <=? _). Qed.

Lemma emit_nest op x y ps : ps_nest (emit op x y ps) = ps_nest ps.
Proof. unfold emit, dfa_emit. destruct (failed ps); [done|]. by destruct (_ <=? _). Qed.

Lemma emit_failed op x y ps : failed ps = true -> emit op x y ps = ps.
Proof. intros F. unfold emit, dfa_emit. by rewrite F. Qed.

(** Every error shows. *)
Lemma emit_pc op x y ps pc ps' : dfa_emit op x y ps = (pc, ps') -> ps' = emit op x y ps /\
  (failed ps' = false -> pc = Z.of_nat (proglen ps)).
Proof.
  unfold emit, dfa_emit. destruct (failed ps) eqn:F; cbn; [intros [= <- <-]; split; congruence|].
  destruct (_ <=? _); cbn; intros [= <- <-]; done.
Qed.

(** Replacing the code a function has appended *)
Lemma ext_with_prog k ps ps' new : extends k ps ps' ->
  let ps'' := with_prog (ps_prog ps ++ new) ps' in
  Forall (inst_low (proglen ps'')) new -> (few_bars -> Forall (code_ok ps'') new) ->
  extends k ps ps''.
Proof. intros [_ S G B D M] ps'' L K. split; try done. exists new. split_and!; done. Qed.

Lemma ext_emit k ps ps' op x y : extends k ps ps' -> failed (emit op x y ps') = false ->
  inst_ok (S (proglen ps')) (nsets ps') (ngroup ps') (Inst op x y) ->
  extends k ps (emit op x y ps').
Proof.
  intros E F I. apply emit_inv in F as [_ ->].
  destruct (ext_prog _ _ _ E) as (new & P & L & K). rewrite P, <-app_assoc.
  assert (N : proglen (with_prog (ps_prog ps ++ new ++ [Inst op x y]) ps') = S (proglen ps')).
  { unfold proglen. cbn. rewrite P, !length_app. cbn. lia. }
  apply ext_with_prog; [done|rewrite N..].
  - apply Forall_app. split; [|constructor; [by eapply inst_ok_low|constructor]].
    eapply Forall_impl; [exact L|]. intros it. apply inst_low_mono. lia.
  - intros Few. apply Forall_app. split; [|constructor; [done|constructor]].
    eapply Forall_impl; [by apply K|]. intros it. apply inst_ok_mono; [lia|reflexivity|reflexivity].
Qed.

Lemma emit_result k ps ps' op x y : extends k ps ps' ->
  inst_ok (S (proglen ps')) (nsets ps') (ngroup ps') (Inst op x y) ->
  result k ps (emit op x y ps').
Proof.
  intros E I. destruct (failed (emit op x y ps')) eqn:F; [by left|right]. by apply ext_emit.
Qed.

(** ** The repeat operators on the code behind [ps0] *)

Definition shifted (pos : nat) (body : list dfa_inst) : list dfa_inst :=
  imap (fun i => retarget pos (S pos + i)) body.

Lemma length_shifted pos body : List.length (shifted pos body) = List.length body.
Proof. apply length_imap. Qed.

Lemma shifted_low pos np body : Forall (inst_low np) body -> Forall (inst_low (S np)) (shifted pos body).
Proof.
  intros H. unfold shifted. generalize (S pos) as k. induction H as [|it body I _ IH]; intros k; [constructor|].
  rewrite imap_cons. constructor.
  - unfold retarget. destruct (_ || _); [eapply inst_low_mono; [|exact I]; lia|].
    intros J. cbn in J. destruct (I J) as [X Y]. cbn -[Z.of_nat]. split.
    + destruct (_ <? _); lia.
    + intros S. rewrite S in *. specialize (Y eq_refl). destruct (_ <? _); lia.
  - rewrite (imap_ext _ (fun i => retarget pos (S k + i))); [apply IH|].
    intros i x _. simpl. f_equal. lia.
Qed.

(** insert_split in front of what was emitted since [ps0] *)
Lemma insert_split_eq ps0 ps new : wf ps0 -> ps_prog ps = ps_prog ps0 ++ new ->
  let '(pc, ps') := insert_split (proglen ps0) ps in
  failed ps' = true \/
  (pc = here ps0 /\ failed ps = false /\
   ps' = with_prog (ps_prog ps0 ++ Inst DFA_SPLIT (here ps0 + 1) (-1) :: shifted (proglen ps0) new) ps).
Proof.
  intros W P. unfold insert_split. destruct (failed (emit DFA_SPLIT 0 0 ps)) eqn:F; [by left|right].
  apply emit_inv in F as [F ->]. split; [done|]. split; [done|].
  unfold proglen. rewrite P, inserted_app by apply W. done.
Qed.

Lemma alter_here {A} (f : A -> A) P (it : A) l n : n = Z.of_nat (List.length P) ->
  alter f (Z.to_nat n) (P ++ it :: l) = P ++ f it :: l.
Proof.
  intros ->. rewrite Nat2Z.id. replace (List.length P) with (List.length P + 0)%nat at 1 by lia.
  by rewrite alter_app_r.
Qed.

(** [e?] and [e{0,0}]: a split in front of the code *)
Lemma wrap_optional_eq ps0 ps new skip : wf ps0 -> ps_prog ps = ps_prog ps0 ++ new ->
  failed (wrap_optional (proglen ps0) skip ps) = true \/
  (failed ps = false /\
   let next := here ps + 1 in
   wrap_optional (proglen ps0) skip ps
   = with_prog (ps_prog ps0 ++ Inst DFA_SPLIT (if skip then next else here ps0 + 1) next
                            :: shifted (proglen ps0) new) ps).
Proof.
  intros W P. pose proof (insert_split_eq ps0 ps new W P) as I. unfold wrap_optional.
  destruct (insert_split (proglen ps0) ps) as [pc ps'].
  destruct I as [F|(-> & F & E)]; [rewrite F; by left|].
  assert (F' : failed ps' = false) by (by rewrite E). rewrite F'. right. split; [done|].
  assert (H : forall X, here (set_x (here ps0) X ps') = here ps + 1 /\ here ps' = here ps + 1).
  { intros X. rewrite E. unfold here, proglen. cbn [ps_prog with_prog set_x].
    rewrite length_alter, P, !length_app. cbn [List.length]. rewrite length_shifted. lia. }
  destruct (H (if skip then here ps' else Z.of_nat (proglen ps0) + 1)) as [H1 H2]. rewrite H1, H2.
  rewrite E. unfold set_y, set_x. cbn [ps_prog with_prog].
  rewrite !alter_here by reflexivity. by destruct skip.
Qed.

Lemma bound_here ps0 ps new : ps_prog ps = ps_prog ps0 ++ new ->
  here ps = here ps0 + Z.of_nat (List.length new).
Proof. intros P. unfold here, proglen. rewrite P, length_app. lia. Qed.

(** The code behind a new split *)
Lemma ext_split k ps0 ps new x y tl : extends k ps0 ps -> ps_prog ps = ps_prog ps0 ++ new ->
  0 <= x <= here ps + 1 + Z.of_nat (List.length tl) -> 0 <= y <= here ps + 1 + Z.of_nat (List.length tl) ->
  Forall (inst_ok (S (proglen ps) + List.length tl) (nsets ps) (ngroup ps)) tl ->
  extends k ps0 (with_prog (ps_prog ps0 ++ Inst DFA_SPLIT x y :: shifted (proglen ps0) new ++ tl) ps).
Proof.
  intros E P X Y T. destruct (ext_prog _ _ _ E) as (new' & P' & L & K).
  assert (new' = new) as -> by (rewrite P in P'; by apply app_inv_head in P').
  set (ps' := with_prog _ ps).
  assert (N : proglen ps' = (S (proglen ps) + List.length tl)%nat).
  { unfold proglen, ps'. cbn [ps_prog with_prog]. rewrite P, !length_app. cbn [List.length].
    rewrite length_app, length_shifted. lia. }
  assert (I : inst_ok (proglen ps') (nsets ps') (ngroup ps') (Inst DFA_SPLIT x y)).
  { unfold inst_ok, here in *. cbn [i_op i_x i_y]. rewrite N. lia. }
  apply ext_with_prog; [done| |]; fold ps'; rewrite ?N in *.
  - constructor; [by eapply inst_ok_low|]. apply Forall_app. split.
    + eapply Forall_impl; [apply shifted_low, L|]. intros it. apply inst_low_mono. lia.
    + eapply Forall_impl; [exact T|]. intros it. apply inst_ok_low.
  - intros Few. constructor; [done|]. apply Forall_app. split.
    + eapply Forall_impl; [apply (imap_retarget_ok (proglen ps0) (S (proglen ps0))), (K Few)|].
      intros it. apply inst_ok_mono; [lia|done|done].
    + done.
Qed.

Lemma insert_split_p pos ps : ps_p (snd (insert_split pos ps)) = ps_p ps.
Proof. unfold insert_split. destruct (failed _); cbn; apply emit_p. Qed.

Lemma wrap_optional_p pos skip ps : ps_p (wrap_optional pos skip ps) = ps_p ps.
Proof.
  unfold wrap_optional. pose proof (insert_split_p pos ps) as H.
  destruct (insert_split pos ps) as [pc ps']. by destruct (failed ps').
Qed.

Lemma wrap_star_p pos ps : ps_p (wrap_star pos ps) = ps_p ps.
Proof.
  unfold wrap_star. destruct (failed (wrap_optional _ _ _)); [apply wrap_optional_p|].
  destruct (failed (emit _ _ _ _)); unfold set_y; cbn; by rewrite emit_p, wrap_optional_p.
Qed.

Lemma wrap_plus_p pos ps : ps_p (wrap_plus pos ps) = ps_p ps.
Proof.
  unfold wrap_plus. destruct (dfa_emit _ _ _ _) as [pc ps'] eqn:D. apply emit_pc in D as [-> _].
  destruct (failed _); cbn; apply emit_p.
Qed.

Lemma wrap_optional_result k ps0 ps skip : wf ps0 -> extends k ps0 ps ->
  result k ps0 (wrap_optional (proglen ps0) skip ps).
Proof.
  intros W E. destruct (ext_prog _ _ _ E) as (new & P & _).
  destruct (wrap_optional_eq ps0 ps new skip W P) as [F|[F ->]]; [by left|right].
  pose proof (bound_here _ _ _ P).
  rewrite <-(app_nil_r (shifted _ _)). apply ext_split; try done; unfold here in *; cbn [List.length];
    destruct skip; lia.
Qed.

Lemma wrap_star_result k ps0 ps : wf ps0 -> extends k ps0 ps ->
  result k ps0 (wrap_star (proglen ps0) ps).
Proof.
  intros W E. destruct (ext_prog _ _ _ E) as (new & P & _). unfold wrap_star.
  destruct (wrap_optional_eq ps0 ps new false W P) as [F|[F R]]; [rewrite F; by left|].
  destruct (failed (wrap_optional _ _ _)) eqn:F1; [by left|].
  destruct (failed (emit _ _ _ _)) eqn:F2; [by left|right]. apply emit_inv in F2 as [_ ->].
  pose proof (bound_here _ _ _ P) as B.
  match goal with |- extends _ _ ?q => assert (S : q = with_prog (ps_prog ps0 ++
    Inst DFA_SPLIT (here ps0 + 1) (here ps + 2) :: shifted (proglen ps0) new
    ++ [Inst DFA_JMP (here ps0) 0]) ps) end.
  { rewrite R. unfold set_y. cbn [ps_prog with_prog]. rewrite <-app_assoc. cbn [app].
    rewrite alter_here by reflexivity. cbn [i_op i_x].
    replace (here (with_prog _ _)) with (here ps + 2); [reflexivity|].
    unfold here, proglen. cbn [ps_prog with_prog].
    rewrite P, !length_app. cbn [List.length]. rewrite !length_app, length_shifted. cbn [List.length]. lia. }
  rewrite S. apply ext_split; try done; unfold here in *; cbn [List.length]; [lia..|].
  constructor; [|constructor]. unfold inst_ok. cbn [i_op i_x]. lia.
Qed.

Lemma wrap_plus_result k ps0 ps : extends k ps0 ps -> result k ps0 (wrap_plus (proglen ps0) ps).
Proof.
  intros E. destruct (ext_prog _ _ _ E) as (new & P & L & K). unfold wrap_plus.
  destruct (dfa_emit _ _ _ _) as [pc ps'] eqn:D. apply emit_pc in D as [-> D].
  destruct (failed _) eqn:F; [by left|right]. rewrite D by done. apply emit_inv in F as [_ ->].
  unfold set_y. cbn [ps_prog with_prog]. rewrite alter_here by reflexivity. cbn [i_op i_x].
  rewrite P, <-app_assoc. pose proof (bound_here _ _ _ P).
  match goal with |- extends _ _ (with_prog _ (with_prog ?l ps)) =>
    change (with_prog ?a (with_prog l ps)) with (with_prog a ps) end.
  assert (I : inst_ok (S (proglen ps)) (nsets ps) (ngroup ps)
    (Inst DFA_SPLIT (Z.of_nat (proglen ps0)) (here ps + 1))).
  { unfold inst_ok, here in *. cbn [i_op i_x i_y]. lia. }
  replace (here (with_prog _ ps)) with (here ps + 1).
  2: { unfold here, proglen. cbn [ps_prog with_prog]. rewrite P, !length_app. cbn [List.length]. lia. }
  match goal with |- extends _ _ ?q => assert (N : proglen q = S (proglen ps)) end.
  { unfold proglen. cbn [ps_prog with_prog]. rewrite P, !length_app. cbn [List.length]. lia. }
  apply ext_with_prog; [done| |]; rewrite N.
  - apply Forall_app. split; [|constructor; [by eapply inst_ok_low|constructor]].
    eapply Forall_impl; [exact L|]. intros it. apply inst_low_mono. lia.
  - intros Few. apply Forall_app. split; [|constructor; [done|constructor]].
    eapply Forall_impl; [by apply K|]. intros it. apply inst_ok_mono; [lia|done|done].
Qed.

(** ** Sets *)

Lemma fold_add_ok l set : set_ok set -> set_ok (fold_left byteset_add l set).
Proof. revert set. induction l; intros set S; simpl; auto with byteset. Qed.

Lemma add_where_ok f l set : set_ok set -> set_ok (add_where f set l).
Proof. revert set. induction l as [|c l IH]; intros set S; [done|]. apply IH. destruct (f c); auto with byteset. Qed.

Lemma icase_ok set : set_ok set -> set_ok (byteset_icase set).
Proof. apply byteset_icase_spec. Qed.

Lemma range_ok set lo hi set' : set_ok set -> byteset_range set lo hi = Some set' -> set_ok set'.
Proof. intros S. unfold byteset_range. destruct (_ <? _); [done|]. intros [= <-]. by apply fold_add_ok. Qed.

Lemma class_ok set name set' : set_ok set -> byteset_class set name = Some set' -> set_ok set'.
Proof.
  intros S. unfold byteset_class. destruct (class_test name); [|done]. intros E.
  apply Some_inj in E as <-. by apply add_where_ok.
Qed.

Hint Resolve fold_add_ok add_where_ok icase_ok range_ok class_ok : byteset.

Lemma class_name_shorter d l name rest : class_name d l = Some (name, rest) ->
  (List.length rest < List.length l)%nat.
Proof.
  revert name. induction l as [|c l IH]; intros name; [done|]. cbn [class_name].
  destruct l as [|e l']; [done|]. destruct (_ && _); [intros [= _ <-]; cbn; lia|].
  destruct (class_name d (e :: l')) as [[n r]|]; [|done]. intros [= _ <-].
  specialize (IH _ eq_refl). cbn in *. lia.
Qed.

Lemma bracket_item_ok l set set' rest : set_ok set -> bracket_item flags l set = inr (set', rest) ->
  set_ok set' /\ (List.length rest < List.length l)%nat.
Proof.
  intros S. destruct l as [|c [|d l]]; cbn [bracket_item]; [done|intros [= <- <-]; auto with byteset|].
  destruct (_ && _).
  - destruct (class_name d l) as [[name r]|] eqn:N; [|done]. apply class_name_shorter in N.
    destruct (d =? _).
    + destruct (byteset_class set name) eqn:C; [|done]. intros [= <- <-]. cbn. split; [eauto with byteset|lia].
    + destruct (_ =? _)%nat; [|done]. intros [= <- <-]. cbn. split; [auto with byteset|lia].
  - match goal with |- context [match ?o with Some _ => _ | None => _ end] => destruct o end;
      [intros [= <- <-]; cbn; split; [auto with byteset|lia]|].
    destruct l as [|hi l]; [intros [= <- <-]; cbn; split; [auto with byteset|lia]|].
    destruct (_ && _); [|intros [= <- <-]; cbn; split; [auto with byteset|lia]].
    destruct (byteset_range set c hi) eqn:R; [|done]. intros [= <- <-]. cbn. split; [eauto with byteset|lia].
Qed.

Lemma bracket_loop_ok fuel l first set set' rest : set_ok set ->
  bracket_loop flags fuel l first set = inr (set', rest) -> set_ok set' /\ (List.length rest < List.length l)%nat.
Proof.
  revert l first set. induction fuel as [|fuel IH]; intros l first set S; [done|].
  destruct l as [|c l]; [done|]. cbn [bracket_loop].
  destruct (_ && _); [intros [= <- <-]; cbn; split; [done|lia]|].
  destruct (bracket_item flags (c :: l) set) as [e|[set1 l1]] eqn:I; [done|].
  apply bracket_item_ok in I as [S1 L1]; [|done]. intros H. apply IH in H as [S2 L2]; [|done].
  split; [done|lia].
Qed.

Lemma bracket_ok l set rest : dfa_bracket_compile flags l = inr (set, rest) ->
  set_ok set /\ (List.length rest <= List.length l)%nat.
Proof.
  unfold dfa_bracket_compile.
  generalize (match l with c :: _ => c =? ch "^" | [] => false end). intros neg.
  destruct (bracket_loop _ _ _ _ _) as [e|[set1 r]] eqn:B; [done|]. intros [= <- <-].
  apply bracket_loop_ok in B as [S L]; [|apply zero_ok]. split.
  - destruct neg, (has flags DFA_ICASE); auto with byteset.
  - destruct neg; [rewrite length_drop in L|]; lia.
Qed.

Lemma bracket_err l e : dfa_bracket_compile flags l = inl e -> e <> 0.
Proof.
  assert (I : forall l set e, bracket_item flags l set = inl e -> e <> 0).
  { clear. intros l set e. destruct l as [|c [|d l]]; cbn [bracket_item]; [intros [= <-]; done|done|].
    destruct (_ && _).
    - destruct (class_name d l) as [[name r]|]; [|intros [= <-]; done].
      destruct (d =? _); [destruct (byteset_class set name)|destruct (_ =? _)%nat]; intros [= <-]; done.
    - match goal with |- context [match ?o with Some _ => _ | None => _ end] => destruct o end; [done|].
      destruct l as [|hi l]; [done|]. destruct (_ && _); [|done].
      destruct (byteset_range set c hi); intros [= <-]; done. }
  unfold dfa_bracket_compile. generalize (match l with c :: _ => c =? ch "^" | [] => false end). intros neg.
  generalize (if neg then drop 1 l else l) as t. intros t. generalize (S (List.length t)) as fuel, true, byteset_zero.
  intros fuel. revert t.
  assert (B : forall t first set, bracket_loop flags fuel t first set = inl e -> e <> 0).
  { induction fuel as [|fuel IH]; intros t first set; [intros [= <-]; done|].
    destruct t as [|c t]; [intros [= <-]; done|]. cbn [bracket_loop]. destruct (_ && _); [done|].
    destruct (bracket_item flags (c :: t) set) as [e'|[set1 l1]] eqn:E; [intros [= <-]; by eapply I|apply IH]. }
  intros t first set. specialize (B t first set). destruct (bracket_loop _ _ _ _ _) as [e'|[s r]]; [|done].
  intros [= <-]. by apply B.
Qed.

Lemma set_index_bound set l i k : set_index set l i = Some k -> i <= k < i + Z.of_nat (List.length l).
Proof.
  revert i. induction l as [|s l IH]; intros i; [done|]. cbn [set_index List.length].
  destruct (bool_decide _); [intros [= <-]; lia|]. intros H. apply IH in H. lia.
Qed.

Lemma emit_set_result k ps0 ps set : extends k ps0 ps -> set_ok set -> result k ps0 (emit_set set ps).
Proof.
  intros E S. unfold emit_set, dfa_addset. destruct (failed ps) eqn:F.
  { left. cbn beta iota. by rewrite emit_failed. }
  destruct (set_index set (ps_sets ps) 0) as [i|] eqn:I.
  - apply emit_result; [done|]. apply set_index_bound in I. unfold inst_ok. cbn [i_op i_x]. lia.
  - apply emit_result.
    + destruct E as [(n & P & L & K) (l & T & O) G B D M]. split; try done.
      * exists n. split; [done|]. split; [done|]. intros Few. eapply Forall_impl; [by apply K|].
        intros it. apply inst_ok_mono; cbn; rewrite ?length_app; lia || done.
      * exists (l ++ [set]). cbn. rewrite T, app_assoc. split; [done|]. apply Forall_app.
        split; [done|]. by constructor.
    + unfold inst_ok. cbn [i_op i_x ps_sets with_sets]. rewrite length_app. cbn. lia.
Qed.

Lemma emit_byte_result k ps0 ps c : extends k ps0 ps -> 0 <= c -> result k ps0 (emit_byte flags c ps).
Proof.
  intros E C. unfold emit_byte. destruct (_ && _).
  - apply emit_set_result; [done|auto with byteset].
  - by apply emit_result.
Qed.

(** ** One atom *)

(** As [result], for a function that may be called after an error: errors
    stay. *)
Definition outcome (k : nat) (ps ps' : parser) : Prop :=
  failed ps' = true \/ (failed ps = false /\ extends k ps ps').

Lemma outcome_refl ps : wf ps -> outcome 0 ps ps.
Proof. intros W. unfold outcome. destruct (failed ps); [by left|right]. split; [done|by apply ext_refl]. Qed.

Lemma outcome_lift j k ps0 ps ps' : outcome j ps0 ps -> (failed ps = true -> failed ps' = true) ->
  (extends j ps0 ps -> result k ps0 ps') -> outcome k ps0 ps'.
Proof.
  intros [F|[F E]] S R; [left; auto|]. destruct (R E) as [F'|E']; [by left|by right].
Qed.

Lemma emit_outcome k ps0 ps op x y : outcome k ps0 ps ->
  (extends k ps0 ps -> inst_ok (S (proglen ps)) (nsets ps) (ngroup ps) (Inst op x y)) ->
  outcome k ps0 (emit op x y ps).
Proof.
  intros O I. eapply outcome_lift; [exact O| |].
  - intros F. by rewrite emit_failed.
  - intros E. apply emit_result; auto.
Qed.

Lemma emit_set_failed set ps : failed ps = true -> failed (emit_set set ps) = true.
Proof. intros F. unfold emit_set, dfa_addset. rewrite F. cbn beta iota. by rewrite emit_failed. Qed.

Lemma emit_set_outcome k ps0 ps set : outcome k ps0 ps -> set_ok set -> outcome k ps0 (emit_set set ps).
Proof.
  intros O S. eapply outcome_lift; [exact O|apply emit_set_failed|].
  intros E. by apply emit_set_result.
Qed.

Lemma emit_byte_outcome k ps0 ps c : outcome k ps0 ps -> 0 <= c -> outcome k ps0 (emit_byte flags c ps).
Proof.
  intros O C. eapply outcome_lift; [exact O| |].
  - intros F. unfold emit_byte. destruct (_ && _); [by apply emit_set_failed|by rewrite emit_failed].
  - intros E. by apply emit_byte_result.
Qed.

Lemma ext_at k n ps0 ps p : extends k ps0 ps -> (ps_p ps0 + n <= p <= ps_end ps0)%nat ->
  extends n ps0 (at_p p ps).
Proof. intros [] L. split; done. Qed.

Lemma advance_outcome k n m ps0 ps : outcome k ps0 ps -> (m <= k + n)%nat ->
  (extends k ps0 ps -> (ps_p ps + n <= ps_end ps)%nat) -> outcome m ps0 (advance n ps).
Proof.
  intros O M L. eapply outcome_lift; [exact O|done|]. intros E. right.
  specialize (L E). eapply ext_at; [exact E|]. destruct E. lia.
Qed.

(** Reading the pattern *)
Context (Hpat : Forall is_byte pat).

Lemma peek_byte i ps : is_byte (peek pat i ps).
Proof.
  unfold peek. rewrite cnth_lookup. destruct (pat !! _) eqn:L; [|done].
  by eapply Forall_lookup_1 in L; [|exact Hpat].
Qed.

Lemma more_le i ps : more i ps = true -> (S (ps_p ps + i) <= ps_end ps)%nat.
Proof. unfold more. intros. zify_bool. lia. Qed.

Lemma special_more c ps : at_special pat flags c ps = true -> (ps_p ps + special_len flags <= ps_end ps)%nat.
Proof.
  unfold at_special, special_len, at_byte, at_escaped. destruct (ere flags); intros H.
  - apply andb_true_iff in H as [H _]. apply more_le in H. lia.
  - rewrite !andb_true_iff in H. destruct H as [[H _] _]. apply more_le in H. lia.
Qed.

Lemma special_pos : (1 <= special_len flags <= 2)%nat.
Proof. unfold special_len. destruct (ere flags); lia. Qed.

Lemma text_length i ps : (List.length (text pat i ps) <= ps_end ps - (ps_p ps + i))%nat.
Proof. unfold text. rewrite length_take. lia. Qed.

Lemma escape_digits_ok l base digits n got : 0 <= n -> 0 <= base ->
  0 <= fst (escape_digits l base digits n got) /\
  (snd (escape_digits l base digits n got) <= got + List.length l)%nat.
Proof.
  revert l n got. induction digits as [|d IH]; intros [|c l] n got N B; cbn [escape_digits fst snd List.length];
    try (split; lia).
  destruct (Z.leb_spec base (digit_value c)); [cbn; split; lia|].
  assert (D : 0 <= digit_value c).
  { unfold digit_value. repeat match goal with |- context [if ?a then _ else _] => destruct a eqn:? end; bool_lia. }
  destruct (IH l (n * base + digit_value c) (S got)) as [X Y]; [nia|done|]. split; [done|lia].
Qed.

Lemma gnu_escape_ok e l v k : gnu_escape e l = Some (v, k) -> 0 <= v /\ (k <= List.length l)%nat.
Proof.
  unfold gnu_escape. cbn zeta.
  assert (Num : forall base digits, 0 <= base -> (let '(n, got) := escape_digits l base digits 0 0 in
    if (0 <? got)%nat then Some (Z.land n 255, got) else None) = Some (v, k) -> 0 <= v /\ (k <= List.length l)%nat).
  { intros base digits B. pose proof (escape_digits_ok l base digits 0 0) as O.
    destruct (escape_digits l base digits 0 0) as [n got]. cbn in O.
    destruct (_ <? _)%nat; [|done]. intros [= <- <-]. split; [apply Z.land_nonneg; lia|lia]. }
  repeat match goal with |- (if ?a then _ else _) = _ -> _ => destruct a end;
    try (intros [= <- <-]; split; lia); try (apply Num; lia); done.
Qed.

Lemma parse_escape_outcome ps : wf ps -> more 0 ps = true -> outcome 1 ps (parse_escape pat flags ps).
Proof.
  intros W M0. unfold parse_escape. destruct (more 1 ps) eqn:M; [|left; by apply fail_failed].
  apply more_le in M. cbn [negb].
  assert (A : forall k, (ps_p ps + (2 + k) <= ps_end ps)%nat -> outcome 1 ps (advance (2 + k) ps)).
  { intros k L. eapply advance_outcome; [by apply outcome_refl|lia|]. intros _. lia. }
  pose proof (A 0%nat ltac:(lia)) as A0. pose proof (peek_byte 1 ps) as P. unfold is_byte in P.
  destruct (_ && _) eqn:Dig.
  { destruct (Z.ltb_spec (Z.of_nat (ngroup ps)) (peek pat 1 ps - 48)) as [|L]; [left; by apply fail_failed|].
    apply emit_outcome.
    - destruct A0 as [F|[F []]]; [by left|right; by split].
    - intros _. unfold inst_ok. cbn [i_op i_x]. change (ngroup (with_backref _)) with (ngroup ps). bool_lia. }
  match goal with |- context [match ?o with Some _ => _ | None => _ end] => destruct o as [[v k]|] eqn:G end.
  { destruct (has flags DFA_ESC); [|done]. apply gnu_escape_ok in G as [V K].
    pose proof (text_length 2 ps). apply emit_outcome; [apply A; lia|done]. }
  destruct (word_kind _) as [k|] eqn:K.
  { eapply advance_outcome; [eapply emit_outcome; [by apply outcome_refl|done]|lia|].
    intros E. rewrite emit_p, (ext_end _ _ _ E). lia. }
  destruct (_ || _).
  - apply emit_set_outcome; [exact A0|]. unfold class_escape.
    destruct (_ || _) at 1; auto using add_where_ok with byteset.
  - apply emit_byte_outcome; [exact A0|lia].
Qed.

(** ** Functions that call back *)

(** [F] returns on every state at nesting depth [N], and extends it. *)
Definition good (N : Z) (k : nat) (F : parser -> option parser) : Prop :=
  forall ps, wf ps -> ps_nest ps = N -> exists ps', F ps = Some ps' /\ outcome k ps ps'.

Lemma outcome_wf k ps ps' : wf ps -> outcome k ps ps' -> failed ps' = false -> wf ps' /\ failed ps = false.
Proof. intros W [F|[F E]] F'; [congruence|]. split; [by eapply extends_wf|done]. Qed.

Lemma emit_wf op x y ps : wf ps -> inst_low (S (proglen ps)) (Inst op x y) -> wf (emit op x y ps).
Proof.
  intros W L. destruct (failed (emit op x y ps)) eqn:F.
  - destruct W. unfold emit, dfa_emit in *. destruct (failed ps) eqn:F0; [done|].
    destruct (_ <=? _); [done|]. unfold failed in F, F0. cbn in F. congruence.
  - apply emit_inv in F as [_ ->]. destruct W as [Wp We Wl Ws]. split; try done.
    assert (N : proglen (with_prog (ps_prog ps ++ [Inst op x y]) ps) = S (proglen ps)).
    { unfold proglen. cbn. rewrite length_app. cbn. lia. }
    rewrite N. apply Forall_app. split; [|by constructor].
    eapply Forall_impl; [exact Wl|]. intros it. apply inst_low_mono. lia.
Qed.

Lemma index_of_bound src l i k : index_of src l i = Some k -> (i <= k < i + List.length l)%nat.
Proof.
  revert i. induction l as [|g l IH]; intros i; [done|]. cbn [index_of List.length].
  destruct (_ =? _)%nat; [intros [= <-]; lia|]. intros H. apply IH in H. lia.
Qed.

Lemma group_index_outcome src k ps0 ps : outcome k ps0 ps ->
  let '(g, ps') := group_index src ps in
  outcome k ps0 ps' /\ ps_nest ps' = ps_nest ps /\ ps_p ps' = ps_p ps /\ (failed ps' = false -> (g < ngroup ps')%nat).
Proof.
  intros O. unfold group_index. destruct (index_of _ _ _) as [i|] eqn:I.
  { apply index_of_bound in I. unfold ngroup. split_and!; try done. intros; lia. }
  destruct (_ <=? _)%nat; [split_and!; try done; by left|].
  split; [|split_and!; try done; intros _; unfold ngroup; cbn; rewrite length_app; cbn; lia].
  eapply outcome_lift; [exact O|done|]. intros [(n & P & L & K) S (l & G) B D M]. right. split; try done.
  - exists n. split; [done|]. split; [done|]. intros Few. eapply Forall_impl; [by apply K|].
    intros it. apply inst_ok_mono; cbn; try done. unfold ngroup. cbn. rewrite length_app. lia.
  - exists (l ++ [src]). cbn. by rewrite G, app_assoc.
Qed.

Lemma ext_nest_back k n ps ps' : extends k (with_nest n ps) ps' -> extends k ps (with_nest (ps_nest ps) ps').
Proof. intros []. split; done. Qed.

Lemma parse_group_outcome N alt ps : good (N + 1) 0 alt \/ DFA_MAXNEST < N + 1 ->
  wf ps -> ps_nest ps = N -> at_special pat flags (ch "(") ps = true ->
  exists ps', parse_group pat flags alt ps = Some ps' /\ outcome 1 ps ps'.
Proof.
  intros G W Nest At. apply special_more in At. pose proof special_pos as Sp. unfold parse_group.
  set (psN := with_nest (ps_nest ps + 1) ps).
  assert (WN : wf psN) by (by destruct W).
  change (with_nest (ps_nest (advance ?n ps) + 1) (advance ?n ps)) with (advance n psN).
  cbn [ps_nest advance at_p psN with_nest]. fold psN.
  destruct (Z.ltb_spec DFA_MAXNEST (ps_nest ps + 1)).
  { eexists. split; [reflexivity|]. left. by apply fail_failed. }
  destruct G as [G|G]; [|lia].
  assert (O1 : outcome 1 psN (advance (special_len flags) psN)).
  { eapply advance_outcome; [by apply outcome_refl|lia|]. intros _. exact At. }
  pose proof (group_index_outcome (ps_p ps) 1 psN _ O1) as O2.
  destruct (group_index _ _) as [g ps2]. destruct O2 as (O2 & N2 & P2 & Gb).
  destruct (failed ps2) eqn:F2; [eexists; split; [reflexivity|by left]|]. specialize (Gb eq_refl).
  destruct (outcome_wf _ _ _ WN O2 F2) as [W2 FN].
  pose proof (outcome_refl ps2 W2) as R2.
  set (psS := emit DFA_SAVE (2 * Z.of_nat g) 0 ps2).
  assert (OS : outcome 0 ps2 psS).
  { apply emit_outcome; [done|]. intros _. unfold inst_ok. cbn [i_op i_x]. lia. }
  destruct (G psS) as (ps3 & R3 & O3).
  { by apply emit_wf. }
  { unfold psS. rewrite emit_nest, N2. cbn. lia. }
  rewrite R3. destruct (failed ps3) eqn:F3; [eexists; split; [reflexivity|by left]|].
  destruct (at_special pat flags (ch ")") ps3) eqn:Cl; cbn [negb];
    [|eexists; split; [reflexivity|left; by apply fail_failed]].
  apply special_more in Cl. eexists; split; [reflexivity|].
  destruct O3 as [?|[FS E3]]; [congruence|]. destruct OS as [?|[_ ES]]; [congruence|].
  destruct O2 as [?|[_ E2]]; [congruence|].
  assert (E : extends 1 psN ps3).
  { eapply (ext_trans 1 0); [lia|exact E2|]. eapply (ext_trans 0 0); [lia|exact ES|exact E3]. }
  assert (E' : extends 1 psN (advance (special_len flags) ps3)).
  { eapply ext_at; [exact E|]. pose proof (ext_p _ _ _ E). pose proof (ext_end _ _ _ E). lia. }
  apply ext_nest_back in E'. pose proof (ext_nest _ _ _ E) as M. cbn [ps_nest psN with_nest] in M.
  replace (ps_nest ps3 - 1) with (ps_nest ps) by (unfold psN in M; cbn in M; lia).
  apply emit_outcome; [right; split; [exact FN|exact E']|]. intros _.
  pose proof (ext_len _ _ _ E3). pose proof (ext_len _ _ _ ES). unfold inst_ok. cbn [i_op i_x].
  change (ngroup (with_nest _ _)) with (ngroup ps3). lia.
Qed.

Lemma parse_atom_good N alt : good (N + 1) 0 alt \/ DFA_MAXNEST < N + 1 -> good N 1 (parse_atom pat flags alt).
Proof.
  intros G ps W Nest. unfold parse_atom.
  destruct (more 0 ps) eqn:M; [|eexists; split; [reflexivity|left; by apply fail_failed]].
  pose proof (more_le _ _ M) as L. cbn [negb].
  assert (A : outcome 1 ps (advance 1 ps)).
  { eapply advance_outcome; [by apply outcome_refl|lia|]. intros _. lia. }
  destruct (peek pat 0 ps =? ch ".").
  { eexists. split; [reflexivity|]. by apply emit_outcome. }
  destruct (peek pat 0 ps =? ch "[").
  { eexists. split; [reflexivity|].
    destruct (dfa_bracket_compile _ _) as [e|[set rest]] eqn:B.
    - left. apply fail_failed. by eapply bracket_err.
    - apply bracket_ok in B as [S R]. pose proof (text_length 1 ps).
      apply emit_set_outcome; [|done]. eapply outcome_lift; [by apply outcome_refl|done|].
      intros E. right. eapply ext_at; [exact E|]. lia. }
  destruct (at_special pat flags (ch "(") ps) eqn:At; [by eapply parse_group_outcome|].
  destruct (_ && _); [eexists; split; [reflexivity|]; by apply emit_outcome|].
  destruct (_ && _); [eexists; split; [reflexivity|]; by apply emit_outcome|].
  destruct (_ =? _); [eexists; split; [reflexivity|]; by apply parse_escape_outcome|].
  eexists; split; [reflexivity|]. apply emit_byte_outcome; [done|]. apply peek_byte.
Qed.

(** ** Pieces *)

Section Piece.
Context (N : Z) (atom : parser -> option parser) (atom_good : good N 1 atom).

Lemma reparse_outcome src srcend ps : wf ps -> ps_nest ps = N -> (src <= srcend <= List.length pat)%nat ->
  exists ps', reparse atom src srcend ps = Some ps' /\ outcome 0 ps ps'.
Proof.
  intros W M L. unfold reparse. destruct (atom_good (within src srcend ps)) as (ps' & R & O).
  { destruct W. split; try done; cbn; lia. }
  { done. }
  rewrite R. eexists. split; [reflexivity|]. destruct O as [F|[F E]]; [by left|right]. split; [exact F|].
  destruct W, E. split; try done. cbn. lia.
Qed.

Lemma copies_outcome src srcend opt k ps : wf ps -> ps_nest ps = N -> (src <= srcend <= List.length pat)%nat ->
  exists ps', copies atom src srcend opt k ps = Some ps' /\ outcome 0 ps ps'.
Proof.
  intros W M L. revert ps W M. induction k as [|k IH]; intros ps W M; cbn [copies].
  { eexists. split; [reflexivity|]. by apply outcome_refl. }
  destruct (failed ps) eqn:F; [eexists; split; [reflexivity|by left]|].
  destruct (reparse_outcome src srcend ps W M L) as (ps1 & R & O). rewrite R.
  assert (Next : forall ps2, result 0 ps ps2 ->
    exists ps', copies atom src srcend opt k ps2 = Some ps' /\ outcome 0 ps ps').
  { intros ps2 [F2|E2].
    - exists ps2. split; [|by left]. destruct k; [done|]. cbn [copies]. by rewrite F2.
    - destruct (IH ps2) as (ps3 & R3 & O3); [by eapply extends_wf|by rewrite (ext_nest _ _ _ E2)|].
      exists ps3. split; [done|]. destruct O3 as [F3|[_ E3]]; [by left|right].
      split; [done|]. eapply (ext_trans 0 0); [lia|done|done]. }
  assert (Rs : result 0 ps ps1) by (destruct O as [F1|[_ E]]; [by left|by right]).
  destruct opt; [|by apply Next].
  destruct (failed ps1) eqn:F1; [eexists; split; [reflexivity|by left]|].
  destruct Rs as [|E1]; [congruence|]. apply Next. by apply wrap_optional_result.
Qed.

(** What follows an atom works on the code behind [ps0]. *)
Definition piece_end (k : nat) (ps0 : parser) (o : option parser) : Prop :=
  exists ps', o = Some ps' /\ result k ps0 ps'.

Lemma piece_then k ps0 ps o : extends k ps0 ps -> failed ps = false ->
  (exists ps', o = Some ps' /\ outcome 0 ps ps') -> piece_end k ps0 o.
Proof.
  intros E F (ps' & R & [F'|[_ E']]); exists ps'; (split; [done|]); [by left|right].
  eapply ext_trans; [|done|done]. lia.
Qed.

Lemma apply_interval_result k ps0 ps src srcend m n : wf ps0 -> ps_nest ps0 = N ->
  extends k ps0 ps -> failed ps = false -> (src <= srcend <= List.length pat)%nat ->
  piece_end k ps0 (apply_interval atom (proglen ps0) src srcend m n ps).
Proof.
  intros W M E F L. unfold apply_interval.
  destruct (_ && _); [eexists; split; [reflexivity|]; by apply wrap_optional_result|].
  assert (R : result k ps0 (if m =? 0 then wrap_optional (proglen ps0) false ps else ps)).
  { destruct (m =? 0); [by apply wrap_optional_result|by right]. }
  generalize dependent (if m =? 0 then wrap_optional (proglen ps0) false ps else ps). intros ps1 R.
  assert (C : piece_end k ps0 (copies atom src srcend false (Z.to_nat (m - 1)) ps1)).
  { destruct (failed ps1) eqn:F1.
    - exists ps1. split; [|by left]. destruct (Z.to_nat _); [done|]. cbn [copies]. by rewrite F1.
    - destruct R as [|E1]; [congruence|]. eapply piece_then; [done|done|].
      apply copies_outcome; [by eapply extends_wf|by rewrite (ext_nest _ _ _ E1)|done]. }
  destruct C as (ps2 & -> & R2). destruct (failed ps2) eqn:F2; [eexists; split; [reflexivity|by left]|].
  destruct R2 as [|E2]; [congruence|].
  assert (W2 : wf ps2) by (by eapply extends_wf). assert (M2 : ps_nest ps2 = N) by (by rewrite (ext_nest _ _ _ E2)).
  destruct (_ <? _).
  - destruct (reparse_outcome src srcend ps2 W2 M2 L) as (ps3 & -> & O3).
    destruct (failed ps3) eqn:F3; [eexists; split; [reflexivity|by left]|].
    destruct O3 as [|[_ E3]]; [congruence|].
    eapply piece_then; [exact E2|exact F2|]. eexists. split; [reflexivity|].
    destruct (wrap_star_result _ _ _ W2 E3) as [|E4]; [by left|right]. by split.
  - eapply piece_then; [exact E2|exact F2|]. by apply copies_outcome.
Qed.

Lemma dup_digits_ok l a k v j : 0 <= a -> dup_digits l a k = Some (v, j) ->
  0 <= v /\ (k <= j <= k + List.length l)%nat.
Proof.
  revert a k. induction l as [|c l IH]; intros a k A; cbn [dup_digits List.length]; [intros [= <- <-]; lia|].
  destruct (c_isdigit c) eqn:D; [|intros [= <- <-]; lia]. apply c_isdigit_spec in D.
  destruct (_ <? _); [done|]. intros H. apply IH in H; [|lia]. lia.
Qed.

Lemma parse_interval_spec_ok k ps0 ps : extends k ps0 ps ->
  match parse_interval_spec pat ps with
  | (ps', None) => failed ps' = true
  | (ps', Some _) => extends k ps0 ps' /\ failed ps' = failed ps
  end.
Proof.
  intros E. pose proof (ext_p _ _ _ E). pose proof (ext_end _ _ _ E).
  unfold parse_interval_spec. destruct (dup_digits (text pat 0 ps) 0 0) as [[a j]|] eqn:D;
    [|by apply fail_failed].
  apply dup_digits_ok in D as [A J]; [|lia]. pose proof (text_length 0 ps).
  destruct (_ && _); [by apply fail_failed|].
  assert (E1 : extends k ps0 (advance j ps)) by (eapply ext_at; [exact E|lia]).
  destruct (at_byte _ _ _) eqn:C.
  - apply andb_true_iff in C as [C _]. apply more_le in C.
    destruct (dup_digits (text pat 1 _) 0 0) as [[v i]|] eqn:D; [|by apply fail_failed].
    apply dup_digits_ok in D as [V I]; [|lia]. pose proof (text_length 1 (advance j ps)).
    destruct (_ && _); [by apply fail_failed|]. split; [|done].
    eapply ext_at; [exact E1|]. pose proof (ext_end _ _ _ E1). pose proof (ext_p _ _ _ E1). lia.
  - destruct (_ && _); [by apply fail_failed|]. by split.
Qed.

Lemma parse_interval_result k ps0 ps src srcend : wf ps0 -> ps_nest ps0 = N ->
  extends k ps0 ps -> failed ps = false -> (src <= srcend <= List.length pat)%nat ->
  (ps_p ps + special_len flags <= ps_end ps)%nat ->
  piece_end k ps0 (parse_interval pat flags atom (proglen ps0) src srcend ps).
Proof.
  intros W M E F L S. unfold parse_interval.
  pose proof (ext_p _ _ _ E). pose proof (ext_end _ _ _ E).
  assert (E1 : extends k ps0 (advance (special_len flags) ps)) by (eapply ext_at; [exact E|lia]).
  pose proof (parse_interval_spec_ok _ _ _ E1) as P.
  destruct (parse_interval_spec _ _) as [ps2 [[m n]|]]; [|eexists; split; [reflexivity|by left]].
  destruct P as [E2 F2].
  destruct (at_special pat flags (ch "}") ps2) eqn:At; cbn [negb];
    [|eexists; split; [reflexivity|left; by apply fail_failed]].
  apply special_more in At. apply apply_interval_result; try done.
  - eapply ext_at; [exact E2|]. pose proof (ext_p _ _ _ E2). pose proof (ext_end _ _ _ E2). lia.
  - unfold advance, failed in *. cbn in *. congruence.
Qed.

Lemma stacked_result fuel k ps0 ps : wf ps0 -> extends k ps0 ps -> failed ps = false ->
  (ps_end ps - ps_p ps < fuel)%nat -> piece_end k ps0 (stacked pat flags fuel (proglen ps0) ps).
Proof.
  intros W. revert ps. induction fuel as [|fuel IH]; intros ps E F L; [lia|]. cbn [stacked].
  pose proof special_pos as Sp. pose proof (ext_p _ _ _ E). pose proof (ext_end _ _ _ E).
  assert (Go : forall n ps1, (1 <= n)%nat -> (ps_p ps + n <= ps_end ps)%nat ->
    ps_p ps1 = ps_p (advance n ps) -> (extends k ps0 (advance n ps) -> result k ps0 ps1) ->
    piece_end k ps0 (if failed ps1 then Some ps1 else stacked pat flags fuel (proglen ps0) ps1)).
  { intros n ps1 N1 Nn P R. destruct (failed ps1) eqn:F1; [eexists; split; [reflexivity|by left]|].
    destruct R as [|E1]; [|congruence|]; [eapply ext_at; [exact E|lia]|].
    pose proof (ext_end _ _ _ E1). apply IH; [done|done|]. cbn in P. lia. }
  destruct (at_byte _ _ _) eqn:A1.
  { apply andb_true_iff in A1 as [A1 _]. apply more_le in A1.
    apply (Go 1%nat); [lia|lia|apply wrap_star_p|by apply wrap_star_result]. }
  destruct (at_special pat flags (ch "+") ps) eqn:A2.
  { apply special_more in A2.
    apply (Go (special_len flags)); [lia|lia|apply wrap_plus_p|apply wrap_plus_result]. }
  destruct (at_special pat flags (ch "?") ps) eqn:A3.
  { apply special_more in A3.
    apply (Go (special_len flags)); [lia|lia|apply wrap_optional_p|by apply wrap_optional_result]. }
  eexists. split; [reflexivity|by right].
Qed.

Lemma at_interval_more ps : at_interval pat flags ps = true ->
  (ps_p ps + special_len flags <= ps_end ps)%nat.
Proof.
  unfold at_interval. destruct (ere flags) eqn:Er; intros H; apply (special_more (ch "{"));
    unfold at_special; rewrite Er; [|done]. rewrite !andb_true_iff in H. tauto.
Qed.

Lemma parse_piece_good : good N 1 (parse_piece pat flags atom).
Proof.
  intros ps W M. unfold parse_piece. destruct (atom_good ps W M) as (ps1 & -> & O).
  destruct (failed ps1) eqn:F1; [eexists; split; [reflexivity|by left]|].
  destruct O as [|[F E1]]; [congruence|].
  assert (P : forall o, piece_end 1 ps o -> exists ps', o = Some ps' /\ outcome 1 ps ps').
  { intros o (ps' & R & [F'|E']); exists ps'; (split; [done|]); [by left|by right]. }
  apply P. destruct (_ && _); [eexists; split; [reflexivity|by right]|].
  destruct (stacked_result (passes ps1) 1 ps ps1) as (ps2 & -> & R2); [done|done|done|unfold passes; lia|].
  destruct (failed ps2) eqn:F2; [eexists; split; [reflexivity|by left]|].
  destruct R2 as [|E2]; [congruence|].
  destruct (at_interval pat flags ps2) eqn:At; [|eexists; split; [reflexivity|by right]].
  apply at_interval_more in At. apply parse_interval_result; try done.
  pose proof (ext_p _ _ _ E1). pose proof (ext_end _ _ _ E1). pose proof (wf_end _ W). lia.
Qed.

Lemma parse_seq_outcome fuel ps : wf ps -> ps_nest ps = N -> (ps_end ps - ps_p ps < fuel)%nat ->
  exists ps', parse_seq pat flags fuel atom ps = Some ps' /\ outcome 0 ps ps'.
Proof.
  revert ps. induction fuel as [|fuel IH]; intros ps W M L; [lia|]. cbn [parse_seq].
  destruct (_ || _); [eexists; split; [reflexivity|by apply outcome_refl]|].
  destruct (parse_piece_good ps W M) as (ps1 & -> & O).
  destruct (failed ps1) eqn:F1; [eexists; split; [reflexivity|by left]|].
  destruct O as [|[F E]]; [congruence|]. pose proof (ext_p _ _ _ E). pose proof (ext_end _ _ _ E).
  destruct (IH ps1) as (ps2 & -> & O2); [by eapply extends_wf|by rewrite (ext_nest _ _ _ E)|lia|].
  exists ps2. split; [done|]. destruct O2 as [|[_ E2]]; [by left|right].
  split; [done|]. eapply (ext_trans 1 0); [lia|done|done].
Qed.

End Piece.

(** ** Alternation *)

(** [extends] without the claim on operands: targets may be unresolved *)
Record frame (ps ps' : parser) : Prop := {
  fr_prog : exists new, ps_prog ps' = ps_prog ps ++ new /\ Forall (inst_low (proglen ps')) new;
  fr_sets : exists l, ps_sets ps' = ps_sets ps ++ l /\ Forall set_ok l;
  fr_gsrc : exists l, ps_gsrc ps' = ps_gsrc ps ++ l;
  fr_p : (ps_p ps <= ps_p ps' <= ps_end ps)%nat;
  fr_end : ps_end ps' = ps_end ps;
  fr_nest : ps_nest ps' = ps_nest ps
}.

(** The code behind [from] satisfies [P], which sees the address. *)
Definition code_from (from : nat) (P : nat -> dfa_inst -> Prop) (l : list dfa_inst) : Prop :=
  forall i it, l !! i = Some it -> (from <= i)%nat -> P i it.

Lemma ext_frame k ps ps' : extends k ps ps' -> frame ps ps'.
Proof.
  intros [(n & P & L & _) S G B D M]. split; try done; [by exists n|]. lia.
Qed.

Lemma ext_code k ps ps' : extends k ps ps' -> few_bars ->
  code_from (proglen ps) (fun _ => code_ok ps') (ps_prog ps').
Proof.
  intros [(n & P & _ & K) _ _ _ _ _] Few i it L I. rewrite P, lookup_app_r in L by done.
  eapply Forall_lookup_1; [by apply K|exact L].
Qed.

Lemma frame_ext ps ps' : frame ps ps' ->
  (few_bars -> code_from (proglen ps) (fun _ => code_ok ps') (ps_prog ps')) -> extends 0 ps ps'.
Proof.
  intros [(n & P & L) S G B D M] C. split; try done; [|lia]. exists n. split; [done|]. split; [done|].
  intros Few. apply Forall_lookup. intros i it I. apply (C Few (proglen ps + i)%nat); [|lia].
  rewrite P. unfold proglen. by rewrite lookup_app_r, Nat.add_sub' by lia.
Qed.

Lemma frame_len ps ps' : frame ps ps' ->
  (proglen ps <= proglen ps' /\ nsets ps <= nsets ps' /\ ngroup ps <= ngroup ps')%nat.
Proof.
  intros [(new & P & _) (ls & S & _) (lg & G) _ _ _]. unfold proglen, ngroup.
  rewrite P, S, G, !length_app. lia.
Qed.

Lemma frame_trans ps ps1 ps2 : frame ps ps1 -> frame ps1 ps2 -> frame ps ps2.
Proof.
  intros E1 E2. pose proof (frame_len _ _ E2).
  destruct E1 as [(n1 & P1 & W1) (s1 & S1 & O1) (g1 & G1) B1 D1 M1],
           E2 as [(n2 & P2 & W2) (s2 & S2 & O2) (g2 & G2) B2 D2 M2].
  split; [|exists (s1 ++ s2); rewrite S2, S1, app_assoc; split; [done|by apply Forall_app]
          |exists (g1 ++ g2); by rewrite G2, G1, app_assoc|lia|congruence|congruence].
  exists (n1 ++ n2). rewrite P2, P1, app_assoc. split; [done|]. apply Forall_app. split; [|done].
  eapply Forall_impl; [exact W1|]. intros it. apply inst_low_mono. lia.
Qed.

Lemma frame_wf ps ps' : wf ps -> frame ps ps' -> wf ps'.
Proof.
  intros W E. pose proof (frame_len _ _ E).
  destruct W as [Wp We Wl Ws], E as [(n & P & L) (l & S & O) _ B D _].
  split; [lia|lia| |].
  - rewrite P. apply Forall_app. split; [|done]. eapply Forall_impl; [exact Wl|].
    intros it. apply inst_low_mono. lia.
  - rewrite S. by apply Forall_app.
Qed.

(** Replacing the code behind [ps] *)
Lemma frame_with_prog ps ps' new : frame ps ps' ->
  Forall (inst_low (List.length (ps_prog ps ++ new))) new ->
  frame ps (with_prog (ps_prog ps ++ new) ps').
Proof. intros [_ S G B D M] L. split; try done. by exists new. Qed.

Lemma bars_mono p q : (p <= q)%nat -> (bars q <= bars p)%nat.
Proof.
  intros L. unfold bars. replace q with (p + (q - p))%nat by lia. rewrite <-drop_drop.
  generalize (drop p pat) (q - p)%nat. clear. intros l n. revert n.
  induction l as [|c l IH]; intros [|n]; cbn; try lia. specialize (IH n).
  destruct (bar =? c); cbn; lia.
Qed.

Lemma bars_bar p : cnth pat p = bar -> bars p = S (bars (S p)).
Proof.
  rewrite cnth_lookup. destruct (pat !! p) as [c|] eqn:C; [|done]. cbn. intros ->.
  unfold bars. by rewrite (drop_S _ _ _ C).
Qed.

Lemma at_bar ps : at_special pat flags (ch "|") ps = true ->
  (S (bars (ps_p ps + special_len flags)) <= bars (ps_p ps))%nat.
Proof.
  unfold at_special, special_len. destruct (ere flags); intros H.
  - apply andb_true_iff in H as [_ H]. unfold peek in H. rewrite Nat.add_0_r in H.
    apply Z.eqb_eq, bars_bar in H. rewrite H. replace (S (ps_p ps)) with (ps_p ps + 1)%nat by lia. lia.
  - apply andb_true_iff in H as [_ H]. unfold peek in H. apply Z.eqb_eq, bars_bar in H.
    replace (ps_p ps + 2)%nat with (S (ps_p ps + 1)) by lia. rewrite <-H. apply bars_mono. lia.
Qed.

Lemma alt_len_at ps : (alt_len pat flags ps =? 0)%nat = negb (at_special pat flags (ch "|") ps).
Proof.
  unfold alt_len. pose proof special_pos. destruct (at_special _ _ _ _); [|done].
  apply Nat.eqb_neq. lia.
Qed.

(** Unresolved jumps and the unresolved split of an alternation *)
Definition pending (jmps : list Z) (ps : parser) (i : nat) (it : dfa_inst) : Prop :=
  (Z.of_nat i ∈ jmps -> i_op it = DFA_JMP) /\ (Z.of_nat i ∉ jmps -> code_ok ps it).

Definition pending_split (split_pc : Z) (jmps : list Z) (ps : parser) (i : nat) (it : dfa_inst) : Prop :=
  if bool_decide (Z.of_nat i = split_pc)
  then i_op it = DFA_SPLIT /\ 0 <= i_x it <= here ps /\ split_pc ∉ jmps
  else pending jmps ps i it.

Record alternation (split_pc : Z) (jmps : list Z) (ps0 ps : parser) : Prop := {
  al_frame : frame ps0 ps;
  al_split : here ps0 <= split_pc < here ps;
  al_jumps : Forall (fun j => here ps0 <= j < here ps) jmps;
  al_few : few_bars -> (List.length jmps + bars (ps_p ps) <= DFA_MAXALT)%nat;
  al_code : few_bars -> code_from (proglen ps0) (pending_split split_pc jmps ps) (ps_prog ps)
}.

Lemma pending_mono jmps ps ps' i it : (proglen ps <= proglen ps')%nat -> (nsets ps <= nsets ps')%nat ->
  (ngroup ps <= ngroup ps')%nat -> pending jmps ps i it -> pending jmps ps' i it.
Proof. intros A B C [J K]. split; [done|]. intros N. eapply inst_ok_mono; [..|by apply K]; done. Qed.

(** The end of the alternation: every jump gets its target. *)
Lemma patch_lookup jmps ps i : ps_prog (patch_jumps jmps ps) !! i =
  (fun it => if bool_decide (Z.of_nat i ∈ (Z.of_nat ∘ Z.to_nat) <$> jmps)
             then Inst (i_op it) (here ps) (i_y it) else it) <$> ps_prog ps !! i.
Proof.
  unfold patch_jumps. generalize (here ps) as h. intros h. revert ps.
  induction jmps as [|j jmps IH]; intros ps; cbn [fold_left].
  { rewrite bool_decide_false by (intros H; by apply elem_of_nil in H). by destruct (_ !! i). }
  rewrite IH. unfold set_x. cbn [ps_prog with_prog]. rewrite list_lookup_alter.
  destruct (decide (Z.to_nat j = i)) as [D|D].
  - rewrite D. rewrite (bool_decide_true (Z.of_nat i ∈ _ <$> j :: jmps)).
    + destruct (ps_prog ps !! i); [|done]. cbn. by case_bool_decide.
    + rewrite fmap_cons. apply elem_of_cons. left. unfold compose. lia.
  - destruct (ps_prog ps !! i); [|done]. cbn. do 1 f_equal.
    assert (E : bool_decide (Z.of_nat i ∈ Z.of_nat ∘ Z.to_nat <$> jmps)
            = bool_decide (Z.of_nat i ∈ Z.of_nat ∘ Z.to_nat <$> j :: jmps)).
    { apply bool_decide_ext. rewrite fmap_cons, elem_of_cons. unfold compose at 2. split; [by right|].
      intros [|]; [lia|done]. }
    by rewrite E.
Qed.

Lemma patch_fields jmps ps : let ps' := patch_jumps jmps ps in
  ps' = with_prog (ps_prog ps') ps /\ proglen ps' = proglen ps.
Proof.
  cbn zeta. unfold patch_jumps. generalize (here ps) as h. intros h. revert ps.
  induction jmps as [|j jmps IH]; intros ps; cbn [fold_left]; [by destruct ps|].
  destruct (IH (set_x j h ps)) as [E L]. split.
  - rewrite E at 1. done.
  - rewrite L. unfold proglen, set_x. cbn. by rewrite length_alter.
Qed.

Lemma nonneg_of_to (jmps : list Z) n : Forall (fun j => 0 <= j < n) jmps ->
  (Z.of_nat ∘ Z.to_nat) <$> jmps = jmps.
Proof. induction 1 as [|j l J _ IH]; [done|]. rewrite fmap_cons, IH. unfold compose. f_equal. lia. Qed.

Lemma prefix_app {A} (l new l' : list A) : List.length l' = List.length (l ++ new) ->
  (forall i, (i < List.length l)%nat -> l' !! i = l !! i) -> exists new', l' = l ++ new'.
Proof.
  intros L H. exists (drop (List.length l) l'). rewrite <-(take_drop (List.length l) l') at 1. f_equal.
  apply list_eq. intros i. destruct (decide (i < List.length l)%nat).
  - by rewrite lookup_take_lt, H.
  - rewrite lookup_ge_None_2, (lookup_ge_None_2 l) by (rewrite ?length_take; lia). done.
Qed.

Lemma patch_ext jmps ps0 ps : wf ps0 -> frame ps0 ps ->
  Forall (fun j => Z.of_nat (proglen ps0) <= j < here ps) jmps ->
  (few_bars -> code_from (proglen ps0) (pending jmps ps) (ps_prog ps)) ->
  extends 0 ps0 (patch_jumps jmps ps).
Proof.
  intros W Fr J C. destruct (patch_fields jmps ps) as [E L].
  assert (B : (Z.of_nat ∘ Z.to_nat) <$> jmps = jmps).
  { apply (nonneg_of_to _ (here ps)). eapply Forall_impl; [exact J|]. cbn. intros; lia. }
  assert (Lk : forall i it', ps_prog (patch_jumps jmps ps) !! i = Some it' -> exists it,
    ps_prog ps !! i = Some it /\
    it' = if bool_decide (Z.of_nat i ∈ jmps) then Inst (i_op it) (here ps) (i_y it) else it).
  { intros i it'. rewrite patch_lookup, B. destruct (ps_prog ps !! i) as [it|]; [|done].
    intros [= <-]. by exists it. }
  destruct (fr_prog _ _ Fr) as (new & P & Lo).
  destruct (prefix_app (ps_prog ps0) new (ps_prog (patch_jumps jmps ps))) as (new' & P').
  { rewrite <-P. exact L. }
  { intros i I. rewrite patch_lookup, B, P, lookup_app_l by done.
    destruct (ps_prog ps0 !! i); [|done]. cbn. rewrite bool_decide_false; [done|].
    intros H. rewrite Forall_forall in J. apply J in H. unfold proglen in H. lia. }
  apply frame_ext.
  - rewrite E, P'. apply frame_with_prog; [done|]. apply Forall_lookup. intros i it' I.
    destruct (Lk (proglen ps0 + i)%nat it') as (it & I' & ->).
    { rewrite P'. unfold proglen. rewrite lookup_app_r by lia. by rewrite Nat.add_sub'. }
    rewrite <-P'. change (List.length _) with (proglen (patch_jumps jmps ps)). rewrite L.
    assert (X : inst_low (proglen ps) it).
    { rewrite P in I'. unfold proglen at 1 in I'. rewrite lookup_app_r, Nat.add_sub' in I' by lia.
      by eapply Forall_lookup_1 in Lo. }
    case_bool_decide; [|done]. unfold inst_low, here in *. cbn. intros Jm. destruct (X Jm). split; [lia|done].
  - intros Few i it' I G. destruct (Lk i it' I) as (it & I' & ->). destruct (C Few i it I' G) as [Jm Ok].
    assert (Same : forall it, code_ok ps it -> code_ok (patch_jumps jmps ps) it).
    { intros it0. rewrite E. apply inst_ok_mono; [rewrite <-E, L; lia|done|done]. }
    case_bool_decide as D; [|by apply Same, Ok]. apply Same. specialize (Jm D).
    unfold inst_ok, here. cbn. rewrite Jm. lia.
Qed.

Lemma frame_split ps0 ps ps' new new' : wf ps0 -> frame ps0 ps -> extends 0 ps ps' ->
  ps_prog ps' = ps_prog ps ++ new -> Forall (inst_low (proglen ps')) new ->
  new' = Inst DFA_SPLIT (here ps + 1) (-1) :: shifted (proglen ps) new ->
  frame ps0 (with_prog (ps_prog ps ++ new') ps').
Proof.
  intros W Fr E P Lo ->. eapply frame_trans; [exact Fr|].
  apply frame_with_prog; [by eapply ext_frame|].
  assert (N : List.length (ps_prog ps ++ Inst DFA_SPLIT (here ps + 1) (-1) :: shifted (proglen ps) new)
    = S (proglen ps')).
  { unfold proglen at 2. rewrite P, !length_app. cbn [List.length]. rewrite length_shifted. lia. }
  rewrite N. pose proof (ext_len _ _ _ E). constructor; [|by apply shifted_low].
  unfold inst_low, here. cbn -[Z.of_nat]. lia.
Qed.

(** A new branch: the split in front of it waits for its second target. *)
Lemma alternation_split jmps ps0 ps ps' pc ps'' : wf ps0 -> frame ps0 ps -> wf ps ->
  Forall (fun j => here ps0 <= j < here ps) jmps ->
  (few_bars -> code_from (proglen ps0) (pending jmps ps) (ps_prog ps)) ->
  extends 0 ps ps' -> insert_split (proglen ps) ps' = (pc, ps'') -> failed ps'' = false ->
  (few_bars -> (List.length jmps + bars (ps_p ps') <= DFA_MAXALT)%nat) ->
  alternation pc jmps ps0 ps'' /\ ps_p ps'' = ps_p ps' /\ ps_end ps'' = ps_end ps'.
Proof.
  intros W Fr Wp J C E I F Few. destruct (ext_prog _ _ _ E) as (new & P & Lo & _).
  pose proof (insert_split_eq ps ps' new Wp P) as Is. rewrite I in Is.
  destruct Is as [|(-> & _ & Eq)]; [congruence|].
  pose proof (ext_len _ _ _ E) as Len. pose proof (frame_len _ _ Fr) as Len0.
  assert (Fr' : frame ps0 ps'') by (rewrite Eq; by eapply frame_split).
  assert (N : proglen ps'' = S (proglen ps')).
  { rewrite Eq. unfold proglen. cbn [ps_prog with_prog]. rewrite P, !length_app. cbn [List.length].
    rewrite length_shifted. lia. }
  split; [|by rewrite Eq]. split; [done| | | |].
  - unfold here. lia.
  - eapply Forall_impl; [exact J|]. unfold here in *. cbn. intros; lia.
  - rewrite Eq. exact Few.
  - intros Fw i it L G. unfold pending_split. case_bool_decide as D.
    + assert (i = proglen ps) as -> by (unfold here in D; lia). rewrite Eq in L. cbn [ps_prog with_prog] in L.
      unfold proglen in L. rewrite lookup_app_r, Nat.sub_diag in L by lia. injection L as <-. cbn [i_op i_x].
      split_and!; [done|unfold here; lia..|]. intros H. rewrite Forall_forall in J. apply J in H. lia.
    + destruct (decide (i < proglen ps)%nat) as [D1|D1].
      * rewrite Eq in L. cbn [ps_prog with_prog] in L. rewrite lookup_app_l in L by done.
        eapply pending_mono; [..|by eapply (C Fw)]; [lia|rewrite Eq; cbn; lia|].
        rewrite Eq. change (ngroup (with_prog _ _)) with (ngroup ps'). lia.
      * split; [intros H; rewrite Forall_forall in J; apply J in H; unfold here in *; lia|]. intros _.
        assert (S : i = (proglen ps + S (i - S (proglen ps)))%nat) by (unfold here in D; lia).
        rewrite Eq in L. cbn [ps_prog with_prog] in L. rewrite S in L. unfold proglen at 1 in L.
        rewrite lookup_app_r, Nat.add_sub' in L by lia. cbn [lookup list_lookup] in L.
        assert (K : Forall (inst_ok (Datatypes.S (proglen ps')) (nsets ps') (ngroup ps')) (shifted (proglen ps) new)).
        { apply (imap_retarget_ok (proglen ps) (Datatypes.S (proglen ps))).
          destruct (ext_prog _ _ _ E) as (new1 & P1 & _ & K). rewrite P in P1. apply app_inv_head in P1 as <-.
          by apply K. }
        rewrite N. eapply Forall_lookup_1 in K; [|exact L]. by rewrite Eq.
Qed.


Record closed (jmps : list Z) (ps0 ps : parser) : Prop := {
  cl_frame : frame ps0 ps;
  cl_jumps : Forall (fun j => here ps0 <= j < here ps) jmps;
  cl_code : few_bars -> code_from (proglen ps0) (pending jmps ps) (ps_prog ps)
}.

Lemma lookup_alter_at {A} (f : A -> A) (l : list A) i j :
  alter f i l !! j = (fun x => if decide (i = j) then f x else x) <$> l !! j.
Proof. rewrite list_lookup_alter. case_decide; [by subst|]. by destruct (l !! j). Qed.

(** The end of a branch: its jump is emitted, and the split gets its second target. *)
Lemma branch_closed split_pc jmps ps0 ps : wf ps0 -> alternation split_pc jmps ps0 ps ->
  at_special pat flags (ch "|") ps = true ->
  let jmps' := if (List.length jmps <? DFA_MAXALT)%nat then jmps ++ [here ps] else jmps in
  let ps1 := with_prog (ps_prog ps ++ [Inst DFA_JMP (-1) 0]) ps in
  let ps2 := set_y split_pc (here ps1) ps1 in
  closed jmps' ps0 ps2 /\
  (few_bars -> (List.length jmps' + bars (ps_p ps + special_len flags) <= DFA_MAXALT)%nat).
Proof.
  intros W [Fr Sp J Few C] At jmps' ps1 ps2. apply at_bar in At.
  assert (N1 : proglen ps1 = S (proglen ps)).
  { unfold proglen, ps1. cbn [ps_prog with_prog]. rewrite length_app. cbn. lia. }
  assert (N2 : proglen ps2 = S (proglen ps)).
  { rewrite <-N1. unfold ps2, proglen, set_y. cbn [ps_prog with_prog]. by rewrite length_alter. }
  pose proof (frame_len _ _ Fr) as Len.
  assert (Nn : 0 <= split_pc) by (unfold here in Sp; lia).
  assert (Lk : forall i it, ps_prog ps2 !! i = Some it ->
    (exists it0, ps_prog ps !! i = Some it0 /\
       it = if bool_decide (Z.of_nat i = split_pc) then Inst (i_op it0) (i_x it0) (here ps1) else it0)
    \/ (i = proglen ps /\ it = Inst DFA_JMP (-1) 0)).
  { intros i it. unfold ps2, set_y. cbn [ps_prog with_prog ps1]. rewrite lookup_alter_at.
    destruct (decide (i < proglen ps)%nat) as [D|D].
    - rewrite lookup_app_l by done. intros H. left. destruct (ps_prog ps !! i) as [it0|]; [|done].
      injection H as <-. exists it0. split; [done|]. case_decide; case_bool_decide; done || lia.
    - rewrite lookup_app_r by (unfold proglen in D; lia). intros H. right.
      destruct (i - List.length (ps_prog ps))%nat as [|k] eqn:K; [|done].
      assert (i = proglen ps) as -> by (unfold proglen in *; lia). split; [done|].
      cbn in H. rewrite decide_False in H by (unfold here in Sp; lia). by injection H as <-. }
  destruct (fr_prog _ _ Fr) as (new & P & Lo).
  assert (Low : forall i it, ps_prog ps2 !! i = Some it -> inst_low (proglen ps2) it).
  { intros i it L. rewrite N2. destruct (Lk i it L) as [(it0 & L0 & ->)|[-> ->]].
    - assert (X : inst_low (proglen ps) it0).
      { pose proof (wf_low _ (frame_wf _ _ W Fr)) as X. by eapply Forall_lookup_1 in X. }
      case_bool_decide; [|eapply inst_low_mono; [|exact X]; lia].
      intros Jm. destruct (X Jm) as [X1 _]. cbn [i_x i_y i_op]. unfold here. rewrite N1. lia.
    - unfold inst_low. cbn -[Z.of_nat]. intros _. split; [lia|done]. }
  split.
  - split.
    + destruct (prefix_app (ps_prog ps0) (new ++ [Inst DFA_JMP (-1) 0]) (ps_prog ps2)) as (new' & P').
      { change (List.length (ps_prog ps2)) with (proglen ps2). rewrite app_assoc, <-P, length_app, N2.
        unfold proglen. cbn [List.length]. lia. }
      { intros i I. unfold ps2, set_y. cbn [ps_prog with_prog ps1].
        rewrite lookup_alter_at, P, <-app_assoc, lookup_app_l by done.
        destruct (ps_prog ps0 !! i); [|done]. cbn. rewrite decide_False; [done|].
        unfold here, proglen in Sp. lia. }
      change ps2 with (with_prog (ps_prog ps2) ps). rewrite P'. apply frame_with_prog; [done|].
      rewrite <-P'. apply Forall_lookup. intros i it L. apply (Low (proglen ps0 + i)%nat).
      rewrite P'. unfold proglen. rewrite lookup_app_r by lia. by rewrite Nat.add_sub'.
    + unfold jmps'. assert (J' : Forall (fun j => here ps0 <= j < here ps2) jmps).
      { eapply Forall_impl; [exact J|]. unfold here. rewrite N2. cbn -[Z.of_nat]. intros; lia. }
      destruct (_ <? _)%nat; [|done]. apply Forall_app. split; [done|]. constructor; [|constructor].
      unfold here. rewrite N2. lia.
    + intros Fw i it L G. specialize (Few Fw).
      unfold jmps'. rewrite (proj2 (Nat.ltb_lt _ _)) by lia. split.
      * rewrite elem_of_app, list_elem_of_singleton. intros [I|I].
        -- destruct (Lk i it L) as [(it0 & L0 & ->)|[-> ->]]; [|done].
           pose proof (C Fw i it0 L0 G) as Q. unfold pending_split in Q.
           case_bool_decide as D; [destruct Q as (_ & _ & Q); by rewrite <-D in Q|by apply Q].
        -- destruct (Lk i it L) as [(it0 & L0 & ->)|[-> ->]]; [|done].
           apply lookup_lt_Some in L0. unfold here, proglen in I. lia.
      * rewrite elem_of_app, list_elem_of_singleton. intros I.
        destruct (Lk i it L) as [(it0 & L0 & ->)|[-> ->]].
        -- pose proof (C Fw i it0 L0 G) as Q. unfold pending_split in Q. case_bool_decide as D.
           ++ destruct Q as (Op & X & _). unfold inst_ok, here in *. cbn [i_op i_x i_y].
              rewrite Op, N2, N1. lia.
           ++ destruct Q as [_ Q]. eapply inst_ok_mono; [..|apply Q; tauto]; [lia|done|done].
        -- destruct I. by right.
  - intros Fw. specialize (Few Fw). unfold jmps'. rewrite (proj2 (Nat.ltb_lt _ _)) by lia.
    rewrite length_app. cbn [List.length]. lia.
Qed.

Lemma closed_ext jmps ps0 ps ps' : closed jmps ps0 ps -> extends 0 ps ps' -> closed jmps ps0 ps'.
Proof.
  intros [Fr J C] E. pose proof (ext_len _ _ _ E) as Len. split.
  - eapply frame_trans; [exact Fr|by eapply ext_frame].
  - eapply Forall_impl; [exact J|]. unfold here. cbn -[Z.of_nat]. intros; lia.
  - intros Fw i it L G. destruct (decide (i < proglen ps)%nat) as [D|D].
    + destruct (ext_prog _ _ _ E) as (new & P & _). rewrite P, lookup_app_l in L by done.
      eapply pending_mono; [..|by eapply (C Fw)]; lia.
    + split; [intros H; rewrite Forall_forall in J; apply J in H; unfold here in *; lia|].
      intros _. eapply (ext_code _ _ _ E Fw); [exact L|lia].
Qed.

Section Alternation.
Context (N : Z) (atom : parser -> option parser) (atom_good : good N 1 atom).

Lemma alt_loop_result fuel split_pc jmps ps0 ps : wf ps0 -> ps_nest ps0 = N ->
  alternation split_pc jmps ps0 ps -> failed ps = false ->
  at_special pat flags (ch "|") ps = true -> (ps_end ps - ps_p ps < fuel)%nat ->
  exists ps', alt_loop pat flags fuel atom split_pc jmps ps = Some ps' /\ result 0 ps0 ps'.
Proof.
  intros W M. revert split_pc jmps ps. induction fuel as [|fuel IH]; intros split_pc jmps ps A F At L; [lia|].
  cbn [alt_loop]. destruct (dfa_emit DFA_JMP (-1) 0 ps) as [jp ps1] eqn:D.
  apply emit_pc in D as [-> D].
  destruct (failed (emit DFA_JMP (-1) 0 ps)) eqn:F1; [eexists; split; [reflexivity|by left]|].
  rewrite D by done. clear D. destruct (emit_inv _ _ _ _ F1) as [_ ->].
  destruct (branch_closed split_pc jmps ps0 ps W A At) as [Cl Few].
  set (jmps' := if (_ <? _)%nat then _ else _) in *. set (ps2 := set_y _ _ _) in *.
  change (alt_len pat flags ps2) with (alt_len pat flags ps). rewrite alt_len_at, At. cbn [negb].
  assert (Al : alt_len pat flags ps = special_len flags) by (unfold alt_len; by rewrite At). rewrite Al.
  apply special_more in At. pose proof special_pos.
  set (ps3 := advance (special_len flags) ps2).
  assert (Cl3 : closed jmps' ps0 ps3).
  { destruct Cl as [[] J C]. split; [split; try done|done|done]. destruct (al_frame _ _ _ _ A). cbn in *. lia. }
  assert (W3 : wf ps3) by (eapply frame_wf; [exact W|apply Cl3]).
  destruct (parse_seq_outcome N atom atom_good (passes ps3) ps3 W3) as (ps4 & -> & O).
  { rewrite <-M. apply (fr_nest _ _ (cl_frame _ _ _ Cl3)). }
  { unfold passes. lia. }
  destruct (failed ps4) eqn:F4; [eexists; split; [reflexivity|by left]|].
  destruct O as [|[_ E]]; [congruence|]. rewrite alt_len_at.
  destruct (at_special pat flags (ch "|") ps4) eqn:At4; cbn [negb].
  - destruct (insert_split (proglen ps3) ps4) as [pc ps5] eqn:I.
    destruct (failed ps5) eqn:F5; [eexists; split; [reflexivity|by left]|].
    destruct Cl3 as [Fr3 J3 C3].
    destruct (alternation_split jmps' ps0 ps3 ps4 pc ps5 W Fr3 W3 J3 C3 E I F5) as (A5 & P5 & E5).
    { intros Fw. specialize (Few Fw). pose proof (bars_mono (ps_p ps3) (ps_p ps4) ltac:(destruct E; lia)).
      change (ps_p ps3) with (ps_p ps + special_len flags)%nat in *. lia. }
    apply IH; [exact A5|exact F5| |].
    + unfold at_special, at_byte, at_escaped, more, peek in *. by rewrite P5, E5.
    + rewrite P5, E5, (ext_end _ _ _ E). pose proof (ext_p _ _ _ E). cbn in *. lia.
  - eexists. split; [reflexivity|right]. destruct (closed_ext _ _ _ _ Cl3 E) as [Fr4 J4 C4].
    by apply patch_ext.
Qed.

Lemma alt_body_good : good N 0 (alt_body pat flags atom).
Proof.
  intros ps W M. unfold alt_body.
  destruct (parse_seq_outcome N atom atom_good (passes ps) ps W M) as (ps1 & -> & O); [unfold passes; lia|].
  destruct (failed ps1) eqn:F1; [eexists; split; [reflexivity|by left]|].
  destruct O as [|[F E]]; [congruence|]. cbn [orb]. rewrite alt_len_at.
  destruct (at_special pat flags (ch "|") ps1) eqn:At; cbn [negb]; [|eexists; split; [reflexivity|by right]].
  destruct (insert_split (proglen ps) ps1) as [pc ps2] eqn:I.
  destruct (failed ps2) eqn:F2; [eexists; split; [reflexivity|by left]|].
  destruct (alternation_split [] ps ps ps1 pc ps2 W) as (A & P & En); try done.
  - by eapply ext_frame, ext_refl.
  - intros Fw i it L G. apply lookup_lt_Some in L. unfold proglen in G. lia.
  - intros Fw. cbn [List.length]. pose proof (bars_mono 0 (ps_p ps1) ltac:(lia)).
    unfold few_bars in Fw. lia.
  - destruct (alt_loop_result (passes ps2) pc [] ps ps2) as (ps3 & R & [F3|E3]); try done.
    + unfold at_special, at_byte, at_escaped, more, peek in *. by rewrite P, En.
    + unfold passes. lia.
    + exists ps3. split; [exact R|by left].
    + exists ps3. split; [exact R|by right].
Qed.
End Alternation.

(** ** Every level of nesting, and the whole pattern *)

Lemma parse_alt_good depth N : DFA_MAXNEST + 2 <= Z.of_nat depth + N -> N <= DFA_MAXNEST ->
  good N 0 (parse_alt pat flags depth).
Proof.
  revert N. induction depth as [|depth IH]; intros N L H; [unfold DFA_MAXNEST in *; lia|].
  cbn [parse_alt]. apply alt_body_good, parse_atom_good.
  destruct (Z.ltb_spec DFA_MAXNEST (N + 1)); [by right|left]. apply IH; lia.
Qed.

Lemma parse_pattern_ends : exists ps, dfa_parse_pattern pat flags (parser_init pat) = Some ps /\
  (failed ps = false -> exists code,
     ps_prog ps = code ++ [Inst DFA_MATCH 0 0] /\ Forall set_ok (ps_sets ps) /\
     (few_bars -> Forall (inst_ok (List.length code) (nsets ps) (ngroup ps)) code)).
Proof.
  assert (W : wf (parser_init pat)) by (split; cbn; try constructor; lia).
  unfold dfa_parse_pattern. destruct (parse_alt_good max_depth 0) with (ps := parser_init pat)
    as (ps & -> & O); [unfold max_depth, DFA_MAXNEST; lia|done|done|done|].
  destruct (failed ps) eqn:F; [eexists; split; [reflexivity|congruence]|].
  destruct (_ =? _)%nat; cbn [negb]; [|eexists; split; [reflexivity|done]].
  eexists. split; [reflexivity|]. intros F'. apply emit_inv in F' as [_ ->].
  destruct O as [|[_ [(new & P & _ & K) (l & S & Ss) _ _ _ _]]]; [congruence|].
  exists (ps_prog ps). cbn in P, S. split_and!; [done|by rewrite <-S in Ss|].
  intros Few. rewrite P. specialize (K Few). unfold proglen in K. rewrite P in K. exact K.
Qed.

End Parser.

(** ** The compiled program *)

Record program_ok (d : dfa) : Prop := {
  pg_last : d_prog d !! pred (List.length (d_prog d)) = Some (Inst DFA_MATCH 0 0);
  pg_inst : Forall (inst_ok (pred (List.length (d_prog d))) (List.length (d_sets d)) (d_ngroup d)) (d_prog d);
  pg_sets : Forall set_ok (d_sets d)
}.

Lemma compile_ok pat flags : Forall is_byte pat ->
  exists r, dfa_compile pat flags = Some r /\
  match r with
  | inl d => d_flags d = flags /\ (few_bars pat -> program_ok d)
  | inr e => e <> DFA_OK
  end.
Proof.
  intros B. destruct (parse_pattern_ends pat flags B) as (ps & P & H). unfold dfa_compile. rewrite P.
  destruct (failed ps) eqn:F; eexists; (split; [reflexivity|]).
  - unfold failed in F. by destruct (Z.eqb_spec (ps_err ps) DFA_OK).
  - split; [done|]. intros Few. destruct (H eq_refl) as (code & C & S & K). specialize (K Few).
    assert (L : pred (List.length (ps_prog ps)) = List.length code).
    { rewrite C, length_app. cbn. lia. }
    split; cbn [d_prog d_sets d_ngroup]; rewrite ?L; [|rewrite C; apply Forall_app; split; [done|by repeat constructor]|done].
    rewrite C. by rewrite lookup_app_r, Nat.sub_diag.
Qed.
