(* ===== verification/DfaRun.v ===== *)
(** * Regular expressions: running a program (text/dfa)

    The two engines: [dfa_run] (text/dfa/dfa_run.c), which follows all threads
    of the program through the subject at once, and [dfa_bt_run]
    (dfa_bt.c), the backtracker for programs with back-references; and the
    functions of text/dfa.h that choose between them.

    A pointer to a program, a subject, a mark or a capture slot is an index,
    and every access is a lookup that gives [None] outside of the array: the
    value [None] of a function is undefined behaviour of the code, which
    includes the overflow of the counter [gen].  The subject is the list of
    its [n] bytes and need not end in NUL. *)

From S2P Require Import Prelude Fnmatch Byteset Dfa.

Definition INT_MAX : Z := 2 ^ 31 - 1.

(** [l[i]] and [l[i] = x] *)
Definition zlookup {A} (l : list A) (i : Z) : option A :=
  if i <? 0 then None else l !! Z.to_nat i.
Definition zinsert {A} (l : list A) (i : Z) (x : A) : option (list A) :=
  if (i <? 0) || (Z.of_nat (List.length l) <=? i) then None else Some (<[Z.to_nat i := x]> l).

(** struct dfa_span; [None] is the span of a group that did not take part. *)
Record dfa_span := Span { sp_start : nat; sp_end : nat }.

Definition isw (c : Z) : bool :=
  ((48 <=? c) && (c <=? 57)) || ((97 <=? c) && (c <=? 122)) || ((65 <=? c) && (c <=? 90)) || (c =? ch "_").

Section Run.
Context (d : dfa) (s : bytes) (notbol : bool).

Definition multi : bool := has (d_flags d) DFA_MULTI.
Definition n : nat := List.length s.
Definition fetch (pc : Z) : option dfa_inst := zlookup (d_prog d) pc.

Definition dfa_wordok (kind : Z) (pos : nat) : option bool :=
  before ← (if (0 <? pos)%nat then isw <$> s !! pred pos else Some false);
  after ← (if (pos <? n)%nat then isw <$> s !! pos else Some false);
  Some (if kind =? 0 then negb (eqb before after)
        else if kind =? 1 then eqb before after
        else if kind =? 2 then negb before && after
        else before && negb after).

(** The conditions of [DFA_BOL] and [DFA_EOL] *)
Definition at_bol (pos : nat) : option bool :=
  if (pos =? 0)%nat && negb notbol then Some true
  else if multi && (0 <? pos)%nat then Z.eqb 10 <$> s !! pred pos
  else Some false.

Definition at_eol (pos : nat) : option bool :=
  if (pos =? n)%nat then Some true
  else if multi then Z.eqb 10 <$> s !! pos
  else Some false.

(** The byte at [pos], -1 at the end *)
Definition byte_at (pos : nat) : Z := default (-1) (s !! pos).

(** Does an instruction that reads a byte accept [c]? *)
Definition accepts (it : dfa_inst) (c : Z) : option bool :=
  match i_op it with
  | DFA_CHAR => Some (c =? i_x it)
  | DFA_ANY => Some (0 <=? c)
  | DFA_SET => if 0 <=? c then (fun set => byteset_has set c) <$> zlookup (d_sets d) (i_x it) else Some false
  | _ => Some false
  end.

(** ** The simulation (dfa_run.c) *)

Definition thread : Type := Z * list Z.

Fixpoint addthread (fuel : nat) (gen : Z) (pos : nat) (pc : Z) (save : list Z)
    (mark : list Z) (l : list thread) : option (list Z * list thread) :=
  match fuel with
  | O => None
  | S fuel =>
      m ← zlookup mark pc;
      if m =? gen then Some (mark, l)
      else
        mark ← zinsert mark pc gen;
        it ← fetch pc;
        let next := addthread fuel gen pos (pc + 1) in
        let guarded (t : option bool) :=
          ok ← t; if ok : bool then next save mark l else Some (mark, l) in
        match i_op it with
        | DFA_JMP => addthread fuel gen pos (i_x it) save mark l
        | DFA_SPLIT =>
            '(mark, l) ← addthread fuel gen pos (i_x it) save mark l;
            addthread fuel gen pos (i_y it) save mark l
        | DFA_SAVE =>
            if (0 <? d_ngroup d)%nat then
              ns ← zinsert save (i_x it) (Z.of_nat pos);
              next ns mark l
            else next save mark l
        | DFA_BOL => guarded (at_bol pos)
        | DFA_EOL => guarded (at_eol pos)
        | DFA_WORD => guarded (dfa_wordok (i_x it) pos)
        | _ =>
            if (List.length (d_prog d) <=? List.length l)%nat then None
            else Some (mark, l ++ [(pc, save)])
        end
  end.

(** The deepest recursion marks a new instruction at each level. *)
Definition add_fuel : nat := S (List.length (d_prog d)).

(** [best_end], -1 while there is no match, and [best_save] *)
Definition best : Type := Z * list Z.

Definition step_thread (gen : Z) (pos : nat) (t : thread) (st : list Z * list thread * best)
    : option (list Z * list thread * best) :=
  let '(pc, sv) := t in
  let '(mark, nlist, bst) := st in
  it ← fetch pc;
  match i_op it with
  | DFA_MATCH => Some (mark, nlist, if fst bst <? Z.of_nat pos then (Z.of_nat pos, sv) else bst)
  | DFA_CHAR | DFA_ANY | DFA_SET =>
      ok ← accepts it (byte_at pos);
      if ok : bool then
        '(mark, nlist) ← addthread add_fuel gen (S pos) (pc + 1) sv mark nlist;
        Some (mark, nlist, bst)
      else Some st
  | _ => Some st
  end.

Fixpoint step_threads (gen : Z) (pos : nat) (clist : list thread) (st : list Z * list thread * best)
    : option (list Z * list thread * best) :=
  match clist with
  | [] => Some st
  | t :: clist => st ← step_thread gen pos t st; step_threads gen pos clist st
  end.

Definition next_gen (gen : Z) : option Z := if gen <? INT_MAX then Some (gen + 1) else None.

(** The loop over [pos]; [fuel] is the number of positions left. *)
Fixpoint run_positions (fuel : nat) (pos : nat) (gen : Z) (mark : list Z) (clist : list thread) (bst : best)
    : option (Z * list Z * best) :=
  match fuel with
  | O => None
  | S fuel =>
      match clist with
      | [] => Some (gen, mark, bst)
      | _ =>
          gen ← next_gen gen;
          '(mark, nlist, bst) ← step_threads gen pos clist (mark, [], bst);
          if (n <=? pos)%nat then Some (gen, mark, bst)
          else run_positions fuel (S pos) gen mark nlist bst
      end
  end.

Definition no_saves : list Z := replicate (2 * d_ngroup d) (-1).

(** The span of group [i] in the slots of a match *)
Definition group_span (save : list Z) (i : nat) : option dfa_span :=
  if (i <? d_ngroup d)%nat && (0 <=? cnth save (2 * i)) && (0 <=? cnth save (2 * i + 1))
  then Some (Span (Z.to_nat (cnth save (2 * i))) (Z.to_nat (cnth save (2 * i + 1))))
  else None.

Definition group_spans (save : list Z) (ng : nat) : list (option dfa_span) :=
  List.map (group_span save) (List.seq 0 ng).

Definition found : Type := option (dfa_span * list (option dfa_span)).

(** The loop over [from] *)
Fixpoint run_starts (fuel : nat) (from : nat) (anchored : bool) (ng : nat) (gen : Z) (mark : list Z)
    : option found :=
  match fuel with
  | O => None
  | S fuel =>
      gen ← next_gen gen;
      '(mark, clist) ← addthread add_fuel gen from 0 no_saves mark [];
      '(gen, mark, bst) ← run_positions (S (n - from)) from gen mark clist (-1, []);
      if 0 <=? fst bst then Some (Some (Span from (Z.to_nat (fst bst)), group_spans (snd bst) ng))
      else if anchored || (n <=? from)%nat then Some None
      else run_starts fuel (S from) anchored ng gen mark
  end.

Definition dfa_run (start : nat) (anchored : bool) (ng : nat) : option found :=
  if (List.length (d_prog d) =? 0)%nat then Some None
  else run_starts (S (n - start)) start anchored ng 0 (replicate (List.length (d_prog d)) (-1)).

(** ** The backtracker (dfa_bt.c) *)

(** byte_diff(s + p, len, s + q) = 0; it reads up to the first difference. *)
Fixpoint same_bytes (p q : bytes) (len : Z) : option bool :=
  if len <=? 0 then Some true
  else match p, q with
       | x :: p, y :: q => if x =? y then same_bytes p q (len - 1) else Some false
       | _, _ => None
       end.

Record bt := Bt {
  bt_pc : Z;
  bt_pos : nat;
  bt_save : list Z;
  bt_us : list (Z * Z);              (** struct dfa_undo, the last first *)
  bt_cs : list (Z * nat * nat)       (** struct dfa_choice: pc, pos, undo_top *)
}.

Inductive bt_result :=
| BtMatch (e : nat) (save : list Z)
| BtNone                              (** no choice is left *)
| BtBudget                            (** DFA_MAXSTEPS *)
| BtUndefined.

(** [while(us_n > undo_top)]: the saved values come back. *)
Fixpoint undo (us : list (Z * Z)) (k : nat) (save : list Z) : list (Z * Z) * list Z :=
  match us with
  | (slot, old) :: us' =>
      if (k <? List.length us)%nat then undo us' k (<[Z.to_nat slot := old]> save) else (us, save)
  | [] => (us, save)
  end.

Definition bt_backtrack (st : bt) : bt + bt_result :=
  match bt_cs st with
  | [] => inr BtNone
  | (pc, pos, top) :: cs =>
      let '(us, save) := undo (bt_us st) top (bt_save st) in
      inl (Bt pc pos save us cs)
  end.

Definition bt_goto (pc : Z) (pos : nat) (st : bt) : bt + bt_result :=
  inl (Bt pc pos (bt_save st) (bt_us st) (bt_cs st)).

(** What a test leads to: go on there, or backtrack *)
Definition bt_when (t : option bool) (pc : Z) (pos : nat) (st : bt) : bt + bt_result :=
  match t with
  | Some true => bt_goto pc pos st
  | Some false => bt_backtrack st
  | None => inr BtUndefined
  end.

(** The test of [DFA_BACKREF] at [pos], with the length of the group *)
Definition backref_ok (g : Z) (save : list Z) (pos : nat) : option (bool * nat) :=
  gs ← zlookup save (2 * g);
  ge ← zlookup save (2 * g + 1);
  if (gs <? 0) || (ge <? 0) then Some (false, 0%nat)
  else
    let len := u64 (ge - gs) in
    if u64 (Z.of_nat pos + len) <=? Z.of_nat n then
      same ← same_bytes (drop pos s) (drop (Z.to_nat gs) s) len;
      Some (same, Z.to_nat len)
    else Some (false, 0%nat).

Definition bt_step (st : bt) : bt + bt_result :=
  let pc := bt_pc st in
  let pos := bt_pos st in
  match fetch pc with
  | None => inr BtUndefined
  | Some it =>
      match i_op it with
      | DFA_CHAR | DFA_ANY | DFA_SET =>
          bt_when (if (pos <? n)%nat then accepts it (byte_at pos) else Some false) (pc + 1) (S pos) st
      | DFA_JMP => bt_goto (i_x it) pos st
      | DFA_SPLIT =>
          inl (Bt (i_x it) pos (bt_save st) (bt_us st) ((i_y it, pos, List.length (bt_us st)) :: bt_cs st))
      | DFA_SAVE =>
          match zlookup (bt_save st) (i_x it), zinsert (bt_save st) (i_x it) (Z.of_nat pos) with
          | Some old, Some save => inl (Bt (pc + 1) pos save ((i_x it, old) :: bt_us st) (bt_cs st))
          | _, _ => inr BtUndefined
          end
      | DFA_BOL => bt_when (at_bol pos) (pc + 1) pos st
      | DFA_EOL => bt_when (at_eol pos) (pc + 1) pos st
      | DFA_WORD => bt_when (dfa_wordok (i_x it) pos) (pc + 1) pos st
      | DFA_BACKREF =>
          match backref_ok (i_x it - 1) (bt_save st) pos with
          | None => inr BtUndefined
          | Some (ok, len) => bt_when (Some ok) (pc + 1) (pos + len)%nat st
          end
      | DFA_MATCH => inr (BtMatch pos (bt_save st))
      end
  end.

(** [f] up to [p] times *)
Fixpoint iterate {A B} (p : positive) (f : A -> A + B) (x : A) : A + B :=
  match p with
  | xH => f x
  | xO p => match iterate p f x with inl x => iterate p f x | inr r => inr r end
  | xI p =>
      match f x with
      | inl x => match iterate p f x with inl x => iterate p f x | inr r => inr r end
      | inr r => inr r
      end
  end.

Definition DFA_MAXSTEPS : positive := 10000000.

Definition bt_match (from : nat) (save : list Z) : bt_result :=
  match iterate DFA_MAXSTEPS bt_step (Bt 0 from save [] []) with
  | inl _ => BtBudget
  | inr r => r
  end.

Fixpoint bt_starts (fuel : nat) (from : nat) (anchored : bool) (ng : nat) : option found :=
  match fuel with
  | O => None
  | S fuel =>
      match bt_match from no_saves with
      | BtMatch e save => Some (Some (Span from e, group_spans save ng))
      | BtUndefined => None
      | BtNone | BtBudget =>
          if anchored || (n <=? from)%nat then Some None else bt_starts fuel (S from) anchored ng
      end
  end.

Definition dfa_bt_run (start : nat) (anchored : bool) (ng : nat) : option found :=
  bt_starts (S (n - start)) start anchored ng.

Definition any_run (start : nat) (anchored : bool) (ng : nat) : option found :=
  if d_has_backref d then dfa_bt_run start anchored ng else dfa_run start anchored ng.

End Run.

(** ** The functions of text/dfa.h *)

Definition dfa_notbol (d : dfa) : bool := has (d_flags d) DFA_NOTBOL.

Definition is_found (f : found) : bool := match f with Some _ => true | None => false end.

Definition dfa_test (d : dfa) (s : bytes) : option bool :=
  is_found <$> any_run d s false 0 false 0.

(** The length of the longest match at the start of [s], or -1 *)
Definition dfa_prefix (d : dfa) (s : bytes) : option Z :=
  r ← any_run d s false 0 true 0;
  Some match r with
       | Some (m, _) => Z.of_nat (sp_end m) - Z.of_nat (sp_start m)
       | None => -1
       end.

Definition dfa_search (d : dfa) (s : bytes) (from : nat) : option (option dfa_span) :=
  match any_run d s (dfa_notbol d) from false 0 with
  | Some (Some (m, _)) => Some (Some m)
  | Some None => Some None
  | None => None
  end.

(** Whether the match at the start of [m] ends where [m] does, and the array
    [g], if it was written *)
Definition dfa_submatch (d : dfa) (s : bytes) (m : dfa_span) (ng : nat)
    : option (bool * option (list (option dfa_span))) :=
  match any_run d s (dfa_notbol d) (sp_start m) true ng with
  | Some (Some (got, g)) => Some ((sp_end got =? sp_end m)%nat, Some g)
  | Some None => Some (false, None)
  | None => None
  end.
