(* ===== verification/DfaMatch.v ===== *)
(** * The simulation finds the leftmost longest match (text/dfa/dfa_run.c)

    The specification of a program is the reachability relation [nfa_step] on
    pairs of an instruction and a position.  [explored] says what a series of
    calls of [addthread] adds to the marks and to the list of threads: all
    that epsilon steps reach, once each.  From it, [run_positions] computes
    at every position the instructions that are reachable there, and
    [dfa_run] returns the longest match at the first position that has one. *)

From stdpp Require Import relations.
From S2P Require Import Prelude Fnmatch Byteset Dfa DfaParse DfaRun.

(** ** Indices *)

Lemma zlookup_Some {A} (l : list A) i x : zlookup l i = Some x <-> 0 <= i /\ l !! Z.to_nat i = Some x.
Proof. unfold zlookup. destruct (Z.ltb_spec i 0); split; intros H'; try done; [lia|tauto]. Qed.

Lemma zlookup_is_Some {A} (l : list A) i : 0 <= i < Z.of_nat (List.length l) -> is_Some (zlookup l i).
Proof.
  intros H. unfold zlookup. destruct (Z.ltb_spec i 0); [lia|]. apply lookup_lt_is_Some. lia.
Qed.

Lemma zlookup_lt {A} (l : list A) i x : zlookup l i = Some x -> 0 <= i < Z.of_nat (List.length l).
Proof. intros [I H]%zlookup_Some. apply lookup_lt_Some in H. lia. Qed.

Lemma zinsert_Some {A} (l : list A) i x : 0 <= i < Z.of_nat (List.length l) ->
  zinsert l i x = Some (<[Z.to_nat i := x]> l).
Proof.
  intros H. unfold zinsert. destruct (Z.ltb_spec i 0); [lia|].
  destruct (Z.leb_spec (Z.of_nat (List.length l)) i); [lia|done].
Qed.

Lemma zlookup_insert {A} (l : list A) i j x : 0 <= i < Z.of_nat (List.length l) ->
  zlookup (<[Z.to_nat i := x]> l) j = if i =? j then Some x else zlookup l j.
Proof.
  intros H. unfold zlookup. destruct (Z.ltb_spec j 0).
  - destruct (Z.eqb_spec i j); [lia|done].
  - destruct (Z.eqb_spec i j) as [-> |N].
    + apply list_lookup_insert_eq. lia.
    + apply list_lookup_insert_ne. lia.
Qed.

(** ** What a program means *)

Definition stops (it : dfa_inst) : bool :=
  match i_op it with DFA_CHAR | DFA_ANY | DFA_SET | DFA_BACKREF | DFA_MATCH => true | _ => false end.

Section Match.
Context (d : dfa) (s : bytes) (notbol : bool).

Abbreviation fetch := (fetch d).
Abbreviation np := (Z.of_nat (List.length (d_prog d))).

Definition passes_test (t : option bool) (pc : Z) : list Z :=
  match t with Some true => [pc + 1] | _ => [] end.

Definition eps_targets (pos : nat) (pc : Z) (it : dfa_inst) : list Z :=
  match i_op it with
  | DFA_JMP => [i_x it]
  | DFA_SPLIT => [i_x it; i_y it]
  | DFA_SAVE => [pc + 1]
  | DFA_BOL => passes_test (at_bol d s notbol pos) pc
  | DFA_EOL => passes_test (at_eol d s pos) pc
  | DFA_WORD => passes_test (dfa_wordok s (i_x it) pos) pc
  | _ => []
  end.

Definition eps (pos : nat) (pc pc' : Z) : Prop :=
  exists it, fetch pc = Some it /\ pc' ∈ eps_targets pos pc it.

Inductive nfa_step : Z * nat -> Z * nat -> Prop :=
| nfa_eps pos pc pc' : eps pos pc pc' -> nfa_step (pc, pos) (pc', pos)
| nfa_byte pos pc it c : fetch pc = Some it -> s !! pos = Some c -> accepts d it c = Some true ->
    nfa_step (pc, pos) (pc + 1, S pos).

Definition is_match (pc : Z) : Prop := exists it, fetch pc = Some it /\ i_op it = DFA_MATCH.

(** The program matches [s[from .. e)]. *)
Definition matches (from e : nat) : Prop :=
  exists pc, rtc nfa_step (0, from) (pc, e) /\ is_match pc.

(** ** The closure under epsilon steps *)

Definition pcs (l : list thread) : list Z := l.*1.

Definition marked (gen : Z) (mark : list Z) (pc : Z) : Prop := zlookup mark pc = Some gen.

Definition thread_stop (pc : Z) : Prop := exists it, fetch pc = Some it /\ stops it = true.

Record explored (gen : Z) (pos : nat) (roots : list Z) (mark : list Z) (l : list thread)
    (mark' : list Z) (l' : list thread) : Prop := {
  ex_length : List.length mark' = List.length mark;
  ex_mono : forall x, marked gen mark x -> marked gen mark' x;
  ex_roots : forall x, x ∈ roots -> marked gen mark' x;
  ex_closed : forall x y, marked gen mark' x -> ~ marked gen mark x -> eps pos x y -> marked gen mark' y;
  ex_sound : forall x, marked gen mark' x -> marked gen mark x \/ exists r, r ∈ roots /\ rtc (eps pos) r x;
  ex_list : forall x, x ∈ pcs l' <->
    x ∈ pcs l \/ (marked gen mark' x /\ ~ marked gen mark x /\ thread_stop x);
  ex_other : forall x m, zlookup mark' x = Some m -> m = gen \/ zlookup mark x = Some m
}.

Lemma explored_nil gen pos mark l : explored gen pos [] mark l mark l.
Proof. split; try done; [intros x X; by apply elem_of_nil in X|auto|tauto|auto]. Qed.

Lemma marked_dec gen mark x : Decision (marked gen mark x).
Proof. unfold marked. apply _. Defined.

Lemma explored_app gen pos r1 r2 mark l mark1 l1 mark2 l2 :
  explored gen pos r1 mark l mark1 l1 -> explored gen pos r2 mark1 l1 mark2 l2 ->
  explored gen pos (r1 ++ r2) mark l mark2 l2.
Proof.
  intros [L1 M1 R1 C1 S1 I1 O1] [L2 M2 R2 C2 S2 I2 O2]. split.
  - congruence.
  - auto.
  - intros x. rewrite elem_of_app. intros [H|H]; auto.
  - intros x y X N E. destruct (marked_dec gen mark1 x) as [D|D]; [eauto|]. by eapply C2.
  - intros x X. destruct (S2 x X) as [H|(r & Hr & H)].
    + destruct (S1 x H) as [?|(r & Hr & ?)]; [by left|right]. exists r. rewrite elem_of_app. auto.
    + right. exists r. rewrite elem_of_app. auto.
  - intros x. rewrite I2, I1. destruct (marked_dec gen mark1 x) as [D|D].
    + split; [intros [[H|H]|H]|intros [H|H]]; try tauto. destruct H as (A & B & C). right. auto.
    + split; [intros [[H|H]|(A & B & C)]|intros [H|(A & B & C)]]; try tauto.
      right. split; [done|]. split; [|done]. auto.
  - intros x m X. destruct (O2 x m X) as [|H]; [by left|auto].
Qed.

(** [pc] is marked already. *)
Lemma explored_seen gen pos pc mark l : marked gen mark pc -> explored gen pos [pc] mark l mark l.
Proof.
  intros M. split; try done; [|auto|tauto|auto]. intros x X. by apply list_elem_of_singleton in X as ->.
Qed.

(** A new [pc], and what its targets add *)
Lemma explored_node gen pos pc it mark l mark' l' : 0 <= pc < Z.of_nat (List.length mark) ->
  fetch pc = Some it -> stops it = false -> ~ marked gen mark pc ->
  explored gen pos (eps_targets pos pc it) (<[Z.to_nat pc := gen]> mark) l mark' l' ->
  explored gen pos [pc] mark l mark' l'.
Proof.
  intros B F S N [L M R C So I O].
  assert (Mk : forall x, marked gen (<[Z.to_nat pc := gen]> mark) x <-> x = pc \/ marked gen mark x).
  { intros x. unfold marked. rewrite zlookup_insert by done. destruct (Z.eqb_spec pc x) as [-> |]; [tauto|].
    split; [auto|]. intros [->|]; done. }
  split.
  - by rewrite L, length_insert.
  - intros x X. apply M, Mk. auto.
  - intros x X. apply list_elem_of_singleton in X as ->. apply M, Mk. auto.
  - intros x y X Nx E. destruct (decide (x = pc)) as [-> |D].
    + destruct E as (it' & F' & T). rewrite F in F'. injection F' as <-. auto.
    + eapply C; [exact X|rewrite Mk; tauto|exact E].
  - intros x X. destruct (So x X) as [H|(r & Hr & H)].
    + apply Mk in H as [-> |H]; [|by left]. right. exists pc. rewrite list_elem_of_singleton. by split.
    + right. exists pc. rewrite list_elem_of_singleton. split; [done|].
      eapply rtc_l; [|exact H]. by exists it.
  - intros x. rewrite I. split; (intros [H|(A & Bx & Cx)]; [by left|right]).
    + rewrite Mk in Bx. tauto.
    + split; [done|]. split; [|done]. rewrite Mk. intros [-> |]; [|done].
      destruct Cx as (it' & F' & S'). rewrite F in F'. injection F' as <-. congruence.
  - intros x m X. destruct (O x m X) as [|H]; [by left|]. rewrite zlookup_insert in H by done.
    destruct (pc =? x); [injection H as ->|]; auto.
Qed.

(** A new [pc] that becomes a thread *)
Lemma explored_leaf gen pos pc it mark l sv : 0 <= pc < Z.of_nat (List.length mark) ->
  fetch pc = Some it -> stops it = true -> ~ marked gen mark pc ->
  explored gen pos [pc] mark l (<[Z.to_nat pc := gen]> mark) (l ++ [(pc, sv)]).
Proof.
  intros B F S N.
  assert (Mk : forall x, marked gen (<[Z.to_nat pc := gen]> mark) x <-> x = pc \/ marked gen mark x).
  { intros x. unfold marked. rewrite zlookup_insert by done. destruct (Z.eqb_spec pc x) as [-> |]; [tauto|].
    split; [auto|]. intros [->|]; done. }
  split.
  - by rewrite length_insert.
  - intros x X. apply Mk. auto.
  - intros x X. apply list_elem_of_singleton in X as ->. apply Mk. auto.
  - intros x y X Nx (it' & F' & T). apply Mk in X as [-> |]; [|done].
    rewrite F in F'. injection F' as <-. unfold eps_targets in T. unfold stops in S.
    destruct (i_op it); try done; by apply elem_of_nil in T.
  - intros x X. apply Mk in X as [-> |]; [|by left]. right. exists pc. by rewrite list_elem_of_singleton.
  - intros x. unfold pcs. rewrite fmap_app, elem_of_app. cbn. rewrite list_elem_of_singleton, Mk. split.
    + intros [H| ->]; [by left|right]. split; [by left|]. split; [done|]. by exists it.
    + intros [H|([->|H] & ? & ?)]; auto; done.
  - intros x m X. rewrite zlookup_insert in X by done. destruct (pc =? x); [injection X as ->|]; auto.
Qed.

(** ** addthread returns, and explores *)

Context (Hok : program_ok d).

Lemma fetch_range pc it : fetch pc = Some it -> 0 <= pc < np.
Proof. apply zlookup_lt. Qed.

Lemma fetch_inst pc it : fetch pc = Some it ->
  inst_ok (pred (List.length (d_prog d))) (List.length (d_sets d)) (d_ngroup d) it.
Proof. intros [_ F]%zlookup_Some. eapply Forall_lookup_1; [apply Hok|exact F]. Qed.

(** Only the last instruction has no successor. *)
Lemma fetch_next pc it : fetch pc = Some it -> i_op it <> DFA_MATCH -> 0 <= pc + 1 < np.
Proof.
  intros F N. pose proof (fetch_range _ _ F). apply zlookup_Some in F as [_ F].
  destruct (Z.eq_dec (pc + 1) np) as [E|]; [|lia].
  pose proof (pg_last d Hok) as L. replace (pred (List.length (d_prog d))) with (Z.to_nat pc) in L by lia.
  rewrite F in L. by injection L as ->.
Qed.

Lemma eps_range pos pc it pc' : fetch pc = Some it -> pc' ∈ eps_targets pos pc it -> 0 <= pc' < np.
Proof.
  intros F T. pose proof (fetch_range _ _ F). pose proof (fetch_inst _ _ F) as I.
  assert (Nx : forall t, pc' ∈ passes_test t pc -> i_op it <> DFA_MATCH -> 0 <= pc' < np).
  { intros t M O. unfold passes_test in M. destruct t as [[]|]; try by apply elem_of_nil in M.
    apply list_elem_of_singleton in M as ->. by eapply fetch_next. }
  unfold eps_targets in T. unfold inst_ok in I. destruct (i_op it) eqn:O; try by apply elem_of_nil in T.
  - apply elem_of_cons in T as [->|T]; [lia|]. apply list_elem_of_singleton in T as ->. lia.
  - apply list_elem_of_singleton in T as ->. lia.
  - apply list_elem_of_singleton in T as ->. eapply fetch_next; [exact F|by rewrite O].
  - by eapply Nx.
  - by eapply Nx.
  - by eapply Nx.
Qed.

Definition unmarked (gen : Z) (mark : list Z) : nat := List.length (filter (fun m => m <> gen) mark).

Lemma unmarked_insert gen mark i m : mark !! i = Some m -> m <> gen ->
  unmarked gen mark = S (unmarked gen (<[i:=gen]> mark)).
Proof.
  revert i. induction mark as [|x mark IH]; intros [|i] L N; try done; cbn in L; unfold unmarked in *.
  - injection L as ->. rewrite filter_cons_True by done. cbn [insert list_insert].
    rewrite filter_cons_False by tauto. done.
  - cbn [insert list_insert]. rewrite !filter_cons. case_decide; cbn [List.length]; by rewrite (IH i).
Qed.

Lemma unmarked_le gen mark : (unmarked gen mark <= List.length mark)%nat.
Proof. apply length_filter. Qed.

Definition saves_ok (save : list Z) : Prop := List.length save = (2 * d_ngroup d)%nat.

Record threads_ok (gen : Z) (mark : list Z) (l : list thread) : Prop := {
  th_length : List.length mark = List.length (d_prog d);
  th_nodup : NoDup (pcs l);
  th_marked : forall x, x ∈ pcs l -> marked gen mark x;
  th_saves : Forall (fun t => saves_ok (snd t)) l
}.

Lemma nodup_bound (l : list Z) (k : nat) : NoDup l -> (forall x, x ∈ l -> 0 <= x < Z.of_nat k) ->
  (List.length l <= k)%nat.
Proof.
  intros N B. replace k with (List.length (seqZ 0 (Z.of_nat k))) by (rewrite length_seqZ; lia).
  apply submseteq_length, NoDup_submseteq; [done|]. intros x X. apply elem_of_seqZ. specialize (B x X). lia.
Qed.

(** The arrays [clist.t] and [nlist.t] have a place for every thread. *)
Lemma threads_fit gen mark l pc : threads_ok gen mark l -> 0 <= pc < np -> ~ marked gen mark pc ->
  (List.length l < List.length (d_prog d))%nat.
Proof.
  intros [L N M _] R U. assert (H : (List.length (pc :: pcs l) <= List.length (d_prog d))%nat).
  { apply nodup_bound.
    - constructor; [|done]. intros I. by apply U, M.
    - intros x X. apply elem_of_cons in X as [->|X]; [done|]. apply M, zlookup_lt in X. by rewrite <-L. }
  assert (E : List.length (pcs l) = List.length l) by apply length_fmap. cbn [List.length] in H. lia.
Qed.

Lemma threads_mark gen mark l pc : threads_ok gen mark l -> 0 <= pc < np ->
  threads_ok gen (<[Z.to_nat pc := gen]> mark) l.
Proof.
  intros [L N M S] R. split; try done; [by rewrite length_insert|].
  intros x X. unfold marked. rewrite zlookup_insert by lia. destruct (pc =? x); [done|by apply M].
Qed.

Lemma threads_add gen mark l pc sv : threads_ok gen mark l -> 0 <= pc < np -> ~ marked gen mark pc ->
  saves_ok sv -> threads_ok gen (<[Z.to_nat pc := gen]> mark) (l ++ [(pc, sv)]).
Proof.
  intros T R U S. pose proof (threads_mark _ _ _ _ T R) as [L' _ M' _]. destruct T as [L N M Sv]. split.
  - done.
  - unfold pcs. rewrite fmap_app. apply NoDup_app. split; [done|]. split.
    + intros x X Y. apply list_elem_of_singleton in Y as ->. by apply U, M.
    + apply NoDup_singleton.
  - unfold pcs. intros x. rewrite fmap_app, elem_of_app. intros [X|X]; [by apply M'|].
    apply list_elem_of_singleton in X as ->. unfold marked. rewrite zlookup_insert by (rewrite L; done).
    by rewrite Z.eqb_refl.
  - apply Forall_app. split; [done|]. by constructor.
Qed.

(** At a position within the subject every test has a value. *)
Lemma tests_defined pos it : (pos <= n s)%nat ->
  is_Some (at_bol d s notbol pos) /\ is_Some (at_eol d s pos) /\ is_Some (dfa_wordok s (i_x it) pos).
Proof.
  intros L. unfold n in L.
  assert (P : (0 < pos)%nat -> is_Some (s !! pred pos)) by (intros; apply lookup_lt_is_Some; lia).
  assert (Q : (pos < List.length s)%nat -> is_Some (s !! pos)) by (intros; apply lookup_lt_is_Some; lia).
  split; [|split].
  - unfold at_bol. destruct (_ && _); [by eexists|]. destruct (Nat.ltb_spec 0 pos).
    + destruct P as [c ->]; [done|]. destruct (multi d); by eexists.
    + rewrite andb_false_r. by eexists.
  - unfold at_eol, n. destruct (Nat.eqb_spec pos (List.length s)); [by eexists|].
    destruct Q as [c ->]; [lia|]. destruct (multi d); by eexists.
  - unfold dfa_wordok, n. destruct (Nat.ltb_spec 0 pos) as [A|A], (Nat.ltb_spec pos (List.length s)) as [B|B];
      try (destruct P as [c1 ->]; [lia|]); try (destruct Q as [c2 ->]; [lia|]); by eexists.
Qed.

Definition add_result (gen : Z) (pos : nat) (roots : list Z) (mark : list Z) (l : list thread)
    (o : option (list Z * list thread)) : Prop :=
  exists mark' l', o = Some (mark', l') /\ explored gen pos roots mark l mark' l' /\
    threads_ok gen mark' l' /\ (unmarked gen mark' <= unmarked gen mark)%nat.

Lemma addthread_spec fuel gen pos pc save mark l : (pos <= n s)%nat -> threads_ok gen mark l ->
  0 <= pc < np -> saves_ok save -> (unmarked gen mark < fuel)%nat ->
  add_result gen pos [pc] mark l (addthread d s notbol fuel gen pos pc save mark l).
Proof.
  intros P. revert pc save mark l. induction fuel as [|fuel IH]; intros pc save mark l T R Sv U; [lia|].
  cbn [addthread]. destruct (zlookup_is_Some mark pc) as [m M]; [rewrite (th_length _ _ _ T); lia|].
  rewrite M. cbn [mbind option_bind]. destruct (Z.eqb_spec m gen) as [-> |Nm].
  { exists mark, l. split_and!; [done|by apply explored_seen|done|lia]. }
  assert (Um : ~ marked gen mark pc) by (unfold marked; congruence).
  assert (Rm : 0 <= pc < Z.of_nat (List.length mark)) by (rewrite (th_length _ _ _ T); lia).
  rewrite zinsert_Some by done. cbn [mbind option_bind].
  destruct (zlookup_is_Some (d_prog d) pc R) as [it F]. change (DfaRun.fetch d pc) with (zlookup (d_prog d) pc).
  rewrite F. cbn [mbind option_bind].
  set (mark1 := <[Z.to_nat pc := gen]> mark).
  assert (U1 : unmarked gen mark = S (unmarked gen mark1)).
  { apply zlookup_Some in M as [_ M]. by eapply unmarked_insert. }
  pose proof (threads_mark _ _ _ _ T R) as T1. fold mark1 in T1.
  assert (Node : stops it = false -> forall o, add_result gen pos (eps_targets pos pc it) mark1 l o ->
    add_result gen pos [pc] mark l o).
  { intros St o (mark' & l' & -> & E & T' & Le). exists mark', l'. split_and!; try done; [|lia].
    by eapply explored_node. }
  assert (Next : forall pc' sv, 0 <= pc' < np -> saves_ok sv ->
    add_result gen pos [pc'] mark1 l (addthread d s notbol fuel gen pos pc' sv mark1 l)).
  { intros pc' sv R' S'. apply IH; try done. lia. }
  assert (Empty : add_result gen pos [] mark1 l (Some (mark1, l))).
  { exists mark1, l. split_and!; try done. apply explored_nil. }
  assert (Guard : forall t, is_Some t -> (i_op it <> DFA_MATCH) ->
    add_result gen pos (passes_test t pc) mark1 l
      (ok ← t; if ok : bool then addthread d s notbol fuel gen pos (pc + 1) save mark1 l else Some (mark1, l))).
  { intros t [ok ->] O. cbn [mbind option_bind]. destruct ok; [|done].
    apply Next; [by eapply fetch_next|done]. }
  destruct (tests_defined pos it P) as (Tb & Te & Tw).
  assert (Leaf : stops it = true -> add_result gen pos [pc] mark l
    (if (List.length (d_prog d) <=? List.length l)%nat then None else Some (mark1, l ++ [(pc, save)]))).
  { intros St. pose proof (threads_fit _ _ _ _ T R Um).
    destruct (Nat.leb_spec (List.length (d_prog d)) (List.length l)); [lia|].
    exists mark1, (l ++ [(pc, save)]). split_and!; [done|by eapply explored_leaf|by apply threads_add|lia]. }
  pose proof (eps_range pos pc it) as Er. unfold eps_targets, stops in *.
  destruct (i_op it) eqn:O; try (by apply Leaf); apply Node; try done.
  - destruct (Next (i_x it) save) as (m1 & l1 & -> & E1 & T2 & L1); [apply Er; [done|left]|done|].
    cbn [mbind option_bind].
    destruct (IH (i_y it) save m1 l1) as (m2 & l2 & -> & E2 & T3 & L2); try done;
      [apply Er; [done|right; left]|lia|].
    exists m2, l2. split_and!; try done; [|lia]. by eapply (explored_app _ _ [_] [_]).
  - apply Next; [apply Er; [done|left]|done].
  - assert (R' : 0 <= pc + 1 < np) by (apply Er; [done|left]).
    pose proof (fetch_inst _ _ F) as I. unfold inst_ok in I. rewrite O in I.
    destruct (_ <? _)%nat; [|by apply Next].
    rewrite zinsert_Some by (unfold saves_ok in Sv; lia). cbn [mbind option_bind]. apply Next; [done|].
    unfold saves_ok. by rewrite length_insert.
  - by apply Guard.
  - by apply Guard.
  - by apply Guard.
Qed.

(** ** One position *)

Definition byte_roots (pos : nat) (pc : Z) : list Z :=
  match fetch pc with
  | Some it => match accepts d it (byte_at s pos) with Some true => [pc + 1] | _ => [] end
  | None => []
  end.

Lemma accepts_defined pc it c : fetch pc = Some it -> is_Some (accepts d it c).
Proof.
  intros F. apply fetch_inst in F. unfold accepts, inst_ok in *. destruct (i_op it); try by eexists.
  destruct (0 <=? c); [|by eexists]. destruct (zlookup_is_Some (d_sets d) (i_x it)) as [x ->]; [lia|by eexists].
Qed.

(** Nothing is accepted at the end. *)
Lemma accepts_end pc it : fetch pc = Some it -> accepts d it (-1) <> Some true.
Proof.
  intros F. apply fetch_inst in F. unfold accepts, inst_ok in *. destruct (i_op it); try done.
  intros H. apply Some_inj, Z.eqb_eq in H. lia.
Qed.

Lemma byte_roots_spec pos pc x : x ∈ byte_roots pos pc <->
  exists it c, fetch pc = Some it /\ s !! pos = Some c /\ accepts d it c = Some true /\ x = pc + 1.
Proof.
  unfold byte_roots, byte_at. split.
  - destruct (fetch pc) as [it|] eqn:F; [|by intros ?%elem_of_nil].
    destruct (s !! pos) as [c|] eqn:C.
    + change (default (-1) (Some c)) with c. destruct (accepts d it c) as [[]|] eqn:A; try by intros ?%elem_of_nil.
      intros ->%list_elem_of_singleton. by exists it, c.
    + change (default (-1) None) with (-1). pose proof (accepts_end pc it F) as E. destruct (accepts d it (-1)) as [[]|]; try done; by intros ?%elem_of_nil.
  - intros (it & c & F & C & A & ->). rewrite F, C. change (default (-1) (Some c)) with c. rewrite A. by left.
Qed.

Definition best_after (pos : nat) (t : thread) (bst : best) : best :=
  match fetch (fst t) with
  | Some it => match i_op it with
               | DFA_MATCH => if fst bst <? Z.of_nat pos then (Z.of_nat pos, snd t) else bst
               | _ => bst
               end
  | None => bst
  end.

Lemma step_thread_spec gen pos pc sv mark l bst : threads_ok gen mark l -> (pos <= n s)%nat ->
  0 <= pc < np -> saves_ok sv ->
  exists mark' l', step_thread d s notbol gen pos (pc, sv) (mark, l, bst)
      = Some (mark', l', best_after pos (pc, sv) bst) /\
    explored gen (S pos) (byte_roots pos pc) mark l mark' l' /\ threads_ok gen mark' l'.
Proof.
  intros T P R Sv. unfold step_thread, best_after, byte_roots. cbn [fst snd].
  destruct (zlookup_is_Some (d_prog d) pc R) as [it F]. change (DfaRun.fetch d pc) with (fetch pc).
  assert (F' : fetch pc = Some it) by done. rewrite F'. cbn [mbind option_bind].
  assert (Stay : exists mark' l', Some (mark, l, bst) = Some (mark', l', bst) /\
    explored gen (S pos) [] mark l mark' l' /\ threads_ok gen mark' l').
  { exists mark, l. split_and!; try done. apply explored_nil. }
  destruct (accepts_defined pc it (byte_at s pos) F') as [ok A].
  assert (Go : i_op it <> DFA_MATCH -> exists mark' l',
    (ok ← accepts d it (byte_at s pos);
     if ok : bool then
       '(mark0, nlist) ← addthread d s notbol (add_fuel d) gen (S pos) (pc + 1) sv mark l;
       Some (mark0, nlist, bst)
     else Some (mark, l, bst)) = Some (mark', l', bst) /\
    explored gen (S pos) (match accepts d it (byte_at s pos) with Some true => [pc + 1] | _ => [] end)
      mark l mark' l' /\ threads_ok gen mark' l').
  { intros O. rewrite A. cbn [mbind option_bind]. destruct ok; [|exact Stay].
    assert (L : (S pos <= n s)%nat).
    { unfold byte_at in A. destruct (s !! pos) eqn:C; [apply lookup_lt_Some in C; unfold n; lia|].
      cbn in A. by apply (accepts_end pc it) in A. }
    destruct (addthread_spec (add_fuel d) gen (S pos) (pc + 1) sv mark l) as (m' & l' & -> & E & T' & _);
      try done; [by eapply fetch_next| |].
    { unfold add_fuel. pose proof (unmarked_le gen mark). rewrite (th_length _ _ _ T) in *. lia. }
    exists m', l'. by split_and!. }
  assert (No : match i_op it with DFA_CHAR | DFA_ANY | DFA_SET => True
               | _ => accepts d it (byte_at s pos) = Some false end).
  { unfold accepts. by destruct (i_op it). }
  destruct (i_op it) eqn:O; try (by apply Go); rewrite No; try exact Stay.
  exists mark, l. split_and!; try done. apply explored_nil.
Qed.

Lemma step_threads_spec gen pos clist mark l bst : threads_ok gen mark l -> (pos <= n s)%nat ->
  Forall (fun t => 0 <= fst t < np /\ saves_ok (snd t)) clist ->
  exists mark' l', step_threads d s notbol gen pos clist (mark, l, bst)
      = Some (mark', l', fold_left (fun bst t => best_after pos t bst) clist bst) /\
    explored gen (S pos) (flat_map (fun t => byte_roots pos (fst t)) clist) mark l mark' l' /\
    threads_ok gen mark' l'.
Proof.
  intros T P C. revert mark l bst T. induction C as [|[pc sv] clist [R S] _ IH]; intros mark l bst T.
  { exists mark, l. split_and!; try done. apply explored_nil. }
  cbn [step_threads]. destruct (step_thread_spec gen pos pc sv mark l bst) as (m1 & l1 & -> & E1 & T1); try done.
  cbn [mbind option_bind]. destruct (IH m1 l1 (best_after pos (pc, sv) bst) T1) as (m2 & l2 & -> & E2 & T2).
  exists m2, l2. split_and!; try done. cbn [flat_map]. by eapply explored_app.
Qed.

(** The match at [pos] replaces a shorter one. *)
Lemma best_fold_spec pos clist bst : fst bst < Z.of_nat pos ->
  let bst' := fold_left (fun bst t => best_after pos t bst) clist bst in
  ((forall pc, pc ∈ pcs clist -> ~ is_match pc) /\ bst' = bst) \/
  (exists t, t ∈ clist /\ is_match (fst t) /\ bst' = (Z.of_nat pos, snd t)).
Proof.
  intros L. revert bst L. induction clist as [|t clist IH]; intros bst L; cbn [fold_left].
  { left. split; [|done]. intros pc P. by apply elem_of_nil in P. }
  assert (D : (is_match (fst t) /\ forall b, fst b < Z.of_nat pos -> best_after pos t b = (Z.of_nat pos, snd t))
    \/ (~ is_match (fst t) /\ forall b, best_after pos t b = b)).
  { unfold best_after, is_match. destruct (fetch (fst t)) as [it|]; [|right; split; [by intros (? & ? & ?)|done]].
    destruct (decide (i_op it = DFA_MATCH)) as [O|O].
    - left. split; [by exists it|]. intros b0 B. rewrite O. destruct (Z.ltb_spec (fst b0) (Z.of_nat pos)); [done|lia].
    - right. split; [intros (it' & [= <-] & ?); done|]. intros b0. by destruct (i_op it). }
  assert (St : forall l sv, fold_left (fun bst t => best_after pos t bst) l (Z.of_nat pos, sv) = (Z.of_nat pos, sv)).
  { clear. induction l as [|t l IH]; intros sv; [done|]. cbn [fold_left].
    replace (best_after pos t (Z.of_nat pos, sv)) with (Z.of_nat pos, sv); [apply IH|].
    unfold best_after. destruct (fetch (fst t)) as [it|]; [|done]. destruct (i_op it); try done.
    cbn. by rewrite Z.ltb_irrefl. }
  destruct D as [[M B]|[M B]].
  - right. exists t. split; [left|]. split; [done|]. rewrite B by done. apply St.
  - rewrite B. destruct (IH bst L) as [[Nm E]|(t' & I & M' & E)].
    + left. split; [|done]. intros pc P. apply elem_of_cons in P as [->|P]; [done|by apply Nm].
    + right. exists t'. split; [by right|]. done.
Qed.

(** ** Reachability, position by position *)

Definition reach (from : nat) (pc : Z) (pos : nat) : Prop := rtc nfa_step (0, from) (pc, pos).

Lemma reach_eps from pos pc pc' : reach from pc pos -> rtc (eps pos) pc pc' -> reach from pc' pos.
Proof.
  intros R E. unfold reach in *. induction E as [|x y z E _ IH]; [done|].
  apply IH. eapply rtc_r; [exact R|]. by constructor.
Qed.

Lemma reach_inv_pair from z : rtc nfa_step (0, from) z ->
  (snd z = from /\ rtc (eps (snd z)) 0 (fst z)) \/
  (exists pos' q it c, snd z = S pos' /\ reach from q pos' /\ fetch q = Some it /\ s !! pos' = Some c /\
     accepts d it c = Some true /\ rtc (eps (snd z)) (q + 1) (fst z)).
Proof.
  revert z. apply rtc_ind_r; [by left|]. intros y z R St IH. unfold reach.
  inversion St as [p q1 q2 E|p q1 it c F C A]; subst; cbn [fst snd] in *.
  - destruct IH as [[-> H]|(pos' & q' & it & c & -> & Rq & F & C & A & H)].
    + left. split; [done|]. by eapply rtc_r.
    + right. exists pos', q', it, c. split_and!; try done. by eapply rtc_r.
  - right. exists p, q1, it, c. split_and!; try done.
Qed.

Lemma reach_inv from pc pos : reach from pc pos ->
  (pos = from /\ rtc (eps pos) 0 pc) \/
  (exists pos' q it c, pos = S pos' /\ reach from q pos' /\ fetch q = Some it /\ s !! pos' = Some c /\
     accepts d it c = Some true /\ rtc (eps pos) (q + 1) pc).
Proof. apply (reach_inv_pair from (pc, pos)). Qed.

Lemma reach_from from pc pos : reach from pc pos -> (from <= pos)%nat.
Proof.
  revert pc. induction pos as [|pos IH]; intros pc H; apply reach_inv in H as [[<- _]|(p & q & _ & _ & E & R & _)];
    try lia. injection E as ->. apply IH in R. lia.
Qed.

(** The threads of position [pos]: the instructions reached there that stop *)
Definition frontier (from pos : nat) (l : list thread) : Prop :=
  forall x, x ∈ pcs l <-> reach from x pos /\ thread_stop x.


Lemma accepts_stops it c : accepts d it c = Some true -> stops it = true.
Proof. unfold accepts, stops. by destruct (i_op it). Qed.

(** What [addthread] adds to an empty list *)
Lemma explored_fresh gen pos roots mark mark' l' : (forall x, ~ marked gen mark x) ->
  explored gen pos roots mark [] mark' l' ->
  forall x, x ∈ pcs l' <-> thread_stop x /\ exists r, r ∈ roots /\ rtc (eps pos) r x.
Proof.
  intros Fr [_ _ R C So I _] x. rewrite I. split.
  - intros [H|(M & _ & T)]; [by apply elem_of_nil in H|]. split; [done|].
    destruct (So x M) as [H|H]; [by apply Fr in H|done].
  - intros (T & r & Hr & H). right. split; [|split; [apply Fr|done]].
    specialize (R r Hr). clear -C R H Fr. revert R. induction H as [|a c e E _ IH]; intros R; [done|].
    apply IH. eapply C; [exact R|apply Fr|exact E].
Qed.

Lemma frontier_next gen from pos clist mark mark' l' : frontier from pos clist -> (from <= pos)%nat ->
  (forall x, ~ marked gen mark x) ->
  explored gen (S pos) (flat_map (fun t => byte_roots pos (fst t)) clist) mark [] mark' l' ->
  frontier from (S pos) l'.
Proof.
  intros Fo L Fr E x. rewrite (explored_fresh _ _ _ _ _ _ Fr E). split.
  - intros (T & r & Hr & H). split; [|done]. apply list_elem_of_In, in_flat_map in Hr as (t & Ht & Hr).
    apply list_elem_of_In, byte_roots_spec in Hr as (it & c & F & C & A & ->).
    eapply reach_eps; [|exact H]. eapply rtc_r; [apply Fo, list_elem_of_fmap_2, list_elem_of_In, Ht|].
    by econstructor.
  - intros (R & T). split; [done|]. apply reach_inv in R as [[E' _]|(p & q & it & c & E' & R & F & C & A & H)]; [lia|].
    injection E' as <-. exists (q + 1). split; [|done].
    assert (Q : q ∈ pcs clist) by (apply Fo; split; [done|]; exists it; by eauto using accepts_stops).
    apply list_elem_of_fmap in Q as ([pc sv] & -> & Q).
    apply list_elem_of_In, in_flat_map. exists (pc, sv). split; [by apply list_elem_of_In|].
    apply list_elem_of_In, byte_roots_spec. by exists it, c.
Qed.

(** Once no thread is left, nothing is reached further on. *)
Lemma frontier_empty from pos pc e : frontier from pos [] -> reach from pc e -> (from <= pos <= e)%nat ->
  e = pos /\ ~ thread_stop pc.
Proof.
  intros Fo. revert pc. induction e as [|e IH]; intros pc R L.
  - split; [lia|]. intros T. assert (X : pc ∈ pcs []) by (apply Fo; by replace pos with 0%nat by lia).
    by apply elem_of_nil in X.
  - destruct (decide (pos = S e)) as [-> |Ne].
    + split; [done|]. intros T. assert (X : pc ∈ pcs []) by (by apply Fo). by apply elem_of_nil in X.
    + apply reach_inv in R as [[E _]|(p & q & it & c & E & R & F & C & A & _)]; [lia|]. injection E as <-.
      destruct (IH q R) as [_ []]; [lia|]. exists it. by eauto using accepts_stops.
Qed.

Lemma match_stops pc : is_match pc -> thread_stop pc.
Proof. intros (it & F & O). exists it. split; [done|]. unfold stops. by rewrite O. Qed.

(** [best_end] before the threads of [pos] are looked at *)
Record best_ok (from pos : nat) (bst : best) : Prop := {
  bo_range : -1 <= fst bst < Z.of_nat pos;
  bo_match : 0 <= fst bst -> matches from (Z.to_nat (fst bst)) /\ saves_ok (snd bst);
  bo_longest : forall e, (e < pos)%nat -> matches from e -> Z.of_nat e <= fst bst
}.

Lemma best_ok_next from pos clist bst : frontier from pos clist -> best_ok from pos bst ->
  Forall (fun t => saves_ok (snd t)) clist ->
  best_ok from (S pos) (fold_left (fun bst t => best_after pos t bst) clist bst).
Proof.
  intros Fo [R M Lg] Sv. destruct (best_fold_spec pos clist bst) as [[No ->]|(t & I & Mt & ->)]; [lia| |].
  - split; [lia|done|]. intros e L X. destruct (decide (e = pos)) as [-> |]; [|apply Lg; [lia|done]].
    destruct X as (pc & Rp & Mp). exfalso. apply (No pc); [|done]. apply Fo. split; [done|by apply match_stops].
  - cbn [fst snd]. split; [cbn [fst]; lia| |cbn [fst]; intros; lia].
    cbn [fst snd]. intros _. rewrite Nat2Z.id. split; [|by eapply Forall_forall in Sv].
    exists (fst t). split; [|done]. apply Fo. by apply list_elem_of_fmap_2.
Qed.

(** ** The loops of dfa_run *)

Definition marks_le (gen : Z) (mark : list Z) : Prop :=
  List.length mark = List.length (d_prog d) /\ forall x m, zlookup mark x = Some m -> m <= gen.

Definition clist_ok (l : list thread) : Prop := Forall (fun t => 0 <= fst t < np /\ saves_ok (snd t)) l.

Lemma marks_fresh gen mark x : marks_le gen mark -> ~ marked (gen + 1) mark x.
Proof. intros [_ L] M. apply L in M. lia. Qed.

Lemma marks_start gen mark : marks_le gen mark -> threads_ok (gen + 1) mark [].
Proof. intros [L _]. split; [done|constructor|intros x X; by apply elem_of_nil in X|constructor]. Qed.

Lemma marks_next gen pos roots mark mark' l l' : marks_le gen mark ->
  explored (gen + 1) pos roots mark l mark' l' -> marks_le (gen + 1) mark'.
Proof.
  intros [L M] E. split; [by rewrite (ex_length _ _ _ _ _ _ _ E)|]. intros x m X.
  apply (ex_other _ _ _ _ _ _ _ E) in X as [->|X]; [lia|]. apply M in X. lia.
Qed.

Lemma threads_clist gen mark l : threads_ok gen mark l -> clist_ok l.
Proof.
  intros [L _ M S]. apply Forall_forall. intros t T. split; [|by eapply Forall_forall in S].
  assert (X : fst t ∈ pcs l) by (by apply list_elem_of_fmap_2). apply M, zlookup_lt in X. by rewrite <-L.
Qed.

(** The longest match from [from], -1 if there is none *)
Record best_final (from : nat) (bst : best) : Prop := {
  bf_low : -1 <= fst bst;
  bf_match : 0 <= fst bst -> matches from (Z.to_nat (fst bst)) /\ saves_ok (snd bst);
  bf_longest : forall e, matches from e -> Z.of_nat e <= fst bst
}.

Lemma reach_le from pc pos : (from <= n s)%nat -> reach from pc pos -> (pos <= n s)%nat.
Proof.
  intros L R. apply reach_inv in R as [[-> _]|(p & q & it & c & -> & _ & _ & C & _)]; [done|].
  apply lookup_lt_Some in C. unfold n. lia.
Qed.

Lemma next_gen_Some gen : gen < INT_MAX -> next_gen gen = Some (gen + 1).
Proof. intros L. unfold next_gen. by rewrite (proj2 (Z.ltb_lt _ _)). Qed.

Lemma run_positions_spec fuel from pos gen mark clist bst :
  (from <= pos <= n s)%nat -> (n s - pos < fuel)%nat -> gen + Z.of_nat fuel <= INT_MAX ->
  marks_le gen mark -> clist_ok clist -> frontier from pos clist -> best_ok from pos bst ->
  exists gen' mark' bst', run_positions d s notbol fuel pos gen mark clist bst = Some (gen', mark', bst') /\
    gen <= gen' <= gen + Z.of_nat fuel /\ marks_le gen' mark' /\ best_final from bst'.
Proof.
  revert pos gen mark clist bst.
  induction fuel as [|fuel IH]; intros pos gen mark clist bst P L G M C Fo B; [lia|].
  cbn [run_positions]. destruct clist as [|t clist'] eqn:Ec.
  - exists gen, mark, bst. split_and!; try done; try lia. destruct B as [Rg Mt Lg]. split; [lia|done|].
    intros e X. destruct (decide (e < pos)%nat); [by apply Lg|]. destruct X as (pc & R & Mp).
    destruct (frontier_empty from pos pc e Fo R) as [_ []]; [lia|by apply match_stops].
  - rewrite <-Ec in *. clear Ec t clist'. rewrite next_gen_Some by lia. cbn [mbind option_bind].
    destruct (step_threads_spec (gen + 1) pos clist mark [] bst (marks_start _ _ M)) as (m1 & l1 & -> & E & T);
      [lia|done|]. cbn [mbind option_bind].
    set (bst1 := fold_left _ clist bst).
    assert (B1 : best_ok from (S pos) bst1).
    { apply best_ok_next; try done. eapply Forall_impl; [exact C|]. by intros ? []. }
    pose proof (marks_next _ _ _ _ _ _ _ M E) as M1.
    destruct (Nat.leb_spec (n s) pos).
    + exists (gen + 1), m1, bst1. split_and!; try done; try lia. destruct B1 as [Rg Mt Lg]. split; [lia|done|].
      intros e X. apply Lg; [|done]. destruct X as (pc & R & _). apply reach_le in R; lia.
    + destruct (IH (S pos) (gen + 1) m1 l1 bst1) as (g' & m' & b' & -> & G' & M' & B'); try done; try lia.
      * by eapply threads_clist.
      * eapply frontier_next; [exact Fo|lia| |exact E]. intros x. by apply marks_fresh.
      * exists g', m', b'. split_and!; done || lia.
Qed.

(** What dfa_run promises, from [from] on *)
Definition found_ok (from : nat) (anchored : bool) (ng : nat) (r : found) : Prop :=
  match r with
  | Some (m, g) =>
      (from <= sp_start m <= n s)%nat /\ (anchored = true -> sp_start m = from) /\
      matches (sp_start m) (sp_end m) /\ List.length g = ng /\
      (forall e, matches (sp_start m) e -> (e <= sp_end m)%nat) /\
      (forall f e, (from <= f < sp_start m)%nat -> ~ matches f e)
  | None => forall f e, (from <= f <= n s)%nat -> (anchored = true -> f = from) -> ~ matches f e
  end.

Lemma prog_nonempty : (0 < List.length (d_prog d))%nat.
Proof. pose proof (pg_last d Hok) as L. apply lookup_lt_Some in L. lia. Qed.

Lemma run_starts_spec fuel from anchored ng gen mark :
  (from <= n s)%nat -> (n s - from < fuel)%nat ->
  gen + Z.of_nat fuel * Z.of_nat (n s + 2) <= INT_MAX -> marks_le gen mark ->
  exists r, run_starts d s notbol fuel from anchored ng gen mark = Some r /\ found_ok from anchored ng r.
Proof.
  revert from gen mark. induction fuel as [|fuel IH]; intros from gen mark F L G M; [lia|].
  assert (G' : gen + Z.of_nat (n s + 2) + Z.of_nat fuel * Z.of_nat (n s + 2) <= INT_MAX) by nia.
  cbn [run_starts]. rewrite next_gen_Some by lia. cbn [mbind option_bind].
  pose proof prog_nonempty.
  destruct (addthread_spec (add_fuel d) (gen + 1) from 0 (no_saves d) mark []) as (m1 & l1 & -> & E & T & _).
  { done. } { by apply marks_start. } { lia. } { unfold saves_ok, no_saves. apply length_replicate. }
  { unfold add_fuel. pose proof (unmarked_le (gen + 1) mark). destruct M as [Lm _]. rewrite Lm in *. lia. }
  cbn [mbind option_bind].
  destruct (run_positions_spec (S (n s - from)) from from (gen + 1) m1 l1 (-1, []))
    as (g2 & m2 & bst & -> & G2 & M2 & B); try lia.
  { by eapply marks_next. } { by eapply threads_clist. }
  { intros x. rewrite (explored_fresh _ _ _ _ _ _ (fun x => marks_fresh _ _ x M) E). split.
    - intros (Tx & r & Hr & H'). apply list_elem_of_singleton in Hr as ->. split; [|done].
      eapply reach_eps; [apply rtc_refl|exact H'].
    - intros (R & Tx). split; [done|]. exists 0. split; [by left|].
      apply reach_inv in R as [[_ R]|(p & q & it & c & Ep & R & _)]; [done|]. apply reach_from in R. lia. }
  { split; cbn [fst snd]; [lia|lia|]. intros e Le (pc & R & _). apply reach_from in R. lia. }
  cbn [mbind option_bind]. destruct B as [Lo Mt Lg]. destruct (Z.leb_spec 0 (fst bst)).
  - eexists. split; [reflexivity|]. destruct (Mt ltac:(done)) as [Mm _]. unfold found_ok.
    cbn [sp_start sp_end]. split_and!; try done.
    + unfold group_spans. by rewrite length_map, length_seq.
    + intros e X. apply Lg in X. lia.
    + intros f e Lf. lia.
  - assert (No : forall e, ~ matches from e) by (intros e X; apply Lg in X; lia).
    destruct (_ || _) eqn:St.
    + eexists. split; [reflexivity|]. intros f e Lf A. apply orb_true_iff in St as [->|St].
      * by rewrite A.
      * zify_bool. by replace f with from by lia.
    + apply orb_false_iff in St as [-> St]. zify_bool.
      destruct (IH (S from) g2 m2) as (r & -> & R); [lia|lia|lia|done|].
      exists r. split; [done|]. destruct r as [[m g]|].
      * destruct R as (R1 & _ & R3 & R4 & R5 & R6). split_and!; try done; try lia.
        intros f e Lf. destruct (decide (f = from)) as [-> |]; [apply No|apply R6; lia].
      * intros f e Lf _. destruct (decide (f = from)) as [-> |]; [apply No|apply R; [lia|done]].
Qed.

(** Subjects short enough for the counter [gen] *)
Definition short_subject : Prop := Z.of_nat (n s + 1) * Z.of_nat (n s + 2) <= INT_MAX.

Lemma dfa_run_spec start anchored ng : (start <= n s)%nat -> short_subject ->
  exists r, dfa_run d s notbol start anchored ng = Some r /\ found_ok start anchored ng r.
Proof.
  intros L Sh. unfold dfa_run. pose proof prog_nonempty.
  destruct (Nat.eqb_spec (List.length (d_prog d)) 0); [lia|].
  apply run_starts_spec; [done|lia|unfold short_subject in Sh; nia|].
  split; [apply length_replicate|]. intros x m [_ X]%zlookup_Some. apply lookup_replicate in X as [-> _]. lia.
Qed.

End Match.
