(* ===== verification/DfaBack.v ===== *)
(** * The backtracker explores every path (text/dfa/dfa_bt.c)

    A configuration is an instruction, a position and the capture slots;
    [moves] lists what one instruction leads to.  The choice and undo stacks
    of [bt_match] stand for the configurations still to be tried
    ([pending]): [bt_step] keeps what is reachable from the current
    configuration and the pending ones.  So a match it reports is reachable,
    and when it runs out of choices there is none. *)

From stdpp Require Import relations.
From S2P Require Import Prelude Fnmatch Byteset Dfa DfaParse DfaRun DfaMatch.

(** An invariant of the loop body is one of the loop. *)
Lemma iterate_inv {A B} (f : A -> A + B) (I : A -> Prop) (P : B -> Prop) :
  (forall x, I x -> match f x with inl y => I y | inr r => P r end) ->
  forall p x, I x -> match iterate p f x with inl y => I y | inr r => P r end.
Proof.
  intros S. induction p as [p IH|p IH|]; intros x X; cbn [iterate].
  - pose proof (S x X). destruct (f x) as [y|r]; [|done]. pose proof (IH y ltac:(done)).
    destruct (iterate p f y) as [z|r]; [|done]. by apply IH.
  - pose proof (IH x X). destruct (iterate p f x) as [z|r]; [|done]. by apply IH.
  - by apply S.
Qed.

Section Back.
Context (d : dfa) (s : bytes) (notbol : bool).

Abbreviation fetch := (fetch d).

Definition cfg : Type := Z * nat * list Z.

Definition when (t : option bool) (c : cfg) : list cfg :=
  match t with Some true => [c] | _ => [] end.

Definition moves (c : cfg) : list cfg :=
  let '(pc, pos, save) := c in
  match fetch pc with
  | None => []
  | Some it =>
      match i_op it with
      | DFA_CHAR | DFA_ANY | DFA_SET =>
          when (if (pos <? n s)%nat then accepts d it (byte_at s pos) else Some false) (pc + 1, S pos, save)
      | DFA_JMP => [(i_x it, pos, save)]
      | DFA_SPLIT => [(i_x it, pos, save); (i_y it, pos, save)]
      | DFA_SAVE =>
          match zinsert save (i_x it) (Z.of_nat pos) with
          | Some save => [(pc + 1, pos, save)]
          | None => []
          end
      | DFA_BOL => when (at_bol d s notbol pos) (pc + 1, pos, save)
      | DFA_EOL => when (at_eol d s pos) (pc + 1, pos, save)
      | DFA_WORD => when (dfa_wordok s (i_x it) pos) (pc + 1, pos, save)
      | DFA_BACKREF =>
          match backref_ok s (i_x it - 1) save pos with
          | Some (ok, len) => when (Some ok) (pc + 1, (pos + len)%nat, save)
          | None => []
          end
      | DFA_MATCH => []
      end
  end.

Definition cfg_step (c c' : cfg) : Prop := c' ∈ moves c.

Definition cfg_match (c : cfg) : Prop := is_match d (fst (fst c)).

(** ** The stacks as configurations *)

Definition current (st : bt) : cfg := (bt_pc st, bt_pos st, bt_save st).

Fixpoint pending (us : list (Z * Z)) (save : list Z) (cs : list (Z * nat * nat)) : list cfg :=
  match cs with
  | [] => []
  | (pc, pos, top) :: cs =>
      let '(us, save) := undo us top save in (pc, pos, save) :: pending us save cs
  end.

(** Each choice was made with no more to undo than the one above it. *)
Fixpoint tops_ok (k : nat) (cs : list (Z * nat * nat)) : Prop :=
  match cs with
  | [] => True
  | (_, _, top) :: cs => (top <= k)%nat /\ tops_ok top cs
  end.

Definition pending_of (st : bt) : list cfg := pending (bt_us st) (bt_save st) (bt_cs st).
Definition stacks_ok (st : bt) : Prop := tops_ok (List.length (bt_us st)) (bt_cs st).

Lemma undo_length us k save us' save' : undo us k save = (us', save') ->
  (k <= List.length us)%nat -> List.length us' = k.
Proof.
  revert save. induction us as [|[slot old] us IH]; intros save; cbn [undo].
  { intros [= <- <-] L. cbn in *. lia. }
  destruct (Nat.ltb_spec k (List.length ((slot, old) :: us))) as [Lt|Ge].
  - intros H L. apply IH in H; [done|]. cbn in Lt. lia.
  - intros [= <- <-] L. lia.
Qed.

Lemma undo_none us k save : (List.length us <= k)%nat -> undo us k save = (us, save).
Proof.
  intros L. destruct us as [|[slot old] us]; [done|]. cbn [undo].
  by destruct (Nat.ltb_spec k (List.length ((slot, old) :: us))); [lia|].
Qed.

(** Undoing a save gives the slots back. *)
Lemma undo_save us k save slot old x : (k <= List.length us)%nat -> zlookup save slot = Some old ->
  undo ((slot, old) :: us) k (<[Z.to_nat slot := x]> save) = undo us k save.
Proof.
  intros L [_ O]%zlookup_Some. cbn [undo]. destruct (Nat.ltb_spec k (List.length ((slot, old) :: us)));
    [|cbn in *; lia]. by rewrite list_insert_insert_eq, list_insert_id.
Qed.

Lemma pending_save us save slot old x cs : tops_ok (List.length us) cs -> zlookup save slot = Some old ->
  pending ((slot, old) :: us) (<[Z.to_nat slot := x]> save) cs = pending us save cs.
Proof.
  destruct cs as [|[[pc pos] top] cs]; [done|]. intros [L _] O. cbn [pending]. by rewrite undo_save.
Qed.

Lemma tops_ok_mono k k' cs : (k <= k')%nat -> tops_ok k cs -> tops_ok k' cs.
Proof. destruct cs as [|[[pc pos] top] cs]; [done|]. cbn. intros L [? ?]. split; [lia|done]. Qed.

(** ** One step *)

(** The configurations to explore: [Q] before, those of the result after *)
Definition explores (Q : list cfg) (o : bt + bt_result) : Prop :=
  match o with
  | inl st => stacks_ok st /\ current st :: pending_of st = Q
  | inr BtNone => Q = []
  | inr _ => True
  end.

Lemma bt_backtrack_explores st : stacks_ok st -> explores (pending_of st) (bt_backtrack st).
Proof.
  intros T. unfold bt_backtrack, pending_of, stacks_ok in *.
  destruct (bt_cs st) as [|[[pc pos] top] cs]; [done|]. destruct T as [L T]. cbn [pending].
  destruct (undo (bt_us st) top (bt_save st)) as [us save] eqn:U. apply undo_length in U; [|done].
  split; [|done]. unfold stacks_ok. cbn. by rewrite U.
Qed.

Lemma bt_when_explores t pc pos st : stacks_ok st -> bt_when t pc pos st = inr BtUndefined \/
  explores (when t (pc, pos, bt_save st) ++ pending_of st) (bt_when t pc pos st).
Proof.
  intros T. destruct t as [[]|]; [right; by split|right; by apply bt_backtrack_explores|by left].
Qed.

(** A step replaces the current configuration by its moves. *)
Lemma bt_step_explores st : stacks_ok st ->
  match bt_step d s notbol st with
  | inr BtUndefined => True
  | inr (BtMatch e save) => cfg_match (current st) /\ current st = (bt_pc st, e, save)
  | o => explores (moves (current st) ++ pending_of st) o
  end.
Proof.
  intros T. unfold bt_step, current, moves, cfg_match. cbn [fst].
  destruct (fetch (bt_pc st)) as [it|] eqn:F; [|done].
  assert (When : forall t pc pos, match bt_when t pc pos st with
    | inr BtUndefined => True | inr (BtMatch e save) => False
    | o => explores (when t (pc, pos, bt_save st) ++ pending_of st) o end).
  { intros t pc pos. destruct (bt_when_explores t pc pos st T) as [->|H]; [done|].
    destruct (bt_when t pc pos st) as [|[]] eqn:W; try done.
    destruct t as [[]|]; try done. cbn in W. unfold bt_backtrack in W.
    destruct (bt_cs st) as [|[[? ?] ?] ?]; [done|]. by destruct (undo _ _ _). }
  assert (When' : forall t pc pos, match bt_when t pc pos st with
    | inr BtUndefined => True | inr (BtMatch e save) => is_match d (bt_pc st) /\
        (bt_pc st, bt_pos st, bt_save st) = (bt_pc st, e, save)
    | o => explores (when t (pc, pos, bt_save st) ++ pending_of st) o end).
  { intros t pc pos. pose proof (When t pc pos) as W. by destruct (bt_when t pc pos st) as [|[]]. }
  destruct (i_op it) eqn:O; try apply When'.
  - split; [|cbn [current bt_pc bt_pos bt_save pending_of]].
    + unfold stacks_ok in *. cbn. split; [lia|done].
    + unfold pending_of. cbn [bt_us bt_save bt_cs pending]. by rewrite undo_none.
  - by split.
  - destruct (zlookup (bt_save st) (i_x it)) as [old|] eqn:L; [|done].
    rewrite zinsert_Some by (by eapply zlookup_lt). split.
    + unfold stacks_ok in *. cbn. eapply tops_ok_mono; [|exact T]. lia.
    + unfold pending_of. cbn [bt_us bt_save bt_cs]. by rewrite pending_save.
  - destruct (backref_ok s (i_x it - 1) (bt_save st) (bt_pos st)) as [[ok len]|]; [|done]. apply When'.
  - split; [by exists it|done].
Qed.

(** ** The whole search *)

Section Search.
Context (c0 : cfg).

(** What is left to explore comes from [c0], and every match from [c0] comes
    from what is left. *)
Record exploring (Q : list cfg) : Prop := {
  eq_sound : forall c, c ∈ Q -> rtc cfg_step c0 c;
  eq_complete : forall m, cfg_match m -> rtc cfg_step c0 m -> exists c, c ∈ Q /\ rtc cfg_step c m
}.

Definition searching (st : bt) : Prop := stacks_ok st /\ exploring (current st :: pending_of st).

Definition search_result (r : bt_result) : Prop :=
  match r with
  | BtMatch e save => exists pc, rtc cfg_step c0 (pc, e, save) /\ is_match d pc
  | BtNone => forall m, cfg_match m -> ~ rtc cfg_step c0 m
  | _ => True
  end.

Lemma exploring_moves c Q : ~ cfg_match c -> exploring (c :: Q) -> exploring (moves c ++ Q).
Proof.
  intros N [So Co]. split.
  - intros c' H. apply elem_of_app in H as [H|H]; [|apply So; by right].
    eapply rtc_r; [apply So; by left|exact H].
  - intros m M R. destruct (Co m M R) as (c' & H & R'). apply elem_of_cons in H as [->|H].
    + inversion R' as [x|x y z St R'']; subst; [done|]. exists y. split; [|done].
      apply elem_of_app. by left.
    + exists c'. split; [|done]. apply elem_of_app. by right.
Qed.

Lemma bt_step_searching st : searching st ->
  match bt_step d s notbol st with inl st' => searching st' | inr r => search_result r end.
Proof.
  intros [T E]. pose proof (bt_step_explores st T) as H.
  assert (N : match bt_step d s notbol st with inr (BtMatch _ _) => True | _ => ~ cfg_match (current st) end
    \/ bt_step d s notbol st = inr BtUndefined).
  { unfold bt_step, cfg_match, current. cbn [fst]. destruct (fetch (bt_pc st)) as [it|] eqn:F; [|by right].
    destruct (decide (i_op it = DFA_MATCH)) as [O|O]; [rewrite O; by left|]. left.
    assert (Nm : ~ is_match d (bt_pc st)) by (intros (it' & F' & O'); congruence).
    by destruct (match i_op it with DFA_CHAR => _ | _ => _ end) as [|[]]. }
  destruct N as [N| ->]; [|done].
  destruct (bt_step d s notbol st) as [st'|[e save| | |]]; try done.
  - destruct H as [T' Q]. split; [done|]. rewrite Q. by apply exploring_moves.
  - destruct H as [M Q]. exists (bt_pc st). split; [|exact M]. rewrite <-Q. apply E. by left.
  - intros m M R. apply exploring_moves in E; [|done]. destruct E as [_ Co].
    destruct (Co m M R) as (c & C & _). rewrite H in C. by apply elem_of_nil in C.
Qed.

End Search.

Lemma bt_match_search from save : search_result (0, from, save) (bt_match d s notbol from save).
Proof.
  unfold bt_match.
  pose proof (iterate_inv (bt_step d s notbol) (searching (0, from, save)) (search_result (0, from, save))
    (bt_step_searching _) DFA_MAXSTEPS (Bt 0 from save [] [])) as H.
  destruct (iterate _ _ _) as [st|r]; [done|]. apply H. split; [done|]. split.
  - intros c C. apply list_elem_of_singleton in C as ->. apply rtc_refl.
  - intros m _ R. exists (0, from, save). split; [by left|done].
Qed.

(** ** Without back-references the two engines agree *)

Context (Hok : program_ok d).

Definition no_backref : Prop := forall pc it, fetch pc = Some it -> i_op it <> DFA_BACKREF.

Context (Hb : no_backref).

Definition place (c : cfg) : Z * nat := fst c.

Definition cfg_ok (c : cfg) : Prop :=
  0 <= fst (fst c) < Z.of_nat (List.length (d_prog d)) /\ (snd (fst c) <= n s)%nat /\ saves_ok d (snd c).

Lemma when_elem t c c' : c' ∈ when t c -> t = Some true /\ c' = c.
Proof. destruct t as [[]|]; cbn; try by intros ?%elem_of_nil. by intros ->%list_elem_of_singleton. Qed.

Lemma byte_test pos it : (if (pos <? n s)%nat then accepts d it (byte_at s pos) else Some false) = Some true ->
  exists c, s !! pos = Some c /\ accepts d it c = Some true.
Proof.
  unfold n. destruct (Nat.ltb_spec pos (List.length s)) as [L|]; [|done].
  apply lookup_lt_is_Some in L as [c C]. unfold byte_at. rewrite C. intros A. by exists c.
Qed.

Lemma cfg_step_nfa c c' : cfg_step c c' -> nfa_step d s notbol (place c) (place c').
Proof.
  destruct c as [[pc pos] save]. unfold cfg_step, moves, place. cbn [fst].
  destruct (fetch pc) as [it|] eqn:F; [|by intros ?%elem_of_nil].
  assert (E : forall pc', pc' ∈ eps_targets d s notbol pos pc it -> nfa_step d s notbol (pc, pos) (pc', pos)).
  { intros pc' H. constructor. by exists it. }
  assert (T : forall t sv, c' ∈ when t (pc + 1, pos, sv) -> eps_targets d s notbol pos pc it = passes_test t pc ->
    nfa_step d s notbol (pc, pos) (fst c')).
  { intros t sv H Eq. apply when_elem in H as [-> ->]. apply E. rewrite Eq. by left. }
  assert (B : forall sv, c' ∈ when (if (pos <? n s)%nat then accepts d it (byte_at s pos) else Some false)
    (pc + 1, S pos, sv) -> nfa_step d s notbol (pc, pos) (fst c')).
  { intros sv H. apply when_elem in H as [H ->]. apply byte_test in H as (c & C & A).
    cbn. by econstructor. }
  pose proof (Hb pc it F) as Nb. unfold eps_targets in E, T. destruct (i_op it) eqn:O; try done; try apply B;
    try (intros H; by eapply T).
  - intros H. apply elem_of_cons in H as [->|H]; [apply E; by left|].
    apply list_elem_of_singleton in H as ->. apply E. right. by left.
  - intros H. apply list_elem_of_singleton in H as ->. apply E. by left.
  - destruct (zinsert save (i_x it) (Z.of_nat pos)); [|by intros ?%elem_of_nil].
    intros H. apply list_elem_of_singleton in H as ->. apply E. by left.
  - by intros ?%elem_of_nil.
Qed.

Lemma cfg_step_saves c c' : cfg_step c c' -> saves_ok d (snd c) -> saves_ok d (snd c').
Proof.
  destruct c as [[pc pos] save]. unfold cfg_step, moves. cbn [snd].
  destruct (fetch pc) as [it|] eqn:F; [|by intros ?%elem_of_nil].
  assert (W : forall t a, c' ∈ when t (a, save) -> saves_ok d save -> saves_ok d (snd c')).
  { intros t a H. by apply when_elem in H as [_ ->]. }
  pose proof (Hb pc it F). destruct (i_op it); try done; try (intros H'; by eapply W).
  - intros [->|H']%elem_of_cons; [done|]. by apply list_elem_of_singleton in H' as ->.
  - by intros ->%list_elem_of_singleton.
  - unfold zinsert. destruct (_ || _); [by intros ?%elem_of_nil|].
    intros ->%list_elem_of_singleton. unfold saves_ok. cbn. by rewrite length_insert.
  - by intros ?%elem_of_nil.
Qed.

Lemma nfa_step_ok a b : nfa_step d s notbol a b -> 0 <= fst a < Z.of_nat (List.length (d_prog d)) ->
  (snd a <= n s)%nat -> 0 <= fst b < Z.of_nat (List.length (d_prog d)) /\ (snd b <= n s)%nat.
Proof.
  intros [pos pc pc' (it & F & T)|pos pc it c F C A] R P; cbn [fst snd] in *.
  - split; [|done]. by eapply eps_range.
  - split; [|apply lookup_lt_Some in C; unfold n; lia].
    eapply fetch_next; [exact Hok|exact F|]. intros O. unfold accepts in A. by rewrite O in A.
Qed.

Lemma cfg_steps_nfa c c' : rtc cfg_step c c' -> rtc (nfa_step d s notbol) (place c) (place c').
Proof. induction 1; [done|]. eapply rtc_l; [by apply cfg_step_nfa|done]. Qed.

Lemma cfg_steps_ok c c' : rtc cfg_step c c' -> cfg_ok c -> cfg_ok c'.
Proof.
  induction 1 as [|c c1 c2 St _ IH]; [done|]. intros (R & P & Sv). apply IH.
  destruct (nfa_step_ok _ _ (cfg_step_nfa _ _ St) R P) as [R' P']. split; [done|]. split; [done|].
  by eapply cfg_step_saves.
Qed.

(** Every step of the program is a move, whatever the slots hold. *)
Lemma nfa_step_cfg a c save : nfa_step d s notbol a c -> saves_ok d save ->
  exists save', cfg_step (a, save) (c, save') /\ saves_ok d save'.
Proof.
  intros H Sv. destruct H as [pos pc pc' (it & F & T)|pos pc it c F C A]; unfold cfg_step, moves; rewrite F.
  - assert (W : forall t, pc' ∈ passes_test t pc -> (pc', pos, save) ∈ when t (pc + 1, pos, save)).
    { intros t Hp. unfold passes_test in Hp. destruct t as [[]|]; try by apply elem_of_nil in Hp.
      apply list_elem_of_singleton in Hp as ->. by left. }
    pose proof (fetch_inst d Hok _ _ F) as I. unfold inst_ok in I.
    unfold eps_targets in T. destruct (i_op it); try by apply elem_of_nil in T.
    + exists save. split; [|done]. apply elem_of_cons in T as [->|T]; [by left|].
      apply list_elem_of_singleton in T as ->. right. by left.
    + exists save. split; [|done]. apply list_elem_of_singleton in T as ->. by left.
    + apply list_elem_of_singleton in T as ->. rewrite zinsert_Some by (unfold saves_ok in Sv; lia).
      exists (<[Z.to_nat (i_x it):=Z.of_nat pos]> save). split; [by left|].
      unfold saves_ok. by rewrite length_insert.
    + exists save. split; [by apply W|done].
    + exists save. split; [by apply W|done].
    + exists save. split; [by apply W|done].
  - exists save. split; [|done]. pose proof C as L. apply lookup_lt_Some in L.
    assert (W : (pc + 1, S pos, save) ∈ when (if (pos <? n s)%nat then accepts d it (byte_at s pos) else Some false)
      (pc + 1, S pos, save)).
    { unfold n. rewrite (proj2 (Nat.ltb_lt _ _)) by done. unfold byte_at. rewrite C.
      change (default (-1) (Some c)) with c. rewrite A. by left. }
    unfold accepts in A. by destruct (i_op it).
Qed.

Lemma nfa_steps_cfg a c save : rtc (nfa_step d s notbol) a c -> saves_ok d save ->
  exists save', rtc cfg_step (a, save) (c, save').
Proof.
  intros R. revert save. induction R as [a|a a1 c St _ IH]; intros save Sv; [by exists save|].
  destruct (nfa_step_cfg _ _ _ St Sv) as (sv1 & St' & Sv1). destruct (IH sv1 Sv1) as (sv2 & R).
  exists sv2. by eapply rtc_l.
Qed.

(** No access leaves its array. *)
Lemma bt_step_defined st : cfg_ok (current st) -> bt_step d s notbol st <> inr BtUndefined.
Proof.
  intros (R & P & Sv). unfold current in *. cbn [fst snd] in *. unfold bt_step.
  destruct (zlookup_is_Some (d_prog d) (bt_pc st) R) as [it F].
  assert (F' : fetch (bt_pc st) = Some it) by done. rewrite F'.
  assert (Bk : bt_backtrack st <> inr BtUndefined).
  { unfold bt_backtrack. destruct (bt_cs st) as [|[[? ?] ?] ?]; [done|]. by destruct (undo _ _ _). }
  assert (W : forall t pc pos, is_Some t -> bt_when t pc pos st <> inr BtUndefined).
  { intros t pc pos [[] ->]; [done|exact Bk]. }
  destruct (tests_defined d s notbol (bt_pos st) it P) as (Tb & Te & Tw).
  pose proof (fetch_inst d Hok _ _ F') as I. unfold inst_ok in I.
  assert (Ac : is_Some (if (bt_pos st <? n s)%nat then accepts d it (byte_at s (bt_pos st)) else Some false)).
  { destruct (_ <? _)%nat; [|by eexists]. by eapply accepts_defined. }
  pose proof (Hb _ _ F'). destruct (i_op it); try done; try by apply W.
  destruct (zlookup_is_Some (bt_save st) (i_x it)) as [old ->]; [unfold saves_ok in Sv; lia|].
  by rewrite zinsert_Some by (unfold saves_ok in Sv; lia).
Qed.

Lemma bt_match_defined from save : (from <= n s)%nat -> saves_ok d save ->
  bt_match d s notbol from save <> BtUndefined.
Proof.
  intros L Sv. pose proof (prog_nonempty d Hok).
  assert (O : cfg_ok (0, from, save)) by (split_and!; cbn; lia || done).
  assert (Lp : forall st, searching (0, from, save) st ->
    match bt_step d s notbol st with inl st' => searching (0, from, save) st' | inr r => r <> BtUndefined end).
  { intros st S. pose proof (bt_step_searching _ st S) as N.
    assert (D : bt_step d s notbol st <> inr BtUndefined).
    { apply bt_step_defined. eapply cfg_steps_ok; [|exact O]. apply S. by left. }
    destruct (bt_step d s notbol st) as [|r]; [done|]. congruence. }
  pose proof (iterate_inv _ _ _ Lp DFA_MAXSTEPS (Bt 0 from save [] [])) as I. unfold bt_match.
  destruct (iterate _ _ _) as [st|r]; [done|]. apply I. split; [done|]. split.
  - intros c C. apply list_elem_of_singleton in C as ->. apply rtc_refl.
  - intros m _ R. exists (0, from, save). split; [by left|done].
Qed.

Lemma bt_match_matches from e save : bt_match d s notbol from (no_saves d) = BtMatch e save ->
  matches d s notbol from e.
Proof.
  intros B. pose proof (bt_match_search from (no_saves d)) as H. rewrite B in H.
  destruct H as (pc & R & M). exists pc. split; [|done]. by apply cfg_steps_nfa in R.
Qed.

Lemma bt_match_none from e : bt_match d s notbol from (no_saves d) = BtNone ->
  ~ matches d s notbol from e.
Proof.
  intros B (pc & R & M). pose proof (bt_match_search from (no_saves d)) as H. rewrite B in H.
  destruct (nfa_steps_cfg _ _ (no_saves d) R) as (save & R'); [apply length_replicate|].
  by apply (H (pc, e, save)).
Qed.

End Back.
