(* ===== verification/DfaReplace.v ===== *)
(** * Regular expressions: replacement (text/dfa/dfa_replace.c)

    [dfa_repl_compile] turns a template into items, [dfa_repl_apply] expands
    them for one match, [dfa_replace] runs the loop of [s///].  The output
    goes through the callback [out], a parameter that returns the new state
    of its context, or none where the callback returns nonzero.  The value
    [Undefined] stands for a read outside of the subject, or of the group
    spans before they are written. *)

From S2P Require Import Prelude Fnmatch Byteset Dfa DfaRun.

Definition DFA_REPL_BACKREF : Z := 1.

(** ** Templates *)

(** -1: the literal run [off, len); 0: the match; 1 to 9: a group; -2 to -6:
    a case operator *)
Record dfa_repl_item := Item { it_group : Z; it_off : nat; it_len : nat }.

Record dfa_repl := Repl { r_items : list dfa_repl_item; r_lit : bytes }.

Definition repl_empty : dfa_repl := Repl [] [].

(** The last item, when it is a literal run that ends where the text does *)
Definition repl_addliteral (t : bytes) (r : dfa_repl) : dfa_repl :=
  if (List.length t =? 0)%nat then r
  else
    let litlen := List.length (r_lit r) in
    let items :=
      match last (r_items r) with
      | Some it =>
          if (it_group it =? -1) && (it_off it + it_len it =? litlen)%nat
          then removelast (r_items r) ++ [Item (-1) (it_off it) (it_len it + List.length t)]
          else r_items r ++ [Item (-1) litlen (List.length t)]
      | None => r_items r ++ [Item (-1) litlen (List.length t)]
      end in
    Repl items (r_lit r ++ t).

Definition repl_addgroup (group : Z) (r : dfa_repl) : dfa_repl :=
  Repl (r_items r ++ [Item group 0 0]) (r_lit r).

Definition repl_addcase (op : Z) (r : dfa_repl) : dfa_repl := repl_addgroup (- op) r.

(** The bytes before the next special character *)
Fixpoint plain_run (l : bytes) : bytes :=
  match l with
  | c :: l => if (c =? ch "&") || (c =? ch "\") then [] else c :: plain_run l
  | [] => []
  end.

Definition repl_char_escape (c : Z) : option Z :=
  if c =? ch "n" then Some 10
  else if c =? ch "t" then Some 9
  else if c =? ch "r" then Some 13
  else if c =? ch "f" then Some 12
  else if c =? ch "v" then Some 11
  else if c =? ch "a" then Some 7
  else None.

Definition repl_base (c : Z) : option (Z * nat) :=
  if c =? ch "x" then Some (16, 2%nat)
  else if c =? ch "d" then Some (10, 3%nat)
  else if c =? ch "o" then Some (8, 3%nat)
  else None.

Definition repl_case_op (c : Z) : option Z :=
  if c =? ch "U" then Some 2
  else if c =? ch "L" then Some 3
  else if c =? ch "u" then Some 4
  else if c =? ch "l" then Some 5
  else if c =? ch "E" then Some 6
  else None.

(** The branch for a backslash, [c] behind it and [rest] behind that: the
    template, and how many more bytes of [rest] were read *)
Definition repl_escape (flags : Z) (c : Z) (rest : bytes) (r : dfa_repl) : dfa_repl * nat :=
  let full := has flags DFA_REPL_BACKREF in
  if full && (49 <=? c) && (c <=? 57) then (repl_addgroup (c - 48) r, 0%nat)
  else if (c =? ch "&") || (c =? ch "\") then (repl_addliteral [c] r, 0%nat)
  else if negb full then (repl_addliteral [c] r, 0%nat)
  else
    match repl_char_escape c with
    | Some e => (repl_addliteral [e] r, 0%nat)
    | None =>
        match repl_base c, rest with
        | Some (base, maxd), _ :: _ =>
            let '(v, got) := escape_digits rest base maxd 0 0 in
            if (0 <? got)%nat then (repl_addliteral [u8 v] r, got) else (repl_addliteral [c] r, 0%nat)
        | _, _ =>
            match repl_case_op c with
            | Some op => (repl_addcase op r, 0%nat)
            | None => (repl_addliteral [c] r, 0%nat)
            end
        end
    end.

(** The loop of dfa_repl_compile; none when the passes run out. *)
Fixpoint repl_loop (fuel : nat) (flags : Z) (p : bytes) (r : dfa_repl) : option dfa_repl :=
  match fuel with
  | O => None
  | S fuel =>
      match p with
      | [] => Some r
      | c :: p' =>
          if c =? ch "&" then repl_loop fuel flags p' (repl_addgroup 0 r)
          else
            match p' with
            | e :: rest =>
                if c =? ch "\" then
                  let '(r, k) := repl_escape flags e rest r in
                  repl_loop fuel flags (drop k rest) r
                else
                  let run := plain_run p in
                  repl_loop fuel flags (drop (List.length run) p) (repl_addliteral run r)
            | [] =>
                let run := plain_run p in
                repl_loop fuel flags (drop (List.length run) p) (repl_addliteral run r)
            end
      end
  end.

Definition dfa_repl_compile (tmpl : bytes) (flags : Z) : option dfa_repl :=
  repl_loop (S (List.length tmpl)) flags tmpl repl_empty.

(** ** Outcomes *)

Inductive outcome (A : Type) :=
| Done (x : A)
| Aborted
| Undefined.
Arguments Done {A}.
Arguments Aborted {A}.
Arguments Undefined {A}.

Definition obind {A B} (o : outcome A) (f : A -> outcome B) : outcome B :=
  match o with Done x => f x | Aborted => Aborted | Undefined => Undefined end.

Notation "'let!' x := o 'in' k" := (obind o (fun x => k))
  (at level 10, x name, o at level 100, k at level 200) : shish_scope.
#[local] Open Scope shish_scope.

(** [(l + from, upto - from)]: the bytes of a subject between two offsets *)
Definition slice (l : bytes) (from upto : nat) : outcome bytes :=
  if (from <=? upto)%nat && (upto <=? List.length l)%nat then Done (take (upto - from) (drop from l))
  else Undefined.

Section Replace.
Context {ctx : Type} (out : ctx -> bytes -> option ctx).

Definition call_out (c : ctx) (t : bytes) : outcome ctx :=
  match out c t with Some c => Done c | None => Aborted end.

(** ** One replacement *)

Definition case_map (op c : Z) : Z :=
  if (op =? 2) || (op =? 4) then (if (97 <=? c) && (c <=? 122) then c - 32 else c)
  else if (op =? 3) || (op =? 5) then (if (65 <=? c) && (c <=? 90) then c + 32 else c)
  else c.

(** The bytes of one buffer, through the states [mode] and [once] *)
Fixpoint repl_bytes (t : bytes) (mode once : Z) : bytes * Z :=
  match t with
  | [] => ([], once)
  | c :: t =>
      let op := if once =? 0 then mode else once in
      let '(t, once) := repl_bytes t mode 0 in
      (case_map op c :: t, once)
  end.

(** repl_emit: in buffers of 64 bytes *)
Fixpoint repl_emit (fuel : nat) (c : ctx) (t : bytes) (mode once : Z) : outcome (ctx * Z) :=
  match t, fuel with
  | [], _ => Done (c, once)
  | _, O => Undefined
  | _, S fuel =>
      let '(buf, once) := repl_bytes (take 64 t) mode once in
      let! c := call_out c buf in
      repl_emit fuel c (drop 64 t) mode once
  end.

Definition emit_piece (c : ctx) (t : bytes) (mode once : Z) : outcome (ctx * Z) :=
  repl_emit (List.length t) c t mode once.

(** [gs] is the array [g] of [ng] spans, none while nothing has been written. *)
Fixpoint apply_items (items : list dfa_repl_item) (lit s : bytes) (m : dfa_span)
    (gs : option (list (option dfa_span))) (ng : nat) (c : ctx) (mode once : Z) : outcome ctx :=
  match items with
  | [] => Done c
  | it :: items =>
      let g := it_group it in
      if g <=? -2 then
        let op := - g in
        if op =? 6 then apply_items items lit s m gs ng c 0 0
        else if 4 <=? op then apply_items items lit s m gs ng c mode op
        else apply_items items lit s m gs ng c op 0
      else
        let emit t :=
          let! t := t in
          let! x := emit_piece c t mode once in
          apply_items items lit s m gs ng (fst x) mode (snd x) in
        if g <? 0 then emit (slice lit (it_off it) (it_off it + it_len it))
        else if g =? 0 then emit (slice s (sp_start m) (sp_end m))
        else
          let gi := Z.to_nat (g - 1) in
          if (gi <? ng)%nat then
            match gs with
            | None => Undefined
            | Some spans =>
                match spans !! gi with
                | None => Undefined
                | Some None => apply_items items lit s m gs ng c mode once
                | Some (Some sp) => emit (slice s (sp_start sp) (sp_end sp))
                end
            end
          else apply_items items lit s m gs ng c mode once
  end.

Definition dfa_repl_apply (r : dfa_repl) (s : bytes) (m : dfa_span)
    (gs : option (list (option dfa_span))) (ng : nat) (c : ctx) : outcome ctx :=
  apply_items (r_items r) (r_lit r) s m gs ng c 0 0.

(** ** The loop *)

Section Loop.
Context (d : dfa) (r : dfa_repl) (s : bytes) (nth : Z) (global : bool).

Definition n_groups : nat := Nat.min (dfa_groups d) 9.

Definition emit_slice (c : ctx) (from upto : nat) : outcome ctx :=
  let! t := slice s from upto in call_out c t.

Record loop_state := Loop {
  lp_pos : nat;
  lp_count : Z;
  lp_matched : Z;
  lp_prev_end : option nat;                          (** none: -1 *)
  lp_spans : option (list (option dfa_span));
  lp_ctx : ctx
}.

(** The array [g] behind [if(ng) dfa_submatch(...)] *)
Definition spans_after (m : dfa_span) (old : option (list (option dfa_span)))
    : outcome (option (list (option dfa_span))) :=
  if (n_groups =? 0)%nat then Done old
  else match dfa_submatch d s m n_groups with
       | Some (_, Some g) => Done (Some g)
       | Some (_, None) => Done old
       | None => Undefined
       end.

(** One pass: the next state, or the state in which the loop ends *)
Definition replace_pass (st : loop_state) : outcome (loop_state + loop_state) :=
  let n := List.length s in
  let pos := lp_pos st in
  match dfa_search d s pos with
  | None => Undefined
  | Some None => Done (inr st)
  | Some (Some m) =>
      let empty := (sp_start m =? sp_end m)%nat in
      if empty && bool_decide (lp_prev_end st = Some (sp_start m)) then
        if (n <=? sp_start m)%nat then Done (inr st)
        else
          let! c := emit_slice (lp_ctx st) pos (sp_start m + 1) in
          Done (inl (Loop (sp_start m + 1) (lp_count st) (lp_matched st) (lp_prev_end st) (lp_spans st) c))
      else
        let matched := u32 (lp_matched st + 1) in
        let prev := Some (sp_end m) in
        if matched <? nth then
          let upto := if (sp_start m <? sp_end m)%nat then sp_end m
                      else if (sp_start m <? n)%nat then (sp_start m + 1)%nat else sp_start m in
          let! c := emit_slice (lp_ctx st) pos upto in
          let st' := Loop upto (lp_count st) matched prev (lp_spans st) c in
          Done (if empty && (n <=? sp_start m)%nat then inr st' else inl st')
        else
          let! c := emit_slice (lp_ctx st) pos (sp_start m) in
          let! spans := spans_after m (lp_spans st) in
          let! c := dfa_repl_apply r s m spans n_groups c in
          let count := u32 (lp_count st + 1) in
          let pos := sp_end m in
          let st' pos c := Loop pos count matched prev spans c in
          if negb global then Done (inr (st' pos c))
          else if empty then
            if (pos <? n)%nat then
              let! c := emit_slice c pos (pos + 1) in
              Done (inl (st' (pos + 1)%nat c))
            else Done (inr (st' pos c))
          else Done (inl (st' pos c))
  end.

Fixpoint replace_loop (fuel : nat) (st : loop_state) : outcome loop_state :=
  match fuel with
  | O => Undefined
  | S fuel =>
      if (lp_pos st <=? List.length s)%nat then
        let! x := replace_pass st in
        match x with inl st => replace_loop fuel st | inr st => Done st end
      else Done st
  end.

End Loop.

(** The context and [*nreplaced]; [nth] 0 means 1. *)
Definition dfa_replace (d : dfa) (r : dfa_repl) (s : bytes) (nth : Z) (global : bool) (c : ctx)
    : outcome (ctx * Z) :=
  let nth := if nth =? 0 then 1 else nth in
  let! st := replace_loop d r s nth global (List.length s + 2) (Loop 0 0 0 None None c) in
  let! c := emit_slice s (lp_ctx st) (lp_pos st) (List.length s) in
  Done (c, lp_count st).

End Replace.
