(* ===== verification/DfaSubst.v ===== *)
(** * What a replacement does to the subject (text/dfa/dfa_replace.c)

    [engine_ok] is what the loop of [s///] needs of the regular expression:
    every search and every re-anchored search returns, and a match lies in
    the subject behind the position the search started at; [run_engine_ok]
    is the implementation, from the specification of [dfa_run].  On it rests
    [replace_loop_spec]: the loop ends, and its output is the subject with
    the replaced matches exchanged ([spliced]). *)

From stdpp Require Import relations.
From S2P Require Import Prelude Fnmatch Byteset Dfa DfaParse DfaRun DfaMatch DfaReplace.

(** ** The interface *)

(** [M f e]: the expression matches from [f] to [e]. *)
Definition longest (M : nat -> nat -> Prop) (f e : nat) : Prop :=
  M f e /\ forall e', M f e' -> (e' <= e)%nat.

Class engine_ok (d : dfa) (s : bytes) (M : nat -> nat -> Prop) : Prop := {
  eo_range : forall f e, (f <= List.length s)%nat -> M f e -> (f <= e <= List.length s)%nat;
  eo_search : forall pos, (pos <= List.length s)%nat -> exists r, dfa_search d s pos = Some r /\
    match r with
    | Some m =>
        (pos <= sp_start m <= List.length s)%nat /\ longest M (sp_start m) (sp_end m) /\
        forall f e, (pos <= f < sp_start m)%nat -> ~ M f e
    | None => forall f e, (pos <= f <= List.length s)%nat -> ~ M f e
    end;
  eo_submatch : forall m ng, (sp_start m <= List.length s)%nat -> is_Some (dfa_submatch d s m ng);
  eo_count : Z.of_nat (List.length s) + 2 < 2 ^ 32
}.

Lemma matches_range d s nb from e : (from <= n s)%nat -> matches d s nb from e -> (from <= e <= n s)%nat.
Proof. intros L (pc & R & _). split; [by eapply reach_from|by eapply reach_le]. Qed.

Definition run_only (d : dfa) : Prop := d_has_backref d = false.

#[export] Instance run_engine_ok d s : program_ok d -> run_only d -> short_subject s ->
  engine_ok d s (matches d s (dfa_notbol d)).
Proof.
  intros Ok Rn Sh. unfold run_only in Rn. split.
  - intros f e L. by apply matches_range.
  - intros pos L. unfold dfa_search, any_run. rewrite Rn.
    destruct (dfa_run_spec d s (dfa_notbol d) Ok pos false 0 L Sh) as ([[m g]|] & -> & F);
      eexists; (split; [reflexivity|]).
    + destruct F as (P & _ & M & _ & Lg & Lm). split; [exact P|]. by split.
    + intros f e R. by apply F.
  - intros m ng L. unfold dfa_submatch, any_run. rewrite Rn.
    destruct (dfa_run_spec d s (dfa_notbol d) Ok (sp_start m) true ng L Sh) as ([[m' g]|] & -> & _);
      by eexists.
  - unfold short_subject, INT_MAX, n in Sh. rewrite !Nat2Z.inj_add in Sh.
    set (k := Z.of_nat (List.length s)) in *. assert (0 <= k) by lia. assert (k + 2 <= (k + 1) * (k + 2)) by nia. lia.
Qed.

(** ** Output that is kept *)

Definition append_out (c t : bytes) : option bytes := Some (c ++ t).

Lemma repl_bytes_id t : repl_bytes t 0 0 = (t, 0).
Proof. induction t as [|c t IH]; [done|]. cbn [repl_bytes]. rewrite Z.eqb_refl, IH. done. Qed.

Lemma repl_emit_append fuel c t : (List.length t <= fuel)%nat ->
  repl_emit append_out fuel c t 0 0 = Done (c ++ t, 0).
Proof.
  revert c t. induction fuel as [|fuel IH]; intros c t L.
  - destruct t; [|cbn in L; lia]. cbn. by rewrite app_nil_r.
  - destruct t as [|x t]; [cbn; by rewrite app_nil_r|]. cbn [repl_emit]. rewrite repl_bytes_id.
    cbn [call_out append_out obind]. rewrite IH.
    + by rewrite <-app_assoc, take_drop.
    + rewrite length_drop. cbn [List.length] in *. lia.
Qed.

Lemma slice_done l from upto : (from <= upto <= List.length l)%nat ->
  slice l from upto = Done (take (upto - from) (drop from l)).
Proof.
  intros L. unfold slice. destruct (Nat.leb_spec from upto), (Nat.leb_spec upto (List.length l)); done || lia.
Qed.

Lemma emit_slice_append s c from upto : (from <= upto <= List.length s)%nat ->
  emit_slice append_out s c from upto = Done (c ++ take (upto - from) (drop from s)).
Proof. intros L. unfold emit_slice. by rewrite slice_done. Qed.

Lemma slice_join (s : bytes) a e f : (a <= e <= f)%nat ->
  take (e - a) (drop a s) ++ take (f - e) (drop e s) = take (f - a) (drop a s).
Proof.
  intros L. replace (drop e s) with (drop (e - a) (drop a s)) by (rewrite drop_drop; f_equal; lia).
  rewrite take_take_drop. f_equal. lia.
Qed.

Lemma slice_from (s : bytes) a e : (a <= e)%nat -> take a s ++ take (e - a) (drop a s) = take e s.
Proof. intros L. rewrite take_take_drop. f_equal. lia. Qed.

(** ** Templates without group references: those of awk *)

(** The text an item stands for in the replacement of [matched] *)
Definition item_text (lit matched : bytes) (it : dfa_repl_item) : bytes :=
  if it_group it =? 0 then matched else take (it_len it) (drop (it_off it) lit).

Definition template_text (r : dfa_repl) (matched : bytes) : bytes :=
  flat_map (item_text (r_lit r) matched) (r_items r).

Definition item_plain (litlen : nat) (it : dfa_repl_item) : Prop :=
  it_group it = 0 \/ (it_group it = -1 /\ (it_off it + it_len it <= litlen)%nat).

Definition plain_template (r : dfa_repl) : Prop :=
  Forall (item_plain (List.length (r_lit r))) (r_items r).

Definition span_text (s : bytes) (m : dfa_span) : bytes :=
  take (sp_end m - sp_start m) (drop (sp_start m) s).

Lemma apply_plain r s m gs ng c : plain_template r -> (sp_start m <= sp_end m <= List.length s)%nat ->
  dfa_repl_apply append_out r s m gs ng c = Done (c ++ template_text r (span_text s m)).
Proof.
  intros P L. unfold dfa_repl_apply, template_text. revert c. unfold plain_template in P.
  induction P as [|it items I _ IH]; intros c; cbn [apply_items flat_map]; [by rewrite app_nil_r|].
  assert (E : forall t, (let! x := emit_piece append_out c t 0 0 in
    apply_items append_out items (r_lit r) s m gs ng (fst x) 0 (snd x))%shish
    = Done (c ++ t ++ flat_map (item_text (r_lit r) (span_text s m)) items)).
  { intros t. unfold emit_piece. rewrite repl_emit_append by lia. cbn [obind fst snd].
    by rewrite IH, app_assoc. }
  unfold item_text at 1. destruct I as [G|[G L']]; rewrite G.
  - cbn [Z.leb Z.ltb Z.eqb Z.compare]. rewrite slice_done by lia. cbn [obind]. apply E.
  - cbn [Z.leb Z.ltb Z.eqb Z.compare Pos.compare Pos.compare_cont CompOpp]. rewrite slice_done by lia.
    cbn [obind]. rewrite E. by replace (it_off it + it_len it - it_off it)%nat with (it_len it) by lia.
Qed.

Lemma item_plain_mono k k' it : (k <= k')%nat -> item_plain k it -> item_plain k' it.
Proof. unfold item_plain. intros L [?|[? ?]]; [by left|right]. split; [done|lia]. Qed.

Lemma addliteral_plain t r : plain_template r -> plain_template (repl_addliteral t r).
Proof.
  intros P. unfold repl_addliteral. destruct (_ =? _)%nat; [done|].
  assert (L : Forall (item_plain (List.length (r_lit r ++ t))) (r_items r)).
  { eapply Forall_impl; [exact P|]. intros it. apply item_plain_mono. rewrite length_app. lia. }
  assert (N : forall it, it_group it = -1 -> (it_off it + it_len it = List.length (r_lit r))%nat ->
    item_plain (List.length (r_lit r ++ t)) (Item (-1) (it_off it) (it_len it + List.length t))).
  { intros it G E. right. cbn. split; [done|]. rewrite length_app. lia. }
  assert (A : plain_template (Repl (r_items r ++ [Item (-1) (List.length (r_lit r)) (List.length t)]) (r_lit r ++ t))).
  { apply Forall_app. split; [done|]. constructor; [|constructor]. right. cbn.
    split; [done|]. rewrite length_app. lia. }
  destruct (last (r_items r)) as [it|]; [|done]. destruct (_ && _) eqn:C; [|done]. zify_bool.
  apply Forall_app. split; [|constructor; [by apply N|constructor]].
  cbn [r_lit]. clear -L. revert L. generalize (r_items r) as items. induction items as [|x items IH]; [done|].
  intros L. apply Forall_cons in L as [X L]. cbn [removelast]. destruct items; [constructor|].
  constructor; [done|by apply IH].
Qed.

Lemma addgroup_plain r : plain_template r -> plain_template (repl_addgroup 0 r).
Proof. intros P. apply Forall_app. split; [done|]. constructor; [by left|constructor]. Qed.

(** Without [DFA_REPL_BACKREF] a backslash only quotes. *)
Lemma repl_escape_plain flags c rest r : has flags DFA_REPL_BACKREF = false -> plain_template r ->
  plain_template (fst (repl_escape flags c rest r)).
Proof.
  intros F P. unfold repl_escape. rewrite F. cbn [andb negb].
  destruct (_ || _); cbn [fst]; by apply addliteral_plain.
Qed.

Lemma repl_loop_plain fuel flags p r r' : has flags DFA_REPL_BACKREF = false -> plain_template r ->
  repl_loop fuel flags p r = Some r' -> plain_template r'.
Proof.
  intros F. revert p r. induction fuel as [|fuel IH]; intros p r P; [done|]. cbn [repl_loop].
  destruct p as [|c p]; [by intros [= <-]|].
  destruct (_ =? _); [apply IH; by apply addgroup_plain|].
  destruct p as [|e rest]; [apply IH; by apply addliteral_plain|].
  destruct (_ =? _); [|apply IH; by apply addliteral_plain].
  pose proof (repl_escape_plain flags e rest r F P) as E.
  destruct (repl_escape flags e rest r) as [r1 k]. by apply IH.
Qed.

Lemma last_drop {A} k (l : list A) x : last (drop k l) = Some x -> last l = Some x.
Proof.
  intros H. rewrite <-(take_drop k l). rewrite last_app, H. done.
Qed.

Lemma escape_reads flags c rest r : (snd (repl_escape flags c rest r) <= List.length rest)%nat.
Proof.
  unfold repl_escape. destruct (_ && _); [cbn; lia|]. destruct (_ || _); [cbn; lia|].
  destruct (negb _); [cbn; lia|]. destruct (repl_char_escape c); [cbn; lia|].
  destruct (repl_base c) as [[base maxd]|] eqn:B, rest as [|x rest];
    try (destruct (repl_case_op c); cbn; lia).
  pose proof (escape_digits_ok (x :: rest) base maxd 0 0) as O.
  assert (0 <= base).
  { unfold repl_base in B. repeat (destruct (_ =? _) in B; [injection B as <- _; lia|]). done. }
  destruct (escape_digits (x :: rest) base maxd 0 0) as [v got]. cbn [snd] in O.
  destruct (_ <? _)%nat; cbn [snd]; [apply O; lia|lia].
Qed.

Lemma repl_loop_ends fuel flags p r : (List.length p < fuel)%nat -> last p <> Some (ch "\") ->
  is_Some (repl_loop fuel flags p r).
Proof.
  revert p r. induction fuel as [|fuel IH]; intros p r L N; [lia|]. cbn [repl_loop].
  destruct p as [|c p]; [by eexists|]. cbn [List.length] in L.
  assert (Tl : forall k l, (List.length l <= List.length p)%nat ->
    (forall x, last l = Some x -> last (c :: p) = Some x) -> forall r, is_Some (repl_loop fuel flags (drop k l) r)).
  { intros k l Ll Lx r0. apply IH; [rewrite length_drop; lia|]. intros H. by apply N, Lx, (last_drop k). }
  assert (Ls : forall x, last p = Some x -> last (c :: p) = Some x) by (intros x H; by rewrite last_cons, H).
  destruct (Z.eqb_spec c (ch "&")) as [|N1]; [by apply (Tl 0%nat p)|].
  assert (Run : c <> ch "\" -> is_Some (repl_loop fuel flags
     (drop (List.length (plain_run (c :: p))) (c :: p)) (repl_addliteral (plain_run (c :: p)) r))).
  { intros N2. cbn [plain_run]. destruct (Z.eqb_spec c (ch "&")); [done|]. destruct (Z.eqb_spec c (ch "\")); [done|].
    cbn [orb List.length drop]. by apply Tl. }
  destruct p as [|e rest]; [by apply Run; intros ->|].
  destruct (Z.eqb_spec c (ch "\")) as [|N2]; [|by apply Run].
  destruct (repl_escape flags e rest r) as [r1 k]. apply Tl; [cbn; lia|].
  intros x H. apply Ls. by rewrite last_cons, H.
Qed.

(** A backslash at the end is never passed. *)
Lemma repl_loop_stuck fuel flags r : repl_loop fuel flags [ch "\"] r = None.
Proof. revert r. induction fuel as [|fuel IH]; intros r; [done|]. apply IH. Qed.

(** ** The loop *)

(** The pieces of a subject: what stands before a replaced match, and the
    match *)
Definition original (segs : list (bytes * bytes)) : bytes := flat_map (fun p => fst p ++ snd p) segs.
Definition spliced (r : dfa_repl) (segs : list (bytes * bytes)) : bytes :=
  flat_map (fun p => fst p ++ template_text r (snd p)) segs.

(** No match starts in [a, z), but for an empty one at [a] when a piece
    that was exchanged ends there ([touch]) *)
Definition clear (M : nat -> nat -> Prop) (touch : bool) (a z : nat) : Prop :=
  forall f e, (a <= f < z)%nat -> M f e -> touch = true /\ f = a /\ e = a.

(** From position [a] on, the pieces are longest matches; with [all], no match
    starts between them. *)
Fixpoint exchanged (M : nat -> nat -> Prop) (all touch : bool) (a : nat) (segs : list (bytes * bytes)) : Prop :=
  match segs with
  | [] => True
  | (gap, piece) :: segs =>
      let f := (a + List.length gap)%nat in
      longest M f (f + List.length piece) /\ (all = true -> clear M touch a f) /\
      exchanged M all true (f + List.length piece) segs
  end.

Definition nonempty {A} (l : list A) : bool := match l with [] => false | _ => true end.

Lemma original_app l l' : original (l ++ l') = original l ++ original l'.
Proof. apply flat_map_app. Qed.

Lemma exchanged_app M all touch a l l' :
  exchanged M all touch a (l ++ l') <->
  exchanged M all touch a l /\ exchanged M all (touch || nonempty l) (a + List.length (original l)) l'.
Proof.
  revert touch a. induction l as [|[g p] l IH]; intros touch a; cbn [app exchanged].
  - cbn. rewrite orb_false_r, Nat.add_0_r. tauto.
  - rewrite IH. cbn [nonempty]. rewrite orb_true_r. cbn [orb].
    change (original ((g, p) :: l)) with ((g ++ p) ++ original l).
    rewrite !length_app, !Nat.add_assoc. tauto.
Qed.

Lemma clear_extend M touch a k z : clear M touch a k -> (forall f e, (k <= f < z)%nat -> ~ M f e) ->
  clear M touch a z.
Proof.
  intros C N f e R Me. destruct (decide (f < k)%nat); [apply C; [lia|done]|].
  exfalso. apply (N f e); [lia|done].
Qed.

Lemma clear_none M touch a : clear M touch a a.
Proof. intros f e R. lia. Qed.

Section Loop.
Context (d : dfa) (r : dfa_repl) (s : bytes) (nth : Z) (global : bool) (M : nat -> nat -> Prop).
Context `{Eng : !engine_ok d s M} (Plain : plain_template r).

Abbreviation pass := (replace_pass append_out d r s nth global).
Abbreviation stop segs := (List.length (original segs)).

(** Up to [lp_pos] the output is the subject with the pieces exchanged. *)
Record loop_ok (st : loop_state (ctx := bytes)) (segs : list (bytes * bytes)) (gap : bytes) : Prop := {
  lo_pos : (lp_pos st <= List.length s)%nat;
  lo_text : take (lp_pos st) s = original segs ++ gap;
  lo_out : lp_ctx st = spliced r segs ++ gap;
  lo_count : lp_count st = u32 (Z.of_nat (List.length segs));
  lo_once : global = false -> (List.length segs <= 1)%nat;
  lo_pieces : exchanged M (nth =? 1) false 0 segs;
  lo_gap : nth = 1 -> clear M (nonempty segs) (stop segs) (lp_pos st);
  lo_prev : nth = 1 -> lp_prev_end st = if nonempty segs then Some (stop segs) else None;
  lo_matched : nth = 1 -> lp_matched st = Z.of_nat (List.length segs) /\ (List.length segs <= lp_pos st + 1)%nat
}.

(** What holds when the loop ends *)
Definition all_found (segs : list (bytes * bytes)) : Prop :=
  nth = 1 -> global = true \/ segs = [] -> clear M (nonempty segs) (stop segs) (S (List.length s)).

Definition pass_ok (st : loop_state (ctx := bytes)) (o : outcome (loop_state + loop_state)) : Prop :=
  match o with
  | Done (inl st') => (lp_pos st < lp_pos st')%nat /\ exists segs gap, loop_ok st' segs gap /\
      (global = false -> segs = []) /\ (nth = 1 -> (List.length segs <= lp_pos st')%nat)
  | Done (inr st') => exists segs gap, loop_ok st' segs gap /\ all_found segs
  | _ => False
  end.

Lemma loop_stop st segs gap : loop_ok st segs gap -> lp_pos st = (stop segs + List.length gap)%nat.
Proof.
  intros Ok. pose proof (f_equal (@List.length Z) (lo_text _ _ _ Ok)) as L.
  rewrite length_take, length_app in L. pose proof (lo_pos _ _ _ Ok). lia.
Qed.

(** Copying on through [upto], where only an empty match behind a piece is left out *)
Lemma loop_ok_copy st segs gap upto c k m p sp : loop_ok st segs gap ->
  (lp_pos st <= upto <= List.length s)%nat -> c = lp_ctx st ++ take (upto - lp_pos st) (drop (lp_pos st) s) ->
  k = lp_count st ->
  (nth = 1 -> clear M (nonempty segs) (stop segs) upto /\ p = lp_prev_end st /\ m = lp_matched st) ->
  loop_ok (Loop upto k m p sp c) segs (gap ++ take (upto - lp_pos st) (drop (lp_pos st) s)).
Proof.
  intros [P T O C On Ex G Pv Mt] L -> -> Cl. split; cbn; try done; [lia| | | | |].
  - rewrite app_assoc, <-T. by rewrite slice_from by lia.
  - by rewrite O, app_assoc.
  - intros E. by apply Cl.
  - intros E. destruct (Cl E) as (_ & -> & _). auto.
  - intros E. destruct (Cl E) as (_ & _ & ->). destruct (Mt E). split; [done|lia].
Qed.

(** Replacing the match [m] *)
Lemma loop_ok_replace st segs gap m k mt sp : loop_ok st segs gap ->
  (lp_pos st <= sp_start m <= sp_end m)%nat -> (sp_end m <= List.length s)%nat ->
  longest M (sp_start m) (sp_end m) -> (forall f e, (lp_pos st <= f < sp_start m)%nat -> ~ M f e) ->
  (global = false -> segs = []) -> k = u32 (lp_count st + 1) ->
  (nth = 1 -> mt = lp_matched st + 1 /\ (List.length segs <= lp_pos st)%nat) ->
  loop_ok (Loop (sp_end m) k mt (Some (sp_end m)) sp
    ((lp_ctx st ++ take (sp_start m - lp_pos st) (drop (lp_pos st) s)) ++ template_text r (span_text s m)))
    (segs ++ [(gap ++ take (sp_start m - lp_pos st) (drop (lp_pos st) s), span_text s m)]) [].
Proof.
  intros Ok L Le Lg Lm G -> Mt. pose proof (loop_stop _ _ _ Ok) as Q. destruct Ok as [P T O C On Ex Gp Pv Mc].
  set (gap' := gap ++ _). assert (G' : (stop segs + List.length gap')%nat = sp_start m).
  { unfold gap'. rewrite length_app, length_take, length_drop. lia. }
  assert (Pc : List.length (span_text s m) = (sp_end m - sp_start m)%nat).
  { unfold span_text. rewrite length_take, length_drop. lia. }
  assert (St : stop (segs ++ [(gap', span_text s m)]) = sp_end m).
  { rewrite original_app. cbn. rewrite app_nil_r, !length_app. lia. }
  assert (Ne : nonempty (segs ++ [(gap', span_text s m)]) = true) by (by destruct segs).
  split; cbn [lp_pos lp_ctx lp_count lp_prev_end lp_matched]; try done.
  - rewrite original_app. cbn. rewrite !app_nil_r. unfold gap'. rewrite <-!app_assoc.
    rewrite (app_assoc _ gap), <-T, app_assoc, slice_from by lia. unfold span_text. by rewrite slice_from by lia.
  - unfold spliced in *. rewrite flat_map_app, O. cbn. unfold gap'. by rewrite !app_nil_r, <-!app_assoc.
  - rewrite C, length_app. cbn. unfold u32. rewrite Zplus_mod_idemp_l. f_equal. lia.
  - intros Gl. by rewrite (G Gl).
  - rewrite exchanged_app. split; [done|]. cbn [orb exchanged]. rewrite Nat.add_0_l, G'. split_and!; [|  |done].
    + by replace (sp_start m + List.length (span_text s m))%nat with (sp_end m) by lia.
    + intros E%Z.eqb_eq. eapply clear_extend; [by apply Gp|done].
  - intros _. rewrite St, Ne. apply clear_none.
  - intros _. by rewrite St, Ne.
  - intros E. destruct (Mc E) as [Mc1 _], (Mt E) as [-> Ml]. rewrite length_app. cbn. split; lia.
Qed.
Lemma replace_pass_ok st segs gap : loop_ok st segs gap -> (global = false -> segs = []) ->
  (nth = 1 -> (List.length segs <= lp_pos st)%nat) -> pass_ok st (pass st).
Proof.
  intros Ok G Few. pose proof (lo_pos _ _ _ Ok) as P. pose proof (loop_stop _ _ _ Ok) as Q. unfold replace_pass.
  destruct (eo_search (lp_pos st) P) as (found & -> & F).
  destruct found as [m|].
  2:{ exists segs, gap. split; [done|]. intros E _. eapply clear_extend; [by apply (lo_gap _ _ _ Ok)|].
      intros f e R. apply F. lia. }
  destruct F as (L & [Mm Lg] & Lm). pose proof (eo_range _ _ (proj2 L) Mm) as Le.
  destruct (_ && bool_decide _) eqn:Same.
  { apply andb_true_iff in Same as [Em%Nat.eqb_eq Pe%bool_decide_eq_true].
    assert (Here : nth = 1 -> nonempty segs = true /\ stop segs = lp_pos st /\ lp_pos st = sp_start m).
    { intros E. rewrite (lo_prev _ _ _ Ok E) in Pe. destruct (nonempty segs); [|done]. injection Pe as Pe.
      split; [done|lia]. }
    assert (Cl : nth = 1 -> clear M (nonempty segs) (stop segs) (S (sp_start m))).
    { intros E. destruct (Here E) as (-> & -> & ->). intros f e R Me. assert (f = sp_start m) by lia. subst f.
      apply Lg in Me as Me'. pose proof (eo_range _ _ (proj2 L) Me). split_and!; [done|done|lia]. }
    destruct (Nat.leb_spec (List.length s) (sp_start m)).
    { exists segs, gap. split; [done|]. intros E _. replace (List.length s) with (sp_start m) by lia. auto. }
    rewrite emit_slice_append by lia. cbn [obind pass_ok lp_pos]. split; [lia|].
    eexists segs, _. split_and!; [|done|intros E; pose proof (Few E); lia].
    eapply loop_ok_copy; [exact Ok|lia|done|done|]. intros E. rewrite Nat.add_1_r. auto. }
  clear Same. assert (Matched : nth = 1 -> u32 (lp_matched st + 1) = lp_matched st + 1 /\ 1 <= lp_matched st + 1).
  { intros E. destruct (lo_matched _ _ _ Ok E) as [-> Bd]. pose proof (eo_count (engine_ok := Eng)).
    unfold u32. rewrite Z.mod_small by lia. lia. }
  destruct (Z.ltb_spec (u32 (lp_matched st + 1)) nth) as [Skip|Take].
  { set (upto := if (sp_start m <? sp_end m)%nat then _ else _).
    assert (Not1 : nth <> 1) by (intros E; destruct (Matched E); lia).
    assert (U : (lp_pos st <= upto <= List.length s)%nat /\
      (((sp_start m =? sp_end m)%nat && (List.length s <=? sp_start m)%nat = false) -> (lp_pos st < upto)%nat)).
    { unfold upto. destruct (Nat.ltb_spec (sp_start m) (sp_end m)), (Nat.ltb_spec (sp_start m) (List.length s)),
        (Nat.eqb_spec (sp_start m) (sp_end m)), (Nat.leb_spec (List.length s) (sp_start m)); cbn; lia. }
    destruct U as [U1 U2]. rewrite emit_slice_append by lia. cbn [obind].
    assert (Ok' := fun mt pv sp => loop_ok_copy st segs gap upto _ _ mt pv sp Ok U1 eq_refl eq_refl
      (fun E => False_ind _ (Not1 E))).
    destruct (_ && _); [eexists segs, _; split; [apply Ok'|by intros E]|]. split; [by apply U2|].
    eexists segs, _. split_and!; [apply Ok'|done|by intros E]. }
  rewrite emit_slice_append by lia. cbn [obind].
  assert (Sa : exists sp, spans_after d s m (lp_spans st) = Done sp).
  { unfold spans_after. destruct (_ =? _)%nat; [by eexists|].
    destruct (eo_submatch m (n_groups d)) as [[bo [g|]] ->]; [lia|by eexists..]. }
  destruct Sa as [sp ->]. cbn [obind]. rewrite apply_plain by (done || lia). cbn [obind].
  assert (Ok' : loop_ok (Loop (sp_end m) (u32 (lp_count st + 1)) (u32 (lp_matched st + 1)) (Some (sp_end m)) sp _) _ [])
    by (apply (loop_ok_replace st segs gap m _ (u32 (lp_matched st + 1)) sp Ok);
        [lia|lia|done|done|done|done|intros E; split; [by apply Matched|by apply Few]]).
  set (segs' := segs ++ _) in *. pose proof (loop_stop _ _ _ Ok') as Q'. cbn [lp_pos List.length] in Q'.
  assert (N' : List.length segs' = S (List.length segs)) by (unfold segs'; rewrite length_app; cbn; lia).
  assert (Ne : nonempty segs' = true) by (unfold segs'; by destruct segs).
  destruct global eqn:Gl; cbn [negb].
  2:{ eexists segs', _. split; [exact Ok'|]. intros _ [?|E]; [congruence|]. by rewrite E in Ne. }
  assert (Only : sp_start m = sp_end m -> clear M (nonempty segs') (stop segs') (S (sp_end m))).
  { intros E. rewrite Ne. replace (stop segs') with (sp_end m) by lia. rewrite <-E. intros f e R Me.
    assert (f = sp_start m) by lia. subst f. pose proof (eo_range _ _ (proj2 L) Me). apply Lg in Me. split_and!; lia || done. }
  destruct (Nat.eqb_spec (sp_start m) (sp_end m)) as [E|E].
  - destruct (Nat.ltb_spec (sp_end m) (List.length s)).
    + rewrite emit_slice_append by lia. cbn [obind pass_ok lp_pos]. split; [lia|].
      eexists segs', _. split_and!; [|intros X; congruence|intros X; pose proof (Few X); lia].
      eapply (loop_ok_copy _ _ _ (sp_end m + 1)); [exact Ok'|cbn; lia|done|done|].
      intros X. cbn [lp_prev_end lp_matched]. rewrite Nat.add_1_r. split_and!; auto.
    + eexists segs', _. split; [exact Ok'|]. intros X _. replace (List.length s) with (sp_end m) by lia. auto.
  - cbn [pass_ok lp_pos]. split; [lia|]. eexists segs', _. split_and!; [exact Ok'|intros X; congruence|].
    intros X. pose proof (Few X). lia.
Qed.

Lemma replace_loop_ok fuel st segs gap : loop_ok st segs gap -> (global = false -> segs = []) ->
  (nth = 1 -> (List.length segs <= lp_pos st)%nat) -> (List.length s - lp_pos st < fuel)%nat ->
  exists st' segs' gap', replace_loop append_out d r s nth global fuel st = Done st' /\ loop_ok st' segs' gap' /\
    all_found segs'.
Proof.
  revert st segs gap. induction fuel as [|fuel IH]; intros st segs gap Ok G Few L; [lia|]. cbn [replace_loop].
  pose proof (lo_pos _ _ _ Ok) as P. rewrite (proj2 (Nat.leb_le _ _)) by done.
  pose proof (replace_pass_ok st segs gap Ok G Few) as H.
  destruct (pass st) as [[st1|st1]| |]; try done; cbn [obind].
  - destruct H as (Lt & segs1 & gap1 & Ok1 & G1 & Few1). eapply IH; [exact Ok1|exact G1|exact Few1|].
    pose proof (lo_pos _ _ _ Ok1). lia.
  - destruct H as (segs1 & gap1 & Ok1 & A). by exists st1, segs1, gap1.
Qed.

End Loop.

(** The subject cut into pieces: [segs] with what is exchanged, and the rest *)
Record replaced (M : nat -> nat -> Prop) (s : bytes) (nth : Z) (global : bool) (segs : list (bytes * bytes))
    (tail : bytes) : Prop := {
  rp_subject : s = original segs ++ tail;
  rp_once : global = false -> (List.length segs <= 1)%nat;
  rp_pieces : exchanged M (nth <=? 1) false 0 segs;
  rp_all : nth <= 1 -> global = true \/ segs = [] ->
    clear M (nonempty segs) (List.length (original segs)) (S (List.length s));
  rp_few : nth <= 1 -> (List.length segs <= S (List.length s))%nat
}.

Lemma dfa_replace_spec d s M r nth global : engine_ok d s M -> plain_template r -> 0 <= nth ->
  exists segs tail, replaced M s nth global segs tail /\
    dfa_replace append_out d r s nth global [] =
      Done (spliced r segs ++ tail, u32 (Z.of_nat (List.length segs))).
Proof.
  intros E P Pos. unfold dfa_replace. set (k := if nth =? 0 then 1 else nth).
  assert (K : (k =? 1) = (nth <=? 1)) by (unfold k; destruct (Z.eqb_spec nth 0), (Z.leb_spec nth 1); lia).
  destruct (replace_loop_ok d r s k global M P (List.length s + 2) (Loop 0 0 0 None None []) [] [])
    as (st & segs & gap & -> & Ok & A); [|done|cbn; lia|cbn; lia|].
  { split; cbn; try done; try lia. intros _. apply clear_none. }
  pose proof (lo_pos _ _ _ _ _ _ _ _ Ok) as Lp. cbn [obind]. rewrite emit_slice_append by lia. cbn [obind].
  destruct Ok as [_ T O C On Pc _ _ Few]. exists segs, (gap ++ drop (lp_pos st) s). split; [split|].
  - by rewrite app_assoc, <-T, take_drop.
  - done.
  - by rewrite <-K.
  - intros N. apply A. lia.
  - intros N. destruct Few; lia.
  - rewrite O, C, <-app_assoc. by rewrite (take_ge (drop _ s)) by (rewrite length_drop; lia).
Qed.
