(* ===== verification/DfaProps.v ===== *)
(** * What the regular expressions promise (text/dfa)

    The properties of the component, for patterns as the callers give them:
    compiling ends and yields a program that runs without leaving it, a
    search finds the leftmost longest match, the two engines agree, a
    replacement exchanges the matches and nothing else, and a pattern without
    special characters finds its first occurrence.  The examples at the end
    record where the code departs from its documentation. *)

From stdpp Require Import relations.
From S2P Require Import Prelude Fnmatch Byteset Dfa DfaParse DfaRun DfaMatch DfaBack DfaReplace DfaSubst.

(** ** Patterns without special characters *)

Definition special_bytes : bytes := b ".[(){}*+?|^$\".

Definition ordinary (c : Z) : Prop := is_byte c /\ c ∉ special_bytes.

Section Literal.
Context (pat : bytes) (flags : Z).
Context (Ord : Forall ordinary pat) (Case : has flags DFA_ICASE = false).

Definition literal_code (k : nat) : list dfa_inst := List.map (fun c => Inst DFA_CHAR c 0) (take k pat).

(** The parser behind [k] bytes *)
Definition lits (k : nat) : parser :=
  Parser k (List.length pat) DFA_OK [] 0 (literal_code k) [] false.

Lemma peek_ordinary k : (k < List.length pat)%nat -> ordinary (peek pat 0 (lits k)).
Proof.
  intros L. unfold peek. cbn [ps_p lits]. rewrite Nat.add_0_r, cnth_lookup.
  destruct (lookup_lt_is_Some_2 pat k L) as [c C]. rewrite C. by eapply Forall_lookup_1 in Ord.
Qed.

Lemma peek_not c k : c ∈ special_bytes -> (k < List.length pat)%nat -> (peek pat 0 (lits k) =? c) = false.
Proof. intros S L. apply Z.eqb_neq. intros E. apply (peek_ordinary k L). by rewrite E. Qed.

Lemma not_byte c k : c ∈ special_bytes -> at_byte pat c (lits k) = false.
Proof.
  intros S. unfold at_byte, more. cbn [ps_p ps_end lits].
  destruct (Nat.ltb_spec (k + 0) (List.length pat)) as [L|]; [|done]. by rewrite peek_not by (done || lia).
Qed.

Lemma not_escaped c k : at_escaped pat c (lits k) = false.
Proof.
  unfold at_escaped, more. cbn [ps_p ps_end lits].
  destruct (Nat.ltb_spec (k + 1) (List.length pat)) as [L|]; [|done].
  rewrite peek_not; [done|by vm_compute; repeat constructor|lia].
Qed.

Lemma not_special c k : c ∈ special_bytes -> at_special pat flags c (lits k) = false.
Proof. intros S. unfold at_special. destruct (ere flags); [by apply not_byte|apply not_escaped]. Qed.

Ltac special := by vm_compute; repeat constructor.

Lemma piece_literal alt k : (k < List.length pat)%nat -> Z.of_nat (List.length pat) < DFA_MAXPROG ->
  parse_piece pat flags (parse_atom pat flags alt) (lits k) = Some (lits (S k)).
Proof.
  intros L M. pose proof (peek_ordinary k L) as O.
  assert (A : parse_atom pat flags alt (lits k) = Some (lits (S k))).
  { unfold parse_atom. replace (more 0 (lits k)) with true
      by (symmetry; apply Nat.ltb_lt; cbn; lia). cbn [negb].
    rewrite !peek_not, not_special by (done || special). cbn [andb].
    unfold emit_byte. rewrite Case. cbn [andb]. unfold emit, dfa_emit.
    change (failed (advance 1 (lits k))) with false. cbn iota.
    replace (proglen (advance 1 (lits k))) with k
      by (unfold proglen; cbn; unfold literal_code; rewrite length_map, length_take; lia).
    destruct (Z.leb_spec DFA_MAXPROG (Z.of_nat k)); [lia|]. cbn [snd]. unfold lits, with_prog, advance, at_p. cbn.
    do 2 f_equal; [lia|]. unfold literal_code.
    destruct (lookup_lt_is_Some_2 pat k L) as [c C]. rewrite (take_S_r _ _ _ C), map_app. cbn.
    unfold peek. cbn. by rewrite Nat.add_0_r, cnth_lookup, C. }
  unfold parse_piece. rewrite A. change (failed (lits (S k))) with false. cbn iota.
  replace (negb (ere flags) && (ps_p (lits k) =? 0)%nat && (cnth pat (ps_p (lits k)) =? ch "^")) with false.
  2: { symmetry. apply andb_false_iff. right. pose proof (peek_not (ch "^") k ltac:(special) L) as P.
       unfold peek in P. cbn [ps_p lits] in *. by rewrite Nat.add_0_r in P. }
  unfold passes. cbn [stacked]. rewrite !not_byte, !not_special by special.
  change (failed (lits (S k))) with false. cbn iota.
  replace (at_interval pat flags (lits (S k))) with false; [done|].
  symmetry. unfold at_interval. destruct (ere flags); [by rewrite not_byte by special|apply not_escaped].
Qed.

Lemma seq_literal alt fuel k : (k <= List.length pat)%nat -> Z.of_nat (List.length pat) < DFA_MAXPROG ->
  (List.length pat - k < fuel)%nat ->
  parse_seq pat flags fuel (parse_atom pat flags alt) (lits k) = Some (lits (List.length pat)).
Proof.
  revert k. induction fuel as [|fuel IH]; intros k L M F; [lia|]. cbn [parse_seq].
  unfold alt_len. rewrite !not_special by special. cbn [Nat.ltb Nat.leb orb]. rewrite !orb_false_r.
  unfold more at 1. cbn [ps_p ps_end lits]. destruct (Nat.ltb_spec (k + 0) (List.length pat)); cbn [negb].
  - rewrite piece_literal by lia. change (failed (lits (S k))) with false. cbn iota. apply IH; lia.
  - by replace k with (List.length pat) by lia.
Qed.

Definition literal_program : dfa := Dfa (literal_code (List.length pat) ++ [Inst DFA_MATCH 0 0]) [] 0 false flags.

Lemma compile_literal : Z.of_nat (List.length pat) < DFA_MAXPROG ->
  dfa_compile pat flags = Some (inl literal_program).
Proof.
  intros M. unfold dfa_compile, dfa_parse_pattern.
  assert (D : exists k, max_depth = S k) by (by exists 257%nat). destruct D as [k ->].
  cbn [parse_alt]. unfold alt_body.
  change (parser_init pat) with (lits 0).
  rewrite seq_literal by (unfold passes; cbn; lia). change (failed (lits _)) with false. cbn [orb].
  unfold alt_len. rewrite not_special by special. cbn [Nat.eqb]. change (failed (lits _)) with false. cbn iota.
  cbn [ps_p ps_end lits]. rewrite Nat.eqb_refl. cbn [negb].
  unfold emit, dfa_emit. change (failed (lits _)) with false. cbn iota.
  replace (proglen (lits (List.length pat))) with (List.length pat)
    by (unfold proglen; cbn; unfold literal_code; rewrite length_map, length_take; lia).
  destruct (Z.leb_spec DFA_MAXPROG (Z.of_nat (List.length pat))); [lia|done].
Qed.

(** [pat] stands at [i] in [s]. *)
Definition occurs (s : bytes) (i : nat) : Prop := take (List.length pat) (drop i s) = pat.

Lemma literal_fetch k : (k < List.length pat)%nat -> exists c, pat !! k = Some c /\
  fetch literal_program (Z.of_nat k) = Some (Inst DFA_CHAR c 0).
Proof.
  intros L. destruct (lookup_lt_is_Some_2 pat k L) as [c C]. exists c. split; [done|].
  apply zlookup_Some. split; [lia|]. rewrite Nat2Z.id. cbn [d_prog literal_program]. unfold literal_code.
  rewrite take_ge by lia. rewrite lookup_app_l by (by rewrite length_map). rewrite list_lookup_fmap. by rewrite C.
Qed.

Lemma literal_last pc it : fetch literal_program pc = Some it ->
  (exists k, pc = Z.of_nat k /\ (k < List.length pat)%nat) \/
  (pc = Z.of_nat (List.length pat) /\ it = Inst DFA_MATCH 0 0).
Proof.
  intros F. pose proof (zlookup_lt _ _ _ F) as R. cbn [d_prog literal_program] in R.
  rewrite length_app in R. unfold literal_code in R. rewrite take_ge, length_map in R by lia. cbn in R.
  destruct (decide (pc < Z.of_nat (List.length pat))) as [L|L]; [left|right].
  - exists (Z.to_nat pc). lia.
  - assert (pc = Z.of_nat (List.length pat)) as -> by lia. split; [done|].
    apply zlookup_Some in F as [_ F]. rewrite Nat2Z.id in F. cbn [d_prog literal_program] in F.
    unfold literal_code in F. rewrite take_ge in F by lia.
    rewrite lookup_app_r, length_map, Nat.sub_diag in F by (rewrite length_map; lia). by injection F as <-.
Qed.

Lemma literal_reach s nb from pc pos : reach literal_program s nb from pc pos ->
  exists k, (k <= List.length pat)%nat /\ pc = Z.of_nat k /\ pos = (from + k)%nat /\
    forall i, (i < k)%nat -> s !! (from + i)%nat = pat !! i.
Proof.
  assert (Ne : forall p a c, eps literal_program s nb p a c -> False).
  { intros p a c (it & F & T). destruct (literal_last _ _ F) as [(k & -> & L)|[-> ->]].
    - destruct (literal_fetch k L) as (x & _ & F'). rewrite F in F'. injection F' as ->. by apply elem_of_nil in T.
    - by apply elem_of_nil in T. }
  assert (Nr : forall p a c, rtc (eps literal_program s nb p) a c -> a = c).
  { intros p a c R. destruct R as [|a y c E]; [done|]. by apply Ne in E. }
  revert pc. induction pos as [|pos IH]; intros pc R; apply reach_inv in R as [[-> E]|(p & q & it & c & Ep & R & F & C & A & E)];
    apply Nr in E as <-; try (exists 0%nat; split_and!; intros; lia).
  injection Ep as <-. destruct (IH q R) as (k & Lk & -> & -> & Ag).
  destruct (literal_last _ _ F) as [(k' & Ek & L)|[_ ->]]; [|done].
  apply Nat2Z.inj in Ek as <-. destruct (literal_fetch k L) as (x & X & F'). rewrite F in F'. injection F' as ->.
  unfold accepts in A. cbn in A. apply Some_inj, Z.eqb_eq in A as ->.
  exists (S k). split_and!; try lia. intros i Li. destruct (decide (i = k)) as [-> |]; [by rewrite C|apply Ag; lia].
Qed.

Lemma occurs_lookup s i : occurs s i <-> forall k, (k < List.length pat)%nat -> s !! (i + k)%nat = pat !! k.
Proof.
  unfold occurs. split.
  - intros H k L. rewrite <-H. by rewrite lookup_take_lt, lookup_drop by done.
  - intros H. apply list_eq. intros k. destruct (decide (k < List.length pat)%nat) as [L|L].
    + rewrite lookup_take_lt, lookup_drop by done. by apply H.
    + rewrite lookup_take_ge by lia. symmetry. apply lookup_ge_None_2. lia.
Qed.

Lemma literal_matches s nb from e : matches literal_program s nb from e <->
  e = (from + List.length pat)%nat /\ occurs s from.
Proof.
  rewrite occurs_lookup. split.
  - intros (pc & R & it & F & O). apply literal_reach in R as (k & Lk & -> & -> & Ag).
    destruct (literal_last _ _ F) as [(k' & Ek & L)|[Ek ->]]; apply Nat2Z.inj in Ek as ->; [|by split].
    destruct (literal_fetch k' L) as (x & _ & F'). rewrite F in F'. by injection F' as ->.
  - intros [-> Oc]. exists (Z.of_nat (List.length pat)).
    assert (M : fetch literal_program (Z.of_nat (List.length pat)) = Some (Inst DFA_MATCH 0 0)).
    { apply zlookup_Some. split; [lia|]. rewrite Nat2Z.id. cbn [d_prog literal_program]. unfold literal_code.
      rewrite take_ge by lia. by rewrite lookup_app_r, length_map, Nat.sub_diag by (rewrite length_map; lia). }
    split; [|by exists (Inst DFA_MATCH 0 0)].
    assert (St : forall k, (k <= List.length pat)%nat ->
      rtc (nfa_step literal_program s nb) (0, from) (Z.of_nat k, (from + k)%nat)).
    { induction k as [|k IH]; intros L; [by rewrite Nat.add_0_r|].
      eapply rtc_r; [apply IH; lia|]. destruct (literal_fetch k L) as (x & X & F).
      rewrite Nat2Z.inj_succ, Nat.add_succ_r. eapply nfa_byte; [exact F|rewrite Oc by lia; exact X|].
      unfold accepts. cbn. by rewrite Z.eqb_refl. }
    by apply St.
Qed.

Lemma literal_program_ok : program_ok literal_program.
Proof.
  split; cbn [d_prog d_sets d_ngroup literal_program]; [|rewrite length_app|constructor].
  - rewrite length_app. cbn. rewrite Nat.add_1_r. cbn [pred].
    by rewrite lookup_app_r, Nat.sub_diag.
  - apply Forall_app. split; [|by repeat constructor]. apply Forall_forall. intros it I.
    apply list_elem_of_In, in_map_iff in I as (c & <- & I). unfold inst_ok. cbn.
    apply list_elem_of_In, list_elem_of_lookup in I as (k & K). unfold literal_code in K.
    rewrite take_ge in K by lia. eapply Forall_lookup_1 in K; [|exact Ord]. apply K.
Qed.

End Literal.

(** ** The properties *)

(** C18: compiling a pattern always ends, within the nesting the code allows,
    with an error code or a program; and the program of a pattern with at most
    64 bytes '|' (DFA_MAXALT) is well formed: every jump stays in the program,
    every set, slot and group it names exists, and only its last instruction
    has no successor. *)
Theorem compile_typed pat flags : Forall is_byte pat ->
  exists r, dfa_compile pat flags = Some r /\
  match r with
  | inl d => d_flags d = flags /\ (few_bars pat -> program_ok d)
  | inr e => e <> DFA_OK
  end.
Proof.
  intros B. destruct (compile_ok pat flags B) as (r & C & H). exists r. split; [exact C|].
  destruct r as [d|e]; [|exact H]. destruct H as [F P]. split; [exact F|exact P].
Qed.

Definition compiled (pat : bytes) (flags : Z) (d : dfa) : Prop :=
  Forall is_byte pat /\ dfa_compile pat flags = Some (inl d).

(** The well-formed programs are those of the patterns in which the table of
    pending jumps does not overflow. *)
Lemma compiled_ok pat flags d : compiled pat flags d -> few_bars pat -> program_ok d.
Proof.
  intros (B & C) F. destruct (compile_ok pat flags B) as (r & C' & H). rewrite C in C'.
  injection C' as <-. by apply H.
Qed.

(** C8: a search returns the leftmost longest match. For a pattern that
    compiles, has at most 64 bytes '|' (beyond that the compiler loses the
    target of a jump, see [too_many_branches]) and no back-reference
    ([run_only]: the simulation runs the program), and for a subject short
    enough for the 32-bit counter of the simulation ([short_subject]),
    dfa_search always returns, reads nothing outside of its arrays, and finds
    the first position from [from] on at which the program matches at all,
    with the longest match there; it finds none exactly when the program
    matches nowhere. *)
Theorem search_leftmost_longest pat flags d s from : compiled pat flags d -> few_bars pat -> run_only d ->
  short_subject s -> (from <= List.length s)%nat ->
  exists r, dfa_search d s from = Some r /\
  match r with
  | Some m =>
      (from <= sp_start m)%nat /\ matches d s (dfa_notbol d) (sp_start m) (sp_end m) /\
      (forall e, matches d s (dfa_notbol d) (sp_start m) e -> (e <= sp_end m)%nat) /\
      (forall f e, (from <= f < sp_start m)%nat -> ~ matches d s (dfa_notbol d) f e)
  | None => forall f e, (from <= f <= List.length s)%nat -> ~ matches d s (dfa_notbol d) f e
  end.
Proof.
  intros C Fb Rn Sh L. pose proof (compiled_ok _ _ _ C Fb) as Ok. unfold dfa_search, any_run. rewrite Rn.
  destruct (dfa_run_spec d s (dfa_notbol d) Ok from false 0 L Sh) as ([[m g]|] & -> & F);
    eexists; (split; [reflexivity|]).
  - destruct F as ([P _] & _ & M & _ & Lg & Lm). by split_and!.
  - intros f e R. by apply F.
Qed.

(** The spans of the groups belong to the match: searching again from the
    start of a match dfa_search has found gives the same match, so that
    dfa_submatch succeeds and fills one entry for each group asked for. *)
Theorem submatch_reproduces pat flags d s from m ng : compiled pat flags d -> few_bars pat -> run_only d ->
  short_subject s -> (from <= List.length s)%nat -> dfa_search d s from = Some (Some m) ->
  exists g, dfa_submatch d s m ng = Some (true, Some g) /\ List.length g = ng.
Proof.
  intros C Fb Rn Sh L. pose proof (compiled_ok _ _ _ C Fb) as Ok. unfold dfa_search, dfa_submatch, any_run.
  rewrite Rn. destruct (dfa_run_spec d s (dfa_notbol d) Ok from false 0 L Sh) as ([[m1 g1]|] & -> & F); [|done].
  intros [= ->]. destruct F as (P & _ & M & _ & Lg & _).
  destruct (dfa_run_spec d s (dfa_notbol d) Ok (sp_start m) true ng ltac:(lia) Sh) as ([[m2 g2]|] & -> & F2).
  - destruct F2 as (_ & St & M2 & Ng & Lg2 & _). specialize (St eq_refl). rewrite St in *.
    exists g2. split; [|done]. do 2 f_equal. apply Nat.eqb_eq.
    apply Nat.le_antisymm; [by apply Lg|by apply Lg2].
  - exfalso. apply (F2 (sp_start m) (sp_end m)); [lia|done|done].
Qed.

(** C37: the two engines agree. On the program of a pattern with at most 64
    bytes '|' and no back-reference, and on a subject short enough for the
    32-bit counter of the simulation ([short_subject]), the backtracker never
    reads outside of its arrays; when it finds a match from a position the
    simulation finds one there at least as long, and when it runs out of
    choices the simulation finds none. Nothing is said when it runs out of its
    budget of steps. *)
Theorem engines_agree pat flags d s nb from ng : compiled pat flags d -> few_bars pat -> no_backref d ->
  short_subject s -> (from <= List.length s)%nat ->
  match bt_match d s nb from (no_saves d) with
  | BtMatch e _ => exists m g, dfa_run d s nb from true ng = Some (Some (m, g)) /\
                   sp_start m = from /\ (e <= sp_end m)%nat
  | BtNone => dfa_run d s nb from true ng = Some None
  | BtBudget => True
  | BtUndefined => False
  end.
Proof.
  intros C Fb Nb Sh L. pose proof (compiled_ok _ _ _ C Fb) as Ok.
  destruct (dfa_run_spec d s nb Ok from true ng L Sh) as (r & R & F).
  destruct (bt_match d s nb from (no_saves d)) as [e sv| | |] eqn:B; [| |done|].
  - pose proof (bt_match_matches d s nb Nb from e sv B) as M. destruct r as [[m g]|].
    + exists m, g. split; [done|]. destruct F as (_ & St & _ & _ & Lg & _).
      specialize (St eq_refl). rewrite St in Lg. split; [done|by apply Lg].
    + exfalso. by apply (F from e).
  - rewrite R. destruct r as [[m g]|]; [|done]. destruct F as (_ & St & M & _). specialize (St eq_refl).
    rewrite St in M. exfalso. by apply (bt_match_none d s nb Ok from (sp_end m) B).
  - by apply (bt_match_defined d s nb Ok Nb from (no_saves d) L (length_replicate _ _)).
Qed.

(** C17: a replacement exchanges the matches and nothing else. For a pattern
    that compiles, with at most 64 bytes '|' and no back-reference (with one,
    the comparison can read outside of the subject, see [backref_reads_on]),
    a subject short enough for the 32-bit counter of the simulation
    ([short_subject]), a template as awk compiles them and a match number that
    is not negative, dfa_replace ends without reading outside of the subject. Its output is the subject cut into pieces, each of them a
    longest match exchanged for the template with "&" standing for the piece;
    only the first unless every match is wanted; and, when counting starts
    with the first match, no match begins between the pieces or behind them
    but an empty one where a piece ends. The count is the number of pieces. *)
Theorem replace_exchanges_matches pat flags d s tmpl r nth global : compiled pat flags d -> few_bars pat -> run_only d ->
  short_subject s -> dfa_repl_compile tmpl 0 = Some r -> 0 <= nth ->
  exists segs tail, replaced (matches d s (dfa_notbol d)) s nth global segs tail /\
    dfa_replace append_out d r s nth global [] =
      Done (spliced r segs ++ tail, u32 (Z.of_nat (List.length segs))).
Proof.
  intros C Fb Rn Sh T. apply dfa_replace_spec.
  - apply run_engine_ok; [by eapply compiled_ok|done|done].
  - eapply (repl_loop_plain _ 0 _ repl_empty); [reflexivity|constructor|exact T].
Qed.

(** A pattern of ordinary characters is searched for as a text. It
    compiles, and dfa_search finds its first occurrence from the position
    given, exactly, or reports that there is none. *)
Theorem literal_first_occurrence pat flags s from : Forall ordinary pat -> has flags DFA_ICASE = false ->
  Z.of_nat (List.length pat) < DFA_MAXPROG -> short_subject s -> (from <= List.length s)%nat ->
  exists d r, dfa_compile pat flags = Some (inl d) /\ dfa_search d s from = Some r /\
  match r with
  | Some m => (from <= sp_start m)%nat /\ sp_end m = (sp_start m + List.length pat)%nat /\
      occurs pat s (sp_start m) /\ (forall f, (from <= f < sp_start m)%nat -> ~ occurs pat s f)
  | None => forall f, (from <= f <= List.length s)%nat -> ~ occurs pat s f
  end.
Proof.
  intros Ord Case M Sh L. exists (literal_program pat flags).
  pose proof (literal_program_ok pat flags Ord) as Ok.
  unfold dfa_search, any_run. cbn [d_has_backref literal_program]. fold (literal_program pat flags).
  destruct (dfa_run_spec _ s (dfa_notbol (literal_program pat flags)) Ok from false 0 L Sh)
    as ([[m g]|] & -> & F); eexists; (split; [by apply compile_literal|]); (split; [reflexivity|]).
  - destruct F as ([P _] & _ & Mt & _ & _ & Lm). apply literal_matches in Mt as [E O].
    split_and!; try done. intros f R X. apply (Lm f (f + List.length pat)%nat R).
    by apply literal_matches.
  - intros f R X. apply (F f (f + List.length pat)%nat R); [done|]. by apply literal_matches.
Qed.

(** ** Witnesses *)

(** The program of a pattern *)
Definition program (pat : bytes) (flags : Z) : dfa :=
  match dfa_compile pat flags with Some (inl d) => d | _ => Dfa [] [] 0 false flags end.

Lemma no_backref_check d :
  forallb (fun it => match i_op it with DFA_BACKREF => false | _ => true end) (d_prog d) = true -> no_backref d.
Proof.
  intros H pc it [_ F]%zlookup_Some O. rewrite forallb_forall in H.
  specialize (H it (proj1 (list_elem_of_In _ _) (list_elem_of_lookup_2 _ _ _ F))). by rewrite O in H.
Qed.

Lemma bytes_check l : forallb (fun c => (0 <=? c) && (c <? 256)) l = true -> Forall is_byte l.
Proof.
  intros H. apply Forall_forall. intros c C. rewrite forallb_forall in H.
  specialize (H c (proj1 (list_elem_of_In _ _) C)). unfold is_byte. zify_bool. lia.
Qed.

Definition witness_pattern : bytes := b "b(a|n)+".

Lemma witness_compiled : compiled witness_pattern DFA_ERE (program witness_pattern DFA_ERE).
Proof. split; [by apply bytes_check|]. by vm_compute. Qed.

Lemma witness_bars : few_bars witness_pattern.
Proof. vm_compute. lia. Qed.

Lemma compile_typed_witness : Forall is_byte witness_pattern /\
  exists r, dfa_compile witness_pattern DFA_ERE = Some r /\
  match r with
  | inl d => d_flags d = DFA_ERE /\ (few_bars witness_pattern -> program_ok d)
  | inr e => e <> DFA_OK
  end.
Proof.
  assert (B : Forall is_byte witness_pattern) by (by apply bytes_check).
  split; [exact B|]. exact (compile_typed witness_pattern DFA_ERE B).
Defined.

Lemma search_leftmost_longest_witness :
  dfa_search (program witness_pattern DFA_ERE) (b "a banana") 0 = Some (Some (Span 2 8)) /\
  exists r, dfa_search (program witness_pattern DFA_ERE) (b "a banana") 0 = Some r /\
  match r with
  | Some m =>
      (0 <= sp_start m)%nat /\
      matches (program witness_pattern DFA_ERE) (b "a banana") (dfa_notbol (program witness_pattern DFA_ERE))
        (sp_start m) (sp_end m) /\
      (forall e, matches (program witness_pattern DFA_ERE) (b "a banana")
         (dfa_notbol (program witness_pattern DFA_ERE)) (sp_start m) e -> (e <= sp_end m)%nat) /\
      (forall f e, (0 <= f < sp_start m)%nat -> ~ matches (program witness_pattern DFA_ERE) (b "a banana")
         (dfa_notbol (program witness_pattern DFA_ERE)) f e)
  | None => forall f e, (0 <= f <= List.length (b "a banana"))%nat ->
      ~ matches (program witness_pattern DFA_ERE) (b "a banana") (dfa_notbol (program witness_pattern DFA_ERE)) f e
  end.
Proof.
  split; [reflexivity|].
  apply (search_leftmost_longest witness_pattern DFA_ERE (program witness_pattern DFA_ERE) (b "a banana") 0
    witness_compiled witness_bars eq_refl); vm_compute; [discriminate|lia].
Defined.

Lemma submatch_reproduces_witness :
  exists g, dfa_submatch (program witness_pattern DFA_ERE) (b "a banana") (Span 2 8) 1 = Some (true, Some g) /\
    List.length g = 1%nat.
Proof.
  apply (submatch_reproduces witness_pattern DFA_ERE (program witness_pattern DFA_ERE) (b "a banana") 0
    (Span 2 8) 1 witness_compiled witness_bars eq_refl); [vm_compute; discriminate|vm_compute; lia|reflexivity].
Defined.

Lemma engines_agree_witness :
  match bt_match (program witness_pattern DFA_ERE) (b "banana") false 0 (no_saves (program witness_pattern DFA_ERE)) with
  | BtMatch e _ => exists m g,
      dfa_run (program witness_pattern DFA_ERE) (b "banana") false 0 true 1 = Some (Some (m, g)) /\
      sp_start m = 0%nat /\ (e <= sp_end m)%nat
  | BtNone => dfa_run (program witness_pattern DFA_ERE) (b "banana") false 0 true 1 = Some None
  | BtBudget => True
  | BtUndefined => False
  end.
Proof.
  apply (engines_agree witness_pattern DFA_ERE (program witness_pattern DFA_ERE) (b "banana") false 0 1
    witness_compiled witness_bars); [apply no_backref_check; reflexivity|vm_compute; discriminate|vm_compute; lia].
Defined.

Definition awk_template : dfa_repl := Repl [Item (-1) 0 1; Item 0 0 0; Item (-1) 1 1] (b "<>").

Lemma replace_exchanges_matches_witness :
  dfa_replace append_out (program witness_pattern DFA_ERE) awk_template (b "a banana") 1 true []
    = Done (b "a <banana>", 1) /\
  exists segs tail, replaced (matches (program witness_pattern DFA_ERE) (b "a banana")
      (dfa_notbol (program witness_pattern DFA_ERE))) (b "a banana") 1 true segs tail /\
    dfa_replace append_out (program witness_pattern DFA_ERE) awk_template (b "a banana") 1 true [] =
      Done (spliced awk_template segs ++ tail, u32 (Z.of_nat (List.length segs))).
Proof.
  split; [reflexivity|].
  apply (replace_exchanges_matches witness_pattern DFA_ERE (program witness_pattern DFA_ERE) (b "a banana")
    (b "<&>") awk_template 1 true witness_compiled witness_bars eq_refl); [vm_compute; discriminate|reflexivity|lia].
Defined.

Lemma literal_first_occurrence_witness :
  exists d r, dfa_compile (b "na") 0 = Some (inl d) /\ dfa_search d (b "banana") 1 = Some r /\
  match r with
  | Some m => (1 <= sp_start m)%nat /\ sp_end m = (sp_start m + List.length (b "na"))%nat /\
      occurs (b "na") (b "banana") (sp_start m) /\
      (forall f, (1 <= f < sp_start m)%nat -> ~ occurs (b "na") (b "banana") f)
  | None => forall f, (1 <= f <= List.length (b "banana"))%nat -> ~ occurs (b "na") (b "banana") f
  end.
Proof.
  apply (literal_first_occurrence (b "na") 0 (b "banana") 1).
  - repeat constructor; vm_compute; try discriminate; apply not_elem_of_nil || (intros H; repeat (apply elem_of_cons in H as [H|H]; [discriminate H|]); by apply elem_of_nil in H).
  - reflexivity.
  - reflexivity.
  - vm_compute. discriminate.
  - vm_compute. lia.
Defined.

(** ** Where the code departs from its documentation *)

(** insert_split keeps the targets equal to its position, so that the loop of
    a first branch comes back to the alternation: [a*|b] matches "aab". *)
Example star_then_alternative :
  dfa_prefix (program (b "a*|b") DFA_ERE) (b "aab") = Some 3 /\
  dfa_test (program (b "^(a*b|c)$") DFA_ERE) (b "aac") = Some true.
Proof. split; reflexivity. Qed.

(** A set is inverted first and closed under case afterwards: [^a] without
    regard to case matches "A". *)
Example inverted_icase :
  dfa_test (program (b "[^a]") (Z.lor DFA_ERE DFA_ICASE)) (b "A") = Some true.
Proof. reflexivity. Qed.

Definition branches (k : nat) : bytes := b "a" ++ flat_map (fun _ => b "|a") (List.seq 0 k).

(** Only 64 jumps are remembered: the next one keeps the target -1, and the
    program is left. *)
Example too_many_branches :
  dfa_test (program (branches 64) DFA_ERE) (b "a") = Some true /\
  dfa_test (program (branches 65) DFA_ERE) (b "a") = None.
Proof. split; vm_compute; reflexivity. Qed.

(** In a loop a group may start behind its old end: the length of the
    back-reference is then negative, and the comparison reads on. *)
Example backref_reads_on :
  dfa_search (program (b "\(x\(a\|b\2\)\)*") 0) (b "xaxb") 0 = None.
Proof. vm_compute. reflexivity. Qed.

(** dfa_test does not look at [DFA_NOTBOL]. *)
Example test_ignores_notbol : dfa_test (program (b "^a") DFA_NOTBOL) (b "a") = Some true.
Proof. reflexivity. Qed.

(** No pattern leads to [DFA_EBADRPT] for an operator with nothing to repeat. *)
Example leading_star_literal : dfa_test (program (b "*a") DFA_ERE) (b "x*a") = Some true.
Proof. reflexivity. Qed.

(** With a back-reference the first match counts, not the longest. *)
Example backref_not_longest :
  dfa_prefix (program (b "\(x*\)\(a\|ab\)\1") 0) (b "ab") = Some 1.
Proof. vm_compute. reflexivity. Qed.

(** A template that ends in a backslash is never compiled. *)
Example template_backslash fuel flags : repl_loop fuel flags (b "a\") repl_empty = None.
Proof. destruct fuel as [|fuel]; [done|]. apply repl_loop_stuck. Qed.

Definition empty_loop : dfa := Dfa
  [Inst DFA_SPLIT 1 7; Inst DFA_SAVE 0 0; Inst DFA_SPLIT 3 5; Inst DFA_CHAR 97 0; Inst DFA_JMP 2 0;
   Inst DFA_SAVE 1 0; Inst DFA_JMP 0 0; Inst DFA_BACKREF 1 0; Inst DFA_MATCH 0 0] [] 1 true 0.

(** The states of the backtracker on the empty subject *)
Definition in_empty_loop (st : bt) : Prop :=
  bt_pos st = 0%nat /\ List.length (bt_save st) = 2%nat /\
  (bt_pc st ∈ [0; 1; 2; 5; 6] \/
   (bt_pc st = 3 /\ exists cs, bt_cs st = (5, 0%nat, List.length (bt_us st)) :: cs)).

Lemma empty_loop_step st : in_empty_loop st ->
  match bt_step empty_loop [] false st with inl st' => in_empty_loop st' | inr _ => False end.
Proof.
  assert (F0 : fetch empty_loop 0 = Some (Inst DFA_SPLIT 1 7)) by reflexivity.
  assert (F1 : fetch empty_loop 1 = Some (Inst DFA_SAVE 0 0)) by reflexivity.
  assert (F2 : fetch empty_loop 2 = Some (Inst DFA_SPLIT 3 5)) by reflexivity.
  assert (F3 : fetch empty_loop 3 = Some (Inst DFA_CHAR 97 0)) by reflexivity.
  assert (F5 : fetch empty_loop 5 = Some (Inst DFA_SAVE 1 0)) by reflexivity.
  assert (F6 : fetch empty_loop 6 = Some (Inst DFA_JMP 0 0)) by reflexivity.
  destruct st as [pc pos save us cs]. intros (P & S & I). cbn [bt_pc bt_pos bt_save bt_us bt_cs] in *. subst pos.
  destruct save as [|x [|y [|]]]; try discriminate S. clear S. unfold bt_step.
  cbn [bt_pc bt_pos bt_save bt_us bt_cs].
  destruct I as [I|[-> [cs' ->]]].
  - repeat (apply elem_of_cons in I as [->|I]); [..|by apply elem_of_nil in I];
      rewrite ?F0, ?F1, ?F2, ?F5, ?F6; cbn [i_op i_x i_y]; split_and!; try reflexivity;
      try (left; cbn; rewrite !elem_of_cons; tauto).
    right. split; [reflexivity|]. eexists. reflexivity.
  - rewrite F3. cbn [i_op]. unfold bt_when, bt_backtrack. cbn [bt_cs bt_us bt_save n List.length Nat.ltb Nat.leb].
    rewrite undo_none by lia. split_and!; try reflexivity. left. cbn. rewrite !elem_of_cons. tauto.
Qed.

(** A loop around an empty match: a path to the end exists, but the
    backtracker runs in the loop until its steps are used up. *)
Example empty_loop_exhausts :
  dfa_compile (b "\(a*\)*\1") 0 = Some (inl empty_loop) /\
  (exists pc save, rtc (cfg_step empty_loop [] false) (0, 0%nat, [-1; -1]) (pc, 0%nat, save) /\
     is_match empty_loop pc) /\
  bt_match empty_loop [] false 0 [-1; -1] = BtBudget.
Proof.
  split; [by vm_compute|split].
  - exists 8, [0; 0]. split; [|exists (Inst DFA_MATCH 0 0); by split].
    assert (St : forall c c', moves empty_loop [] false c = [c'] \/ (exists x, moves empty_loop [] false c = [c'; x])
      \/ (exists x, moves empty_loop [] false c = [x; c']) -> cfg_step empty_loop [] false c c').
    { unfold cfg_step. intros c c' [->|[[x ->]|[x ->]]]; [left|left|right; left]. }
    eapply rtc_l; [apply St; right; left; eexists; by vm_compute|].
    eapply rtc_l; [apply St; left; by vm_compute|].
    eapply rtc_l; [apply St; right; right; eexists; by vm_compute|].
    eapply rtc_l; [apply St; left; by vm_compute|].
    eapply rtc_l; [apply St; left; by vm_compute|].
    eapply rtc_l; [apply St; right; right; eexists; by vm_compute|].
    eapply rtc_l; [apply St; left; by vm_compute|]. apply rtc_refl.
  - pose proof (iterate_inv _ in_empty_loop (fun _ => False) empty_loop_step DFA_MAXSTEPS
      (Bt 0 0 [-1; -1] [] [])) as I. unfold bt_match.
    destruct (iterate DFA_MAXSTEPS _ _) as [st|r]; [done|]. exfalso. apply I.
    split_and!; [done|done|]. left. by left.
Qed.
