(* ===== verification/ExprCmd.v ===== *)
(** * The builtin expr (src/builtin/core/builtin_expr.c)

    Operands and results are strings; [x] of the code is the list of operands
    [a], the index of the next one and the error.  The first error ends the
    evaluation: the loops test x->err, and nothing read after it shows.  The
    pattern of ":" is run by text/dfa.  [Undef] is arithmetic that leaves
    64 bits, or a run of the pattern that is not defined. *)

From S2P Require Import Prelude CStr Scan Dfa DfaRun.

(** ** Results *)

(** [Fail]: x->err and the message *)
Inductive ex_message :=
| Missing_operand | Expecting_paren | Non_integer | Division_by_zero | Unexpected_argument.

Inductive ex_res (A : Type) := Done (a : A) | Fail (err : Z) (msg : ex_message) | Undef | NoFuel.
Arguments Done {A}.
Arguments Fail {A}.
Arguments Undef {A}.
Arguments NoFuel {A}.

Definition ex_bind {A B} (r : ex_res A) (f : A -> ex_res B) : ex_res B :=
  match r with Done a => f a | Fail err msg => Fail err msg | Undef => Undef | NoFuel => NoFuel end.

Notation "'let?' x := r 'in' k" := (ex_bind r (fun x => k))
  (at level 10, x pattern, r at level 100, k at level 200) : shish_scope.
#[local] Open Scope shish_scope.

(** ** Values *)

(** The number a string is; none: 0 is returned *)
Definition ex_int (s : bytes) : option Z :=
  let '(n, v) := Scan.scan_longlong s 0 in
  if (0 <? List.length s)%nat && (n =? List.length s)%nat then Some v else None.

Definition ex_true (v : bytes) : bool :=
  negb (List.length v =? 0)%nat && negb (match ex_int v with Some n => n =? 0 | None => false end).

Definition ex_setint (n : Z) : bytes := Fmt.fmt_longlong n.

(** A signed result in 64 bits *)
Definition signed (z : Z) : ex_res bytes :=
  if bool_decide (in_i64 z) then Done (ex_setint z) else Undef.

(** ** Matching *)

(** expr_match: the text POSIX says to print *)
Definition expr_match (str pat : bytes) : ex_res bytes :=
  match dfa_compile pat 0 with
  | None => NoFuel
  | Some (inr _) => Done (b "0")
  | Some (inl d) =>
      match dfa_prefix d str with
      | None => Undef
      | Some len =>
          if len <? 0 then Done (if (dfa_groups d =? 0)%nat then b "0" else [])
          else if (0 <? dfa_groups d)%nat then
            match dfa_submatch d str (Span 0 (Z.to_nat len)) 1 with
            | None => Undef
            | Some (true, Some (Some g :: _)) => Done (take (sp_end g - sp_start g) (drop (sp_start g) str))
            | Some _ => Done []
            end
          else Done (Fmt.fmt_ulong len)
      end
  end.

(** ** The grammar *)

Section Expr.
Context (a : list bytes).

Definition x_n : nat := List.length a.

Definition ex_peek (tok : string) (i : nat) : bool := (i <? x_n)%nat && str_equal (nth i a []) (b tok).

(** A reader takes the index of the next operand. *)
Definition ex_reader := nat -> ex_res (bytes * nat).

Definition ex_primary (ex_or : ex_reader) : ex_reader := fun i =>
  if (x_n <=? i)%nat then Fail 2 Missing_operand
  else if ex_peek "(" i then
    let? (out, i) := ex_or (S i) in
    if ex_peek ")" i then Done (out, S i) else Fail 2 Expecting_paren
  else Done (nth i a [], S i).

(** The operators of a level, with what each makes of its sides *)
Definition ex_ops := list (string * (bytes -> bytes -> ex_res bytes)).

Fixpoint ex_op_at (ops : ex_ops) (i : nat) : option (bytes -> bytes -> ex_res bytes) :=
  match ops with
  | [] => None
  | (tok, f) :: ops => if ex_peek tok i then Some f else ex_op_at ops i
  end.

(** The loop of a level: at most [k] operators *)
Fixpoint ex_loop (ops : ex_ops) (operand : ex_reader) (k : nat) (out : bytes) (i : nat) : ex_res (bytes * nat) :=
  match ex_op_at ops i with
  | None => Done (out, i)
  | Some f =>
      match k with
      | O => NoFuel
      | S k =>
          let? (rhs, i) := operand (S i) in
          let? out := f out rhs in
          ex_loop ops operand k out i
      end
  end.

Definition ex_level (ops : ex_ops) (operand : ex_reader) : ex_reader := fun i =>
  let? (out, i) := operand i in
  ex_loop ops operand (x_n - i) out i.

(** ** The operators *)

Definition on_ints (f : Z -> Z -> ex_res bytes) (out rhs : bytes) : ex_res bytes :=
  match ex_int out, ex_int rhs with
  | Some x, Some y => f x y
  | _, _ => Fail 2 Non_integer
  end.

Definition mul_op (op : Z) (x y : Z) : ex_res bytes :=
  if negb (op =? ch "*") && (y =? 0) then Fail 3 Division_by_zero
  else if op =? ch "*" then signed (x * y)
  else if y =? -1 then (if op =? ch "/" then signed (- x) else signed 0)
  else if op =? ch "/" then signed (Z.quot x y)
  else signed (Z.rem x y).

Definition match_ops : ex_ops := [(":"%string, expr_match)].

Definition mul_ops : ex_ops :=
  [("*"%string, on_ints (mul_op (ch "*"))); ("/"%string, on_ints (mul_op (ch "/")));
   ("%"%string, on_ints (mul_op (ch "%")))].

Definition add_ops : ex_ops :=
  [("+"%string, on_ints (fun x y => signed (x + y))); ("-"%string, on_ints (fun x y => signed (x - y)))].

(** [c]: -1, 0 or 1 for numbers, the difference for strings *)
Definition ex_compare (out rhs : bytes) : Z :=
  match ex_int out, ex_int rhs with
  | Some x, Some y => if x <? y then -1 else c_bool (y <? x)
  | _, _ => str_diff out rhs
  end.

Definition cmp_op (test : Z -> bool) (out rhs : bytes) : ex_res bytes :=
  Done (ex_setint (c_bool (test (ex_compare out rhs)))).

Definition cmp_ops : ex_ops :=
  [("="%string, cmp_op (fun c => c =? 0)); ("=="%string, cmp_op (fun c => c =? 0));
   (">"%string, cmp_op (fun c => 0 <? c)); (">="%string, cmp_op (fun c => 0 <=? c));
   ("<"%string, cmp_op (fun c => c <? 0)); ("<="%string, cmp_op (fun c => c <=? 0));
   ("!="%string, cmp_op (fun c => negb (c =? 0)))].

Definition and_op (out rhs : bytes) : ex_res bytes :=
  Done (if ex_true out && ex_true rhs then out else ex_setint 0).

Definition and_ops : ex_ops := [("&"%string, and_op)].

Definition or_op (out rhs : bytes) : ex_res bytes :=
  Done (if ex_true out then out else if ex_true rhs then rhs else ex_setint 0).

Definition or_ops : ex_ops := [("|"%string, or_op)].

(** ** The levels *)

Definition ex_match (ex_or : ex_reader) : ex_reader := ex_level match_ops (ex_primary ex_or).
Definition ex_mul (ex_or : ex_reader) : ex_reader := ex_level mul_ops (ex_match ex_or).
Definition ex_add (ex_or : ex_reader) : ex_reader := ex_level add_ops (ex_mul ex_or).
Definition ex_cmp (ex_or : ex_reader) : ex_reader := ex_level cmp_ops (ex_add ex_or).
Definition ex_and (ex_or : ex_reader) : ex_reader := ex_level and_ops (ex_cmp ex_or).

Fixpoint ex_or (fuel : nat) : ex_reader :=
  match fuel with
  | O => fun _ => NoFuel
  | S fuel => ex_level or_ops (ex_and (ex_or fuel))
  end.

(** The whole operand list; one more than the parentheses that can be open *)
Definition ex_run : ex_res bytes :=
  let? (out, i) := ex_or (S x_n) 0%nat in
  if (i <? x_n)%nat then Fail 2 Unexpected_argument else Done out.

End Expr.

(** ** The builtin *)

(** What is printed, a newline behind it, and the status *)
Inductive expr_end := Printed (text : bytes) (status : Z) | Failed (status : Z) (msg : ex_message) | Crash | Cut.

(** The position of the first byte of [s] that is in [chars], from [i] + 1 on *)
Fixpoint expr_index (s chars : bytes) (i : Z) : Z :=
  match s with
  | [] => 0
  | c :: s => if (str_chr chars c <? List.length chars)%nat then i + 1 else expr_index s chars (i + 1)
  end.

Definition expr_substr (s pos len : bytes) : bytes :=
  let n := Z.of_nat (List.length s) in
  let '(p, l) := match ex_int pos, ex_int len with Some p, Some l => (p, l) | _, _ => (0, 0) end in
  let l := if (p <? 1) || (l <? 1) || (n <? p) then 0 else if n - (p - 1) <? l then n - (p - 1) else l in
  take (Z.to_nat l) (drop (Z.to_nat (if l =? 0 then 0 else p - 1)) s).

Definition first_is (args : list bytes) (s : string) : bool :=
  match args with x :: _ => str_equal x (b s) | [] => false end.

Definition builtin_expr (argv : list bytes) : expr_end :=
  let args := drop 1 argv in
  let args := match args with x :: args' => if str_equal x (b "--") then args' else args | [] => args end in
  if first_is args "length" then
    let n := Z.of_nat (List.length (nth 1 args [])) in
    Printed (Fmt.fmt_longlong n) (c_bool (n =? 0))
  else if (List.length args =? 4)%nat && first_is args "substr" then
    let t := expr_substr (nth 1 args []) (nth 2 args []) (nth 3 args []) in
    Printed t (c_bool (List.length t =? 0)%nat)
  else if first_is args "index" then
    let n := expr_index (nth 1 args []) (nth 2 args []) 0 in
    Printed (Fmt.fmt_longlong n) (c_bool (n =? 0))
  else
    match ex_run args with
    | Done out => Printed out (c_bool (negb (ex_true out)))
    | Fail err msg => Failed err msg
    | Undef => Crash
    | NoFuel => Cut
    end.
