(* ===== verification/ExprProps.v ===== *)
(** * What expr answers (src/builtin/core/builtin_expr.c)

    The evaluation of any operands ends; operands printed from an expression
    are evaluated as that expression; arithmetic is exact while it stays in
    64 bits; and ":" prints the length of the longest match. *)

From S2P Require Import Prelude CStr Scan Dfa DfaParse DfaRun DfaMatch DfaReplace DfaSubst DfaProps ExprCmd.

(** ** Values are C strings *)

Lemma digit_cstring s : Forall Scan.is_digit s -> cstring s.
Proof. intros F. eapply Forall_impl; [exact F|]. unfold Scan.is_digit. cbn. lia. Qed.

Lemma ex_setint_cstring z : in_i64 z -> cstring (ex_setint z).
Proof.
  intros I. eapply Forall_impl; [by apply fmt_longlong_chars|]. unfold num_char, Scan.is_digit. cbn.
  intros c [D| ->]; [lia|]. by vm_compute.
Qed.

(** What an operator may return *)
Definition value_ok (r : ex_res bytes) : Prop :=
  match r with Done out => cstring out | Fail err _ => err = 2 \/ err = 3 | Undef => True | NoFuel => False end.

Lemma signed_ok z : value_ok (signed z).
Proof. unfold signed. case_bool_decide; [by apply ex_setint_cstring|done]. Qed.

Lemma c_bool_i64 x : in_i64 (c_bool x).
Proof. by destruct x; vm_compute. Qed.

Lemma cstring_sub s i n : cstring s -> cstring (take n (drop i s)).
Proof. intros C. by apply Forall_take, Forall_drop. Qed.

Lemma expr_match_ok str pat : cstring str -> cstring pat -> value_ok (expr_match str pat).
Proof.
  intros S P. unfold expr_match. destruct (compile_ok pat 0 (cstring_byte _ P)) as (r & -> & _).
  destruct r as [d|e]; [|by apply cstring_b_check].
  destruct (dfa_prefix d str) as [len|]; [|done]. destruct (Z.ltb_spec len 0).
  { case_test; [by apply cstring_b_check|constructor]. }
  case_test; [|by apply digit_cstring, Fmt.fmt_ulonglong_digits].
  destruct (dfa_submatch _ _ _ _) as [[[] [[|[g|] l]|]]|]; try done; try constructor. by apply cstring_sub.
Qed.

Lemma on_ints_ok f x y : (forall u v, value_ok (f u v)) -> value_ok (on_ints f x y).
Proof. intros F. unfold on_ints. destruct (ex_int x), (ex_int y); try apply F; by left. Qed.

Lemma mul_op_ok op x y : value_ok (mul_op op x y).
Proof. unfold mul_op. repeat case_test; try apply signed_ok. by right. Qed.

Lemma cmp_op_ok t x y : value_ok (cmp_op t x y).
Proof. apply ex_setint_cstring, c_bool_i64. Qed.

Lemma zero_i64 : in_i64 0.
Proof. unfold in_i64. lia. Qed.

(** The operators of a level, the tightest first: ":" is 1 and "|" is 6 *)
Definition ops_of (l : nat) : ex_ops :=
  nth l [[]; match_ops; mul_ops; add_ops; cmp_ops; and_ops; or_ops] [].

Lemma op_ok l tok f x y : (tok, f) ∈ ops_of l -> cstring x -> cstring y -> value_ok (f x y).
Proof.
  intros I X Y. destruct l as [|[|[|[|[|[|[|l]]]]]]]; unfold ops_of in I; cbn in I; try by (destruct l; apply elem_of_nil in I).
  all: repeat (apply elem_of_cons in I as [[= -> ->]|I];
    [try apply on_ints_ok; intros; try apply mul_op_ok; try apply signed_ok; try apply cmp_op_ok; try by apply expr_match_ok|]);
    try by apply elem_of_nil in I.
  - unfold and_op, value_ok. case_test; [done|]. apply ex_setint_cstring, zero_i64.
  - unfold or_op, value_ok. repeat case_test; try done. apply ex_setint_cstring, zero_i64.
Qed.

(** ** Every evaluation ends *)

Section Expr.
Context (a : list bytes) (strings : Forall cstring a).
#[local] Abbreviation n := (x_n a).

(** A reader that ends, without going back *)
Definition result_ok (i : nat) (r : ex_res (bytes * nat)) : Prop :=
  match r with
  | Done (out, i') => cstring out /\ (i <= i')%nat
  | Fail err _ => err = 2 \/ err = 3
  | Undef => True
  | NoFuel => False
  end.

Lemma result_le i j r : (j <= i)%nat -> result_ok i r -> result_ok j r.
Proof. destruct r as [[out k]|e m| |]; cbn; try done. intros L [C K]. split; [done|lia]. Qed.

Lemma result_bind {B} i (r : ex_res (bytes * nat)) (f : bytes * nat -> ex_res B) (P : ex_res B -> Prop) :
  result_ok i r -> (forall out i', cstring out -> (i <= i')%nat -> P (f (out, i'))) ->
  (forall err msg, err = 2 \/ err = 3 -> P (Fail err msg)) -> P Undef -> P (ex_bind r f).
Proof. destruct r as [[out k]|e m| |]; cbn; try done; [intros [C K] F _ _; by apply F|intros E _ F _; by apply F]. Qed.

Lemma ex_peek_lt tok i : ex_peek a tok i = true -> (i < n)%nat.
Proof. unfold ex_peek. intros E. bool_lia. Qed.

Lemma ex_op_at_elem ops i f : ex_op_at a ops i = Some f -> exists tok, (tok, f) ∈ ops /\ ex_peek a tok i = true.
Proof.
  induction ops as [|[tok g] ops IH]; cbn; [done|]. destruct (ex_peek a tok i) eqn:P.
  - intros [= ->]. exists tok. split; [by left|done].
  - intros E. destruct (IH E) as (t & I & T). exists t. split; [by right|done].
Qed.

Lemma operand_cstring i : cstring (nth i a []).
Proof.
  destruct (nth_in_or_default i a []) as [I| ->]; [|constructor].
  rewrite Forall_forall in strings. apply strings. by apply list_elem_of_In.
Qed.

Lemma ex_primary_ends eo i : ((i < n)%nat -> result_ok (S i) (eo (S i))) -> result_ok i (ex_primary a eo i).
Proof.
  intros E. unfold ex_primary. destruct (Nat.leb_spec n i) as [L|L]; [by left|]. case_test.
  - apply (result_bind (S i)); [by apply E| |done|done]. intros out i' C K. cbn.
    case_test; cbn; [split; [done|lia]|by left].
  - cbn. split; [apply operand_cstring|lia].
Qed.

Lemma ex_loop_ends l operand : forall k out i, cstring out -> (forall j, (i < j)%nat -> result_ok j (operand j)) ->
  (n - i <= k)%nat -> result_ok i (ex_loop a (ops_of l) operand k out i).
Proof.
  induction k as [|k IH]; intros out i C T K; cbn [ex_loop]; destruct (ex_op_at a (ops_of l) i) as [f|] eqn:O; try by cbn.
  - apply ex_op_at_elem in O as (tok & _ & P). apply ex_peek_lt in P. lia.
  - apply ex_op_at_elem in O as (tok & I & P). apply ex_peek_lt in P.
    apply (result_bind (S i)); [apply T; lia| |done|done]. intros rhs i' Cr Ki. cbn.
    pose proof (op_ok l tok f out rhs I C Cr) as V. destruct (f out rhs); cbn in *; try done.
    apply (result_le i'); [lia|]. apply IH; [done|intros j J; apply T; lia|lia].
Qed.

(** The reader of a level, tightest first *)
Fixpoint reader_of (l : nat) (eo : ex_reader) : ex_reader :=
  match l with O => ex_primary a eo | S l' => ex_level a (ops_of l) (reader_of l' eo) end.

Lemma reader_ends l eo i : (forall j, (i <= j)%nat -> (j < n)%nat -> result_ok (S j) (eo (S j))) ->
  forall j, (i <= j)%nat -> result_ok j (reader_of l eo j).
Proof.
  intros E. induction l as [|l IH]; intros j J.
  - apply ex_primary_ends. by apply E.
  - unfold reader_of. fold reader_of. unfold ex_level. apply (result_bind j); [by apply IH| |done|done].
    intros out i' C K. apply (result_le i'); [done|]. apply ex_loop_ends; [done|intros k Kk; apply IH; lia|lia].
Qed.

Lemma ex_or_ends fuel : forall i, (n - i < fuel)%nat -> result_ok i (ex_or a fuel i).
Proof.
  induction fuel as [|fuel IH]; intros i F; [lia|]. apply (reader_ends 6 (ex_or a fuel) i); [|lia].
  intros j J Jn. apply IH. lia.
Qed.

Lemma ex_run_ends : value_ok (ex_run a).
Proof.
  unfold ex_run. apply (result_bind 0); [apply ex_or_ends; lia| |done|done].
  intros out i C _. cbn. case_test; [by left|done].
Qed.

End Expr.

(** Expr ends on all operands.  It prints a result with status 0 or 1, or
    fails with 2 or 3 and a message; or an operation leaves 64 bits or runs a
    pattern that is not defined on the string.  No loop of the grammar is cut
    off, and no parenthesis is too deep. *)
Theorem expr_status argv : Forall cstring argv ->
  match builtin_expr argv with
  | Printed _ status => status = 0 \/ status = 1
  | Failed status _ => status = 2 \/ status = 3
  | Crash => True
  | Cut => False
  end.
Proof.
  intros F. unfold builtin_expr. set (args := match drop 1 argv with [] => _ | _ => _ end).
  assert (Fa : Forall cstring args).
  { subst args. apply (Forall_drop _ 1) in F. destruct (drop 1 argv) as [|x l]; [done|]. apply Forall_cons in F as [X F].
    case_test; [done|by constructor]. }
  assert (B : forall x, c_bool x = 0 \/ c_bool x = 1) by (intros []; auto).
  clearbody args. repeat case_test; auto.
  pose proof (ex_run_ends args Fa) as E. destruct (ex_run args); cbn in *; auto.
Qed.

(** ** Expressions and their words *)

(** [XOp l]: an operator of level [l], from 1 for ":" to 6 for "|" *)
Inductive ex_exp := XStr (s : bytes) | XOp (l : nat) (tok : string) (e1 e2 : ex_exp).

Definition looseness (e : ex_exp) : nat := match e with XStr _ => 0 | XOp l _ _ _ => l end.

(** The words of an expression where level [l] may stand without parentheses *)
Fixpoint words (l : nat) (e : ex_exp) : list bytes :=
  let ws := match e with
            | XStr s => [s]
            | XOp k tok e1 e2 => words k e1 ++ [b tok] ++ words (k - 1) e2
            end in
  if (l <? looseness e)%nat then [b "("] ++ ws ++ [b ")"] else ws.

Fixpoint find_op (ops : ex_ops) (tok : string) : option (bytes -> bytes -> ex_res bytes) :=
  match ops with
  | [] => None
  | (t, f) :: ops => if String.eqb t tok then Some f else find_op ops tok
  end.

(** What an expression means: the left side first, both sides always *)
Fixpoint meaning (e : ex_exp) : ex_res bytes :=
  match e with
  | XStr s => Done s
  | XOp l tok e1 e2 =>
      let? x := meaning e1 in
      let? y := meaning e2 in
      match find_op (ops_of l) tok with Some f => f x y | None => NoFuel end
  end%shish.

(** Only a "(" is not taken for an operand where one is expected. *)
Fixpoint readable (e : ex_exp) : Prop :=
  match e with
  | XStr s => cstring s /\ s <> b "("
  | XOp l tok e1 e2 => (1 <= l <= 6)%nat /\ is_Some (find_op (ops_of l) tok) /\ readable e1 /\ readable e2
  end.

(** ** The tokens *)

Definition tokens (l : nat) : list string := List.map fst (ops_of l).

Lemma find_op_token ops tok f : find_op ops tok = Some f -> tok ∈ List.map fst ops.
Proof.
  induction ops as [|[t g] ops IH]; cbn; [done|]. destruct (String.eqb_spec t tok); [subst; by left|]. intros E. right. by apply IH.
Qed.

(** The tokens of different levels differ, and none is a parenthesis. *)
Lemma tokens_differ :
  forallb (fun l => forallb (fun k => forallb (fun s => negb (existsb (String.eqb s) (tokens k)) && negb (String.eqb s ")"))
    (tokens l)) (List.filter (fun k => negb (k =? l)%nat) (List.seq 0 7))) (List.seq 0 7) = true.
Proof. by vm_compute. Qed.

Lemma token_level l k s : (l < 7)%nat -> (k < 7)%nat -> k <> l -> s ∈ tokens l -> s ∉ tokens k.
Proof.
  intros L K N I J. pose proof tokens_differ as T. rewrite forallb_forall in T.
  specialize (T l ltac:(apply in_seq; lia)). rewrite forallb_forall in T.
  specialize (T k ltac:(apply filter_In; split; [apply in_seq; lia|by apply negb_true_iff, Nat.eqb_neq])).
  rewrite forallb_forall in T. specialize (T s (proj1 (list_elem_of_In _ _) I)).
  apply andb_true_iff in T as [T _]. apply negb_true_iff in T. rewrite <-not_true_iff_false in T. apply T.
  apply existsb_exists. exists s. split; [by apply list_elem_of_In|apply String.eqb_refl].
Qed.

Lemma b_inj s t : b s = b t -> s = t.
Proof.
  revert t. induction s as [|c s IH]; intros [|d t]; cbn; try done. intros [= E1 E2]. f_equal; [|by apply IH].
  unfold b_of_ascii in E1. apply N2Z.inj in E1.
  by rewrite <-(ascii_N_embedding c), E1, ascii_N_embedding.
Qed.

Definition all_tokens : list string := ")"%string :: List.concat (List.map tokens (List.seq 0 7)).

Lemma all_tokens_strings : forallb (fun t => forallb (fun c => (0 <? c) && (c <? 256)) (b t)) all_tokens = true.
Proof. by vm_compute. Qed.

Lemma token_cstring t : t ∈ all_tokens -> cstring (b t).
Proof.
  intros I. pose proof all_tokens_strings as A. rewrite forallb_forall in A.
  apply cstring_b_check, (A t). by apply list_elem_of_In.
Qed.

Lemma tokens_all l t : t ∈ tokens l -> t ∈ all_tokens.
Proof.
  intros I. right. apply list_elem_of_In, in_concat. exists (tokens l). split; [|by apply list_elem_of_In].
  apply in_map, in_seq. destruct (decide (l < 7)%nat); [lia|].
  unfold tokens, ops_of in I. rewrite nth_overflow in I by (cbn; lia). by apply elem_of_nil in I.
Qed.

Lemma token_equal s t : s ∈ all_tokens -> t ∈ all_tokens -> str_equal (b s) (b t) = String.eqb s t.
Proof.
  intros S T. rewrite str_equal_eq by (by apply token_cstring). case_bool_decide as E; destruct (String.eqb_spec s t) as [F|F]; try done.
  - by apply b_inj in E.
  - by subst.
Qed.

(** ** Reading what was printed *)

Section Reading.
Context (a : list bytes) (strings : Forall cstring a).
#[local] Abbreviation n := (x_n a).
#[local] Open Scope shish_scope.

(** What may stand behind an expression of level [l]: no operator that level
    would take *)
Definition follow (l : nat) (rest : list bytes) : Prop :=
  match rest with
  | [] => True
  | w :: _ => exists t, w = b t /\ t ∈ all_tokens /\ forall k, (k <= l)%nat -> t ∉ tokens k
  end.

Lemma ex_follow_le l l' rest : (l <= l')%nat -> follow l' rest -> follow l rest.
Proof. destruct rest as [|w rest]; [done|]. intros L (t & W & A & N). exists t. split_and!; [done|done|]. intros k K. apply N. lia. Qed.

Lemma follow_paren l rest : follow l (b ")" :: rest).
Proof.
  exists ")"%string. split_and!; [done|by left|]. intros k _ I. unfold tokens, ops_of in I.
  do 7 (destruct k as [|k]; [cbn in I; repeat (apply elem_of_cons in I as [?|I]; [done|]); by apply elem_of_nil in I|]).
  cbn in I. destruct k; by apply elem_of_nil in I.
Qed.

Lemma follow_token l tok rest : (S l < 7)%nat -> tok ∈ tokens (S l) -> follow l (b tok :: rest).
Proof.
  intros L I. exists tok. split_and!; [done|by eapply tokens_all|]. intros k K. by apply (token_level (S l)); lia || done.
Qed.

Lemma ex_word_at pre w rest : a = pre ++ w :: rest -> (List.length pre < n)%nat /\ nth (List.length pre) a [] = w.
Proof.
  intros ->. unfold x_n. rewrite length_app. cbn. split; [lia|]. by rewrite app_nth2, Nat.sub_diag by lia.
Qed.

Lemma peek_here s pre w rest : a = pre ++ w :: rest -> ex_peek a s (List.length pre) = str_equal w (b s).
Proof. intros E. destruct (ex_word_at _ _ _ E) as [L W]. unfold ex_peek. by rewrite W, (proj2 (Nat.ltb_lt _ _) L). Qed.

Lemma op_at_token l pre s rest : a = pre ++ b s :: rest -> s ∈ all_tokens ->
  ex_op_at a (ops_of l) (List.length pre) = find_op (ops_of l) s.
Proof.
  intros E S. assert (T : forall t, t ∈ tokens l -> t ∈ all_tokens) by apply tokens_all.
  unfold tokens in T. induction (ops_of l) as [|[t f] ops IH]; cbn [ex_op_at find_op]; [done|].
  rewrite (peek_here t _ _ _ E), token_equal by (done || by apply T; left). rewrite String.eqb_sym.
  destruct (String.eqb t s); [done|]. apply IH. intros u U. apply T. by right.
Qed.

Lemma op_at_end l pre : a = pre -> ex_op_at a (ops_of l) (List.length pre) = None.
Proof.
  intros ->. induction (ops_of l) as [|[t f] ops IH]; cbn; [done|]. unfold ex_peek, x_n. by rewrite Nat.ltb_irrefl.
Qed.

Lemma find_op_none ops s : s ∉ List.map fst ops -> find_op ops s = None.
Proof.
  intros N. destruct (find_op ops s) eqn:E; [|done]. by apply find_op_token in E.
Qed.

Lemma ex_follow_stops l pre rest : a = pre ++ rest -> follow l rest -> ex_op_at a (ops_of l) (List.length pre) = None.
Proof.
  intros E F. destruct rest as [|w rest]; [rewrite app_nil_r in E; by apply op_at_end|].
  destruct F as (t & -> & A & N). rewrite (op_at_token l _ _ _ E A). apply find_op_none, (N l). lia.
Qed.

(** ** Loops *)

Lemma reader_ok l fuel i : (n - i <= fuel)%nat -> result_ok i (reader_of a l (ex_or a fuel) i).
Proof.
  intros K. apply (reader_ends a strings l (ex_or a fuel) i); [|lia].
  intros j J Jn. apply ex_or_ends; [done|lia].
Qed.

Lemma ex_loop_passes ops operand : forall k k' out i, (forall j, (i < j)%nat -> result_ok j (operand j)) ->
  (n - i <= k)%nat -> (n - i <= k')%nat -> ex_loop a ops operand k out i = ex_loop a ops operand k' out i.
Proof.
  induction k as [|k IH]; intros k' out i T K K'; destruct k' as [|k']; cbn [ex_loop]; try done;
    destruct (ex_op_at a ops i) as [f|] eqn:O; try done;
    apply ex_op_at_elem in O as (t & _ & P); apply ex_peek_lt in P; try lia.
  specialize (T (S i) ltac:(lia)) as R. destruct (operand (S i)) as [[rhs i']|? ?| |]; cbn in *; try done.
  destruct (f out rhs); cbn; try done. apply IH; [intros j J; apply T; lia|lia|lia].
Qed.

Lemma ex_loop_none ops operand k out i : ex_op_at a ops i = None -> ex_loop a ops operand k out i = Done (out, i).
Proof. intros O. destruct k; cbn [ex_loop]; by rewrite O. Qed.

Lemma ex_loop_step ops operand out i f : (forall j, (i < j)%nat -> result_ok j (operand j)) ->
  ex_op_at a ops i = Some f ->
  ex_loop a ops operand (n - i) out i =
    (let? (rhs, i') := operand (S i) in let? out := f out rhs in ex_loop a ops operand (n - i') out i').
Proof.
  intros T O. pose proof O as P. apply ex_op_at_elem in P as (t & _ & P). apply ex_peek_lt in P.
  destruct (n - i)%nat as [|k] eqn:K; [lia|]. cbn [ex_loop]. rewrite O.
  specialize (T (S i) ltac:(lia)) as R. destruct (operand (S i)) as [[rhs i']|? ?| |]; cbn in *; try done.
  destruct (f out rhs); cbn; try done. apply ex_loop_passes; [intros j J; apply T; lia|lia|lia].
Qed.

Definition reads (l : nat) (e : ex_exp) : Prop := forall fuel pre rest,
  a = pre ++ words l e ++ rest -> follow l rest -> (n - List.length pre <= fuel)%nat ->
  reader_of a l (ex_or a fuel) (List.length pre)
    = (let? out := meaning e in Done (out, (List.length pre + List.length (words l e))%nat)).

(** Reading an expression of level [S l] leaves the loop of the level behind it. *)
Definition loops (l : nat) (e : ex_exp) : Prop := forall fuel pre rest,
  a = pre ++ words (S l) e ++ rest -> follow l rest -> (n - List.length pre <= fuel)%nat ->
  let j := (List.length pre + List.length (words (S l) e))%nat in
  reader_of a (S l) (ex_or a fuel) (List.length pre)
    = (let? out := meaning e in ex_loop a (ops_of (S l)) (reader_of a l (ex_or a fuel)) (n - j) out j).

Lemma ex_loops_lift l e : words (S l) e = words l e -> reads l e -> loops l e.
Proof.
  intros W R fuel pre rest E F K. cbv zeta. rewrite W in *. cbn [reader_of]. unfold ex_level.
  rewrite (R fuel pre rest E F K). by destruct (meaning e).
Qed.

Lemma ex_loops_reads l e : loops l e -> reads (S l) e.
Proof.
  intros Lp fuel pre rest E F K. rewrite (Lp fuel pre rest E (ex_follow_le l (S l) rest ltac:(lia) F) K).
  destruct (meaning e); cbn [ex_bind]; try done. rewrite app_assoc in E.
  pose proof (ex_follow_stops _ _ _ E F) as A. rewrite length_app in A.
  by rewrite ex_loop_none.
Qed.

Lemma ex_loops_operator l tok e1 e2 : (S l < 7)%nat -> is_Some (find_op (ops_of (S l)) tok) ->
  loops l e1 -> reads l e2 -> loops l (XOp (S l) tok e1 e2).
Proof.
  intros L [f Hf] L1 R2 fuel pre rest E F K. cbv zeta.
  assert (W : words (S l) (XOp (S l) tok e1 e2) = words (S l) e1 ++ b tok :: words l e2).
  { cbn [words looseness]. by rewrite Nat.ltb_irrefl, Nat.sub_1_r. }
  rewrite W in *. rewrite <-app_assoc in E. cbn [app] in E. pose proof (find_op_token _ _ _ Hf) as I.
  rewrite (L1 fuel pre _ E (follow_token l tok _ L I) K). cbn [meaning]. destruct (meaning e1) as [x|? ?| |]; cbn [ex_bind]; try done.
  rewrite app_assoc in E. pose proof (op_at_token (S l) _ _ _ E (tokens_all _ _ I)) as A. rewrite Hf, length_app in A.
  assert (T : forall j, (List.length pre + List.length (words (S l) e1) < j)%nat -> result_ok j (reader_of a l (ex_or a fuel) j))
    by (intros j J; apply reader_ok; lia).
  rewrite (ex_loop_step _ _ _ _ f T A). rewrite cons_middle, app_assoc in E.
  pose proof (R2 fuel _ _ E F) as R. rewrite !length_app in R. cbn [List.length] in R. rewrite Nat.add_1_r in R.
  rewrite R by lia. rewrite Hf. destruct (meaning e2) as [y|? ?| |]; cbn [ex_bind]; try done.
  destruct (f x y); cbn [ex_bind]; try done. rewrite !length_app. cbn [List.length]. f_equal; lia.
Qed.

(** ** Operands *)

Lemma ex_str_reads s : readable (XStr s) -> reads 0 (XStr s).
Proof.
  intros [C N] fuel pre rest E F K. cbn [words looseness Nat.ltb Nat.leb app] in *. cbn [reader_of]. unfold ex_primary.
  destruct (ex_word_at _ _ _ E) as [L W]. rewrite (proj2 (Nat.leb_gt _ _)) by done.
  rewrite (peek_here _ _ _ _ E), str_equal_ne, W by (done || by apply cstring_b_check). cbn. do 2 f_equal. lia.
Qed.

Lemma ex_paren_reads e : words 0 e = [b "("] ++ words 6 e ++ [b ")"] -> reads 6 e -> reads 0 e.
Proof.
  intros Wd R fuel pre rest E F K. rewrite Wd in *. cbn [app] in E. rewrite <-app_assoc in E. cbn [app] in E.
  destruct (ex_word_at _ _ _ E) as [Ln W]. cbn [reader_of]. unfold ex_primary. rewrite (proj2 (Nat.leb_gt _ _)) by done.
  rewrite (peek_here _ _ _ _ E), str_equal_refl.
  destruct fuel as [|fuel]; [lia|]. rewrite cons_middle, app_assoc in E.
  pose proof (R fuel _ _ E (follow_paren _ _)) as R'. rewrite length_app, Nat.add_1_r in R'.
  change (ex_or a (S fuel)) with (reader_of a 6 (ex_or a fuel)). rewrite R' by lia.
  destruct (meaning e); cbn [ex_bind]; try done.
  rewrite app_assoc in E. pose proof (peek_here ")" _ _ _ E) as A. rewrite !length_app in A. cbn [List.length] in A.
  rewrite Nat.add_1_r in A. rewrite A, str_equal_refl. cbn [app List.length]. rewrite length_app. cbn [List.length].
  do 2 f_equal. lia.
Qed.

(** ** Every level *)

Lemma lift_to e m l : (m <= l)%nat -> (forall i, (m <= i < l)%nat -> words (S i) e = words i e) -> reads m e -> reads l e.
Proof.
  induction l as [|l IH]; intros L W R; [by replace m with 0%nat in * by lia|].
  destruct (decide (m = S l)) as [->|N]; [done|]. apply ex_loops_reads, ex_loops_lift; [apply W; lia|].
  apply IH; [lia|intros i I; apply W; lia|done].
Qed.

Lemma base_reads e : readable e -> reads 6 e -> reads 0 e.
Proof.
  intros Rd R. destruct e as [s|k tok e1 e2]; [by apply ex_str_reads|]. destruct Rd as (Lk & _).
  apply ex_paren_reads; [|done]. cbn [words looseness].
  by rewrite (proj2 (Nat.ltb_lt _ _)), (proj2 (Nat.ltb_ge _ _)) by lia.
Qed.

Lemma words_low l k tok e1 e2 : (l < k)%nat -> words l (XOp k tok e1 e2) = words 0 (XOp k tok e1 e2).
Proof. intros L. cbn [words looseness]. rewrite !(proj2 (Nat.ltb_lt _ _)) by lia. done. Qed.

Lemma words_high l k tok e1 e2 : (k <= l)%nat -> words l (XOp k tok e1 e2) = words k (XOp k tok e1 e2).
Proof. intros L. cbn [words looseness]. rewrite !(proj2 (Nat.ltb_ge _ _)) by lia. done. Qed.

Lemma op_reads k tok e1 e2 : (1 <= k <= 6)%nat -> reads k (XOp k tok e1 e2) -> forall l, (l <= 6)%nat ->
  reads l (XOp k tok e1 e2).
Proof.
  intros Lk R. assert (H : forall l, (k <= l)%nat -> reads l (XOp k tok e1 e2)).
  { intros l Ll. apply (lift_to _ k); [done| |done]. intros i I. by rewrite (words_high (S i) k), (words_high i k) by lia. }
  intros l Ll. destruct (decide (k <= l)%nat); [by apply H|].
  apply (lift_to _ 0); [lia|intros i I; by rewrite (words_low (S i) k), (words_low i k) by lia|].
  apply ex_paren_reads; [|apply H; lia]. rewrite (words_high 6 k) by lia. cbn [words looseness].
  by rewrite (proj2 (Nat.ltb_lt _ _)), Nat.ltb_irrefl by lia.
Qed.

Lemma op_loops k tok e1 e2 : (1 <= k <= 6)%nat -> loops (k - 1) (XOp k tok e1 e2) -> forall l, (l < 6)%nat ->
  loops l (XOp k tok e1 e2).
Proof.
  intros Lk Lp l Ll. destruct (decide (l = k - 1)%nat) as [->|N]; [done|].
  assert (R : reads k (XOp k tok e1 e2)) by (destruct k as [|k]; [lia|]; apply ex_loops_reads; by rewrite Nat.sub_1_r in Lp).
  apply ex_loops_lift; [|by apply op_reads; [| |lia]].
  destruct (decide (k <= l)%nat); [by rewrite (words_high (S l) k), (words_high l k) by lia|by rewrite (words_low (S l) k), (words_low l k) by lia].
Qed.

Lemma all_loops e : readable e -> (forall l, (l < 6)%nat -> loops l e) /\ reads 6 e.
Proof.
  induction e as [s|k tok e1 IH1 e2 IH2]; intros Rd.
  - assert (R : forall l, reads l (XStr s)) by (intros l; apply (lift_to _ 0); [lia|done|by apply ex_str_reads]).
    split; [intros l _; by apply ex_loops_lift|done].
  - destruct Rd as (Lk & Hf & Rd1 & Rd2). destruct (IH1 Rd1) as [L1 _], (IH2 Rd2) as [L2 R2].
    assert (Lp : loops (k - 1) (XOp k tok e1 e2)).
    { destruct k as [|k]; [lia|]. rewrite Nat.sub_1_r. cbn [Nat.pred]. apply ex_loops_operator; [lia|done|apply L1; lia|].
      destruct k as [|k]; [by apply base_reads|]. apply ex_loops_reads, L2. lia. }
    split; [by apply op_loops|]. apply (ex_loops_reads 5), op_loops; done || lia.
Qed.

End Reading.

(** ** Whole commands *)

(** What the builtin makes of a result *)
Definition answer (r : ex_res bytes) : expr_end :=
  match r with
  | Done out => Printed out (c_bool (negb (ex_true out)))
  | Fail err msg => Failed err msg
  | Undef => Crash
  | NoFuel => Cut
  end.

(** A first word that is no option and no keyword *)
Definition ordinary (w : bytes) : Prop :=
  cstring w /\ w <> b "--" /\ w <> b "length" /\ w <> b "substr" /\ w <> b "index".

Lemma readable_strings e : readable e -> forall l, Forall cstring (words l e).
Proof.
  induction e as [s|k tok e1 IH1 e2 IH2]; intros Rd l; cbn [words].
  - case_test; cbn; repeat constructor; try apply Rd; by apply cstring_b_check.
  - destruct Rd as (_ & [f Hf] & Rd1 & Rd2). apply find_op_token, tokens_all, token_cstring in Hf.
    assert (F : Forall cstring (words k e1 ++ [b tok] ++ words (k - 1) e2)).
    { apply Forall_app. split; [by apply IH1|]. apply Forall_app. split; [by repeat constructor|by apply IH2]. }
    case_test; [|done]. apply Forall_app. split; [by repeat constructor|]. apply Forall_app. split; [done|by repeat constructor].
Qed.

Lemma run_words e : readable e -> ex_run (words 6 e) = meaning e.
Proof.
  intros Rd. pose proof (all_loops (words 6 e) (readable_strings e Rd 6) e Rd) as [_ R].
  unfold ex_run. specialize (R (x_n (words 6 e)) [] []). rewrite app_nil_r in R. specialize (R eq_refl I ltac:(lia)).
  change (ex_or (words 6 e) (S (x_n (words 6 e)))) with (reader_of (words 6 e) 6 (ex_or (words 6 e) (x_n (words 6 e)))).
  cbn [List.length Nat.add] in R. rewrite R. destruct (meaning e); cbn [ex_bind]; try done.
  by rewrite (proj2 (Nat.ltb_ge _ _)) by done.
Qed.

Lemma expr_command name args w ws : args = w :: ws -> ordinary w -> builtin_expr (name :: args) = answer (ex_run args).
Proof.
  intros -> (C & N1 & N2 & N3 & N4). unfold builtin_expr. change (drop 1 (name :: w :: ws)) with (w :: ws). cbv iota zeta.
  rewrite (str_equal_ne w (b "--")) by (done || by apply cstring_b_check). cbv iota. unfold first_is.
  rewrite (str_equal_ne w (b "length")), (str_equal_ne w (b "substr")), (str_equal_ne w (b "index")), andb_false_r
    by (done || by apply cstring_b_check). done.
Qed.

(** C24: an expression is evaluated as it was meant.  Take an expression over
    the operators of expr, write it with parentheses only where the levels of
    the operators or the grouping to the left ask for them, and give the words
    to expr: it answers what the expression means, evaluated from the inside
    and from left to right, with the first error if there is one.  An operand
    may be any string but "("; only the first must not be a keyword or "--". *)
Theorem expr_reads_expression e name w ws : readable e -> words 6 e = w :: ws -> ordinary w ->
  builtin_expr (name :: words 6 e) = answer (meaning e).
Proof. intros Rd W O. by rewrite (expr_command name (words 6 e) w ws W O), run_words. Qed.

(** ** Arithmetic *)

Inductive z_op := ZMul | ZDiv | ZMod | ZAdd | ZSub | ZEq | ZNe | ZLt | ZLe | ZGt | ZGe.

Inductive z_exp := ZNum (z : Z) | ZBin (op : z_op) (e1 e2 : z_exp).

Definition z_token (op : z_op) : string :=
  match op with
  | ZMul => "*" | ZDiv => "/" | ZMod => "%" | ZAdd => "+" | ZSub => "-"
  | ZEq => "=" | ZNe => "!=" | ZLt => "<" | ZLe => "<=" | ZGt => ">" | ZGe => ">="
  end.

Definition z_level (op : z_op) : nat :=
  match op with ZMul | ZDiv | ZMod => 2 | ZAdd | ZSub => 3 | _ => 4 end.

(** The exact value: comparisons are 1 and 0, quotients are cut towards 0. *)
Definition z_apply (op : z_op) (x y : Z) : Z :=
  match op with
  | ZMul => x * y | ZDiv => Z.quot x y | ZMod => Z.rem x y | ZAdd => x + y | ZSub => x - y
  | ZEq => c_bool (x =? y) | ZNe => c_bool (negb (x =? y)) | ZLt => c_bool (x <? y)
  | ZLe => c_bool (x <=? y) | ZGt => c_bool (y <? x) | ZGe => c_bool (y <=? x)
  end.

Fixpoint z_value (e : z_exp) : Z :=
  match e with ZNum z => z | ZBin op e1 e2 => z_apply op (z_value e1) (z_value e2) end.

(** Every value on the way fits, and nothing is divided by 0. *)
Fixpoint z_defined (e : z_exp) : Prop :=
  in_i64 (z_value e) /\
  match e with
  | ZNum _ => True
  | ZBin op e1 e2 =>
      z_defined e1 /\ z_defined e2 /\ (match op with ZDiv | ZMod => z_value e2 <> 0 | _ => True end)
  end.

Fixpoint z_embed (e : z_exp) : ex_exp :=
  match e with
  | ZNum z => XStr (Fmt.fmt_longlong z)
  | ZBin op e1 e2 => XOp (z_level op) (z_token op) (z_embed e1) (z_embed e2)
  end.

Lemma ex_int_fmt z : in_i64 z -> ex_int (Fmt.fmt_longlong z) = Some z.
Proof.
  intros I. pose proof (scan_fmt_longlong z [] 0 I ltac:(constructor)) as S.
  rewrite app_nil_r in S. unfold ex_int. rewrite S by (vm_compute; intros [? _]; congruence).
  rewrite Nat.eqb_refl. destruct (Fmt.fmt_longlong z) eqn:E; [|done]. by apply fmt_longlong_nil in E.
Qed.

Lemma z_apply_op op x y : in_i64 x -> in_i64 y -> in_i64 (z_apply op x y) ->
  (match op with ZDiv | ZMod => y <> 0 | _ => True end) ->
  exists f, find_op (ops_of (z_level op)) (z_token op) = Some f /\
  f (Fmt.fmt_longlong x) (Fmt.fmt_longlong y) = Done (Fmt.fmt_longlong (z_apply op x y)).
Proof.
  intros X Y R D.
  assert (S : forall z, in_i64 z -> signed z = Done (Fmt.fmt_longlong z)) by (intros z Z; unfold signed; by rewrite bool_decide_true).
  assert (Cmp : ex_compare (Fmt.fmt_longlong x) (Fmt.fmt_longlong y) = if x <? y then -1 else c_bool (y <? x))
    by (unfold ex_compare; by rewrite !ex_int_fmt).
  destruct op; (eexists; split; [reflexivity|]); cbn [z_apply] in *;
    try (unfold on_ints; rewrite !ex_int_fmt by done); try (by apply S);
    try (unfold cmp_op, ex_setint; rewrite Cmp; do 3 f_equal;
         destruct (Z.ltb_spec x y), (Z.ltb_spec y x), (Z.eqb_spec x y), (Z.leb_spec x y), (Z.leb_spec y x); done || lia).
  - unfold mul_op. change (ch "/" =? ch "*") with false. change (ch "/" =? ch "/") with true. cbn [negb andb].
    rewrite (proj2 (Z.eqb_neq y 0)) by done. destruct (Z.eqb_spec y (-1)) as [->|]; [|by apply S].
    replace (- x) with (Z.quot x (-1)); [by apply S|]. change (-1) with (- (1)). by rewrite Z.quot_opp_r, Z.quot_1_r.
  - unfold mul_op. change (ch "%" =? ch "*") with false. change (ch "%" =? ch "/") with false. cbn [negb andb].
    rewrite (proj2 (Z.eqb_neq y 0)) by done. destruct (Z.eqb_spec y (-1)) as [->|]; [|by apply S].
    replace (Z.rem x (-1)) with 0 in *; [by apply S|]. change (-1) with (- (1)). by rewrite Z.rem_opp_r, Z.rem_1_r.
Qed.

Lemma z_meaning e : z_defined e -> meaning (z_embed e) = Done (Fmt.fmt_longlong (z_value e)) /\ in_i64 (z_value e).
Proof.
  induction e as [z|op e1 IH1 e2 IH2]; cbn [z_defined z_embed meaning z_value]; [by intros [I _]|].
  intros (I & D1 & D2 & N). destruct (IH1 D1) as [-> I1], (IH2 D2) as [-> I2]. split; [|done].
  destruct (z_apply_op op (z_value e1) (z_value e2) I1 I2 I N) as (f & Hf & Ef). cbn [ex_bind]. by rewrite Hf.
Qed.

Lemma fmt_operand z : in_i64 z -> cstring (Fmt.fmt_longlong z) /\ Fmt.fmt_longlong z <> b "(".
Proof.
  intros I. split; [by apply ex_setint_cstring|]. intros E. pose proof (ex_int_fmt z I) as X. by rewrite E in X.
Qed.

Lemma z_op_found op : is_Some (find_op (ops_of (z_level op)) (z_token op)).
Proof. destruct op; eexists; reflexivity. Qed.

Lemma z_readable e : z_defined e -> readable (z_embed e).
Proof.
  induction e as [z|op e1 IH1 e2 IH2]; cbn; [intros [I _]; by apply fmt_operand|].
  intros (_ & D1 & D2 & _). split_and!; [by destruct op; cbn; lia|by destruct op; cbn; lia|apply z_op_found|by apply IH1|by apply IH2].
Qed.

Lemma ordinary_number w : cstring w -> is_Some (ex_int w) -> ordinary w.
Proof. intros C N. split_and!; [done| | | |]; intros ->; by destruct N. Qed.

Lemma z_first e : z_defined e -> forall l, exists w ws, words l (z_embed e) = w :: ws /\ ordinary w.
Proof.
  assert (P : ordinary (b "(")) by (split; [by apply cstring_b_check|by split_and!]).
  induction e as [z|op e1 IH1 e2 IH2]; intros D l.
  - eexists _, _. split; [reflexivity|]. destruct D as [I _]. apply ordinary_number; [by apply fmt_operand|].
    by rewrite ex_int_fmt.
  - destruct D as (_ & D1 & _). destruct (IH1 D1 (z_level op)) as (w & ws & E & O).
    cbn [z_embed words looseness]. rewrite E. case_test; eexists _, _; (split; [reflexivity|]); done.
Qed.

Lemma ex_true_fmt z : in_i64 z -> ex_true (Fmt.fmt_longlong z) = negb (z =? 0).
Proof.
  intros I. unfold ex_true. rewrite ex_int_fmt by done. destruct (Fmt.fmt_longlong z) eqn:E; [|done].
  by apply fmt_longlong_nil in E.
Qed.

(** C25: arithmetic is exact.  An expression over integers, the five operations
    and the six comparisons, whose values all fit in 64 bits and which divides
    by no 0, is printed as its value in decimal; the status is 1 for 0, and 0
    otherwise. *)
Theorem expr_arithmetic_exact e name : z_defined e ->
  builtin_expr (name :: words 6 (z_embed e)) = Printed (Fmt.fmt_longlong (z_value e)) (c_bool (z_value e =? 0)).
Proof.
  intros D. destruct (z_first e D 6) as (w & ws & W & O). destruct (z_meaning e D) as [M I].
  rewrite (expr_command name (words 6 (z_embed e)) w ws W O), (run_words (z_embed e) (z_readable e D)), M.
  unfold answer. by rewrite ex_true_fmt, negb_involutive.
Qed.

(** ** Matching *)

Lemma fmt_ulong_longlong z : 0 <= z -> in_i64 z -> Fmt.fmt_ulong z = Fmt.fmt_longlong z.
Proof.
  intros P I. unfold Fmt.fmt_ulong, Fmt.fmt_longlong. rewrite (proj2 (Z.ltb_ge _ _)) by lia.
  by rewrite u64_small by (unfold in_u64, in_i64 in *; lia).
Qed.

Lemma expr_match_length s pat d : dfa_compile pat 0 = Some (inl d) -> program_ok d -> run_only d ->
  dfa_groups d = 0%nat -> short_subject s ->
  exists len, expr_match s pat = Done (Fmt.fmt_longlong len) /\ 0 <= len /\ in_i64 len /\
  (forall e, matches d s false 0 e -> Z.of_nat e <= len) /\
  (matches d s false 0 (Z.to_nat len) \/ (len = 0 /\ forall e, ~ matches d s false 0 e)).
Proof.
  intros C Ok Rn G Sh. unfold expr_match. rewrite C. unfold dfa_prefix, any_run. rewrite Rn.
  destruct (dfa_run_spec d s false Ok 0 true 0 ltac:(lia) Sh) as ([[m g]|] & -> & F).
  - destruct F as ([L1 L2] & St & M & _ & Lg & _). specialize (St eq_refl). rewrite St in *. cbn [mbind option_bind].
    assert (Le : (sp_end m <= List.length s)%nat) by (apply (matches_range d s false 0 _ ltac:(lia) M)).
    assert (I : in_i64 (Z.of_nat (sp_end m))).
    { unfold short_subject in Sh. change INT_MAX with 2147483647 in Sh. change (n s) with (List.length s) in Sh.
      assert (Z.of_nat (List.length s + 2) <= 2147483647) by nia. unfold in_i64. lia. }
    exists (Z.of_nat (sp_end m)). rewrite St, Nat2Z.id, Z.sub_0_r, (proj2 (Z.ltb_ge _ _)), G by lia. cbn [Nat.ltb Nat.leb].
    rewrite fmt_ulong_longlong by (done || lia). split_and!; [done|lia|done| |by left].
    intros e X. apply Lg in X. lia.
  - cbn [mbind option_bind]. exists 0. change (-1 <? 0) with true. rewrite G. cbn iota.
    assert (N : forall e, ~ matches d s false 0 e) by (intros e; apply F; [lia|done]).
    split_and!; [reflexivity|lia|apply zero_i64|intros e X; by apply N in X|by right].
Qed.

(** C39: "s : pat" prints the length of the longest match at the start of s.
    The string s is none of the words expr reads otherwise ("length",
    "substr", "index" and "--", which are no [ordinary] operands, and "("),
    and short enough for the 32-bit counter of the simulation
    ([short_subject]); pat is not "(", and is a basic regular expression that
    compiles without groups and back-references and has at most 64 bytes '|'.
    Then the number printed is the length
    of a match at the start of the string, and no match there is longer; it is
    0, with status 1, when the pattern does not match there. *)
Theorem expr_match_longest name s pat d : cstring s -> cstring pat -> ordinary s -> s <> b "(" -> pat <> b "(" ->
  compiled pat 0 d -> few_bars pat -> run_only d -> dfa_groups d = 0%nat -> short_subject s ->
  exists len, builtin_expr [name; s; b ":"; pat] = Printed (Fmt.fmt_longlong len) (c_bool (len =? 0)) /\
  0 <= len /\ (forall e, matches d s false 0 e -> Z.of_nat e <= len) /\
  (matches d s false 0 (Z.to_nat len) \/ (len = 0 /\ forall e, ~ matches d s false 0 e)).
Proof.
  intros S P O Ns Np C Fb Rn G Sh.
  destruct (expr_match_length s pat d (proj2 C) (compiled_ok _ _ _ C Fb) Rn G Sh) as (len & E & L & I & M).
  exists len. split; [|done]. set (e := XOp 1 ":" (XStr s) (XStr pat)).
  assert (Rd : readable e) by (split_and!; cbn; try lia; try done; by eexists).
  change [name; s; b ":"; pat] with (name :: words 6 e).
  rewrite (expr_command name (words 6 e) s [b ":"; pat] eq_refl O), (run_words e Rd).
  cbn [meaning e ex_bind ops_of]. change (find_op (ops_of 1) ":") with (Some expr_match). cbv iota. rewrite E. unfold answer.
  by rewrite ex_true_fmt, negb_involutive.
Qed.

(** ** Witnesses *)

Lemma expr_status_witness : Forall cstring (List.map b ["expr"; "("; "1"; "+"]%string) /\
  builtin_expr (List.map b ["expr"; "("; "1"; "+"]%string) = Failed 2 Missing_operand /\
  match builtin_expr (List.map b ["expr"; "("; "1"; "+"]%string) with
  | Printed _ status => status = 0 \/ status = 1
  | Failed status _ => status = 2 \/ status = 3
  | Crash => True
  | Cut => False
  end.
Proof.
  assert (F : Forall cstring (List.map b ["expr"; "("; "1"; "+"]%string))
    by (repeat constructor; apply cstring_b_check; reflexivity).
  split; [exact F|]. split; [vm_compute; reflexivity|]. exact (expr_status _ F).
Defined.

(** ( a | b ) = "*" & "+" : x* *)
Definition sample_exp : ex_exp :=
  XOp 5 "&" (XOp 4 "=" (XOp 6 "|" (XStr (b "a")) (XStr (b "b"))) (XStr (b "*"))) (XOp 1 ":" (XStr (b "+")) (XStr (b "x*"))).

Lemma expr_reads_expression_witness :
  words 6 sample_exp = List.map b ["("; "a"; "|"; "b"; ")"; "="; "*"; "&"; "+"; ":"; "x*"]%string /\
  builtin_expr (b "expr" :: words 6 sample_exp) = answer (meaning sample_exp).
Proof.
  split; [reflexivity|].
  apply (expr_reads_expression sample_exp (b "expr") (b "(") (List.tail (words 6 sample_exp))).
  - cbn [readable sample_exp]. repeat match goal with |- _ /\ _ => split end;
      solve [lia|eexists; reflexivity|apply cstring_b_check; reflexivity|discriminate].
  - reflexivity.
  - split; [apply cstring_b_check; reflexivity|]. repeat split; discriminate.
Defined.

(** (7 - 10) * 2 / 4 >= -2 *)
Definition sample_sum : z_exp :=
  ZBin ZGe (ZBin ZDiv (ZBin ZMul (ZBin ZSub (ZNum 7) (ZNum 10)) (ZNum 2)) (ZNum 4)) (ZNum (-2)).

Lemma expr_arithmetic_exact_witness :
  words 6 (z_embed sample_sum) = List.map b ["("; "7"; "-"; "10"; ")"; "*"; "2"; "/"; "4"; ">="; "-2"]%string /\
  builtin_expr (b "expr" :: words 6 (z_embed sample_sum)) = Printed (Fmt.fmt_longlong 1) (c_bool (1 =? 0)).
Proof.
  split; [vm_compute; reflexivity|]. apply (expr_arithmetic_exact sample_sum (b "expr")).
  vm_compute. repeat split; discriminate.
Defined.

Definition vowel_run : bytes := b "[aeiou]*".
Definition compiled_vowels : dfa :=
  match dfa_compile vowel_run 0 with Some (inl d) => d | _ => Dfa [] [] 0 false 0 end.

Lemma expr_match_longest_witness : exists len,
  builtin_expr [b "expr"; b "aeroplane"; b ":"; vowel_run] = Printed (Fmt.fmt_longlong len) (c_bool (len =? 0)) /\
  0 <= len /\ (forall e, matches compiled_vowels (b "aeroplane") false 0 e -> Z.of_nat e <= len) /\
  (matches compiled_vowels (b "aeroplane") false 0 (Z.to_nat len) \/
   (len = 0 /\ forall e, ~ matches compiled_vowels (b "aeroplane") false 0 e)).
Proof.
  apply (expr_match_longest (b "expr") (b "aeroplane") vowel_run compiled_vowels).
  - apply cstring_b_check; reflexivity.
  - apply cstring_b_check; reflexivity.
  - split; [apply cstring_b_check; reflexivity|]. repeat split; discriminate.
  - discriminate.
  - discriminate.
  - split; [apply bytes_check; reflexivity|vm_compute; reflexivity].
  - vm_compute. lia.
  - reflexivity.
  - reflexivity.
  - vm_compute. discriminate.
Defined.

(** ** What the code does differently *)

(** The comment in ex_mul says that a divisor of -1 is kept from overflowing;
    the negation that replaces the division overflows all the same. *)
Example smallest_by_minus_one : builtin_expr (List.map b ["expr"; "-9223372036854775808"; "/"; "-1"]%string) = Crash.
Proof. by vm_compute. Qed.

(** Sums, differences and products are not checked. *)
Example sum_overflows : builtin_expr (List.map b ["expr"; "9223372036854775807"; "+"; "1"]%string) = Crash.
Proof. by vm_compute. Qed.

(** "length" takes the first operand and drops the others without an error. *)
Example length_drops_operands : builtin_expr (List.map b ["expr"; "length"; "abc"; "+"; "1"]%string) = Printed (b "3") 0.
Proof. by vm_compute. Qed.
