(* ===== verification/Sed.v ===== *)
(** * Compiling a sed script (text/sed)

    sed_compile reads a script into a list of commands: sed_parse.c reads the
    commands and resolves braces and labels, sed_addr.c addresses, sed_subst.c
    the s and y commands, sed_text.c the text of a, i and c, and sed_wfile.c
    numbers the files written to.

    [buf] is the memory the script lies in and [e] its length: what the code
    reads at [end] and behind it are the bytes of [buf] from [e] on.  A
    pointer is an offset.  Allocations do not fail, and nothing is freed. *)

From S2P Require Import Prelude Scan Dfa DfaRun DfaReplace.

Definition SED_ERE : Z := 1.
Definition SED_NOAUTOPRINT : Z := 2.
Definition SED_MULTI : Z := 8192.
Definition SED_ICASE : Z := 4096.

Definition SED_OK : Z := 0.
Definition SED_EADDR : Z := 2.
Definition SED_ECMD : Z := 3.
Definition SED_ELABEL : Z := 4.
Definition SED_EBRACE : Z := 5.
Definition SED_EDELIM : Z := 6.
Definition SED_EUNTERM : Z := 7.
Definition SED_EREGEX : Z := 8.
Definition SED_ESIZE : Z := 9.

Definition SED_MAXNEST : nat := 256.

(** ** The compiled program *)

(** [SA_REGEX None]: an empty //, the last regular expression used *)
Inductive sed_addr :=
| SA_NONE
| SA_LINE (line : Z)
| SA_LAST
| SA_REGEX (re : option dfa)
| SA_STEP (line step : Z)
| SA_MULT (line step : Z).

Record sed_subst := Subst {
  s_re : option dfa;
  s_repl : dfa_repl;
  s_global : bool;
  s_print : bool;
  s_icase : bool;
  s_multi : bool;
  s_nth : Z;
  s_wfile : option nat                                  (** none: -1 *)
}.

(** The union [u]: the member the letter of the command makes valid *)
Inductive payload :=
| U_NONE
| U_S (s : sed_subst)
| U_Y (map : bytes)
| U_TEXT (t : bytes)
| U_WFILE (file : nat)
| U_RFILE (name : bytes)
| U_STATUS (n : Z).

Record sed_cmd := Cmd {
  c_letter : Z;
  c_naddr : nat;
  c_negate : bool;
  c_a1 : sed_addr;
  c_a2 : sed_addr;
  c_jump : nat;
  c_in_range : bool;
  c_u : payload
}.

Definition with_payload (u : payload) (c : sed_cmd) : sed_cmd :=
  Cmd (c_letter c) (c_naddr c) (c_negate c) (c_a1 c) (c_a2 c) (c_jump c) (c_in_range c) u.
Definition with_jump (n : nat) (c : sed_cmd) : sed_cmd :=
  Cmd (c_letter c) (c_naddr c) (c_negate c) (c_a1 c) (c_a2 c) n (c_in_range c) (c_u c).

Record sed := Sed {
  sed_cmds : list sed_cmd;
  sed_flags : Z;
  sed_autoprint_off : bool;
  sed_wfiles : list bytes
}.

(** ** Results *)

(** [Undef]: undefined behaviour.  [Fuel]: the passes ran out. *)
Inductive res (A : Type) := Ok (a : A) | Err (code : Z) | Undef | Fuel.
Arguments Ok {A}.
Arguments Err {A}.
Arguments Undef {A}.
Arguments Fuel {A}.

Definition rbind {A B} (r : res A) (f : A -> res B) : res B :=
  match r with Ok a => f a | Err code => Err code | Undef => Undef | Fuel => Fuel end.

Notation "'let*' x := r 'in' k" := (rbind r (fun x => k))
  (at level 10, x pattern, r at level 100, k at level 200) : shish_scope.
#[local] Open Scope shish_scope.

(** What the regular expression compiler returns, and that of templates *)
Definition compile_re (pat : bytes) (flags : Z) : res dfa :=
  match dfa_compile pat flags with
  | Some (inl d) => Ok d
  | Some (inr _) => Err SED_EREGEX
  | None => Fuel
  end.

Definition compile_repl (tmpl : bytes) : res dfa_repl :=
  match dfa_repl_compile tmpl DFA_REPL_BACKREF with Some r => Ok r | None => Fuel end.

Definition is_digit (c : Z) : bool := (48 <=? c) && (c <=? 57).
Definition is_space (c : Z) : bool := (c =? 32) || (c =? 9).

(** sed_wfile_intern: the files and the index of [name] among them *)
Fixpoint wfile_index (name : bytes) (l : list bytes) (i : nat) : option nat :=
  match l with
  | [] => None
  | f :: l => if bool_decide (f = name) then Some i else wfile_index name l (S i)
  end.

Definition sed_wfile_intern (files : list bytes) (name : bytes) : list bytes * nat :=
  match wfile_index name files 0 with
  | Some i => (files, i)
  | None => (files ++ [name], List.length files)
  end.

Definition regex_flags (ere icase multi : bool) : Z :=
  Z.lor (Z.lor (Z.lor DFA_ESC (if ere then DFA_ERE else 0)) (if icase then DFA_ICASE else 0))
    (if multi then DFA_MULTI else 0).

Section Parse.
Context (buf : bytes) (e : nat) (flags : Z).

Definition rd (p : nat) : Z := cnth buf p.
Definition lt (p : nat) : bool := (p <? e)%nat.
Definition at_c (c : Z) (p : nat) : bool := lt p && (rd p =? c).
Definition sub (p q : nat) : bytes := take (q - p) (drop p buf).

(** [while(p < end && f( *p)) p++] *)
Fixpoint skip_while (f : Z -> bool) (fuel p : nat) : nat :=
  match fuel with
  | O => p
  | S fuel => if lt p && f (rd p) then skip_while f fuel (S p) else p
  end.

Definition skip_all (f : Z -> bool) (p : nat) : nat := skip_while f (e - p) p.

Definition skip_blank (p : nat) : nat := skip_all is_space p.

Definition not_nl (c : Z) : bool := negb (c =? 10).

Fixpoint skip_sep_loop (fuel p : nat) : nat :=
  let p := skip_blank p in
  match fuel with
  | O => p
  | S fuel =>
      if at_c 10 p || at_c (ch ";") p then skip_sep_loop fuel (S p)
      else if at_c (ch "#") p then skip_sep_loop fuel (skip_all not_nl p)
      else p
  end.

Definition skip_sep (p : nat) : nat := skip_sep_loop (S (e - p)) p.

Definition looks_like_addr (p : nat) : bool :=
  lt p && (is_digit (rd p) || (rd p =? ch "$") || (rd p =? ch "/") || ((rd p =? ch "\") && lt (S p))).

(** The number of addresses a command takes *)
Definition max_addr (letter : Z) : nat :=
  if existsb (Z.eqb letter) (b "aiqQr=") then 1
  else if existsb (Z.eqb letter) (b ":#") then 0
  else 2.

(** ** Addresses *)

(** The pattern of an address, up to [delim]: the offset behind it, and the
    pattern with the escapes of the delimiter and of newline removed *)
Fixpoint addr_pattern (fuel : nat) (delim : Z) (p : nat) (pat : bytes) : res (nat * bytes) :=
  match fuel with
  | O => Fuel
  | S fuel =>
      if negb (lt p) then Err SED_EUNTERM
      else if rd p =? delim then Ok (S p, pat)
      else if (rd p =? ch "\") && lt (S p) then
        if rd (S p) =? delim then addr_pattern fuel delim (p + 2) (pat ++ [delim])
        else if rd (S p) =? ch "n" then addr_pattern fuel delim (p + 2) (pat ++ [10])
        else addr_pattern fuel delim (p + 2) (pat ++ [rd p; rd (S p)])
      else addr_pattern fuel delim (S p) (pat ++ [rd p])
  end.

(** The flags I and M behind a pattern *)
Fixpoint addr_flags (fuel p : nat) (icase multi : bool) : nat * bool * bool :=
  match fuel with
  | O => (p, icase, multi)
  | S fuel =>
      if at_c (ch "I") p then addr_flags fuel (S p) true multi
      else if at_c (ch "M") p then addr_flags fuel (S p) icase true
      else (p, icase, multi)
  end.

Definition scan_at (p : nat) : nat * Z := Scan.scan_ulong (drop p buf).

Definition sed_addr_parse (p : nat) : res (nat * sed_addr) :=
  if is_digit (rd p) then
    let '(used, v) := scan_at p in
    if (used =? 0)%nat then Err SED_EADDR
    else
      let p := (p + used)%nat in
      if at_c (ch "~") p then
        let '(used, step) := scan_at (S p) in
        if (used =? 0)%nat then Err SED_EADDR else Ok ((p + 1 + used)%nat, SA_STEP v step)
      else Ok (p, SA_LINE v)
  else if rd p =? ch "~" then
    let '(used, v) := scan_at (S p) in
    if (used =? 0)%nat then Err SED_EADDR else Ok ((p + 1 + used)%nat, SA_MULT 0 v)
  else if rd p =? ch "$" then Ok (S p, SA_LAST)
  else
    let* x := (if rd p =? ch "/" then Ok (ch "/", S p)
               else if (rd p =? ch "\") && lt (S p) then Ok (rd (S p), (p + 2)%nat)
               else Err SED_EADDR) in
    let '(delim, p) := x in
    let* x := addr_pattern (S (S (e - p))) delim p [] in
    let '(p, pat) := x in
    let '(p, icase, multi) := addr_flags (e - p) p (has flags SED_ICASE) (has flags SED_MULTI) in
    if (List.length pat =? 0)%nat then Ok (p, SA_REGEX None)
    else
      let* d := compile_re pat (regex_flags (has flags SED_ERE) icase multi) in
      Ok (p, SA_REGEX (Some d)).

(** ** The arguments of commands *)

(** sed_text_parse *)
Fixpoint text_loop (fuel p : nat) (out : bytes) : nat * bytes :=
  match fuel with
  | O => (p, out)
  | S fuel =>
      if lt p && not_nl (rd p) then
        if (rd p =? ch "\") && lt (S p) then text_loop fuel (p + 2) (out ++ [rd (S p)])
        else text_loop fuel (S p) (out ++ [rd p])
      else (if lt p then S p else p, out)
  end.

Definition sed_text_parse (p : nat) : nat * bytes :=
  let p := skip_blank p in
  let p := if (at_c (ch "\") p) && lt (S p) && (rd (S p) =? 10) then (p + 2)%nat else p in
  text_loop (S (e - p)) p [].

(** The pattern of an s command *)
Fixpoint subst_pattern (fuel : nat) (delim : Z) (p : nat) (pat : bytes) : res (nat * bytes) :=
  match fuel with
  | O => Fuel
  | S fuel =>
      if negb (lt p) then Err SED_EUNTERM
      else if rd p =? delim then Ok (S p, pat)
      else if (rd p =? ch "\") && lt (S p) then
        if rd (S p) =? delim then subst_pattern fuel delim (p + 2) (pat ++ [delim])
        else if (rd (S p) =? 10) || (rd (S p) =? ch "n") then subst_pattern fuel delim (p + 2) (pat ++ [10])
        else subst_pattern fuel delim (p + 2) (pat ++ [rd p; rd (S p)])
      else if rd p =? 10 then Err SED_EUNTERM
      else subst_pattern fuel delim (S p) (pat ++ [rd p])
  end.

(** Its replacement, which keeps its backslashes *)
Fixpoint subst_repl (fuel : nat) (delim : Z) (p : nat) : res nat :=
  match fuel with
  | O => Fuel
  | S fuel =>
      if negb (lt p) then Err SED_EUNTERM
      else if rd p =? delim then Ok p
      else if (rd p =? ch "\") && lt (S p) then subst_repl fuel delim (p + 2)
      else if rd p =? 10 then Err SED_EUNTERM
      else subst_repl fuel delim (S p)
  end.

(** Its flags *)
Fixpoint subst_flags (fuel p : nat) (s : sed_subst) (files : list bytes)
    : res (nat * sed_subst * list bytes) :=
  match fuel with
  | O => Fuel
  | S fuel =>
      let '(Subst re repl g pr i m nth w) := s in
      if lt p && is_digit (rd p) then
        let '(used, v) := scan_at p in
        subst_flags fuel (p + used) (Subst re repl g pr i m (u32 v) w) files
      else if at_c (ch "g") p then subst_flags fuel (S p) (Subst re repl true pr i m nth w) files
      else if at_c (ch "p") p then subst_flags fuel (S p) (Subst re repl g true i m nth w) files
      else if at_c (ch "i") p || at_c (ch "I") p then
        subst_flags fuel (S p) (Subst re repl g pr true m nth w) files
      else if at_c (ch "m") p || at_c (ch "M") p then
        subst_flags fuel (S p) (Subst re repl g pr i true nth w) files
      else if at_c (ch "w") p then
        let name := skip_blank (S p) in
        let p := skip_all not_nl name in
        if (p =? name)%nat then Err SED_EUNTERM
        else
          let '(files, idx) := sed_wfile_intern files (sub name p) in
          Ok (p, Subst re repl g pr i m nth (Some idx), files)
      else Ok (p, s, files)
  end.

Definition bad_delim (c : Z) : bool := (c =? ch "\") || (c =? 10).

Definition sed_subst_parse (p : nat) (files : list bytes) : res (nat * sed_subst * list bytes) :=
  if negb (lt p) || bad_delim (rd p) then Err SED_EDELIM
  else
    let delim := rd p in
    let* x := subst_pattern (S (S (e - S p))) delim (S p) [] in
    let '(start, pat) := x in
    let* p := subst_repl (S (S (e - start))) delim start in
    let tmpl := sub start p in
    let* x := subst_flags (S (S (e - p))) (S p) (Subst None repl_empty false false false false 0 None) files in
    let '(p, Subst _ _ g pr i m nth w, files) := x in
    let* re := (if (List.length pat =? 0)%nat then Ok None
                else let* d := compile_re pat (regex_flags (has flags SED_ERE) i m) in Ok (Some d)) in
    let* repl := compile_repl tmpl in
    Ok (p, Subst re repl g pr i m nth w, files).

(** y_list *)
Fixpoint y_list (fuel : nat) (delim : Z) (p : nat) (out : bytes) : res (nat * bytes) :=
  match fuel with
  | O => Fuel
  | S fuel =>
      if negb (lt p) then Err SED_EUNTERM
      else if rd p =? delim then Ok (S p, out)
      else if (rd p =? ch "\") && lt (S p) then
        let c := rd (S p) in
        let lit := if c =? delim then delim else if c =? ch "\" then ch "\"
                   else if c =? ch "n" then 10 else c in
        y_list fuel delim (p + 2) (out ++ [lit])
      else if rd p =? 10 then Err SED_EUNTERM
      else y_list fuel delim (S p) (out ++ [rd p])
  end.

(** [map[from[i]] = to[i]] *)
Fixpoint y_map (from to map : bytes) : bytes :=
  match from, to with
  | c :: from, d :: to => y_map from to (<[Z.to_nat c := d]> map)
  | _, _ => map
  end.

Definition y_identity : bytes := List.map Z.of_nat (List.seq 0 256).

Definition sed_y_parse (p : nat) : res (nat * bytes) :=
  if negb (lt p) || bad_delim (rd p) then Err SED_EDELIM
  else
    let delim := rd p in
    let* x := y_list (S (S (e - S p))) delim (S p) [] in
    let '(p, from) := x in
    let* x := y_list (S (S (e - p))) delim p [] in
    let '(p, to) := x in
    if (List.length from =? List.length to)%nat then Ok (p, y_map from to y_identity) else Err SED_EDELIM.

(** ** Commands *)

Record builder := Builder {
  b_cmds : list sed_cmd;
  b_braces : list nat;                                 (** the innermost first *)
  b_labels : list (bytes * nat);
  b_fixups : list (nat * bytes);                       (** an empty name: the end *)
  b_wfiles : list bytes
}.

Definition push_cmd (c : sed_cmd) (bd : builder) : builder :=
  Builder (b_cmds bd ++ [c]) (b_braces bd) (b_labels bd) (b_fixups bd) (b_wfiles bd).

Definition label_end (c : Z) : bool := negb ((c =? 10) || (c =? ch ";") || (c =? 32) || (c =? 9)).

(** The end of a label *)
Definition sed_parse_label (p : nat) : nat := skip_all label_end p.

Definition parse_addrs (p : nat) : res (nat * nat * sed_addr * sed_addr) :=
  if looks_like_addr p then
    let* x := sed_addr_parse p in
    let '(p, a1) := x in
    let p := skip_blank p in
    if at_c (ch ",") p then
      let* x := sed_addr_parse (skip_blank (S p)) in
      let '(p, a2) := x in
      Ok (p, 2%nat, a1, a2)
    else Ok (p, 1%nat, a1, SA_NONE)
  else Ok (p, 0%nat, SA_NONE, SA_NONE).

Fixpoint parse_negate (fuel p : nat) (negate : bool) : nat * bool :=
  match fuel with
  | O => (p, negate)
  | S fuel => if at_c (ch "!") p then parse_negate fuel (skip_blank (S p)) (negb negate) else (p, negate)
  end.

Definition is_plain (letter : Z) : bool := existsb (Z.eqb letter) (b "=dDgGhHnNpPxz").

(** The switch on the letter of [c], which is not yet in the list *)
Definition parse_letter (c : sed_cmd) (p : nat) (bd : builder) : res (nat * builder) :=
  let letter := c_letter c in
  let n := List.length (b_cmds bd) in                  (** the index of [c] *)
  let done u p := Ok (p, push_cmd (with_payload u c) bd) in
  if letter =? ch "{" then
    if (List.length (b_braces bd) =? SED_MAXNEST)%nat then Err SED_ESIZE
    else Ok (S p, Builder (b_cmds bd ++ [c]) (n :: b_braces bd) (b_labels bd) (b_fixups bd) (b_wfiles bd))
  else if letter =? ch "}" then
    match b_braces bd with
    | [] => Err SED_EBRACE
    | open :: braces =>
        if negb (c_naddr c =? 0)%nat || c_negate c then Err SED_EBRACE
        else Ok (S p, Builder (alter (with_jump n) open (b_cmds bd)) braces (b_labels bd) (b_fixups bd)
                        (b_wfiles bd))
    end
  else if letter =? ch ":" then
    if negb (c_naddr c =? 0)%nat then Err SED_ECMD
    else
      let name := skip_blank (S p) in
      let p := sed_parse_label name in
      if (p =? name)%nat then Err SED_ELABEL
      else Ok (p, Builder (b_cmds bd ++ [c]) (b_braces bd) (b_labels bd ++ [(sub name p, n)]) (b_fixups bd)
                    (b_wfiles bd))
  else if existsb (Z.eqb letter) (b "btT") then
    let name := skip_blank (S p) in
    let p := sed_parse_label name in
    Ok (p, Builder (b_cmds bd ++ [c]) (b_braces bd) (b_labels bd) (b_fixups bd ++ [(n, sub name p)])
             (b_wfiles bd))
  else if is_plain letter then done U_NONE (S p)
  else if (letter =? ch "q") || (letter =? ch "Q") then
    let p := skip_blank (S p) in
    let '(used, v) := if lt p && is_digit (rd p) then scan_at p else (0%nat, 0) in
    done (U_STATUS (i32 v)) (p + used)%nat
  else if existsb (Z.eqb letter) (b "aic") then
    let '(p, t) := sed_text_parse (S p) in done (U_TEXT t) p
  else if (letter =? ch "r") || (letter =? ch "w") then
    let name := skip_blank (S p) in
    let p := skip_all not_nl name in
    if (p =? name)%nat then Err SED_EUNTERM
    else if letter =? ch "r" then done (U_RFILE (sub name p)) p
    else
      let '(files, idx) := sed_wfile_intern (b_wfiles bd) (sub name p) in
      Ok (p, Builder (b_cmds bd ++ [with_payload (U_WFILE idx) c]) (b_braces bd) (b_labels bd) (b_fixups bd)
               files)
  else if letter =? ch "s" then
    let* x := sed_subst_parse (S p) (b_wfiles bd) in
    let '(p, s, files) := x in
    Ok (p, Builder (b_cmds bd ++ [with_payload (U_S s) c]) (b_braces bd) (b_labels bd) (b_fixups bd) files)
  else if letter =? ch "y" then
    let* x := sed_y_parse (S p) in
    let '(p, map) := x in
    done (U_Y map) p
  else if letter =? ch "l" then
    let p := skip_blank (S p) in
    if lt p && is_digit (rd p) then
      let '(used, v) := scan_at p in
      if i32 v =? INT_MAX then Undef else done (U_STATUS (i32 v + 1)) (p + used)%nat
    else done (U_STATUS 0) p
  else Err SED_ECMD.

Definition sed_parse_command (p : nat) (bd : builder) : res (nat * builder) :=
  let* x := parse_addrs p in
  let '(p, naddr, a1, a2) := x in
  let '(p, negate) := parse_negate (S (e - p)) (skip_blank p) false in
  if negb (lt p) then Err SED_ECMD
  else if (max_addr (rd p) <? naddr)%nat then Err SED_ECMD
  else parse_letter (Cmd (rd p) naddr negate a1 a2 0 false U_NONE) p bd.

Fixpoint parse_commands (fuel p : nat) (bd : builder) : res builder :=
  match fuel with
  | O => Fuel
  | S fuel =>
      let p := skip_sep p in
      if lt p then
        let* x := sed_parse_command p bd in
        let '(p, bd) := x in
        parse_commands fuel p bd
      else Ok bd
  end.

(** The command of a label *)
Fixpoint find_label (name : bytes) (labels : list (bytes * nat)) : option nat :=
  match labels with
  | [] => None
  | (l, i) :: labels => if bool_decide (l = name) then Some i else find_label name labels
  end.

Fixpoint resolve (labels : list (bytes * nat)) (n : nat) (fixups : list (nat * bytes)) (cmds : list sed_cmd)
    : res (list sed_cmd) :=
  match fixups with
  | [] => Ok cmds
  | (i, name) :: fixups =>
      if (List.length name =? 0)%nat then resolve labels n fixups (alter (with_jump n) i cmds)
      else
        match find_label name labels with
        | None => Err SED_ELABEL
        | Some j => resolve labels n fixups (alter (with_jump j) i cmds)
        end
  end.

(** "#n" on the first line *)
Definition hash_n : bool := (2 <=? e)%nat && (rd 0 =? ch "#") && (rd 1 =? ch "n") && ((e =? 2)%nat || (rd 2 =? 10)).

Definition sed_parse : res sed :=
  let autoprint_off := has flags SED_NOAUTOPRINT || hash_n in
  let p := if hash_n then (if (e =? 2)%nat then 2%nat else 3%nat) else 0%nat in
  let* bd := parse_commands (S (e - p)) p (Builder [] [] [] [] []) in
  if negb (List.length (b_braces bd) =? 0)%nat then Err SED_EBRACE
  else
    let* cmds := resolve (b_labels bd) (List.length (b_cmds bd)) (b_fixups bd) (b_cmds bd) in
    Ok (Sed cmds flags autoprint_off (b_wfiles bd)).

Definition sed_compile : res sed := sed_parse.

End Parse.

(** sed_error *)
Definition sed_error (code : Z) : bytes :=
  nth (Z.to_nat code)
    [b "no error"; b "out of memory"; b "invalid address";
     b "unknown command, or wrong number of addresses for it"; b "undefined label"; b "unbalanced { }";
     b "invalid s/// or y/// delimiters"; b "unterminated command"; b "invalid regular expression";
     b "script too large"] (b "unknown error").
