(* ===== verification/SedParse.v ===== *)
(** * What compiling a sed script returns (text/sed/sed_parse.c, sed_addr.c, sed_subst.c)

    Every function of the parser ends with an error code or reads on
    ([yields]); the list of commands it builds is well formed ([cmd_ok]): the
    payload fits the letter, jumps stay in the list, a "{" jumps forward, and
    the files written to are numbered. *)

From S2P Require Import Prelude Scan Dfa DfaParse DfaRun DfaReplace DfaSubst Sed.

#[local] Open Scope shish_scope.

(** ** Results *)

(** [U] is what undefined behaviour would take. *)
Definition yields {A} (U : Prop) (P : A -> Prop) (r : res A) : Prop :=
  match r with Ok a => P a | Err code => SED_EADDR <= code <= SED_ESIZE | Undef => U | Fuel => False end.

Lemma yields_bind {A B} U (Q : A -> Prop) (P : B -> Prop) r f :
  yields U Q r -> (forall a, Q a -> yields U P (f a)) -> yields U P (rbind r f).
Proof. destruct r; cbn; auto. Qed.

Lemma yields_impl {A} U (P Q : A -> Prop) r : yields U P r -> (forall a, P a -> Q a) -> yields U Q r.
Proof. destruct r; cbn; auto. Qed.

Lemma yields_err {A} U (P : A -> Prop) code : (SED_EADDR <=? code) && (code <=? SED_ESIZE) = true ->
  yields U P (@Err A code).
Proof. cbn. lia. Qed.

Create HintDb sed.
#[export] Hint Extern 2 (yields _ _ (Err _)) => apply yields_err; reflexivity : sed.

(** ** Templates *)

(** Every backslash has a byte behind it. *)
Fixpoint paired (l : bytes) : Prop :=
  match l with
  | [] => True
  | c :: l => if c =? ch "\" then match l with [] => False | _ :: l => paired l end else paired l
  end.

Definition plain_byte (c : Z) : Prop := c <> ch "\".

Lemma paired_drop k l : paired l -> Forall plain_byte (take k l) -> paired (drop k l).
Proof.
  revert l. induction k as [|k IH]; intros l P F; [done|]. destruct l as [|c l]; [done|].
  cbn [take] in F. apply Forall_cons in F as [N F]. cbn [paired drop] in *.
  unfold plain_byte in N. destruct (Z.eqb_spec c (ch "\")); [done|]. by apply IH.
Qed.

Lemma plain_run_bytes l : Forall plain_byte (take (List.length (plain_run l)) l).
Proof.
  induction l as [|c l IH]; [constructor|]. cbn [plain_run].
  destruct (Z.eqb_spec c (ch "&")); [constructor|]. destruct (Z.eqb_spec c (ch "\")); [constructor|].
  cbn. by constructor.
Qed.

Lemma escape_digits_plain l base digits n got : base <= 99 ->
  let g := snd (escape_digits l base digits n got) in
  (got <= g)%nat /\ Forall plain_byte (take (g - got) l).
Proof.
  intros B. revert l n got. induction digits as [|digits IH]; intros l n got; cbv zeta; cbn [escape_digits].
  - destruct l; cbn [escape_digits snd]; rewrite Nat.sub_diag; (split; [lia|constructor]).
  - destruct l as [|c l]; cbn [escape_digits snd]; [rewrite Nat.sub_diag; split; [lia|constructor]|].
    destruct (Z.leb_spec base (digit_value c)) as [|D]; [cbn [snd]; rewrite Nat.sub_diag; split; [lia|constructor]|].
    destruct (IH l (n * base + digit_value c) (S got)) as [L F]. split; [lia|].
    destruct (snd _) as [|g]; [lia|]. replace (S g - got)%nat with (S (S g - S got)) by lia.
    cbn [take]. constructor; [|exact F]. intros ->. change (digit_value (ch "\")) with 99 in D. lia.
Qed.

Lemma repl_escape_plain_bytes flags c rest r : Forall plain_byte (take (snd (repl_escape flags c rest r)) rest).
Proof.
  unfold repl_escape. destruct (_ && _); [constructor|]. destruct (_ || _); [constructor|].
  destruct (negb _); [constructor|]. destruct (repl_char_escape c); [constructor|].
  destruct (repl_base c) as [[base maxd]|] eqn:Bs, rest as [|x rest];
    try (destruct (repl_case_op c); constructor).
  assert (base <= 99).
  { unfold repl_base in Bs. repeat (destruct (_ =? _) in Bs; [injection Bs as <- _; lia|]). done. }
  pose proof (escape_digits_plain (x :: rest) base maxd 0 0 ltac:(done)) as [_ F].
  destruct (escape_digits (x :: rest) base maxd 0 0) as [v got]. cbn [snd] in F. rewrite Nat.sub_0_r in F.
  destruct (_ <? _)%nat; [exact F|constructor].
Qed.

Lemma repl_paired_ends fuel flags p r : (List.length p < fuel)%nat -> paired p -> is_Some (repl_loop fuel flags p r).
Proof.
  revert p r. induction fuel as [|fuel IH]; intros p r L P; [lia|]. cbn [repl_loop].
  destruct p as [|c p]; [by eexists|]. cbn [List.length] in L.
  destruct (Z.eqb_spec c (ch "&")) as [->|N1]; [apply IH; [lia|exact P]|].
  assert (Run : c <> ch "\" -> is_Some (repl_loop fuel flags
     (drop (List.length (plain_run (c :: p))) (c :: p)) (repl_addliteral (plain_run (c :: p)) r))).
  { intros N2. apply IH; [|by apply paired_drop; [|apply plain_run_bytes]]. cbn [plain_run].
    destruct (Z.eqb_spec c (ch "&")); [done|]. destruct (Z.eqb_spec c (ch "\")); [done|].
    cbn. rewrite length_drop. lia. }
  destruct p as [|x p].
  - apply Run. intros ->. by cbn in P.
  - destruct (Z.eqb_spec c (ch "\")) as [->|N2]; [|by apply Run]. cbn [paired] in P.
    pose proof (repl_escape_plain_bytes flags x p r) as F. destruct (repl_escape flags x p r) as [r' k].
    apply IH; [rewrite length_drop; cbn in L; lia|]. by apply paired_drop.
Qed.

Lemma compile_repl_paired t U : paired t -> yields U (fun _ => True) (compile_repl t).
Proof.
  intros P. unfold compile_repl, dfa_repl_compile.
  destruct (repl_paired_ends (S (List.length t)) DFA_REPL_BACKREF t repl_empty (Nat.lt_succ_diag_r _) P) as [r ->].
  done.
Qed.

(** ** Well-formed commands *)

Definition from_pattern (d : dfa) : Prop :=
  exists pat flags, Forall is_byte pat /\ dfa_compile pat flags = Some (inl d).

Definition addr_ok (a : sed_addr) : Prop :=
  match a with SA_REGEX (Some d) => from_pattern d | _ => True end.

Definition one_of (c : Z) (l : string) : Prop := existsb (Z.eqb c) (b l) = true.

Definition subst_ok (nf : nat) (s : sed_subst) : Prop :=
  (forall d, s_re s = Some d -> from_pattern d) /\ (forall i, s_wfile s = Some i -> (i < nf)%nat) /\ 0 <= s_nth s.

Definition payload_ok (nf : nat) (letter : Z) (u : payload) : Prop :=
  match u with
  | U_NONE => one_of letter "{:btT=dDgGhHnNpPxz"
  | U_S s => letter = ch "s" /\ subst_ok nf s
  | U_Y map => letter = ch "y" /\ List.length map = 256%nat /\ Forall is_byte map
  | U_TEXT t => one_of letter "aic" /\ Forall is_byte t
  | U_WFILE i => letter = ch "w" /\ (i < nf)%nat
  | U_RFILE name => letter = ch "r" /\ Forall is_byte name
  | U_STATUS _ => one_of letter "qQl"
  end.

Record cmd_ok (nf : nat) (c : sed_cmd) : Prop := {
  co_naddr : (c_naddr c <= max_addr (c_letter c))%nat;
  co_a1 : addr_ok (c_a1 c);
  co_a2 : addr_ok (c_a2 c);
  co_range : c_in_range c = false;
  co_payload : payload_ok nf (c_letter c) (c_u c)
}.

(** The jumps of a program of [n] commands: of the command at [i] *)
Definition jump_ok (n i : nat) (c : sed_cmd) : Prop :=
  (c_jump c <= n)%nat /\ (c_letter c = ch "{" -> (i < c_jump c)%nat).

Record program_wf (p : sed) : Prop := {
  pw_cmds : Forall (cmd_ok (List.length (sed_wfiles p))) (sed_cmds p);
  pw_jumps : forall i c, sed_cmds p !! i = Some c -> jump_ok (List.length (sed_cmds p)) i c;
  pw_wfiles : NoDup (sed_wfiles p)
}.

Record builder_ok (bd : builder) : Prop := {
  bo_cmds : Forall (cmd_ok (List.length (b_wfiles bd))) (b_cmds bd);
  bo_jumps : forall i c, b_cmds bd !! i = Some c -> (c_jump c <= List.length (b_cmds bd))%nat /\
    (c_letter c = ch "{" -> i ∈ b_braces bd \/ (i < c_jump c)%nat);
  bo_braces : Forall (fun i => (i < List.length (b_cmds bd))%nat) (b_braces bd);
  bo_labels : Forall (fun l => (snd l < List.length (b_cmds bd))%nat) (b_labels bd);
  bo_fixups : Forall (fun f => exists c, b_cmds bd !! fst f = Some c /\ c_letter c <> ch "{") (b_fixups bd);
  bo_wfiles : NoDup (b_wfiles bd)
}.

Lemma payload_mono nf nf' letter u : (nf <= nf')%nat -> payload_ok nf letter u -> payload_ok nf' letter u.
Proof.
  intros L. destruct u; cbn; auto; intros [E H]; (split; [exact E|]); [|lia].
  destruct H as (R & W & N). split_and!; [done| |done]. intros i E'. pose proof (W i E'). lia.
Qed.

Lemma cmd_mono nf nf' c : (nf <= nf')%nat -> cmd_ok nf c -> cmd_ok nf' c.
Proof. intros L [? ? ? ? P]. split; [done..|]. by eapply payload_mono. Qed.

Lemma cmd_jump nf n c : cmd_ok nf (with_jump n c) <-> cmd_ok nf c.
Proof. split; intros [? ? ? ? ?]; by split. Qed.

Lemma alter_forall {A} (P : A -> Prop) f i (l : list A) : Forall P l -> (forall x, P x -> P (f x)) ->
  Forall P (alter f i l).
Proof. intros F H. apply Forall_alter; [done|]. auto. Qed.

(** ** Files *)

Lemma wfile_index_spec name l i :
  match wfile_index name l i with
  | Some j => (i <= j < i + List.length l)%nat
  | None => name ∉ l
  end.
Proof.
  revert i. induction l as [|f l IH]; intros i; cbn [wfile_index]; [apply not_elem_of_nil|].
  case_bool_decide as E; [cbn; lia|]. specialize (IH (S i)). destruct (wfile_index name l (S i)); [cbn; lia|].
  apply not_elem_of_cons. by split.
Qed.

Lemma intern_ok files name : NoDup files ->
  NoDup (fst (sed_wfile_intern files name)) /\
  (snd (sed_wfile_intern files name) < List.length (fst (sed_wfile_intern files name)))%nat /\
  (List.length files <= List.length (fst (sed_wfile_intern files name)))%nat.
Proof.
  intros N. unfold sed_wfile_intern. pose proof (wfile_index_spec name files 0) as H.
  destruct (wfile_index name files 0); cbn [fst snd]; [split_and!; [done|lia|lia]|].
  rewrite length_app. cbn. split_and!; [|lia|lia]. apply NoDup_app. split_and!; [done| |apply NoDup_singleton].
  intros x X Y%list_elem_of_singleton. by subst.
Qed.

(** ** The parser *)

Section Parse.
Context (buf : bytes) (e : nat) (flags : Z) (Bytes : Forall is_byte buf) (Len : (e <= List.length buf)%nat).

(** What makes the command l overflow *)
Definition overflow : Prop := exists p, i32 (snd (scan_at buf p)) = INT_MAX.

Lemma rd_byte p : is_byte (rd buf p).
Proof.
  unfold rd, cnth. destruct (nth_in_or_default p buf 0) as [H| ->]; [|unfold is_byte; lia].
  by apply (proj1 (Forall_forall _ _) Bytes), list_elem_of_In.
Qed.

Lemma lt_spec p : lt e p = true <-> (p < e)%nat.
Proof. unfold lt. apply Nat.ltb_lt. Qed.

Lemma at_c_lt c p : at_c buf e c p = true -> (p < e)%nat.
Proof. unfold at_c. intros [H _]%andb_true_iff. by apply lt_spec. Qed.

Lemma sub_bytes p q : Forall is_byte (sub buf p q).
Proof. unfold sub. by apply Forall_take, Forall_drop. Qed.

Lemma sub_cons p q : (p < q)%nat -> (p < e)%nat -> sub buf p q = rd buf p :: sub buf (S p) q.
Proof.
  intros L L'. unfold sub, rd. destruct (lookup_lt_is_Some_2 buf p ltac:(lia)) as [x X].
  rewrite cnth_lookup, X. rewrite (drop_S _ _ _ X). replace (q - p)%nat with (S (q - S p)) by lia. done.
Qed.

Lemma skip_while_ge f fuel p : (p <= skip_while buf e f fuel p)%nat.
Proof.
  revert p. induction fuel as [|fuel IH]; intros p; cbn; [done|]. destruct (_ && _); [|done].
  specialize (IH (S p)). lia.
Qed.

Lemma skip_all_ge f p : (p <= skip_all buf e f p)%nat.
Proof. apply skip_while_ge. Qed.

Lemma skip_sep_ge p : (p <= skip_sep buf e p)%nat.
Proof.
  unfold skip_sep. generalize (S (e - p)). intros fuel. revert p. induction fuel as [|fuel IH]; intros p; cbn [skip_sep_loop];
    pose proof (skip_all_ge is_space p) as G; fold (skip_blank buf e p) in G; [done|].
  destruct (_ || _); [specialize (IH (S (skip_blank buf e p))); lia|]. destruct (at_c _ _ _ _); [|done].
  pose proof (skip_all_ge not_nl (skip_blank buf e p)). specialize (IH (skip_all buf e not_nl (skip_blank buf e p))). lia.
Qed.

Lemma compile_re_ok pat fl U : Forall is_byte pat -> yields U from_pattern (compile_re pat fl).
Proof.
  intros B. unfold compile_re. destruct (compile_ok pat fl B) as (r & C & _). rewrite C.
  destruct r as [d|]; cbn; [by exists pat, fl|]. unfold SED_EADDR, SED_EREGEX, SED_ESIZE. lia.
Qed.

Ltac bytes := repeat first [apply Forall_app; split | apply Forall_cons; split | apply Forall_nil_2 | apply rd_byte | assumption].

(** A loop that reads up to a delimiter *)
Lemma addr_pattern_ok U fuel delim p pat : is_byte delim -> Forall is_byte pat -> (e - p + 1 < fuel)%nat ->
  yields U (fun x => (p < fst x)%nat /\ Forall is_byte (snd x)) (addr_pattern buf e fuel delim p pat).
Proof.
  intros Dl. revert p pat. induction fuel as [|fuel IH]; intros p pat B L; [lia|]. cbn [addr_pattern].
  destruct (lt e p) eqn:Lt; cbn [negb]; [|auto with sed]. apply lt_spec in Lt.
  assert (Step : forall q pat', (p < q)%nat -> Forall is_byte pat' ->
    yields U (fun x => (p < fst x)%nat /\ Forall is_byte (snd x)) (addr_pattern buf e fuel delim q pat')).
  { intros q pat' L' B'. eapply yields_impl; [apply IH; [done|lia]|]. intros a [? ?]. split; [lia|done]. }
  destruct (_ =? _); [by cbn; split; [lia|]|].
  repeat case_match; apply Step; try lia; bytes; by unfold is_byte.
Qed.

Lemma subst_pattern_ok U fuel delim p pat : is_byte delim -> Forall is_byte pat -> (e - p + 1 < fuel)%nat ->
  yields U (fun x => (p < fst x)%nat /\ Forall is_byte (snd x)) (subst_pattern buf e fuel delim p pat).
Proof.
  intros Dl. revert p pat. induction fuel as [|fuel IH]; intros p pat B L; [lia|]. cbn [subst_pattern].
  destruct (lt e p) eqn:Lt; cbn [negb]; [|auto with sed]. apply lt_spec in Lt.
  assert (Step : forall q pat', (p < q)%nat -> Forall is_byte pat' ->
    yields U (fun x => (p < fst x)%nat /\ Forall is_byte (snd x)) (subst_pattern buf e fuel delim q pat')).
  { intros q pat' L' B'. eapply yields_impl; [apply IH; [done|lia]|]. intros a [? ?]. split; [lia|done]. }
  destruct (_ =? _); [by cbn; split; [lia|]|].
  repeat case_match; try (by auto with sed); apply Step; try lia; bytes; by unfold is_byte.
Qed.

Lemma y_list_ok U fuel delim p out : is_byte delim -> Forall is_byte out -> (e - p + 1 < fuel)%nat ->
  yields U (fun x => (p < fst x)%nat /\ Forall is_byte (snd x)) (y_list buf e fuel delim p out).
Proof.
  intros Dl. revert p out. induction fuel as [|fuel IH]; intros p out B L; [lia|]. cbn [y_list].
  destruct (lt e p) eqn:Lt; cbn [negb]; [|auto with sed]. apply lt_spec in Lt.
  assert (Step : forall q out', (p < q)%nat -> Forall is_byte out' ->
    yields U (fun x => (p < fst x)%nat /\ Forall is_byte (snd x)) (y_list buf e fuel delim q out')).
  { intros q out' L' B'. eapply yields_impl; [apply IH; [done|lia]|]. intros a [? ?]. split; [lia|done]. }
  destruct (_ =? _); [by cbn; split; [lia|]|].
  destruct (_ && _); [apply Step; [lia|]|destruct (_ =? _); [by auto with sed|apply Step; [lia|bytes]]].
  apply Forall_app. split; [done|]. constructor; [|constructor]. repeat case_match; try done; apply rd_byte.
Qed.

Lemma subst_repl_ok U fuel delim p : (e - p + 1 < fuel)%nat ->
  yields U (fun q => (p <= q < e)%nat /\ paired (sub buf p q)) (subst_repl buf e fuel delim p).
Proof.
  revert p. induction fuel as [|fuel IH]; intros p L; [lia|]. cbn [subst_repl].
  destruct (lt e p) eqn:Lt; cbn [negb]; [|auto with sed]. apply lt_spec in Lt.
  destruct (_ =? _); [cbn; split; [lia|]; unfold sub; by rewrite Nat.sub_diag|].
  destruct (Z.eqb_spec (rd buf p) (ch "\")) as [Bk|Bk]; cbn [andb].
  - destruct (lt e (S p)) eqn:Lt'; [apply lt_spec in Lt'|].
    + eapply yields_impl; [apply IH; lia|]. intros q [R P]. split; [lia|].
      rewrite !sub_cons by lia. cbn [paired]. rewrite Bk, Z.eqb_refl. by replace (S (S p)) with (p + 2)%nat by lia.
    + rewrite Bk. change (ch "\" =? 10) with false. cbn iota. destruct fuel; [lia|]. cbn [subst_repl].
      rewrite Lt'. cbn [negb]. auto with sed.
  - destruct (_ =? _); [auto with sed|]. eapply yields_impl; [apply IH; lia|]. intros q [R P]. split; [lia|].
    rewrite sub_cons by lia. cbn [paired]. by destruct (Z.eqb_spec (rd buf p) (ch "\")).
Qed.

Lemma addr_flags_ge fuel p ic mu : (p <= fst (fst (addr_flags buf e fuel p ic mu)))%nat.
Proof.
  revert p ic mu. induction fuel as [|fuel IH]; intros p ic mu; cbn; [done|].
  destruct (at_c _ _ _ _); [pose proof (IH (S p) true mu); lia|].
  destruct (at_c _ _ _ _); [pose proof (IH (S p) ic true); lia|done].
Qed.

Definition reads {A} (p : nat) (P : A -> Prop) (x : nat * A) : Prop := (p < fst x)%nat /\ P (snd x).

Lemma sed_addr_parse_ok U p : yields U (reads p addr_ok) (sed_addr_parse buf e flags p).
Proof.
  unfold sed_addr_parse.
  destruct (is_digit _).
  { destruct (scan_at buf p) as [used v]. destruct (Nat.eqb_spec used 0); [auto with sed|].
    destruct (at_c _ _ _ _); [|cbn; split; [cbn; lia|done]]. destruct (scan_at _ _) as [used' v'].
    destruct (Nat.eqb_spec used' 0); [auto with sed|]. cbn. split; [cbn; lia|done]. }
  destruct (_ =? ch "~").
  { destruct (scan_at buf (S p)) as [used v]. destruct (Nat.eqb_spec used 0); [auto with sed|]. cbn. split; [cbn; lia|done]. }
  destruct (_ =? ch "$"); [cbn; split; [cbn; lia|done]|].
  apply (yields_bind _ (fun x => is_byte (fst x) /\ (p < snd x)%nat)).
  { destruct (_ =? _); [cbn; split; [by unfold is_byte|lia]|].
    destruct (_ && _); [|auto with sed]. cbn. split; [apply rd_byte|lia]. }
  intros [delim q] [Dl L]. cbn in Dl, L.
  eapply yields_bind; [apply addr_pattern_ok; [done|constructor|lia]|]. intros [q' pat] [L' B]. cbn in L', B.
  pose proof (addr_flags_ge (e - q') q' (has flags SED_ICASE) (has flags SED_MULTI)) as G.
  destruct (addr_flags _ _ _ _ _ _) as [[q'' ic] mu]. cbn in G.
  destruct (_ =? _)%nat; [cbn; split; [cbn; lia|done]|].
  eapply yields_bind; [by apply compile_re_ok|]. intros d D. cbn. split; [cbn; lia|done].
Qed.

Lemma text_loop_ok fuel p out : Forall is_byte out ->
  (p <= fst (text_loop buf e fuel p out))%nat /\ Forall is_byte (snd (text_loop buf e fuel p out)).
Proof.
  revert p out. induction fuel as [|fuel IH]; intros p out B; cbn [text_loop]; [done|].
  destruct (_ && _); [|destruct (lt e p); cbn; split; (lia || done)].
  destruct (_ && _); [destruct (IH (p + 2)%nat (out ++ [rd buf (S p)])); [bytes|split; [lia|done]]|].
  destruct (IH (S p) (out ++ [rd buf p])); [bytes|split; [lia|done]].
Qed.

Lemma scan_digit p : (p < e)%nat -> is_digit (rd buf p) = true -> (0 < fst (scan_at buf p))%nat.
Proof.
  intros L D. unfold scan_at, Scan.scan_ulong, Scan.scan_ulongn, rd in *.
  destruct (lookup_lt_is_Some_2 buf p ltac:(lia)) as [x X]. rewrite cnth_lookup, X in D. cbn in D.
  rewrite (drop_S _ _ _ X). cbn [List.length Scan.ulong_loop].
  unfold is_digit in D. assert (U : u8 (x - 48) = x - 48) by (unfold u8; rewrite Z.mod_small; lia).
  rewrite U. destruct (Z.ltb_spec (x - 48) 10); [|lia].
  assert (St : exists l, Scan.ulong_step 0 (x - 48) = Some l).
  { unfold Scan.ulong_step. change (u64 (0 ≪ 3)) with 0. change (negb _) with false. cbn iota.
    change (u64 (0 + u64 (0 ≪ 1))) with 0. rewrite Z.add_0_l. unfold u64.
    rewrite Z.mod_small by lia. destruct (Z.ltb_spec (x - 48) 0); [lia|by eexists]. }
  destruct St as [l ->].
  assert (G : forall s n l k, (k <= fst (Scan.ulong_loop s n l k))%nat).
  { clear. induction s as [|y s IH]; intros n l k; destruct n; cbn [Scan.ulong_loop]; try (cbn; lia).
    destruct (_ <? _); [|cbn; lia]. destruct (Scan.ulong_step _ _); [|cbn; lia]. etrans; [|apply IH]. lia. }
  apply (G _ _ l 1%nat).
Qed.

Lemma subst_flags_ok U fuel p s files : NoDup files -> subst_ok (List.length files) s -> (e - p < fuel)%nat ->
  yields U (fun x => (p <= fst (fst x))%nat /\ NoDup (snd x) /\ subst_ok (List.length (snd x)) (snd (fst x)) /\
    (List.length files <= List.length (snd x))%nat) (subst_flags buf e fuel p s files).
Proof.
  revert p s files. induction fuel as [|fuel IH]; intros p s files N S L; [lia|]. cbn [subst_flags].
  destruct s as [re repl g pr i m nth w]. destruct S as (R & W & Nn). cbn in R, W, Nn.
  assert (Step : forall q s', (p < q)%nat -> (p < e)%nat -> subst_ok (List.length files) s' ->
    yields U (fun x => (p <= fst (fst x))%nat /\ NoDup (snd x) /\ subst_ok (List.length (snd x)) (snd (fst x)) /\
      (List.length files <= List.length (snd x))%nat) (subst_flags buf e fuel q s' files)).
  { intros q s' L' L2 S'. eapply yields_impl; [apply IH; [done|done|lia]|]. intros x (? & ? & ? & ?). split_and!; done || lia. }
  destruct (lt e p) eqn:Lt.
  2:{ unfold at_c. rewrite Lt. cbn. by split_and!. }
  apply lt_spec in Lt. cbn [andb]. destruct (is_digit _) eqn:D.
  { pose proof (scan_digit p Lt D). destruct (scan_at buf p) as [used v]. cbn in *. apply Step; [lia|done|].
    split_and!; cbn; [done|done|]. unfold u32. by apply Z.mod_pos_bound. }
  destruct (at_c _ _ _ _); [by apply Step; [lia|done|split_and!]|].
  destruct (at_c _ _ _ _); [by apply Step; [lia|done|split_and!]|].
  destruct (_ || _); [by apply Step; [lia|done|split_and!]|].
  destruct (_ || _); [by apply Step; [lia|done|split_and!]|].
  destruct (at_c _ _ _ _); [|by cbn; split_and!].
  pose proof (skip_all_ge is_space (S p)) as G1. fold (skip_blank buf e (S p)) in G1.
  set (name := skip_blank buf e (S p)) in *. pose proof (skip_all_ge not_nl name) as G2.
  destruct (_ =? _)%nat; [auto with sed|].
  pose proof (intern_ok files (sub buf name (skip_all buf e not_nl name)) N) as (N' & I & Ln).
  destruct (sed_wfile_intern files _) as [files' idx]. cbn in *. split_and!; [lia|done| |done].
  split_and!; cbn; [done| |done]. by intros ? [= <-].
Qed.

Lemma bad_delim_at p : negb (lt e p) || bad_delim (rd buf p) = false -> (p < e)%nat.
Proof. intros [L _]%orb_false_iff. apply negb_false_iff in L. by apply lt_spec. Qed.

Lemma sed_subst_parse_ok U p files : NoDup files ->
  yields U (fun x => (p < fst (fst x))%nat /\ NoDup (snd x) /\ subst_ok (List.length (snd x)) (snd (fst x)) /\
    (List.length files <= List.length (snd x))%nat) (sed_subst_parse buf e flags p files).
Proof.
  intros N. unfold sed_subst_parse. destruct (_ || _) eqn:Dl; [auto with sed|]. apply bad_delim_at in Dl.
  eapply yields_bind; [apply subst_pattern_ok; [apply rd_byte|constructor|lia]|]. intros [st pat] [L B]. cbn in L, B.
  eapply yields_bind; [apply subst_repl_ok; lia|]. intros q [R P]. cbn in R.
  eapply yields_bind; [apply subst_flags_ok; [exact N|by split_and!|lia]|].
  intros [[q' s] files'] (L' & N' & S' & Lf). cbn in L', N', S', Lf. destruct s as [re repl g pr i m nth w].
  eapply (yields_bind _ (fun re => forall d, re = Some d -> from_pattern d)).
  { destruct (_ =? _)%nat; [done|]. eapply yields_bind; [by apply compile_re_ok|]. intros d D. cbn. by intros ? [= <-]. }
  intros re' R'. eapply yields_bind; [by apply compile_repl_paired|]. intros rp _. cbn.
  split_and!; [lia|done| |done]. destruct S' as (_ & W & Nn). by split_and!.
Qed.

Lemma y_map_ok from to map : Forall is_byte to -> Forall is_byte map ->
  List.length (y_map from to map) = List.length map /\ Forall is_byte (y_map from to map).
Proof.
  revert to map. induction from as [|c from IH]; intros to map T M; [by destruct to|]. destruct to as [|d to]; [done|].
  cbn [y_map]. apply Forall_cons in T as [D T]. destruct (IH to (<[Z.to_nat c:=d]> map) T) as [L F].
  - by apply Forall_insert.
  - by rewrite length_insert in L.
Qed.

Lemma sed_y_parse_ok U p :
  yields U (reads p (fun map => List.length map = 256%nat /\ Forall is_byte map)) (sed_y_parse buf e p).
Proof.
  unfold sed_y_parse. destruct (_ || _) eqn:Dl; [auto with sed|]. apply bad_delim_at in Dl.
  eapply yields_bind; [apply y_list_ok; [apply rd_byte|constructor|lia]|]. intros [q from] [L B]. cbn in L, B.
  eapply yields_bind; [apply y_list_ok; [apply rd_byte|constructor|lia]|]. intros [q' to] [L' B']. cbn in L', B'.
  destruct (_ =? _)%nat; [|auto with sed]. split; [cbn [fst]; lia|cbn [snd]].
  destruct (y_map_ok from to y_identity B') as [E F]; [|by rewrite E].
  unfold y_identity. apply Forall_map, Forall_seq. intros j J. unfold is_byte. lia.
Qed.

(** ** Commands *)

Lemma one_of_in letter (l m : string) : existsb (Z.eqb letter) (b l) = true ->
  forallb (fun c => existsb (Z.eqb c) (b m)) (b l) = true -> one_of letter m.
Proof.
  intros H F. apply existsb_exists in H as (x & I & ->%Z.eqb_eq). rewrite forallb_forall in F. by apply F.
Qed.

Lemma not_brace letter (l : string) : existsb (Z.eqb letter) (b l) = true ->
  forallb (fun c => negb (c =? ch "{")) (b l) = true -> letter <> ch "{".
Proof.
  intros H F ->. apply existsb_exists in H as (x & I & E%Z.eqb_eq). subst x. rewrite forallb_forall in F.
  by specialize (F _ I).
Qed.

(** The builder behind one more command *)
Lemma push_ok bd c braces labels fixups files : builder_ok bd -> cmd_ok (List.length files) c ->
  (List.length (b_wfiles bd) <= List.length files)%nat -> NoDup files -> c_jump c = 0%nat ->
  braces = (if bool_decide (c_letter c = ch "{") then [List.length (b_cmds bd)] else []) ++ b_braces bd ->
  (labels = b_labels bd \/ exists n, labels = b_labels bd ++ [(n, List.length (b_cmds bd))]) ->
  (fixups = b_fixups bd \/ c_letter c <> ch "{" /\ exists n, fixups = b_fixups bd ++ [(List.length (b_cmds bd), n)]) ->
  builder_ok (Builder (b_cmds bd ++ [c]) braces labels fixups files).
Proof.
  intros [Cm J Br Lb Fx W] Ok Lf N Jc -> Hl Hf. assert (Up : forall l : list nat,
    Forall (fun i => (i < List.length (b_cmds bd))%nat) l ->
    Forall (fun i => (i < List.length (b_cmds bd ++ [c]))%nat) l).
  { intros l F. eapply Forall_impl; [exact F|]. intros i. rewrite length_app. cbn. lia. }
  split; cbn [b_cmds b_braces b_labels b_fixups b_wfiles].
  - apply Forall_app. split; [|by constructor; [|constructor]]. eapply Forall_impl; [exact Cm|]. intros x. by apply cmd_mono.
  - intros i x X. rewrite length_app. cbn [List.length]. rewrite lookup_app_Some in X. destruct X as [X|[Ge X]].
    + destruct (J i x X) as [L Bx]. split; [lia|]. intros E. destruct (Bx E) as [I|?]; [left|by right].
      apply elem_of_app. by right.
    + destruct (i - _)%nat eqn:D in X; [injection X as <-|done]. rewrite Jc. split; [lia|]. intros E. left.
      rewrite bool_decide_true by done. apply elem_of_app. left. apply list_elem_of_singleton. lia.
  - apply Forall_app. split; [|by apply Up]. case_bool_decide; [|constructor].
    constructor; [rewrite length_app; cbn; lia|constructor].
  - assert (Old : Forall (fun l : bytes * nat => (snd l < List.length (b_cmds bd ++ [c]))%nat) (b_labels bd)).
    { eapply Forall_impl; [exact Lb|]. intros x. rewrite length_app. cbn. lia. }
    destruct Hl as [->|[n ->]]; [done|]. apply Forall_app. split; [done|]. constructor; [|constructor].
    rewrite length_app. cbn. lia.
  - assert (Old : Forall (fun f : nat * bytes => exists x, (b_cmds bd ++ [c]) !! fst f = Some x /\ c_letter x <> ch "{")
      (b_fixups bd)).
    { eapply Forall_impl; [exact Fx|]. intros f (x & X & Nb). exists x. split; [by apply lookup_app_l_Some|done]. }
    destruct Hf as [->|[Nb [n ->]]]; [done|]. apply Forall_app. split; [done|]. constructor; [|constructor].
    exists c. split; [|done]. cbn. by apply list_lookup_middle.
  - done.
Qed.

(** What one "}" does *)
Lemma close_ok bd open braces : builder_ok bd -> b_braces bd = open :: braces ->
  builder_ok (Builder (alter (with_jump (List.length (b_cmds bd))) open (b_cmds bd)) braces (b_labels bd)
    (b_fixups bd) (b_wfiles bd)).
Proof.
  intros [Cm J Br Lb Fx W] E. rewrite E in Br. apply Forall_cons in Br as [Op Br].
  split; cbn [b_cmds b_braces b_labels b_fixups b_wfiles]; rewrite ?length_alter; try done.
  - apply alter_forall; [done|]. intros c. by rewrite cmd_jump.
  - intros i c X. destruct (decide (i = open)) as [->|N].
    + rewrite list_lookup_alter_eq in X. apply fmap_Some in X as (x & Y & ->). cbn. split; [done|]. intros _. by right.
    + rewrite list_lookup_alter_ne in X by done. destruct (J i c X) as [L B]. split; [done|]. intros Lt.
      destruct (B Lt) as [I|?]; [|by right]. rewrite E in I. apply elem_of_cons in I as [?|?]; [done|by left].
  - eapply Forall_impl; [exact Fx|]. intros [i n] (c & X & Nb). cbn in *. destruct (decide (i = open)) as [->|N].
    + rewrite list_lookup_alter_eq, X. by eexists.
    + rewrite list_lookup_alter_ne by done. by exists c.
Qed.

Definition parsed (p : nat) (x : nat * builder) : Prop := (p < fst x)%nat /\ builder_ok (snd x).

Lemma parse_letter_ok c p bd : builder_ok bd -> (p < e)%nat -> c_u c = U_NONE -> c_jump c = 0%nat ->
  addr_ok (c_a1 c) -> addr_ok (c_a2 c) -> c_in_range c = false -> (c_naddr c <= max_addr (c_letter c))%nat ->
  yields overflow (parsed p) (parse_letter buf e flags c p bd).
Proof.
  intros B L U Jc A1 A2 Rg Na. unfold parse_letter.
  set (n := List.length (b_cmds bd)). pose proof (bo_wfiles _ B) as N.
  assert (Wf : forall (files : list bytes) u, payload_ok (List.length files) (c_letter c) u -> cmd_ok (List.length files) (with_payload u c))
    by (intros files u P; by split).
  assert (Self : forall files : list bytes, payload_ok (List.length files) (c_letter c) U_NONE -> cmd_ok (List.length files) c)
    by (intros files P; split; try done; by rewrite U).
  assert (Done : forall u q, (p < q)%nat -> c_letter c <> ch "{" -> payload_ok (List.length (b_wfiles bd)) (c_letter c) u ->
    yields overflow (parsed p) (Ok (q, push_cmd (with_payload u c) bd))).
  { intros u q Lq Nb P. split; [done|]. apply push_ok; cbn; auto. by rewrite bool_decide_false. }
  destruct (Z.eqb_spec (c_letter c) (ch "{")) as [E|Nb].
  { destruct (_ =? _)%nat; [auto with sed|]. split; [cbn; lia|]. apply push_ok; cbn; auto; [|by rewrite bool_decide_true].
    apply Self. by rewrite E. }
  destruct (Z.eqb_spec (c_letter c) (ch "}")) as [E|N1].
  { destruct (b_braces bd) as [|op br] eqn:Bs; [auto with sed|]. destruct (_ || _); [auto with sed|].
    split; [cbn; lia|]. by apply close_ok. }
  destruct (Z.eqb_spec (c_letter c) (ch ":")) as [E|N2].
  { destruct (negb _); [auto with sed|]. pose proof (skip_all_ge is_space (S p)) as G1. fold (skip_blank buf e (S p)) in G1.
    pose proof (skip_all_ge label_end (skip_blank buf e (S p))) as G2.
    fold (sed_parse_label buf e (skip_blank buf e (S p))) in G2. destruct (_ =? _)%nat; [auto with sed|].
    split; [cbn; lia|]. apply push_ok; cbn; auto; [|by rewrite bool_decide_false|right; by eexists].
    apply Self. by rewrite E. }
  pose proof (skip_all_ge is_space (S p)) as G1. fold (skip_blank buf e (S p)) in G1.
  destruct (existsb _ (b "btT")) eqn:Bt.
  { pose proof (skip_all_ge label_end (skip_blank buf e (S p))) as G2.
    fold (sed_parse_label buf e (skip_blank buf e (S p))) in G2.
    split; [cbn; lia|]. apply push_ok; cbn; auto; [|by rewrite bool_decide_false|right; split; [done|by eexists]].
    apply Self. by apply (one_of_in _ "btT"). }
  clear Bt. destruct (is_plain _) eqn:Pl.
  { apply Done; [lia|done|]. by apply (one_of_in _ "=dDgGhHnNpPxz"). }
  destruct (_ || _) eqn:Q.
  { assert (P : forall v, payload_ok (List.length (b_wfiles bd)) (c_letter c) (U_STATUS v)).
    { intros v. apply (one_of_in _ "qQ"); [cbn; by rewrite orb_false_r|done]. }
    destruct (lt e _ && _); [destruct (scan_at _ _) as [used v]|]; apply Done; done || lia. }
  clear Q. destruct (existsb _ (b "aic")) eqn:T.
  { unfold sed_text_parse. set (q := if _ && _ && (_ =? 10) then (_ + 2)%nat else _).
    assert (S p <= q)%nat by (unfold q; destruct (_ && _); lia).
    destruct (text_loop_ok (S (e - q)) q [] ltac:(constructor)) as [G F].
    destruct (text_loop _ _ _ _ _) as [q' t]. cbn in G, F. apply Done; [lia|done|]. by split. }
  pose proof (skip_all_ge not_nl (skip_blank buf e (S p))) as G2.
  clear T. destruct (_ || _) eqn:Rw.
  { destruct (_ =? _)%nat; [auto with sed|]. destruct (Z.eqb_spec (c_letter c) (ch "r")) as [E|N3].
    - apply Done; [lia|done|]. split; [done|]. apply sub_bytes.
    - cbn in Rw. apply Z.eqb_eq in Rw.
      pose proof (intern_ok (b_wfiles bd) (sub buf (skip_blank buf e (S p)) (skip_all buf e not_nl (skip_blank buf e (S p)))) N) as (N' & I & Ln).
      destruct (sed_wfile_intern _ _) as [files idx]. cbn in N', I, Ln. split; [cbn; lia|].
      apply push_ok; cbn; auto; [by apply Wf|by rewrite bool_decide_false]. }
  destruct (Z.eqb_spec (c_letter c) (ch "s")) as [E|N4].
  { eapply yields_bind; [by apply (sed_subst_parse_ok _ (S p) (b_wfiles bd))|].
    intros [[q s] files] (L' & N' & S' & Ln). cbn in L', N', S', Ln. split; [cbn; lia|].
    apply push_ok; cbn; auto; [by apply Wf|by rewrite bool_decide_false]. }
  destruct (Z.eqb_spec (c_letter c) (ch "y")) as [E|N5].
  { eapply yields_bind; [apply (sed_y_parse_ok _ (S p))|]. intros [q map] [L' M']. cbn in L', M'. by apply Done; [lia| |]. }
  destruct (Z.eqb_spec (c_letter c) (ch "l")) as [E|N6]; [|auto with sed].
  destruct (_ && _); [|apply Done; [lia|done|by rewrite E]].
  destruct (scan_at buf (skip_blank buf e (S p))) as [used v] eqn:Sv. destruct (Z.eqb_spec (i32 v) INT_MAX) as [Ov|].
  - exists (skip_blank buf e (S p)). by rewrite Sv.
  - apply Done; [lia|done|by rewrite E].
Qed.

Lemma parse_addrs_ok U p :
  yields U (fun x => let '(q, naddr, a1, a2) := x in (p <= q)%nat /\ addr_ok a1 /\ addr_ok a2) (parse_addrs buf e flags p).
Proof.
  unfold parse_addrs. destruct (looks_like_addr _ _ _); [|cbn; by split_and!].
  eapply yields_bind; [apply (sed_addr_parse_ok _ p)|]. intros [q a1] [L A1]. cbn in L, A1.
  pose proof (skip_all_ge is_space q) as G. fold (skip_blank buf e q) in G.
  destruct (at_c _ _ _ _); [|cbn; split_and!; [lia|done|done]].
  eapply yields_bind; [apply (sed_addr_parse_ok _ (skip_blank buf e (S (skip_blank buf e q))))|].
  intros [q' a2] [L' A2]. cbn in L', A2.
  pose proof (skip_all_ge is_space (S (skip_blank buf e q))) as G'. fold (skip_blank buf e (S (skip_blank buf e q))) in G'.
  cbn. split_and!; [lia|done|done].
Qed.

Lemma parse_negate_ge fuel p neg : (p <= fst (parse_negate buf e fuel p neg))%nat.
Proof.
  revert p neg. induction fuel as [|fuel IH]; intros p neg; cbn; [done|].
  destruct (at_c _ _ _ _); [|done]. pose proof (skip_all_ge is_space (S p)) as G. fold (skip_blank buf e (S p)) in G.
  pose proof (IH (skip_blank buf e (S p)) (negb neg)). lia.
Qed.

Lemma sed_parse_command_ok p bd : builder_ok bd -> yields overflow (parsed p) (sed_parse_command buf e flags p bd).
Proof.
  intros B. unfold sed_parse_command. eapply yields_bind; [apply parse_addrs_ok|]. intros [[[q naddr] a1] a2] (L & A1 & A2).
  cbn beta iota.
  pose proof (skip_all_ge is_space q) as G. fold (skip_blank buf e q) in G.
  pose proof (parse_negate_ge (S (e - q)) (skip_blank buf e q) false) as G'.
  destruct (parse_negate _ _ _ _ _) as [q' neg]. cbn in G'.
  destruct (lt e q') eqn:Lt; cbn [negb]; [|auto with sed]. apply lt_spec in Lt.
  destruct (Nat.ltb_spec (max_addr (rd buf q')) naddr); [auto with sed|].
  eapply yields_impl; [by apply parse_letter_ok|]. intros x [? ?]. split; [lia|done].
Qed.

Lemma parse_commands_ok fuel p bd : builder_ok bd -> (e - p < fuel)%nat ->
  yields overflow builder_ok (parse_commands buf e flags fuel p bd).
Proof.
  revert p bd. induction fuel as [|fuel IH]; intros p bd B L; [lia|]. cbn [parse_commands].
  pose proof (skip_sep_ge p). destruct (lt e (skip_sep buf e p)) eqn:Lt; [|done]. apply lt_spec in Lt.
  eapply yields_bind; [by apply sed_parse_command_ok|]. intros [q bd'] [L' B']. cbn [fst snd] in L', B'. apply IH; [done|lia].
Qed.

(** ** Labels *)

Lemma find_label_in name labels j : find_label name labels = Some j -> exists l, (l, j) ∈ labels.
Proof.
  induction labels as [|[l i] labels IH]; [done|]. cbn [find_label]. case_bool_decide.
  - intros [= <-]. exists l. by left.
  - intros F. destruct (IH F) as [l' I]. exists l'. by right.
Qed.

(** What is known of the commands while their jumps are resolved *)
Definition jumps_ok (cmds : list sed_cmd) : Prop := forall i c, cmds !! i = Some c -> jump_ok (List.length cmds) i c.

Lemma resolve_ok U nf labels fixups cmds : Forall (cmd_ok nf) cmds -> jumps_ok cmds ->
  Forall (fun l => (snd l < List.length cmds)%nat) labels ->
  Forall (fun f => exists c, cmds !! fst f = Some c /\ c_letter c <> ch "{") fixups ->
  yields U (fun l => Forall (cmd_ok nf) l /\ jumps_ok l /\ List.length l = List.length cmds)
    (resolve labels (List.length cmds) fixups cmds).
Proof.
  revert cmds. induction fixups as [|[i name] fixups IH]; intros cmds Cm J Lb Fx; cbn [resolve]; [by cbn|].
  apply Forall_cons in Fx as [(c & X & Nb) Fx]. cbn in X.
  assert (Step : forall j, (j <= List.length cmds)%nat ->
    yields U (fun l => Forall (cmd_ok nf) l /\ jumps_ok l /\ List.length l = List.length cmds)
      (resolve labels (List.length cmds) fixups (alter (with_jump j) i cmds))).
  { intros j Lj. specialize (IH (alter (with_jump j) i cmds)). rewrite length_alter in IH. apply IH; [| |done|].
    - apply alter_forall; [done|]. intros x. by rewrite cmd_jump.
    - intros k y Y. rewrite length_alter. destruct (decide (k = i)) as [->|N].
      + rewrite list_lookup_alter_eq, X in Y. injection Y as <-. split; [done|]. by intros E.
      + rewrite list_lookup_alter_ne in Y by done. by apply J.
    - eapply Forall_impl; [exact Fx|]. intros [k m] (y & Y & Ny). cbn in *. destruct (decide (k = i)) as [->|N].
      + rewrite list_lookup_alter_eq, Y. by eexists.
      + rewrite list_lookup_alter_ne by done. by exists y. }
  destruct (_ =? _)%nat; [by apply Step|]. destruct (find_label name labels) as [j|] eqn:F; [|auto with sed].
  apply find_label_in in F as [l I]. apply Step. rewrite Forall_forall in Lb. specialize (Lb _ I). cbn in Lb. lia.
Qed.

Lemma sed_compile_ok : yields overflow program_wf (sed_compile buf e flags).
Proof.
  unfold sed_compile, sed_parse.
  eapply yields_bind; [apply parse_commands_ok; [|lia]|].
  { split; cbn; try constructor; by rewrite lookup_nil in *. }
  intros bd [Cm J Br Lb Fx W]. destruct (Nat.eqb_spec (List.length (b_braces bd)) 0) as [E|]; cbn [negb]; [|auto with sed].
  eapply yields_bind; [apply resolve_ok; [exact Cm| |done|done]|].
  { intros i c X. destruct (J i c X) as [L B]. split; [done|]. intros Lt. destruct (B Lt) as [I|?]; [|done].
    apply nil_length_inv in E. rewrite E in I. by apply elem_of_nil in I. }
  intros cmds (Cm' & J' & L). by split.
Qed.

End Parse.
