(* ===== verification/SedRun.v ===== *)
(** * Running a sed program (text/sed/sed_cycle.c, sed_addr.c, sed_subst.c, sed_list.c)

    sed_run reads a line into the pattern space, runs the commands over it and
    prints it, until the input ends or a command quits.  [sed_state] is
    [struct sed_state]; what changes in the compiled program, [in_range] and
    the line of an "addr1,~N", is in the state's list of commands.  The
    callbacks are the operations of the class [SedIO] on their context.

    [Broken] is a command whose jump or payload is not there; [Undefined], a
    regular expression whose run is not defined (DfaRun.v, DfaReplace.v). *)

From S2P Require Import Prelude Scan Dfa DfaRun DfaReplace DfaSubst Sed.

Class SedIO (C : Type) := {
  io_read : C -> option (bytes * bool) * C;            (** a line, and whether it ended in a newline *)
  io_out : bytes -> C -> C;
  io_wfile : option (nat -> bytes -> C -> C);
  io_rfile : option (bytes -> C -> C)
}.

Definition SED_LIST_WRAP : Z := 70.

Record sed_state (C : Type) := State {
  st_cmds : list sed_cmd;
  st_autoprint_off : bool;
  st_pattern : bytes;
  st_hold : bytes;
  st_lineno : Z;
  st_had_nl : bool;
  st_is_last : bool;
  st_suppress : bool;
  st_tflag : bool;
  st_last_re : option dfa;
  st_next : option (bytes * bool);                     (** nextbuf, while next_valid *)
  st_pending : list (bool * bytes);                    (** is_file, data *)
  st_quit : option Z;                                  (** quit_status, once quit is set *)
  st_ctx : C
}.
Arguments State {C}.
Arguments st_cmds {C}.
Arguments st_autoprint_off {C}.
Arguments st_pattern {C}.
Arguments st_hold {C}.
Arguments st_lineno {C}.
Arguments st_had_nl {C}.
Arguments st_is_last {C}.
Arguments st_suppress {C}.
Arguments st_tflag {C}.
Arguments st_last_re {C}.
Arguments st_next {C}.
Arguments st_pending {C}.
Arguments st_quit {C}.
Arguments st_ctx {C}.

(** ** The command l *)

Definition list_escape (c : Z) : bytes :=
  if c =? ch "\" then [ch "\"; ch "\"]
  else if c =? 7 then [ch "\"; ch "a"]
  else if c =? 8 then [ch "\"; ch "b"]
  else if c =? 12 then [ch "\"; ch "f"]
  else if c =? 10 then [ch "\"; ch "n"]
  else if c =? 13 then [ch "\"; ch "r"]
  else if c =? 9 then [ch "\"; ch "t"]
  else if c =? 11 then [ch "\"; ch "v"]
  else if (c <? 32) || (127 <=? c) then
    [ch "\"; 48 + Z.land (Z.shiftr c 6) 7; 48 + Z.land (Z.shiftr c 3) 7; 48 + Z.land c 7]
  else [c].

(** The pieces given to [out], with [col] bytes on the line already *)
Fixpoint list_pieces (width : Z) (col : Z) (s : bytes) : list bytes :=
  match s with
  | [] => [[ch "$"; 10]]
  | c :: s =>
      let piece := list_escape c in
      let plen := Z.of_nat (List.length piece) in
      if (0 <? width) && (width - 1 <? col + plen)
      then [ch "\"; 10] :: piece :: list_pieces width plen s
      else piece :: list_pieces width (col + plen) s
  end.

(** [qstatus] is 0, or one more than the width. *)
Definition sed_do_list (s : bytes) (qstatus : Z) : list bytes :=
  let width := (if qstatus =? 0 then SED_LIST_WRAP + 1 else qstatus) - 1 in
  list_pieces width 0 s.

Fixpoint find_nl (s : bytes) : nat :=
  match s with
  | [] => 0
  | c :: s => if c =? 10 then 0 else S (find_nl s)
  end.

Section Run.
Context {C : Type} `{SedIO C}.

Implicit Types (st : sed_state C) (c : sed_cmd).

(** sed_state_new *)
Definition sed_state_new (prog : sed) (ctx : C) : sed_state C :=
  State (sed_cmds prog) (sed_autoprint_off prog) [] [] 0 false false false false None None [] None ctx.

(** ** Changing one field *)

Definition with_pattern (x : bytes) st : sed_state C :=
  State (st_cmds st) (st_autoprint_off st) x (st_hold st) (st_lineno st) (st_had_nl st) (st_is_last st)
    (st_suppress st) (st_tflag st) (st_last_re st) (st_next st) (st_pending st) (st_quit st) (st_ctx st).
Definition with_hold (x : bytes) st : sed_state C :=
  State (st_cmds st) (st_autoprint_off st) (st_pattern st) x (st_lineno st) (st_had_nl st) (st_is_last st)
    (st_suppress st) (st_tflag st) (st_last_re st) (st_next st) (st_pending st) (st_quit st) (st_ctx st).
Definition with_line (n : Z) (nl last : bool) st : sed_state C :=
  State (st_cmds st) (st_autoprint_off st) (st_pattern st) (st_hold st) n nl last
    (st_suppress st) (st_tflag st) (st_last_re st) (st_next st) (st_pending st) (st_quit st) (st_ctx st).
Definition with_suppress (x : bool) st : sed_state C :=
  State (st_cmds st) (st_autoprint_off st) (st_pattern st) (st_hold st) (st_lineno st) (st_had_nl st)
    (st_is_last st) x (st_tflag st) (st_last_re st) (st_next st) (st_pending st) (st_quit st) (st_ctx st).
Definition with_tflag (x : bool) st : sed_state C :=
  State (st_cmds st) (st_autoprint_off st) (st_pattern st) (st_hold st) (st_lineno st) (st_had_nl st)
    (st_is_last st) (st_suppress st) x (st_last_re st) (st_next st) (st_pending st) (st_quit st) (st_ctx st).
Definition with_re (x : option dfa) st : sed_state C :=
  State (st_cmds st) (st_autoprint_off st) (st_pattern st) (st_hold st) (st_lineno st) (st_had_nl st)
    (st_is_last st) (st_suppress st) (st_tflag st) x (st_next st) (st_pending st) (st_quit st) (st_ctx st).
Definition with_next (x : option (bytes * bool)) st : sed_state C :=
  State (st_cmds st) (st_autoprint_off st) (st_pattern st) (st_hold st) (st_lineno st) (st_had_nl st)
    (st_is_last st) (st_suppress st) (st_tflag st) (st_last_re st) x (st_pending st) (st_quit st) (st_ctx st).
Definition with_pending (x : list (bool * bytes)) st : sed_state C :=
  State (st_cmds st) (st_autoprint_off st) (st_pattern st) (st_hold st) (st_lineno st) (st_had_nl st)
    (st_is_last st) (st_suppress st) (st_tflag st) (st_last_re st) (st_next st) x (st_quit st) (st_ctx st).
Definition with_quit (x : option Z) st : sed_state C :=
  State (st_cmds st) (st_autoprint_off st) (st_pattern st) (st_hold st) (st_lineno st) (st_had_nl st)
    (st_is_last st) (st_suppress st) (st_tflag st) (st_last_re st) (st_next st) (st_pending st) x (st_ctx st).
Definition with_ctx (x : C) st : sed_state C :=
  State (st_cmds st) (st_autoprint_off st) (st_pattern st) (st_hold st) (st_lineno st) (st_had_nl st)
    (st_is_last st) (st_suppress st) (st_tflag st) (st_last_re st) (st_next st) (st_pending st) (st_quit st) x.
Definition with_cmd (pc : nat) c st : sed_state C :=
  State (<[pc := c]> (st_cmds st)) (st_autoprint_off st) (st_pattern st) (st_hold st) (st_lineno st)
    (st_had_nl st) (st_is_last st) (st_suppress st) (st_tflag st) (st_last_re st) (st_next st)
    (st_pending st) (st_quit st) (st_ctx st).

(** ** Output *)

Definition out (t : bytes) st : sed_state C := with_ctx (io_out t (st_ctx st)) st.

Definition sed_pending_push (is_file : bool) (data : bytes) st : sed_state C :=
  with_pending (st_pending st ++ [(is_file, data)]) st.

Definition flush_item (ctx : C) (item : bool * bytes) : C :=
  if fst item then match io_rfile with Some f => f (snd item) ctx | None => ctx end
  else io_out [10] (io_out (snd item) ctx).

Definition sed_pending_flush st : sed_state C :=
  with_pending [] (with_ctx (foldl flush_item (st_ctx st) (st_pending st)) st).

Definition sed_out_pattern st : sed_state C :=
  let st := out (st_pattern st) st in
  if st_had_nl st then out [10] st else st.

Definition sed_out_lineno st : sed_state C := out [10] (out (Fmt.fmt_ulong (st_lineno st)) st).

Definition sed_out_wfile_line (idx : nat) (t : bytes) st : sed_state C :=
  match io_wfile with
  | Some f => with_ctx (f idx [10] (f idx t (st_ctx st))) st
  | None => st
  end.

(** ** Input *)

(** Fills nextbuf. *)
Definition read_next st : sed_state C :=
  let '(line, ctx) := io_read (st_ctx st) in
  with_next line (with_ctx ctx st).

(** The line, whether it ended in a newline and whether it is the last *)
Definition fetch_line st : option (bytes * bool * bool) * sed_state C :=
  let st := match st_next st with Some _ => st | None => read_next st end in
  match st_next st with
  | None => (None, st)
  | Some (line, had_nl) =>
      let st := read_next st in
      (Some (line, had_nl, match st_next st with Some _ => false | None => true end), st)
  end.

(** ** Addresses *)

(** The answer, and the last regular expression; none: not defined *)
Definition sed_addr_match (a : sed_addr) st : option (bool * option dfa) :=
  match a with
  | SA_LINE line => Some (st_lineno st =? line, st_last_re st)
  | SA_LAST => Some (st_is_last st, st_last_re st)
  | SA_STEP line step =>
      Some (if step =? 0 then st_lineno st =? line
            else (line <=? st_lineno st) && ((st_lineno st - line) mod step =? 0), st_last_re st)
  | SA_REGEX re =>
      match (match re with Some _ => re | None => st_last_re st end) with
      | None => Some (false, st_last_re st)
      | Some re =>
          match dfa_test re (st_pattern st) with
          | Some m => Some (m, Some re)
          | None => None
          end
      end
  | SA_NONE | SA_MULT _ _ => Some (false, st_last_re st)
  end.

Definition is_line_zero (a : sed_addr) : bool := match a with SA_LINE line => line =? 0 | _ => false end.
Definition is_regex (a : sed_addr) : bool := match a with SA_REGEX _ => true | _ => false end.

Definition with_range (r : bool) (a2 : sed_addr) c : sed_cmd :=
  Cmd (c_letter c) (c_naddr c) (c_negate c) (c_a1 c) a2 (c_jump c) r (c_u c).

(** Entering a range: whether it stays open, and the second address *)
Definition open_range (a2 : sed_addr) st : bool * sed_addr :=
  match a2 with
  | SA_LINE line => (negb (line <=? st_lineno st), a2)
  | SA_LAST => (negb (st_is_last st), a2)
  | SA_MULT line step =>
      if step =? 0 then (false, a2)
      else (true, SA_MULT (u64 (st_lineno st - st_lineno st mod step + step)) step)
  | _ => (true, a2)
  end.

(** In a range: whether this is its last line *)
Definition closes_range (a2 : sed_addr) st : option (bool * option dfa) :=
  match a2 with
  | SA_LINE line | SA_MULT line _ => Some (line <=? st_lineno st, st_last_re st)
  | SA_LAST => Some (st_is_last st, st_last_re st)
  | SA_REGEX _ => sed_addr_match a2 st
  | SA_NONE | SA_STEP _ _ => Some (false, st_last_re st)
  end.

Definition sed_range_match c st : option (bool * sed_cmd * option dfa) :=
  let in_range :=
    c_in_range c ||
    ((c_naddr c =? 2)%nat && is_line_zero (c_a1 c) && is_regex (c_a2 c) && (st_lineno st =? 1)) in
  let answer result c re := Some (if c_negate c then negb result else result, c, re) in
  if (c_naddr c =? 0)%nat then answer true (with_range in_range (c_a2 c) c) (st_last_re st)
  else if (c_naddr c =? 1)%nat then
    match sed_addr_match (c_a1 c) st with
    | Some (m, re) => answer m (with_range in_range (c_a2 c) c) re
    | None => None
    end
  else if negb in_range then
    match sed_addr_match (c_a1 c) st with
    | Some (true, re) =>
        let '(r, a2) := open_range (c_a2 c) st in answer true (with_range r a2 c) re
    | Some (false, re) => answer false (with_range false (c_a2 c) c) re
    | None => None
    end
  else
    match closes_range (c_a2 c) st with
    | Some (close, re) => answer true (with_range (negb close) (c_a2 c) c) re
    | None => None
    end.

(** ** Substitution *)

(** Whether a replacement was made; none: not defined *)
Definition sed_subst_exec (s : sed_subst) st : option (bool * sed_state C) :=
  match (match s_re s with Some re => Some re | None => st_last_re st end) with
  | None => Some (false, st)
  | Some re =>
      match dfa_replace append_out re (s_repl s) (st_pattern st) (s_nth s) (s_global s) [] with
      | DfaReplace.Done (result, nreplaced) =>
          let st := with_re (Some re) st in
          if nreplaced =? 0 then Some (false, st) else Some (true, with_tflag true (with_pattern result st))
      | Aborted => Some (false, with_re (Some re) st)
      | DfaReplace.Undefined => None
      end
  end.

(** ** A cycle *)

Inductive stepped :=
| Next (pc : nat) (st : sed_state C)
| Restart (st : sed_state C)
| EndCycle (st : sed_state C)
| Broken
| Undefined.

(** 'n' and 'N' at the end of the input *)
Definition no_more st : stepped := EndCycle (with_suppress true (with_quit (Some 0) st)).

Definition next_line (line : bytes) (nl last : bool) st : sed_state C :=
  with_pattern line (with_line (u64 (st_lineno st + 1)) nl last st).

(** The switch on the letter of [c], the command at [pc], whose address
    matched *)
Definition exec_cmd (pc : nat) c st : stepped :=
  let letter := c_letter c in
  let next := Next (S pc) in
  if (letter =? ch "{") || (letter =? ch ":") then next st
  else if letter =? ch "=" then next (sed_out_lineno st)
  else if letter =? ch "a" then
    match c_u c with U_TEXT t => next (sed_pending_push false t st) | _ => Broken end
  else if letter =? ch "i" then
    match c_u c with U_TEXT t => next (out [10] (out t st)) | _ => Broken end
  else if letter =? ch "c" then
    match c_u c with
    | U_TEXT t =>
        let fire := (c_naddr c <? 2)%nat || c_negate c || negb (c_in_range c) in
        let st := if fire then out [10] (out t st) else st in
        EndCycle (with_suppress true (with_pattern [] st))
    | _ => Broken
    end
  else if letter =? ch "d" then EndCycle (with_suppress true st)
  else if letter =? ch "D" then
    let nl := find_nl (st_pattern st) in
    if (nl =? List.length (st_pattern st))%nat then EndCycle (with_suppress true st)
    else Restart (with_pattern (drop (S nl) (st_pattern st)) st)
  else if letter =? ch "g" then next (with_pattern (st_hold st) st)
  else if letter =? ch "G" then next (with_pattern (st_pattern st ++ [10] ++ st_hold st) st)
  else if letter =? ch "h" then next (with_hold (st_pattern st) st)
  else if letter =? ch "H" then next (with_hold (st_hold st ++ [10] ++ st_pattern st) st)
  else if letter =? ch "l" then
    match c_u c with
    | U_STATUS n => next (foldl (fun st t => out t st) st (sed_do_list (st_pattern st) n))
    | _ => Broken
    end
  else if letter =? ch "n" then
    let st := if st_autoprint_off st then st else sed_out_pattern st in
    let st := sed_pending_flush st in
    let '(line, st) := fetch_line st in
    match line with
    | None => no_more st
    | Some (line, nl, last) => next (next_line line nl last st)
    end
  else if letter =? ch "N" then
    let '(line, st) := fetch_line st in
    match line with
    | None => no_more st
    | Some (line, nl, last) => next (next_line (st_pattern st ++ [10] ++ line) nl last st)
    end
  else if letter =? ch "p" then next (sed_out_pattern st)
  else if letter =? ch "P" then next (out [10] (out (take (find_nl (st_pattern st)) (st_pattern st)) st))
  else if letter =? ch "q" then
    match c_u c with U_STATUS n => EndCycle (with_quit (Some n) st) | _ => Broken end
  else if letter =? ch "Q" then
    match c_u c with U_STATUS n => EndCycle (with_suppress true (with_quit (Some n) st)) | _ => Broken end
  else if letter =? ch "z" then next (with_pattern [] st)
  else if letter =? ch "r" then
    match c_u c with U_RFILE name => next (sed_pending_push true (cstr name) st) | _ => Broken end
  else if letter =? ch "s" then
    match c_u c with
    | U_S s =>
        match sed_subst_exec s st with
        | Some (true, st) =>
            let st := if s_print s then sed_out_pattern st else st in
            next (match s_wfile s with Some idx => sed_out_wfile_line idx (st_pattern st) st | None => st end)
        | Some (false, st) => next st
        | None => Undefined
        end
    | _ => Broken
    end
  else if letter =? ch "t" then
    if st_tflag st then Next (c_jump c) (with_tflag false st) else next st
  else if letter =? ch "T" then
    if st_tflag st then next (with_tflag false st) else Next (c_jump c) st
  else if letter =? ch "w" then
    match c_u c with U_WFILE idx => next (sed_out_wfile_line idx (st_pattern st) st) | _ => Broken end
  else if letter =? ch "x" then next (with_hold (st_pattern st) (with_pattern (st_hold st) st))
  else if letter =? ch "y" then
    match c_u c with
    | U_Y map => next (with_pattern (List.map (fun x => cnth map (Z.to_nat x)) (st_pattern st)) st)
    | _ => Broken
    end
  else if letter =? ch "b" then Next (c_jump c) st
  else next st.

(** One pass of the while loop *)
Definition exec_step (pc : nat) st : stepped :=
  match st_cmds st !! pc with
  | None => Broken
  | Some c =>
      match sed_range_match c st with
      | None => Undefined
      | Some (m, c, re) =>
          let st := with_cmd pc c (with_re re st) in
          if m then exec_cmd pc c st else Next (if c_letter c =? ch "{" then c_jump c else S pc) st
      end
  end.

Inductive ended := Ended (quits : bool) (st : sed_state C) | IsBroken | IsUndefined | NoFuel.

Definition end_cycle st : ended :=
  let st := if negb (st_suppress st) && negb (st_autoprint_off st) then sed_out_pattern st else st in
  let st := sed_pending_flush st in
  Ended (match st_quit st with Some _ => true | None => false end) st.

Fixpoint cycle_loop (fuel pc : nat) st : ended :=
  match fuel with
  | O => NoFuel
  | S fuel =>
      if (List.length (st_cmds st) <=? pc)%nat then end_cycle st
      else
        match exec_step pc st with
        | Next pc st => cycle_loop fuel pc st
        | Restart st => cycle_loop fuel 0 (with_suppress false st)
        | EndCycle st => end_cycle st
        | Broken => IsBroken
        | Undefined => IsUndefined
        end
  end.

Definition run_one_cycle (fuel : nat) st : ended := cycle_loop fuel 0 (with_suppress false st).

(** ** The run *)

Inductive run_end := Finished (status : Z) (ctx : C) | RunBroken | RunUndefined | RunNoFuel.

Definition finish st : run_end := Finished (default 0 (st_quit st)) (st_ctx st).

(** [lines] bounds the cycles, [fuel] the commands of each. *)
Fixpoint run_loop (fuel lines : nat) st : run_end :=
  match lines with
  | O => RunNoFuel
  | S lines =>
      let '(line, st) := fetch_line st in
      match line with
      | None => finish st
      | Some (line, nl, last) =>
          let st := with_tflag false (next_line line nl last st) in
          match run_one_cycle fuel st with
          | Ended true st => finish st
          | Ended false st => run_loop fuel lines st
          | IsBroken => RunBroken
          | IsUndefined => RunUndefined
          | NoFuel => RunNoFuel
          end
      end
  end.

Definition sed_run (fuel lines : nat) (prog : sed) (ctx : C) : run_end :=
  run_loop fuel lines (sed_state_new prog ctx).

End Run.
