(* ===== verification/SedFlow.v ===== *)
(** * How a sed program runs (text/sed/sed_cycle.c)

    A well-formed program never lacks a jump or a payload ([cycle_ok]); when
    its branches lead forward, a cycle ends within as many steps as there are
    commands, and the run when the input does.  [SedInput] is what a run
    needs of the callback that reads: lines come one at a time, and writing
    does not bring any. *)

From S2P Require Import Prelude Scan Dfa DfaRun DfaReplace DfaSubst Sed SedParse SedRun.

Class SedInput (C : Type) `{SedIO C} := {
  io_lines : C -> list (bytes * bool);
  io_read_lines : forall ctx, fst (io_read ctx) = head (io_lines ctx) /\
    io_lines (snd (io_read ctx)) = tail (io_lines ctx);
  io_out_lines : forall t ctx, io_lines (io_out t ctx) = io_lines ctx;
  io_wfile_lines : forall f i t ctx, io_wfile = Some f -> io_lines (f i t ctx) = io_lines ctx;
  io_rfile_lines : forall f name ctx, io_rfile = Some f -> io_lines (f name ctx) = io_lines ctx
}.

Section Flow.
Context {C : Type} `{SedInput C}.

Implicit Types (st : sed_state C) (c : sed_cmd).

(** ** Input *)

(** The lines not yet fetched *)
Definition ahead st : list (bytes * bool) := option_list (st_next st) ++ io_lines (st_ctx st).

(** The state changes, but not its program nor whether it quits; lines may be fetched. *)
Record keeps st st' : Prop := {
  k_cmds : st_cmds st' = st_cmds st;
  k_quit : st_quit st' = st_quit st;
  k_ahead : ahead st' `suffix_of` ahead st
}.

#[export] Instance keeps_preorder : PreOrder keeps.
Proof.
  split; [by split|]. intros s1 s2 s3 [A B S] [A' B' S']. split; [congruence|congruence|by etrans].
Qed.

Lemma keeps_same st st' : st_cmds st' = st_cmds st -> st_quit st' = st_quit st -> st_next st' = st_next st ->
  io_lines (st_ctx st') = io_lines (st_ctx st) -> keeps st st'.
Proof. intros A B N L. split; [done|done|]. unfold ahead. by rewrite N, L. Qed.

Lemma out_keeps t st : keeps st (out t st).
Proof. apply keeps_same; try done. apply io_out_lines. Qed.

Lemma out_pattern_keeps st : keeps st (sed_out_pattern st).
Proof. unfold sed_out_pattern. destruct (st_had_nl _); repeat (etrans; [|apply out_keeps]); done. Qed.

Lemma out_wfile_keeps i t st : keeps st (sed_out_wfile_line i t st).
Proof.
  unfold sed_out_wfile_line. destruct io_wfile as [f|] eqn:F; [|done]. apply keeps_same; try done. cbn.
  by rewrite !(io_wfile_lines f) by done.
Qed.

Lemma flush_keeps st : keeps st (sed_pending_flush st).
Proof.
  apply keeps_same; try done. cbn. generalize (st_ctx st). induction (st_pending st) as [|x l IH]; intros ctx; [done|].
  cbn [foldl]. rewrite IH. unfold flush_item. destruct (fst x); [|by rewrite !io_out_lines].
  destruct io_rfile as [f|] eqn:F; [|done]. by apply io_rfile_lines.
Qed.

Lemma fold_out_keeps l st : keeps st (foldl (fun st t => out t st) st l).
Proof. revert st. induction l as [|t l IH]; intros st; [done|]. cbn. etrans; [apply (out_keeps t)|apply IH]. Qed.

(** [fetch_line] takes the next line. *)
Lemma read_next_ahead st : ahead (read_next st) = io_lines (st_ctx st).
Proof.
  unfold read_next, ahead. destruct (io_read_lines (st_ctx st)) as [F T]. destruct (io_read _) as [l ctx].
  cbn in *. rewrite F, T. by destruct (io_lines _).
Qed.

Lemma read_next_same st : st_cmds (read_next st) = st_cmds st /\ st_quit (read_next st) = st_quit st.
Proof. unfold read_next. by destruct (io_read _). Qed.

Lemma fetch_line_spec st :
  match ahead st with
  | [] => fst (fetch_line st) = None /\ ahead (snd (fetch_line st)) = []
  | (line, nl) :: rest =>
      fst (fetch_line st) = Some (line, nl, match rest with [] => true | _ => false end) /\
      ahead (snd (fetch_line st)) = rest
  end /\ st_cmds (snd (fetch_line st)) = st_cmds st /\ st_quit (snd (fetch_line st)) = st_quit st.
Proof.
  unfold fetch_line. set (st1 := match st_next st with Some _ => st | None => read_next st end).
  assert (S1 : ahead st1 = ahead st /\ st_cmds st1 = st_cmds st /\ st_quit st1 = st_quit st /\
    (st_next st1 = None -> io_lines (st_ctx st1) = [])).
  { unfold st1. destruct (st_next st) as [x|] eqn:N; [split_and!; try done; congruence|]. destruct (read_next_same st) as [-> ->].
    rewrite read_next_ahead. unfold ahead. rewrite N. split_and!; try done. unfold read_next.
    destruct (io_read_lines (st_ctx st)) as [F T]. destruct (io_read _) as [l ctx]. cbn in *. intros ->.
    rewrite T. by destruct (io_lines _). }
  destruct S1 as (<- & <- & <- & E). destruct (st_next st1) as [[line nl]|] eqn:N; cbn [fst snd].
  - destruct (read_next_same st1) as [-> ->]. unfold ahead at 1. rewrite N. cbn [option_list app].
    pose proof (read_next_ahead st1) as A. split; [|done]. split; [|done]. do 2 f_equal.
    rewrite <-A. unfold ahead. destruct (st_next (read_next st1)) as [x|] eqn:N1; [by destruct x|].
    cbn. unfold read_next in N1 |- *. destruct (io_read_lines (st_ctx st1)) as [F T]. destruct (io_read _) as [l ctx].
    cbn in *. subst l. rewrite T. by destruct (io_lines _).
  - unfold ahead. rewrite N, E by done. done.
Qed.

Lemma fetch_line_keeps st : keeps st (snd (fetch_line st)).
Proof.
  destruct (fetch_line_spec st) as (F & A & B). split; [done|done|].
  destruct (ahead st) as [|[line nl] rest]; destruct F as [_ ->]; [done|]. by exists [(line, nl)].
Qed.

(** ** One command *)

Definition step_ok (pc : nat) c st (r : stepped) : Prop :=
  match r with
  | Next pc' st' => keeps st st' /\ (pc' = S pc \/ pc' = c_jump c /\ one_of (c_letter c) "btT")
  | Restart st' => keeps st st' /\ c_letter c = ch "D"
  | EndCycle st' => st_cmds st' = st_cmds st /\ ahead st' `suffix_of` ahead st /\
      (st_quit st' = st_quit st \/ ahead st' = [] \/ one_of (c_letter c) "qQ")
  | Broken => False
  | Undefined => c_letter c = ch "s"
  end.

Lemma step_next pc c st st' : keeps st st' -> step_ok pc c st (Next (S pc) st').
Proof. intros K. split; [done|by left]. Qed.

Lemma step_end pc c st st' : keeps st st' -> step_ok pc c st (EndCycle st').
Proof. intros [A B S]. split_and!; [done|done|by left]. Qed.

Lemma keeps_pattern x st : keeps st (with_pattern x st).
Proof. by apply keeps_same. Qed.
Lemma keeps_hold x st : keeps st (with_hold x st).
Proof. by apply keeps_same. Qed.
Lemma keeps_tflag x st : keeps st (with_tflag x st).
Proof. by apply keeps_same. Qed.
Lemma keeps_suppress x st : keeps st (with_suppress x st).
Proof. by apply keeps_same. Qed.
Lemma keeps_re x st : keeps st (with_re x st).
Proof. by apply keeps_same. Qed.
Lemma keeps_line n nl last st : keeps st (with_line n nl last st).
Proof. by apply keeps_same. Qed.
Lemma keeps_pending x st : keeps st (with_pending x st).
Proof. by apply keeps_same. Qed.

(** A chain of changes, from the outside *)
Ltac keeps :=
  repeat first
    [ reflexivity
    | etrans; [|first [apply out_keeps | apply out_pattern_keeps | apply out_wfile_keeps | apply flush_keeps
        | apply fold_out_keeps | apply fetch_line_keeps | apply keeps_pattern | apply keeps_hold
        | apply keeps_tflag | apply keeps_suppress | apply keeps_re | apply keeps_line | apply keeps_pending]] ].

Lemma subst_keeps s st r st' : sed_subst_exec s st = Some (r, st') -> keeps st st'.
Proof.
  unfold sed_subst_exec. destruct (match s_re s with Some _ => _ | None => _ end) as [re|]; [|by intros [= _ <-]].
  destruct (dfa_replace _ _ _ _ _ _ _) as [[t k]| |]; [|intros [= _ <-]; keeps|done].
  destruct (_ =? _); intros [= _ <-]; keeps.
Qed.

Lemma fetched st (P : option (bytes * bool * bool) -> sed_state C -> Prop) :
  (forall st', keeps st st' -> ahead st' = [] -> P None st') ->
  (forall line nl last st', keeps st st' -> P (Some (line, nl, last)) st') ->
  P (fst (fetch_line st)) (snd (fetch_line st)).
Proof.
  intros N S. pose proof (fetch_line_keeps st) as K. destruct (fetch_line_spec st) as (F & _).
  destruct (ahead st) as [|[line nl] rest]; destruct F as [-> A]; auto.
Qed.

Lemma no_more_ok pc c st st' : keeps st st' -> ahead st' = [] -> step_ok pc c st (no_more st').
Proof. intros [A B S] E. unfold no_more. split_and!; [done|exact S|right; by left]. Qed.

Lemma payload_cases nf letter u : payload_ok nf letter u ->
  match u with
  | U_NONE => ~ one_of letter "aiclqQrswy"
  | U_S _ => letter = ch "s"
  | U_Y _ => letter = ch "y"
  | U_TEXT _ => one_of letter "aic"
  | U_WFILE _ => letter = ch "w"
  | U_RFILE _ => letter = ch "r"
  | U_STATUS _ => one_of letter "qQl"
  end.
Proof.
  destruct u; cbn [payload_ok]; try tauto. intros P N. apply existsb_exists in P as (x & I & ->%Z.eqb_eq).
  revert N. unfold one_of. cbn in I. repeat (destruct I as [<-|I]; [by vm_compute|]). done.
Qed.

(** One more test of the letter *)
Ltac letter Miss :=
  match goal with
  | |- context [if ?l =? ch ?x then _ else _] =>
      let E := fresh "E" in
      destruct (Z.eqb_spec l (ch x)) as [E|_]; [specialize (Miss x E)|]
  end.

Lemma exec_cmd_ok nf pc c st : payload_ok nf (c_letter c) (c_u c) -> step_ok pc c st (exec_cmd pc c st).
Proof.
  intros P%payload_cases. unfold exec_cmd.
  assert (Miss : forall x : ascii, c_letter c = ch x ->
    match c_u c with
    | U_NONE => negb (existsb (Z.eqb (ch x)) (b "aiclqQrswy"))
    | U_S _ => ch x =? ch "s"
    | U_Y _ => ch x =? ch "y"
    | U_TEXT _ => existsb (Z.eqb (ch x)) (b "aic")
    | U_WFILE _ => ch x =? ch "w"
    | U_RFILE _ => ch x =? ch "r"
    | U_STATUS _ => existsb (Z.eqb (ch x)) (b "qQl")
    end = true).
  { intros x E. rewrite <-E. destruct (c_u c); try (by apply Z.eqb_eq); try done.
    apply negb_true_iff, not_true_iff_false. exact P. }
  destruct (_ || _); [by apply step_next|].
  letter Miss; [apply step_next; unfold sed_out_lineno; keeps|].
  letter Miss; [destruct (c_u c); try done; apply step_next; unfold sed_pending_push; keeps|].
  letter Miss; [destruct (c_u c); try done; apply step_next; keeps|].
  letter Miss; [destruct (c_u c); try done; apply step_end; destruct (_ || _); keeps|].
  letter Miss; [apply step_end; keeps|].
  letter Miss; [destruct (_ =? _)%nat; [apply step_end; keeps|split; [keeps|done]]|].
  do 4 (letter Miss; [apply step_next; keeps|]).
  letter Miss; [destruct (c_u c); try done; apply step_next; keeps|].
  letter Miss.
  { set (st1 := if st_autoprint_off st then st else _).
    assert (K : keeps st (sed_pending_flush st1)) by (unfold st1; destruct (st_autoprint_off _); keeps).
    pose proof (fetched (sed_pending_flush st1) (fun l s => forall r,
      r = match l with None => no_more s | Some (line, nl, last) => Next (S pc) (next_line line nl last s) end ->
      step_ok pc c st r)) as F.
    destruct (fetch_line (sed_pending_flush st1)) as [l s]. apply F; [| |by destruct l as [[[? ?] ?]|]].
    - intros s' K' E' r ->. apply no_more_ok; [by etrans|done].
    - intros line nl last s' K' r ->. apply step_next. unfold next_line. keeps. by etrans. }
  letter Miss.
  { pose proof (fetched st (fun l s => forall r,
      r = match l with None => no_more s | Some (line, nl, last) =>
            Next (S pc) (next_line (st_pattern s ++ [10] ++ line) nl last s) end ->
      step_ok pc c st r)) as F.
    destruct (fetch_line st) as [l s]. apply F; [| |by destruct l as [[[? ?] ?]|]].
    - intros s' K' E' r ->. by apply no_more_ok.
    - intros line nl last s' K' r ->. apply step_next. unfold next_line. keeps. done. }
  do 2 (letter Miss; [apply step_next; keeps|]).
  do 2 (letter Miss; [destruct (c_u c); try done; split_and!; [done|done|right; right; by rewrite E]|]).
  letter Miss; [apply step_next; keeps|].
  letter Miss; [destruct (c_u c); try done; apply step_next; unfold sed_pending_push; keeps|].
  letter Miss.
  { destruct (c_u c) as [|s| | | | |]; try done. destruct (sed_subst_exec s st) as [[r st1]|] eqn:X; [|exact E].
    apply subst_keeps in X. destruct r; [|by apply step_next]. apply step_next.
    destruct (s_wfile s); destruct (s_print s); keeps; done. }
  letter Miss; [destruct (st_tflag st); [split; [keeps|right; by rewrite E]|apply step_next; keeps]|].
  letter Miss; [destruct (st_tflag st); [apply step_next; keeps|split; [keeps|right; by rewrite E]]|].
  letter Miss; [destruct (c_u c); try done; apply step_next; keeps|].
  letter Miss; [apply step_next; keeps|].
  letter Miss; [destruct (c_u c); try done; apply step_next; keeps|].
  letter Miss; [split; [keeps|right; by rewrite E]|].
  by apply step_next.
Qed.

(** ** A cycle *)

(** The commands of a running program: of the command at [pc] *)
Record runs nf n (pc : nat) c : Prop := {
  rn_payload : payload_ok nf (c_letter c) (c_u c);
  rn_jump : jump_ok n pc c
}.

Definition quits (cmds : list sed_cmd) : Prop := exists c, c ∈ cmds /\ one_of (c_letter c) "qQ".

Record state_wf nf st : Prop := {
  sw_cmds : forall pc c, st_cmds st !! pc = Some c -> runs nf (List.length (st_cmds st)) pc c;
  sw_quit : st_quit st = None \/ ahead st = [] \/ quits (st_cmds st)
}.

(** What is the same in two versions of a command *)
Record same_code c c' : Prop := {
  sc_letter : c_letter c' = c_letter c;
  sc_u : c_u c' = c_u c;
  sc_jump : c_jump c' = c_jump c;
  sc_a1 : c_a1 c' = c_a1 c;
  sc_a2 : is_regex (c_a2 c') = is_regex (c_a2 c)
}.

(** Neither s nor an address with a regular expression *)
Definition no_regex (cmds : list sed_cmd) : Prop :=
  Forall (fun c => c_letter c <> ch "s" /\ is_regex (c_a1 c) = false /\ is_regex (c_a2 c) = false) cmds.

Lemma range_match_code c st m c' re : sed_range_match c st = Some (m, c', re) -> same_code c c'.
Proof.
  unfold sed_range_match. intros E. assert (O : is_regex (snd (open_range (c_a2 c) st)) = is_regex (c_a2 c))
    by (unfold open_range; destruct (c_a2 c) as [| | | | |line step]; try done; by destruct (step =? 0)).
  repeat case_match; simplify_eq; by repeat split.
Qed.

Lemma addr_defined a st : is_regex a = false -> sed_addr_match a st <> None.
Proof. by destruct a. Qed.

Lemma range_match_defined c st : is_regex (c_a1 c) = false -> is_regex (c_a2 c) = false -> sed_range_match c st <> None.
Proof.
  intros R1 R2. unfold sed_range_match. pose proof (addr_defined _ st R1). pose proof (addr_defined _ st R2).
  assert (closes_range (c_a2 c) st <> None) by (by revert R2; destruct (c_a2 c)).
  repeat case_match; done.
Qed.

(** No "D", and every branch leads forward *)
Definition forward (cmds : list sed_cmd) : Prop :=
  forall pc c, cmds !! pc = Some c -> c_letter c <> ch "D" /\ (one_of (c_letter c) "btT" -> (pc < c_jump c)%nat).

(** The program of a state, up to what runs change in it *)
Definition same_program (cmds cmds' : list sed_cmd) : Prop := Forall2 same_code cmds cmds'.

Lemma same_program_refl cmds : same_program cmds cmds.
Proof. apply Forall2_same_length_lookup. split; [done|]. intros i x y X Y. simplify_eq. by repeat split. Qed.

Lemma same_program_trans l1 l2 l3 : same_program l1 l2 -> same_program l2 l3 -> same_program l1 l3.
Proof.
  intros F. revert l3. induction F as [|x y l l' [] F IH]; intros l3 G;
    inversion G as [|y' z ? ? []]; subst; constructor; [split; congruence|by apply IH].
Qed.

Lemma same_program_insert cmds pc c c' : cmds !! pc = Some c -> same_code c c' ->
  same_program cmds (<[pc := c']> cmds).
Proof.
  intros X S. rewrite <-(list_insert_id cmds pc c X) at 1. apply Forall2_insert; [apply same_program_refl|done].
Qed.

Lemma same_program_lookup cmds cmds' pc c' : same_program cmds cmds' -> cmds' !! pc = Some c' ->
  exists c, cmds !! pc = Some c /\ same_code c c'.
Proof. intros F X. destruct (Forall2_lookup_r _ _ _ _ _ F X) as (c & ? & ?). by exists c. Qed.

Lemma same_wf nf cmds cmds' : same_program cmds cmds' ->
  (forall pc c, cmds !! pc = Some c -> runs nf (List.length cmds) pc c) ->
  forall pc c, cmds' !! pc = Some c -> runs nf (List.length cmds') pc c.
Proof.
  intros F R pc c' X. destruct (same_program_lookup _ _ _ _ F X) as (c & Y & [L U J _ _]).
  rewrite <-(Forall2_length _ _ _ F). destruct (R pc c Y) as [P [B Br]]. split; [by rewrite L, U|].
  split; [by rewrite J|]. rewrite L, J. done.
Qed.

Lemma same_quits cmds cmds' : same_program cmds cmds' -> quits cmds -> quits cmds'.
Proof.
  intros F (c & I & Q). apply list_elem_of_lookup in I as [pc X]. destruct (Forall2_lookup_l _ _ _ _ _ F X) as (c' & Y & [L _ _ _ _]).
  exists c'. split; [by eapply list_elem_of_lookup_2|]. by rewrite L.
Qed.

Lemma same_forward cmds cmds' : same_program cmds cmds' -> forward cmds -> forward cmds'.
Proof.
  intros F Fw pc c' X. destruct (same_program_lookup _ _ _ _ F X) as (c & Y & [L U J _ _]). rewrite L, J. by apply Fw.
Qed.

Lemma same_no_regex cmds cmds' : same_program cmds cmds' -> no_regex cmds -> no_regex cmds'.
Proof.
  intros F N. unfold no_regex in *. apply Forall_lookup. intros i c' X.
  destruct (same_program_lookup _ _ _ _ F X) as (c & Y & [L _ _ R1 R2]).
  rewrite Forall_lookup in N. destruct (N i c Y) as (A & B & D). rewrite L, R1, R2. done.
Qed.

(** What a cycle makes of a state *)
Record goes nf st st' : Prop := {
  go_wf : state_wf nf st';
  go_program : same_program (st_cmds st) (st_cmds st');
  go_ahead : ahead st' `suffix_of` ahead st
}.

Lemma goes_trans nf s1 s2 s3 : goes nf s1 s2 -> goes nf s2 s3 -> goes nf s1 s3.
Proof. intros [_ P A] [W P' A']. split; [done|by eapply same_program_trans|by etrans]. Qed.

Lemma keeps_goes nf st st' : state_wf nf st -> keeps st st' -> goes nf st st'.
Proof.
  intros [R Q] [A B S]. split; [split|by rewrite A; apply same_program_refl|done].
  - by rewrite A.
  - rewrite A, B. destruct Q as [?|[E|?]]; auto. right; left. rewrite E in S. by apply suffix_nil_inv in S.
Qed.

Lemma end_cycle_keeps st : exists st', end_cycle st = Ended (bool_decide (is_Some (st_quit st))) st' /\ keeps st st'.
Proof.
  unfold end_cycle. set (st1 := if _ && _ then sed_out_pattern st else st).
  assert (K : keeps st (sed_pending_flush st1)) by (unfold st1; destruct (_ && _); keeps).
  eexists. split; [|exact K]. f_equal. rewrite (k_quit _ _ K). destruct (st_quit st); [by rewrite bool_decide_true|].
  rewrite bool_decide_false; [done|]. by intros [? ?].
Qed.

(** One pass of the loop over the commands *)
Lemma exec_step_ok nf pc st : state_wf nf st -> (pc < List.length (st_cmds st))%nat ->
  match exec_step pc st with
  | Next pc' st' => goes nf st st' /\ (forward (st_cmds st) -> (pc < pc')%nat)
  | Restart st' => goes nf st st' /\ ~ forward (st_cmds st)
  | EndCycle st' => goes nf st st'
  | Broken => False
  | Undefined => ~ no_regex (st_cmds st)
  end.
Proof.
  intros W L. unfold exec_step. destruct (lookup_lt_is_Some_2 _ _ L) as [c X]. rewrite X.
  assert (Nr : no_regex (st_cmds st) -> c_letter c <> ch "s" /\ is_regex (c_a1 c) = false /\ is_regex (c_a2 c) = false)
    by (intros N; by apply (Forall_lookup_1 _ _ _ _ N X)).
  destruct (sed_range_match c st) as [[[m c'] re]|] eqn:Rm.
  2:{ intros N. destruct (Nr N) as (_ & R1 & R2). by apply (range_match_defined c st R1 R2). }
  apply range_match_code in Rm.
  set (st1 := with_cmd pc c' (with_re re st)). pose proof (sw_cmds _ _ W pc c X) as [P [Jn Jb]].
  assert (S1 : same_program (st_cmds st) (st_cmds st1)) by (by apply (same_program_insert _ _ c)).
  assert (W1 : state_wf nf st1).
  { split; [by eapply same_wf, sw_cmds|]. destruct (sw_quit _ _ W) as [?|[?|Q]]; [by left|right; by left|].
    right; right. by eapply same_quits. }
  assert (G : forall st', goes nf st1 st' -> goes nf st st') by (intros st' ?; by eapply goes_trans).
  destruct Rm as [Lt U J _ _]. destruct m.
  - pose proof (exec_cmd_ok nf pc c' st1 ltac:(by rewrite Lt, U)) as Ok.
    unfold step_ok in Ok. rewrite Lt, J in Ok.
    destruct (exec_cmd pc c' st1) as [pc' st'|st'|st'| |]; try done; [| | |by intros (N & _)%Nr].
    + destruct Ok as [K Pc]. split; [by apply G, keeps_goes|]. intros F. destruct Pc as [->|[-> B]]; [lia|].
      by apply (F pc c X).
    + destruct Ok as [K D]. split; [by apply G, keeps_goes|]. intros F. by apply (F pc c X).
    + destruct Ok as (A & S & Q). apply G. split; [split|by rewrite A; apply same_program_refl|done].
      * rewrite A. apply (sw_cmds _ _ W1).
      * destruct Q as [Q|[Q|Q]]; [|right; by left|].
        -- rewrite Q, A. destruct (sw_quit _ _ W1) as [?|[E|?]]; auto. right; left. rewrite E in S. by apply suffix_nil_inv in S.
        -- right; right. rewrite A. exists c'. split; [|by rewrite Lt]. eapply list_elem_of_lookup_2. apply list_lookup_insert_eq. exact L.
  - split; [by apply G, keeps_goes|]. intros _. rewrite Lt, J. destruct (Z.eqb_spec (c_letter c) (ch "{")); [auto|lia].
Qed.

Lemma cycle_ok nf fuel pc st : state_wf nf st ->
  match cycle_loop fuel pc st with
  | Ended q st' => goes nf st st' /\ q = bool_decide (is_Some (st_quit st'))
  | IsBroken => False
  | IsUndefined => ~ no_regex (st_cmds st)
  | NoFuel => forward (st_cmds st) -> (fuel <= List.length (st_cmds st) - pc)%nat
  end.
Proof.
  revert pc st. induction fuel as [|fuel IH]; intros pc st W; cbn [cycle_loop]; [intros _; lia|].
  assert (En : forall st1, goes nf st st1 ->
    match end_cycle st1 with
    | Ended q st' => goes nf st st' /\ q = bool_decide (is_Some (st_quit st'))
    | IsBroken => False
    | IsUndefined => ~ no_regex (st_cmds st)
    | NoFuel => forward (st_cmds st) -> (S fuel <= List.length (st_cmds st) - pc)%nat
    end).
  { intros st1 G. destruct (end_cycle_keeps st1) as (st' & -> & K). split; [|by rewrite (k_quit _ _ K)].
    eapply goes_trans; [exact G|]. apply keeps_goes; [apply (go_wf _ _ _ G)|done]. }
  destruct (Nat.leb_spec (List.length (st_cmds st)) pc) as [|L]; [by apply En, keeps_goes|].
  pose proof (exec_step_ok nf pc st W L) as St. destruct (exec_step pc st) as [pc' st1|st1|st1| |]; try done.
  - destruct St as [G F]. specialize (IH pc' st1 (go_wf _ _ _ G)).
    destruct (cycle_loop fuel pc' st1) as [q st'| | |]; try done.
    + destruct IH as [G' ->]. split; [by eapply goes_trans|done].
    + intros N. apply IH. by eapply same_no_regex; [apply (go_program _ _ _ G)|].
    + intros Fw. specialize (F Fw). rewrite (Forall2_length _ _ _ (go_program _ _ _ G)) in *.
      specialize (IH (same_forward _ _ (go_program _ _ _ G) Fw)). lia.
  - destruct St as [G F]. assert (G1 : goes nf st (with_suppress false st1)).
    { eapply goes_trans; [exact G|]. apply keeps_goes; [apply (go_wf _ _ _ G)|apply keeps_suppress]. }
    specialize (IH 0%nat _ (go_wf _ _ _ G1)). destruct (cycle_loop fuel 0 _) as [q st'| | |]; try done.
    + destruct IH as [G' ->]. split; [by eapply goes_trans|done].
    + intros N. apply IH. by eapply same_no_regex; [apply (go_program _ _ _ G)|].
  - by apply En.
Qed.

(** ** The run *)

Lemma run_loop_ok nf fuel lines st : state_wf nf st -> st_quit st = None ->
  match run_loop fuel lines st with
  | Finished _ ctx => quits (st_cmds st) \/ io_lines ctx = []
  | RunBroken => False
  | RunUndefined => ~ no_regex (st_cmds st)
  | RunNoFuel => forward (st_cmds st) -> (fuel <= List.length (st_cmds st))%nat \/ (lines <= List.length (ahead st))%nat
  end.
Proof.
  revert st. induction lines as [|lines IH]; intros st W Q; cbn [run_loop]; [intros _; right; lia|].
  destruct (fetch_line_spec st) as (F & Cm & Qu). pose proof (fetch_line_keeps st) as K.
  destruct (fetch_line st) as [l st1]. cbn [fst snd] in *.
  destruct (ahead st) as [|[line nl] rest] eqn:Ah; destruct F as [-> A1].
  { right. unfold finish. unfold ahead in A1. by apply app_eq_nil in A1 as [_ ?]. }
  set (st2 := with_tflag false _).
  assert (K2 : keeps st1 st2) by (unfold st2, next_line; keeps).
  assert (W2 : state_wf nf st2).
  { apply (go_wf nf st). apply keeps_goes; [done|]. by etrans. }
  pose proof (cycle_ok nf fuel 0 (with_suppress false st2) (go_wf _ _ _ (keeps_goes _ _ _ W2 (keeps_suppress _ _)))) as Cy.
  unfold run_one_cycle. destruct (cycle_loop fuel 0 _) as [q st3| | |]; try done.
  - destruct Cy as [[W3 P3 A3] ->]. change (st_cmds (with_suppress false st2)) with (st_cmds st2) in P3.
    rewrite (k_cmds _ _ K2), Cm in P3.
    assert (Qs : quits (st_cmds st3) -> quits (st_cmds st)).
    { intros Q3. eapply same_quits; [|exact Q3]. eapply Forall2_flip, Forall2_impl; [exact P3|].
      intros x y []. by split. }
    case_bool_decide as Sq.
    + unfold finish. destruct (sw_quit _ _ W3) as [Q3|[A|Q3]]; [rewrite Q3 in Sq; by destruct Sq| |left; auto].
      right. unfold ahead in A. by apply app_eq_nil in A as [_ ?].
    + assert (Q3 : st_quit st3 = None) by (destruct (st_quit st3); [by destruct Sq|done]).
      specialize (IH st3 W3 Q3). destruct (run_loop fuel lines st3); try done; [destruct IH; auto| |].
      { intros N. apply IH. by eapply same_no_regex. }
      intros Fw. specialize (IH (same_forward _ _ P3 Fw)). rewrite <-(Forall2_length _ _ _ P3) in IH.
      destruct IH as [?|Le]; [by left|right]. apply suffix_length in A3. cbn in A3.
      assert (L2 : (List.length (ahead st2) <= List.length rest)%nat) by (rewrite <-A1; apply suffix_length, K2).
      assert (ahead (with_suppress false st2) = ahead st2) as E by done. rewrite E in A3. cbn. lia.
  - intros N. apply Cy. change (st_cmds (with_suppress false st2)) with (st_cmds st2). by rewrite (k_cmds _ _ K2), Cm.
  - intros Fw. left. change (st_cmds (with_suppress false st2)) with (st_cmds st2) in Cy.
    rewrite (k_cmds _ _ K2), Cm in Cy. specialize (Cy Fw). lia.
Qed.

End Flow.
