(* ===== verification/SedLines.v ===== *)
(** * What sed makes of a text, line by line (text/sed/sed_cycle.c)

    [SedOutput] is what a run needs of the callback that writes: what is
    written comes behind what was written before.  A program whose cycle
    writes something for each line, and leaves the state as it found it,
    writes the concatenation ([run_lines]). *)

From S2P Require Import Prelude Scan Dfa DfaRun DfaReplace DfaSubst Sed SedParse SedRun SedFlow.

Class SedOutput (C : Type) `{SedInput C} := {
  io_text : C -> bytes;
  io_out_text : forall t ctx, io_text (io_out t ctx) = io_text ctx ++ t;
  io_read_text : forall ctx, io_text (snd (io_read ctx)) = io_text ctx
}.

(** A line with its newline, if it had one *)
Definition line_text (l : bytes * bool) : bytes := fst l ++ (if snd l then [10] else []).

Section Lines.
Context {C : Type} `{SedOutput C}.

Implicit Types (st : sed_state C).

(** The state between two cycles, with [k] lines read *)
Record at_top (off : bool) (k : Z) st : Prop := {
  at_lineno : st_lineno st = k;
  at_pending : st_pending st = [];
  at_quit : st_quit st = None;
  at_autoprint : st_autoprint_off st = off
}.

Definition text_of st : bytes := io_text (st_ctx st).

(** What is written for the lines behind the [k]-th *)
Fixpoint emitted (emit : Z -> bytes * bool -> bytes) (k : Z) (lines : list (bytes * bool)) : bytes :=
  match lines with
  | [] => []
  | l :: lines => emit (k + 1) l ++ emitted emit (k + 1) lines
  end.

(** One cycle, in a state that is at the line [k] *)
Definition cycle_emits (off : bool) (Inv : Z -> list sed_cmd -> Prop) (emit : Z -> bytes * bool -> bytes)
    (fuel : nat) (k : Z) (l : bytes * bool) : Prop :=
  forall st, Inv (k - 1) (st_cmds st) -> at_top off k st -> st_pattern st = fst l -> st_had_nl st = snd l ->
  st_suppress st = false ->
  exists st', cycle_loop fuel 0 st = Ended false st' /\ Inv k (st_cmds st') /\ at_top off k st' /\
    text_of st' = text_of st ++ emit k l /\ ahead st' = ahead st.

Lemma fetch_line_top off k st : at_top off k st ->
  at_top off k (snd (fetch_line st)) /\ text_of (snd (fetch_line st)) = text_of st /\
  st_cmds (snd (fetch_line st)) = st_cmds st.
Proof.
  assert (R : forall s, at_top off k s -> at_top off k (read_next s) /\ text_of (read_next s) = text_of s /\
    st_cmds (read_next s) = st_cmds s).
  { intros s [A B D E]. unfold read_next, text_of. pose proof (io_read_text (st_ctx s)) as T.
    destruct (io_read _) as [l ctx]. cbn in *. by repeat split. }
  intros T. unfold fetch_line. set (st1 := match st_next st with Some _ => st | None => read_next st end).
  assert (T1 : at_top off k st1 /\ text_of st1 = text_of st /\ st_cmds st1 = st_cmds st).
  { unfold st1. destruct (st_next st); [done|by apply R]. }
  destruct T1 as (T1 & E1 & C1). destruct (st_next st1) as [[line nl]|]; cbn [snd]; [|done].
  destruct (R st1 T1) as (T2 & E2 & C2). split_and!; [done|congruence|congruence].
Qed.

Lemma run_lines off Inv emit fuel lines k st : Inv k (st_cmds st) -> at_top off k st -> 0 <= k ->
  (forall i l, ahead st !! i = Some l -> cycle_emits off Inv emit fuel (k + 1 + Z.of_nat i) l) ->
  k + Z.of_nat (List.length (ahead st)) < 2 ^ 64 -> (List.length (ahead st) < lines)%nat ->
  exists ctx, run_loop fuel lines st = Finished 0 ctx /\ io_text ctx = text_of st ++ emitted emit k (ahead st).
Proof.
  revert k st. induction lines as [|lines IH]; intros k st I T K Cy Fit L; [lia|]. cbn [run_loop].
  destruct (fetch_line_spec st) as (F & _). destruct (fetch_line_top off k st T) as (T1 & E1 & C1).
  destruct (fetch_line st) as [l st1]. cbn [fst snd] in *.
  destruct (ahead st) as [|[line nl] rest] eqn:Ah; destruct F as [-> A1].
  { exists (st_ctx st1). unfold finish. rewrite (at_quit _ _ _ T1). split; [done|]. cbn. by rewrite app_nil_r. }
  unfold run_one_cycle.
  assert (Ln : u64 (st_lineno st1 + 1) = k + 1).
  { rewrite (at_lineno _ _ _ T1). unfold u64. rewrite Z.mod_small; [done|]. cbn in Fit. lia. }
  set (st2 := with_suppress false _).
  destruct (Cy 0%nat (line, nl) eq_refl st2) as (st' & E & I' & T' & X & A); try done.
  - unfold st2, next_line. cbn. replace (k + 1 + Z.of_nat 0 - 1) with k by lia. by rewrite C1.
  - destruct T1 as [? ? ? ?]. split; cbn; try done. rewrite Ln. lia.
  - rewrite E. replace (k + 1 + Z.of_nat 0) with (k + 1) in * by lia.
    assert (A2 : ahead st' = rest) by (rewrite A; exact A1).
    destruct (IH (k + 1) st' I' T') as (ctx & R & Tx); try lia.
    + intros i l X'. rewrite A2 in X'. replace (k + 1 + 1 + Z.of_nat i) with (k + 1 + Z.of_nat (S i)) by lia.
      by apply (Cy (S i) l).
    + rewrite A2. cbn [List.length] in Fit. lia.
    + rewrite A2. cbn in L. lia.
    + exists ctx. split; [done|]. rewrite Tx, X, A2. cbn [emitted]. rewrite <-app_assoc. f_equal. exact E1.
Qed.

(** ** Cycles *)

Lemma out_text t st : text_of (out t st) = text_of st ++ t.
Proof. unfold text_of. cbn. apply io_out_text. Qed.

Lemma out_pattern_text st : text_of (sed_out_pattern st) = text_of st ++ line_text (st_pattern st, st_had_nl st).
Proof.
  unfold sed_out_pattern, line_text. cbn [fst snd]. change (st_had_nl (out (st_pattern st) st)) with (st_had_nl st).
  destruct (st_had_nl st); rewrite ?out_text; [by rewrite app_assoc|by rewrite app_nil_r].
Qed.

Lemma out_pattern_top off k st : at_top off k st -> at_top off k (sed_out_pattern st).
Proof. intros [? ? ? ?]. unfold sed_out_pattern. by destruct (st_had_nl _). Qed.

(** The end of a cycle that does not quit *)
Lemma end_cycle_top off k st : at_top off k st -> st_suppress st = false ->
  exists st', end_cycle st = Ended false st' /\ st_cmds st' = st_cmds st /\ at_top off k st' /\
    text_of st' = text_of st ++ (if off then [] else line_text (st_pattern st, st_had_nl st)) /\ ahead st' = ahead st.
Proof.
  intros T S. unfold end_cycle. rewrite S, (at_autoprint _ _ _ T). cbn [negb andb].
  assert (Fl : forall s, at_top off k s -> sed_pending_flush s = with_pending [] s /\ at_top off k (with_pending [] s)).
  { intros s [A B D E]. unfold sed_pending_flush. rewrite B. by destruct s. }
  destruct off; cbn [negb].
  - destruct (Fl st T) as [-> T']. eexists. split; [by rewrite (at_quit _ _ _ T')|]. split_and!; try done. by rewrite app_nil_r.
  - destruct (Fl (sed_out_pattern st) (out_pattern_top _ _ _ T)) as [-> T']. eexists.
    split; [by rewrite (at_quit _ _ _ T')|]. pose proof (out_pattern_text st). split_and!; try done.
    + unfold sed_out_pattern. by destruct (st_had_nl _).
    + unfold sed_out_pattern, ahead. destruct (st_had_nl _); cbn; by rewrite !io_out_lines.
Qed.

(** A program of one command *)
Lemma one_command fuel c st st' : (3 <= fuel)%nat -> st_cmds st = [c] -> exec_step 0 st = Next 1 st' ->
  List.length (st_cmds st') = 1%nat -> cycle_loop fuel 0 st = end_cycle st'.
Proof.
  intros F E X L. destruct fuel as [|[|fuel]]; try lia. cbn [cycle_loop]. rewrite E. cbn [List.length Nat.leb].
  rewrite X, L. done.
Qed.

End Lines.
