(* ===== verification/SedText.v ===== *)
(** * Scripts without escapes (text/sed/sed_parse.c)

    What sed_compile makes of the scripts "s/pattern/template/g",
    "y/from/to/", "/pattern/p" and "M,Np", for texts without a slash, a
    backslash or a newline. *)

From S2P Require Import Prelude Scan Dfa DfaParse DfaRun DfaReplace DfaSubst Sed SedParse.

#[local] Open Scope shish_scope.

Definition script_byte (c : Z) : Prop := is_byte c /\ c <> ch "/" /\ c <> ch "\" /\ c <> 10.

Section Text.
Context (buf : bytes) (flags : Z).

Abbreviation e := (List.length buf).

Lemma rd_at p c t : drop p buf = c :: t -> rd buf p = c /\ lt e p = true /\ drop (S p) buf = t.
Proof.
  intros D. assert (L : (p < e)%nat).
  { destruct (decide (p < e)%nat) as [|N]; [done|]. rewrite drop_ge in D by lia. done. }
  destruct (lookup_lt_is_Some_2 buf p L) as [x X]. rewrite (drop_S _ _ _ X) in D. injection D as -> ->.
  unfold rd. rewrite cnth_lookup, X. by rewrite (proj2 (lt_spec _ _) L).
Qed.

Lemma rd_end p : drop p buf = [] -> lt e p = false.
Proof.
  intros D. apply (f_equal (@List.length Z)) in D. rewrite length_drop in D. cbn in D.
  apply Nat.ltb_ge. lia.
Qed.

(** Where a test stops *)
Lemma skip_all_stop f p c t : drop p buf = c :: t -> f c = false -> skip_all buf e f p = p.
Proof.
  intros D F. destruct (rd_at p c t D) as (R & L & _). unfold skip_all. destruct (e - p)%nat; [done|].
  cbn [skip_while]. by rewrite L, R, F.
Qed.

Lemma skip_all_end f p : drop p buf = [] -> skip_all buf e f p = p.
Proof. intros D. unfold skip_all. destruct (e - p)%nat; [done|]. cbn [skip_while]. by rewrite rd_end. Qed.

Lemma at_c_head c d p t : drop p buf = d :: t -> at_c buf e c p = (d =? c).
Proof. intros D. destruct (rd_at p d t D) as (R & L & _). unfold at_c. by rewrite R, L. Qed.

Lemma at_c_end c p : drop p buf = [] -> at_c buf e c p = false.
Proof. intros D. unfold at_c. by rewrite rd_end. Qed.

Lemma skip_sep_stop p c t : drop p buf = c :: t -> is_space c = false -> c <> 10 -> c <> ch ";" -> c <> ch "#" ->
  skip_sep buf e p = p.
Proof.
  intros D S N1 N2 N3. unfold skip_sep. cbn [skip_sep_loop]. unfold skip_blank. rewrite (skip_all_stop _ p c t) by done.
  rewrite !(at_c_head _ c p t) by done.
  destruct (Z.eqb_spec c 10); [done|]. destruct (Z.eqb_spec c (ch ";")); [done|]. by destruct (Z.eqb_spec c (ch "#")).
Qed.

Lemma skip_sep_end p : drop p buf = [] -> skip_sep buf e p = p.
Proof.
  intros D. unfold skip_sep. cbn [skip_sep_loop]. unfold skip_blank. rewrite skip_all_end by done.
  by rewrite !at_c_end by done.
Qed.

Lemma drop_app_more p (l m : bytes) : drop p buf = l ++ m -> drop (p + List.length l) buf = m.
Proof. intros D. rewrite <-drop_drop, D. apply drop_app_length. Qed.

Lemma sub_app p l m : drop p buf = l ++ m -> sub buf p (p + List.length l) = l.
Proof. intros D. unfold sub. rewrite D. replace (p + List.length l - p)%nat with (List.length l) by lia. apply take_app_length. Qed.

(** Reading such a text up to the slash *)
Lemma subst_pattern_text t rest fuel p acc : drop p buf = t ++ ch "/" :: rest -> Forall script_byte t ->
  (List.length t < fuel)%nat -> subst_pattern buf e fuel (ch "/") p acc = Ok ((p + List.length t + 1)%nat, acc ++ t).
Proof.
  intros D F. revert fuel p acc D. induction F as [|c t (B & N1 & N2 & N3) F IH]; intros fuel p acc D L;
    (destruct fuel as [|fuel]; [cbn in L; lia|]); destruct (rd_at p _ _ D) as (R & Lt & D'); cbn [subst_pattern];
    rewrite R, Lt; cbn [negb].
  - rewrite Z.eqb_refl. do 2 f_equal; [cbn; lia|by rewrite app_nil_r].
  - destruct (Z.eqb_spec c (ch "/")); [done|]. destruct (Z.eqb_spec c (ch "\")); [done|]. cbn [andb].
    destruct (Z.eqb_spec c 10); [done|]. rewrite IH; [|done|cbn in L; lia].
    do 2 f_equal; [cbn; lia|by rewrite <-app_assoc].
Qed.

Lemma addr_pattern_text t rest fuel p acc : drop p buf = t ++ ch "/" :: rest -> Forall script_byte t ->
  (List.length t < fuel)%nat -> addr_pattern buf e fuel (ch "/") p acc = Ok ((p + List.length t + 1)%nat, acc ++ t).
Proof.
  intros D F. revert fuel p acc D. induction F as [|c t (B & N1 & N2 & N3) F IH]; intros fuel p acc D L;
    (destruct fuel as [|fuel]; [cbn in L; lia|]); destruct (rd_at p _ _ D) as (R & Lt & D'); cbn [addr_pattern];
    rewrite R, Lt; cbn [negb].
  - rewrite Z.eqb_refl. do 2 f_equal; [cbn; lia|by rewrite app_nil_r].
  - destruct (Z.eqb_spec c (ch "/")); [done|]. destruct (Z.eqb_spec c (ch "\")); [done|]. cbn [andb].
    rewrite IH; [|done|cbn in L; lia]. do 2 f_equal; [cbn; lia|by rewrite <-app_assoc].
Qed.

Lemma y_list_text t rest fuel p acc : drop p buf = t ++ ch "/" :: rest -> Forall script_byte t ->
  (List.length t < fuel)%nat -> y_list buf e fuel (ch "/") p acc = Ok ((p + List.length t + 1)%nat, acc ++ t).
Proof.
  intros D F. revert fuel p acc D. induction F as [|c t (B & N1 & N2 & N3) F IH]; intros fuel p acc D L;
    (destruct fuel as [|fuel]; [cbn in L; lia|]); destruct (rd_at p _ _ D) as (R & Lt & D'); cbn [y_list];
    rewrite R, Lt; cbn [negb].
  - rewrite Z.eqb_refl. do 2 f_equal; [cbn; lia|by rewrite app_nil_r].
  - destruct (Z.eqb_spec c (ch "/")); [done|]. destruct (Z.eqb_spec c (ch "\")); [done|]. cbn [andb].
    destruct (Z.eqb_spec c 10); [done|]. rewrite IH; [|done|cbn in L; lia].
    do 2 f_equal; [cbn; lia|by rewrite <-app_assoc].
Qed.

Lemma subst_repl_text t rest fuel p : drop p buf = t ++ ch "/" :: rest -> Forall script_byte t ->
  (List.length t < fuel)%nat -> subst_repl buf e fuel (ch "/") p = Ok (p + List.length t)%nat.
Proof.
  intros D F. revert fuel p D. induction F as [|c t (B & N1 & N2 & N3) F IH]; intros fuel p D L;
    (destruct fuel as [|fuel]; [cbn in L; lia|]); destruct (rd_at p _ _ D) as (R & Lt & D'); cbn [subst_repl];
    rewrite R, Lt; cbn [negb].
  - rewrite Z.eqb_refl. do 2 f_equal. cbn; lia.
  - destruct (Z.eqb_spec c (ch "/")); [done|]. destruct (Z.eqb_spec c (ch "\")); [done|]. cbn [andb].
    destruct (Z.eqb_spec c 10); [done|]. rewrite IH; [|done|cbn in L; lia]. f_equal. cbn; lia.
Qed.

End Text.

(** Without a backslash the flags of a template do not matter. *)
Lemma repl_loop_flags fuel f f' p r : Forall plain_byte p -> repl_loop fuel f p r = repl_loop fuel f' p r.
Proof.
  revert p r. induction fuel as [|fuel IH]; intros p r F; [done|]. cbn [repl_loop].
  destruct p as [|c p]; [done|]. pose proof F as F0. apply Forall_cons in F as [N F].
  destruct (_ =? ch "&"); [by apply IH|]. unfold plain_byte in N.
  assert (Dr : forall k, Forall plain_byte (drop k (c :: p))) by (intros k; by apply Forall_drop).
  destruct p as [|x p]; [by apply IH|]. destruct (Z.eqb_spec c (ch "\")); [done|]. by apply IH.
Qed.

Lemma script_plain t : Forall script_byte t -> Forall plain_byte t.
Proof. intros F. eapply Forall_impl; [exact F|]. by intros c (_ & _ & N & _). Qed.

Lemma plain_paired t : Forall plain_byte t -> paired t.
Proof. intros F. induction F as [|c t N F IH]; [done|]. cbn. unfold plain_byte in N. by destruct (Z.eqb_spec c (ch "\")). Qed.

Lemma compile_repl_text t : Forall script_byte t ->
  exists r, dfa_repl_compile t 0 = Some r /\ compile_repl t = Ok r.
Proof.
  intros F%script_plain. unfold compile_repl. unfold dfa_repl_compile.
  rewrite (repl_loop_flags _ DFA_REPL_BACKREF 0) by done.
  destruct (repl_paired_ends (S (List.length t)) 0 t repl_empty (Nat.lt_succ_diag_r _) (plain_paired t F)) as [r E].
  exists r. by rewrite E.
Qed.

(** ** Whole scripts *)

(** Comparisons of letters that are known *)
Ltac letters :=
  repeat match goal with
  | |- context [ch ?x =? ch ?y] => let v := eval vm_compute in (ch x =? ch y) in change (ch x =? ch y) with v
  | |- context [existsb (Z.eqb (ch ?x)) (b ?s)] =>
      let v := eval vm_compute in (existsb (Z.eqb (ch x)) (b s)) in change (existsb (Z.eqb (ch x)) (b s)) with v
  end; cbn [negb andb orb].

(** The command [letter] at [p], after [naddr] addresses, and nothing behind *)
Definition one_cmd (c : sed_cmd) (fl : Z) : sed := Sed [c] fl (has fl SED_NOAUTOPRINT) [].

Lemma compile_one buf fl c p : sed_parse_command buf (List.length buf) fl 0 (Builder [] [] [] [] []) =
    Ok (p, push_cmd c (Builder [] [] [] [] [])) ->
  skip_sep buf (List.length buf) 0 = 0%nat -> rd buf 0 <> ch "#" -> (0 < List.length buf)%nat ->
  drop p buf = [] -> (0 < p)%nat ->
  sed_compile buf (List.length buf) fl = Ok (one_cmd c fl).
Proof.
  intros P S N L D Lp. unfold sed_compile, sed_parse.
  assert (Hn : hash_n buf (List.length buf) = false).
  { unfold hash_n. destruct (Z.eqb_spec (rd buf 0) (ch "#")); [done|]. by rewrite andb_false_r. }
  rewrite Hn, orb_false_r, Nat.sub_0_r. cbn [parse_commands]. rewrite S.
  unfold lt at 1. rewrite (proj2 (Nat.ltb_lt _ _)) by done. rewrite P. cbn [rbind].
  destruct (List.length buf) as [|n] eqn:E; [lia|]. cbn [parse_commands]. rewrite <-E.
  rewrite skip_sep_end by done. rewrite rd_end by done. cbn. done.
Qed.

Lemma parse_negate_none buf fuel p c t : drop p buf = c :: t -> c <> ch "!" ->
  parse_negate buf (List.length buf) fuel p false = (p, false).
Proof.
  intros D N. destruct fuel; [done|]. cbn [parse_negate]. rewrite (at_c_head _ _ _ _ _ D).
  by destruct (Z.eqb_spec c (ch "!")).
Qed.

(** A script that begins with a letter *)
Lemma parse_first buf fl x t : let buf' := ch x :: t in buf = buf' ->
  is_digit (ch x) || existsb (Z.eqb (ch x)) (b "$/\! #;") || (ch x =? 9) || (ch x =? 10) = false ->
  sed_parse_command buf (List.length buf) fl 0 (Builder [] [] [] [] []) =
    parse_letter buf (List.length buf) fl (Cmd (ch x) 0 false SA_NONE SA_NONE 0 false U_NONE) 0 (Builder [] [] [] [] []) /\
  skip_sep buf (List.length buf) 0 = 0%nat /\ rd buf 0 = ch x /\ (0 < List.length buf)%nat.
Proof.
  intros buf' E F. assert (D : drop 0 buf = ch x :: t) by (by rewrite E).
  cbn [existsb b list_ascii_of_string List.map] in F.
  repeat match type of F with context [b_of_ascii ?a] => change (b_of_ascii a) with (ch a) in F end.
  rewrite !orb_false_iff in F. destruct F as (((F1 & F2 & F3 & F4 & F5 & F6 & F7 & F8 & _) & F9) & F10).
  apply Z.eqb_neq in F5, F7, F8, F10.
  destruct (rd_at buf 0 _ _ D) as (R & Lt & _).
  assert (Sp : is_space (ch x) = false).
  { unfold is_space. apply Z.eqb_neq in F6. change (ch " ") with 32 in F6. rewrite F9.
    by destruct (Z.eqb_spec (ch x) 32). }
  split_and!; [|by eapply skip_sep_stop|done|by apply lt_spec].
  unfold sed_parse_command, parse_addrs.
  assert (La : looks_like_addr buf (List.length buf) 0 = false).
  { unfold looks_like_addr. by rewrite Lt, R, F1, F2, F3, F4. }
  rewrite La. cbn [rbind]. unfold skip_blank. rewrite (skip_all_stop _ _ _ _ _ D Sp).
  rewrite (parse_negate_none _ _ _ _ _ D) by done. rewrite Lt, R. cbn [negb]. by destruct (max_addr (ch x)).
Qed.

Definition subst_cmd (d : dfa) (r : dfa_repl) : sed_cmd :=
  Cmd (ch "s") 0 false SA_NONE SA_NONE 0 false (U_S (Subst (Some d) r true false false false 0 None)).

Definition subst_script (pat tmpl : bytes) : bytes := b "s/" ++ pat ++ b "/" ++ tmpl ++ b "/g".

Lemma compile_subst pat tmpl d r fl : Forall script_byte pat -> pat <> [] -> Forall script_byte tmpl ->
  dfa_compile pat (regex_flags (has fl SED_ERE) false false) = Some (inl d) -> compile_repl tmpl = Ok r ->
  sed_compile (subst_script pat tmpl) (List.length (subst_script pat tmpl)) fl = Ok (one_cmd (subst_cmd d r) fl).
Proof.
  intros Fp Ne Ft Cd Cr. set (buf := subst_script pat tmpl).
  destruct (parse_first buf fl "s" _ eq_refl eq_refl) as (P & Sk & R & L).
  assert (D1 : drop 2 buf = pat ++ ch "/" :: tmpl ++ ch "/" :: [ch "g"]) by done.
  pose proof (drop_app_more _ _ _ _ D1) as D2. apply (rd_at buf) in D2 as (_ & _ & D2).
  pose proof (drop_app_more _ _ _ _ D2) as D3. pose proof D3 as D3'. apply (rd_at buf) in D3 as (_ & _ & D3).
  destruct (rd_at buf _ _ _ D3) as (R3 & L3 & D4).
  eapply (compile_one buf fl _ (S (S (S (2 + List.length pat) + List.length tmpl)))); [rewrite P|done|by rewrite R|done|exact D4|lia].
  unfold parse_letter. cbn [c_letter]. letters. cbn iota.
  unfold is_plain. letters. cbn iota.
  unfold sed_subst_parse. destruct (rd_at buf 1 (ch "/") _ eq_refl) as (R1 & L1 & _). rewrite R1, L1.
  unfold bad_delim. letters. change (ch "/" =? 10) with false. cbn [orb negb]. cbn iota.
  assert (Len : (2 + List.length pat + 1 + List.length tmpl < List.length buf)%nat).
  { unfold buf, subst_script. rewrite !length_app. cbn. lia. }
  rewrite (subst_pattern_text buf pat _ _ 2 [] D1 Fp) by lia. cbn [rbind app].
  replace (2 + List.length pat + 1)%nat with (S (2 + List.length pat)) by lia.
  rewrite (subst_repl_text buf tmpl _ _ _ D2 Ft) by lia. cbn [rbind].
  rewrite (sub_app buf _ _ _ D2).
  cbn [subst_flags]. rewrite L3, R3. change (is_digit (ch "g")) with false. cbn [andb].
  rewrite !(at_c_head _ _ _ _ _ D3). letters. cbn iota. rewrite (rd_end _ _ D4). cbn [andb].
  rewrite !at_c_end by exact D4. cbn [orb rbind]. destruct (Nat.eqb_spec (List.length pat) 0) as [Z0|_]; [by destruct pat|].
  unfold compile_re. rewrite Cd, Cr. cbn [rbind]. done.
Qed.

Definition y_cmd (map : bytes) : sed_cmd := Cmd (ch "y") 0 false SA_NONE SA_NONE 0 false (U_Y map).

Definition y_script (from to : bytes) : bytes := b "y/" ++ from ++ b "/" ++ to ++ b "/".

Lemma compile_y from to fl : Forall script_byte from -> Forall script_byte to -> List.length from = List.length to ->
  sed_compile (y_script from to) (List.length (y_script from to)) fl =
    Ok (one_cmd (y_cmd (y_map from to y_identity)) fl).
Proof.
  intros Ff Ft Eq. set (buf := y_script from to).
  destruct (parse_first buf fl "y" _ eq_refl eq_refl) as (P & Sk & R & L).
  assert (D1 : drop 2 buf = from ++ ch "/" :: to ++ ch "/" :: []) by done.
  pose proof (drop_app_more _ _ _ _ D1) as D2. apply (rd_at buf) in D2 as (_ & _ & D2).
  pose proof (drop_app_more _ _ _ _ D2) as D3. apply (rd_at buf) in D3 as (_ & _ & D3).
  assert (Len : (2 + List.length from + 1 + List.length to < List.length buf)%nat).
  { unfold buf, y_script. rewrite !length_app. cbn. lia. }
  eapply (compile_one buf fl _ (S (S (2 + List.length from) + List.length to)));
    [rewrite P|done|by rewrite R|done|exact D3|lia].
  unfold parse_letter. cbn [c_letter]. letters. cbn iota.
  unfold is_plain. letters. cbn iota.
  unfold sed_y_parse. destruct (rd_at buf 1 (ch "/") _ eq_refl) as (R1 & L1 & _). rewrite R1, L1.
  unfold bad_delim. letters. change (ch "/" =? 10) with false. cbn [orb negb]. cbn iota.
  rewrite (y_list_text buf from _ _ 2 [] D1 Ff) by lia. cbn [rbind app].
  replace (2 + List.length from + 1)%nat with (S (2 + List.length from)) by lia.
  rewrite (y_list_text buf to _ _ _ [] D2 Ft) by lia. cbn [rbind app].
  rewrite (proj2 (Nat.eqb_eq _ _) Eq). cbn [rbind]. do 2 f_equal. lia.
Qed.

(** A command behind its addresses, at the end of the script *)
Lemma parse_rest buf fl p x naddr a1 a2 : drop p buf = [ch x] ->
  existsb (Z.eqb (ch x)) (b " !") || (ch x =? 9) = false -> (naddr <= max_addr (ch x))%nat ->
  parse_addrs buf (List.length buf) fl 0 = Ok (p, naddr, a1, a2) ->
  sed_parse_command buf (List.length buf) fl 0 (Builder [] [] [] [] []) =
    parse_letter buf (List.length buf) fl (Cmd (ch x) naddr false a1 a2 0 false U_NONE) p (Builder [] [] [] [] []).
Proof.
  intros D F M A. unfold sed_parse_command. rewrite A. cbn [rbind].
  cbn [existsb b list_ascii_of_string List.map] in F.
  repeat match type of F with context [b_of_ascii ?a] => change (b_of_ascii a) with (ch a) in F end.
  rewrite !orb_false_iff in F. destruct F as ((F1 & F2 & _) & F3). apply Z.eqb_neq in F2.
  destruct (rd_at buf p _ _ D) as (R & Lt & _). unfold skip_blank.
  rewrite (skip_all_stop _ _ _ _ _ D) by (unfold is_space; change (ch " ") with 32 in F1; by rewrite F1, F3).
  rewrite (parse_negate_none _ _ _ _ _ D) by done. rewrite Lt, R. cbn [negb].
  destruct (Nat.ltb_spec (max_addr (ch x)) naddr); [lia|done].
Qed.

Definition print_cmd (naddr : nat) (a1 a2 : sed_addr) (in_range : bool) : sed_cmd :=
  Cmd (ch "p") naddr false a1 a2 0 in_range U_NONE.

(** The script that prints the lines a pattern matches *)
Definition grep_script (pat : bytes) : bytes := b "/" ++ pat ++ b "/p".

Lemma compile_grep pat d fl : Forall script_byte pat -> pat <> [] -> has fl SED_ICASE = false -> has fl SED_MULTI = false ->
  dfa_compile pat (regex_flags (has fl SED_ERE) false false) = Some (inl d) ->
  sed_compile (grep_script pat) (List.length (grep_script pat)) fl =
    Ok (one_cmd (print_cmd 1 (SA_REGEX (Some d)) SA_NONE false) fl).
Proof.
  intros F Ne Ic Mu Cd. set (buf := grep_script pat).
  assert (D0 : drop 0 buf = ch "/" :: pat ++ ch "/" :: [ch "p"]) by done.
  destruct (rd_at buf _ _ _ D0) as (R0 & L0 & D1).
  pose proof (drop_app_more _ _ _ _ D1) as D2. apply (rd_at buf) in D2 as (_ & _ & D2).
  destruct (rd_at buf _ _ _ D2) as (R2 & L2 & D3).
  assert (Len : (1 + List.length pat + 1 < List.length buf)%nat).
  { unfold buf, grep_script. rewrite !length_app. cbn. lia. }
  eapply (compile_one buf fl _ (S (S (1 + List.length pat)))); [|by eapply skip_sep_stop|by rewrite R0|lia|exact D3|lia].
  assert (A : parse_addrs buf (List.length buf) fl 0 = Ok (S (1 + List.length pat), 1%nat, SA_REGEX (Some d), SA_NONE)).
  { unfold parse_addrs, looks_like_addr. rewrite L0, R0. change (is_digit (ch "/")) with false. letters.
    unfold sed_addr_parse. rewrite R0. change (is_digit (ch "/")) with false. letters. cbn iota. cbn [rbind].
    rewrite (addr_pattern_text buf pat _ _ 1 [] D1 F) by lia. cbn [rbind app].
    replace (1 + List.length pat + 1)%nat with (S (1 + List.length pat)) by lia.
    rewrite Ic, Mu. destruct (List.length buf - _)%nat; cbn [addr_flags];
      rewrite ?(at_c_head _ _ _ _ _ D2); letters; cbn iota.
    all: destruct (Nat.eqb_spec (List.length pat) 0) as [Z0|_]; [by destruct pat|].
    all: unfold compile_re; rewrite Cd; cbn [rbind].
    all: unfold skip_blank; rewrite (skip_all_stop _ _ _ _ _ D2) by done.
    all: rewrite (at_c_head _ _ _ _ _ D2); letters; done. }
  rewrite (parse_rest buf fl _ "p" 1 _ _ D2 eq_refl ltac:(vm_compute; lia) A).
  unfold parse_letter. cbn [c_letter]. letters. cbn iota. unfold is_plain. letters. cbn iota. done.
Qed.

(** The script that prints the lines [m] to [n] *)
Definition range_script (m n : Z) : bytes := Fmt.fmt_ulong m ++ b "," ++ Fmt.fmt_ulong n ++ b "p".

Lemma number_head i rest : in_u64 i -> exists d t, Fmt.fmt_ulong i ++ rest = d :: t /\ is_digit d = true.
Proof.
  intros H. pose proof (Fmt.fmt_ulonglong_digits i ltac:(unfold in_u64 in H; lia)) as F.
  change (Fmt.fmt_ulonglong i) with (Fmt.fmt_ulong i) in F.
  destruct (Fmt.fmt_ulonglong_cons i) as (d & s & E). change (Fmt.fmt_ulonglong i) with (Fmt.fmt_ulong i) in E.
  rewrite E in *. exists d, (s ++ rest). split; [done|]. apply Forall_cons in F as [Dg _].
  unfold Scan.is_digit in Dg. unfold is_digit. lia.
Qed.

Lemma line_addr buf fl p i rest c : in_u64 i -> drop p buf = Fmt.fmt_ulong i ++ c :: rest -> Forall is_byte (c :: rest) ->
  ~ Scan.is_digit c -> c <> ch "~" ->
  sed_addr_parse buf (List.length buf) fl p = Ok ((p + List.length (Fmt.fmt_ulong i))%nat, SA_LINE i).
Proof.
  intros I D B N T. destruct (number_head i (c :: rest) I) as (d & t & E & Dg). rewrite E in D.
  destruct (rd_at buf p _ _ D) as (R & _ & _). rewrite <-E in D.
  unfold sed_addr_parse. rewrite R, Dg. unfold scan_at. rewrite D, scan_ulong_fmt by done.
  destruct (Nat.eqb_spec (List.length (Fmt.fmt_ulong i)) 0) as [Z0|_].
  { apply nil_length_inv in Z0. rewrite Z0 in E. injection E as <- _. exfalso. apply N.
    unfold is_digit in Dg. unfold Scan.is_digit. lia. }
  rewrite (at_c_head _ _ _ _ _ (drop_app_more _ _ _ _ D)). by destruct (Z.eqb_spec c (ch "~")).
Qed.

Lemma digits_bytes i : in_u64 i -> Forall is_byte (Fmt.fmt_ulong i).
Proof.
  intros I. eapply Forall_impl; [apply (Fmt.fmt_ulonglong_digits i); unfold in_u64 in I; lia|].
  intros c. unfold Scan.is_digit, is_byte. lia.
Qed.

Lemma compile_range m n fl : in_u64 m -> in_u64 n ->
  sed_compile (range_script m n) (List.length (range_script m n)) fl =
    Ok (one_cmd (print_cmd 2 (SA_LINE m) (SA_LINE n) false) fl).
Proof.
  intros Im In. set (buf := range_script m n).
  assert (D0 : drop 0 buf = Fmt.fmt_ulong m ++ ch "," :: Fmt.fmt_ulong n ++ [ch "p"]) by done.
  pose proof (drop_app_more _ _ _ _ D0) as D1. pose proof D1 as D1'. apply (rd_at buf) in D1 as (R1 & L1 & D2).
  pose proof (drop_app_more _ _ _ _ D2) as D3. destruct (rd_at buf _ _ _ D3) as (R3 & L3 & D4).
  destruct (number_head m (ch "," :: Fmt.fmt_ulong n ++ [ch "p"]) Im) as (d & t & E & Dg).
  destruct (number_head n [ch "p"] In) as (d' & t' & E' & Dg').
  pose proof D0 as D0'. rewrite E in D0'. destruct (rd_at buf _ _ _ D0') as (R0 & L0 & _).
  assert (Nsp : forall z, is_digit z = true -> is_space z = false /\ z <> 10 /\ z <> ch ";" /\ z <> ch "#").
  { intros z Z0. unfold is_digit in Z0. unfold is_space. change (ch ";") with 59. change (ch "#") with 35.
    split_and!; [|lia..]. destruct (Z.eqb_spec z 32), (Z.eqb_spec z 9); lia || done. }
  destruct (Nsp d Dg) as (Sd & Nd1 & Nd2 & Nd3). destruct (Nsp d' Dg') as (Sd' & _).
  set (lm := List.length (Fmt.fmt_ulong m)) in *. set (ln := List.length (Fmt.fmt_ulong n)) in *.
  assert (A : parse_addrs buf (List.length buf) fl 0 = Ok ((S lm + ln)%nat, 2%nat, SA_LINE m, SA_LINE n)).
  { unfold parse_addrs, looks_like_addr. rewrite L0, R0, Dg. cbn [andb orb].
    rewrite (line_addr buf fl 0 m (Fmt.fmt_ulong n ++ [ch "p"]) (ch ",")); try done.
    2:{ constructor; [by unfold is_byte|]. apply Forall_app. split; [by apply digits_bytes|].
        constructor; [by unfold is_byte|constructor]. }
    2:{ unfold Scan.is_digit. change (ch ",") with 44. lia. }
    cbn [rbind]. fold lm. rewrite Nat.add_0_l in *.
    unfold skip_blank. rewrite (skip_all_stop _ _ _ _ _ D1') by done. rewrite (at_c_head _ _ _ _ _ D1'). letters. cbn iota.
    rewrite E' in D2. rewrite (skip_all_stop _ _ _ _ _ D2) by done. rewrite <-E' in D2.
    rewrite (line_addr buf fl (S lm) n [] (ch "p")); try done.
    - constructor; [by unfold is_byte|constructor].
    - unfold Scan.is_digit. change (ch "p") with 112. lia. }
  eapply (compile_one buf fl _ (S (S lm + ln))); [|eapply skip_sep_stop; [exact D0'|done..]| |by apply lt_spec|exact D4|lia].
  - rewrite (parse_rest buf fl _ "p" 2 _ _ D3 eq_refl ltac:(vm_compute; lia) A).
    unfold parse_letter. cbn [c_letter]. letters. cbn iota. unfold is_plain. letters. cbn iota. done.
  - by rewrite R0.
Qed.
