(* ===== verification/SedProps.v ===== *)
(** * What sed promises (text/sed)

    Scripts compile to programs that run without losing their way; a program
    whose branches lead forward reads its input to the end; "s/p/t/g",
    "/p/p", "M,Np" and "y/../../" do to a text what they say; and the
    listing of l can be read back.  The examples at the end record where the
    code departs from its documentation or from POSIX. *)

From S2P Require Import Prelude Scan Dfa DfaParse DfaRun DfaMatch DfaReplace DfaSubst DfaProps.
From S2P Require Import Sed SedParse SedRun SedFlow SedLines SedText.

(** ** Substitution *)

(** What s makes of a line *)
Definition subst_line (d : dfa) (r : dfa_repl) (s : bytes) : bytes :=
  match dfa_replace append_out d r s 0 true [] with
  | DfaReplace.Done (t, k) => if k =? 0 then s else t
  | _ => s
  end.

Section Cycles.
Context {C : Type} `{SedOutput C}.

Implicit Types (st : sed_state C).

Lemma one_range_match st c : st_cmds st = [c] ->
  exec_step 0 st =
    match sed_range_match c st with
    | None => Undefined
    | Some (m, c', re) =>
        let st := with_cmd 0 c' (with_re re st) in
        if m then exec_cmd 0 c' st else Next (if c_letter c' =? ch "{" then c_jump c' else 1%nat) st
    end.
Proof. unfold exec_step. by intros ->. Qed.

Lemma subst_cycle d r fuel k l : engine_ok d (fst l) (matches d (fst l) (dfa_notbol d)) -> plain_template r ->
  (3 <= fuel)%nat -> forall st, st_cmds st = [subst_cmd d r] -> at_top false k st -> st_pattern st = fst l ->
  st_had_nl st = snd l -> st_suppress st = false ->
  exists st', cycle_loop fuel 0 st = Ended false st' /\ st_cmds st' = [subst_cmd d r] /\ at_top false k st' /\
    text_of st' = text_of st ++ line_text (subst_line d r (fst l), snd l) /\ ahead st' = ahead st.
Proof.
  intros Eng Pl F st Cm T P Nl Su.
  destruct (dfa_replace_spec d (fst l) _ r 0 true Eng Pl ltac:(lia)) as (segs & tail & Rp & E).
  set (st1 := with_cmd 0 (subst_cmd d r) (with_re (st_last_re st) st)).
  assert (St : exists st', exec_step 0 st = Next 1 st' /\ st_cmds st' = [subst_cmd d r] /\ at_top false k st' /\
    st_pattern st' = subst_line d r (fst l) /\ st_had_nl st' = snd l /\ st_suppress st' = false /\
    text_of st' = text_of st /\ ahead st' = ahead st).
  { rewrite (one_range_match st _ Cm). unfold sed_range_match. cbn [c_naddr subst_cmd Nat.eqb].
    change (with_range _ _ (subst_cmd d r)) with (subst_cmd d r). cbn [c_negate subst_cmd].
    cbv zeta. fold st1. unfold exec_cmd. cbn [c_letter subst_cmd c_u]. letters. cbn iota. unfold sed_subst_exec. cbn [s_re].
    change (st_pattern st1) with (st_pattern st). rewrite P. cbn [s_repl s_nth s_global].
    unfold subst_line. rewrite E. destruct T as [A1 A2 A3 A4].
    assert (C1 : st_cmds st1 = [subst_cmd d r]) by (cbn; by rewrite Cm).
    destruct (_ =? 0); cbn [s_print s_wfile]; eexists; (split; [reflexivity|]); by split_and!. }
  destruct St as (st' & E1 & C1 & T1 & P1 & N1 & S1 & X1 & A1).
  rewrite (one_command fuel _ _ _ F Cm E1) by (by rewrite C1).
  destruct (end_cycle_top false k st' T1 S1) as (st2 & -> & C2 & T2 & X2 & A2). exists st2.
  split_and!; [done|congruence|done| |congruence]. by rewrite X2, X1, P1, N1.
Qed.

(** ** Printing *)

(** Where a command p is done, with the line printed or not *)
Lemma print_cycle fuel k l c c' m re : (3 <= fuel)%nat -> forall st, st_cmds st = [c] -> at_top true k st ->
  st_pattern st = fst l -> st_had_nl st = snd l -> st_suppress st = false ->
  sed_range_match c st = Some (m, c', re) -> c_letter c' = ch "p" ->
  exists st', cycle_loop fuel 0 st = Ended false st' /\ st_cmds st' = [c'] /\ at_top true k st' /\
    text_of st' = text_of st ++ (if m : bool then line_text l else []) /\ ahead st' = ahead st.
Proof.
  intros F st Cm T P Nl Su Rm Lt.
  set (st1 := with_cmd 0 c' (with_re re st)).
  assert (Q1 : st_cmds st1 = [c'] /\ at_top true k st1) by (split; [cbn; by rewrite Cm|destruct T; by split]).
  destruct Q1 as [C1 T1].
  assert (St : exists st', exec_step 0 st = Next 1 st' /\ st_cmds st' = [c'] /\ at_top true k st' /\
    st_suppress st' = false /\ text_of st' = text_of st ++ (if m then line_text l else []) /\ ahead st' = ahead st).
  { rewrite (one_range_match st _ Cm), Rm. cbv zeta. fold st1. destruct m.
    - unfold exec_cmd. rewrite Lt. letters. cbn iota. eexists. split; [reflexivity|]. pose proof (out_pattern_text st1) as X.
      change (st_pattern st1) with (st_pattern st) in X. change (st_had_nl st1) with (st_had_nl st) in X.
      rewrite P, Nl in X. split_and!; [|by apply out_pattern_top|..].
      + unfold sed_out_pattern. destruct (st_had_nl _); exact C1 || exact Su.
      + unfold sed_out_pattern. destruct (st_had_nl _); exact C1 || exact Su.
      + rewrite X. by destruct l.
      + unfold sed_out_pattern, ahead. destruct (st_had_nl _); cbn; by rewrite !io_out_lines.
    - rewrite Lt. letters. cbn iota. eexists. split; [reflexivity|]. split_and!; try done. by rewrite app_nil_r. }
  destruct St as (st' & E1 & C2 & T2 & S2 & X2 & A2).
  rewrite (one_command fuel _ _ _ F Cm E1) by (by rewrite C2).
  destruct (end_cycle_top true k st' T2 S2) as (st3 & -> & C3 & T3 & X3 & A3). exists st3.
  split_and!; [done|congruence|done| |congruence]. by rewrite X3, X2, app_nil_r.
Qed.

End Cycles.

(** What is written when it does not depend on the number of the line *)
Lemma emitted_map f k lines : emitted (fun _ l => f l) k lines = List.concat (List.map f lines).
Proof. revert k. induction lines as [|l lines IH]; intros k; cbn; [done|]. by rewrite IH. Qed.

(** The state sed_run begins with *)
Lemma start_top {C} `{SedInput C} p (ctx : C) :
  at_top (sed_autoprint_off p) 0 (sed_state_new p ctx) /\ st_cmds (sed_state_new p ctx) = sed_cmds p /\
  ahead (sed_state_new p ctx) = io_lines ctx.
Proof. done. Qed.

Lemma subst_line_spec d r s : engine_ok d s (matches d s (dfa_notbol d)) -> plain_template r ->
  exists segs tail, replaced (matches d s (dfa_notbol d)) s 0 true segs tail /\
    subst_line d r s = spliced r segs ++ tail.
Proof.
  intros Eng Pl. destruct (dfa_replace_spec d s _ r 0 true Eng Pl ltac:(lia)) as (segs & tail & Rp & E).
  exists segs, tail. split; [done|]. unfold subst_line. rewrite E. destruct (Z.eqb_spec (u32 (Z.of_nat (List.length segs))) 0) as [Z0|]; [|done].
  pose proof (rp_few _ _ _ _ _ _ Rp ltac:(lia)) as Few. pose proof (eo_count (engine_ok := Eng)) as Bd.
  unfold u32 in Z0. rewrite Z.mod_small in Z0 by lia. destruct segs; [|cbn in Z0; lia].
  rewrite (rp_subject _ _ _ _ _ _ Rp) at 1. done.
Qed.

(** C22: "s/pattern/template/g" replaces, in every line, every match. The
    pattern and the template are without slash, backslash and newline; the
    pattern is not empty (an empty one stands for the last one used), it
    compiles without back-references and has at most 64 bytes '|' (beyond that
    its program is not well formed); sed runs without -n, so that the cycle
    ends by printing the line. Then the script compiles, and the run over any
    input of less than 2^64 lines, each of them short enough for the 32-bit
    counter of the simulation ([short_subject]), ends with status 0; it writes each line of the input, in order and with
    its newline if it had one, cut into pieces of which the leftmost longest
    matches are exchanged for the template. *)
Theorem sed_substitutes {C} `{SedOutput C} pat tmpl d fl (ctx : C) :
  Forall script_byte pat -> pat <> [] -> Forall script_byte tmpl ->
  compiled pat (regex_flags (has fl SED_ERE) false false) d -> few_bars pat -> run_only d ->
  has fl SED_NOAUTOPRINT = false ->
  Forall (fun l => short_subject (fst l)) (io_lines ctx) -> Z.of_nat (List.length (io_lines ctx)) < 2 ^ 64 ->
  exists p r ctx' outs,
    sed_compile (subst_script pat tmpl) (List.length (subst_script pat tmpl)) fl = Ok p /\
    dfa_repl_compile tmpl 0 = Some r /\
    sed_run 3 (S (List.length (io_lines ctx))) p ctx = Finished 0 ctx' /\
    io_text ctx' = io_text ctx ++ List.concat (List.map line_text outs) /\
    Forall2 (fun l o => snd o = snd l /\ exists segs tail,
      replaced (matches d (fst l) (dfa_notbol d)) (fst l) 0 true segs tail /\ fst o = spliced r segs ++ tail)
      (io_lines ctx) outs.
Proof.
  intros Fp Ne Ft Cd Fb Rn Ap Sh Fit. destruct (compile_repl_text tmpl Ft) as (r & R0 & R).
  assert (Pl : plain_template r) by (by eapply (repl_loop_plain _ 0 _ repl_empty); [reflexivity|constructor|exact R0]).
  pose proof (compiled_ok _ _ _ Cd Fb) as Ok. assert (Eng : forall s, short_subject s -> engine_ok d s (matches d s (dfa_notbol d)))
    by (intros s S; by apply run_engine_ok).
  set (f := fun l : bytes * bool => (subst_line d r (fst l), snd l)).
  destruct (start_top (one_cmd (subst_cmd d r) fl) ctx) as (T & Cm & A). cbn [one_cmd sed_autoprint_off sed_cmds] in T, Cm.
  rewrite Ap in T.
  destruct (run_lines false (fun _ cmds => cmds = [subst_cmd d r]) (fun _ l => line_text (f l)) 3
    (S (List.length (io_lines ctx))) 0 (sed_state_new (one_cmd (subst_cmd d r) fl) ctx) Cm T) as (ctx' & E & X).
  - lia.
  - rewrite A. intros i l L st I T' P N S. rewrite Forall_forall in Sh. apply list_elem_of_lookup_2 in L.
    apply subst_cycle; auto.
  - by rewrite A.
  - rewrite A. lia.
  - exists (one_cmd (subst_cmd d r) fl), r, ctx', (List.map f (io_lines ctx)). split_and!; [|done|exact E| |].
    + apply compile_subst; try done. apply Cd.
    + rewrite X, emitted_map, A, List.map_map. done.
    + apply Forall2_fmap_r, Forall2_same_length_lookup. split; [done|]. intros i l o L L'. simplify_eq.
      split; [done|]. rewrite Forall_forall in Sh. apply list_elem_of_lookup_2 in L. apply subst_line_spec; auto.
Qed.

(** "sed -n /pattern/p" prints the lines the pattern matches. Under the
    same conditions the run ends with status 0 and writes, in order, exactly
    the lines in which the pattern matches somewhere. *)
Theorem sed_greps {C} `{SedOutput C} pat d fl (ctx : C) :
  Forall script_byte pat -> pat <> [] -> compiled pat (regex_flags (has fl SED_ERE) false false) d ->
  few_bars pat -> run_only d ->
  has fl SED_NOAUTOPRINT = true -> has fl SED_ICASE = false -> has fl SED_MULTI = false ->
  Forall (fun l => short_subject (fst l)) (io_lines ctx) -> Z.of_nat (List.length (io_lines ctx)) < 2 ^ 64 ->
  exists p ctx' (hit : bytes -> bool),
    sed_compile (grep_script pat) (List.length (grep_script pat)) fl = Ok p /\
    sed_run 3 (S (List.length (io_lines ctx))) p ctx = Finished 0 ctx' /\
    io_text ctx' = io_text ctx ++ List.concat (List.map line_text (filter (fun l => hit (fst l)) (io_lines ctx))) /\
    (forall l, l ∈ io_lines ctx -> hit (fst l) = true <->
      exists f e, (f <= List.length (fst l))%nat /\ matches d (fst l) false f e).
Proof.
  intros Fp Ne Cd Fb Rn Ap Ic Mu Sh Fit. pose proof (compiled_ok _ _ _ Cd Fb) as Ok.
  set (hit := fun s => default false (dfa_test d s)).
  assert (Hit : forall s, short_subject s -> dfa_test d s = Some (hit s) /\
    (hit s = true <-> exists f e, (f <= List.length s)%nat /\ matches d s false f e)).
  { intros s S. unfold hit, dfa_test, any_run. unfold run_only in Rn. rewrite Rn.
    destruct (dfa_run_spec d s false Ok 0 false 0 ltac:(lia) S) as ([[m g]|] & -> & F); cbn; (split; [done|]).
    - split; [|done]. intros _. destruct F as (R & _ & M & _). exists (sp_start m), (sp_end m). unfold n in R. split; [lia|done].
    - split; [done|]. intros (f & e & L & M). exfalso. by apply (F f e); [unfold n; lia|done|]. }
  set (c := print_cmd 1 (SA_REGEX (Some d)) SA_NONE false).
  set (emit := fun l : bytes * bool => if hit (fst l) then line_text l else []).
  destruct (start_top (one_cmd c fl) ctx) as (T & Cm & A). cbn [one_cmd sed_autoprint_off sed_cmds] in T, Cm. rewrite Ap in T.
  rewrite Forall_forall in Sh.
  destruct (run_lines true (fun _ cmds => cmds = [c]) (fun _ l => emit l) 3
    (S (List.length (io_lines ctx))) 0 (sed_state_new (one_cmd c fl) ctx) Cm T) as (ctx' & E & X).
  - lia.
  - rewrite A. intros i l L st I T' P N S. apply list_elem_of_lookup_2 in L. destruct (Hit (fst l) (Sh _ L)) as [D _].
    eapply print_cycle; try done. unfold sed_range_match. cbn [c_naddr c_a1 c print_cmd Nat.eqb sed_addr_match].
    rewrite P, D. done.
  - by rewrite A.
  - rewrite A. lia.
  - exists (one_cmd c fl), ctx', hit. split_and!; [by apply compile_grep; try done; apply Cd|exact E| |].
    + rewrite X, emitted_map, A. f_equal. clear. induction (io_lines ctx) as [|l ls IH]; [done|].
      cbn [List.map List.concat]. rewrite IH. unfold emit. rewrite filter_cons. case_decide as D.
      * apply Is_true_true in D. by rewrite D.
      * apply Is_true_false in D. by rewrite D.
    + intros l I. apply Hit. by apply Sh.
Qed.

(** ** Ranges of lines *)

Definition in_lines (m n k : Z) : bool := (m <=? k) && (k <=? Z.max m n).

(** The lines of a range from those behind the [k]-th *)
Lemma emitted_range m n k lines : 1 <= m -> 0 <= k ->
  emitted (fun k l => if in_lines m n k then line_text l else []) k lines =
  List.concat (List.map line_text (take (Z.to_nat (Z.max m n - Z.max (m - 1) k)) (drop (Z.to_nat (m - 1 - k)) lines))).
Proof.
  intros M. revert k. induction lines as [|l lines IH]; intros k K; cbn [emitted].
  - by rewrite drop_nil, take_nil.
  - rewrite IH by lia. unfold in_lines. destruct (Z.leb_spec m (k + 1)) as [L|L]; cbn [andb].
    + replace (Z.to_nat (m - 1 - (k + 1))) with 0%nat by lia. replace (Z.to_nat (m - 1 - k)) with 0%nat by lia. cbn [drop].
      rewrite (Z.max_r (m - 1) k), (Z.max_r (m - 1) (k + 1)) by lia. destruct (Z.leb_spec (k + 1) (Z.max m n)) as [Le|Gt].
      * replace (Z.to_nat (Z.max m n - k)) with (S (Z.to_nat (Z.max m n - (k + 1)))) by lia. done.
      * replace (Z.to_nat (Z.max m n - k)) with 0%nat by lia.
        by replace (Z.to_nat (Z.max m n - (k + 1))) with 0%nat by lia.
    + replace (Z.to_nat (m - 1 - k)) with (S (Z.to_nat (m - 1 - (k + 1)))) by lia. cbn [drop app].
      by rewrite (Z.max_l (m - 1) k), (Z.max_l (m - 1) (k + 1)) by lia.
Qed.

(** Being in the range, with [k] lines read *)
Definition range_open (m n k : Z) : bool := (m <=? k) && (k <? n).

Definition range_cmd (m n k : Z) : sed_cmd := print_cmd 2 (SA_LINE m) (SA_LINE n) (range_open m n k).

Lemma range_cmd_match {C} `{SedIO C} m n k (st : sed_state C) : 1 <= m -> st_lineno st = k ->
  sed_range_match (range_cmd m n (k - 1)) st = Some (in_lines m n k, range_cmd m n k, st_last_re st).
Proof.
  intros M K. unfold sed_range_match, range_cmd. cbn [c_naddr c_in_range c_a1 c_a2 c_negate print_cmd Nat.eqb is_regex andb].
  rewrite andb_false_r. cbn [andb]. rewrite orb_false_r. cbn [sed_addr_match closes_range open_range]. rewrite K.
  unfold in_lines, range_open, with_range, print_cmd. cbn [c_letter c_naddr c_negate c_a1 c_jump c_u].
  destruct (Z.leb_spec m (k - 1)), (Z.ltb_spec (k - 1) n); cbn [andb negb];
    try (destruct (Z.eqb_spec k m)); destruct (Z.leb_spec n k), (Z.leb_spec m k), (Z.leb_spec k (Z.max m n)), (Z.ltb_spec k n);
    cbn [andb negb]; done || lia.
Qed.

(** C28: "sed -n M,Np" prints the lines M to N, and the line M alone when N is
    smaller. For line numbers that fit 64 bits, with M at least 1, the script
    compiles; the run ends with status 0 on any input, and writes exactly
    those lines, in order and as they are. *)
Theorem sed_prints_range {C} `{SedOutput C} m n fl (ctx : C) : 1 <= m -> in_u64 m -> in_u64 n ->
  has fl SED_NOAUTOPRINT = true -> Z.of_nat (List.length (io_lines ctx)) < 2 ^ 64 ->
  exists p ctx',
    sed_compile (range_script m n) (List.length (range_script m n)) fl = Ok p /\
    sed_run 3 (S (List.length (io_lines ctx))) p ctx = Finished 0 ctx' /\
    io_text ctx' = io_text ctx ++
      List.concat (List.map line_text (take (Z.to_nat (Z.max m n - (m - 1))) (drop (Z.to_nat (m - 1)) (io_lines ctx)))).
Proof.
  intros M Im In Ap Fit.
  assert (R0 : print_cmd 2 (SA_LINE m) (SA_LINE n) false = range_cmd m n 0).
  { unfold range_cmd, range_open. by destruct (Z.leb_spec m 0); [lia|]. }
  set (p := one_cmd (print_cmd 2 (SA_LINE m) (SA_LINE n) false) fl).
  destruct (start_top p ctx) as (T & Cm & A). cbn [p one_cmd sed_autoprint_off sed_cmds] in T, Cm.
  rewrite Ap in T. rewrite R0 in Cm.
  destruct (run_lines true (fun k cmds => cmds = [range_cmd m n k]) (fun k l => if in_lines m n k then line_text l else []) 3
    (S (List.length (io_lines ctx))) 0 (sed_state_new p ctx) Cm T) as (ctx' & E & X).
  - lia.
  - rewrite A. intros i l L st I T' P N S. eapply print_cycle; try done.
    apply range_cmd_match; [done|]. by rewrite (at_lineno _ _ _ T').
  - by rewrite A.
  - rewrite A. lia.
  - exists p, ctx'. split_and!; [by apply compile_range|exact E|].
    rewrite X, A, emitted_range by lia. by rewrite (Z.max_l (m - 1) 0), Z.sub_0_r by lia.
Qed.

(** ** Transliteration *)

Lemma y_map_other from to map (j : nat) : (forall x, x ∈ from -> 0 <= x /\ Z.to_nat x <> j) ->
  y_map from to map !! j = map !! j.
Proof.
  revert to map. induction from as [|c from IH]; intros to map N; [by destruct to|]. destruct to as [|d to]; [done|].
  cbn [y_map]. rewrite IH by (intros x I; apply N; by right). destruct (N c ltac:(by left)). by rewrite list_lookup_insert_ne.
Qed.

Lemma y_map_lookup from to map i c d : NoDup from -> Forall is_byte from -> List.length map = 256%nat ->
  from !! i = Some c -> to !! i = Some d -> y_map from to map !! Z.to_nat c = Some d.
Proof.
  revert to map i. induction from as [|x from IH]; intros to map i N B L F T; [done|].
  destruct to as [|y to]; [done|]. apply NoDup_cons in N as [Nx N]. apply Forall_cons in B as [Bx B]. cbn [y_map].
  destruct i as [|i]; cbn in F, T.
  - injection F as ->. injection T as ->. rewrite y_map_other.
    + apply list_lookup_insert_eq. unfold is_byte in Bx. lia.
    + intros z I. rewrite Forall_forall in B. specialize (B z I). unfold is_byte in B, Bx. split; [lia|]. intros E.
      apply Nx. by replace c with z by lia.
  - eapply IH; eauto. by rewrite length_insert.
Qed.

Definition translit (from to : bytes) (c : Z) : Z := cnth (y_map from to y_identity) (Z.to_nat c).

(** What y makes of a byte *)
Lemma translit_spec from to c : NoDup from -> Forall is_byte from -> List.length from = List.length to -> is_byte c ->
  (forall i, from !! i = Some c -> to !! i = Some (translit from to c)) /\ (c ∉ from -> translit from to c = c).
Proof.
  intros N B L Bc. unfold translit. rewrite cnth_lookup. split.
  - intros i F. destruct (lookup_lt_is_Some_2 to i) as [d D]; [rewrite <-L; by eapply lookup_lt_Some|].
    by rewrite (y_map_lookup from to y_identity i c d).
  - intros Nc. rewrite y_map_other.
    + unfold y_identity. rewrite list_lookup_fmap, lookup_seq_lt by (unfold is_byte in Bc; lia). cbn.
      unfold is_byte in Bc. lia.
    + intros x I. rewrite Forall_forall in B. specialize (B x I). unfold is_byte in B, Bc. split; [lia|]. intros E.
      apply Nc. by replace c with x by lia.
Qed.

Lemma y_cycle {C} `{SedOutput C} map fuel k l : (3 <= fuel)%nat -> forall st : sed_state C,
  st_cmds st = [y_cmd map] -> at_top false k st -> st_pattern st = fst l -> st_had_nl st = snd l -> st_suppress st = false ->
  exists st', cycle_loop fuel 0 st = Ended false st' /\ st_cmds st' = [y_cmd map] /\ at_top false k st' /\
    text_of st' = text_of st ++ line_text (List.map (fun x => cnth map (Z.to_nat x)) (fst l), snd l) /\ ahead st' = ahead st.
Proof.
  intros F st Cm T P Nl Su. set (st1 := with_cmd 0 (y_cmd map) (with_re (st_last_re st) st)).
  set (st2 := with_pattern (List.map (fun x => cnth map (Z.to_nat x)) (st_pattern st)) st1).
  assert (E1 : exec_step 0 st = Next 1 st2).
  { rewrite (one_range_match st _ Cm). unfold sed_range_match. cbn [c_naddr y_cmd Nat.eqb].
    change (with_range _ _ (y_cmd map)) with (y_cmd map). cbn [c_negate y_cmd].
    cbv zeta. fold st1. unfold exec_cmd. cbn [c_letter y_cmd c_u]. letters. cbn iota. done. }
  assert (C2 : st_cmds st2 = [y_cmd map]) by (cbn; by rewrite Cm).
  rewrite (one_command fuel _ _ _ F Cm E1) by (by rewrite C2).
  assert (T2 : at_top false k st2) by (destruct T; by split).
  destruct (end_cycle_top false k st2 T2 Su) as (st3 & -> & C3 & T3 & X3 & A3). exists st3.
  split_and!; [done|congruence|done| |done]. rewrite X3. change (st_pattern st2) with (List.map (fun x => cnth map (Z.to_nat x)) (st_pattern st)).
  change (st_had_nl st2) with (st_had_nl st). by rewrite P, Nl.
Qed.

(** "y/from/to/" replaces the bytes of the one list by those of the other.
    For two lists of the same length without slash, backslash and newline, the
    first without repetition, the script compiles; the run ends with status 0
    and writes every line with each byte that is in the first list replaced by
    the one at its place in the second, and every other byte as it is. *)
Theorem sed_transliterates {C} `{SedOutput C} from to fl (ctx : C) :
  Forall script_byte from -> Forall script_byte to -> NoDup from -> List.length from = List.length to ->
  has fl SED_NOAUTOPRINT = false -> Z.of_nat (List.length (io_lines ctx)) < 2 ^ 64 ->
  exists p ctx' (tr : Z -> Z),
    sed_compile (y_script from to) (List.length (y_script from to)) fl = Ok p /\
    sed_run 3 (S (List.length (io_lines ctx))) p ctx = Finished 0 ctx' /\
    io_text ctx' = io_text ctx ++ List.concat (List.map (fun l => line_text (List.map tr (fst l), snd l)) (io_lines ctx)) /\
    (forall c, is_byte c -> (forall i, from !! i = Some c -> to !! i = Some (tr c)) /\ (c ∉ from -> tr c = c)).
Proof.
  intros Ff Ft N L Ap Fit. set (map := y_map from to y_identity). set (p := one_cmd (y_cmd map) fl).
  destruct (start_top p ctx) as (T & Cm & A). cbn [p one_cmd sed_autoprint_off sed_cmds] in T, Cm. rewrite Ap in T.
  destruct (run_lines false (fun _ cmds => cmds = [y_cmd map]) (fun _ l => line_text (List.map (translit from to) (fst l), snd l)) 3
    (S (List.length (io_lines ctx))) 0 (sed_state_new p ctx) Cm T) as (ctx' & E & X).
  - lia.
  - rewrite A. intros i l Li st I T' P Nl S. by apply y_cycle.
  - by rewrite A.
  - rewrite A. lia.
  - exists p, ctx', (translit from to). split_and!; [by apply compile_y|exact E| |].
    + by rewrite X, (emitted_map (fun l => line_text (List.map (translit from to) (fst l), snd l))), A.
    + intros c Bc. apply translit_spec; try done. eapply Forall_impl; [exact Ff|]. by intros x [? _].
Qed.

(** ** Every script *)

(** C21: compiling a script ends with a well-formed program or an error. For
    every script in memory and whatever bytes follow it, sed_compile returns,
    with one of the error codes, or with a program in which the payload of
    each command fits its letter, no command has more addresses than it may,
    every jump stays in the program, a "{" jumps forward and the files to
    write are numbered once each; or the number of an l command overflows. *)
Theorem sed_compile_typed buf e flags : Forall is_byte buf -> (e <= List.length buf)%nat ->
  match sed_compile buf e flags with
  | Ok p => program_wf p
  | Err code => SED_EADDR <= code <= SED_ESIZE
  | Undef => exists p, i32 (snd (scan_at buf p)) = INT_MAX
  | Fuel => False
  end.
Proof. intros B L. exact (sed_compile_ok buf e flags B L). Qed.

Lemma start_wf {C} `{SedInput C} p (ctx : C) : program_wf p ->
  state_wf (List.length (sed_wfiles p)) (sed_state_new p ctx).
Proof.
  intros [Cm J _]. split; [|by left]. intros pc c X. split; [|by apply J].
  rewrite Forall_forall in Cm. by apply Cm, (list_elem_of_lookup_2 _ pc).
Qed.

(** C20: a compiled program never loses its way, and one whose branches lead
    forward reads its input to the end. The run of a compiled script never
    follows a jump or takes a payload that is not there, with any number of
    steps. If no "D" is in it and every branch goes to a later command, one
    step for each command and one more are enough in every cycle, and a cycle
    for each line: the run ends, and has then read all lines, unless a "q" or
    "Q" is in the program; or, in a program with regular expressions, the run
    of one of them is undefined. *)
Theorem sed_run_ends {C} `{SedInput C} buf e flags p (ctx : C) : Forall is_byte buf -> (e <= List.length buf)%nat ->
  sed_compile buf e flags = Ok p ->
  (forall fuel lines, sed_run fuel lines p ctx <> RunBroken) /\
  (forward (sed_cmds p) ->
   match sed_run (S (List.length (sed_cmds p))) (S (List.length (io_lines ctx))) p ctx with
   | Finished _ ctx' => quits (sed_cmds p) \/ io_lines ctx' = []
   | RunUndefined => ~ no_regex (sed_cmds p)
   | RunBroken | RunNoFuel => False
   end).
Proof.
  intros B L E. pose proof (sed_compile_ok buf e flags B L) as W. rewrite E in W.
  pose proof (start_wf p ctx W) as Sw. split.
  - intros fuel lines X. pose proof (run_loop_ok _ fuel lines _ Sw eq_refl) as R. unfold sed_run in X. by rewrite X in R.
  - intros F. pose proof (run_loop_ok _ (S (List.length (sed_cmds p))) (S (List.length (io_lines ctx))) _ Sw eq_refl) as R.
    fold (sed_run (S (List.length (sed_cmds p))) (S (List.length (io_lines ctx))) p ctx) in R.
    destruct (sed_run _ _ p ctx); try exact R. destruct (R F) as [Le|Le]; cbn in Le; [lia|].
    unfold ahead in Le. cbn in Le. lia.
Qed.

(** ** Listing *)

(** The byte a letter behind a backslash stands for *)
Definition escaped_byte (x : Z) : option Z :=
  if x =? ch "\" then Some (ch "\")
  else if x =? ch "a" then Some 7
  else if x =? ch "b" then Some 8
  else if x =? ch "f" then Some 12
  else if x =? ch "n" then Some 10
  else if x =? ch "r" then Some 13
  else if x =? ch "t" then Some 9
  else if x =? ch "v" then Some 11
  else None.

(** Reading back what l writes *)
Fixpoint unlist (s : bytes) : option bytes :=
  match s with
  | [] => None
  | c :: s1 =>
      if c =? ch "\" then
        match s1 with
        | [] => None
        | x :: s2 =>
            if x =? 10 then unlist s2
            else
              match escaped_byte x with
              | Some v => cons v <$> unlist s2
              | None =>
                  match s2 with
                  | y :: z :: s3 => cons ((x - 48) * 64 + (y - 48) * 8 + (z - 48)) <$> unlist s3
                  | _ => None
                  end
              end
        end
      else if (c =? ch "$") && bool_decide (s1 = [10]) then Some []
      else cons c <$> unlist s1
  end.

(** No line of [s] is longer than [w], with [col] bytes on the first already. *)
Fixpoint folded (w col : Z) (s : bytes) : bool :=
  match s with
  | [] => true
  | c :: s => if c =? 10 then folded w 0 s else (col + 1 <=? w) && folded w (col + 1) s
  end.

(** The three forms of a piece *)
Lemma list_escape_cases c : is_byte c ->
  (list_escape c = [c] /\ c <> ch "\" /\ c <> 10) \/
  (exists x, list_escape c = [ch "\"; x] /\ x <> 10 /\ escaped_byte x = Some c) \/
  (exists x y z, list_escape c = [ch "\"; x; y; z] /\ x <> 10 /\ y <> 10 /\ z <> 10 /\ escaped_byte x = None /\
     (x - 48) * 64 + (y - 48) * 8 + (z - 48) = c).
Proof.
  intros B. set (ok := fun c => match list_escape c with
    | [x] => (x =? c) && negb (c =? ch "\") && negb (c =? 10)
    | [k; x] => (k =? ch "\") && negb (x =? 10) && bool_decide (escaped_byte x = Some c)
    | [k; x; y; z] => (k =? ch "\") && negb (x =? 10) && negb (y =? 10) && negb (z =? 10) &&
        bool_decide (escaped_byte x = None) && ((x - 48) * 64 + (y - 48) * 8 + (z - 48) =? c)
    | _ => false
    end).
  assert (A : forallb ok all_bytes = true) by (vm_compute; reflexivity).
  rewrite forallb_forall in A. specialize (A c). assert (I : In c all_bytes).
  { unfold all_bytes. apply in_map_iff. exists (Z.to_nat c). unfold is_byte in B. split; [lia|]. apply in_seq. lia. }
  specialize (A I). unfold ok in A. clear ok I.
  destruct (list_escape c) as [|k [|x [|y [|z [|]]]]]; try done.
  - left. rewrite !andb_true_iff, !negb_true_iff, Z.eqb_eq, !Z.eqb_neq in A. by destruct A as [[-> ?] ?].
  - right; left. exists x. rewrite !andb_true_iff, negb_true_iff, Z.eqb_eq, Z.eqb_neq, bool_decide_eq_true in A.
    by destruct A as [[-> ?] ?].
  - right; right. exists x, y, z. rewrite !andb_true_iff, !negb_true_iff, !Z.eqb_eq, !Z.eqb_neq, bool_decide_eq_true in A.
    by destruct A as [[[[[-> ?] ?] ?] ?] ?].
Qed.

Lemma list_pieces_head w col s : Forall is_byte s -> List.concat (list_pieces w col s) <> [10].
Proof.
  intros F. destruct s as [|c s]; [done|]. apply Forall_cons in F as [B _]. cbn [list_pieces].
  destruct (_ && _); [done|]. cbn [List.concat].
  destruct (list_escape_cases c B) as [(-> & _ & N)|[(x & -> & _)|(x & y & z & -> & _)]]; by intros [= ? _].
Qed.

Lemma unlist_piece c rest : is_byte c -> rest <> [10] -> unlist (list_escape c ++ rest) = cons c <$> unlist rest.
Proof.
  intros B N. destruct (list_escape_cases c B) as [(-> & N1 & N2)|[(x & -> & N1 & E)|(x & y & z & -> & N1 & _ & _ & E & V)]];
    cbn [app unlist].
  - destruct (Z.eqb_spec c (ch "\")); [done|]. by rewrite bool_decide_false, andb_false_r.
  - rewrite Z.eqb_refl. destruct (Z.eqb_spec x 10); [done|]. by rewrite E.
  - rewrite Z.eqb_refl. destruct (Z.eqb_spec x 10); [done|]. by rewrite E, V.
Qed.

Lemma unlist_pieces w col s : Forall is_byte s -> unlist (List.concat (list_pieces w col s)) = Some s.
Proof.
  intros F. revert col. induction F as [|c s B F IH]; intros col; [done|]. cbn [list_pieces].
  destruct (_ && _); cbn [List.concat].
  - change ([ch "\"; 10] ++ list_escape c ++ List.concat (list_pieces w (Z.of_nat (List.length (list_escape c))) s))
      with (ch "\" :: 10 :: (list_escape c ++ List.concat (list_pieces w (Z.of_nat (List.length (list_escape c))) s))).
    cbn [unlist]. rewrite Z.eqb_refl. cbn iota. change (10 =? 10) with true. cbn iota.
    rewrite unlist_piece by (done || by apply list_pieces_head). by rewrite IH.
  - rewrite unlist_piece by (done || by apply list_pieces_head). by rewrite IH.
Qed.

Lemma folded_app w col p s : Forall (fun c => c <> 10) p -> col + Z.of_nat (List.length p) <= w ->
  folded w col (p ++ s) = folded w (col + Z.of_nat (List.length p)) s.
Proof.
  intros F. revert col. induction F as [|c p N F IH]; intros col L; cbn [app folded List.length] in *.
  - f_equal. cbn. lia.
  - destruct (Z.eqb_spec c 10); [done|]. destruct (Z.leb_spec (col + 1) w); [|lia]. cbn [andb]. rewrite IH by lia. f_equal. lia.
Qed.

Lemma folded_pieces w col s : Forall is_byte s -> 5 <= w -> col <= w - 1 -> folded w col (List.concat (list_pieces w col s)) = true.
Proof.
  intros F W. revert col. induction F as [|c s B F IH]; intros col L.
  - cbn. destruct (Z.leb_spec (col + 1) w); [done|lia].
  - assert (P : Forall (fun x => x <> 10) (list_escape c) /\ (List.length (list_escape c) <= 4)%nat).
    { destruct (list_escape_cases c B) as [(-> & N1 & N2)|[(x & -> & N1 & E)|(x & y & z & -> & N1 & N2 & N3 & _)]];
        (split; [|cbn; lia]); by repeat constructor. }
    destruct P as [P Lp]. cbn [list_pieces]. rewrite (proj2 (Z.ltb_lt _ _)) by lia. cbn [andb].
    destruct (Z.ltb_spec (w - 1) (col + Z.of_nat (List.length (list_escape c)))); cbn [List.concat].
    + change ([ch "\"; 10] ++ list_escape c ++ List.concat (list_pieces w (Z.of_nat (List.length (list_escape c))) s))
        with (ch "\" :: 10 :: (list_escape c ++ List.concat (list_pieces w (Z.of_nat (List.length (list_escape c))) s))).
      cbn [folded]. change (ch "\" =? 10) with false. change (10 =? 10) with true. cbn iota.
      rewrite (proj2 (Z.leb_le _ _)) by lia. cbn [andb]. rewrite folded_app by (done || lia). apply IH. lia.
    + rewrite folded_app by (done || lia). apply IH. lia.
Qed.

(** C38: what l writes is unambiguous, and folded. The pattern space can be read
    back from the listing, whatever its bytes are and whatever the width; and
    with a width of at least 5 no line of the listing is longer than that. *)
Theorem list_unambiguous s w : Forall is_byte s -> 0 <= w ->
  unlist (List.concat (sed_do_list s (w + 1))) = Some s /\
  (5 <= w -> folded w 0 (List.concat (sed_do_list s (w + 1))) = true).
Proof.
  intros F W. unfold sed_do_list. destruct (Z.eqb_spec (w + 1) 0); [lia|]. replace (w + 1 - 1) with w by lia.
  split; [by apply unlist_pieces|]. intros W5. apply folded_pieces; [done|done|lia].
Qed.

(** ** A file system in memory *)

Record files := Files { f_input : list (bytes * bool); f_output : bytes; f_written : list (nat * bytes) }.

Definition files_read (f : files) : option (bytes * bool) * files :=
  (head (f_input f), Files (tail (f_input f)) (f_output f) (f_written f)).
Definition files_out (t : bytes) (f : files) : files := Files (f_input f) (f_output f ++ t) (f_written f).
Definition files_write (i : nat) (t : bytes) (f : files) : files :=
  Files (f_input f) (f_output f) (f_written f ++ [(i, t)]).

#[export] Instance files_io : SedIO files := {
  io_read := files_read;
  io_out := files_out;
  io_wfile := Some files_write;
  io_rfile := None
}.

#[export] Program Instance files_input : SedInput files := {| io_lines := f_input |}.
Next Obligation. done. Qed.
Next Obligation. done. Qed.
Next Obligation. by intros f i t ctx [= <-]. Qed.
Next Obligation. done. Qed.

#[export] Program Instance files_output : SedOutput files := {| io_text := f_output |}.
Next Obligation. done. Qed.
Next Obligation. done. Qed.

Definition input_of (lines : list string) : files := Files (List.map (fun l => (b l, true)) lines) [] [].

(** What a script writes, with [off] for -n *)
Definition sed_output (fl : Z) (script : string) (f : files) : option (bytes * list (nat * bytes)) :=
  match sed_compile (b script) (List.length (b script)) fl with
  | Ok p =>
      match sed_run 100 100 p f with
      | Finished _ f => Some (f_output f, f_written f)
      | _ => None
      end
  | _ => None
  end.

(** ** Witnesses *)

Definition vowels : bytes := b "[aeiou]+".
Definition vowels_flags : Z := regex_flags true false false.

Lemma vowels_compiled : compiled vowels vowels_flags (program vowels vowels_flags).
Proof. split; [by apply bytes_check|]. by vm_compute. Qed.

Lemma vowels_bars : few_bars vowels.
Proof. vm_compute. lia. Qed.

Lemma script_bytes_check l :
  forallb (fun c => (0 <=? c) && (c <? 256) && negb (c =? ch "/") && negb (c =? ch "\") && negb (c =? 10)) l = true ->
  Forall script_byte l.
Proof.
  intros F. apply Forall_forall. intros c I. rewrite forallb_forall in F.
  specialize (F c (proj1 (list_elem_of_In _ _) I)). unfold script_byte, is_byte. zify_bool. split_and!; done || lia.
Qed.

Definition three_lines : files := input_of ["one"; "two"; "three"]%string.

Lemma sed_substitutes_witness : exists p r ctx' outs,
  sed_compile (subst_script vowels (b "<&>")) (List.length (subst_script vowels (b "<&>"))) SED_ERE = Ok p /\
  dfa_repl_compile (b "<&>") 0 = Some r /\
  sed_run 3 (S (List.length (io_lines three_lines))) p three_lines = Finished 0 ctx' /\
  io_text ctx' = io_text three_lines ++ List.concat (List.map line_text outs) /\
  Forall2 (fun l o => snd o = snd l /\ exists segs tail,
    replaced (matches (program vowels vowels_flags) (fst l) (dfa_notbol (program vowels vowels_flags))) (fst l) 0 true segs tail /\
    fst o = spliced r segs ++ tail) (io_lines three_lines) outs.
Proof.
  apply (sed_substitutes vowels (b "<&>") (program vowels vowels_flags) SED_ERE three_lines).
  - apply script_bytes_check. reflexivity.
  - discriminate.
  - apply script_bytes_check. reflexivity.
  - exact vowels_compiled.
  - exact vowels_bars.
  - reflexivity.
  - reflexivity.
  - repeat (apply Forall_cons; split; [vm_compute; discriminate|]). apply Forall_nil_2.
  - reflexivity.
Defined.

Lemma sed_greps_witness : exists p ctx' (hit : bytes -> bool),
  sed_compile (grep_script vowels) (List.length (grep_script vowels)) 3 = Ok p /\
  sed_run 3 (S (List.length (io_lines three_lines))) p three_lines = Finished 0 ctx' /\
  io_text ctx' = io_text three_lines ++
    List.concat (List.map line_text (filter (fun l => hit (fst l)) (io_lines three_lines))) /\
  (forall l, l ∈ io_lines three_lines -> hit (fst l) = true <->
    exists f e, (f <= List.length (fst l))%nat /\ matches (program vowels vowels_flags) (fst l) false f e).
Proof.
  apply (sed_greps vowels (program vowels vowels_flags) 3 three_lines).
  - apply script_bytes_check. reflexivity.
  - discriminate.
  - exact vowels_compiled.
  - exact vowels_bars.
  - reflexivity.
  - reflexivity.
  - reflexivity.
  - reflexivity.
  - repeat (apply Forall_cons; split; [vm_compute; discriminate|]). apply Forall_nil_2.
  - reflexivity.
Defined.

Lemma sed_prints_range_witness : exists p ctx',
  sed_compile (range_script 2 3) (List.length (range_script 2 3)) SED_NOAUTOPRINT = Ok p /\
  sed_run 3 (S (List.length (io_lines three_lines))) p three_lines = Finished 0 ctx' /\
  io_text ctx' = io_text three_lines ++
    List.concat (List.map line_text (take (Z.to_nat (Z.max 2 3 - (2 - 1))) (drop (Z.to_nat (2 - 1)) (io_lines three_lines)))).
Proof.
  apply (sed_prints_range 2 3 SED_NOAUTOPRINT three_lines);
    [lia|unfold in_u64; lia|unfold in_u64; lia|reflexivity|reflexivity].
Defined.

Lemma sed_transliterates_witness : exists p ctx' (tr : Z -> Z),
  sed_compile (y_script (b "abc") (b "xyz")) (List.length (y_script (b "abc") (b "xyz"))) 0 = Ok p /\
  sed_run 3 (S (List.length (io_lines three_lines))) p three_lines = Finished 0 ctx' /\
  io_text ctx' = io_text three_lines ++
    List.concat (List.map (fun l => line_text (List.map tr (fst l), snd l)) (io_lines three_lines)) /\
  (forall c, is_byte c -> (forall i, b "abc" !! i = Some c -> b "xyz" !! i = Some (tr c)) /\ (c ∉ b "abc" -> tr c = c)).
Proof.
  apply (sed_transliterates (b "abc") (b "xyz") 0 three_lines).
  - apply script_bytes_check. reflexivity.
  - apply script_bytes_check. reflexivity.
  - apply (bool_decide_unpack _). reflexivity.
  - reflexivity.
  - reflexivity.
  - reflexivity.
Defined.

Definition loop_script : bytes := b "1{N;s/\n/,/};/x/b end;$!d;:end".

Lemma sed_compile_typed_witness : Forall is_byte loop_script /\
  match sed_compile loop_script (List.length loop_script) 0 with
  | Ok p => program_wf p
  | Err code => SED_EADDR <= code <= SED_ESIZE
  | Undef => exists p, i32 (snd (scan_at loop_script p)) = INT_MAX
  | Fuel => False
  end.
Proof.
  assert (B : Forall is_byte loop_script) by (apply bytes_check; reflexivity).
  split; [exact B|]. apply (sed_compile_typed loop_script (List.length loop_script) 0 B). lia.
Defined.

Definition compiled_script (s : bytes) (fl : Z) : sed :=
  match sed_compile s (List.length s) fl with Ok p => p | _ => Sed [] 0 false [] end.

Fixpoint leads_forward (pc : nat) (cmds : list sed_cmd) : bool :=
  match cmds with
  | [] => true
  | c :: cmds =>
      negb (c_letter c =? ch "D")
      && (negb (existsb (Z.eqb (c_letter c)) (b "btT")) || (pc <? c_jump c)%nat)
      && leads_forward (S pc) cmds
  end.

Lemma leads_forward_lookup cmds : forall pc i c, leads_forward pc cmds = true -> cmds !! i = Some c ->
  c_letter c <> ch "D" /\ (one_of (c_letter c) "btT" -> (pc + i < c_jump c)%nat).
Proof.
  induction cmds as [|c0 cmds IH]; intros pc i c F X; [done|].
  cbn [leads_forward] in F. apply andb_true_iff in F as [F Fr]. apply andb_true_iff in F as [Fd Fj].
  destruct i as [|i]; cbn in X.
  - injection X as <-. split; [intros Q; rewrite Q in Fd; done|]. intros O.
    apply orb_true_iff in Fj as [Fj|Fj].
    + exfalso. apply negb_true_iff in Fj. unfold one_of in O. rewrite <-not_true_iff_false in Fj. apply Fj.
      apply existsb_exists. exists (c_letter c0). split; [by apply list_elem_of_In|apply Z.eqb_refl].
    + apply Nat.ltb_lt in Fj. lia.
  - destruct (IH (S pc) i c Fr X) as [D J]. split; [done|]. intros O. specialize (J O). lia.
Qed.

Lemma forward_check cmds : leads_forward 0 cmds = true -> forward cmds.
Proof. intros F pc c X. exact (leads_forward_lookup cmds 0 pc c F X). Qed.

Lemma sed_run_ends_witness :
  sed_compile loop_script (List.length loop_script) 0 = Ok (compiled_script loop_script 0) /\
  (forall fuel lines, sed_run fuel lines (compiled_script loop_script 0) three_lines <> RunBroken) /\
  forward (sed_cmds (compiled_script loop_script 0)).
Proof.
  assert (E : sed_compile loop_script (List.length loop_script) 0 = Ok (compiled_script loop_script 0))
    by (vm_compute; reflexivity).
  split; [exact E|]. split.
  - apply (sed_run_ends loop_script (List.length loop_script) 0 _ three_lines);
      [apply bytes_check; reflexivity|lia|exact E].
  - apply forward_check. vm_compute. reflexivity.
Defined.

Lemma list_unambiguous_witness :
  let s := b "a\b" ++ [7; 200; 10] in
  unlist (List.concat (sed_do_list s (5 + 1))) = Some s /\ folded 5 0 (List.concat (sed_do_list s (5 + 1))) = true.
Proof.
  cbv zeta.
  destruct (list_unambiguous (b "a\b" ++ [7; 200; 10]) 5) as [R F];
    [apply bytes_check; reflexivity|lia|]. split; [exact R|]. apply F. lia.
Defined.

(** ** What the code does differently *)

(** A "p" writes the newline of its line only if the line had one: on a last
    line without, the automatic output follows on the same line. *)
Example print_without_newline : sed_output 0 "p" (Files [(b "x", false)] [] []) = Some (b "xx", []).
Proof. by vm_compute. Qed.

(** sed_internal.h says that queued text is written "just before the next line
    is read (by n/N or by starting a new cycle)".  N does not write it: the text
    of "a" follows both lines, where n has it between them. *)
Example text_waits_for_both_lines :
  sed_output 0 ("a foo" ++ String (Ascii.ascii_of_nat 10) "N") (input_of ["1"; "2"]%string)
    = Some (b "1" ++ [10] ++ b "2" ++ [10] ++ b "foo" ++ [10], [])
  /\ sed_output 0 ("a foo" ++ String (Ascii.ascii_of_nat 10) "n") (input_of ["1"; "2"]%string)
    = Some (b "1" ++ [10] ++ b "foo" ++ [10] ++ b "2" ++ [10], []).
Proof. split; by vm_compute. Qed.

(** sed_internal.h says of the flag t and T test: "any successful s/// since the
    last input line or last t/T".  n and N read a line and keep the flag. *)
Example flag_outlives_line : sed_output 0 "s/a/b/;n;T;s/.*/taken/" (input_of ["a"; "c"]%string)
  = Some (b "b" ++ [10] ++ b "taken" ++ [10], []).
Proof. by vm_compute. Qed.

(** sed.h says that a script need not be NUL-terminated; a number at its end is
    read by scan_ulong, which does not know the end: the script "q1" in front of
    a "2" quits with 12. *)
Example numbers_read_on : match sed_compile (b "q12") 2 0 with
  | Ok p => sed_cmds p = [Cmd (ch "q") 0 false SA_NONE SA_NONE 0 false (U_STATUS 12)]
  | _ => False
  end.
Proof. by vm_compute. Qed.

(** Nothing has to stand between two commands: an unknown flag of s is the next
    command, here the exchange with the empty hold space. *)
Example missing_separator : sed_output 0 "s/a/b/x" (input_of ["axa"]%string) = Some ([10], [])
  /\ sed_output 0 "pd" (input_of ["a"; "c"]%string) = Some (b "a" ++ [10] ++ b "c" ++ [10], []).
Proof. split; by vm_compute. Qed.

(** The width of l is stored with one added: the largest int overflows. *)
Example list_width_overflow : sed_compile (b "l 2147483647") 12 0 = Undef.
Proof. by vm_compute. Qed.
