(* ===== verification/Wordlist.v ===== *)
(** * Lists of fields (src/wordlist.h, src/wordlist)

    The sink of word expansion: chunks of text come in, fields go out.  A
    chunk is appended to the open field or, when its flags allow, split at
    the characters of IFS.  [glob] is the platform's: the paths that match a
    pattern, [None] when it returns an error or finds none.  The buffer [cur]
    is a list of bytes; a read behind its end gives the NUL that
    stralloc_nul() puts there.  Allocations do not fail. *)

From S2P Require Import Prelude CStr Chars.

(** ** Modes of a chunk and states of a field *)

Definition X_DEFAULT : Z := 0x00000000.
Definition X_NOSPLIT : Z := 0x01000000.
Definition X_LITERAL : Z := 0x02000000.
Definition X_GLOB : Z := 0x04000000.
Definition X_GLOBRES : Z := 0x00200000.
Definition X_QUOTED : Z := 0x08000000.
Definition X_UNESCAPED : Z := 0x10000000.
Definition X_PATTERN : Z := 0x20000000.
Definition X_SUBWORD : Z := 0x00100000.
Definition X_SPLIT : Z := 0x40000000.

Record wordlist := Wordlist {
  wl_ar : bool;           (* ar != NULL: field mode *)
  wl_cur : bytes;
  wl_v : list bytes;      (* the closed fields; n is its length *)
  wl_mark : nat;
  wl_state : Z;
  wl_ifs : bytes;         (* NULL is the empty string *)
  wl_has : bool;
  wl_closed : bool;
  wl_pend : bool;
  wl_noglob : bool
}.

Definition with_cur (c : bytes) (w : wordlist) : wordlist :=
  Wordlist (wl_ar w) c (wl_v w) (wl_mark w) (wl_state w) (wl_ifs w) (wl_has w) (wl_closed w)
    (wl_pend w) (wl_noglob w).
Definition with_v (v : list bytes) (w : wordlist) : wordlist :=
  Wordlist (wl_ar w) (wl_cur w) v (wl_mark w) (wl_state w) (wl_ifs w) (wl_has w) (wl_closed w)
    (wl_pend w) (wl_noglob w).
Definition with_mark (m : nat) (w : wordlist) : wordlist :=
  Wordlist (wl_ar w) (wl_cur w) (wl_v w) m (wl_state w) (wl_ifs w) (wl_has w) (wl_closed w)
    (wl_pend w) (wl_noglob w).
Definition with_state (s : Z) (w : wordlist) : wordlist :=
  Wordlist (wl_ar w) (wl_cur w) (wl_v w) (wl_mark w) s (wl_ifs w) (wl_has w) (wl_closed w)
    (wl_pend w) (wl_noglob w).
Definition with_ifs (i : bytes) (w : wordlist) : wordlist :=
  Wordlist (wl_ar w) (wl_cur w) (wl_v w) (wl_mark w) (wl_state w) i (wl_has w) (wl_closed w)
    (wl_pend w) (wl_noglob w).
Definition with_field (h c p : bool) (w : wordlist) : wordlist :=
  Wordlist (wl_ar w) (wl_cur w) (wl_v w) (wl_mark w) (wl_state w) (wl_ifs w) h c p (wl_noglob w).
Definition with_noglob (g : bool) (w : wordlist) : wordlist :=
  Wordlist (wl_ar w) (wl_cur w) (wl_v w) (wl_mark w) (wl_state w) (wl_ifs w) (wl_has w)
    (wl_closed w) (wl_pend w) g.

Definition wordlist_init (ifs : bytes) : wordlist :=
  Wordlist true [] [] 0 0 ifs false false false false.

(** String mode: the chunks are appended to [out]. *)
Definition wordlist_init_str (out : bytes) : wordlist :=
  Wordlist false out [] 0 0 [] true false false false.

(** ** Unescaping *)

Fixpoint expand_unescape (pred : Z -> bool) (s : bytes) : bytes :=
  match s with
  | [] => []
  | c :: s' =>
      if (c =? ch "\") && pred (chd s') then
        match s' with
        | [] => []
        | d :: s'' => d :: expand_unescape pred s''
        end
      else c :: expand_unescape pred s'
  end.

Fixpoint cat_unescaped (sa b : bytes) : bytes :=
  match b with
  | [] => sa
  | c :: b' =>
      match b' with
      | d :: b'' =>
          if (c =? ch "\") && parse_isesc d then cat_unescaped (sa ++ [d]) b''
          else cat_unescaped (sa ++ [c]) b'
      | [] => sa ++ [c]
      end
  end.

(** A quoted result inside a pattern *)
Definition is_pattern_char (c : Z) : bool :=
  (c =? ch "\") || (c =? ch "*") || (c =? ch "?") || (c =? ch "[").

Fixpoint cat_literal (sa b : bytes) : bytes :=
  match b with
  | [] => sa
  | c :: b' => cat_literal ((if is_pattern_char c then sa ++ [ch "\"] else sa) ++ [c]) b'
  end.

(** ** IFS *)

Definition is_ifs (ifs : bytes) (c : Z) : bool :=
  (0 <? List.length ifs)%nat && (str_chr ifs c <? List.length ifs)%nat.

Definition is_ws (ifs : bytes) (c : Z) : bool :=
  ((c =? ch " ") || (c =? 9) || (c =? 10)) && is_ifs ifs c.

Fixpoint span (p : Z -> bool) (s : bytes) : bytes * bytes :=
  match s with
  | [] => ([], [])
  | c :: s' => if p c then let '(x, y) := span p s' in (c :: x, y) else ([], s)
  end.

Definition count (p : Z -> bool) (s : bytes) : nat := List.length (List.filter p s).

Definition has_pattern_char (s : bytes) : bool :=
  existsb (fun c => (c =? ch "*") || (c =? ch "?") || (c =? ch "[")) s.

(** ** Operations *)

Section Wordlist.
Context (glob : bytes -> option (list bytes)).

Definition wordlist_push (w : wordlist) : wordlist :=
  let empty := (List.length (wl_cur w) =? 0)%nat
               && negb (has (wl_state w) (Z.lor (Z.lor X_QUOTED X_NOSPLIT) X_SPLIT)) in
  with_cur [] (with_field (wl_has w) (wl_closed w) empty (with_v (wl_v w ++ [wl_cur w]) w)).

Definition drop_last (v : list bytes) : list bytes := take (List.length v - 1) v.

Definition wordlist_settle (w : wordlist) : wordlist :=
  if wl_pend w
  then with_field (wl_has w) (wl_closed w) false (with_v (drop_last (wl_v w)) w)
  else w.

(** The matches: all but the last are pushed, or with X_NOSPLIT joined. *)
Fixpoint glob_fields (flags : Z) (paths : list bytes) (w : wordlist) : wordlist :=
  match paths with
  | [] => w
  | p :: rest =>
      let w := with_cur (wl_cur w ++ p) w in
      match rest with
      | [] => w
      | _ =>
          let w :=
            if has flags X_NOSPLIT then
              match wl_ifs w with [] => w | c :: _ => with_cur (wl_cur w ++ [c]) w end
            else wordlist_push w in
          glob_fields flags rest (with_state (set (wl_state w) flags) w)
      end
  end.

Definition wordlist_glob (w : wordlist) (flags : Z) : wordlist :=
  let unescaped := with_cur (expand_unescape parse_isesc (wl_cur w)) w in
  if has flags X_GLOBRES && (wl_noglob w || negb (has_pattern_char (cstr (wl_cur w)))) then w
  else if wl_noglob w then unescaped
  else
    match glob (cstr (wl_cur w)) with
    | Some paths => glob_fields flags paths (with_cur [] w)
    | None => if has flags X_GLOBRES then w else unescaped
    end.

(** A sibling of the closed field: neither is dropped. *)
Definition sibling (w : wordlist) : wordlist :=
  with_cur [] (with_state X_SPLIT (with_field (wl_has w) false false w)).

Definition start (w : wordlist) : wordlist :=
  if negb (wl_has w) then with_cur [] (with_state 0 (with_field true false (wl_pend w) w))
  else if wl_closed w then sibling w
  else w.

Definition close_field (w : wordlist) : wordlist := with_field (wl_has w) true (wl_pend w) w.

Definition finish (w : wordlist) (flags : Z) : wordlist :=
  let w :=
    if has flags X_GLOB then wordlist_glob w (clear flags X_GLOB)
    else if has flags X_GLOBRES then wordlist_glob w flags
    else if has flags X_LITERAL then
      with_state (clear (wl_state w) X_GLOB) (with_cur (expand_unescape parse_isesc (wl_cur w)) w)
    else w in
  close_field (wordlist_push w).

Definition append (s : bytes) (w : wordlist) : wordlist := with_cur (wl_cur w ++ s) w.
Definition or_state (flags : Z) (w : wordlist) : wordlist := with_state (set (wl_state w) flags) w.

(** A chunk that is not split *)
Definition cat_whole (w : wordlist) (b : bytes) (flags : Z) : wordlist :=
  let w := start w in
  let w :=
    if has flags X_LITERAL && negb (has flags X_PATTERN) && has (wl_state w) X_LITERAL
       && negb (has (wl_state w) (Z.lor X_UNESCAPED X_GLOB))
    then with_cur (expand_unescape parse_isesc (wl_cur w)) w else w in
  let w := or_state flags w in
  if has flags X_LITERAL && negb (has flags X_PATTERN) then
    or_state X_UNESCAPED (with_cur (cat_unescaped (wl_cur w) b) w)
  else if has flags X_PATTERN && has flags X_QUOTED && negb (has flags X_LITERAL) then
    with_cur (cat_literal (wl_cur w) b) w
  else append b w.

(** The literal text of a word *)
Definition cat_text (w : wordlist) (b : bytes) (flags : Z) : wordlist :=
  let w := start w in
  if has (wl_state w) X_UNESCAPED && negb (has flags (Z.lor X_GLOB X_PATTERN)) then
    let w := or_state flags w in with_cur (cat_unescaped (wl_cur w) b) w
  else append b (or_state flags w).

(** The second and later characters of a run that are not blanks *)
Fixpoint close_empty (k : nat) (flags : Z) (w : wordlist) : wordlist :=
  match k with O => w | S k => close_empty k flags (finish (sibling w) flags) end.

(** What a run of IFS characters ends *)
Definition delimit (have_field : bool) (nws : nat) (flags : Z) (w : wordlist) : wordlist :=
  match nws with
  | O =>
      if have_field
         || (wl_has w && negb (wl_closed w) && has (wl_state w) (Z.lor X_QUOTED X_NOSPLIT))
      then finish w flags else w
  | S k => close_empty k flags (finish (if have_field then w else start w) flags)
  end.

Fixpoint cat_split (fuel : nat) (ifs b : bytes) (flags : Z) (have_field : bool) (w : wordlist) : wordlist :=
  match fuel with
  | O => w
  | S fuel =>
      let '(run, rest) := span (fun c => negb (is_ifs ifs c)) b in
      let '(w, have_field) :=
        match run with
        | [] => (w, have_field)
        | _ => (append run (or_state flags (if have_field then w else start w)), true)
        end in
      match rest with
      | [] => w
      | _ =>
          let '(delim, rest) := span (is_ifs ifs) rest in
          cat_split fuel ifs rest flags false
            (delimit have_field (count (fun c => negb (is_ws ifs c)) delim) flags w)
      end
  end.

Definition wordlist_cat (w : wordlist) (b : bytes) (flags : Z) : wordlist :=
  let flags := if wl_ar w then flags else set flags X_NOSPLIT in
  if has flags (Z.lor X_NOSPLIT X_QUOTED) then cat_whole w b flags
  else if has flags X_LITERAL && negb (has flags X_SUBWORD) then cat_text w b flags
  else
    match b with
    | [] => w
    | _ =>
        let have_field := wl_has w && negb (wl_closed w) && (0 <? List.length (wl_cur w))%nat in
        cat_split (S (List.length b)) (wl_ifs w) b flags have_field w
    end.

Definition wordlist_break (w : wordlist) : wordlist :=
  if negb (wl_ar w) || negb (wl_has w) then w
  else
    let w := wordlist_settle (if wl_closed w then w else wordlist_push w) in
    with_field false false (wl_pend w) w.

(** The list and the fields the word added *)
Definition wordlist_close (w : wordlist) : wordlist * nat :=
  if negb (wl_ar w) then (w, 0%nat)
  else
    let mark := wl_mark w in
    let w :=
      if wl_closed w && negb (wl_pend w) && negb (List.length (wl_v w) =? 0)%nat
         && has (wl_state w) (Z.lor (Z.lor X_GLOB X_GLOBRES) X_LITERAL)
      then with_field (wl_has w) false (wl_pend w)
             (with_cur (cstr (List.last (wl_v w) [])) (with_v (drop_last (wl_v w)) w))
      else w in
    let w :=
      if wl_has w && negb (wl_closed w) then
        wordlist_push
          (if has (wl_state w) X_GLOB then wordlist_glob w (clear (wl_state w) X_GLOB)
           else if has (wl_state w) X_GLOBRES then wordlist_glob w (wl_state w)
           else if has (wl_state w) X_LITERAL && negb (has (wl_state w) X_UNESCAPED)
           then with_cur (expand_unescape parse_isesc (wl_cur w)) w
           else w)
      else w in
    let w := wordlist_settle w in
    let n := List.length (wl_v w) in
    (with_mark n (with_field false false (wl_pend w) w), (n - mark)%nat).

(** wordlist_argv: v and n *)
Definition wordlist_argv (w : wordlist) : list bytes := wl_v w.

End Wordlist.
