(* ===== verification/WordlistProps.v ===== *)
(** * What field splitting does (src/wordlist/wordlist_cat.c, wordlist_close.c)

    [posix_split] is field splitting as POSIX 2.6.5 words it, one delimiter
    at a time.  The theorems relate the fields a word ends up with to it, and
    state the invariant that makes the indexing of [v] safe. *)

From S2P Require Import Prelude Chars Wordlist.

(** ** Reference *)

Section Posix.
Context (ifs : bytes).

Definition outside (c : Z) : bool := negb (is_ifs ifs c).

(** A delimiter: blanks of IFS around at most one other character of IFS. The
    blanks behind it are those in front of the next field. *)
Definition skip_delimiter (s : bytes) : bytes :=
  match snd (span (is_ws ifs) s) with
  | c :: r => if is_ifs ifs c then r else c :: r
  | [] => []
  end.

Fixpoint split_fields (fuel : nat) (s : bytes) : list bytes :=
  match fuel with
  | O => []
  | S fuel =>
      match snd (span (is_ws ifs) s) with
      | [] => []
      | s => let '(f, rest) := span outside s in f :: split_fields fuel (skip_delimiter rest)
      end
  end.

Definition posix_split (s : bytes) : list bytes := split_fields (S (List.length s)) s.

End Posix.

(** A word that is nothing but one empty field is dropped. *)
Definition keep_fields (fs : list bytes) : list bytes :=
  match fs with [[]] => [] | _ => fs end.

(** ** Spans *)

Lemma span_app p s : fst (span p s) ++ snd (span p s) = s.
Proof.
  induction s as [|c s IH]; [done|]. simpl. destruct (p c); [|done].
  destruct (span p s). simpl in *. by rewrite IH.
Qed.

Lemma span_fst p s : forallb p (fst (span p s)) = true.
Proof.
  induction s as [|c s IH]; [done|]. simpl. destruct (p c) eqn:E; [|done].
  destruct (span p s). simpl in *. by rewrite E.
Qed.

Lemma span_snd p s : match snd (span p s) with [] => True | c :: _ => p c = false end.
Proof.
  induction s as [|c s IH]; [done|]. simpl. destruct (p c) eqn:E; [|done].
  by destruct (span p s).
Qed.

(** What follows a run does not continue it. *)
Definition stops (p : Z -> bool) (s : bytes) : Prop :=
  match s with [] => True | c :: _ => p c = false end.

Lemma span_run p s t : forallb p s = true -> stops p t -> span p (s ++ t) = (s, t).
Proof.
  induction s as [|c s IH]; simpl.
  - destruct t as [|c t]; simpl; [done|]. by intros _ ->.
  - rewrite andb_true_iff. intros [-> Hs] Ht. by rewrite IH.
Qed.

Lemma span_length p s : (List.length (snd (span p s)) <= List.length s)%nat.
Proof. rewrite <-(span_app p s) at 2. rewrite length_app. lia. Qed.

Section Reference.
Context (ifs : bytes).

Lemma ws_ifs c : is_ws ifs c = true -> is_ifs ifs c = true.
Proof. unfold is_ws. rewrite andb_true_iff. tauto. Qed.

Lemma stops_ws s : stops (is_ifs ifs) s -> stops (is_ws ifs) s.
Proof.
  destruct s as [|c s]; simpl; [done|]. destruct (is_ws ifs c) eqn:E; [|done].
  apply ws_ifs in E. congruence.
Qed.

Lemma skip_delimiter_length s : stops (outside ifs) s -> s <> [] ->
  (List.length (skip_delimiter ifs s) < List.length s)%nat.
Proof.
  unfold skip_delimiter. intros H Hs. destruct s as [|c s]; [done|]. simpl in *.
  unfold outside in H. apply negb_false_iff in H. destruct (is_ws ifs c).
  - pose proof (span_length (is_ws ifs) s). destruct (span (is_ws ifs) s) as [x [|d r]]; simpl in *; [lia|].
    destruct (is_ifs ifs d); simpl; lia.
  - simpl. rewrite H. lia.
Qed.

Lemma skip_delimiter_le s : (List.length (skip_delimiter ifs s) <= List.length s)%nat.
Proof.
  unfold skip_delimiter. pose proof (span_length (is_ws ifs) s).
  destruct (snd (span (is_ws ifs) s)) as [|c r]; simpl in *; [lia|].
  destruct (is_ifs ifs c); simpl; lia.
Qed.

(** One step of the reference consumes something. *)
Lemma split_step_length s : snd (span (is_ws ifs) s) <> [] ->
  (List.length (skip_delimiter ifs (snd (span (outside ifs) (snd (span (is_ws ifs) s)))))
   < List.length s)%nat.
Proof.
  intros H. pose proof (span_length (is_ws ifs) s).
  set (t := snd (span (is_ws ifs) s)) in *. destruct (fst (span (outside ifs) t)) as [|f fs] eqn:E.
  - pose proof (span_app (outside ifs) t) as A. rewrite E in A. simpl in A. rewrite A.
    pose proof (skip_delimiter_length t). rewrite <-A in *. 
    specialize (H1 (span_snd (outside ifs) t)). rewrite A in *. specialize (H1 H). lia.
  - pose proof (span_app (outside ifs) t) as A. rewrite E in A.
    pose proof (skip_delimiter_le (snd (span (outside ifs) t))).
    apply (f_equal (@List.length Z)) in A. rewrite length_app in A. simpl in A. lia.
Qed.

Lemma split_fields_fuel n m s : (List.length s < n)%nat -> (List.length s < m)%nat ->
  split_fields ifs n s = split_fields ifs m s.
Proof.
  revert m s. induction n as [|n IH]; intros m s Hn Hm; [lia|]. destruct m as [|m]; [lia|].
  cbn [split_fields]. pose proof (split_step_length s) as L.
  destruct (snd (span (is_ws ifs) s)) as [|c t]; [done|]. specialize (L ltac:(done)).
  destruct (span (outside ifs) (c :: t)) as [f r]. simpl in L. f_equal. apply IH; lia.
Qed.

Lemma posix_split_eq s :
  posix_split ifs s =
    match snd (span (is_ws ifs) s) with
    | [] => []
    | t => let '(f, rest) := span (outside ifs) t in f :: posix_split ifs (skip_delimiter ifs rest)
    end.
Proof.
  unfold posix_split at 1. cbn [split_fields]. pose proof (split_step_length s) as L.
  destruct (snd (span (is_ws ifs) s)) as [|c t]; [done|]. specialize (L ltac:(done)).
  destruct (span (outside ifs) (c :: t)) as [f r]. simpl in L. f_equal.
  apply split_fields_fuel; lia.
Qed.

Lemma posix_ws c s : is_ws ifs c = true -> posix_split ifs (c :: s) = posix_split ifs s.
Proof.
  intros H. rewrite (posix_split_eq (c :: s)), (posix_split_eq s). cbn [span]. rewrite H.
  by destruct (span (is_ws ifs) s).
Qed.

Lemma skip_ws c s : is_ws ifs c = true -> skip_delimiter ifs (c :: s) = skip_delimiter ifs s.
Proof.
  intros H. unfold skip_delimiter. cbn [span]. rewrite H. by destruct (span (is_ws ifs) s).
Qed.

Lemma skip_other c s : is_ifs ifs c = true -> is_ws ifs c = false -> skip_delimiter ifs (c :: s) = s.
Proof. intros H W. unfold skip_delimiter. cbn [span]. rewrite W. cbn [snd]. by rewrite H. Qed.

Definition others (d : bytes) : nat := count (fun c => negb (is_ws ifs c)) d.

Lemma others_cons c d : others (c :: d) = ((if is_ws ifs c then 0 else 1) + others d)%nat.
Proof. unfold others, count. simpl. by destruct (is_ws ifs c). Qed.

(** A run of IFS characters makes as many empty fields as it has non-blanks. *)
Lemma posix_run d s : forallb (is_ifs ifs) d = true ->
  posix_split ifs (d ++ s) = replicate (others d) [] ++ posix_split ifs s.
Proof.
  induction d as [|c d IH]; [done|]. cbn [forallb app]. rewrite andb_true_iff. intros [C D].
  rewrite others_cons. destruct (is_ws ifs c) eqn:W.
  - rewrite posix_ws by done. by apply IH.
  - rewrite posix_split_eq. cbn [span]. rewrite W. cbn [snd span]. unfold outside. rewrite C.
    cbn [negb]. rewrite skip_other by done. simpl. by rewrite IH.
Qed.

Lemma skip_run d s : forallb (is_ifs ifs) d = true -> stops (is_ifs ifs) s ->
  posix_split ifs (skip_delimiter ifs (d ++ s))
  = replicate (Nat.pred (others d)) [] ++ posix_split ifs s.
Proof.
  intros D S. induction d as [|c d IH]; cbn [app].
  - destruct s as [|c s]; [done|]. pose proof (stops_ws _ S) as W. simpl in S, W.
    unfold skip_delimiter. cbn [span]. rewrite W. cbn [snd]. by rewrite S.
  - simpl in D. apply andb_true_iff in D as [C D]. rewrite others_cons.
    destruct (is_ws ifs c) eqn:W.
    + rewrite skip_ws by done. by apply IH.
    + rewrite skip_other by done. by apply posix_run.
Qed.

Lemma posix_field f d s : f <> [] -> forallb (outside ifs) f = true ->
  forallb (is_ifs ifs) d = true -> stops (is_ifs ifs) s -> (d = [] -> s = []) ->
  posix_split ifs (f ++ d ++ s) = f :: replicate (Nat.pred (others d)) [] ++ posix_split ifs s.
Proof.
  intros Hf F D S E. rewrite posix_split_eq, <-(skip_run d s) by done.
  assert (stops (outside ifs) (d ++ s)) as St.
  { destruct d as [|c d]; simpl; [by rewrite E|]. simpl in D. unfold outside.
    apply andb_true_iff in D as [-> _]. done. }
  assert (snd (span (is_ws ifs) (f ++ d ++ s)) = f ++ d ++ s) as ->.
  { destruct f as [|c f]; [done|]. simpl in *. apply andb_true_iff in F as [C _].
    unfold outside in C. destruct (is_ws ifs c) eqn:W; [|done].
    rewrite (ws_ifs c W) in C. done. }
  destruct f as [|c f]; [done|]. change ((c :: f) ++ d ++ s) with (c :: (f ++ d ++ s)).
  cbn match. change (c :: (f ++ d ++ s)) with ((c :: f) ++ d ++ s).
  by rewrite span_run.
Qed.

End Reference.

(** ** Splitting *)

Section Splitting.
Context (glob : bytes -> option (list bytes)).

(** The text is no pattern to be matched: no result of an expansion, set -f,
    or no pattern character. *)
Definition calm (flags : Z) (w : wordlist) (s : bytes) : Prop :=
  has flags X_GLOBRES = false \/ wl_noglob w = true \/ has_pattern_char s = false.

(** The chunk is split, and not unescaped or matched as it stands. *)
Definition splits (flags : Z) : Prop :=
  has flags (Z.lor X_QUOTED X_NOSPLIT) = false /\ has flags X_LITERAL = false /\
  has flags X_GLOB = false /\ has flags X_SPLIT = false.

(** What the state bits of a field made by splitting may say *)
Definition split_state (flags : Z) (fs : list bytes) (st : Z) : Prop :=
  has st (Z.lor X_QUOTED X_NOSPLIT) = false /\ has st X_LITERAL = false /\ has st X_GLOB = false /\
  has st X_SPLIT = negb (bool_decide (fs = [])) /\
  (has st X_GLOBRES = true -> has flags X_GLOBRES = true).

Context (flags : Z) (ifs : bytes) (noglob : bool) (mark : nat) (v0 : list bytes).
Context (Hflags : splits flags).

(** A field is open behind the fields [fs] of the word, and holds [c]. *)
Record open_as (fs : list bytes) (c : bytes) (w : wordlist) : Prop := OpenAs {
  oa_ar : wl_ar w = true; oa_ifs : wl_ifs w = ifs; oa_noglob : wl_noglob w = noglob;
  oa_mark : wl_mark w = mark; oa_cur : wl_cur w = c; oa_v : wl_v w = v0 ++ fs;
  oa_has : wl_has w = true; oa_closed : wl_closed w = false; oa_pend : wl_pend w = false;
  oa_state : split_state flags fs (wl_state w)
}.

(** The fields [fs] are closed; none is open. *)
Record closed_as (fs : list bytes) (w : wordlist) : Prop := ClosedAs {
  ca_ar : wl_ar w = true; ca_ifs : wl_ifs w = ifs; ca_noglob : wl_noglob w = noglob;
  ca_mark : wl_mark w = mark; ca_v : wl_v w = v0 ++ fs;
  ca_has : wl_has w = negb (bool_decide (fs = []));
  ca_closed : wl_closed w = negb (bool_decide (fs = []));
  ca_pend : wl_pend w = bool_decide (fs = [[]]);
  ca_state : fs <> [] -> split_state flags (removelast fs) (wl_state w)
}.

Definition calm_text (s : bytes) : Prop :=
  has flags X_GLOBRES = false \/ noglob = true \/ has_pattern_char s = false.

Lemma split_state_or fs st : split_state flags fs st -> split_state flags fs (set st flags).
Proof.
  intros (Q & L & G & S & R). destruct Hflags as (FQ & FL & FG & FS).
  unfold split_state. split_and!; rewrite ?has_set, ?FQ, ?FL, ?FG, ?FS, ?orb_false_r; auto.
  intros [H|H]%orb_true_iff; auto.
Qed.

Lemma cstr_pattern s : has_pattern_char s = false -> has_pattern_char (cstr s) = false.
Proof.
  induction s as [|c s IH]; [done|]. simpl. rewrite orb_false_iff. intros [H1 H2].
  destruct (c =? 0); [done|]. simpl. by rewrite H1, IH.
Qed.

Lemma glob_calm w st : wl_noglob w = noglob -> calm_text (wl_cur w) -> has st X_GLOBRES = true ->
  has flags X_GLOBRES = true -> wordlist_glob glob w st = w.
Proof.
  intros N C R F. unfold wordlist_glob. rewrite R, N. destruct C as [C|[C|C]]; [congruence|by rewrite C|].
  by rewrite (cstr_pattern _ C), orb_true_r.
Qed.

Lemma start_closed fs w : closed_as fs w -> open_as fs [] (start w).
Proof.
  intros []. unfold start. rewrite ca_has0, ca_closed0. destruct fs as [|f fs].
  - split; simpl; auto. by split_and!.
  - split; simpl; auto. by split_and!.
Qed.

Lemma sibling_closed fs w : fs <> [] -> closed_as fs w -> open_as fs [] (sibling w).
Proof.
  intros Hn C. pose proof (start_closed fs w C) as S. unfold start in S.
  rewrite (ca_has _ _ C), (ca_closed _ _ C) in S. by destruct fs.
Qed.

Lemma append_open fs c s w : open_as fs c w -> open_as fs (c ++ s) (append s (or_state flags w)).
Proof. intros []. split; simpl; auto; [by f_equal|by apply split_state_or]. Qed.

Lemma push_state fs w : split_state flags fs (wl_state w) ->
  has (wl_state w) (Z.lor (Z.lor X_QUOTED X_NOSPLIT) X_SPLIT) = negb (bool_decide (fs = [])).
Proof. intros (Q & _ & _ & S & _). by rewrite has_union, Q, S. Qed.

Lemma keep_pend fs (c : bytes) :
  ((List.length c =? 0)%nat && negb (negb (bool_decide (fs = [])))) = bool_decide (fs ++ [c] = [[]]).
Proof.
  rewrite negb_involutive. destruct fs as [|f fs], c as [|x c]; simpl; try done.
  - symmetry. apply bool_decide_eq_false. intros [= _ H]. by destruct fs.
  - symmetry. apply bool_decide_eq_false. intros [= _ H]. by destruct fs.
Qed.

(** Freezing the open field *)
Lemma push_open fs c w : open_as fs c w ->
  let w' := wordlist_push w in
  wl_v w' = v0 ++ fs ++ [c] /\ wl_pend w' = bool_decide (fs ++ [c] = [[]]) /\ wl_ar w' = true /\
  wl_ifs w' = ifs /\ wl_noglob w' = noglob /\ wl_mark w' = mark /\ wl_state w' = wl_state w.
Proof.
  intros []. simpl. rewrite (push_state fs), oa_cur0, oa_v0, keep_pend, app_assoc by done. done.
Qed.

Lemma closed_of_push fs c w : open_as fs c w -> closed_as (fs ++ [c]) (close_field (wordlist_push w)).
Proof.
  intros O. destruct (push_open fs c w O) as (V & P & A & I & N & M & S).
  assert (bool_decide (fs ++ [c] = []) = false) as E by (apply bool_decide_eq_false; by destruct fs).
  split; cbn [close_field with_field wl_ar wl_ifs wl_noglob wl_mark wl_v wl_has wl_closed wl_pend wl_state];
    rewrite ?E; auto; [apply O|]. intros _. rewrite removelast_last, S. apply O.
Qed.

Lemma finish_open fs c w : calm_text c -> open_as fs c w -> closed_as (fs ++ [c]) (finish glob w flags).
Proof.
  intros C O. unfold finish. destruct Hflags as (_ & FL & FG & _). rewrite FG, FL.
  destruct (has flags X_GLOBRES) eqn:R; [|by apply closed_of_push].
  rewrite glob_calm; [by apply closed_of_push|apply O| |done|done]. by rewrite (oa_cur _ _ _ O).
Qed.

Lemma close_empty_closed k fs w : fs <> [] -> closed_as fs w ->
  closed_as (fs ++ replicate k []) (close_empty glob k flags w).
Proof.
  intros Hn C. revert fs w Hn C. induction k as [|k IH]; intros fs w Hn C; simpl.
  - by rewrite app_nil_r.
  - change ([] :: replicate k []) with ([[]] ++ replicate k ([] : bytes)). rewrite app_assoc. apply IH.
    + by destruct fs.
    + apply finish_open; [unfold calm_text; simpl; tauto|]. by apply sibling_closed.
Qed.

Lemma removelast_split fs (f : bytes) : removelast (fs ++ [f]) = fs.
Proof. apply removelast_last. Qed.

(** What the word ends up with *)
Lemma close_open fs c w : calm_text c -> open_as fs c w ->
  wl_v (fst (wordlist_close glob w)) = v0 ++ keep_fields (fs ++ [c]).
Proof.
  intros C O. destruct (push_open fs c w O) as (V & P & _).
  destruct O as [A _ N _ Cu _ Ha Cl _ (Q & L & G & S & R)].
  unfold wordlist_close. rewrite A, Cl. cbn [negb andb]. rewrite Ha, Cl. cbn [negb andb].
  rewrite G, L. cbn [andb].
  assert ((if has (wl_state w) X_GLOBRES then wordlist_glob glob w (wl_state w) else w) = w) as E.
  { destruct (has (wl_state w) X_GLOBRES) eqn:E; [|done].
    apply glob_calm; auto. by rewrite Cu. }
  rewrite E. cbn [fst with_mark with_field wl_v]. unfold wordlist_settle. rewrite P.
  destruct (bool_decide_reflect (fs ++ [c] = [[]])) as [K|K].
  - cbn [with_field with_v wl_v]. rewrite V, K. unfold drop_last. rewrite length_app. simpl.
    replace (List.length v0 + 1 - 1)%nat with (List.length v0) by lia.
    by rewrite take_app_length, app_nil_r.
  - rewrite V. f_equal. destruct (fs ++ [c]) as [|[|] [|]]; try done.
Qed.

(** A field taken back out of [v] is finished again. *)
Lemma close_closed fs w : Forall calm_text fs -> Forall cstring fs -> closed_as fs w ->
  wl_v (fst (wordlist_close glob w)) = v0 ++ keep_fields fs.
Proof.
  intros Ca Cs C. destruct (decide (fs = [])) as [-> |Hn].
  { destruct C as [A _ _ _ V Ha Cl P _].
    change (wl_has w = false) in Ha. change (wl_closed w = false) in Cl. change (wl_pend w = false) in P.
    unfold wordlist_close. rewrite A, Cl. cbn [negb andb]. rewrite Ha, Cl. cbn [negb andb].
    unfold wordlist_settle. rewrite P. cbn. by rewrite V. }
  destruct (exists_last Hn) as (fs' & c & ->). clear Hn.
  apply Forall_app in Ca as [_ Ca]. apply Forall_app in Cs as [_ Cs].
  apply List.Forall_inv in Ca. apply List.Forall_inv in Cs.
  destruct C as [A I N M V Ha Cl P S]. rewrite removelast_last in S.
  assert (bool_decide (fs' ++ [c] = []) = false) as E by (apply bool_decide_eq_false; by destruct fs').
  rewrite E in Ha, Cl. specialize (S ltac:(by destruct fs')). cbn [negb] in *.
  set (w' := with_field true false (wl_pend w) (with_cur c (with_v (v0 ++ fs') w))).
  destruct (wl_closed w && negb (wl_pend w) && negb (List.length (wl_v w) =? 0)%nat
            && has (wl_state w) (Z.lor (Z.lor X_GLOB X_GLOBRES) X_LITERAL)) eqn:T.
  - assert (wordlist_close glob w = wordlist_close glob w') as ->.
    { unfold wordlist_close. rewrite T. unfold w', drop_last.
      rewrite V, Ha, app_assoc, List.last_last, (cstr_id c Cs), (length_app (v0 ++ fs')).
      rewrite Nat.add_sub, take_app_length. 
 cbn [wl_ar wl_closed wl_mark with_field with_cur with_v negb andb]. rewrite A. done. }
    rewrite Cl in T. destruct (wl_pend w) eqn:P'; [done|].
    apply close_open; [done|]. by split.
  - unfold wordlist_close. rewrite A. cbn [negb]. rewrite T, Ha, Cl. cbn [negb andb fst].
    cbn [with_mark with_field wl_v]. unfold wordlist_settle. rewrite P.
    destruct (bool_decide_reflect (fs' ++ [c] = [[]])) as [K|K].
    + cbn [with_field with_v wl_v]. rewrite V, K. unfold drop_last. rewrite length_app. simpl.
      replace (List.length v0 + 1 - 1)%nat with (List.length v0) by lia.
      by rewrite take_app_length, app_nil_r.
    + rewrite V. f_equal. destruct (fs' ++ [c]) as [|[|] [|]]; try done.
Qed.

Lemma calm_app x y : calm_text (x ++ y) -> calm_text x /\ calm_text y.
Proof. unfold calm_text, has_pattern_char. rewrite existsb_app, orb_false_iff. tauto. Qed.

Lemma delimit_open k fs c w : calm_text c -> open_as fs c w ->
  closed_as (fs ++ c :: replicate (Nat.pred k) []) (delimit glob true k flags w).
Proof.
  intros C O. pose proof (finish_open _ _ _ C O) as F.
  change (c :: replicate (Nat.pred k) []) with ([c] ++ replicate (Nat.pred k) ([] : bytes)).
  rewrite app_assoc. destruct k as [|k]; simpl; [by rewrite app_nil_r|].
  apply close_empty_closed; [by destruct fs|done].
Qed.

Lemma delimit_closed k fs w : closed_as fs w ->
  closed_as (fs ++ replicate k []) (delimit glob false k flags w).
Proof.
  intros C. destruct k as [|k]; simpl.
  - rewrite (ca_has _ _ C), (ca_closed _ _ C), andb_negb_r, app_nil_r. done.
  - change ([] :: replicate k []) with ([[]] ++ replicate k ([] : bytes)). rewrite app_assoc.
    apply close_empty_closed; [by destruct fs|].
    apply finish_open; [unfold calm_text; simpl; tauto|]. by apply start_closed.
Qed.

Lemma cat_split_fields fuel b fs w : (List.length b < fuel)%nat -> calm_text b -> cstring b ->
  Forall calm_text fs -> Forall cstring fs -> closed_as fs w ->
  wl_v (fst (wordlist_close glob (cat_split glob fuel ifs b flags false w)))
  = v0 ++ keep_fields (fs ++ posix_split ifs b).
Proof.
  revert b fs w. induction fuel as [|fuel IH]; intros s fs w Hf Ca Cs Fca Fcs C; [lia|].
  cbn [cat_split]. pose proof (span_app (outside ifs) s) as Es. pose proof (span_fst (outside ifs) s) as Er.
  pose proof (span_snd (outside ifs) s) as Et. unfold outside in Es, Er, Et.
  destruct (span (fun c => negb (is_ifs ifs c)) s) as [run rest] eqn:Sp. simpl in Es, Er, Et. subst s.
  apply calm_app in Ca as [Ca1 Ca2]. apply Forall_app in Cs as [Cs1 Cs2].
  pose proof (span_app (is_ifs ifs) rest) as Es. pose proof (span_fst (is_ifs ifs) rest) as Ed.
  pose proof (span_snd (is_ifs ifs) rest) as Ee.
  destruct (span (is_ifs ifs) rest) as [delim rest'] eqn:Sp'. simpl in Es, Ed, Ee. subst rest.
  apply calm_app in Ca2 as [_ Ca2]. apply Forall_app in Cs2 as [_ Cs2].
  assert (delim ++ rest' = [] \/ delim <> []) as [E|Hd].
  { destruct delim; [|by right]. simpl in Et. destruct rest' as [|c r]; [by left|].
    simpl in Et, Ee. by rewrite Ee in Et. }
  - apply app_eq_nil in E as [-> ->]. cbn [app] in *. rewrite app_nil_r. destruct run as [|x run].
    + rewrite app_nil_r. by apply close_closed.
    + assert (posix_split ifs (x :: run) = [x :: run]) as ->.
      { rewrite <-(app_nil_r (x :: run)) at 1.
        exact (posix_field ifs (x :: run) [] [] ltac:(done) Er eq_refl I (fun _ => eq_refl)). }
      apply close_open; [done|].
      apply (append_open _ [] (x :: run)). by apply start_closed.
  - assert (List.length rest' < fuel)%nat as Hr.
    { rewrite !length_app in Hf. destruct delim; [done|]. simpl in Hf. lia. }
    assert (forall k, Forall calm_text (replicate k ([] : bytes))) as Rca.
    { intros k. apply Forall_replicate. unfold calm_text. simpl. tauto. }
    assert (forall k, Forall cstring (replicate k ([] : bytes))) as Rcs.
    { intros k. apply Forall_replicate. constructor. }
    destruct run as [|x run]; destruct (delim ++ rest') eqn:Dr; try (by destruct delim); rewrite <-Dr in *.
    + rewrite (IH rest' (fs ++ replicate (others ifs delim) []));
        rewrite ?Forall_app; auto; [|by apply delimit_closed].
      cbn [app]. by rewrite posix_run, app_assoc.
    + rewrite (IH rest' (fs ++ (x :: run) :: replicate (Nat.pred (others ifs delim)) []));
        rewrite ?Forall_app, ?Forall_cons; auto.
      * rewrite posix_field by (try done; by destruct delim). by rewrite <-app_assoc.
      * apply delimit_open; [done|].
        apply (append_open _ [] (x :: run)). by apply start_closed.
Qed.

End Splitting.

Lemma fresh_closed ifs w : wl_ar w = true -> wl_has w = false -> wl_closed w = false -> wl_pend w = false ->
  wl_ifs w = ifs -> forall flags, closed_as flags ifs (wl_noglob w) (wl_mark w) (wl_v w) [] w.
Proof. intros. split; auto; [by rewrite app_nil_r|done]. Qed.

(** An unquoted result that makes up a word is split the way POSIX 2.6.5
    says: the fields the word adds are those of the reference, save that a
    word which is a single empty field adds none.  The chunk may be subject to
    pathname expansion as long as it holds no pattern or -f is set. *)
Lemma field_splitting glob w s flags :
  wl_ar w = true -> wl_has w = false -> wl_closed w = false -> wl_pend w = false ->
  splits flags -> calm flags w s -> cstring s ->
  wl_v (fst (wordlist_close glob (wordlist_cat glob w s flags)))
  = wl_v w ++ keep_fields (posix_split (wl_ifs w) s).
Proof.
  intros A H Cl P F Ca Cs. pose proof (fresh_closed _ w A H Cl P eq_refl flags) as C.
  unfold wordlist_cat. destruct F as (FQ & FL & F). rewrite A, FL, H.
  change (Z.lor X_NOSPLIT X_QUOTED) with (Z.lor X_QUOTED X_NOSPLIT). rewrite FQ. cbn [andb].
  destruct s as [|c s].
  - by apply (close_closed glob flags (wl_ifs w) (wl_noglob w) (wl_mark w) (wl_v w) [] w).
  - apply (cat_split_fields glob flags (wl_ifs w) (wl_noglob w) (wl_mark w) (wl_v w)
             (conj FQ (conj FL F)) _ (c :: s) []); auto.
Qed.

(** ** Quoted text *)

(** Appending quoted results, one after the other *)
Definition cat_all (glob : bytes -> option (list bytes)) (flags : Z) (bs : list bytes) (w : wordlist) : wordlist :=
  fold_left (fun w s => wordlist_cat glob w s flags) bs w.

Lemma cat_quoted glob w s flags : has flags (Z.lor X_NOSPLIT X_QUOTED) = true ->
  has flags X_LITERAL = false -> has flags X_PATTERN = false -> wl_ar w = true ->
  wordlist_cat glob w s flags = append s (or_state flags (start w)).
Proof.
  intros Q L P A. unfold wordlist_cat. rewrite A, Q. unfold cat_whole. by rewrite L, P.
Qed.

Lemma start_open w : wl_has w = true -> wl_closed w = false -> start w = w.
Proof. intros H C. unfold start. by rewrite H, C. Qed.

Lemma cat_all_cons glob flags s bs w :
  cat_all glob flags (s :: bs) w = cat_all glob flags bs (wordlist_cat glob w s flags).
Proof. done. Qed.

Lemma cat_all_quoted glob flags bs w : has flags (Z.lor X_NOSPLIT X_QUOTED) = true ->
  has flags X_LITERAL = false -> has flags X_PATTERN = false -> wl_ar w = true ->
  wl_has w = true -> wl_closed w = false -> Z.lor (wl_state w) flags = wl_state w ->
  cat_all glob flags bs w = append (List.concat bs) w.
Proof.
  intros Q L P. revert w. induction bs as [|s bs IH]; intros w A H C S.
  - unfold append. simpl. rewrite app_nil_r. by destruct w.
  - rewrite cat_all_cons, cat_quoted, start_open, IH; try done.
    + unfold append. simpl. rewrite <-app_assoc. destruct w. simpl in *. unfold or_state, with_cur, with_state.
      simpl. unfold set. by rewrite S.
    + simpl. unfold set. by rewrite S.
Qed.

(** Quoted results are never split, matched against paths or dropped: a
    word made of them adds exactly one field, their concatenation, whatever
    characters they hold and even when they are empty. *)
Lemma quoted_one_field glob w bs flags :
  wl_ar w = true -> wl_has w = false -> bs <> [] ->
  has flags X_QUOTED = true ->
  has flags X_LITERAL = false -> has flags X_PATTERN = false ->
  has flags X_GLOB = false -> has flags X_GLOBRES = false ->
  wl_v (fst (wordlist_close glob (cat_all glob flags bs w))) = wl_v w ++ [List.concat bs].
Proof.
  intros A H Hn FQ L P G R. destruct bs as [|s bs]; [done|]. clear Hn.
  assert (has flags (Z.lor X_NOSPLIT X_QUOTED) = true) as Q by (by rewrite has_union, FQ, orb_true_r).
  rewrite cat_all_cons, cat_quoted by done.
  unfold start. rewrite H. cbn [negb].
  rewrite cat_all_quoted; try done; [|apply Z.lor_diag].
  unfold wordlist_close. cbn. rewrite A. cbn. unfold set. rewrite Z.lor_0_l, G, R, L. cbn [andb].
  unfold wordlist_settle, wordlist_push. cbn. unfold set. rewrite Z.lor_0_l, !has_union, FQ. cbn.
  by rewrite andb_false_r.
Qed.

(** ** The list stays well formed *)

(** A closed or a pending field is one the current word has put into [v]: what
    close takes back out and settle drops is there. *)
Record wf_list (w : wordlist) : Prop := WfList {
  wf_mark : (wl_mark w <= List.length (wl_v w))%nat;
  wf_closed : wl_closed w = true -> (wl_mark w < List.length (wl_v w))%nat;
  wf_pend : wl_pend w = true -> (wl_mark w < List.length (wl_v w))%nat
}.

(** What no operation inside a word changes *)
Record same_word (w w' : wordlist) : Prop := SameWord {
  sw_ar : wl_ar w' = wl_ar w;
  sw_ifs : wl_ifs w' = wl_ifs w;
  sw_noglob : wl_noglob w' = wl_noglob w;
  sw_mark : wl_mark w' = wl_mark w;
  sw_fields : take (wl_mark w) (wl_v w') = take (wl_mark w) (wl_v w);
  sw_wf : wf_list w'
}.

Lemma same_word_refl w : wf_list w -> same_word w w.
Proof. by split. Qed.

Lemma same_word_trans w1 w2 w3 : same_word w1 w2 -> same_word w2 w3 -> same_word w1 w3.
Proof. intros [] []. split; congruence || done. Qed.

Ltac wl_simpl :=
  cbn [with_cur with_v with_state with_field with_mark with_ifs append or_state close_field sibling
       wl_ar wl_cur wl_v wl_mark wl_state wl_ifs wl_has wl_closed wl_pend wl_noglob] in *.

Section Invariant.
Context (glob : bytes -> option (list bytes)).

(** Changes of the text, the bits and the open field *)
Lemma same_text w w' : wl_ar w' = wl_ar w -> wl_ifs w' = wl_ifs w -> wl_noglob w' = wl_noglob w ->
  wl_mark w' = wl_mark w -> wl_v w' = wl_v w ->
  (wl_closed w' = true -> wl_closed w = true) -> (wl_pend w' = true -> wl_pend w = true) ->
  wf_list w -> same_word w w'.
Proof. intros A I N M V C P []. split; auto; [by rewrite V|]. split; rewrite M, V; auto. Qed.

Lemma push_fields w : wl_v (wordlist_push w) = wl_v w ++ [wl_cur w].
Proof. done. Qed.

Lemma push_same w : wf_list w -> same_word w (wordlist_push w).
Proof.
  intros []. split; auto; rewrite ?push_fields.
  - by rewrite take_app_le.
  - split; rewrite push_fields, length_app; simpl; lia.
Qed.

Lemma push_close_same w : wf_list w -> same_word w (close_field (wordlist_push w)).
Proof.
  intros W. destruct (push_same w W) as [A I N M F []]. split; auto. split; auto.
  intros _. cbn. rewrite length_app. destruct W. simpl. lia.
Qed.

(** The end of a word or of a field: nothing is left pending. *)
Definition end_field (w : wordlist) : wordlist :=
  with_field false false (wl_pend (wordlist_settle w)) (wordlist_settle w).

Lemma end_field_same w : wf_list w -> same_word w (end_field w).
Proof.
  intros [Wm _ Wp]. unfold end_field, wordlist_settle. destruct (wl_pend w) eqn:P.
  - specialize (Wp eq_refl). split; auto; wl_simpl; unfold drop_last.
    + rewrite take_take. f_equal. lia.
    + split; wl_simpl; try done. rewrite length_take. lia.
  - split; auto. split; auto; wl_simpl; congruence.
Qed.

Lemma after w w1 w2 : same_word w w1 -> (wf_list w1 -> same_word w1 w2) -> same_word w w2.
Proof. intros S H. eapply same_word_trans; [exact S|]. apply H, S. Qed.

Lemma glob_fields_same flags paths w : wf_list w -> same_word w (glob_fields flags paths w).
Proof.
  revert w. induction paths as [|p [|q paths] IH]; intros w W; [by apply same_word_refl|by apply same_text|].
  change (same_word w (glob_fields flags (q :: paths)
    (or_state flags (if has flags X_NOSPLIT then
              match wl_ifs w with [] => append p w | c :: _ => append [c] (append p w) end
            else wordlist_push (append p w))))).
  apply (after _ (append p w)); [by apply same_text|]. intros W1.
  eapply after; [|apply IH].
  apply (after _ (if has flags X_NOSPLIT then
    match wl_ifs w with [] => append p w | c :: _ => append [c] (append p w) end
    else wordlist_push (append p w))); [|intros; by apply same_text].
  destruct (has flags X_NOSPLIT); [|by apply push_same].
  destruct (wl_ifs w); [by apply same_word_refl|by apply same_text].
Qed.

Lemma glob_same w flags : wf_list w -> same_word w (wordlist_glob glob w flags).
Proof.
  intros W. unfold wordlist_glob.
  repeat case_match; try (by apply same_word_refl); try (by apply same_text).
  apply (after _ (with_cur [] w)); [by apply same_text|]. intros. by apply glob_fields_same.
Qed.

Lemma start_same w : wf_list w -> same_word w (start w).
Proof.
  intros W. unfold start. repeat case_match; by (apply same_text || apply same_word_refl).
Qed.

Lemma finish_same w flags : wf_list w -> same_word w (finish glob w flags).
Proof.
  intros W. unfold finish. eapply after; [|apply push_close_same].
  repeat case_match; try (by apply glob_same); [by apply same_text|by apply same_word_refl].
Qed.

Lemma close_empty_same k flags w : wf_list w -> same_word w (close_empty glob k flags w).
Proof.
  revert w. induction k as [|k IH]; intros w W; [by apply same_word_refl|]. cbn [close_empty].
  eapply after; [|apply IH]. apply (after _ (sibling w)); [by apply same_text|apply finish_same].
Qed.

Lemma delimit_same have k flags w : wf_list w -> same_word w (delimit glob have k flags w).
Proof.
  intros W. destruct k as [|k]; simpl.
  - case_match; [by apply finish_same|by apply same_word_refl].
  - eapply after; [|apply close_empty_same]. eapply after; [|apply finish_same].
    destruct have; [by apply same_word_refl|by apply start_same].
Qed.

Lemma cat_split_same fuel ifs s flags have w : wf_list w ->
  same_word w (cat_split glob fuel ifs s flags have w).
Proof.
  revert s have w. induction fuel as [|fuel IH]; intros s have w W; [by apply same_word_refl|].
  cbn [cat_split]. destruct (span _ s) as [run rest].
  assert (same_word w (match run with [] => w
    | _ => append run (or_state flags (if have then w else start w)) end)) as S.
  { destruct run as [|c run]; [by apply same_word_refl|].
    apply (after _ (if have then w else start w)); [|intros; by apply same_text].
    destruct have; [by apply same_word_refl|by apply start_same]. }
  destruct run as [|c run]; (destruct rest as [|d rest]; [exact S|]);
    destruct (span (is_ifs ifs) (d :: rest)) as [delim rest'];
    (eapply after; [exact S|]; intros W1; eapply after; [by apply delimit_same|apply IH]).
Qed.

Lemma cat_whole_same w s flags : wf_list w -> same_word w (cat_whole w s flags).
Proof.
  intros W. unfold cat_whole. apply (after _ (start w)); [by apply start_same|]. intros W1.
  repeat case_match; by apply same_text.
Qed.

Lemma cat_text_same w s flags : wf_list w -> same_word w (cat_text w s flags).
Proof.
  intros W. unfold cat_text. apply (after _ (start w)); [by apply start_same|]. intros W1.
  case_match; by apply same_text.
Qed.

Lemma cat_same w s flags : wf_list w -> same_word w (wordlist_cat glob w s flags).
Proof.
  intros W. unfold wordlist_cat.
  repeat case_match; auto using cat_whole_same, cat_text_same, cat_split_same, same_word_refl.
Qed.

Lemma break_same w : wf_list w -> same_word w (wordlist_break w).
Proof.
  intros W. unfold wordlist_break. case_match; [by apply same_word_refl|].
  destruct (wl_closed w); [by apply end_field_same|].
  eapply after; [by apply push_same|apply end_field_same].
Qed.

(** Taking the last field of the word back *)
Lemma take_back_same w : wf_list w -> wl_closed w = true -> wl_pend w = false ->
  same_word w (with_field (wl_has w) false (wl_pend w)
    (with_cur (cstr (List.last (wl_v w) [])) (with_v (drop_last (wl_v w)) w))).
Proof.
  intros [Wm Wc _] C P. specialize (Wc C). split; auto; wl_simpl; unfold drop_last.
  - rewrite take_take. f_equal. lia.
  - split; wl_simpl; rewrite ?length_take; try congruence. lia.
Qed.

(** The word is over: its fields are all in [v], and so are those before. *)
Record word_ended (w w' : wordlist) (n : nat) : Prop := WordEnded {
  we_same : same_word w (with_mark (wl_mark w) w');
  we_mark : wl_mark w' = List.length (wl_v w');
  we_count : List.length (wl_v w') = (wl_mark w + n)%nat;
  we_has : wl_has w' = false;
  we_closed : wl_closed w' = false;
  we_pend : wl_pend w' = false
}.

Lemma close_ends w : wf_list w -> wl_ar w = true ->
  word_ended w (fst (wordlist_close glob w)) (snd (wordlist_close glob w)).
Proof.
  intros W A. unfold wordlist_close. rewrite A. cbn [negb].
  match goal with |- context [if ?c then ?t else w] => set (w1 := if c then t else w) end.
  assert (same_word w w1) as S1.
  { subst w1. case_match eqn:T; [|by apply same_word_refl].
    rewrite !andb_true_iff, negb_true_iff in T. apply take_back_same; tauto. }
  clearbody w1.
  match goal with |- context [wordlist_settle (if ?c then ?t else w1)] => set (w2 := if c then t else w1) end.
  assert (same_word w w2) as S2.
  { apply (after _ w1); [done|]. intros W1. subst w2. case_match; [|by apply same_word_refl].
    eapply after; [|apply push_same].
    repeat case_match; try (by apply glob_same); [by apply same_text|by apply same_word_refl]. }
  clearbody w2. assert (same_word w (end_field w2)) as S3 by (apply (after _ w2); [done|apply end_field_same]).
  assert (List.length (wl_v (wordlist_settle w2)) >= wl_mark w)%nat as L.
  { destruct S3 as [_ _ _ M _ [Wm _ _]]. rewrite M in Wm. exact Wm. }
  assert (wl_pend (wordlist_settle w2) = false) as Pd.
  { unfold wordlist_settle. by destruct (wl_pend w2) eqn:E. }
  cbn [fst snd]. split; try done.
  - change (with_mark _ _) with (with_mark (wl_mark w) (end_field w2)).
    destruct S3 as [A3 I3 N3 M3 F3 [Wm Wc Wp]]. split; auto. split; wl_simpl; rewrite <-?M3; auto.
  - wl_simpl. change (wl_mark w1) with (wl_mark w1). lia.
Qed.
End Invariant.

(** One operation of a caller *)
Inductive op :=
  | OpCat (s : bytes) (flags : Z)
  | OpBreak
  | OpClose.

Definition run_op (glob : bytes -> option (list bytes)) (w : wordlist) (o : op) : wordlist :=
  match o with
  | OpCat s flags => wordlist_cat glob w s flags
  | OpBreak => wordlist_break w
  | OpClose => fst (wordlist_close glob w)
  end.

Lemma run_op_wf glob w o : wf_list w -> wl_ar w = true ->
  wf_list (run_op glob w o) /\ wl_ar (run_op glob w o) = true /\
  (wl_mark w <= wl_mark (run_op glob w o))%nat /\
  take (wl_mark w) (wl_v (run_op glob w o)) = take (wl_mark w) (wl_v w).
Proof.
  intros W A. destruct o as [s flags| |]; cbn [run_op].
  - destruct (cat_same glob w s flags W). split_and!; done || congruence || lia.
  - destruct (break_same w W). split_and!; done || congruence || lia.
  - destruct (close_ends glob w W A) as [[A' _ _ _ F _] M C H Cl P]. simpl in A', F.
    split_and!; try done; [|congruence|lia]. split; rewrite ?Cl, ?P; try done. lia.
Qed.

(** Whatever a caller appends, breaks and closes, a list stays well
    formed: a field that is closed or pending is one the current word entered
    in [v], so that taking it back or dropping it never reaches below the
    word's first field, and the fields of the words before are left as they
    are. *)
Theorem wordlist_ops_wf glob ops w : wf_list w -> wl_ar w = true ->
  let w' := fold_left (run_op glob) ops w in
  wf_list w' /\ (wl_mark w <= wl_mark w')%nat /\
  take (wl_mark w) (wl_v w') = take (wl_mark w) (wl_v w).
Proof.
  revert w. induction ops as [|o ops IH]; intros w W A; [by split_and!|].
  cbn [fold_left]. destruct (run_op_wf glob w o W A) as (W1 & A1 & M1 & F1).
  destruct (IH _ W1 A1) as (W2 & M2 & F2). split_and!; [done|lia|].
  rewrite <-F1. apply (f_equal (take (wl_mark w))) in F2. rewrite !take_take, !Nat.min_l in F2 by lia.
  exact F2.
Qed.

Lemma wordlist_ops_wf_witness :
  let w := fold_left (run_op (fun _ => None)) [OpCat (b "a b") 0; OpClose; OpCat (b "c ") 0]
             (wordlist_init (b " ")) in
  wl_closed w = true /\ wl_mark w = 2%nat /\ wl_v w = [b "a"; b "b"; b "c"] /\ wf_list w.
Proof.
  do 3 (split; [reflexivity|]).
  exact (proj1 (wordlist_ops_wf (fun _ => None) [OpCat (b "a b") 0; OpClose; OpCat (b "c ") 0]
    (wordlist_init (b " ")) ltac:(split; simpl; [lia|discriminate|discriminate]) eq_refl)).
Defined.

(** ** Unescaping *)

(** The two routines that take the escapes away agree. *)
Lemma cat_unescaped_app sa s : cat_unescaped sa s = sa ++ expand_unescape parse_isesc s.
Proof.
  remember (List.length s) as n eqn:E. assert (List.length s <= n)%nat as L by lia. clear E.
  revert sa s L. induction n as [|n IH]; intros sa [|c [|d s]] L; try (simpl in L; lia).
  - by rewrite app_nil_r.
  - by rewrite app_nil_r.
  - simpl. by rewrite andb_false_r.
  - change (cat_unescaped sa (c :: d :: s))
      with (if (c =? ch "\") && parse_isesc d then cat_unescaped (sa ++ [d]) s
            else cat_unescaped (sa ++ [c]) (d :: s)).
    change (expand_unescape parse_isesc (c :: d :: s))
      with (if (c =? ch "\") && parse_isesc d then d :: expand_unescape parse_isesc s
            else c :: expand_unescape parse_isesc (d :: s)).
    simpl in L. case_match; rewrite IH by (simpl; lia); by rewrite <-app_assoc.
Qed.

(** How the parser stores text: a backslash before each character of the class *)
Definition escaped (s : bytes) : bytes := flat_map (fun c => if parse_isesc c then [ch "\"; c] else [c]) s.

(** Unescaping gives back the text that was escaped, and no more. *)
Theorem unescape_escaped s : expand_unescape parse_isesc (escaped s) = s.
Proof.
  induction s as [|c s IH]; [done|]. cbn [escaped flat_map]. fold (escaped s).
  destruct (parse_isesc c) eqn:C; cbn [app expand_unescape chd cnth nth].
  - rewrite Z.eqb_refl, C. cbn [andb]. by rewrite IH.
  - destruct (Z.eqb_spec c (ch "\")) as [-> |_]; [discriminate C|]. cbn [andb]. by rewrite IH.
Qed.
