(* ===== verification/Braces.v ===== *)
(** * Brace expansion (src/expand/expand_brace.c)

    A word that is one unquoted literal chunk and holds a group
    "{x,y,...}" becomes one word per alternative; the groups of a word are
    combined.  Positions in the text become the texts before, inside and
    behind a group. *)

From S2P Require Import Prelude Tree.

(** ** Groups *)

(** The position of the "}" that closes [depth] open braces *)
Fixpoint close_from (s : bytes) (depth j : nat) : option nat :=
  match s with
  | [] => None
  | c :: s =>
      if c =? ch "{" then close_from s (S depth) (S j)
      else if c =? ch "}" then
        match depth with
        | 1%nat => Some j
        | _ => close_from s (Nat.pred depth) (S j)
        end
      else close_from s depth (S j)
  end.

(** A comma outside of inner braces *)
Fixpoint has_comma (s : bytes) (depth : nat) : bool :=
  match s with
  | [] => false
  | c :: s =>
      if c =? ch "{" then has_comma s (S depth)
      else if c =? ch "}" then has_comma s (Nat.pred depth)
      else if (c =? ch ",") && (depth =? 0)%nat then true
      else has_comma s depth
  end.

Record group := Group { g_open : nat; g_close : nat }.

(** [i] is the position of [s] in the text. *)
Fixpoint find_group (fuel : nat) (s : bytes) (i : nat) : option group :=
  match fuel with
  | O => None
  | S fuel =>
      match s with
      | [] => None
      | c :: s' =>
          if c =? ch "{" then
            match close_from s' 1 0 with
            | None => None
            | Some j =>
                if has_comma (take j s') 0 then Some (Group i (i + 1 + j))
                else find_group fuel (drop (S j) s') (i + 1 + S j)
            end
          else find_group fuel s' (S i)
      end
  end.

Definition find_valid_group (text : bytes) : option group :=
  find_group (S (List.length text)) text 0.

(** The texts between the commas that separate *)
Fixpoint alternatives (s : bytes) (depth : nat) (alt : bytes) : list bytes :=
  match s with
  | [] => [alt]
  | c :: s =>
      if (c =? ch ",") && (depth =? 0)%nat then alt :: alternatives s depth []
      else
        let depth' :=
          if c =? ch "{" then S depth else if c =? ch "}" then Nat.pred depth else depth in
        alternatives s depth' (alt ++ [c])
  end.

(** What is behind a group is expanded once; [fuel] covers its length. *)
Fixpoint expand_text (fuel : nat) (text : bytes) : list bytes :=
  match fuel with
  | O => [text]
  | S fuel =>
      match find_valid_group text with
      | None => [text]
      | Some (Group gopen gclose) =>
          let tails := expand_text fuel (drop (S gclose) text) in
          let inner := take (gclose - S gopen) (drop (S gopen) text) in
          flat_map (fun alt => List.map (fun t => take gopen text ++ alt ++ cstr t) tails)
            (alternatives inner 0 [])
      end
  end.

Definition expand_brace_text (text : bytes) : list bytes := expand_text (S (List.length text)) text.

(** ** Words *)

Definition expand_brace_chunk (arg : node) : option (Z * bytes) :=
  match arg with
  | narg N_ARG _ [nargstr flag s] =>
      if (Z.land flag S_TABLE =? S_UNQUOTED) && contains (ch "{") s then Some (flag, s) else None
  | _ => None
  end.

Definition expand_brace_needed (braceexpand : bool) (arg : node) : bool :=
  braceexpand && match expand_brace_chunk arg with Some _ => true | None => false end.

(** [None]: the word is left as it is. *)
Definition expand_brace_word (arg : node) : option (list node) :=
  match expand_brace_chunk arg with
  | None => None
  | Some (flag, s) =>
      let result := expand_brace_text s in
      if (List.length result <=? 1)%nat then None
      else Some (List.map (fun t => narg N_ARG 0 [nargstr (Z.lor S_UNQUOTED (Z.land flag S_GLOB)) (cstr t)]) result)
  end.

Definition expand_brace_args (braceexpand : bool) (args : list node) : list node :=
  if braceexpand
  then flat_map (fun arg => match expand_brace_word arg with Some alts => alts | None => [arg] end) args
  else args.

(** ** What a word stands for *)

(** A text cut into what is copied and what is chosen from *)
Inductive piece :=
  | Lit (s : bytes)
  | Choice (alts : list bytes).

Fixpoint commas (l : list bytes) : bytes :=
  match l with
  | [] => []
  | [x] => x
  | x :: l => x ++ ch "," :: commas l
  end.

Definition written (p : piece) : bytes :=
  match p with
  | Lit s => s
  | Choice alts => ch "{" :: commas alts ++ [ch "}"]
  end.

(** The choices, the first group varying slowest *)
Fixpoint meaning (ps : list piece) : list bytes :=
  match ps with
  | [] => [[]]
  | p :: ps =>
      flat_map (fun x => List.map (app x) (meaning ps))
        (match p with Lit s => [s] | Choice alts => alts end)
  end.

Definition no_brace (s : bytes) : bool := forallb (fun c => negb (c =? ch "{") && negb (c =? ch "}")) s.

(** A group of two or more texts without braces and commas *)
Definition piece_ok (p : piece) : Prop :=
  match p with
  | Lit s => forallb (fun c => negb (c =? ch "{")) s = true /\ cstring s
  | Choice alts =>
      (2 <= List.length alts)%nat /\
      Forall (fun s => no_brace s = true /\ forallb (fun c => negb (c =? ch ",")) s = true /\ cstring s) alts
  end.

(** ** Lemmas *)

Lemma find_group_lit s t fuel i : forallb (fun c => negb (c =? ch "{")) s = true ->
  (List.length s <= fuel)%nat ->
  find_group fuel (s ++ t) i = find_group (fuel - List.length s) t (i + List.length s).
Proof.
  revert fuel i. induction s as [|c s IH]; intros fuel i H L.
  - by rewrite Nat.sub_0_r, Nat.add_0_r.
  - simpl in H, L. apply andb_true_iff in H as [C H]. apply negb_true_iff in C.
    destruct fuel as [|fuel]; [lia|]. cbn [app find_group]. rewrite C, IH by (done || lia).
    simpl. f_equal. lia.
Qed.

Lemma close_from_plain s t j : no_brace s = true ->
  close_from (s ++ ch "}" :: t) 1 j = Some (j + List.length s)%nat.
Proof.
  revert j. induction s as [|c s IH]; intros j H.
  - simpl. by rewrite Nat.add_0_r.
  - simpl in H. rewrite !andb_true_iff, !negb_true_iff in H. destruct H as [[C1 C2] H].
    cbn [app close_from]. rewrite C1, C2, IH by done. simpl. f_equal. lia.
Qed.

Lemma no_brace_commas l : Forall (fun s => no_brace s = true) l -> no_brace (commas l) = true.
Proof.
  induction l as [|x [|y l] IH]; intros H; [done|by inversion_clear H|].
  inversion_clear H. change (commas (x :: y :: l)) with (x ++ ch "," :: commas (y :: l)).
  unfold no_brace in *. rewrite forallb_app. simpl forallb at 2. rewrite H0. by apply IH.
Qed.

Lemma has_comma_plain s t : no_brace s = true -> has_comma (s ++ ch "," :: t) 0 = true.
Proof.
  induction s as [|c s IH]; [done|]. simpl. rewrite !andb_true_iff, !negb_true_iff.
  intros [[C1 C2] H]. rewrite C1, C2, andb_true_r. destruct (c =? ch ","); [done|]. by apply IH.
Qed.

Lemma alternatives_plain s t acc : no_brace s = true -> forallb (fun c => negb (c =? ch ",")) s = true ->
  alternatives (s ++ t) 0 acc = alternatives t 0 (acc ++ s).
Proof.
  revert acc. induction s as [|c s IH]; intros acc H N; [by rewrite app_nil_r|].
  simpl in H, N. rewrite !andb_true_iff, !negb_true_iff in *. destruct H as [[C1 C2] H], N as [N1 N].
  cbn [app alternatives]. rewrite N1, C1, C2. cbn [andb]. rewrite IH by done. by rewrite <-app_assoc.
Qed.

Lemma alternatives_commas l : l <> [] ->
  Forall (fun s => no_brace s = true /\ forallb (fun c => negb (c =? ch ",")) s = true) l ->
  alternatives (commas l) 0 [] = l.
Proof.
  induction l as [|x [|y l] IH]; intros Hn H; [done| |]; inversion_clear H as [|? ? [B C] H'].
  - cbn [commas]. rewrite <-(app_nil_r x) at 1. by rewrite alternatives_plain.
  - change (commas (x :: y :: l)) with (x ++ ch "," :: commas (y :: l)).
    rewrite alternatives_plain by done. cbn [app alternatives]. cbn [Z.eqb andb Nat.eqb]. f_equal.
    by apply IH.
Qed.

Lemma find_choice pre alts rest : forallb (fun c => negb (c =? ch "{")) pre = true ->
  piece_ok (Choice alts) ->
  find_valid_group (pre ++ written (Choice alts) ++ rest)
  = Some (Group (List.length pre) (List.length pre + 1 + List.length (commas alts))).
Proof.
  intros Hp [L H]. unfold find_valid_group.
  rewrite find_group_lit; [|done|rewrite length_app; lia]. cbn [written].
  assert (exists n, (S (List.length (pre ++ (ch "{" :: commas alts ++ [ch "}"]) ++ rest)) - List.length pre)%nat
                    = S n) as [n ->] by (exists (List.length ((ch "{" :: commas alts ++ [ch "}"]) ++ rest)); rewrite length_app; lia).
  assert (no_brace (commas alts) = true) as Nb.
  { apply no_brace_commas. eapply Forall_impl; [exact H|]. simpl. tauto. }
  change ((ch "{" :: commas alts ++ [ch "}"]) ++ rest) with (ch "{" :: (commas alts ++ [ch "}"]) ++ rest).
  rewrite <-app_assoc. cbn [find_group]. rewrite Z.eqb_refl. cbn [app]. rewrite close_from_plain by done.
  rewrite Nat.add_0_l, take_app_length.
  destruct alts as [|x [|y alts]]; simpl in L; [lia|lia|].
  inversion_clear H as [|? ? (B & _ & _) _].
  change (commas (x :: y :: alts)) with (x ++ ch "," :: commas (y :: alts)) at 1.
  by rewrite has_comma_plain.
Qed.

Lemma find_none s : forallb (fun c => negb (c =? ch "{")) s = true -> find_valid_group s = None.
Proof.
  intros H. unfold find_valid_group. rewrite <-(app_nil_r s) at 2.
  rewrite find_group_lit by (done || lia). by destruct (_ - _)%nat.
Qed.

Lemma meaning_cstring ps : Forall piece_ok ps -> Forall cstring (meaning ps).
Proof.
  induction 1 as [|p ps Hp _ IH]; [repeat constructor|]. cbn [meaning].
  apply Forall_flat_map. assert (Forall cstring (match p with Lit s => [s] | Choice alts => alts end)) as Hc.
  { destruct p; simpl in Hp; [constructor; [apply Hp|constructor]|].
    eapply Forall_impl; [apply Hp|]. simpl. tauto. }
  eapply Forall_impl; [exact Hc|]. intros x Hx. apply Forall_map. eapply Forall_impl; [exact IH|].
  intros y Hy. unfold cstring. apply Forall_app. by split.
Qed.

Lemma take_app_eq {A} (l k : list A) n : n = List.length l -> take n (l ++ k) = l.
Proof. intros ->. apply take_app_length. Qed.

Lemma drop_app_eq {A} (l k : list A) n : n = List.length l -> drop n (l ++ k) = k.
Proof. intros ->. apply drop_app_length. Qed.

Lemma map_app_pre (pre : bytes) f (l : list bytes) : (forall t, f t = pre ++ t) -> List.map f l = List.map (app pre) l.
Proof. intros H. apply List.map_ext. done. Qed.

Lemma expand_text_pieces fuel pre ps : forallb (fun c => negb (c =? ch "{")) pre = true ->
  Forall piece_ok ps -> (List.length (flat_map written ps) < fuel)%nat ->
  expand_text fuel (pre ++ flat_map written ps) = List.map (app pre) (meaning ps).
Proof.
  revert fuel pre. induction ps as [|p ps IH]; intros fuel pre Hp H L.
  - simpl. rewrite app_nil_r. destruct fuel as [|fuel]; [simpl in L; lia|]. cbn [expand_text].
    by rewrite find_none.
  - inversion_clear H as [|? ? Hok H']. destruct p as [s|alts]; cbn [flat_map] in *.
    + cbn [written meaning flat_map] in *. rewrite app_nil_r, app_assoc, IH; try done.
      * rewrite List.map_map. apply List.map_ext. intros t. by rewrite app_assoc.
      * rewrite forallb_app, Hp. apply Hok.
      * rewrite length_app in L. lia.
    + destruct fuel as [|fuel]; [simpl in L; lia|]. cbn [expand_text].
      rewrite find_choice by done. set (rest := flat_map written ps) in *.
      assert (drop (S (List.length pre + 1 + List.length (commas alts))) (pre ++ written (Choice alts) ++ rest) = rest) as ->.
      { rewrite app_assoc. apply drop_app_eq. cbn [written]. rewrite !length_app. simpl. rewrite length_app. simpl. lia. }
      assert (take (List.length pre + 1 + List.length (commas alts) - S (List.length pre))
                (drop (S (List.length pre)) (pre ++ written (Choice alts) ++ rest)) = commas alts) as ->.
      { cbn [written]. change (pre ++ (ch "{" :: commas alts ++ [ch "}"]) ++ rest)
          with (pre ++ [ch "{"] ++ (commas alts ++ [ch "}"]) ++ rest).
        rewrite app_assoc, drop_app_eq by (rewrite length_app; simpl; lia).
        rewrite <-app_assoc. apply take_app_eq. lia. }
      rewrite take_app_length. destruct Hok as [La Ha].
      rewrite alternatives_commas; [|intros ->; simpl in La; lia|eapply Forall_impl; [exact Ha|simpl; tauto]].
      assert (expand_text fuel rest = meaning ps) as ->.
      { pose proof (IH fuel [] eq_refl H') as E. change (expand_text fuel ([] ++ _)) with (expand_text fuel rest) in E.
        rewrite E; [by rewrite List.map_id|].
        cbn [written] in L. rewrite !length_app in L. simpl in L. rewrite length_app in L. simpl in L. lia. }
      pose proof (meaning_cstring ps H') as Hc. cbn [meaning].
      clear - Hc. induction alts as [|a alts IH]; [done|]. cbn [flat_map]. rewrite List.map_app, <-IH.
      f_equal. rewrite List.map_map. apply List.map_ext_in. intros t Ht.
      rewrite Forall_forall in Hc. rewrite cstr_id; [done|]. apply Hc. by apply list_elem_of_In.
Qed.

(** C36: brace expansion yields the combinations of the alternatives: a text
    cut into literals without "{" and groups of two or more texts without
    braces and commas becomes the texts obtained by choosing one alternative
    of each group, in order, the last group varying fastest. *)
Theorem brace_expansion_product ps : Forall piece_ok ps ->
  expand_brace_text (flat_map written ps) = meaning ps.
Proof.
  intros H. unfold expand_brace_text.
  pose proof (expand_text_pieces (S (List.length (flat_map written ps))) [] ps eq_refl H) as E.
  cbn [app] in E. rewrite E by lia. by rewrite List.map_id.
Qed.

Lemma brace_expansion_product_witness :
  expand_brace_text (b "a{p,q}b{1,,3}c") = [b "apb1c"; b "apbc"; b "apb3c"; b "aqb1c"; b "aqbc"; b "aqb3c"].
Proof.
  refine (brace_expansion_product
    [Lit (b "a"); Choice [b "p"; b "q"]; Lit (b "b"); Choice [b "1"; []; b "3"]; Lit (b "c")] _).
  repeat constructor; vm_compute; auto.
Defined.

(** ** Behaviour worth knowing *)

(** A group inside an alternative is not expanded, nor one inside braces
    without a comma. *)
Example nested_group_kept :
  expand_brace_text (b "a{p,q{1,2}r}b") = [b "apb"; b "aq{1,2}rb"] /\
  expand_brace_text (b "{{a,b}}") = [b "{{a,b}}"].
Proof. vm_compute. auto. Qed.

(** An unmatched brace keeps all that follows. *)
Example unmatched_brace_stops : expand_brace_text (b "{a{b,c}") = [b "{a{b,c}"].
Proof. vm_compute. reflexivity. Qed.
