(* ===== verification/Tilde.v ===== *)
(** * Tilde expansion (src/expand/expand_tilde.c)

    [home] is the variable HOME, [pwuid] and [pwnam] the directories of the
    passwd database: of the current user and of a name.  A word is the list of
    its parts; the rewriting in place of a private copy gives the new list. *)

From S2P Require Import Prelude Tree.

Section Tilde.
Context (home pwuid : option bytes) (pwnam : bytes -> option bytes).

(** The characters of the name behind the tilde *)
Fixpoint name_length (s : bytes) (stop_at_colon : bool) : nat :=
  match s with
  | [] => 0
  | c :: s =>
      if (c =? ch "/") || (stop_at_colon && (c =? ch ":")) then 0 else S (name_length s stop_at_colon)
  end.

(** The directory, and the length of the prefix it stands for *)
Definition expand_tilde_lookup (text : bytes) (stop_at_colon : bool) : option (bytes * nat) :=
  match text with
  | [] => None
  | c :: s =>
      if negb (c =? ch "~") then None
      else
        let namelen := name_length s stop_at_colon in
        let dir :=
          match namelen with
          | O => match home with Some h => Some h | None => pwuid end
          | _ => pwnam (cstr (take namelen s))
          end in
        match dir with Some d => Some (d, S namelen) | None => None end
  end.

Definition unquoted (flag : Z) : bool := Z.land flag S_TABLE =? S_UNQUOTED.

Definition expand_tilde_splice (flag : Z) (s dir : bytes) (prefixlen : nat) : list node :=
  [nargstr S_DQUOTED dir; nargstr flag (drop prefixlen s)].

Definition expand_tilde_needed (arg : node) : bool :=
  match arg with
  | narg N_ARG _ (nargstr flag s :: _) => unquoted flag && (chd s =? ch "~")
  | _ => false
  end.

Definition expand_tilde_assign_needed (var : node) : bool :=
  match var with
  | narg N_ARG _ (nargstr flag s :: l) =>
      unquoted flag
      && existsb (fun n => match n with nargstr f t => unquoted f && contains (ch "~") t | _ => false end)
           (nargstr flag s :: l)
  | _ => false
  end.

Definition expand_tilde_word (arg : node) : node :=
  match arg with
  | narg N_ARG fl (nargstr flag s :: next) =>
      if unquoted flag then
        match expand_tilde_lookup s false with
        | Some (dir, prefixlen) =>
            if (prefixlen =? List.length s)%nat && negb (List.length next =? 0)%nat then arg
            else narg N_ARG fl (expand_tilde_splice flag s dir prefixlen ++ next)
        | None => arg
        end
      else arg
  | _ => arg
  end.

(** The scan of one chunk from a position on: the text from there, rewritten,
    and whether a prefix may start behind it.  [next]: another chunk follows. *)
Fixpoint scan_chunk (fuel : nat) (next : bool) (s : bytes) (at_boundary : bool) : bytes * bool :=
  match fuel, s with
  | O, _ | _, [] => (s, at_boundary)
  | S fuel, _ =>
      let '(dir, rest) :=
        if at_boundary then
          match expand_tilde_lookup s true with
          | Some (dir, prefixlen) =>
              if (prefixlen =? List.length s)%nat && next then ([], s) else (dir, drop prefixlen s)
          | None => ([], s)
          end
        else ([], s) in
      match rest with
      | [] => (dir, false)
      | c :: rest =>
          let '(t, at_boundary) := scan_chunk fuel next rest (c =? ch ":") in
          (dir ++ c :: t, at_boundary)
      end
  end.

Fixpoint assign_chunks (l : list node) (at_boundary : bool) : list node :=
  match l with
  | [] => []
  | nargstr flag s :: l' =>
      if unquoted flag then
        let '(t, at_boundary) := scan_chunk (List.length s) (negb (List.length l' =? 0)%nat) s at_boundary in
        nargstr flag t :: assign_chunks l' at_boundary
      else nargstr flag s :: assign_chunks l' false
  | n :: l' => n :: assign_chunks l' false
  end.

Fixpoint before_value (s : bytes) : option (bytes * bytes) :=
  match s with
  | [] => None
  | c :: s =>
      if c =? ch "=" then Some ([c], s)
      else match before_value s with Some (x, y) => Some (c :: x, y) | None => None end
  end.

Definition expand_tilde_assign (var : node) : node :=
  match var with
  | narg N_ARG fl (nargstr flag s :: next) =>
      if unquoted flag then
        match before_value s with
        | None => var
        | Some (name, value) =>
            let '(t, at_boundary) :=
              scan_chunk (List.length value) (negb (List.length next =? 0)%nat) value true in
            narg N_ARG fl (nargstr flag (name ++ t) :: assign_chunks next at_boundary)
        end
      else var
  | _ => var
  end.

(** ** What an assignment stands for *)

Fixpoint colons (l : list bytes) : bytes :=
  match l with
  | [] => []
  | [x] => x
  | x :: l => x ++ ch ":" :: colons l
  end.

(** One directory of a list: its tilde-prefix replaced *)
Definition expand_directory (s : bytes) : bytes :=
  match expand_tilde_lookup s true with
  | Some (dir, n) => dir ++ drop n s
  | None => s
  end.

Definition no_colon (s : bytes) : bool := forallb (fun c => negb (c =? ch ":")) s.

Lemma name_length_le s stop : (name_length s stop <= List.length s)%nat.
Proof. induction s as [|c s IH]; simpl; [lia|]. case_match; lia. Qed.

Lemma name_length_colon s t : no_colon s = true ->
  name_length (s ++ ch ":" :: t) true = name_length s true.
Proof.
  induction s as [|c s IH]; [done|]. simpl. rewrite andb_true_iff. intros [C H].
  case_match; [done|]. by rewrite IH.
Qed.

Lemma lookup_length s stop dir n : expand_tilde_lookup s stop = Some (dir, n) ->
  (1 <= n <= List.length s)%nat.
Proof.
  destruct s as [|c s]; [done|]. unfold expand_tilde_lookup. case_match; [done|].
  pose proof (name_length_le s stop). simpl. repeat case_match; intros; simplify_eq; lia.
Qed.

Lemma lookup_colon s t : no_colon s = true ->
  expand_tilde_lookup (s ++ ch ":" :: t) true =
    match s with [] => None | _ => expand_tilde_lookup s true end.
Proof.
  destruct s as [|c s]; [done|]. intros H. simpl in H. apply andb_true_iff in H as [_ H].
  unfold expand_tilde_lookup. cbn [app]. rewrite name_length_colon by done.
  pose proof (name_length_le s true). rewrite take_app_le by done. done.
Qed.

Lemma scan_boundary fuel next s :
  let '(dir, rest) :=
    match expand_tilde_lookup s true with
    | Some (dir, n) => if (n =? List.length s)%nat && next then ([], s) else (dir, drop n s)
    | None => ([], s)
    end in
  s <> [] -> fst (scan_chunk (S fuel) next s true) = dir ++ fst (scan_chunk (S fuel) next rest false).
Proof.
  destruct (match expand_tilde_lookup s true with Some _ => _ | None => _ end) as [dir rest] eqn:E.
  intros Hs. destruct s as [|c s]; [done|]. cbn [scan_chunk]. rewrite E.
  destruct rest as [|d rest]; [by rewrite app_nil_r|]. by destruct (scan_chunk fuel next rest (d =? ch ":")).
Qed.

Lemma scan_copy fuel next s t : no_colon s = true -> (List.length s + List.length t < fuel)%nat ->
  exists fuel', (List.length t <= fuel')%nat /\
    fst (scan_chunk fuel next (s ++ ch ":" :: t) false) = s ++ ch ":" :: fst (scan_chunk fuel' next t true).
Proof.
  revert fuel. induction s as [|c s IH]; intros fuel H L.
  - destruct fuel as [|fuel]; [lia|]. exists fuel. split; [simpl in L; lia|]. cbn [app scan_chunk].
    by destruct (scan_chunk fuel next t (ch ":" =? ch ":")) eqn:E; rewrite Z.eqb_refl in E; rewrite E.
  - simpl in H, L. apply andb_true_iff in H as [C H]. apply negb_true_iff in C.
    destruct fuel as [|fuel]; [lia|]. destruct (IH fuel H) as (f' & L' & E); [lia|].
    exists f'. split; [done|]. cbn [app scan_chunk]. rewrite C.
    destruct (scan_chunk fuel next (s ++ ch ":" :: t) false). simpl in *. by rewrite E.
Qed.

Lemma scan_copy_end fuel next s : no_colon s = true -> fst (scan_chunk fuel next s false) = s.
Proof.
  revert fuel. induction s as [|c s IH]; intros [|fuel] H; try done.
  simpl in H. apply andb_true_iff in H as [C H]. apply negb_true_iff in C. cbn [scan_chunk]. rewrite C.
  specialize (IH fuel H). destruct (scan_chunk fuel next s false). simpl in *. by rewrite IH.
Qed.

Lemma no_colon_drop n s : no_colon s = true -> no_colon (drop n s) = true.
Proof.
  revert n. induction s as [|c s IH]; intros [|n] H; try done. simpl in *.
  apply andb_true_iff in H as [_ H]. by apply IH.
Qed.

Lemma scan_directories fuel l : Forall (fun s => no_colon s = true) l ->
  (List.length (colons l) <= fuel)%nat ->
  fst (scan_chunk fuel false (colons l) true) = colons (List.map expand_directory l).
Proof.
  revert fuel. induction l as [|x [|y l] IH]; intros fuel H L.
  - by destruct fuel.
  - inversion_clear H. cbn [colons List.map] in *. destruct (decide (x = [])) as [-> |Hx].
    { by destruct fuel. }
    destruct fuel as [|fuel]; [destruct x; [done|simpl in L; lia]|]. pose proof (scan_boundary fuel false x) as E.
    unfold expand_directory. destruct (expand_tilde_lookup x true) as [[dir n]|] eqn:Lo.
    + rewrite andb_false_r in E. rewrite E by done. by rewrite scan_copy_end by by apply no_colon_drop.
    + rewrite E by done. by rewrite scan_copy_end.
  - inversion_clear H as [|? ? Hx H']. change (colons (x :: y :: l)) with (x ++ ch ":" :: colons (y :: l)) in *.
    change (colons (List.map expand_directory (x :: y :: l)))
      with (expand_directory x ++ ch ":" :: colons (List.map expand_directory (y :: l))).
    set (t := colons (y :: l)) in *. rewrite length_app in L.
    change (List.length (ch ":" :: t)) with (S (List.length t)) in L.
    destruct fuel as [|fuel]; [lia|].
    pose proof (scan_boundary fuel false (x ++ ch ":" :: t)) as E. rewrite lookup_colon in E by done.
    assert (x ++ ch ":" :: t <> []) as Hn by (by destruct x).
    assert (match (match x with [] => None | _ => expand_tilde_lookup x true end) with
            | Some (dir, n) => expand_directory x = dir ++ drop n x /\ (n <= List.length x)%nat
            | None => expand_directory x = x end) as D.
    { unfold expand_directory. destruct x as [|c x]; [done|].
      destruct (expand_tilde_lookup (c :: x) true) as [[dir n]|] eqn:Lo; [|done].
      apply lookup_length in Lo. split; [done|lia]. }
    destruct (match x with [] => None | _ => expand_tilde_lookup x true end) as [[dir n]|].
    + rewrite andb_false_r in E. rewrite E by done. destruct D as [-> Ln].
      rewrite drop_app_le by done.
      destruct (scan_copy (S fuel) false (drop n x) t) as (f' & L' & ->);
        [by apply no_colon_drop|rewrite length_drop; lia|].
      rewrite IH by (done || lia). by rewrite <-app_assoc.
    + rewrite E by done. rewrite D. destruct (scan_copy (S fuel) false x t) as (f' & L' & ->); [done|lia|].
      rewrite IH by (done || lia). done.
Qed.

Lemma before_value_eq name value : contains (ch "=") name = false ->
  before_value (name ++ ch "=" :: value) = Some (name ++ [ch "="], value).
Proof.
  induction name as [|c s IH]; [done|]. unfold contains. cbn [existsb app before_value].
  rewrite orb_false_iff, (Z.eqb_sym (ch "=") c). intros [-> H]. by rewrite IH.
Qed.

(** In an assignment of plain text the tilde-prefix of every directory of
    a list separated by colons is replaced, and nothing else. *)
Theorem tilde_assign_directories fl flag name l : unquoted flag = true ->
  contains (ch "=") name = false -> Forall (fun s => no_colon s = true) l ->
  expand_tilde_assign (narg N_ARG fl [nargstr flag (name ++ ch "=" :: colons l)])
  = narg N_ARG fl [nargstr flag (name ++ ch "=" :: colons (List.map expand_directory l))].
Proof.
  intros Q N H. unfold expand_tilde_assign. rewrite Q, before_value_eq by done.
  pose proof (scan_directories (List.length (colons l)) l H (le_n _)) as E. cbn [List.length Nat.eqb negb].
  destruct (scan_chunk _ false (colons l) true) as [t bd]. simpl in E. subst t.
  by rewrite <-app_assoc.
Qed.

End Tilde.

Lemma tilde_assign_directories_witness :
  expand_tilde_assign (Some (b "/home/me")) None (fun u => if decide (u = b "al") then Some (b "/home/al") else None)
    (narg N_ARG 0 [nargstr 0 (b "PATH=~/bin:/bin:~al:~x:~")])
  = narg N_ARG 0 [nargstr 0 (b "PATH=/home/me/bin:/bin:/home/al:~x:/home/me")].
Proof.
  refine (tilde_assign_directories (Some (b "/home/me")) None
    (fun u => if decide (u = b "al") then Some (b "/home/al") else None) 0 0 (b "PATH")
    [b "~/bin"; b "/bin"; b "~al"; b "~x"; b "~"] eq_refl eq_refl _).
  repeat constructor.
Defined.
