(* ===== verification/Expand.v ===== *)
(** * Word expansion (src/expand/expand_arg.c, expand_args.c, expand_param.c,
    expand_command.c, expand_arith.c, expand_vars.c and their front ends)

    The parts of a word (literal, parameter, command, arithmetic) are expanded
    into a list of fields.  The expansion of a word may need that of another,
    the operand of "${x-word}": [expand_arg] recurses on it with less fuel.
    What words are expanded against -- variables, positional parameters,
    options, the file system, the output of a command -- is the class
    [ExpandEnv]. *)

From S2P Require Import Prelude CStr Chars Scan Tree ArithEval Fnmatch Wordlist Braces Tilde.

Import Scan Fmt.

(** ** Options *)

Record shopt := Shopt {
  o_allexport : bool; o_notify : bool; o_errexit : bool; o_noglob : bool; o_hashall : bool;
  o_monitor : bool; o_noexec : bool; o_privileged : bool; o_unset : bool; o_verbose : bool;
  o_xtrace : bool; o_braceexpand : bool; o_noclobber : bool; o_histexpand : bool
}.

Definition sh_fmtflags (o : shopt) : bytes :=
  let letter (x : bool) (c : ascii) := if x then [ch c] else [] in
  letter (o_allexport o) "a"%char ++ letter (o_notify o) "b"%char ++ letter (o_errexit o) "e"%char ++
  letter (o_noglob o) "f"%char ++ letter (o_hashall o) "h"%char ++ letter (o_monitor o) "m"%char ++
  letter (o_noexec o) "n"%char ++ letter (o_privileged o) "p"%char ++ letter (o_unset o) "u"%char ++
  letter (o_verbose o) "v"%char ++ letter (o_xtrace o) "x"%char ++ letter (o_braceexpand o) "B"%char ++
  letter (o_noclobber o) "C"%char ++ letter (o_histexpand o) "H"%char.

(** ** What words are expanded against *)

Class ExpandEnv (E : Type) := {
  (* var_get; var_setv and var_setvint with V_DEFAULT, None for a readonly variable *)
  e_get : bytes -> E -> option bytes;
  e_set : bytes -> bytes -> E -> option E;
  e_setint : bytes -> Z -> E -> option E;
  e_random : E -> option (Z * E);        (* var_random_next, None when it is not active *)
  e_line : E -> Z;                       (* param->loc.line *)
  e_rows : E -> Z;                       (* term_size *)
  e_cols : E -> Z;
  e_args : E -> list bytes;              (* sh->arg *)
  e_argv0 : E -> bytes;
  e_exitcode : E -> Z;
  e_bgpid : E -> Z;
  e_pid : E -> Z;
  e_opts : E -> shopt;
  e_interactive : E -> bool;
  e_message : bytes -> E -> E;           (* written to fd_err *)
  e_output : list node -> E -> bytes * E;  (* what a command list writes, run in a subshell *)
  e_glob : E -> bytes -> option (list bytes);
  e_pwuid : E -> option bytes;
  e_pwnam : E -> bytes -> option bytes;
  e_pow : Z -> Z -> option Z
}.

(** ** Results: the value, expand_error and the environment; the end of the
    shell through sh_exit; undefined behaviour *)

Section Monad.
Context {E : Type}.

Inductive xres (A : Type) :=
  | XOk (a : A) (error : bool) (e : E)
  | XExit (e : E)
  | XUndef
  | XFuel.

Definition X (A : Type) : Type := bool -> E -> xres A.

End Monad.

Arguments xres E A : clear implicits.
Arguments X E A : clear implicits.
Arguments XOk {E A}.
Arguments XExit {E A}.
Arguments XUndef {E A}.
Arguments XFuel {E A}.

Definition retX {E A} (a : A) : X E A := fun err e => XOk a err e.
Definition bindX {E A B} (m : X E A) (k : A -> X E B) : X E B := fun err e =>
  match m err e with
  | XOk a err e => k a err e
  | XExit e => XExit e
  | XUndef => XUndef
  | XFuel => XFuel
  end.
Definition askX {E A} (f : E -> A) : X E A := fun err e => XOk (f e) err e.
Definition exitX {E A} : X E A := fun _ e => XExit e.
Definition undefX {E A} : X E A := fun _ _ => XUndef.
Definition failX {E} : X E unit := fun _ e => XOk tt true e.   (* expand_error = 1 *)
Definition modX {E} (f : E -> E) : X E unit := fun err e => XOk tt err (f e).

Declare Scope expand_scope.
Delimit Scope expand_scope with expand.
Notation "x <- m ;; k" := (bindX m (fun x => k))
  (at level 100, m at next level, k at level 200, right associativity) : expand_scope.
Notation "m ;; k" := (bindX m (fun _ => k))
  (at level 100, k at level 200, right associativity) : expand_scope.
Local Open Scope expand_scope.

(** ** Helpers *)

Definition IFS_DEFAULT : bytes := [ch " "; 9; 10].
Definition INT32_MAX : Z := 2 ^ 31 - 1.
Definition INT32_MIN : Z := - 2 ^ 31.

Record range := Range { r_offset : Z; r_length : Z }.

Definition limit (r : range) (from to : Z) : range :=
  let off := if r_offset r <? 0 then r_offset r + to else r_offset r in
  let off := if off <? from then from else if off >? to then to else off in
  let e := if r_length r <? 0 then to + r_length r else off + r_length r in
  let e := if e <? off then off else if e >? to then to else e in
  Range (i32 off) (i32 (e - off)).

Definition blank_or (c d : Z) : bool := (d =? ch " ") || (d =? 9) || (d =? c).
Definition skip_while (p : Z -> bool) (s : bytes) : bytes := snd (span p s).

(** The text of "${v:offset:length}"; whether it is well formed *)
Definition scan_range (sa : bytes) (r : range) : bool * range :=
  let t := skip_while (blank_or (ch "(")) (cstr sa) in
  let '(p, offset) := scan_int t (r_offset r) in
  let '(ok, r) :=
    if (0 <? p)%nat then
      match skip_while (blank_or (ch ")")) (drop p t) with
      | [] => (true, Range offset INT32_MAX)
      | c :: t =>
          if c =? ch ":" then
            let t := skip_while (blank_or (ch "(")) t in
            let '(q, length) := scan_int t INT32_MAX in
            let ok := (0 <? q)%nat || (List.length t =? 0)%nat in
            (ok, Range offset (if ok then length else INT32_MAX))
          else (false, Range offset INT32_MAX)
      end
    else (false, r) in
  if ok then (true, r) else (false, Range INT32_MIN (r_length r)).

Definition fnmatches (pattern s : bytes) : bool :=
  match path_fnmatch pattern s 0 with Some r => r =? 0 | None => false end.

(** The first of n, n - 1, ..., 0 and of i, i + 1, ..., i + n that passes *)
Fixpoint down_from (test : nat -> bool) (n : nat) : option nat :=
  if test n then Some n else match n with O => None | S n => down_from test n end.

Fixpoint up_to (test : nat -> bool) (i n : nat) : option nat :=
  if test i then Some i else match n with O => None | S n => up_to test (S i) n end.

(** "${v%w}", "${v%%w}", "${v#w}", "${v##w}" on the value and the pattern *)
Definition remove_short_suffix (v p : bytes) : bytes :=
  take (default (List.length v) (down_from (fun i => fnmatches p (drop i v)) (List.length v))) v.
Definition remove_long_suffix (v p : bytes) : bytes :=
  take (default (List.length v) (up_to (fun i => fnmatches p (drop i v)) 0 (List.length v))) v.
Definition remove_short_prefix (v p : bytes) : bytes :=
  drop (default 0%nat (up_to (fun i => fnmatches p (take i v)) 0 (List.length v))) v.

(** i > 0: the empty prefix is not tried. *)
Fixpoint long_prefix (v p : bytes) (i : nat) : nat :=
  match i with
  | O => 0
  | S j => if fnmatches p (take i v) then i else long_prefix v p j
  end.
Definition remove_long_prefix (v p : bytes) : bytes := drop (long_prefix v p (List.length v)) v.

Fixpoint trim_newlines (s : bytes) : bytes :=
  match s with
  | [] => []
  | c :: s =>
      match trim_newlines s with
      | [] => if c =? 10 then [] else [c]
      | t => c :: t
      end
  end.

(** The parts of a word: of an N_ARG, or the node itself *)
Definition parts_of (o : option node) : list node :=
  match o with
  | Some (narg N_ARG _ l) => l
  | Some n => [n]
  | None => []
  end.

Definition node_flag (n : node) : Z :=
  match n with
  | nargstr f _ | nargparam f _ _ _ | nargcmd f _ | nargarith f _ | narg _ f _ | nredir f _ _ _ => f
  | _ => 0
  end.

(** str_chr(s, c) < len: also when a NUL comes first *)
Definition found (s : bytes) (c : Z) : bool := (str_chr s c <? List.length s)%nat.

Fixpoint expand_globres_ok (parts : list node) : bool :=
  match parts with
  | [] => true
  | sub :: rest =>
      if negb (Z.land (node_flag sub) S_TABLE =? 0) then
        match sub with
        | nargstr _ s =>
            if (0 <? List.length s)%nat && (found s (ch "*") || found s (ch "?") || found s (ch "["))
            then false else expand_globres_ok rest
        | _ => false
        end
      else
        match sub with
        | nargparam _ _ (Some _) _ => false
        | _ => expand_globres_ok rest
        end
  end.

(** ** The engine *)

Section Expand.
Context {E : Type} `{ExpandEnv E}.

Definition ifs_of (e : E) : bytes := default IFS_DEFAULT (e_get (b "IFS") e).

(** An operation on the list; globbing sees the file system as it is. *)
Definition catX (w : wordlist) (s : bytes) (flags : Z) : X E wordlist :=
  askX (fun e => wordlist_cat (e_glob e) w s flags).

Definition tilde_word (n : node) : X E node := askX (fun e =>
  expand_tilde_word (e_get (b "HOME") e) (e_pwuid e) (e_pwnam e) n).

Section Step.

(** expand_arg on the parts of a word *)
Context (self : list node -> Z -> wordlist -> X E wordlist).

Definition expand_copysa (parts : list node) (flags : Z) : X E bytes :=
  w <- self parts (set flags X_NOSPLIT) (wordlist_init_str []) ;;
  retX (wl_cur w).

(** The operand of an operator, its tilde-prefix expanded *)
Definition expand_param_tilde (word : option node) : X E (list node) :=
  match word with
  | Some n => if expand_tilde_needed n then n <- tilde_word n ;; retX (parts_of (Some n))
              else retX (parts_of word)
  | None => retX []
  end.

Definition expand_range (word : option node) (r : range) : X E (bool * range) :=
  sa <- expand_copysa (parts_of word) 0 ;; retX (scan_range sa r).

Definition exit_or_fail (w : wordlist) : X E wordlist :=
  i <- askX e_interactive ;;
  if (i : bool) then failX ;; retX w else exitX.

Definition is_name_start (c : Z) : bool :=
  ((ch "a" <=? c) && (c <=? ch "z")) || ((ch "A" <=? c) && (c <=? ch "Z")) || (c =? ch "_").

(** ${name=word}, the parameter being unset *)
Definition assign_default (name : bytes) (word : option node) (flags : Z) (w : wordlist) : X E wordlist :=
  let before := if wl_has w && negb (wl_closed w) then List.length (wl_cur w) else 0%nat in
  parts <- expand_param_tilde word ;;
  w1 <- self parts (set flags X_NOSPLIT) w ;;
  let isname := is_name_start (chd name) in
  if isname && (List.length (wl_cur w1) <? before)%nat then undefX   (* cur->len - before wraps *)
  else
    let value := drop before (wl_cur w1) in
    (if isname then retX tt else modX (e_message (name ++ b ": cannot assign in this way"))) ;;
    set <- askX (fun e => if isname then e_set name value e else None) ;;
    match set with
    | None => exit_or_fail w1
    | Some e' =>
        modX (fun _ => e') ;;
        ifs <- askX ifs_of ;;
        let w1 := if wl_ar w1 then with_ifs ifs w1 else w1 in
        if negb (has flags (Z.lor X_NOSPLIT X_QUOTED)) then
          a <- askX (e_get name) ;;
          match a with
          | Some (c :: a) =>
              catX (with_cur (take before (wl_cur w1))
                     (with_state (wl_state w) (with_field (wl_has w) (wl_closed w) (wl_pend w) w1)))
                (c :: a) flags
          | _ => retX w1
          end
        else retX w1
    end.

(** ${name?word}, the parameter being unset *)
Definition error_if_null (name : bytes) (word : option node) (flags : Z) (w : wordlist) : X E wordlist :=
  msg <- match word with
         | Some _ => parts <- expand_param_tilde word ;; expand_copysa parts flags
         | None => retX (b "parameter null or not set")
         end ;;
  modX (e_message (cstr (match name with [] => msg | _ => name ++ b ": " ++ msg end))) ;;
  exit_or_fail w.

(** The trimming operators *)
Definition trim (remove : bytes -> bytes -> bytes) (word : option node) (v : option bytes) (flags : Z)
    (w : wordlist) : X E wordlist :=
  match v with
  | Some (c :: v) =>
      parts <- expand_param_tilde word ;;
      sa <- expand_copysa parts X_PATTERN ;;
      catX w (remove (c :: v) sa) flags
  | _ => retX w
  end.

(** The switch at the end of expand_param; [v] is NULL or the value. *)
Definition param_op (flag : Z) (name : bytes) (word : option node) (v : option bytes) (range_done : bool)
    (flags : Z) (w : wordlist) : X E wordlist :=
  let op := Z.land flag S_VAR in
  if op =? S_DEFAULT then
    match v with
    | Some v => catX w v flags
    | None =>
        match word with
        | Some _ => parts <- expand_param_tilde word ;; self parts (set flags X_SUBWORD) w
        | None => retX w
        end
    end
  else if op =? S_ASGNDEF then
    match v with Some v => catX w v flags | None => assign_default name word flags w end
  else if op =? S_ERRNULL then
    match v with Some v => catX w v flags | None => error_if_null name word flags w end
  else if op =? S_ALTERNAT then
    match v with
    | Some _ => parts <- expand_param_tilde word ;; self parts (set flags X_SUBWORD) w
    | None => retX w
    end
  else if op =? S_RSSFX then trim remove_short_suffix word v flags w
  else if op =? S_RLSFX then trim remove_long_suffix word v flags w
  else if op =? S_RSPFX then trim remove_short_prefix word v flags w
  else if op =? S_RLPFX then trim remove_long_prefix word v flags w
  else if op =? S_RANGE then
    match v with
    | Some v =>
        if range_done then catX w v flags
        else if (List.length v =? 0)%nat then retX w
        else
          okr <- expand_range word (Range 0 (Z.of_nat (List.length v))) ;;
          let '(ok, r) := okr in
          if (ok : bool) then
            let r := limit r 0 (Z.of_nat (List.length v)) in
            catX w (take (Z.to_nat (r_length r)) (drop (Z.to_nat (r_offset r)) v)) flags
          else modX (e_message (b "expecting offset")) ;; retX w
    | None => retX w
    end
  else retX w.

(** "$@": a field per parameter; [k] of them from the [i]th on *)
Fixpoint args_loop (k i : nat) (flag : Z) (word : option node) (flags : Z) (w : wordlist) : X E wordlist :=
  match k with
  | O => retX w
  | S k =>
      args <- askX e_args ;;
      w <- param_op flag [] word (Some (nth i args [])) false flags w ;;
      args <- askX e_args ;;
      args_loop k (S i) flag word flags
        (if (S i <? List.length args)%nat then wordlist_break w else w)
  end.

Definition argc (args : list bytes) : Z := Z.of_nat (List.length args).

(** The parameters "$*" and "$@" stand for: all, or those of the range *)
Definition select_args (r : range) (n : Z) : range :=
  limit (Range (if r_offset r >? 0 then r_offset r - 1 else r_offset r) (r_length r)) 0 n.

Fixpoint join (sep : bytes) (l : list bytes) : bytes :=
  match l with
  | [] => []
  | [x] => x
  | x :: l => x ++ sep ++ join sep l
  end.

(** The value of a special parameter, whether it is set, and whether its
    range has been taken *)
Definition special_value (special flag : Z) (word : option node) (numb : Z) : X E (bytes * bool * bool) :=
  args <- askX e_args ;;
  if special =? S_ARGC then retX (fmt_ulong0 (argc args) 0, true, false)
  else if special =? S_ARGV then
    ifs <- askX ifs_of ;;
    rd <- (if Z.land flag S_VAR =? S_RANGE then
             okr <- expand_range word (Range 0 (argc args)) ;;
             if fst okr then retX (select_args (snd okr) (argc args), true)
             else undefX                     (* the offset is INT32_MIN: sh->arg.v[i] *)
           else retX (Range 0 (argc args), false)) ;;
    retX (join (take 1 ifs)
            (take (Z.to_nat (r_length (fst rd))) (drop (Z.to_nat (r_offset (fst rd))) args)),
          true, snd rd)
  else if special =? S_EXITCODE then n <- askX e_exitcode ;; retX (fmt_ulong0 (u64 n) 0, true, false)
  else if special =? S_FLAGS then o <- askX e_opts ;; retX (sh_fmtflags o, true, false)
  else if special =? S_BGEXCODE then
    n <- askX e_bgpid ;;
    retX (if n =? 0 then ([], false, false) else (fmt_ulong0 (u64 n) 0, true, false))
  else if special =? S_ARG then
    if numb =? 0 then s <- askX e_argv0 ;; retX (s, true, false)
    else
      retX (match args !! Z.to_nat (u32 (numb - 1)) with
            | Some s => (s, true, false)
            | None => ([], false, false)
            end)
  else if special =? S_PID then n <- askX e_pid ;; retX (fmt_ulong0 (u64 n) 0, true, false)
  else retX ([], true, false).

Definition message (text : bytes) : X E unit := modX (e_message text).

(** The value of a parameter that is not special *)
Definition variable_value (flag : Z) (name : bytes) (word : option node)
    : X E (option (option bytes)) :=      (* None: unbound under "set -u" *)
  random <- (if decide (name = b "RANDOM") then askX e_random else retX None) ;;
  match random with
  | Some (n, e) => modX (fun _ => e) ;; retX (Some (Some (fmt_ulong n)))
  | None =>
      rows <- askX e_rows ;;
      cols <- askX e_cols ;;
      if bool_decide (name = b "LINENO") then
        n <- askX e_line ;; retX (Some (Some (fmt_ulong n)))
      else if bool_decide (name = b "LINES") && negb (rows =? 0) then retX (Some (Some (fmt_ulong rows)))
      else if bool_decide (name = b "COLUMNS") && negb (cols =? 0) then retX (Some (Some (fmt_ulong cols)))
      else
        v <- askX (e_get name) ;;
        match v with
        | Some v =>
            retX (Some (if (List.length v =? 0)%nat && negb (Z.land flag S_NULL =? 0) then None else Some v))
        | None =>
            o <- askX e_opts ;;
            let op := Z.land flag S_VAR in
            if o_unset o
               && (((op =? S_DEFAULT) && match word with None => true | _ => false end)
                   || (op =? S_RSSFX) || (op =? S_RLSFX) || (op =? S_RSPFX) || (op =? S_RLPFX))
            then retX None else retX (Some None)
        end
  end.

(** The length, or the operator *)
Definition param_result (flag : Z) (name : bytes) (word : option node) (v : option bytes) (range_done : bool)
    (flags : Z) (w : wordlist) : X E wordlist :=
  if negb (Z.land flag S_STRLEN =? 0)
  then catX w (fmt_ulong (Z.of_nat (List.length (default [] v)))) flags
  else param_op flag name word v range_done flags w.

Definition expand_param (flag : Z) (name : bytes) (word : option node) (numb flags : Z) (w : wordlist)
    : X E wordlist :=
  let special := Z.land flag S_SPECIAL in
  if special =? 0 then
    v <- variable_value flag name word ;;
    match v with
    | Some v => param_result flag name word v false flags w
    | None => message (name ++ b ": unbound variable") ;; exit_or_fail w
    end
  else
    ifs <- askX ifs_of ;;
    args <- askX e_args ;;
    let special :=
      if (special =? S_ARGV) && (Z.land flag S_TABLE =? S_UNQUOTED) && negb (has flags X_NOSPLIT)
         && (chd ifs =? 0)
      then S_ARGVS else special in
    let list := (special =? S_ARGV) || (special =? S_ARGVS) in
    if list && negb (Z.land flag S_STRLEN =? 0) then catX w (fmt_ulong (argc args)) flags
    else if list && (argc args =? 0)
            && (match word with Some _ => true | _ => false end || negb (Z.land flag S_VAR =? S_DEFAULT))
    then param_result flag name word None false flags w
    else if special =? S_ARGVS then
      let range_op := Z.land flag S_VAR =? S_RANGE in
      let arg_flag := Z.lor S_ARG (if range_op then 0 else Z.land flag S_VAR) in
      if range_op then
        okr <- expand_range word (Range 0 (argc args)) ;;
        if fst okr then
          let r := select_args (snd okr) (argc args) in
          args_loop (Z.to_nat (r_length r)) (Z.to_nat (r_offset r)) arg_flag word flags w
        else message (b "expecting offset") ;; retX w
      else args_loop (List.length args) 0 arg_flag word flags w
    else
      sv <- special_value special flag word numb ;;
      let '(value, is_set, range_done) := sv in
      let v := if is_set && negb ((List.length value =? 0)%nat && negb (Z.land flag S_NULL =? 0))
               then Some value else None in
      param_result flag name word v range_done flags w.

Definition expand_command (l : list node) (flags : Z) (w : wordlist) : X E wordlist := fun err e =>
  let '(out, e) := e_output l e in catX w (trim_newlines out) flags err e.

(** ** Arithmetic: its variables and substitutions are those of the engine *)

Inductive stopped := Running | Undefined | Exhausted.

Definition arith_param (n : node) (s : bool * E * stopped) : option bytes * (bool * E * stopped) :=
  let '(err, e, st) := s in
  match n with
  | nargparam flag name word numb =>
      match expand_param flag name word numb 0 (wordlist_init_str []) err e with
      | XOk w err e => (Some (wl_cur w), (err, e, st))
      | XExit e => (None, (err, e, st))
      | XUndef => (None, (err, e, Undefined))
      | XFuel => (None, (err, e, Exhausted))
      end
  | _ => (None, (err, e, Undefined))
  end.

Definition arith_env : ArithEnv (bool * E * stopped) := {|
  var_lookup := fun name s => e_get name (s.1.2);
  var_setv := fun name v s =>
    match e_set name v s.1.2 with Some e' => Some (s.1.1, e', s.2) | None => None end;
  var_setvint := fun name i s =>
    match e_setint name i s.1.2 with Some e' => Some (s.1.1, e', s.2) | None => None end;
  ArithEval.expand_param := arith_param;
  expand_tosa := fun n s =>
    match n with
    | nargcmd _ l => let '(out, e) := e_output l s.1.2 in (trim_newlines out, (s.1.1, e, s.2))
    | _ => ([], s)
    end;
  c_pow := e_pow
|}.

Definition expand_arith (tree : option node) (flags : Z) (w : wordlist) : X E wordlist := fun err e =>
  match (match tree with
         | Some t => @expand_arith_expr _ arith_env t (err, e, Running)
         | None => AErr (err, e, Running)
         end) with
  | AOk r (err, e, _) => catX w (fmt_longlong r) flags err e
  | AErr (err, e, _) => (message (b "arithmetic syntax error") ;; exit_or_fail w) err e
  | AExit (_, e, Running) => XExit e
  | AExit (_, _, Exhausted) => XFuel
  | AExit (_, _, Undefined) | AUndef => XUndef
  end.

(** ** Words *)

Definition part_flags (globres : bool) (n : node) (flags : Z) : Z :=
  let f := node_flag n in
  let l := if negb (Z.land f S_NOSPLIT =? 0) then set flags X_NOSPLIT else flags in
  let l := if negb (Z.land f S_TABLE =? 0) then set l X_QUOTED else l in
  let l := if negb (Z.land f S_GLOB =? 0) then set l X_GLOB else l in
  match n with
  | nargparam _ _ _ _ | nargcmd _ _ | nargarith _ _ =>
      if globres && negb (has l X_QUOTED) then set l X_GLOBRES else l
  | _ => l
  end.

Definition expand_part (globres : bool) (n : node) (flags : Z) (w : wordlist) : X E wordlist :=
  let lflags := part_flags globres n flags in
  match n with
  | nargarith _ tree => expand_arith tree lflags w
  | nargparam flag name word numb => expand_param flag name word numb lflags w
  | nargcmd _ l => expand_command l lflags w
  | nargstr flag s =>
      catX w s (if (0 <? List.length s)%nat && (Z.land flag S_HEREDOC =? 0) then set lflags X_LITERAL else lflags)
  | _ => retX w
  end.

(** A failed expansion ends the word. *)
Fixpoint expand_parts (globres : bool) (parts : list node) (flags : Z) (w : wordlist) : X E wordlist :=
  match parts with
  | [] => retX w
  | n :: rest => fun err e =>
      match expand_part globres n flags w err e with
      | XOk w err e => if err then XOk w err e else expand_parts globres rest flags w err e
      | r => r
      end
  end.

End Step.

Fixpoint expand_arg (fuel : nat) (parts : list node) (flags : Z) (w : wordlist) : X E wordlist :=
  match fuel with
  | O => fun _ _ => XFuel
  | S fuel => fun prev e =>
      match expand_parts (expand_arg fuel) (expand_globres_ok parts) parts flags w false e with
      | XOk w err e => XOk w (err || prev) e
      | r => r
      end
  end.

(** ** Front ends *)

Definition closeX (w : wordlist) : X E (wordlist * nat) := askX (fun e => wordlist_close (e_glob e) w).

Definition expand_catsa (fuel : nat) (n : option node) (sa : bytes) (flags : Z) : X E bytes :=
  w <- expand_arg fuel (parts_of n) (set flags X_NOSPLIT) (wordlist_init_str sa) ;;
  wn <- closeX w ;;
  retX (wl_cur (fst wn)).

Definition expand_tosa (fuel : nat) (n : option node) : X E bytes := expand_catsa fuel n [] 0.

(** Nothing but "$@" in quotes and empty literals, without parameters *)
Fixpoint empty_at (parts : list node) (at_ : bool) : bool :=
  match parts with
  | [] => at_
  | nargstr f [] :: rest =>
      if (Z.land f S_QUOTEDEMPTY =? 0) && negb (Z.land f S_TABLE =? S_SQUOTED) then empty_at rest at_ else false
  | nargparam f _ None _ :: rest =>
      if (Z.land f (Z.lor S_SPECIAL S_VAR) =? S_ARGVS) && (Z.land f S_TABLE =? S_DQUOTED)
         && (Z.land f S_STRLEN =? 0)
      then empty_at rest true else false
  | _ => false
  end.

Definition expand_is_empty_at (args : list bytes) (word : node) : bool :=
  match word with
  | narg N_ARG _ l => (List.length args =? 0)%nat && empty_at l false
  | _ => false
  end.

Definition arg_list (arg : node) : list node := match arg with narg _ _ l => l | _ => [] end.

Fixpoint expand_words (fuel : nat) (copied : bool) (words : list node) (flags : Z) (w : wordlist) (n : nat)
    : X E (wordlist * nat) :=
  match words with
  | [] => retX (w, n)
  | arg :: rest =>
      args <- askX e_args ;;
      if expand_is_empty_at args arg then expand_words fuel copied rest flags w n
      else
        arg <- (if copied then tilde_word arg else retX arg) ;;
        w <- expand_arg fuel (arg_list arg) flags w ;;
        wk <- closeX w ;;
        expand_words fuel copied rest flags (fst wk) (n + snd wk)
  end.

(** The list, and the number of fields added *)
Definition expand_args (fuel : nat) (args : list node) (w : wordlist) (flags : Z) : X E (wordlist * nat) :=
  o <- askX e_opts ;;
  let copied := existsb (fun a => expand_brace_needed (o_braceexpand o) a || expand_tilde_needed a) args in
  let owned := if copied then expand_brace_args (o_braceexpand o) args else args in
  expand_words fuel copied owned flags (with_noglob (o_noglob o) w) 0.

Fixpoint expand_assigns (fuel : nat) (copied : bool) (vars : list node) (w : wordlist) (n : nat)
    : X E (wordlist * nat) :=
  match vars with
  | [] => retX (w, n)
  | var :: rest =>
      var <- (if copied then askX (fun e =>
                expand_tilde_assign (e_get (b "HOME") e) (e_pwuid e) (e_pwnam e) var) else retX var) ;;
      w <- expand_arg fuel (parts_of (Some var)) X_NOSPLIT w ;;
      wk <- closeX (with_state (clear (wl_state w) (Z.lor X_GLOB X_GLOBRES)) w) ;;
      expand_assigns fuel copied rest (fst wk) (S n)
  end.

Definition expand_vars (fuel : nat) (vars : list node) (w : wordlist) : X E (wordlist * nat) :=
  expand_assigns fuel (existsb expand_tilde_assign_needed vars) vars w 0.

(** Plain text: [None] is the failing assert(m->id == N_ARGSTR). *)
Fixpoint text_parts (glob : bytes -> option (list bytes)) (parts : list node) (flags : Z) (w : wordlist)
    : option wordlist :=
  match parts with
  | [] => Some w
  | nargstr f s :: rest =>
      let l := if negb (Z.land f S_TABLE =? 0) then set flags X_QUOTED else flags in
      let l := if negb (Z.land f S_GLOB =? 0) then set l X_GLOB else l in
      let l := if (0 <? List.length s)%nat && (Z.land f S_HEREDOC =? 0) then set l X_LITERAL else l in
      text_parts glob rest flags (wordlist_cat glob w s (set l X_NOSPLIT))
  | _ => None
  end.

Definition expand_str (glob : bytes -> option (list bytes)) (n : option node) (flags : Z) : option bytes :=
  match text_parts glob (parts_of n) flags (wordlist_init_str []) with
  | Some w => Some (wl_cur (fst (wordlist_close glob w)))
  | None => None
  end.

End Expand.
