(* ===== verification/ExpandStore.v ===== *)
(** * An environment to expand words against

    The simplest instance of [ExpandEnv]: variables, positional parameters,
    options and a list of file names; commands write nothing.  The witnesses
    and examples of the expansion files run in it, with words read by the
    parser. *)

From stdpp Require Import gmap.
From S2P Require Import Prelude Scan Tree ArithEval Fnmatch Wordlist Expand Grammar.

Record store := Store {
  st_vars : gmap bytes (bytes * bool);    (* value, readonly *)
  st_args : list bytes;
  st_opts : shopt;
  st_interactive : bool;
  st_messages : list bytes;
  st_files : list bytes
}.

Definition store_set (name value : bytes) (s : store) : option store :=
  match st_vars s !! name with
  | Some (_, true) => None
  | _ => Some (Store (<[name := (value, false)]> (st_vars s)) (st_args s) (st_opts s)
                 (st_interactive s) (st_messages s) (st_files s))
  end.

Definition store_message (text : bytes) (s : store) : store :=
  Store (st_vars s) (st_args s) (st_opts s) (st_interactive s) (st_messages s ++ [text]) (st_files s).

Definition store_glob (s : store) (pattern : bytes) : option (list bytes) :=
  match List.filter (fnmatches pattern) (st_files s) with [] => None | l => Some l end.

#[export] Instance store_env : ExpandEnv store := {
  e_get := fun name s => fst <$> st_vars s !! name;
  e_set := store_set;
  e_setint := fun name i => store_set name (Fmt.fmt_long i);
  e_random := fun _ => None;
  e_line := fun _ => 1;
  e_rows := fun _ => 0;
  e_cols := fun _ => 0;
  e_args := st_args;
  e_argv0 := fun _ => b "sh";
  e_exitcode := fun _ => 0;
  e_bgpid := fun _ => 0;
  e_pid := fun _ => 42;
  e_opts := st_opts;
  e_interactive := st_interactive;
  e_message := store_message;
  e_output := fun _ s => ([], s);
  e_glob := store_glob;
  e_pwuid := fun _ => None;
  e_pwnam := fun _ _ => None;
  e_pow := exact_pow
}.

Definition default_opts : shopt :=
  Shopt false false false false false false false false false false false true false false.

Definition plain_store (vars : list (bytes * bytes)) (args : list bytes) : store :=
  Store (list_to_map (List.map (fun x => (x.1, (x.2, false))) vars)) args default_opts false [] [].

(** The arguments of the command a text is read as *)
Definition words_of (text : bytes) : list node :=
  match fst (parse_script false text) with
  | [[ncmd _ _ _ args]] => args
  | _ => []
  end.

(** The fields of these words, with the IFS of the store *)
Definition fields_of (fuel : nat) (text : bytes) (s : store) : option (list bytes * store) :=
  match expand_args fuel (words_of text) (wordlist_init (ifs_of s)) 0 false s with
  | XOk (w, _) _ s => Some (wl_v w, s)
  | _ => None
  end.
