(* ===== verification/ExpandProps.v ===== *)
(** * What word expansion does (src/expand)

    The recursion of the engine is bounded by the nesting of the words; the
    trimming operators remove the shortest or longest match; "$@" and quoted
    or unquoted parameters become the fields POSIX asks for.  The examples at
    the end run the engine over a concrete environment. *)

From stdpp Require Import gmap.
From S2P Require Import Prelude Chars Scan Tree ArithEval Fnmatch Wordlist WordlistProps Braces Tilde Expand ExpandStore.

Import Scan Fmt.
Local Open Scope expand_scope.

(** ** Nesting *)

Section Depth.

Fixpoint max_depth (l : list nat) : nat :=
  match l with [] => 0 | n :: l => Nat.max n (max_depth l) end.

(** How deep the operands of parameters are nested: what a command
    substitution holds is not expanded here. *)
Fixpoint depth (n : node) : nat :=
  let opt o := match o with Some x => depth x | None => 0%nat end in
  match n with
  | nargparam _ _ w _ => S (opt w)
  | nargarith _ t => opt t
  | narg _ _ l => max_depth (List.map depth l)
  | narithparen l => max_depth (List.map depth l)
  | narithternary c t f => Nat.max (depth c) (Nat.max (depth t) (depth f))
  | narithbinary _ l r => Nat.max (depth l) (opt r)
  | narithunary _ a => opt a
  | _ => 0
  end.

Definition parts_depth (l : list node) : nat := max_depth (List.map depth l).

Lemma parts_depth_cons n l : parts_depth (n :: l) = Nat.max (depth n) (parts_depth l).
Proof. done. Qed.

Lemma parts_of_depth n : (parts_depth (parts_of (Some n)) <= depth n)%nat.
Proof.
  destruct n; simpl; unfold parts_depth; simpl; try lia. destruct id; simpl; lia.
Qed.

Lemma tilde_word_depth h p q n : (depth (expand_tilde_word h p q n) <= depth n)%nat.
Proof.
  destruct n as [| | | | | | | | | | | |id fl l| | | | | | | | | |]; try (simpl; lia).
  destruct id; simpl; try lia. destruct l as [|[] l]; try (simpl; lia).
  repeat case_match; simpl; lia.
Qed.
End Depth.

(** ** Computations that two engines do alike *)

Section Agree.
Context {E : Type} `{ExpandEnv E}.

(** The same result, and not for want of fuel *)
Definition agree {A} (m m' : X E A) : Prop := forall err e, m err e = m' err e /\ m err e <> XFuel.

Lemma agree_bind {A B} (m m' : X E A) (k k' : A -> X E B) :
  agree m m' -> (forall a, agree (k a) (k' a)) -> agree (bindX m k) (bindX m' k').
Proof.
  intros Hm Hk err e. unfold bindX. destruct (Hm err e) as [<- N].
  destruct (m err e); try done. apply Hk.
Qed.

Lemma agree_ret {A} (a : A) : agree (@retX E A a) (retX a).
Proof. done. Qed.
Lemma agree_ask {A} (f : E -> A) : agree (askX f) (askX f).
Proof. done. Qed.
Lemma agree_exit {A} : agree (@exitX E A) exitX.
Proof. done. Qed.
Lemma agree_undef {A} : agree (@undefX E A) undefX.
Proof. done. Qed.
Lemma agree_fail : agree (@failX E) failX.
Proof. done. Qed.
Lemma agree_mod (f : E -> E) : agree (modX f) (modX f).
Proof. done. Qed.
Lemma agree_exit_or_fail w : agree (exit_or_fail w) (exit_or_fail w).
Proof. intros err e. unfold exit_or_fail, bindX, askX. by destruct (e_interactive e). Qed.
Lemma agree_cat w s flags : agree (catX w s flags) (catX w s flags).
Proof. done. Qed.

Create HintDb agree.
#[local] Hint Resolve agree_bind agree_ret agree_ask agree_exit agree_undef agree_fail agree_mod
  agree_exit_or_fail agree_cat : agree.

(** Two engines for operands nested less than [d] deep *)
Definition alike (d : nat) (self self' : list node -> Z -> wordlist -> X E wordlist) : Prop :=
  forall parts flags w, (parts_depth parts < d)%nat -> agree (self parts flags w) (self' parts flags w).

Context (d : nat) (self self' : list node -> Z -> wordlist -> X E wordlist).
Context (Hself : alike d self self').

Definition word_fits (word : option node) : Prop :=
  match word with Some n => (depth n < d)%nat | None => True end.

Lemma agree_copysa parts flags : (parts_depth parts < d)%nat ->
  agree (expand_copysa self parts flags) (expand_copysa self' parts flags).
Proof. intros L. apply agree_bind; [by apply Hself|]. intros. apply agree_ret. Qed.

(** The operand's parts, whatever its tilde-prefix stands for *)
Lemma agree_operand {A} word (k k' : list node -> X E A) : word_fits word -> (0 < d)%nat ->
  (forall parts, (parts_depth parts < d)%nat -> agree (k parts) (k' parts)) ->
  agree (bindX (expand_param_tilde word) k) (bindX (expand_param_tilde word) k').
Proof.
  intros F P Hk err e. unfold bindX, expand_param_tilde. destruct word as [n|]; simpl in F.
  - pose proof (parts_of_depth n). destruct (expand_tilde_needed n).
    + unfold bindX, tilde_word, askX, retX. apply Hk.
      eapply Nat.le_lt_trans; [apply parts_of_depth|].
      eapply Nat.le_lt_trans; [apply tilde_word_depth|]. done.
    + apply Hk. lia.
  - by apply Hk.
Qed.

Lemma agree_self_operand word flags w : word_fits word -> (0 < d)%nat ->
  agree (parts <- expand_param_tilde word ;; self parts flags w)
        (parts <- expand_param_tilde word ;; self' parts flags w).
Proof. intros. by apply agree_operand; [..|intros; apply Hself]. Qed.

Lemma agree_range word r : word_fits word -> (0 < d)%nat ->
  agree (expand_range self word r) (expand_range self' word r).
Proof.
  intros F P. apply agree_bind; [|intros; apply agree_ret]. apply agree_copysa.
  destruct word as [n|]; [|done]. eapply Nat.le_lt_trans; [apply parts_of_depth|done].
Qed.

Ltac agree :=
  repeat first
    [ match goal with |- forall _, _ => intro | |- _ -> _ => intro end
    | apply agree_operand | apply agree_self_operand | apply agree_range | apply agree_copysa
    | apply agree_cat | apply agree_ret | apply agree_ask | apply agree_mod | apply agree_exit
    | apply agree_undef | apply agree_fail | apply agree_exit_or_fail
    | match goal with H : alike _ _ _ |- _ => apply H end
    | apply agree_bind | done
    | match goal with
      | |- agree (match ?x with _ => _ end) _ => destruct x
      end ].

Lemma agree_assign_default name word flags w : word_fits word -> (0 < d)%nat ->
  agree (assign_default self name word flags w) (assign_default self' name word flags w).
Proof.
  intros F P. unfold assign_default. apply agree_operand; try done. intros parts L.
  apply agree_bind; [by apply Hself|]. intros w1. case_match; agree.
Qed.

Lemma agree_error_if_null name word flags w : word_fits word -> (0 < d)%nat ->
  agree (error_if_null self name word flags w) (error_if_null self' name word flags w).
Proof.
  intros F P. unfold error_if_null. apply agree_bind; [|intros; agree].
  destruct word; [|agree]. apply agree_operand; try done. intros. by apply agree_copysa.
Qed.

Lemma agree_trim remove word v flags w : word_fits word -> (0 < d)%nat ->
  agree (trim self remove word v flags w) (trim self' remove word v flags w).
Proof.
  intros F P. unfold trim. destruct v as [[|c v]|]; agree.
Qed.

Lemma agree_param_op flag name word v done flags w : word_fits word -> (0 < d)%nat ->
  agree (param_op self flag name word v done flags w) (param_op self' flag name word v done flags w).
Proof.
  intros F P. unfold param_op.
  repeat match goal with |- agree (match ?c with _ => _ end) _ => destruct c end;
    first [by apply agree_trim | by apply agree_assign_default | by apply agree_error_if_null | agree].
Qed.

Lemma agree_param_result flag name word v done flags w : word_fits word -> (0 < d)%nat ->
  agree (param_result self flag name word v done flags w) (param_result self' flag name word v done flags w).
Proof. intros. unfold param_result. case_match; [agree|by apply agree_param_op]. Qed.

Lemma agree_args_loop k i flag word flags w : word_fits word -> (0 < d)%nat ->
  agree (args_loop self k i flag word flags w) (args_loop self' k i flag word flags w).
Proof.
  intros F P. revert i w. induction k as [|k IH]; intros i w; [agree|]. cbn [args_loop].
  apply agree_bind; [agree|]. intros args. apply agree_bind; [by apply agree_param_op|]. intros w'.
  apply agree_bind; [agree|]. intros. apply IH.
Qed.

Lemma agree_variable flag name word :
  agree (variable_value (E:=E) flag name word) (variable_value flag name word).
Proof.
  intros err e. split; [done|]. unfold variable_value, bindX, askX, retX, modX.
  repeat (case_match; try done; simplify_eq).
Qed.

Lemma agree_special special flag word numb : word_fits word -> (0 < d)%nat ->
  agree (special_value self special flag word numb) (special_value self' special flag word numb).
Proof.
  intros F P. unfold special_value. apply agree_bind; [agree|]. intros args.
  repeat match goal with |- agree (if ?c then _ else _) _ => destruct c end; agree; try done.
Qed.

Lemma agree_expand_param flag name word numb flags w : word_fits word -> (0 < d)%nat ->
  agree (expand_param self flag name word numb flags w) (expand_param self' flag name word numb flags w).
Proof.
  intros F P. unfold expand_param.
  case_match; [apply agree_bind; [apply agree_variable|]; intros [v|]; [by apply agree_param_result|agree]|].
  apply agree_bind; [agree|]. intros ifs. apply agree_bind; [agree|]. intros args.
  repeat match goal with |- agree (if ?c then _ else _) _ => destruct c eqn:? end;
    try (by apply agree_param_result); try (by apply agree_args_loop); agree; try done;
    auto using agree_args_loop, agree_special, agree_param_result.
  all: try apply agree_special; auto.
Qed.

(** *** Arithmetic *)

Definition fine (r : ares (bool * E * stopped)) : Prop :=
  match r with
  | AOk _ s | AErr s => s.2 = Running
  | AExit s => s.2 <> Exhausted
  | AUndef => True
  end.

Definition same_fine (r r' : ares (bool * E * stopped)) : Prop := r = r' /\ fine r.

(** Evaluators that agree on states in which nothing has gone wrong *)
Definition same_eval (f f' : bool * E * stopped -> ares (bool * E * stopped)) : Prop :=
  forall s, s.2 = Running -> same_fine (f s) (f' s).

Lemma same_bind r r' k k' : same_fine r r' ->
  (forall v s, s.2 = Running -> same_fine (k v s) (k' v s)) -> same_fine (bindA r k) (bindA r' k').
Proof. intros [<- F] K. destruct r; simpl in *; [by apply K|done..]. Qed.

Lemma same_chk z s : s.2 = Running -> same_fine (chk z s) (chk z s).
Proof. intros. split; [done|]. unfold chk. by case_match. Qed.

Lemma same_binary_op id l r s : s.2 = Running ->
  same_fine (@binary_op _ (arith_env self) id l r s) (@binary_op _ (arith_env self') id l r s).
Proof.
  intros R. split; [done|]. unfold binary_op, shift_left, shift_right, c_div, c_mod, chk.
  by repeat case_match.
Qed.

Lemma same_assign_op id l r s : s.2 = Running ->
  same_fine (assign_op id l r s) (assign_op id l r s).
Proof.
  intros R. split; [done|]. unfold assign_op, shift_left, shift_right, c_div, c_mod, chk.
  by repeat case_match.
Qed.

Lemma same_binary id l l' r r' : same_eval l l' -> same_eval r r' ->
  same_eval (@expand_arith_binary _ (arith_env self) id l r) (@expand_arith_binary _ (arith_env self') id l' r').
Proof.
  intros L R s Hs. unfold expand_arith_binary. apply same_bind; [by apply L|]. intros v s' Hs'.
  repeat case_match; try (by split). apply same_bind; [by apply R|]. intros. by apply same_binary_op.
Qed.

Lemma same_unary id a f f' : same_eval f f' ->
  same_eval (@expand_arith_unary _ (arith_env self) id a f) (@expand_arith_unary _ (arith_env self') id a f').
Proof.
  intros F s Hs. unfold expand_arith_unary. apply same_bind; [by apply F|]. intros v s' Hs'.
  destruct (unary_result id v) as [r v']. apply same_bind; [by apply same_chk|]. intros v1 s1 H1.
  apply same_bind; [by apply same_chk|]. intros v2 s2 H2. split; [done|].
  destruct (pre_post id); [|done]. destruct a as [[]|]; try done. destruct name as [|c name]; [done|].
  cbn [var_setvint arith_env]. destruct (e_setint _ _ _); [done|]. simpl. congruence.
Qed.

Lemma same_assign id lhs f f' : same_eval f f' ->
  same_eval (@expand_arith_assign _ (arith_env self) id lhs f) (@expand_arith_assign _ (arith_env self') id lhs f').
Proof.
  intros F s Hs. unfold expand_arith_assign. destruct lhs; try (by split). destruct name as [|c name]; [done|].
  apply same_bind.
  { destruct (F s Hs) as [<- Fi]. by destruct (f s). }
  intros v s' Hs'. apply same_bind; [by apply same_assign_op|]. intros v2 s2 H2. split; [done|].
  cbn [var_setv arith_env]. destruct (e_set _ _ _); [done|]. simpl. congruence.
Qed.

Lemma same_ternary c c' t t' f f' : same_eval c c' -> same_eval t t' -> same_eval f f' ->
  same_eval (expand_arith_ternary c t f) (expand_arith_ternary c' t' f').
Proof.
  intros C T F s Hs. apply same_bind; [by apply C|]. intros v s' Hs'. case_match; auto.
Qed.

Lemma same_err : same_eval AErr AErr.
Proof. done. Qed.

Lemma same_param flag name word numb : (depth (nargparam flag name word numb) <= d)%nat ->
  same_eval (@expand_arith_expr _ (arith_env self) (nargparam flag name word numb))
            (@expand_arith_expr _ (arith_env self') (nargparam flag name word numb)).
Proof.
  intros L [[err e] st] R. assert (0 < d)%nat as P by (simpl in L; lia). simpl in R. subst st. cbn [expand_arith_expr].
  cbn [ArithEval.expand_param arith_env]. unfold arith_param.
  assert (word_fits word) as F by (destruct word; simpl in *; [lia|done]).
  pose proof (agree_expand_param flag name word numb 0 (wordlist_init_str []) F P err e) as [Eq N].
  rewrite <-Eq. clear Eq. destruct (expand_param self _ _ _ _ _ _ _ _); try done. split; [done|].
  unfold param_number. repeat case_match; done.
Qed.

Lemma arith_agree t : (depth t <= d)%nat ->
  same_eval (@expand_arith_expr _ (arith_env self) t) (@expand_arith_expr _ (arith_env self') t).
Proof.
  induction t using node_ind'; intros L;
    try (let s1 := fresh in intros s1 Hs; cbn [expand_arith_expr];
         match goal with
         | |- same_fine (AErr _) _ => split; [reflexivity|exact Hs]
         | |- same_fine (AOk _ _) _ => split; [reflexivity|exact Hs]
         end).
  - by apply same_param.
  - intros s Hs. split; [done|]. cbn [expand_arith_expr ArithEval.expand_tosa arith_env].
    destruct (e_output c _), (scan_number _ _) as [[? ?] ?]. done.
  - cbn [expand_arith_expr]. destruct t as [|x t]; [apply same_err|]. inversion_clear H0 as [|? ? Hx _].
    apply Hx. simpl in L. lia.
  - simpl in L. apply same_ternary; [apply IHt1|apply IHt2|apply IHt3]; lia.
  - simpl in L. intros s Hs. cbn [expand_arith_expr].
    assert (same_eval (match r with Some r => @expand_arith_expr _ (arith_env self) r | None => AErr end)
             (match r with Some r => @expand_arith_expr _ (arith_env self') r | None => AErr end)) as R.
    { destruct r as [r|]; [|apply same_err]. apply H0. lia. }
    destruct (kind_in id binary_kinds); [|destruct (kind_in id assign_kinds); [|by split]].
    + apply same_binary; [apply IHt; lia|done|done].
    + by apply same_assign.
  - simpl in L. intros s Hs. cbn [expand_arith_expr]. destruct (kind_in id unary_kinds); [|by split].
    apply same_unary; [|done]. destruct a as [a|]; [|apply same_err]. by apply H0.
Qed.

(** *** Words *)

Lemma agree_arith tree flags w : match tree with Some t => (depth t <= d)%nat | None => True end ->
  agree (expand_arith self tree flags w) (expand_arith self' tree flags w).
Proof.
  intros L err e. unfold expand_arith.
  assert (same_fine (match tree with Some t => @expand_arith_expr _ (arith_env self) t (err, e, Running)
                     | None => AErr (err, e, Running) end)
                    (match tree with Some t => @expand_arith_expr _ (arith_env self') t (err, e, Running)
                     | None => AErr (err, e, Running) end)) as [<- F].
  { destruct tree as [t|]; [|by split]. by apply arith_agree. }
  split; [done|]. destruct (match tree with Some _ => _ | None => _ end) as [r [[? ?] ?]|[[? ?] ?]|[[? ?] []]|];
    try done; simpl in F.
  unfold message, exit_or_fail, bindX, modX, askX. by destruct (e_interactive _).
Qed.

Lemma agree_part globres n flags w : (depth n <= d)%nat ->
  agree (expand_part self globres n flags w) (expand_part self' globres n flags w).
Proof.
  intros L. destruct n; cbn [expand_part]; try apply agree_ret; try apply agree_cat.
  - simpl in L. apply agree_expand_param; [|lia]. destruct word; simpl in *; [lia|done].
  - intros err e. unfold expand_command. destruct (e_output cmds e). split; [reflexivity|discriminate].
  - apply agree_arith. by destruct tree.
Qed.

Lemma agree_parts globres parts flags w : (parts_depth parts <= d)%nat ->
  agree (expand_parts self globres parts flags w) (expand_parts self' globres parts flags w).
Proof.
  intros L. revert w. induction parts as [|n parts IH]; intros w; [apply agree_ret|].
  rewrite parts_depth_cons in L. intros err e. cbn [expand_parts].
  destruct (agree_part globres n flags w ltac:(lia) err e) as [<- N].
  clear - N IH L. destruct (expand_part self globres n flags w err e) as [w1 [] e1| | |];
    try (split; [reflexivity|discriminate]); [|by destruct N].
  apply IH. lia.
Qed.
End Agree.

Section Fuel.
Context {E : Type} `{ExpandEnv E}.

(** Any two amounts of fuel above the nesting do alike. *)
Lemma expand_arg_alike n m : (n <= m)%nat -> alike n (expand_arg (E:=E) n) (expand_arg m).
Proof.
  revert m. induction n as [|n IH]; intros m Hm parts flags w L; [lia|].
  destruct m as [|m]; [lia|]. intros prev e. cbn [expand_arg].
  destruct (agree_parts n (expand_arg n) (expand_arg m) (IH m ltac:(lia)) (expand_globres_ok parts) parts
    flags w ltac:(lia) false e) as [<- N].
  by destruct (expand_parts _ _ _ _ _ _ _).
Qed.

(** C11: expansion ends.  The recursion from a word to the operands of its
    parameters goes no deeper than they are nested in the tree: with more fuel
    than that the engine never runs out, and the amount makes no difference. *)
Theorem expand_arg_ends n m parts flags w err (e : E) :
  (parts_depth parts < n)%nat -> (parts_depth parts < m)%nat ->
  expand_arg n parts flags w err e <> XFuel /\
  expand_arg n parts flags w err e = expand_arg m parts flags w err e.
Proof.
  intros Ln Lm. destruct (Nat.le_ge_cases n m) as [Le|Le].
  - destruct (expand_arg_alike n m Le parts flags w Ln err e). done.
  - destruct (expand_arg_alike m n Le parts flags w Lm err e) as [Eq N]. by rewrite <-Eq.
Qed.
End Fuel.

Lemma expand_arg_ends_witness :
  let e := plain_store [] [b "x"] in
  let w := [nargparam 0 (b "y") (Some (narg N_ARG 0 [nargparam S_ALTERNAT (b "z") None 0; nargstr 0 (b "v")])) 0] in
  parts_depth w = 2%nat /\ expand_arg 3 w 0 (wordlist_init []) false e = expand_arg 9 w 0 (wordlist_init []) false e.
Proof.
  split; [reflexivity|].
  exact (proj2 (expand_arg_ends 3 9
    [nargparam 0 (b "y") (Some (narg N_ARG 0 [nargparam S_ALTERNAT (b "z") None 0; nargstr 0 (b "v")])) 0]
    0 (wordlist_init []) false (plain_store [] [b "x"]) ltac:(vm_compute; lia) ltac:(vm_compute; lia))).
Defined.
