(* ===== verification/ExpandFields.v ===== *)
(** * The fields words expand to (src/expand/expand_param.c, expand_args.c)

    The trimming operators and the ranges of a value; "$@", "$x" and $x as
    words; and examples, run over a plain store, of what else the engine does. *)

From S2P Require Import Prelude Chars Scan Tree Fnmatch Wordlist WordlistProps Braces Tilde Expand ExpandStore.

Local Open Scope expand_scope.

(** ** Trimming *)

Lemma down_from_spec test n :
  match down_from test n with
  | Some i => (i <= n)%nat /\ test i = true /\ forall j, (i < j <= n)%nat -> test j = false
  | None => forall j, (j <= n)%nat -> test j = false
  end.
Proof.
  induction n as [|n IH]; simpl; destruct (test _) eqn:T.
  - split_and!; [lia|done|intros; lia].
  - intros j Hj. by replace j with 0%nat by lia.
  - split_and!; [lia|done|intros; lia].
  - destruct (down_from test n) as [i|].
    + destruct IH as (L & Ti & F). split_and!; [lia|done|]. intros j Hj.
      destruct (decide (j = S n)) as [-> |]; [done|]. apply F. lia.
    + intros j Hj. destruct (decide (j = S n)) as [-> |]; [done|]. apply IH. lia.
Qed.

Lemma up_to_spec test i n :
  match up_to test i n with
  | Some k => (i <= k <= i + n)%nat /\ test k = true /\ forall j, (i <= j < k)%nat -> test j = false
  | None => forall j, (i <= j <= i + n)%nat -> test j = false
  end.
Proof.
  revert i. induction n as [|n IH]; intros i; simpl; destruct (test i) eqn:T.
  - split_and!; [lia|lia|done|intros; lia].
  - intros j Hj. by replace j with i by lia.
  - split_and!; [lia|lia|done|intros; lia].
  - specialize (IH (S i)). destruct (up_to test (S i) n) as [k|].
    + destruct IH as (L & Tk & F). split_and!; [lia|lia|done|]. intros j Hj.
      destruct (decide (j = i)) as [-> |]; [done|]. apply F. lia.
    + intros j Hj. destruct (decide (j = i)) as [-> |]; [done|]. apply IH. lia.
Qed.

Lemma long_prefix_spec v p n :
  let k := long_prefix v p n in
  (k <= n)%nat /\ (k <> 0%nat -> fnmatches p (take k v) = true) /\
  forall j, (k < j <= n)%nat -> fnmatches p (take j v) = false.
Proof.
  induction n as [|n IH]; [simpl; split_and!; [lia|done|intros; lia]|].
  cbn [long_prefix]. destruct (fnmatches p (take (S n) v)) eqn:T; cbn zeta.
  - split_and!; [lia|done|intros; lia].
  - destruct IH as (L & M & F). split_and!; [lia|done|]. intros j Hj.
    destruct (decide (j = S n)) as [-> |]; [done|]. apply F. lia.
Qed.

Lemma fnmatches_spec p s : Forall is_byte s -> ~ In (ch "[") p ->
  fnmatches p s = true <-> wmatch 0 p s.
Proof.
  intros B N. destruct (path_fnmatch_simple p s B N) as (r & R & M). unfold fnmatches. rewrite R.
  rewrite <-M. apply Z.eqb_eq.
Qed.

(** [r] is [v] without its suffix, or its prefix, that [P] holds of and that
    [le] puts first; it is [v] when there is none. *)
Definition suffix_removed (le : nat -> nat -> Prop) (P : bytes -> Prop) (v r : bytes) : Prop :=
  (exists s, v = r ++ s /\ P s /\
     forall r' s', v = r' ++ s' -> P s' -> le (List.length s) (List.length s'))
  \/ (r = v /\ forall r' s', v = r' ++ s' -> ~ P s').

Definition prefix_removed (le : nat -> nat -> Prop) (P : bytes -> Prop) (v r : bytes) : Prop :=
  (exists s, v = s ++ r /\ P s /\
     forall r' s', v = s' ++ r' -> P s' -> le (List.length s) (List.length s'))
  \/ (r = v /\ forall r' s', v = s' ++ r' -> ~ P s').

Section Trim.
Context (v p : bytes) (HB : Forall is_byte v) (Hp : ~ In (ch "[") p).

Lemma match_suffix r s : v = r ++ s ->
  fnmatches p (drop (List.length r) v) = true <-> wmatch 0 p s.
Proof.
  intros ->. rewrite drop_app_length. apply fnmatches_spec; [|done]. by apply Forall_app in HB as [_ ?].
Qed.

Lemma match_prefix r s : v = s ++ r ->
  fnmatches p (take (List.length s) v) = true <-> wmatch 0 p s.
Proof.
  intros ->. rewrite take_app_length. apply fnmatches_spec; [|done]. by apply Forall_app in HB as [? _].
Qed.

(** The cut at [i] found by a search from one end *)
Lemma suffix_cut (le : nat -> nat -> Prop) i : (i <= List.length v)%nat ->
  fnmatches p (drop i v) = true ->
  (forall j, (j <= List.length v)%nat -> fnmatches p (drop j v) = true ->
     le (List.length v - i)%nat (List.length v - j)%nat) ->
  suffix_removed le (wmatch 0 p) v (take i v).
Proof.
  intros L M F. left. exists (drop i v). assert (v = take i v ++ drop i v) as Ev by (by rewrite take_drop).
  split_and!; [done| |].
  - apply (match_suffix (take i v)); [done|]. by rewrite length_take, Nat.min_l.
  - intros r s E W. rewrite length_drop. apply (proj2 (match_suffix _ _ E)) in W.
    assert (List.length v = List.length r + List.length s)%nat as Ln by (by rewrite E, length_app).
    replace (List.length s) with (List.length v - List.length r)%nat by lia. apply F; [lia|done].
Qed.

Lemma prefix_cut (le : nat -> nat -> Prop) i : (i <= List.length v)%nat ->
  fnmatches p (take i v) = true ->
  (forall j, (j <= List.length v)%nat -> fnmatches p (take j v) = true -> le i j) ->
  prefix_removed le (wmatch 0 p) v (drop i v).
Proof.
  intros L M F. left. exists (take i v). assert (v = take i v ++ drop i v) as Ev by (by rewrite take_drop).
  assert (List.length (take i v) = i) as Li by (by rewrite length_take, Nat.min_l).
  split_and!; [done| |].
  - apply (match_prefix (drop i v)); [done|]. by rewrite Li.
  - intros r s E W. rewrite Li. apply (proj2 (match_prefix _ _ E)) in W. apply F; [|done].
    rewrite E, length_app. lia.
Qed.

Lemma no_suffix le : (forall j, (j <= List.length v)%nat -> fnmatches p (drop j v) = false) ->
  suffix_removed le (wmatch 0 p) v v.
Proof.
  intros F. right. split; [done|]. intros r s E W. apply (proj2 (match_suffix _ _ E)) in W.
  rewrite F in W; [done|]. rewrite E, length_app. lia.
Qed.

Lemma no_prefix le : (forall j, (j <= List.length v)%nat -> fnmatches p (take j v) = false) ->
  prefix_removed le (wmatch 0 p) v v.
Proof.
  intros F. right. split; [done|]. intros r s E W. apply (proj2 (match_prefix _ _ E)) in W.
  rewrite F in W; [done|]. rewrite E, length_app. lia.
Qed.
End Trim.

(** C23: the trimming operators do what they say, for patterns without a bracket
    expression: there is no "[" in [p], not even an escaped one (how far the
    matcher reads one can depend on the character it compares, see
    [Fnmatch.bracket_reading_differs]).  ${v%p} and ${v%%p} leave the
    value without the shortest and the longest suffix in the language of the
    pattern, ${v#p} and ${v##p} without such a prefix, and the whole value
    when nothing matches. *)
Theorem trimming_removes (v p : bytes) : Forall is_byte v -> ~ In (ch "[") p ->
  suffix_removed le (wmatch 0 p) v (remove_short_suffix v p) /\
  suffix_removed ge (wmatch 0 p) v (remove_long_suffix v p) /\
  prefix_removed le (wmatch 0 p) v (remove_short_prefix v p) /\
  prefix_removed ge (wmatch 0 p) v (remove_long_prefix v p).
Proof.
  intros HB Hp.
  pose proof (down_from_spec (fun i => fnmatches p (drop i v)) (List.length v)) as SS.
  pose proof (up_to_spec (fun i => fnmatches p (drop i v)) 0 (List.length v)) as LS.
  pose proof (up_to_spec (fun i => fnmatches p (take i v)) 0 (List.length v)) as SP.
  pose proof (long_prefix_spec v p (List.length v)) as LP. cbn beta zeta in *.
  split_and!.
  - unfold remove_short_suffix. destruct (down_from _ _) as [i|]; cbn [default from_option id].
    + destruct SS as (L & M & F). apply suffix_cut; try done. intros j Lj Mj.
      destruct (decide (i < j)%nat); [|lia]. rewrite F in Mj by lia. done.
    + rewrite firstn_all. by apply no_suffix.
  - unfold remove_long_suffix. destruct (up_to _ _ _) as [i|]; cbn [default from_option id].
    + destruct LS as (L & M & F). apply suffix_cut; try done; [lia|]. intros j Lj Mj.
      destruct (decide (j < i)%nat); [|lia]. rewrite F in Mj by lia. done.
    + rewrite firstn_all. apply no_suffix; try done. intros. apply LS. lia.
  - unfold remove_short_prefix.
    destruct (up_to (fun i => fnmatches p (take i v)) 0 (List.length v)) as [i|]; cbn [default from_option id].
    + destruct SP as (L & M & F). apply prefix_cut; try done; [lia|]. intros j Lj Mj.
      destruct (decide (j < i)%nat); [|lia]. rewrite F in Mj by lia. done.
    + rewrite drop_0. apply no_prefix; try done. intros. apply SP. lia.
  - unfold remove_long_prefix. set (k := long_prefix v p (List.length v)) in *. destruct LP as (L & M & F).
    destruct (fnmatches p (take k v)) eqn:T.
    + apply prefix_cut; try done. intros j Lj Mj. destruct (decide (k < j)%nat); [|lia].
      rewrite F in Mj by lia. done.
    + assert (k = 0%nat) as -> by (destruct (decide (k = 0%nat)) as [|Hk]; [done|]; specialize (M Hk); congruence).
      rewrite drop_0. apply no_prefix; try done. intros j Lj. destruct j as [|j]; [done|]. apply F. lia.
Qed.

Lemma trimming_removes_witness :
  suffix_removed le (wmatch 0 (b "o*")) (b "foobar") (b "fo") /\
  suffix_removed ge (wmatch 0 (b "o*")) (b "foobar") (b "f").
Proof.
  destruct (trimming_removes (b "foobar") (b "o*")) as (S & L & _).
  - repeat constructor; vm_compute; discriminate.
  - vm_compute. intros H. repeat destruct H as [H|H]; discriminate || exact H.
  - exact (conj S L).
Defined.

(** ** Patterns *)

Lemma cat_literal_quotes sa s : cat_literal sa s = sa ++ quote_some is_pattern_char s.
Proof.
  revert sa. induction s as [|c s IH]; intros sa; [by rewrite app_nil_r|].
  cbn [cat_literal quote_some]. rewrite IH. destruct (is_pattern_char c); by rewrite <-!app_assoc.
Qed.

(** Quoted text in a pattern is literal: the pattern a quoted result turns
    into, in "case" or in ${v%"$x"}, matches exactly the result, whatever
    characters it holds. *)
Theorem quoted_pattern_literal glob (s t : bytes) :
  path_fnmatch (wl_cur (wordlist_cat glob (wordlist_init_str []) s (Z.lor X_PATTERN X_QUOTED))) t 0
  = Some (if decide (s = t) then 0 else PATH_FNM_NOMATCH).
Proof.
  change (wl_cur (wordlist_cat glob (wordlist_init_str []) s (Z.lor X_PATTERN X_QUOTED)))
    with (cat_literal [] s).
  rewrite cat_literal_quotes. apply path_fnmatch_some; by repeat split.
Qed.

(** ** Ranges *)

(** ${v:offset:length} never reaches outside of the value: whatever the
    numbers are, the part taken starts and ends within it; and numbers that
    denote a part of the value denote that part. *)
Theorem limit_within (r : range) (n : Z) : 0 <= n <= INT32_MAX ->
  INT32_MIN <= r_offset r <= INT32_MAX -> INT32_MIN <= r_length r <= INT32_MAX ->
  let s := limit r 0 n in
  0 <= r_offset s /\ 0 <= r_length s /\ r_offset s + r_length s <= n /\
  (0 <= r_offset r -> 0 <= r_length r -> r_offset r + r_length r <= n -> s = r) /\
  (- n <= r_offset r < 0 -> 0 <= r_length r <= - r_offset r -> s = Range (n + r_offset r) (r_length r)).
Proof.
  destruct r as [o l]. unfold limit, INT32_MAX, INT32_MIN. cbn [r_offset r_length].
  intros Hn Ho Hl.
  assert (forall z, 0 <= z < 2 ^ 31 -> i32 z = z) as I.
  { intros z Hz. unfold i32. rewrite Z.mod_small by lia. lia. }
  set (off := if (if o <? 0 then o + n else o) <? 0 then 0
              else if (if o <? 0 then o + n else o) >? n then n else if o <? 0 then o + n else o).
  assert (0 <= off <= n /\ (0 <= o <= n -> off = o) /\ (- n <= o < 0 -> off = n + o)) as (Oo & O1 & O2).
  { subst off. repeat case_match; bool_lia. }
  clearbody off.
  set (e := if (if l <? 0 then n + l else off + l) <? off then off
            else if (if l <? 0 then n + l else off + l) >? n then n else if l <? 0 then n + l else off + l).
  assert (off <= e <= n /\ (0 <= l <= n - off -> e = off + l)) as (Eo & E1).
  { subst e. repeat case_match; bool_lia. }
  clearbody e. rewrite !I by lia. split_and!; try lia; intros.
  - f_equal; lia.
  - f_equal; lia.
Qed.

Lemma limit_within_witness :
  limit (Range (-3) 9) 0 6 = Range 3 3 /\ limit (Range 1 2) 0 6 = Range 1 2.
Proof.
  assert (forall r, INT32_MIN <= r_offset r <= INT32_MAX -> INT32_MIN <= r_length r <= INT32_MAX ->
    0 <= r_offset r -> 0 <= r_length r -> r_offset r + r_length r <= 6 -> limit r 0 6 = r) as L.
  { intros r A C. apply (limit_within r 6); [vm_compute; split; discriminate|exact A|exact C]. }
  split; [vm_compute; reflexivity|]. apply L; vm_compute; try split; discriminate.
Defined.

(** ** Parameters as words *)

Section Words.
Context {E : Type} `{ExpandEnv E}.

(** Between two words *)
Definition between (w : wordlist) : Prop :=
  wl_ar w = true /\ wl_has w = false /\ wl_closed w = false /\ wl_pend w = false.

(** A quoted field is open and holds [c]; [v] is closed. *)
Record quoted_open (v : list bytes) (c : bytes) (w : wordlist) : Prop := QuotedOpen {
  qo_ar : wl_ar w = true; qo_has : wl_has w = true; qo_closed : wl_closed w = false;
  qo_state : wl_state w = X_QUOTED; qo_v : wl_v w = v; qo_cur : wl_cur w = c
}.

Lemma quoted_start glob w s : wl_ar w = true -> wl_has w = false ->
  quoted_open (wl_v w) s (wordlist_cat glob w s X_QUOTED).
Proof.
  intros A H1. rewrite cat_quoted by done. unfold start. rewrite H1. by split.
Qed.

Lemma quoted_more glob v c w s : quoted_open v c w ->
  quoted_open v (c ++ s) (wordlist_cat glob w s X_QUOTED).
Proof.
  intros []. rewrite cat_quoted, start_open by done. split; try done; simpl.
  - by rewrite qo_state0.
  - by rewrite qo_cur0.
Qed.

Lemma quoted_break v c w : quoted_open v c w ->
  let w' := wordlist_break w in wl_ar w' = true /\ wl_has w' = false /\ wl_v w' = v ++ [c].
Proof.
  intros []. unfold wordlist_break. rewrite qo_ar0, qo_has0, qo_closed0. cbn [negb orb].
  unfold wordlist_settle, wordlist_push. rewrite qo_state0, qo_v0, qo_cur0.
  cbn. rewrite andb_false_r. cbn. by rewrite qo_ar0.
Qed.

Lemma quoted_close glob v c w : quoted_open v c w -> wl_v (fst (wordlist_close glob w)) = v ++ [c].
Proof.
  intros []. unfold wordlist_close. rewrite qo_ar0, qo_closed0. cbn [negb andb].
  rewrite qo_has0, qo_closed0, qo_state0. cbn [negb andb].
  change (has X_QUOTED X_GLOB) with false. change (has X_QUOTED X_GLOBRES) with false.
  change (has X_QUOTED X_LITERAL) with false. cbn [andb].
  unfold wordlist_settle, wordlist_push. rewrite qo_state0, qo_v0, qo_cur0. cbn.
  by rewrite andb_false_r.
Qed.

(** The loop over the positional parameters, each a quoted field *)
Lemma args_loop_quoted self (e : E) err v c w i : (i < List.length (e_args e))%nat ->
  (wl_ar w = true /\ wl_has w = false /\ wl_v w = v /\ c = []) \/ quoted_open v c w ->
  exists w' v' c',
    args_loop self (List.length (e_args e) - i) i S_ARG None X_QUOTED w err e = XOk w' err e /\
    quoted_open v' c' w' /\
    v' ++ [c'] = v ++ (c ++ nth i (e_args e) []) :: drop (S i) (e_args e).
Proof.
  remember (List.length (e_args e) - i)%nat as k eqn:Ek. revert i v c w Ek.
  induction k as [|k IH]; intros i v c w Ek L Hw; [lia|].
  cbn [args_loop]. unfold bindX, askX.
  change (param_op self S_ARG [] None (Some (nth i (e_args e) [])) false X_QUOTED w err e)
    with (catX w (nth i (e_args e) []) X_QUOTED err e).
  unfold catX, askX. set (w1 := wordlist_cat (e_glob e) w (nth i (e_args e) []) X_QUOTED).
  assert (quoted_open v (c ++ nth i (e_args e) []) w1) as Q.
  { destruct Hw as [(A & H1 & <- & ->)|Q]; [by apply quoted_start|by apply quoted_more]. }
  clearbody w1. destruct (S i <? List.length (e_args e))%nat eqn:Lt; zify_bool.
  - destruct (quoted_break _ _ _ Q) as (A & H1 & V).
    destruct (IH (S i) (v ++ [c ++ nth i (e_args e) []]) [] (wordlist_break w1)) as (w' & v' & c' & R & Q' & Eq);
      [lia|lia|left; by split_and!|].
    exists w', v', c'. split_and!; [exact R|done|]. rewrite Eq, <-app_assoc. simpl. do 3 f_equal.
    clear - Lt. revert Lt. generalize (e_args e) as l. induction i as [|i IH]; intros [|x l] Lt; simpl in Lt; try lia.
    + destruct l; [simpl in Lt; lia|done].
    + simpl. apply IH. lia.
  - replace k with 0%nat by lia. exists w1, v, (c ++ nth i (e_args e) []). split_and!; try done.
    rewrite drop_ge by lia. done.
Qed.

Definition quoted_at : node :=
  narg N_ARG 0 [nargstr S_DQUOTED []; nargparam (Z.lor S_DQUOTED S_ARGVS) (b "@") None 0; nargstr S_DQUOTED []].
Definition quoted_name (name : bytes) : node :=
  narg N_ARG 0 [nargstr S_DQUOTED []; nargparam S_DQUOTED name None 0; nargstr S_DQUOTED []].
Definition plain_name (name : bytes) : node := narg N_ARG 0 [nargparam 0 name None 0].

(** A name whose value is that of the variable *)
Definition ordinary (name : bytes) : Prop :=
  name <> b "RANDOM" /\ name <> b "LINENO" /\ name <> b "LINES" /\ name <> b "COLUMNS".

Lemma variable_value_set flag name word v err (e : E) : ordinary name -> e_get name e = Some v ->
  Z.land flag S_NULL = 0 -> variable_value flag name word err e = XOk (Some (Some v)) err e.
Proof.
  intros (N1 & N2 & N3 & N4) G F. unfold variable_value, bindX, askX, retX.
  destruct (decide (name = b "RANDOM")); [done|]. rewrite !bool_decide_false by done.
  cbn [andb]. rewrite G, F. cbn. by rewrite andb_false_r.
Qed.

Lemma expand_at self err (e : E) w : e_args e <> [] ->
  expand_param self (Z.lor S_DQUOTED S_ARGVS) (b "@") None 0 X_QUOTED w err e
  = args_loop self (List.length (e_args e)) 0 S_ARG None X_QUOTED w err e.
Proof.
  intros Hn. unfold expand_param, bindX, askX.
  change (Z.land (Z.lor S_DQUOTED S_ARGVS) S_SPECIAL) with S_ARGVS.
  change (S_ARGVS =? 0) with false. change (S_ARGVS =? S_ARGV) with false.
  change (S_ARGVS =? S_ARGVS) with true.
  change (Z.land (Z.lor S_DQUOTED S_ARGVS) S_STRLEN =? 0) with true.
  change (Z.land (Z.lor S_DQUOTED S_ARGVS) S_VAR) with 0. cbn [andb orb negb].
  assert ((argc (e_args e) =? 0) = false) as -> by (unfold argc; destruct (e_args e); [done|apply Z.eqb_neq; simpl; lia]).
  done.
Qed.

Lemma expand_variable self flag name flags v err (e : E) w :
  ordinary name -> e_get name e = Some v -> Z.land flag S_SPECIAL = 0 -> Z.land flag S_NULL = 0 ->
  Z.land flag S_STRLEN = 0 -> Z.land flag S_VAR = 0 ->
  expand_param self flag name None 0 flags w err e = catX w v flags err e.
Proof.
  intros O G F1 F2 F3 F4. unfold expand_param. rewrite F1. cbn [Z.eqb].
  unfold bindX at 1. rewrite (variable_value_set _ _ _ v) by done. unfold param_result. rewrite F3. cbn [Z.eqb negb].
  unfold param_op. by rewrite F4.
Qed.

(** A word that is neither copied nor dropped *)
Lemma expand_one_word fuel n l err (e : E) w :
  (forall o, expand_brace_needed o n = false) -> expand_tilde_needed n = false -> n = narg N_ARG 0 l ->
  expand_is_empty_at (e_args e) n = false ->
  expand_args fuel [n] w 0 err e =
    match expand_arg fuel l 0 (with_noglob (o_noglob (e_opts e)) w) err e with
    | XOk w err e => let wk := wordlist_close (e_glob e) w in XOk (fst wk, snd wk) err e
    | XExit e => XExit e
    | XUndef => XUndef
    | XFuel => XFuel
    end.
Proof.
  intros B T -> Em. unfold expand_args, bindX, askX. cbn [existsb]. rewrite B, T. cbn [orb expand_words].
  unfold bindX, askX. rewrite Em. unfold retX. cbn [arg_list].
  destruct (expand_arg fuel l 0 _ err e) as [w1 err1 e1| | |]; try done.
Qed.

Lemma expand_parts_cons self globres n rest flags w (e : E) :
  expand_parts self globres (n :: rest) flags w false e =
    match expand_part self globres n flags w false e with
    | XOk w err e => if err then XOk w err e else expand_parts self globres rest flags w err e
    | r => r
    end.
Proof. done. Qed.

(** C7: "$@" stands for the positional parameters: as a word of a command it
    adds one field per parameter, each exactly as it is, and none when there
    are none. *)
Theorem quoted_at_fields fuel err (e : E) w : between w -> (0 < fuel)%nat ->
  exists w' n, expand_args fuel [quoted_at] w 0 err e = XOk (w', n) err e /\
    wl_v w' = wl_v w ++ e_args e.
Proof.
  intros (A & H1 & Cl & P) Hf. destruct fuel as [|fuel]; [lia|].
  destruct (e_args e) as [|a args] eqn:Ea.
  - exists (with_noglob (o_noglob (e_opts e)) w), 0%nat. split; [|simpl; by rewrite app_nil_r].
    unfold expand_args, bindX, askX. cbn [existsb expand_words].
    change (expand_tilde_needed quoted_at) with false. unfold expand_brace_needed. cbn -[expand_words].
    rewrite andb_false_r. cbn [expand_words orb]. unfold bindX, askX. by rewrite Ea.
  - assert (e_args e <> []) as Hn by (by rewrite Ea).
    assert (expand_is_empty_at (e_args e) quoted_at = false) as Em by (by rewrite Ea).
    erewrite (expand_one_word _ quoted_at); [|by intros []|done|reflexivity|done].
    cbn [expand_arg]. set (w0 := with_noglob _ w).
    rewrite expand_parts_cons. cbn [expand_part]. change (part_flags _ (nargstr S_DQUOTED []) 0) with X_QUOTED.
    cbn [List.length Nat.ltb Nat.leb andb]. unfold catX at 1, askX.
    rewrite expand_parts_cons. cbn [expand_part].
    change (part_flags _ (nargparam (Z.lor S_DQUOTED S_ARGVS) (b "@") None 0) 0) with X_QUOTED.
    rewrite expand_at by done.
    destruct (args_loop_quoted (expand_arg fuel) e false (wl_v w) [] (wordlist_cat (e_glob e) w0 [] X_QUOTED) 0)
      as (w' & v' & c' & R & Q & Eq); [rewrite Ea; simpl; lia|right; exact (quoted_start (e_glob e) w0 [] A H1)|].
    rewrite Nat.sub_0_r in R. rewrite R. rewrite expand_parts_cons. cbn [expand_part].
    change (part_flags _ (nargstr S_DQUOTED []) 0) with X_QUOTED.
    cbn [List.length Nat.ltb Nat.leb andb]. unfold catX, askX. cbn [expand_parts]. unfold retX.
    cbn [orb]. eexists _, _. split; [reflexivity|]. cbn [fst].
    rewrite (quoted_close _ _ _ _ (quoted_more (e_glob e) _ _ _ [] Q)), app_nil_r, Eq, Ea. done.
Qed.

(** "$x" stands for the value of the variable: one field, exactly the
    value, whatever characters it holds and even when it is empty. *)
Theorem quoted_name_field fuel name v err (e : E) w : between w -> (0 < fuel)%nat ->
  ordinary name -> e_get name e = Some v ->
  exists w' n, expand_args fuel [quoted_name name] w 0 err e = XOk (w', n) err e /\
    wl_v w' = wl_v w ++ [v].
Proof.
  intros (A & H1 & Cl & P) Hf O G. destruct fuel as [|fuel]; [lia|].
  erewrite (expand_one_word _ (quoted_name name)); [|by intros []|done|reflexivity|by destruct (e_args e)].
  cbn [expand_arg]. set (w0 := with_noglob _ w).
  rewrite expand_parts_cons. cbn [expand_part]. change (part_flags _ (nargstr S_DQUOTED []) 0) with X_QUOTED.
  cbn [List.length Nat.ltb Nat.leb andb]. unfold catX at 1, askX.
  rewrite expand_parts_cons. cbn [expand_part].
  change (part_flags _ (nargparam S_DQUOTED name None 0) 0) with X_QUOTED.
  rewrite (expand_variable _ S_DQUOTED name X_QUOTED v) by done. unfold catX at 1, askX.
  rewrite expand_parts_cons. cbn [expand_part].
  change (part_flags _ (nargstr S_DQUOTED []) 0) with X_QUOTED.
  cbn [List.length Nat.ltb Nat.leb andb]. unfold catX, askX. cbn [expand_parts]. unfold retX. cbn [orb].
  eexists _, _. split; [reflexivity|]. cbn [fst].
  assert (quoted_open (wl_v w) [] (wordlist_cat (e_glob e) w0 [] X_QUOTED)) as Q
    by exact (quoted_start (e_glob e) w0 [] A H1).
  apply (quoted_more (e_glob e) _ _ _ v), (quoted_more (e_glob e) _ _ _ []) in Q.
  rewrite (quoted_close _ _ _ _ Q). by rewrite app_nil_r.
Qed.

(** C6: $x unquoted is split: as a word it adds the fields POSIX field
    splitting cuts its value into at the characters of IFS (a single empty
    field is dropped); a value with a pattern character is left to pathname
    expansion, unless that is off. *)
Theorem plain_name_fields fuel name v err (e : E) w : between w -> (0 < fuel)%nat ->
  ordinary name -> e_get name e = Some v -> cstring v ->
  o_noglob (e_opts e) = true \/ has_pattern_char v = false ->
  exists w' n, expand_args fuel [plain_name name] w 0 err e = XOk (w', n) err e /\
    wl_v w' = wl_v w ++ keep_fields (posix_split (wl_ifs w) v).
Proof.
  intros (A & H1 & Cl & P) Hf O G Cs Gl. destruct fuel as [|fuel]; [lia|].
  erewrite (expand_one_word _ (plain_name name)); [|by intros []|done|reflexivity|by destruct (e_args e)].
  cbn [expand_arg]. set (w0 := with_noglob _ w).
  rewrite expand_parts_cons. cbn [expand_part].
  change (part_flags _ (nargparam 0 name None 0) 0) with X_GLOBRES.
  rewrite (expand_variable _ 0 name X_GLOBRES v) by done. unfold catX at 1, askX.
  cbn [expand_parts]. unfold retX. cbn [orb].
  eexists _, _. split; [reflexivity|]. cbn [fst].
  rewrite (field_splitting (e_glob e) w0 v X_GLOBRES); try done.
  right. destruct Gl as [Gl|Gl]; [left; exact Gl|by right].
Qed.
End Words.

Lemma quoted_at_fields_witness :
  exists w' n, expand_args 1 [quoted_at] (wordlist_init (b " ")) 0 false (plain_store [] [b "a b"; []; b "*"])
    = XOk (w', n) false (plain_store [] [b "a b"; []; b "*"]) /\ wl_v w' = [b "a b"; []; b "*"].
Proof.
  exact (quoted_at_fields 1 false (plain_store [] [b "a b"; []; b "*"]) (wordlist_init (b " "))
    (conj eq_refl (conj eq_refl (conj eq_refl eq_refl))) (le_n 1)).
Defined.

Lemma quoted_name_field_witness :
  exists w' n, expand_args 1 [quoted_name (b "x")] (wordlist_init (b " ")) 0 false (plain_store [(b "x", b " a  *")] [])
    = XOk (w', n) false (plain_store [(b "x", b " a  *")] []) /\ wl_v w' = [b " a  *"].
Proof.
  refine (quoted_name_field 1 (b "x") (b " a  *") false (plain_store [(b "x", b " a  *")] []) (wordlist_init (b " "))
    (conj eq_refl (conj eq_refl (conj eq_refl eq_refl))) (le_n 1) _ _).
  - repeat split; discriminate.
  - vm_compute. reflexivity.
Defined.

Lemma plain_name_fields_witness :
  exists w' n, expand_args 1 [plain_name (b "x")] (wordlist_init (b " ")) 0 false (plain_store [(b "x", b " a  b")] [])
    = XOk (w', n) false (plain_store [(b "x", b " a  b")] []) /\ wl_v w' = [b "a"; b "b"].
Proof.
  refine (plain_name_fields 1 (b "x") (b " a  b") false (plain_store [(b "x", b " a  b")] []) (wordlist_init (b " "))
    (conj eq_refl (conj eq_refl (conj eq_refl eq_refl))) (le_n 1) _ _ _ _).
  - repeat split; discriminate.
  - vm_compute. reflexivity.
  - repeat constructor; vm_compute; auto.
  - right. reflexivity.
Defined.

(** ** Examples *)

Definition run (text : string) (vars : list (bytes * bytes)) (args : list bytes) : option (list bytes) :=
  fst <$> fields_of 9 (b text) (plain_store vars args).

Open Scope string_scope.

Example operators :
  run "echo ${x-d}${y-d} ${y:=z}$y ${x+w} ${#x} ${x:1:2} ${x%b*} ${x##*o} $((1+2)) $# $*"
    [(b "x", b "foobar")] [b "p q"; b "r"]
  = Some [b "echo"; b "foobard"; b "zz"; b "w"; b "6"; b "oo"; b "foo"; b "bar"; b "3"; b "2"; b "p"; b "q"; b "r"].
Proof. vm_compute. reflexivity. Qed.

Example quoted_and_split :
  run "echo a$x'$x'b ~ {p,q}$x {1,2}s" [(b "x", b "1 2"); (b "HOME", b "/h")] []
  = Some [b "echo"; b "a1"; b "2$xb"; b "/h"; b "{p,q}1"; b "2"; b "1s"; b "2s"].
Proof. vm_compute. reflexivity. Qed.

(** ** Behaviour worth knowing *)

(** The value ${v=word} assigns is read from where the field ended before the
    word was expanded: when that unescapes the field, the start of the value is
    lost, and when the field gets shorter than it was, its length wraps. *)
Example assign_default_loses_text :
  (match fields_of 9 (b "echo x\\y${v=abc}") (plain_store [] []) with Some (_, s) => e_get (b "v") s | None => None end) = Some (b "bc").
Proof. vm_compute. reflexivity. Qed.

Example assign_default_wraps :
  expand_args 9 (words_of (b "echo x\\\\\\\\y${v=a}")) (wordlist_init (b " ")) 0 false (plain_store [] []) = XUndef.
Proof. vm_compute. reflexivity. Qed.

(** ${*:x} with an offset that is no number reads sh->arg.v[INT32_MIN]. *)
Example bad_range_of_star :
  expand_args 9 (words_of (b "echo ${*:x}")) (wordlist_init (b " ")) 0 false (plain_store [] [b "1"]) = XUndef.
Proof. vm_compute. reflexivity. Qed.

(** The last path a pattern matched is matched again when IFS ends the value. *)
Example matched_twice :
  let files := [b "q1"; b "q[12]"] in
  let s x := Store (st_vars (plain_store [(b "x", x)] [])) [] default_opts false [] files in
  fst <$> fields_of 9 (b "$x") (s (b "q*")) = Some files /\
  fst <$> fields_of 9 (b "$x") (s (b "q* ")) = Some [b "q1"; b "q1"].
Proof. vm_compute. split; reflexivity. Qed.

(** Adjacent results are split one by one: the blank that ends the first is no
    part of the delimiter that begins the second. *)
Example adjacent_results :
  run "$x$y" [(b "IFS", b " :"); (b "x", b "a "); (b "y", b ":b")] [] = Some [b "a"; []; b "b"].
Proof. vm_compute. reflexivity. Qed.

(** A value that is one delimiter makes no field. *)
Example lone_delimiter : run "$x" [(b "IFS", b ":"); (b "x", b ":")] [] = Some [].
Proof. vm_compute. reflexivity. Qed.
