(* ===== verification/ExpandArith.v ===== *)
(** * Arithmetic in the expansion engine (src/expand/expand_arith.c)

    The evaluator of arithmetic expressions runs in the engine of [Expand]: its
    operands are expanded by expand_param and its assignments go to the store
    of variables.  [ExpandStoreOk] is what it asks of that store;
    [arith_env_ok] discharges the interface [ArithEnvOk] of the evaluator from
    it, through the code of expand_param. *)

From stdpp Require Import gmap.
From S2P Require Import Prelude Scan Tree VarHash ArithEval Wordlist Expand ExpandStore ExpandFields.

Import Scan Fmt.

(** What var_setv and var_setvint promise var_get; the stack of hash tables
    keeps this promise where it is the outermost table (see [VartabStore]), and
    [VartabProps.var_setv_reads_back] says when it does further in. *)
Class ExpandStoreOk (E : Type) `{ExpandEnv E} : Prop := {
  set_get : forall name v e e', is_varname name -> e_set name v e = Some e' -> e_get name e' = Some v;
  setint_get : forall name i e e', is_varname name -> i32 i = i -> e_setint name i e = Some e' -> e_get name e' = Some (fmt_long i)
}.

Lemma store_set_get name v s s' : store_set name v s = Some s' -> fst <$> st_vars s' !! name = Some v.
Proof.
  unfold store_set. destruct (st_vars s !! name) as [[? []]|]; intros; simplify_eq; cbn; by rewrite lookup_insert_eq.
Qed.

#[export] Instance store_env_ok : ExpandStoreOk store.
Proof. split; intros name v e e' W; [|intros _]; apply store_set_get. Qed.

Section Arith.
Context {E : Type} `{ExpandStoreOk E} (self : list node -> Z -> wordlist -> X E wordlist).

(** The operand [x] of an expression is the value of the variable. *)
Lemma arith_operand name v err (e : E) st : stored name -> e_get name e = Some v ->
  arith_param self (nargparam S_ARITH name None 0) (err, e, st) = (Some v, (err, e, st)).
Proof. intros [_ Or] G. cbn [arith_param]. by rewrite (expand_variable self _ _ _ v). Qed.

#[export] Instance arith_env_ok : @ArithEnvOk _ (arith_env self).
Proof.
  split; intros name v [[err e] st] s'.
  - intros St. cbn. destruct (e_set name v e) as [e'|] eqn:S; [intros [= <-]|done].
    exact (set_get _ _ _ _ (proj1 St) S).
  - intros St. cbn -[arith_param]. destruct (e_set name v e) as [e'|] eqn:S; [intros [= <-]|done].
    exact (arith_operand name v err e' st St (set_get _ _ _ _ (proj1 St) S)).
  - intros St I. cbn -[arith_param]. destruct (e_setint name v e) as [e'|] eqn:S; [intros [= <-]|done].
    exact (arith_operand name _ err e' st St (setint_get _ _ _ _ (proj1 St) I S)).
Qed.

(** C31: an assignment in [$((...))] leaves the value it has: after
    [name = e], [name += e] and the others gave [v], for every 64-bit value, the
    variable used in a later expression, where expand_param expands it, is [v],
    and so is the left operand of a later assignment to it. The name is that of
    a variable ([is_varname]) and none of RANDOM, LINENO, LINES and COLUMNS,
    whose values expand_param computes ([stored]), and the store answers the value last set ([ExpandStoreOk]), as the hash
    tables do in the outermost table ([VartabStore.table_env_ok]). *)
Theorem expand_arith_assign_reads_back (id : kind) (name : bytes) (right : option node)
    (s s' : bool * E * stopped) (v : Z) :
  let eval := @expand_arith_expr _ (arith_env self) in
  stored name -> in_i64 v -> kind_in id assign_kinds = true ->
  eval (narithbinary id (nargparam S_ARITH name None 0) right) s = AOk v s' ->
  eval (nargparam S_ARITH name None 0) s' = AOk v s' /\ @var_number _ (arith_env self) name s' = v.
Proof. intros eval St Hv Hid Run. exact (@assign_reads_back _ _ arith_env_ok id name right s s' v St Hv Hid Run). Qed.

End Arith.

(** ** Witness *)

Definition twice_x : node := narithbinary A_MUL (nargparam S_ARITH (b "x") None 0) (Some (narithnum 2 10)).

(** "y += x * 2" *)
Definition sum_y : node := narithbinary A_VADD (nargparam S_ARITH (b "y") None 0) (Some twice_x).

Definition y_17 : store := plain_store [(b "x", b " 5 "); (b "y", b "17")] [].

Lemma expand_arith_assign_reads_back_witness :
  let start := (false, plain_store [(b "x", b " 5 "); (b "y", b "7")] [], Running) in
  let env := arith_env (expand_arg 9) in
  @expand_arith_expr _ env sum_y start = AOk 17 (false, y_17, Running) /\
  @expand_arith_expr _ env (nargparam S_ARITH (b "y") None 0) (false, y_17, Running) = AOk 17 (false, y_17, Running) /\
  @var_number _ env (b "y") (false, y_17, Running) = 17.
Proof.
  cbv zeta. set (start := (_, _, _)).
  assert (R : @expand_arith_expr _ (arith_env (expand_arg 9)) sum_y start = AOk 17 (false, y_17, Running))
    by (vm_compute; reflexivity).
  split; [exact R|].
  apply (expand_arith_assign_reads_back (expand_arg 9) A_VADD (b "y") (Some twice_x) start _ 17); [by repeat split; repeat constructor| |reflexivity|exact R].
  unfold in_i64; lia.
Defined.

(** The two ways to read a variable differ on a computed name: "LINENO += 1"
    adds to the variable of that name, "LINENO" is the line. *)
Example computed_name_not_read_back :
  let start := (false, plain_store [] [], Running) in
  let env := arith_env (expand_arg 9) in
  match @expand_arith_expr _ env (narithbinary A_VASSIGN (nargparam S_ARITH (b "LINENO") None 0) (Some (narithnum 7 10))) start with
  | AOk v s => v = 7 /\ @expand_arith_expr _ env (nargparam S_ARITH (b "LINENO") None 0) s = AOk 1 s
  | _ => False
  end.
Proof. vm_compute. auto. Qed.
