(* ===== verification/VartabStore.v ===== *)
(** * The hash tables as a store of variables (src/var behind src/expand)

    What word expansion and arithmetic ask of the store of variables
    ([ExpandStoreOk]) is what the tables do where the shell is in no function
    and no subshell: [table_env] is the environment whose variables live in
    the outermost table, all else being that of [ExpandStore]. *)

From stdpp Require Import gmap.
From S2P Require Import Prelude Scan Tree ArithEval Expand ExpandStore ExpandArith VarHash Vartab VartabSearch VartabProps.

(** ** One table, and no function's *)

Definition root_ok (x : vars) : Prop := stack_ok (varstack x) /\ map t_function (varstack x) = [false].

Lemma root_table x : root_ok x -> exists t, varstack x = [t] /\ t_function t = false.
Proof. intros [_ F]. destruct (varstack x) as [|t [|u l]]; try done. exists t. split; [done|]. by injection F. Qed.

Lemma root_reachable x w : root_ok x -> reachable (varstack x) w = true.
Proof. intros (t & -> & _)%root_table. done. Qed.

Lemma root_scoped x : root_ok x -> scoped (varstack x) = true.
Proof. intros (t & -> & F)%root_table. cbn. by rewrite F. Qed.

Lemma functions_alter st n f i : map t_function (alter (with_bucket n f) i st) = map t_function st.
Proof. revert i. induction st as [|t st IH]; intros [|i]; cbn; [done..|]. f_equal. apply IH. Qed.

(** Creating and storing add and change variables, not tables. *)
Lemma create_functions st s fl st' p : create st s fl = At st' p -> map t_function st' = map t_function st.
Proof.
  assert (In : forall c ps r i, create_in st s c ps r i = At st' p -> map t_function st' = map t_function st).
  { intros c ps r i. unfold create_in. destruct (ps !! i); [|done]. intros [= <- _]. apply functions_alter. }
  unfold create. destruct (search_tables _ _ _) as [ps r].
  repeat (case_match; try done); intros E; first [by apply In in E|by injection E as <- _].
Qed.

(** var_get *)
Definition var_get (x : vars) (s : bytes) : option bytes :=
  match var_search (varstack x) s with
  | Some p => value_of <$> var_at (varstack x) (bucket s) p
  | None => None
  end.

Lemma var_get_spec x w : stack_ok (varstack x) -> is_varname w ->
  var_get x w = value_of <$> find_var w (varstack x).
Proof.
  intros K W. unfold var_get. rewrite <-(lookup_found (varstack x) w w K W (or_introl eq_refl)).
  by destruct (var_search (varstack x) w).
Qed.

(** ** Assigning in the outermost table *)

Section assign.
Context (x x' : vars) (w : bytes) (R : root_ok x) (W : is_varname w).

Lemma var_setv_root value :
  var_setv false x w value V_DEFAULT = Done x' -> root_ok x' /\ var_get x' w = Some value.
Proof.
  intros E. destruct (var_setv_runs x w w value V_DEFAULT false (proj1 R) W (or_introl eq_refl)
    (root_reachable x w R) (root_scoped x R) eq_refl) as (y & K & _ & D).
  destruct (is_readonly x w); destruct D as [D V]; rewrite E in D; [done|injection D as <-].
  destruct V as (v & F & Val). split; [|by rewrite (var_get_spec x' w K W), F; cbn; rewrite Val].
  split; [done|]. rewrite <-(proj2 R). revert E. unfold var_setv, var_create.
  destruct (create (varstack x) w V_DEFAULT) as [| |st p] eqn:C; [done..|].
  apply create_functions in C. rewrite <-C. destruct (var_at st (bucket w) p); [|done].
  destruct (flag _ V_READONLY); [done|]. intros [= <-]. apply functions_alter.
Qed.

Lemma var_setvint_root i : i32 i = i ->
  var_setvint Fmt.fmt_long x w i V_DEFAULT = Done x' -> root_ok x' /\ var_get x' w = Some (Fmt.fmt_long i).
Proof.
  intros I. unfold var_setvint, var_create. assert (Sp : spells w w) by by left.
  destruct (create_spec (varstack x) w w V_DEFAULT (proj1 R) W Sp (root_reachable x w R) (root_scoped x R) eq_refl)
    as (st & p & v & C & K & A & _ & _).
  rewrite C, (at_first_var st w p v A). destruct (flag (v_flags v) V_READONLY); [done|]. intros [= <-].
  apply create_functions in C. pose proof (var_at_first st w p v K A) as V.
  pose proof (name_length _ v V) as L. rewrite (at_name _ _ _ _ A) in L. rewrite I, <-L, firstn_all.
  set (v' := with_value v _ _ _ _). assert (N : name v' = w /\ var_ok (bucket w) v').
  { destruct (with_value_ok _ v (w ++ [ch "="] ++ Fmt.fmt_long i) true (S (List.length w))
      (is_set (Z.lor (v_flags v) V_DEFAULT)) V) as [N O].
    - rewrite <-L, take_app_length. symmetry. apply A.
    - rewrite <-L, length_app. lia.
    - split; [by rewrite <-(at_name _ _ _ _ A)|exact O]. }
  destruct N as [N O]. destruct (store_spec st w p v v' K A O N) as (K2 & A2 & _).
  unfold store. split; [split; [exact K2|]|].
  - cbn [varstack]. rewrite <-(proj2 R), <-C. apply functions_alter.
  - rewrite var_get_spec by done. cbn [varstack]. rewrite (find_var_first _ w p v' K2 A2).
    unfold value_of, v'. cbn [fmap option_fmap option_map with_value v_offset v_sa].
    replace (S (List.length w)) with (List.length (w ++ [ch "="])) by (rewrite length_app; cbn; lia).
    change (w ++ ch "=" :: Fmt.fmt_long i) with (w ++ [ch "="] ++ Fmt.fmt_long i).
    by rewrite app_assoc, drop_app_length.
Qed.
End assign.

(** ** The environment *)

Record tables := Tables { tb_vars : vars; tb_ok : root_ok tb_vars; tb_rest : ExpandStore.store }.

(** The tables after a call that ended well, with the value the name has then *)
Definition assigned_in (e : tables) (w value : bytes) (call : vars -> done)
    (ok : forall x', call (tb_vars e) = Done x' -> root_ok x' /\ var_get x' w = Some value) : option tables :=
  match call (tb_vars e) as r return (call (tb_vars e) = r -> option tables) with
  | Done x' => fun E => Some (Tables x' (proj1 (ok x' E)) (tb_rest e))
  | _ => fun _ => None
  end eq_refl.

Lemma assigned_in_get e w value call ok e' :
  assigned_in e w value call ok = Some e' -> var_get (tb_vars e') w = Some value.
Proof.
  assert (G : forall r (E : call (tb_vars e) = r),
    match r as r return (call (tb_vars e) = r -> option tables) with
    | Done x' => fun E => Some (Tables x' (proj1 (ok x' E)) (tb_rest e))
    | _ => fun _ => None
    end E = Some e' -> var_get (tb_vars e') w = Some value).
  { intros [x'| | |] E; try done. intros [= <-]. by apply ok. }
  apply G.
Qed.

(** Words that are no names are refused here; nothing is claimed of what the
    tables do with them. *)
Definition table_set (w value : bytes) (e : tables) : option tables :=
  match decide (is_varname w) with
  | left W => assigned_in e w value (fun x => var_setv false x w value V_DEFAULT)
      (fun x' => var_setv_root (tb_vars e) x' w (tb_ok e) W value)
  | right _ => None
  end.

Definition table_setint (w : bytes) (i : Z) (e : tables) : option tables :=
  match decide (is_varname w), decide (i32 i = i) with
  | left W, left Hi => assigned_in e w (Fmt.fmt_long i) (fun x => var_setvint Fmt.fmt_long x w i V_DEFAULT)
      (fun x' => var_setvint_root (tb_vars e) x' w (tb_ok e) W i Hi)
  | _, _ => None
  end.

#[export] Instance table_env : ExpandEnv tables := {
  e_get := fun name e => var_get (tb_vars e) name;
  e_set := table_set;
  e_setint := table_setint;
  e_random := fun _ => None;
  e_line := fun e => e_line (tb_rest e);
  e_rows := fun e => e_rows (tb_rest e);
  e_cols := fun e => e_cols (tb_rest e);
  e_args := fun e => e_args (tb_rest e);
  e_argv0 := fun e => e_argv0 (tb_rest e);
  e_exitcode := fun e => e_exitcode (tb_rest e);
  e_bgpid := fun e => e_bgpid (tb_rest e);
  e_pid := fun e => e_pid (tb_rest e);
  e_opts := fun e => e_opts (tb_rest e);
  e_interactive := fun e => e_interactive (tb_rest e);
  e_message := fun text e => Tables (tb_vars e) (tb_ok e) (store_message text (tb_rest e));
  e_output := fun _ e => ([], e);
  e_glob := fun e => e_glob (tb_rest e);
  e_pwuid := fun e => e_pwuid (tb_rest e);
  e_pwnam := fun e => e_pwnam (tb_rest e);
  e_pow := exact_pow
}.

(** The tables keep the promise, through [var_setv_runs] and the search. *)
#[export] Instance table_env_ok : ExpandStoreOk tables.
Proof.
  split.
  - intros name v e e' W. cbn. unfold table_set. destruct (decide (is_varname name)); [|done].
    apply assigned_in_get.
  - intros name i e e' W I. cbn. unfold table_setint.
    destruct (decide (is_varname name)), (decide (i32 i = i)); try done. apply assigned_in_get.
Qed.
