(* ===== verification/EvalState.v ===== *)
(** * The state of the evaluator (src/eval.h, src/sh.h, eval_push, eval_pop, eval_jump,
    eval_return, eval_exit, sh_push, sh_pop, sh_exit)

    The stack of [struct eval] frames is a list from the outermost frame on;
    a pointer to a frame is its index, [eval] is the last one.  [setjmp] and
    [longjmp] are outcomes: a jump names the frame whose buffer it uses and
    the value it delivers.  Everything an evaluation does besides (words,
    variables, descriptors, processes) is the operations of the class
    [World]. *)

From S2P Require Import Prelude Tree.

(** ** Flags *)

Definition E_EXIT : Z := 0x1.
Definition E_ROOT : Z := 0x2.
Definition E_BQUOTE : Z := 0x4.
Definition E_JCTL : Z := 0x8.
Definition E_LIST : Z := 0x10.
Definition E_FUNCTION : Z := 0x20.
Definition E_LOOP : Z := 0x40.
Definition E_PRINT : Z := 0x80.
Definition E_DEBUG : Z := 0x100.
Definition E_EVAL : Z := 0x200.
Definition E_SOURCE : Z := 0x400.

(** ** What lies outside the evaluator *)

(** What an expansion leaves: the words, also those in front of an error; the
    status of the last "$(...)"; expand_error; and the argument where it called
    sh_exit. *)
Record expanded := Expanded {
  x_words : list bytes;
  x_subst : option Z;
  x_error : bool;
  x_exit : option Z
}.

Definition Words (ws : list bytes) (subst : option Z) : expanded := Expanded ws subst false None.

Inductive builtin_class := B_EXEC | B_SPECIAL | B_DEFAULT.

(** A builtin that runs commands itself (env, xargs, find, timeout) may end in
    a break, continue, return or exit of those commands. *)
Inductive leaving := Leave_loops (levels : Z) (cont : bool) | Leave_function (value : Z) | Leave_shell (code : Z).

(** How a builtin that is not part of the evaluator ends. *)
Record builtin_end := BuiltinEnd {
  b_status : Z;
  b_errexit : option bool;   (* "set -e" and "set +e" *)
  b_leave : option leaving
}.

(** The end of parsed input: a newline, the end of file right behind the last
    command, or a syntax error. *)
Inductive input_end := EndLine | EndFile | EndError.

Class World (W : Type) := {
  (* fdstack, varstack, source, expand_arena *)
  wmark : Type;
  mark : W -> wmark;
  unwind : wmark -> W -> W;
  (* expand_args; expand_catsa of a case word or pattern; $? is passed along *)
  w_expand_args : Z -> list node -> W -> expanded * W;
  w_expand_text : bool -> Z -> option node -> W -> expanded * W;
  w_positional : W -> list bytes;
  w_set_var : bytes -> bytes -> W -> W;
  (* expand_vars; var_setsa (exported, local): false is a readonly variable *)
  w_expand_vars : Z -> list node -> W -> expanded * W;
  w_setsa : bool -> bool -> bytes -> W -> bool * W;
  w_vars_enter : bool -> W -> W;
  w_vars_leave : W -> W;
  (* fdstack_push; the word of a redirection; redir_eval behind it (persistent,
     R_NOW), true when it failed; fdstack_pop *)
  w_redir_enter : W -> W;
  w_redir_word : Z -> node -> W -> expanded * W;
  w_redirect : bool -> bool -> node -> bytes -> W -> bool * W;
  w_redir_leave : W -> W;
  w_subshell_enter : W -> W;
  w_subshell_leave : W -> W -> W;      (* before, after *)
  w_call_enter : list bytes -> W -> W;
  w_call_leave : W -> W;
  (* builtin_search, exec_path, the remaining builtins, exec_program *)
  w_builtin_class : bytes -> option builtin_class;
  w_executable : bytes -> W -> bool;
  w_open : W -> bool * W;              (* fdtable_open of fd_in, fd_out, fd_err; exec_redir_error *)
  w_write_reset : W -> W;              (* fd_write_errno = 0 *)
  w_write_error : W -> bool;           (* fd_write_errno != 0 *)
  w_builtin : bytes -> list bytes -> Z -> W -> builtin_end * W;
  w_program : bool -> list bytes -> W -> Z * W;
  w_not_found : bytes -> W -> Z * W;
  (* "command": -v, -V and wrong options; PATH set for -p and set back to what
     it was before; the message and exec_error *)
  w_describe : list bytes -> W -> Z * W;
  w_stdpath : W -> W;
  w_oldpath : W -> W -> W;
  w_exec_error : bytes -> W -> Z * W;
  (* job_fork of a command, eval_pipeline *)
  w_background : node -> W -> Z * W;
  w_background_cmd : list bytes -> W -> Z * W;
  w_pipeline : list node -> Z -> W -> Z * W;
  w_time_report : bool -> W -> W;
  (* parse_list over a text, over a file (true: its size is 0) *)
  w_parse : bytes -> list (list node) * input_end;
  w_file : bytes -> W -> option (bool * list (list node) * input_end);
  w_source_enter : list bytes -> W -> W;
  w_source_leave : list bytes -> W -> W;
  w_assert : bool                      (* compiled without NDEBUG *)
}.

Section State.
Context {W : Type} `{World W}.

(** ** State *)

Record frame := Frame {
  f_flags : Z;
  f_exitcode : Z;
  f_mark : wmark;          (* fdstack, varstack, source, apos, pool *)
  f_jump : bool;
  f_pending : Z;
  f_pendcont : bool
}.

Record env := Env {
  v_exitcode : Z;
  v_cmdsubst_ran : bool;
  v_errexit : bool;        (* opts.errexit *)
  v_function : bool        (* sh->eval is the frame of a function call *)
}.

Record shell := Shell {
  s_frames : list frame;
  s_env : env;             (* sh *)
  s_parents : list env;    (* sh->parent, ... *)
  s_suppress : Z;          (* errexit_suppress *)
  s_functions : list (bytes * option node);
  s_interactive : bool;    (* sh_interactive *)
  s_via : Z;               (* exec_via_command *)
  s_world : W
}.

Definition with_frames (x : list frame) (s : shell) : shell :=
  Shell x (s_env s) (s_parents s) (s_suppress s) (s_functions s) (s_interactive s) (s_via s) (s_world s).
Definition with_env (v : env) (s : shell) : shell :=
  Shell (s_frames s) v (s_parents s) (s_suppress s) (s_functions s) (s_interactive s) (s_via s) (s_world s).
Definition with_envs (v : env) (l : list env) (s : shell) : shell :=
  Shell (s_frames s) v l (s_suppress s) (s_functions s) (s_interactive s) (s_via s) (s_world s).
Definition with_suppress (n : Z) (s : shell) : shell :=
  Shell (s_frames s) (s_env s) (s_parents s) n (s_functions s) (s_interactive s) (s_via s) (s_world s).
Definition with_functions (l : list (bytes * option node)) (s : shell) : shell :=
  Shell (s_frames s) (s_env s) (s_parents s) (s_suppress s) l (s_interactive s) (s_via s) (s_world s).
Definition with_via (n : Z) (s : shell) : shell :=
  Shell (s_frames s) (s_env s) (s_parents s) (s_suppress s) (s_functions s) (s_interactive s) n (s_world s).
Definition with_world (w : W) (s : shell) : shell :=
  Shell (s_frames s) (s_env s) (s_parents s) (s_suppress s) (s_functions s) (s_interactive s) (s_via s) w.

(** ** Outcomes *)

Inductive outcome (A : Type) :=
  | Ret (a : A) (s : shell)
  | Jump (t : nat) (v : Z) (s : shell)   (* longjmp(frame t, v) *)
  | Exit (code : Z) (s : shell)          (* exit(code) *)
  | Abort                                (* assert(e == eval) fails *)
  | NoFuel.

Definition M (A : Type) : Type := shell -> outcome A.

End State.

Arguments Ret {W H A}.
Arguments Jump {W H A}.
Arguments Exit {W H A}.
Arguments Abort {W H A}.
Arguments NoFuel {W H A}.
Arguments M W {H} A.
Arguments frame W {H}.
Arguments shell W {H}.

Declare Scope eval_scope.
Delimit Scope eval_scope with eval.

Section Monad.
Context {W : Type} `{World W}.

Definition ret {A} (a : A) : M W A := fun s => Ret a s.
Definition bind {A B} (m : M W A) (k : A -> M W B) : M W B := fun s =>
  match m s with
  | Ret a s => k a s
  | Jump t v s => Jump t v s
  | Exit c s => Exit c s
  | Abort => Abort
  | NoFuel => NoFuel
  end.
Definition get {A} (f : shell W -> A) : M W A := fun s => Ret (f s) s.
Definition put (f : shell W -> shell W) : M W unit := fun s => Ret tt (f s).

(** [setjmp] in frame [t]: [m] is the path on which it returns 0. *)
Definition setjmp {A} (t : nat) (m : M W A) (h : Z -> M W A) : M W A := fun s =>
  match m s with
  | Jump t' v s => if (t' =? t)%nat then h v s else Jump t' v s
  | r => r
  end.

(** An operation of the world that yields a value *)
Definition world {A} (f : W -> A * W) : M W A := fun s =>
  let '(a, w) := f (s_world s) in Ret a (with_world w s).
Definition world_ (f : W -> W) : M W unit := put (fun s => with_world (f (s_world s)) s).

End Monad.

Notation "x <- m ;; k" := (bind m (fun x => k))
  (at level 100, m at next level, k at level 200, right associativity) : eval_scope.
Notation "m ;; k" := (bind m (fun _ => k))
  (at level 100, k at level 200, right associativity) : eval_scope.
#[global] Open Scope eval_scope.

Section Ops.
Context {W : Type} `{World W}.

(** ** Frames *)

Definition no_frame (w : W) : frame W := Frame 0 0 (mark w) false 0 false.

Definition frame_at (e : nat) (s : shell W) : frame W :=
  default (no_frame (s_world s)) (s_frames s !! e).

Definition update (e : nat) (f : frame W -> frame W) : M W unit :=
  put (fun s => with_frames (alter f e (s_frames s)) s).

Definition with_flags (x : Z) (f : frame W) : frame W :=
  Frame x (f_exitcode f) (f_mark f) (f_jump f) (f_pending f) (f_pendcont f).
Definition with_exitcode (x : Z) (f : frame W) : frame W :=
  Frame (f_flags f) (i16 x) (f_mark f) (f_jump f) (f_pending f) (f_pendcont f).
Definition with_jump (f : frame W) : frame W :=
  Frame (f_flags f) (f_exitcode f) (f_mark f) true (f_pending f) (f_pendcont f).
Definition with_pending (n : Z) (c : bool) (f : frame W) : frame W :=
  Frame (f_flags f) (f_exitcode f) (f_mark f) (f_jump f) n c.

Definition flags_of (e : nat) : M W Z := get (fun s => f_flags (frame_at e s)).
Definition exitcode_of (e : nat) : M W Z := get (fun s => f_exitcode (frame_at e s)).
Definition set_flags (e : nat) (x : Z) : M W unit := update e (with_flags x).
Definition set_exitcode (e : nat) (x : Z) : M W unit := update e (with_exitcode x).

(** The new frame's index; xtrace (E_PRINT) is off. *)
Definition eval_push (flags : Z) : M W nat := fun s =>
  Ret (List.length (s_frames s))
    (with_frames (s_frames s ++ [Frame flags 0 (mark (s_world s)) false 0 false]) s).

Definition eval_pop (e : nat) : M W Z := fun s =>
  if w_assert && negb (List.length (s_frames s) =? S e)%nat then Abort
  else
    let f := frame_at e s in
    Ret (f_exitcode f)
      (with_frames (take e (s_frames s)) (with_world (unwind (f_mark f) (s_world s)) s)).

(** ** Environments *)

Definition sh_exitcode : M W Z := get (fun s => v_exitcode (s_env s)).
Definition set_sh_exitcode (x : Z) : M W unit := put (fun s =>
  let v := s_env s in
  with_env (Env (i16 x) (v_cmdsubst_ran v) (v_errexit v) (v_function v)) s).
Definition set_cmdsubst_ran (x : bool) : M W unit := put (fun s =>
  let v := s_env s in with_env (Env (v_exitcode v) x (v_errexit v) (v_function v)) s).
Definition set_errexit (x : bool) : M W unit := put (fun s =>
  let v := s_env s in with_env (Env (v_exitcode v) (v_cmdsubst_ran v) x (v_function v)) s).

(** The options are inherited, the status is not. *)
Definition sh_push : M W unit := put (fun s =>
  with_envs (Env 0 false (v_errexit (s_env s)) false) (s_env s :: s_parents s) s).

Definition sh_pop : M W unit := put (fun s =>
  match s_parents s with
  | [] => s
  | v :: l => with_envs v l s
  end).

Fixpoint pops (n : nat) (s : shell W) : shell W :=
  match n with
  | O => s
  | S n => pops n (match s_parents s with [] => s | v :: l => with_envs v l s end)
  end.

(** ** Jumps *)

(** The frames from the innermost on, with their indices *)
Fixpoint indexed (i : nat) (l : list (frame W)) : list (nat * frame W) :=
  match l with [] => [] | f :: l => (i, f) :: indexed (S i) l end.
Definition inner_first (s : shell W) : list (nat * frame W) := rev (indexed 0 (s_frames s)).

(** Unwinding to frame [t] *)
Definition jump_to {A} (t : nat) (v : Z) (s : shell W) : outcome A :=
  Jump t v (with_frames (take (S t) (s_frames s))
             (with_world (unwind (f_mark (frame_at t s)) (s_world s)) s)).

(** The search of eval_jump: the loop found so far, the levels left, and the
    "." frame met before any loop. *)
Fixpoint find_loop (l : list (nat * frame W)) (levels : Z) (j : option nat)
    : option nat * Z * option nat :=
  match l with
  | [] => (j, levels, None)
  | (i, f) :: l =>
      if levels <=? 0 then (j, levels, None)
      else if has (f_flags f) E_SOURCE then (j, levels, match j with None => Some i | _ => None end)
      else if has (f_flags f) E_FUNCTION || (Z.land (f_flags f) (Z.lor E_ROOT E_EVAL) =? E_ROOT)
        then (j, levels, None)
      else if f_jump f && has (f_flags f) E_LOOP then find_loop l (levels - 1) (Some i)
      else find_loop l levels j
  end.

Definition eval_jump (levels : Z) (cont : bool) : M W unit := fun s =>
  match find_loop (inner_first s) levels None with
  | (Some j, _, _) => jump_to j (if cont then 2 else 1) s   (* longjmp(buf, 0) delivers 1 *)
  | (None, levels, Some sf) =>
      Jump sf 1 (with_frames (alter (with_pending levels cont) sf (s_frames s)) s)
  | (None, _, None) => Ret tt s
  end.

(** The value a buffer gets: 0 is delivered as 1. *)
Definition longjmp_value (v : Z) : Z := if v =? 0 then 1 else v.

Fixpoint find_return (l : list (nat * frame W)) : option nat :=
  match l with
  | [] => None
  | (i, f) :: l =>
      if f_jump f && has (f_flags f) (Z.lor E_FUNCTION E_ROOT) then Some i else find_return l
  end.

Definition eval_return (value : Z) : M W unit := fun s =>
  match find_return (inner_first s) with
  | Some f => jump_to f (longjmp_value (Z.shiftl value 1)) s
  | None => Ret tt s
  end.

(** The frame, and how many function calls are left on the way. *)
Fixpoint find_root (l : list (nat * frame W)) (calls : nat) : option nat * nat :=
  match l with
  | [] => (None, calls)
  | (i, f) :: l =>
      if f_jump f && has (f_flags f) E_ROOT then (Some i, calls)
      else find_root l (if has (f_flags f) E_FUNCTION then S calls else calls)
  end.

Definition eval_exit (exitcode : Z) : M W unit := fun s =>
  match find_root (inner_first s) 0 with
  | (Some e, calls) =>
      let s := pops calls s in
      jump_to e (Z.lor (Z.shiftl exitcode 1) 1)
        (with_frames (alter (with_exitcode exitcode) e (s_frames s)) s)
  | (None, calls) => Ret tt (pops calls s)
  end.

(** sh_exit comes back only when the environment is that of a subshell whose
    frame has no jump buffer. *)
Definition at_root (s : shell W) : bool :=
  (List.length (filter (fun v => negb (v_function v) = true) (s_env s :: s_parents s)) <=? 1)%nat.

Definition sh_exit (retcode : Z) : M W unit := fun s =>
  match eval_exit retcode s with
  | Ret _ s' => if at_root s then Exit retcode s' else Ret tt s'
  | r => r
  end.

(** "set -e", after a command of kind [k] with status [st] *)
Definition errexit_exempt (k : kind) : bool :=
  kind_in k [N_NOT; N_AND; N_OR; N_BRACEGROUP; N_IF; N_FOR; N_CASE; N_WHILE; N_UNTIL; N_LIST].

Definition errexit_check (k : kind) (st : Z) : M W unit := fun s =>
  if v_errexit (s_env s) && negb (st =? 0) && (s_suppress s =? 0) && negb (errexit_exempt k)
  then sh_exit st s else Ret tt s.

Definition suppressed {A} (m : M W A) : M W A :=
  put (fun s => with_suppress (s_suppress s + 1) s) ;;
  a <- m ;;
  put (fun s => with_suppress (s_suppress s - 1) s) ;;
  ret a.

End Ops.
