(* ===== verification/Eval.v ===== *)
(** * The evaluator (src/eval, src/exec/exec_command.c, exec_search.c, and the
    builtins break, continue, return, exit, eval, command and ".")

    One definition per C function, mutually recursive and fuelled.  [e] is the
    index of the frame the C code passes as [struct eval* e]; loops run their
    body in the caller's frame, with their own on top. *)

From S2P Require Import Prelude CStr Scan Tree Fnmatch Getopt EvalState.

Section Eval.
Context {W : Type} `{World W}.

(** ** Commands *)

Inductive command :=
  | H_EXEC (name : bytes)
  | H_SBUILTIN (name : bytes)
  | H_BUILTIN (name : bytes)
  | H_FUNCTION (body : node)
  | H_PROGRAM (path : bytes)
  | H_NONE.                       (* cmd.ptr == NULL *)

Definition find_function (name : bytes) (l : list (bytes * option node)) : option (option node) :=
  snd <$> List.find (fun d => bool_decide (fst d = name)) l.

(** exec_search, behind the path test of exec_hash; its cache is transparent.
    [functions] is false under the mask H_FUNCTION. *)
Definition exec_search (functions : bool) (name : bytes) (s : shell W) : command :=
  let default_or_program :=
    match w_builtin_class name with
    | Some B_DEFAULT => H_BUILTIN name
    | _ => if w_executable name (s_world s) then H_PROGRAM name else H_NONE
    end in
  if existsb (Z.eqb (ch "/")) name then
    if w_executable name (s_world s) then H_PROGRAM name else H_NONE
  else
    match w_builtin_class name with
    | Some B_EXEC => H_EXEC name
    | Some B_SPECIAL => H_SBUILTIN name
    | _ =>
        match find_function name (s_functions s) with
        | Some (Some body) => if functions then H_FUNCTION body else default_or_program
        | _ => default_or_program
        end
    end.

(** eval_function: the copy goes in front, a former definition out. *)
Fixpoint remove_function (name : bytes) (l : list (bytes * option node)) : list (bytes * option node) :=
  match l with
  | [] => []
  | d :: l => if bool_decide (fst d = name) then l else d :: remove_function name l
  end.

Definition eval_function (name : bytes) (body : option node) : M W Z :=
  put (fun s => with_functions ((name, copy_opt tree_copy body) :: remove_function name (s_functions s)) s) ;;
  ret 0.

(** ** Expansion steps *)

(** The words, and expand_error.  Where sh_exit comes back the expansion goes
    on as after an error. *)
Definition take_words (x : expanded) : M W (list bytes * bool) :=
  (match x_subst x with
   | Some v => set_sh_exitcode v ;; set_cmdsubst_ran true
   | None => ret tt
   end) ;;
  (match x_exit x with Some status => sh_exit status | None => ret tt end) ;;
  ret (x_words x, x_error x).

Definition expanding (f : Z -> W -> expanded * W) : M W (list bytes * bool) :=
  st <- sh_exitcode ;;
  x <- world (f st) ;;
  take_words x.

Definition first_word (ws : list bytes * bool) : bytes := default [] (head (fst ws)).

Definition expand_args (args : list node) : M W (list bytes * bool) := expanding (fun st => w_expand_args st args).

Definition expand_catsa (pattern : bool) (word : option node) : M W bytes :=
  ws <- expanding (fun st => w_expand_text pattern st word) ;;
  ret (first_word ws).

(** redir_eval *)
Definition redir_eval (persistent now : bool) (r : node) : M W bool :=
  ws <- expanding (fun st => w_redir_word st r) ;;
  world (w_redirect persistent now r (first_word ws)).

(** The redirections of a command, up to the first that fails *)
Fixpoint redir_loop (persistent now : bool) (rs : list node) : M W bool :=
  match rs with
  | [] => ret false
  | r :: rs =>
      failed <- redir_eval persistent now r ;;
      if failed then ret true else redir_loop persistent now rs
  end.

(** The assignments in front of a command, up to the first that is refused *)
Fixpoint assign_loop (export local : bool) (assigns : list bytes) : M W bool :=
  match assigns with
  | [] => ret true
  | sa :: assigns =>
      done <- world (w_setsa export local sa) ;;
      if done then assign_loop export local assigns else ret false
  end.

(** ** Lists *)

(** The loop of eval_tree *)
Fixpoint tree_loop (run : node -> M W Z) (e : nat) (islist ex : bool) (nodes : list node) (r : Z) : M W Z :=
  match nodes with
  | [] => ret r
  | n :: rest =>
      fl <- flags_of e ;;
      (if ex && (negb islist || (List.length rest =? 0)%nat)
       then set_flags e (set fl E_EXIT) else ret tt) ;;
      r <- run n ;;
      set_exitcode e r ;;
      errexit_check (node_id n) r ;;
      if negb islist then ret r else tree_loop run e islist ex rest r
  end.

(** The loop of eval_cmdlist *)
Fixpoint cmdlist_loop (run : node -> M W Z) (e : nat) (ex : bool) (nodes : list node) (r : Z) : M W Z :=
  match nodes with
  | [] => ret r
  | n :: rest =>
      fl <- flags_of e ;;
      (if ex && (List.length rest =? 0)%nat then set_flags e (set fl E_EXIT) else ret tt) ;;
      r <- run n ;;
      set_sh_exitcode r ;;
      fl <- flags_of e ;;
      set_flags e (clear fl E_EXIT) ;;
      errexit_check (node_id n) r ;;
      cmdlist_loop run e ex rest r
  end.

(** The for loop of eval_for; [en] is its frame.  The value tells whether the
    body ran. *)
Fixpoint for_loop (body : M W Z) (varn : bytes) (en : nat) (ws : list bytes) (ran : bool) : M W bool :=
  match ws with
  | [] => ret ran
  | w :: ws =>
      r <- setjmp en
             (world_ (w_set_var varn w) ;; body ;; ret (inl tt))
             (fun v => ret (inr v)) ;;
      match r with
      | inl _ => for_loop body varn en ws true
      | inr v => if v =? 2 then for_loop body varn en ws ran else ret ran
      end
  end.

(** The patterns of one case node: does one match the word? *)
Fixpoint case_pats (pats : list node) (word : bytes) : M W bool :=
  match pats with
  | [] => ret false
  | p :: pats =>
      pattern <- expand_catsa true (Some p) ;;
      match path_fnmatch pattern word 0 with
      | Some r => if r =? 0 then ret true else case_pats pats word
      | None => ret false
      end
  end.

Fixpoint case_loop (run : list node -> M W Z) (cases : list node) (word : bytes) : M W Z :=
  match cases with
  | [] => ret 0
  | ncasenode pats cmds :: cases =>
      found <- case_pats pats word ;;
      if found then run cmds else case_loop run cases word
  | _ :: cases => case_loop run cases word
  end.

Fixpoint join_args (args : list bytes) : bytes :=
  match args with
  | [] => []
  | [a] => a ++ [10]
  | a :: args => a ++ [32] ++ join_args args
  end.

(** sh_loop over the commands of a file: [run] is eval_tree *)
Fixpoint sh_loop (run : nat -> list node -> Z -> M W Z) (cmds : list (list node)) (ending : input_end)
    : M W unit :=
  match cmds with
  | [] =>
      match ending with
      | EndError =>
          inter <- get s_interactive ;;
          if inter then ret tt else sh_exit 1
      | _ => ret tt
      end
  | nodes :: cmds =>
      top <- get (fun s => last (s_frames s)) ;;
      let under_source := match top with Some f => has (f_flags f) E_SOURCE | None => false end in
      e <- eval_push E_JCTL ;;
      run e nodes (set (set E_ROOT E_LIST) (if under_source then E_EVAL else 0)) ;;
      st <- eval_pop e ;;
      set_sh_exitcode st ;;
      match cmds, ending with
      | [], EndFile =>
          inter <- get s_interactive ;;
          if inter then ret tt else sh_exit (i16 st)
      | _, _ => sh_loop run cmds ending
      end
  end.

(** The commands builtin_eval parses from its text *)
Fixpoint eval_loop_text (run : list node -> M W Z) (cmds : list (list node)) : M W unit :=
  match cmds with
  | [] => ret tt
  | nodes :: cmds => run nodes ;; eval_loop_text run cmds
  end.

(** ** Builtins that steer the evaluation *)

Definition builtin_break (name : bytes) (args : list bytes) : M W Z :=
  let n := match args with a :: _ => snd (Scan.scan_uint a 1) | [] => 1 end in
  if n =? 0 then ret 1
  else eval_jump (i32 n) (chd name =? ch "c") ;; ret 0.

Definition builtin_return (args : list bytes) : M W Z :=
  st <- sh_exitcode ;;
  match args with
  | a :: _ =>
      let '(k, v) := Scan.scan_uint a (Z.land st 0xff) in
      if (k =? 0)%nat then ret 1 else eval_return (i32 v) ;; ret 0
  | [] => eval_return (Z.land st 0xff) ;; ret 0
  end.

Definition builtin_exit (args : list bytes) : M W Z :=
  st <- sh_exitcode ;;
  sh_exit (Z.land (match args with a :: _ => snd (Scan.scan_int a 0) | [] => st end) 0xff) ;;
  ret 0.

Definition is_name (name : bytes) (s : string) : bool := bool_decide (name = b s).

(** exec_status_passthru *)
Definition exec_status_passthru (name : bytes) : bool :=
  is_name name "." || is_name name "source" || is_name name "eval" || is_name name "trap".

(** What eval_simple_command learns about the command before it runs it *)
Definition is_special (c : command) : bool :=
  match c with H_SBUILTIN _ | H_EXEC _ => true | _ => false end.
Definition is_found (c : command) : bool := match c with H_NONE => false | _ => true end.

Definition is_exec (c : command) : bool := match c with H_EXEC _ => true | _ => false end.

(** The words behind "-p" and "--" *)
Fixpoint skip_command_options (args : list bytes) : list bytes :=
  match args with
  | a :: args' => if str_equal a (b "-p") || str_equal a (b "--") then skip_command_options args' else args
  | [] => []
  end.

(** The command of a list of words: "command [-p] [--] exec ..." is "exec ...".
    The command, its words and via_command *)
Definition command_of (ws : list bytes) (s : shell W) : command * list bytes * bool :=
  match ws with
  | [] => (H_NONE, [], false)
  | name :: args =>
      let cmd := exec_search true name s in
      match cmd with
      | H_BUILTIN x =>
          if is_name x "command" then
            match skip_command_options args with
            | w :: rest =>
                if str_equal w (b "exec") then
                  let cmd := exec_search false (b "exec") s in
                  if is_exec cmd then (cmd, w :: rest, true) else (cmd, ws, false)
                else (cmd, ws, false)
            | [] => (cmd, ws, false)
            end
          else (cmd, ws, false)
      | _ => (cmd, ws, false)
      end
  end.

(** The options of builtin_command, read by shell_getopt: -p; -v or -V; the
    index of the name.  None: an invalid option, or --help *)
Fixpoint command_options (fuel : nat) (argv : list bytes) (st : optstate) (p d : bool) : option (bool * bool * nat) :=
  match fuel with
  | O => None
  | S fuel =>
      match shell_getopt_r argv st (b "pvV") with
      | Some (c, st) =>
          if c <=? 0 then Some (p, d, st_ind st)
          else if c =? ch "p" then command_options fuel argv st true d
          else if (c =? ch "v") || (c =? ch "V") then command_options fuel argv st p true
          else None
      | None => None
      end
  end.

(** exec_command sets shell_optind to 1; more steps than bytes and words *)
Definition options_of_command (argv : list bytes) : option (bool * bool * nat) :=
  command_options (S (List.length (concat argv) + List.length argv)) argv (with_pos 1 0 shell_opt) false false.

Definition EXIT_NOEXEC : Z := 126.

(** A builtin that ran commands passes their jump on. *)
Definition leave (l : leaving) : M W unit :=
  match l with
  | Leave_loops levels cont => eval_jump levels cont
  | Leave_function value => eval_return value
  | Leave_shell code => sh_exit code
  end.


Definition out_of_fuel {A} : M W A := fun _ => NoFuel.

(** ** The evaluator *)

Fixpoint eval_tree (fuel : nat) (e : nat) (nodes : list node) (tempflags : Z) {struct fuel} : M W Z :=
  match fuel with
  | O => out_of_fuel
  | S f =>
      fl <- flags_of e ;;
      let all := set fl tempflags in
      let islist := has all E_LIST in
      let ex := has all E_EXIT in
      set_flags e (clear (clear all E_LIST) E_EXIT) ;;
      r <- tree_loop (eval_node_bgnd f e) e islist ex nodes 0 ;;
      (if ex then sh_exit r else ret tt) ;;
      ret r
  end

with eval_cmdlist (fuel : nat) (e : nat) (cmds : list node) {struct fuel} : M W Z :=
  match fuel with
  | O => out_of_fuel
  | S f =>
      fl <- flags_of e ;;
      let ex := has fl E_EXIT in
      set_flags e (clear fl E_EXIT) ;;
      r <- cmdlist_loop (eval_node_bgnd f e) e ex cmds 0 ;;
      (if ex then sh_exit r else ret tt) ;;
      ret r
  end

with eval_node_bgnd (fuel : nat) (e : nat) (n : node) {struct fuel} : M W Z :=
  match fuel with
  | O => out_of_fuel
  | S f =>
      if is_id n N_SIMPLECMD || negb (node_bgnd n) then eval_node f e n
      else world (w_background n)
  end

with eval_node (fuel : nat) (e : nat) (n : node) {struct fuel} : M W Z :=
  match fuel with
  | O => out_of_fuel
  | S f =>
      match n with
      | ncmd bgnd rdir vars args => eval_simple_command f e bgnd rdir vars args
      | nfunc name body => eval_function name body
      | ngrp id _ _ cmds =>
          if kind_eqb id N_LIST then eval_cmdlist f e cmds
          else if kind_in id [N_BRACEGROUP; N_SUBSHELL] then eval_command f e n
          else ret 0
      | nif _ _ _ _ _ | nfor _ _ _ _ _ _ | ncase _ _ _ _ | nloop _ _ _ _ _ => eval_command f e n
      | npipe _ cmds => st <- sh_exitcode ;; world (w_pipeline cmds st)
      | ntime _ posix pipeline => eval_time f e posix pipeline
      | nandor id _ l r => eval_and_or f e id l (Some r)
      | nnot _ pipeline => eval_and_or f e N_NOT pipeline None
      | _ => ret 0
      end
  end

with eval_and_or (fuel : nat) (e : nat) (id : kind) (l : node) (r : option node) {struct fuel} : M W Z :=
  match fuel with
  | O => out_of_fuel
  | S f =>
      st <- suppressed (eval_tree f e [l] 0) ;;
      st <- (match r with
             | Some r =>
                 if (kind_eqb id N_AND && (st =? 0)) || (kind_eqb id N_OR && negb (st =? 0))
                 then eval_tree f e [r] 0 else ret st
             | None => ret st
             end) ;;
      ret (if kind_eqb id N_NOT then c_bool (st =? 0) else st)
  end

with eval_time (fuel : nat) (e : nat) (posix : bool) (pipeline : node) {struct fuel} : M W Z :=
  match fuel with
  | O => out_of_fuel
  | S f =>
      r <- suppressed (eval_tree f e [pipeline] 0) ;;
      world_ (w_time_report posix) ;;
      ret r
  end

with eval_command (fuel : nat) (e : nat) (n : node) {struct fuel} : M W Z :=
  match fuel with
  | O => out_of_fuel
  | S f =>
      oldflags <- flags_of e ;;
      let redir := match n with
                   | ngrp _ _ r _ | nif _ r _ _ _ | nfor _ _ r _ _ _ | ncase _ r _ _ | nloop _ _ r _ _ => r
                   | _ => []
                   end in
      failed <- (match redir with
                 | [] => ret false
                 | _ =>
                     world_ w_redir_enter ;;
                     redir_loop false true redir
                 end) ;;
      r <- (if failed then ret 1
            else
              match n with
              | nif _ _ c0 c1 t => fl <- flags_of e ;; eval_if f e (has fl E_EXIT) t c0 c1
              | nfor _ has_in _ cmds args varn => eval_for f e has_in args varn cmds
              | ncase _ _ cases word => eval_case f e word cases
              | nloop id _ _ cmds t => eval_loop f e id t cmds
              | ngrp id _ _ cmds =>
                  if kind_eqb id N_SUBSHELL then eval_subshell f cmds
                  else if kind_eqb id N_BRACEGROUP then eval_cmdlist f e cmds
                  else ret 1
              | _ => ret 1
              end) ;;
      set_flags e oldflags ;;
      (match redir with [] => ret tt | _ => world_ w_redir_leave end) ;;
      ret r
  end

(** [elif:]; [ex] is the E_EXIT the function was entered with.  The else part
    is taken for an elif when its first command is an [if]. *)
with eval_if (fuel : nat) (e : nat) (ex : bool) (t c0 c1 : list node) {struct fuel} : M W Z :=
  match fuel with
  | O => out_of_fuel
  | S f =>
      r <- suppressed (
             fl <- flags_of e ;;
             set_flags e (clear fl E_EXIT) ;;
             eval_tree f e t E_LIST) ;;
      match negb (r =? 0), c1 with
      | true, nif _ _ c0' c1' t' :: _ => eval_if f e ex t' c0' c1'
      | taken_else, _ =>
          match (if taken_else then c1 else c0) with
          | [] => ret 0
          | branch =>
              fl <- flags_of e ;;
              (if ex then set_flags e (set fl E_EXIT) else ret tt) ;;
              eval_tree f e branch E_LIST
          end
      end
  end

with eval_for (fuel : nat) (e : nat) (has_in : bool) (args : list node) (varn : bytes)
    (cmds : list node) {struct fuel} : M W Z :=
  match fuel with
  | O => out_of_fuel
  | S f =>
      ws <- (if has_in
             then match args with [] => ret ([], false) | _ => expand_args args end
             else ws <- get (fun s => w_positional (s_world s)) ;; ret (ws, false)) ;;
      fl <- flags_of e ;;
      set_flags e (clear fl E_EXIT) ;;
      en <- eval_push E_LOOP ;;
      update en with_jump ;;
      ran <- for_loop (eval_tree f e cmds E_LIST) varn en (fst ws) false ;;
      st <- exitcode_of e ;;
      (if ran then set_exitcode en st else ret tt) ;;
      r <- eval_pop en ;;
      set_sh_exitcode r ;;
      ret r
  end

with eval_case (fuel : nat) (e : nat) (word : option node) (cases : list node) {struct fuel} : M W Z :=
  match fuel with
  | O => out_of_fuel
  | S f =>
      w <- (match word with None => ret [] | _ => expand_catsa false word end) ;;
      case_loop (fun cmds => eval_tree f e cmds E_LIST) cases w
  end

with eval_loop (fuel : nat) (e : nat) (id : kind) (t cmds : list node) {struct fuel} : M W Z :=
  match fuel with
  | O => out_of_fuel
  | S f =>
      en <- eval_push E_LOOP ;;
      update en with_jump ;;
      fl <- flags_of e ;;
      set_flags e (clear fl E_EXIT) ;;
      loop_from f e en id t cmds false 0
  end

(** From the setjmp of eval_loop on: [ran] and [status] are its variables. *)
with loop_from (fuel : nat) (e en : nat) (id : kind) (t cmds : list node) (ran : bool) (status : Z) {struct fuel}
    : M W Z :=
  match fuel with
  | O => out_of_fuel
  | S f =>
      r <- setjmp en
             (r <- suppressed (eval_tree f e t E_LIST) ;;
              if negb (r =? (if kind_eqb id N_WHILE then 0 else 1)) then ret (inl None)
              else
                eval_tree f e cmds E_LIST ;;
                st <- exitcode_of e ;;
                ret (inl (Some st)))
             (fun v => ret (inr v)) ;;
      match r with
      | inl (Some st) => loop_from f e en id t cmds true st
      | inl None =>
          (if ran then set_exitcode en status else ret tt) ;;
          r <- eval_pop en ;;
          set_sh_exitcode r ;;
          ret r
      | inr v =>
          if Z.odd v then
            put (fun s => with_frames (take en (s_frames s)) s) ;;   (* eval = en.parent *)
            r <- exitcode_of e ;;
            set_sh_exitcode r ;;
            ret r
          else
            fl <- flags_of e ;;
            set_flags e (clear fl E_EXIT) ;;
            loop_from f e en id t cmds ran status
      end
  end

with eval_subshell (fuel : nat) (cmds : list node) {struct fuel} : M W Z :=
  match fuel with
  | O => out_of_fuel
  | S f =>
      before <- get s_world ;;
      funcs <- get s_functions ;;
      st <- sh_exitcode ;;
      world_ w_subshell_enter ;;
      sh_push ;;
      set_sh_exitcode st ;;
      en <- eval_push E_ROOT ;;
      update en with_jump ;;
      setjmp en
        (eval_tree f en cmds E_LIST ;; ret tt)
        (fun v => set_exitcode en (Z.shiftr v 1)) ;;
      r <- eval_pop en ;;
      put (with_functions funcs) ;;
      sh_pop ;;
      world_ (w_subshell_leave before) ;;
      set_sh_exitcode r ;;
      ret r
  end

with eval_simple_command (fuel : nat) (e : nat) (bgnd : bool) (rdir vars args : list node) {struct fuel} : M W Z :=
  match fuel with
  | O => out_of_fuel
  | S f =>
      set_cmdsubst_ran false ;;
      x <- expand_args args ;;
      c <- get (command_of (fst x)) ;;
      let '(cmd, ws, via) := c in
      if (snd x : bool) then set_sh_exitcode 1 ;; ret 1
      else
        let bare := (List.length ws =? 0)%nat in
        let scope := bare && negb (List.length rdir =? 0)%nat && (List.length vars =? 0)%nat in
        (if scope then world_ (w_vars_enter false) else ret tt) ;;
        let redirs := (negb (List.length rdir =? 0)%nat || bgnd) && negb (is_exec cmd) in
        (if redirs then world_ w_redir_enter else ret tt) ;;
        redir_error <- redir_loop (is_exec cmd) (is_exec cmd || bare || negb (List.length vars =? 0)%nat) rdir ;;
        fl <- flags_of e ;;
        let temp := negb (has fl E_EXIT) && is_found cmd && negb (is_special cmd) in
        let assigning := negb redir_error && negb (List.length vars =? 0)%nat in
        assigned <- (if assigning then
                       assigns <- expanding (fun st => w_expand_vars st vars) ;;
                       (if temp then world_ (w_vars_enter true) else ret tt) ;;
                       assign_loop (is_found cmd) temp (fst assigns)
                     else ret true) ;;
        let assign_error := negb assigned in
        result <- (if redir_error || assign_error then ret (1, false)
                   else
                     match ws with
                     | [] =>
                         v <- get s_env ;;
                         ret (if v_cmdsubst_ran v then v_exitcode v else 0, false)
                     | name :: argv =>
                         match cmd with
                         | H_NONE => r <- world (w_not_found name) ;; ret (r, false)
                         | _ => exec_command f cmd name argv (has fl E_EXIT) bgnd
                         end
                     end) ;;
        let '(status, late_error) := result in
        (if scope || (assigning && temp) then world_ w_vars_leave else ret tt) ;;
        (if redirs then world_ w_redir_leave else ret tt) ;;
        set_sh_exitcode status ;;
        inter <- get s_interactive ;;
        (if (assign_error || ((redir_error || late_error) && negb via && is_special cmd)) && negb inter
         then sh_exit status else ret tt) ;;
        ret status
  end

(** The status, and exec_redir_error *)
with exec_command (fuel : nat) (cmd : command) (name : bytes) (argv : list bytes) (ex bgnd : bool) {struct fuel}
    : M W (Z * bool) :=
  match fuel with
  | O => out_of_fuel
  | S f =>
      if bgnd && match cmd with H_PROGRAM _ => false | _ => true end
      then r <- world (w_background_cmd (name :: argv)) ;; ret (r, false)
      else
        result <- (match cmd with
                   | H_SBUILTIN b | H_BUILTIN b | H_EXEC b =>
                     failed <- world w_open ;;
                     world_ w_write_reset ;;
                     r <- (if failed then ret 1 else run_builtin f b argv) ;;
                     lost <- get (fun s => w_write_error (s_world s)) ;;
                     ret (if (r =? 0) && lost then 1 else r, failed)
                   | H_FUNCTION body => r <- call_function f body (name :: argv) ;; ret (r, false)
                   | H_PROGRAM path =>
                       r <- world (w_program bgnd (path :: argv)) ;;
                       if ex then fun s => Exit r s else ret (r, false)
                   | H_NONE => ret (1, false)
                   end) ;;
        let '(r, late) := result in
        inter <- get s_interactive ;;
        via <- get s_via ;;
        (match cmd with
         | H_SBUILTIN b =>
             if negb (r =? 0) && negb inter && (via =? 0) && negb (exec_status_passthru b) then sh_exit r else ret tt
         | _ => ret tt
         end) ;;
        (if ex then sh_exit r else ret tt) ;;
        ret (r, late)
  end

with call_function (fuel : nat) (body : node) (argv : list bytes) {struct fuel} : M W Z :=
  match fuel with
  | O => out_of_fuel
  | S f =>
      world_ (w_call_enter argv) ;;
      sh_push ;;
      e <- eval_push E_FUNCTION ;;
      put (fun s => let v := s_env s in
             with_env (Env (v_exitcode v) (v_cmdsubst_ran v) (v_errexit v) true) s) ;;
      r <- setjmp e
             (update e with_jump ;;
              r <- (match body with
                    | ngrp id _ _ cmds =>
                        if kind_eqb id N_LIST then eval_cmdlist f e cmds else eval_command f e body
                    | _ => eval_command f e body
                    end) ;;
              set_exitcode e r ;;
              ret r)
             (fun v => ret (Z.shiftr v 1)) ;;
      eval_pop e ;;
      sh_pop ;;
      world_ w_call_leave ;;
      ret r
  end

with run_builtin (fuel : nat) (name : bytes) (argv : list bytes) {struct fuel} : M W Z :=
  match fuel with
  | O => out_of_fuel
  | S f =>
      if is_name name "break" || is_name name "continue" then builtin_break name argv
      else if is_name name "return" then builtin_return argv
      else if is_name name "exit" then builtin_exit argv
      else if is_name name "eval" then builtin_eval f argv
      else if is_name name "." || is_name name "source" then builtin_source f argv
      else if is_name name "command" then builtin_command f (name :: argv)
      else
        st <- sh_exitcode ;;
        r <- world (w_builtin name argv st) ;;
        (match b_errexit r with Some x => set_errexit x | None => ret tt end) ;;
        (match b_leave r with Some l => leave l | None => ret tt end) ;;
        ret (b_status r)
  end

with builtin_eval (fuel : nat) (args : list bytes) {struct fuel} : M W Z :=
  match fuel with
  | O => out_of_fuel
  | S f =>
      e <- eval_push 0 ;;
      let '(cmds, ending) := w_parse (join_args args) in
      eval_loop_text (fun nodes => eval_tree f e nodes (set (set E_ROOT E_EVAL) E_LIST)) cmds ;;
      r <- eval_pop e ;;
      ret (match ending with EndError => 1 | _ => r end)
  end

with builtin_command (fuel : nat) (argv : list bytes) {struct fuel} : M W Z :=
  match fuel with
  | O => out_of_fuel
  | S f =>
      match options_of_command argv with
      | None => world (w_describe argv)
      | Some (p, d, ind) =>
          match drop ind argv with
          | [] => ret 0
          | name :: args =>
              before <- get s_world ;;
              let restore := if (p : bool) then world_ (w_oldpath before) else ret tt in
              (if (p : bool) then world_ w_stdpath else ret tt) ;;
              if (d : bool) then r <- world (w_describe argv) ;; restore ;; ret r
              else
                cmd <- get (exec_search false name) ;;
                match cmd with
                | H_NONE => r <- world (w_exec_error name) ;; restore ;; ret r
                | _ =>
                    restore ;;
                    put (fun s => with_via (s_via s + 1) s) ;;
                    r <- exec_command f cmd name args false false ;;
                    put (fun s => with_via (s_via s - 1) s) ;;
                    if fst r <? EXIT_NOEXEC then ret (fst r) else world (w_exec_error name)
                end
          end
      end
  end

with builtin_source (fuel : nat) (args : list bytes) {struct fuel} : M W Z :=
  match fuel with
  | O => out_of_fuel
  | S f =>
      match args with
      | [] => ret 2
      | fname :: argv =>
          file <- get (fun s => w_file fname (s_world s)) ;;
          match file with
          | None =>
              inter <- get s_interactive ;;
              via <- get s_via ;;
              (if inter || negb (via =? 0) then ret tt else sh_exit 1) ;;
              ret 1
          | Some (empty, cmds, ending) =>
              world_ (w_source_enter argv) ;;
              e <- eval_push (set E_ROOT E_SOURCE) ;;
              update e with_jump ;;
              r <- setjmp e
                     (sh_loop (fun e' nodes fl => eval_tree f e' nodes fl) cmds ending ;;
                      (if (empty : bool) then set_sh_exitcode 0 else ret tt) ;;
                      sh_exitcode)
                     (fun v => set_sh_exitcode (Z.shiftr v 1) ;; ret (Z.shiftr v 1)) ;;
              pending <- get (fun s => f_pending (frame_at e s)) ;;
              pendcont <- get (fun s => f_pendcont (frame_at e s)) ;;
              eval_pop e ;;
              world_ (w_source_leave argv) ;;
              (if pending =? 0 then ret tt else eval_jump pending pendcont) ;;
              ret r
          end
      end
  end.

End Eval.
