(* ===== verification/EvalFlow.v ===== *)
(** * Where an evaluation can end (src/eval/eval_jump.c, eval_return.c,
    eval_exit.c, sh_exit.c)

    The stack discipline of the evaluator: which part of the state every
    evaluation leaves as it found it, which frames a [longjmp] may go to, and
    how the environments follow the frames.  [safe m s] says of one
    computation that it respects it; the rules below compose. *)

From S2P Require Import Prelude Scan Tree Fnmatch EvalState Eval.

(** ** Flag arithmetic *)

Lemma land_pow2 (x k : Z) : 0 <= k -> Z.land x (2 ^ k) = if Z.testbit x k then 2 ^ k else 0.
Proof.
  intros K. apply Z.bits_inj. intros i. rewrite Z.land_spec.
  rewrite Z.pow2_bits_eqb by exact K. destruct (Z.eqb_spec k i) as [<-|N].
  - destruct (Z.testbit x k); rewrite ?Z.pow2_bits_eqb, ?Z.eqb_refl, ?Z.bits_0 by exact K; reflexivity.
  - rewrite andb_false_r. destruct (Z.testbit x k); [|now rewrite Z.bits_0].
    rewrite Z.pow2_bits_eqb by exact K. symmetry. now apply Z.eqb_neq.
Qed.

(** The test of eval_jump for a subshell or the top of the script *)
Lemma root_only (x : Z) :
  (Z.land x (Z.lor E_ROOT E_EVAL) =? E_ROOT) = has x E_ROOT && negb (has x E_EVAL).
Proof.
  unfold has. rewrite !(Z.land_comm x), Z.land_lor_distr_l, !(Z.land_comm _ x).
  change E_ROOT with (2 ^ 1). change E_EVAL with (2 ^ 9).
  rewrite !land_pow2 by lia. now destruct (Z.testbit x 1), (Z.testbit x 9).
Qed.

Section Flow.
Context {W : Type} `{World W}.

Implicit Types (s : shell W) (f : frame W) (l : list (frame W)).

(** ** What stays *)

(** A frame while something above it runs: E_EXIT and E_LIST come and go, the
    status and a pending jump are set; a frame nobody jumps to may be declared
    the root of a list. *)
Record frame_same (f f' : frame W) : Prop := {
  same_jump : f_jump f' = f_jump f;
  same_mark : f_mark f' = f_mark f;
  same_function : has (f_flags f') E_FUNCTION = has (f_flags f) E_FUNCTION;
  same_source : has (f_flags f') E_SOURCE = has (f_flags f) E_SOURCE;
  same_loop : has (f_flags f') E_LOOP = has (f_flags f) E_LOOP;
  same_root : f_jump f = true -> has (f_flags f') E_ROOT = has (f_flags f) E_ROOT;
  same_eval : f_jump f = true -> has (f_flags f') E_EVAL = has (f_flags f) E_EVAL
}.

Definition frames_same : relation (list (frame W)) := Forall2 frame_same.

#[export] Instance frame_same_equiv : Equivalence frame_same.
Proof.
  split.
  - intros f. now split.
  - intros f g [J M F S L R V]. split; try congruence; intros X; symmetry; [apply R|apply V]; congruence.
  - intros f g h [J M F S L R V] [J' M' F' S' L' R' V']. split; try congruence; intros X.
    + rewrite R' by congruence. now apply R.
    + rewrite V' by congruence. now apply V.
Qed.

#[export] Instance frames_same_equiv : Equivalence frames_same.
Proof. unfold frames_same. split; apply _. Qed.

(** ** Frames that own an environment *)

Definition is_function (f : frame W) : bool := has (f_flags f) E_FUNCTION.
Definition is_source (f : frame W) : bool := has (f_flags f) E_SOURCE.
Definition is_subshell (f : frame W) : bool :=
  f_jump f && has (f_flags f) E_ROOT && negb (has (f_flags f) E_EVAL) && negb (is_source f)
  && negb (is_function f).
Definition owns_env (f : frame W) : bool := is_function f || is_subshell f.

(** Which environments are those of a function, innermost first, for frames
    given innermost first *)
Fixpoint env_kinds (l : list (frame W)) : list bool :=
  match l with
  | [] => [false]
  | f :: l => if owns_env f then is_function f :: env_kinds l else env_kinds l
  end.

Definition envs_owned (l : list (frame W)) : nat := List.length (filter (fun f => owns_env f = true) l).

Lemma same_is_function f f' : frame_same f f' -> is_function f' = is_function f.
Proof. intros X. apply X. Qed.

Lemma same_is_source f f' : frame_same f f' -> is_source f' = is_source f.
Proof. intros X. apply X. Qed.

Lemma same_is_subshell f f' : frame_same f f' -> is_subshell f' = is_subshell f.
Proof.
  intros X. unfold is_subshell. rewrite (same_is_function _ _ X), (same_is_source _ _ X), (same_jump _ _ X).
  destruct (f_jump f) eqn:J; [|reflexivity].
  now rewrite (same_root _ _ X J), (same_eval _ _ X J).
Qed.

Lemma same_owns_env f f' : frame_same f f' -> owns_env f' = owns_env f.
Proof. intros X. unfold owns_env. now rewrite (same_is_function _ _ X), (same_is_subshell _ _ X). Qed.

Lemma same_env_kinds l l' : frames_same l l' -> env_kinds l' = env_kinds l.
Proof.
  induction 1 as [|f f' l l' S _ IH]; [reflexivity|]. cbn [env_kinds].
  now rewrite (same_owns_env _ _ S), (same_is_function _ _ S), IH.
Qed.

Lemma same_envs_owned l l' : frames_same l l' -> envs_owned l' = envs_owned l.
Proof.
  unfold envs_owned. induction 1 as [|f f' l l' S _ IH]; [reflexivity|].
  rewrite !filter_cons, (same_owns_env _ _ S). case_decide; cbn [List.length]; congruence.
Qed.

Lemma same_rev l l' : frames_same l l' -> frames_same (rev l) (rev l').
Proof.
  unfold frames_same. induction 1 as [|f f' l l' S _ IH]; cbn [rev]; [constructor|].
  apply Forall2_app; [exact IH|]. constructor; [exact S|constructor].
Qed.

(** ** The state between two steps *)

(** No "." file is read with assertions compiled in. *)
Definition quiet : Prop := w_assert (W := W) = false \/ forall name w, w_file name w = None.

Definition frame_ok (f : frame W) : Prop :=
  (is_function f = true -> f_jump f = true) /\
  (is_source f = true -> f_jump f = true /\ (quiet -> w_assert (W := W) = false)).

Record wf (s : shell W) : Prop := {
  wf_frames : Forall frame_ok (s_frames s);
  wf_envs : map v_function (s_env s :: s_parents s) = env_kinds (rev (s_frames s))
}.

(** What a computation that comes back has left alone *)
Record rel (s s' : shell W) : Prop := {
  rel_frames : frames_same (s_frames s) (s_frames s');
  rel_parents : s_parents s' = s_parents s;
  rel_function : v_function (s_env s') = v_function (s_env s);
  rel_suppress : s_suppress s <= s_suppress s';
  rel_interactive : s_interactive s' = s_interactive s
}.

(** Where a computation may jump to *)
Record jumped (t : nat) (v : Z) (s s' : shell W) : Prop := {
  ju_target : exists f, s_frames s !! t = Some f /\ f_jump f = true /\
    (List.length (s_frames s') = S t \/ is_source f = true) /\
    ((Z.odd v = true /\ has (f_flags f) E_ROOT = true) \/
      Forall (fun g => is_function g = false) (drop (S t) (s_frames s)));
  ju_frames : frames_same (take (S t) (s_frames s)) (take (S t) (s_frames s'));
  ju_length : (t < List.length (s_frames s'))%nat;
  ju_subshell : Forall (fun g => is_subshell g = false) (drop (S t) (s_frames s));
  ju_parents : s_parents s' = drop (envs_owned (drop (S t) (s_frames s))) (s_parents s);
  ju_kinds : map v_function (s_env s' :: s_parents s') = env_kinds (rev (take (S t) (s_frames s)));
  ju_suppress : s_suppress s <= s_suppress s';
  ju_interactive : s_interactive s' = s_interactive s
}.

(** The outcome of a computation started in [s], seen from [s0] *)
Definition safe_from {A} (s0 : shell W) (m : M W A) (s : shell W) : Prop :=
  match m s with
  | Ret _ s' => rel s0 s'
  | Jump t v s' => jumped t v s0 s'
  | Exit _ _ => True
  | Abort => ~ quiet
  | NoFuel => True
  end.

Definition safe {A} (m : M W A) (s : shell W) : Prop := safe_from s m s.

#[export] Instance rel_preorder : PreOrder rel.
Proof.
  split.
  - intros s. split; [reflexivity..|lia|reflexivity].
  - intros s1 s2 s3 [F P V S I] [F' P' V' S' I'].
    split; [now transitivity (s_frames s2)|congruence|congruence|lia|congruence].
Qed.

Lemma frame_ok_same f f' : frame_same f f' -> frame_ok f -> frame_ok f'.
Proof.
  intros X [Fu So]. unfold frame_ok.
  now rewrite (same_is_function _ _ X), (same_is_source _ _ X), (same_jump _ _ X).
Qed.

Lemma frames_ok_same l l' : frames_same l l' -> Forall frame_ok l -> Forall frame_ok l'.
Proof.
  induction 1 as [|f f' l l' S _ IH]; [constructor|]. inversion_clear 1.
  constructor; [now apply (frame_ok_same f)|now apply IH].
Qed.

Lemma rel_wf s s' : rel s s' -> wf s -> wf s'.
Proof.
  intros [F P V S I] [Ok En]. split; [exact (frames_ok_same _ _ F Ok)|].
  rewrite (same_env_kinds _ _ (same_rev _ _ F)), <- En. cbn [map]. now rewrite P, V.
Qed.

Lemma same_lookup l l' i f :
  frames_same l l' -> l !! i = Some f -> exists f', l' !! i = Some f' /\ frame_same f f'.
Proof. intros X L. destruct (Forall2_lookup_l _ _ _ _ _ X L) as (f' & L' & S). now exists f'. Qed.

Lemma same_Forall (P : frame W -> Prop) l l' :
  (forall f f', frame_same f f' -> P f' -> P f) -> frames_same l l' -> Forall P l' -> Forall P l.
Proof.
  intros Tr X. induction X as [|f f' l l' S _ IH]; [constructor|]. inversion_clear 1.
  constructor; [now apply (Tr f f')|now apply IH].
Qed.

(** A jump, seen from before the steps that led to it *)
Lemma rel_jumped s s' t v s2 : rel s s' -> jumped t v s' s2 -> jumped t v s s2.
Proof.
  intros R J.
  assert (D : frames_same (drop (S t) (s_frames s)) (drop (S t) (s_frames s'))) by
    (apply Forall2_drop, R).
  destruct (ju_target _ _ _ _ J) as (f' & L' & Ju & Len & Cross).
  assert (Sy : frames_same (s_frames s') (s_frames s)) by (symmetry; apply R).
  destruct (same_lookup _ _ _ _ Sy L') as (f & L & X).
  split.
  - exists f. rewrite (same_jump _ _ X), (same_is_source _ _ X). split; [exact L|]. split; [exact Ju|].
    split; [exact Len|]. destruct Cross as [[Od Ro]|Fn].
    + left. now rewrite (same_root _ _ X Ju).
    + right. refine (same_Forall _ _ _ _ D Fn). intros g g' Y Z. now rewrite <- (same_is_function _ _ Y).
  - transitivity (take (S t) (s_frames s')); [apply Forall2_take, R|apply J].
  - apply J.
  - refine (same_Forall _ _ _ _ D (ju_subshell _ _ _ _ J)). intros g g' Y Z. now rewrite <- (same_is_subshell _ _ Y).
  - rewrite (ju_parents _ _ _ _ J), (same_envs_owned _ _ D). f_equal. apply R.
  - rewrite (ju_kinds _ _ _ _ J). apply same_env_kinds, same_rev, Forall2_take, R.
  - pose proof (rel_suppress _ _ R). pose proof (ju_suppress _ _ _ _ J). lia.
  - rewrite (ju_interactive _ _ _ _ J). apply R.
Qed.

(** ** Composition *)

Lemma safe_bind_from {A B} s0 (m : M W A) (k : A -> M W B) s :
  wf s -> rel s0 s -> safe m s ->
  (forall a s', m s = Ret a s' -> rel s s' -> wf s' -> safe_from s0 (k a) s') ->
  safe_from s0 (bind m k) s.
Proof.
  unfold safe, safe_from, bind. intros Wf R Sm Sk.
  destruct (m s) as [a s'|t v s'|c s'| |] eqn:X; try exact Sm.
  - exact (Sk a s' eq_refl Sm (rel_wf _ _ Sm Wf)).
  - exact (rel_jumped _ _ _ _ _ R Sm).
Qed.

Lemma safe_from_rel {A} s0 (m : M W A) s : rel s0 s -> safe m s -> safe_from s0 m s.
Proof.
  unfold safe, safe_from. intros R Sm. destruct (m s) as [a s'|t v s'|c s'| |]; try exact Sm.
  - now transitivity s.
  - exact (rel_jumped _ _ _ _ _ R Sm).
Qed.

(** Facts that survive every computation that comes back *)
Class Closed (P : shell W -> Prop) : Prop := closed : forall s s', rel s s' -> P s -> P s'.

Definition given {A} (P : shell W -> Prop) (m : M W A) : Prop := forall s, wf s -> P s -> safe m s.

Definition always : shell W -> Prop := fun _ => True.
#[export] Instance always_closed : Closed always.
Proof. easy. Qed.

#[export] Instance and_closed P Q : Closed P -> Closed Q -> Closed (fun s => P s /\ Q s).
Proof. intros CP CQ s s' R [X Y]. split; [exact (CP _ _ R X)|exact (CQ _ _ R Y)]. Qed.

Lemma given_always {A} P (m : M W A) : given always m -> given P m.
Proof. intros X s Wf _. now apply X. Qed.

Lemma given_weaken {A} (P Q : shell W -> Prop) (m : M W A) : (forall s, P s -> Q s) -> given Q m -> given P m.
Proof. intros X G s Wf p. apply G; auto. Qed.

Lemma given_bind {A B} P {C : Closed P} (m : M W A) (k : A -> M W B) :
  given P m -> (forall a, given P (k a)) -> given P (bind m k).
Proof.
  intros Gm Gk s Wf p. apply (safe_bind_from s m k s Wf (reflexivity s) (Gm s Wf p)).
  intros a s' _ R Wf'. apply (safe_from_rel s _ s' R). apply Gk; [exact Wf'|exact (C _ _ R p)].
Qed.

(** ** Primitive steps *)

Lemma given_ret {A} P (a : A) : given P (ret a).
Proof. intros s _ _. exact (reflexivity s). Qed.

Lemma given_get {A} P (g : shell W -> A) : given P (get g).
Proof. intros s _ _. exact (reflexivity s). Qed.

Lemma given_put P g : (forall s, rel s (g s)) -> given P (put g).
Proof. intros X s _ _. exact (X s). Qed.

Lemma rel_world w s : rel s (with_world w s).
Proof. split; cbn; [reflexivity..|lia|reflexivity]. Qed.

Lemma rel_env v s : v_function v = v_function (s_env s) -> rel s (with_env v s).
Proof. intros X. split; cbn; [reflexivity|reflexivity|exact X|lia|reflexivity]. Qed.

Lemma rel_functions fs s : rel s (with_functions fs s).
Proof. split; cbn; [reflexivity..|lia|reflexivity]. Qed.

Lemma rel_via n s : rel s (with_via n s).
Proof. split; cbn; [reflexivity..|lia|reflexivity]. Qed.

Lemma given_world {A} P (g : W -> A * W) : given P (world g).
Proof. intros s _ _. unfold safe, safe_from, world. destruct (g (s_world s)) as [a w]. apply rel_world. Qed.

Lemma given_world_ P (g : W -> W) : given P (world_ g).
Proof. apply given_put. intros s. apply rel_world. Qed.

Lemma same_alter g e l :
  (forall f, l !! e = Some f -> frame_same f (g f)) -> frames_same l (alter g e l).
Proof.
  revert e. induction l as [|f l IH]; intros [|e] X; cbn.
  - constructor.
  - constructor.
  - constructor; [now apply X|reflexivity].
  - constructor; [reflexivity|]. now apply IH.
Qed.

Lemma rel_alter g e s :
  (forall f, s_frames s !! e = Some f -> frame_same f (g f)) -> rel s (with_frames (alter g e (s_frames s)) s).
Proof. intros X. split; cbn; [now apply same_alter|reflexivity|reflexivity|lia|reflexivity]. Qed.

Lemma given_update P e g : (forall f, frame_same f (g f)) -> given P (update e g).
Proof. intros X. apply given_put. intros s. apply rel_alter. auto. Qed.

Lemma given_set_exitcode P e x : given P (set_exitcode e x).
Proof. apply given_update. intros f. now split. Qed.

Lemma given_set_sh_exitcode P x : given P (set_sh_exitcode x).
Proof. apply given_put. intros s. now apply rel_env. Qed.

Lemma given_set_cmdsubst_ran P x : given P (set_cmdsubst_ran x).
Proof. apply given_put. intros s. now apply rel_env. Qed.

Lemma given_set_errexit P x : given P (set_errexit x).
Proof. apply given_put. intros s. now apply rel_env. Qed.

Lemma given_out_of_fuel {A} P : given P (@out_of_fuel W _ A).
Proof. now intros s _ _. Qed.

(** *** Flags of the current frame *)

(** [x] may be stored as the flags of frame [e]. *)
Definition fits (e : nat) (x : Z) (s : shell W) : Prop :=
  forall f, s_frames s !! e = Some f -> frame_same f (with_flags x f).

#[export] Instance fits_closed e x : Closed (fits e x).
Proof.
  intros s s' R X f' L'.
  destruct (same_lookup _ _ _ _ (symmetry (rel_frames _ _ R)) L') as (f & L & Y).
  specialize (X f L). destruct X as [_ _ XF XS XL XR XV]. cbn [f_flags with_flags] in *.
  pose proof (same_jump _ _ Y) as J.
  split; cbn [f_flags f_jump f_mark with_flags]; try reflexivity.
  - rewrite XF. apply Y.
  - rewrite XS. apply Y.
  - rewrite XL. apply Y.
  - intros Ju. rewrite XR by congruence. now apply Y.
  - intros Ju. rewrite XV by congruence. now apply Y.
Qed.

Definition passing (m : Z) : Prop := m = E_EXIT \/ m = E_LIST.

Lemma fits_clear e x m s : passing m -> fits e x s -> fits e (clear x m) s.
Proof.
  intros Pm X f L. destruct (X f L) as [_ _ XF XS XL XR XV]. cbn [f_flags with_flags] in *.
  destruct Pm as [-> | ->];
    (split; cbn [f_flags f_jump f_mark with_flags]; [reflexivity|reflexivity|..];
      intros; rewrite has_clear by reflexivity; auto).
Qed.

Lemma fits_set e x m s : passing m -> fits e x s -> fits e (set x m) s.
Proof.
  intros Pm X f L. destruct (X f L) as [_ _ XF XS XL XR XV]. cbn [f_flags with_flags] in *.
  destruct Pm as [-> | ->];
    (split; cbn [f_flags f_jump f_mark with_flags]; [reflexivity|reflexivity|..];
      intros; rewrite has_set_other by reflexivity; auto).
Qed.

Lemma given_set_flags P e x : (forall s, P s -> fits e x s) -> given P (set_flags e x).
Proof.
  intros X s _ p. unfold safe, safe_from, set_flags, update, put. apply rel_alter. exact (X s p).
Qed.

(** Reading the flags of a frame makes them storable until the end. *)
Lemma given_flags_of {A} P {C : Closed P} e (k : Z -> M W A) :
  (forall x, given (fun s => P s /\ fits e x s) (k x)) -> given P (bind (flags_of e) k).
Proof.
  intros Gk s Wf p. apply (safe_bind_from s _ k s Wf (reflexivity s)); [exact (reflexivity s)|].
  intros x s' E R Wf'. injection E as <- <-. apply Gk; [exact Wf|]. split; [exact p|].
  intros f L. unfold frame_at. rewrite L. cbn. now destruct f.
Qed.

Lemma given_if {A} P (c : bool) (m m' : M W A) : given P m -> given P m' -> given P (if c then m else m').
Proof. now destruct c. Qed.

End Flow.

(** ** The targets of jumps *)

Section Targets.
Context {W : Type} `{World W}.

Implicit Types (s : shell W) (f g : frame W) (l : list (frame W)).

Lemma indexed_app i l l' : indexed i (l ++ l') = indexed i l ++ indexed (i + List.length l) l'.
Proof.
  revert i. induction l as [|f l IH]; intros i; cbn [indexed app List.length].
  - f_equal. lia.
  - rewrite IH. do 3 f_equal. lia.
Qed.

Lemma inner_snoc l f : rev (indexed 0 (l ++ [f])) = (List.length l, f) :: rev (indexed 0 l).
Proof. rewrite indexed_app, rev_app_distr. reflexivity. Qed.

Lemma drop_snoc {A} (l : list A) (f : A) i :
  (i <= List.length l)%nat -> drop i (l ++ [f]) = drop i l ++ [f].
Proof. intros L. now apply drop_app_le. Qed.

Lemma snoc_lookup {A} (l : list A) (f g : A) i : l !! i = Some g -> (l ++ [f]) !! i = Some g.
Proof. intros L. now apply lookup_app_l_Some. Qed.

Lemma lookup_snoc {A} (l : list A) (f : A) : (l ++ [f]) !! List.length l = Some f.
Proof. now apply list_lookup_middle. Qed.

Lemma snoc_drop_Forall (P : frame W -> Prop) l f g i :
  l !! i = Some g -> Forall P (drop (S i) l) -> P f -> Forall P (drop (S i) (l ++ [f])).
Proof.
  intros L F Pf. rewrite drop_snoc by (apply lookup_lt_Some in L; lia).
  apply Forall_app. now repeat constructor.
Qed.

(** A frame eval_jump walks past *)
Definition open_to_break g : Prop := is_source g = false /\ owns_env g = false.

Definition loop_found l (i : nat) : Prop :=
  exists f, l !! i = Some f /\ f_jump f = true /\ has (f_flags f) E_LOOP = true /\
    open_to_break f /\ Forall open_to_break (drop (S i) l).

Definition source_found l (i : nat) : Prop :=
  exists f, l !! i = Some f /\ is_source f = true /\ Forall open_to_break (drop (S i) l).

Lemma passed_open f :
  is_source f = false ->
  has (f_flags f) E_FUNCTION || (Z.land (f_flags f) (Z.lor E_ROOT E_EVAL) =? E_ROOT) = false ->
  open_to_break f.
Proof.
  intros So X. rewrite root_only in X. apply orb_false_iff in X as [Fu Ro]. split; [exact So|].
  unfold owns_env, is_subshell, is_function. rewrite Fu, So. cbn [orb negb].
  rewrite !andb_true_r. destruct (f_jump f); [exact Ro|reflexivity].
Qed.

Lemma find_loop_spec l levels j j' n sf :
  find_loop (rev (indexed 0 l)) levels j = (j', n, sf) ->
  (j' = j \/ exists i, j' = Some i /\ loop_found l i) /\
  (forall i, sf = Some i -> j' = None /\ source_found l i).
Proof.
  revert levels j. induction l as [|f l IH] using rev_ind; intros levels j.
  - cbn. intros [= <- <- <-]. split; [now left|discriminate].
  - rewrite inner_snoc. cbn [find_loop]. destruct (levels <=? 0).
    { intros [= <- <- <-]. split; [now left|discriminate]. }
    destruct (has (f_flags f) E_SOURCE) eqn:So.
    { intros [= <- <- <-]. split; [now left|]. destruct j; [discriminate|].
      intros i [= <-]. split; [reflexivity|]. exists f. split; [now rewrite lookup_snoc|].
      split; [exact So|]. rewrite drop_ge by (rewrite length_app; cbn; lia). constructor. }
    destruct (has (f_flags f) E_FUNCTION || _) eqn:Bo.
    { intros [= <- <- <-]. split; [now left|discriminate]. }
    pose proof (passed_open f So Bo) as Op.
    assert (Up : forall i, loop_found l i -> loop_found (l ++ [f]) i).
    { intros i (g & L & Ju & Lo & Opg & Fo). exists g.
      split; [now apply snoc_lookup|]. repeat (split; [assumption|]).
      now apply (snoc_drop_Forall _ l f g). }
    assert (Us : forall i, source_found l i -> source_found (l ++ [f]) i).
    { intros i (g & L & Is & Fo). exists g. split; [now apply snoc_lookup|]. split; [assumption|].
      now apply (snoc_drop_Forall _ l f g). }
    destruct (f_jump f && has (f_flags f) E_LOOP) eqn:JL; intros X.
    + apply andb_prop in JL as [Ju Lo]. destruct (IH _ _ X) as [[->|(i & -> & Fi)] Sf].
      * split; [right; exists (List.length l); split; [reflexivity|]|].
        -- exists f. rewrite lookup_snoc. repeat (split; [easy|]).
           rewrite drop_ge by (rewrite length_app; cbn; lia). constructor.
        -- intros i E. now destruct (Sf i E).
      * split; [right; exists i; auto|]. intros k E. now destruct (Sf k E).
    + destruct (IH _ _ X) as [[->|(i & -> & Fi)] Sf].
      * split; [now left|]. intros i E. destruct (Sf i E). auto.
      * split; [right; exists i; auto|]. intros k E. now destruct (Sf k E).
Qed.

(** A frame eval_return walks past *)
Lemma find_return_spec l i :
  Forall frame_ok l -> find_return (rev (indexed 0 l)) = Some i ->
  exists f, l !! i = Some f /\ f_jump f = true /\ Forall (fun g => owns_env g = false) (drop (S i) l).
Proof.
  induction l as [|f l IH] using rev_ind; [discriminate|]. intros Ok. apply Forall_app in Ok as [Ok Okf].
  rewrite inner_snoc. cbn [find_return]. rewrite has_union.
  destruct (f_jump f && _) eqn:X.
  - intros [= <-]. exists f. split; [now rewrite lookup_snoc|]. apply andb_prop in X as [Ju _].
    split; [exact Ju|]. rewrite drop_ge by (rewrite length_app; cbn; lia). constructor.
  - intros E. destruct (IH Ok E) as (g & L & Ju & Fo). exists g. split; [now apply snoc_lookup|].
    split; [exact Ju|]. apply (snoc_drop_Forall _ l f g); [exact L|exact Fo|].
    apply Forall_cons_1 in Okf as [[Fj _] _]. unfold owns_env, is_subshell, is_function in *.
    destruct (f_jump f) eqn:J; cbn [andb] in *.
    + apply orb_false_iff in X as [-> ->]. reflexivity.
    + destruct (has (f_flags f) E_FUNCTION); [discriminate (Fj eq_refl)|reflexivity].
Qed.

(** A frame eval_exit walks past: its environment, if it has one, is that of
    a function. *)
Definition no_root g : Prop := f_jump g && has (f_flags g) E_ROOT = false.

Definition functions l : nat := List.length (filter (fun g => is_function g = true) l).

Lemma functions_snoc l f : functions (l ++ [f]) = (functions l + (if is_function f then 1 else 0))%nat.
Proof.
  unfold functions. rewrite filter_app, length_app. f_equal. rewrite filter_cons, filter_nil.
  case_decide as D; destruct (is_function f); solve [reflexivity | discriminate | now destruct D].
Qed.

Lemma no_root_subshell g : no_root g -> is_subshell g = false.
Proof. unfold no_root, is_subshell. now intros ->. Qed.

Lemma no_root_envs l : Forall no_root l -> envs_owned l = functions l.
Proof.
  unfold envs_owned, functions. induction 1 as [|g l N _ IH]; [reflexivity|].
  rewrite !filter_cons. assert (O : owns_env g = is_function g) by
    (unfold owns_env; rewrite (no_root_subshell _ N); apply orb_false_r).
  rewrite O. destruct (is_function g); repeat case_decide; cbn [List.length]; (congruence || lia).
Qed.

Lemma find_root_spec l c :
  match find_root (rev (indexed 0 l)) c with
  | (Some i, c') => exists f, l !! i = Some f /\ f_jump f = true /\ has (f_flags f) E_ROOT = true /\
      Forall no_root (drop (S i) l) /\ c' = (c + functions (drop (S i) l))%nat
  | (None, c') => Forall no_root l /\ c' = (c + functions l)%nat
  end.
Proof.
  revert c. induction l as [|f l IH] using rev_ind; intros c.
  - cbn. split; [constructor|lia].
  - rewrite inner_snoc. cbn [find_root]. destruct (f_jump f && has (f_flags f) E_ROOT) eqn:X.
    + apply andb_prop in X as [Ju Ro]. exists f. rewrite lookup_snoc.
      rewrite drop_ge by (rewrite length_app; cbn; lia). unfold functions. cbn. repeat split; auto.
    + change (has (f_flags f) E_FUNCTION) with (is_function f).
      specialize (IH (if is_function f then S c else c)).
      destruct (find_root _ _) as [[i|] c'].
      * destruct IH as (g & L & Ju & Ro & Fo & ->). exists g. split; [now apply snoc_lookup|].
        repeat (split; [assumption|]). split; [now apply (snoc_drop_Forall _ l f g)|].
        rewrite drop_snoc by (apply lookup_lt_Some in L; lia). rewrite functions_snoc.
        destruct (is_function f); lia.
      * destruct IH as [Fo ->]. split; [apply Forall_app; now repeat constructor|].
        rewrite functions_snoc. destruct (is_function f); lia.
Qed.

(** ** Environments after a jump *)

Lemma env_kinds_app l l' :
  env_kinds (l ++ l') = map is_function (filter (fun g => owns_env g = true) l) ++ env_kinds l'.
Proof.
  induction l as [|g l IH]; [reflexivity|]. cbn [env_kinds app]. rewrite filter_cons, IH.
  destruct (owns_env g) eqn:X; case_decide; try reflexivity; congruence.
Qed.

Lemma envs_owned_rev l : envs_owned (rev l) = envs_owned l.
Proof.
  unfold envs_owned. induction l as [|g l IH]; [reflexivity|]. cbn [rev].
  rewrite filter_app, length_app, IH, !filter_cons, filter_nil. case_decide; cbn; lia.
Qed.

(** Dropping the environments of the frames above [t] leaves those of the rest. *)
Lemma env_kinds_drop l t :
  drop (envs_owned (drop t l)) (env_kinds (rev l)) = env_kinds (rev (take t l)).
Proof.
  rewrite <- (take_drop t l) at 2. rewrite rev_app_distr, env_kinds_app.
  rewrite drop_app_length'; [reflexivity|].
  rewrite length_map. symmetry. apply (envs_owned_rev (drop t l)).
Qed.

Lemma envs_owned_parents s t : wf s -> (envs_owned (drop t (s_frames s)) <= List.length (s_parents s))%nat.
Proof.
  intros Wf. pose proof (f_equal (@List.length bool) (wf_envs s Wf)) as X.
  rewrite length_map in X. cbn [List.length] in X.
  rewrite <- (take_drop t (s_frames s)), rev_app_distr, env_kinds_app, length_app, length_map in X.
  fold (envs_owned (rev (drop t (s_frames s)))) in X. rewrite envs_owned_rev in X.
  assert (1 <= List.length (env_kinds (rev (take t (s_frames s)))))%nat; [|lia].
  generalize (rev (take t (s_frames s))). intros l. induction l as [|g l IH]; cbn; [lia|].
  destruct (owns_env g); cbn; lia.
Qed.

(** A jump that unwound as many environments as the frames it left own *)
Lemma landed t v s s' f :
  wf s -> s_frames s !! t = Some f -> f_jump f = true ->
  (List.length (s_frames s') = S t \/ is_source f = true) -> (t < List.length (s_frames s'))%nat ->
  Forall (fun g => is_subshell g = false) (drop (S t) (s_frames s)) ->
  ((Z.odd v = true /\ has (f_flags f) E_ROOT = true) \/
    Forall (fun g => is_function g = false) (drop (S t) (s_frames s))) ->
  frames_same (take (S t) (s_frames s)) (take (S t) (s_frames s')) ->
  s_env s' :: s_parents s' = drop (envs_owned (drop (S t) (s_frames s))) (s_env s :: s_parents s) ->
  s_suppress s' = s_suppress s -> s_interactive s' = s_interactive s ->
  jumped t v s s'.
Proof.
  intros Wf L Ju Len Lt Sub Cross Fr Env Su In.
  split; try assumption; try lia.
  - exists f. auto.
  - pose proof (envs_owned_parents s (S t) Wf) as Le. apply (f_equal (@tl env)) in Env. cbn [tl] in Env.
    rewrite Env. destruct (envs_owned _) as [|k]; [reflexivity|]. cbn [drop List.length] in *.
    change tl with (@drop env 1). rewrite drop_drop. f_equal. lia.
  - rewrite Env, <- env_kinds_drop, <- (wf_envs s Wf), skipn_map. reflexivity.
Qed.

End Targets.

(** ** The jumps of the builtins are safe *)

Section Jumps.
Context {W : Type} `{World W}.

Implicit Types (s : shell W) (f g : frame W) (l : list (frame W)).

Lemma open_not_owned l : Forall open_to_break l -> Forall (fun g => owns_env g = false) l.
Proof. intros X. refine (Forall_impl _ _ _ X _). now intros g []. Qed.

Lemma not_owned l :
  Forall (fun g => owns_env g = false) l ->
  Forall (fun g => is_subshell g = false) l /\ Forall (fun g => is_function g = false) l /\ envs_owned l = O.
Proof.
  induction 1 as [|g l O _ (S & F & E)]; [now repeat constructor|].
  pose proof O as O'. unfold owns_env in O'. apply orb_false_iff in O' as [Fu Su].
  repeat split; try (now constructor). unfold envs_owned in *. rewrite filter_cons. case_decide; [congruence|exact E].
Qed.

Lemma take_take_same l t : frames_same (take (S t) l) (take (S t) (take (S t) l)).
Proof. rewrite take_take, Nat.min_id. reflexivity. Qed.

(** A jump to frame [t] out of frames that own no environment *)
Lemma jump_to_safe {A} t v s f :
  wf s -> s_frames s !! t = Some f -> f_jump f = true ->
  Forall (fun g => owns_env g = false) (drop (S t) (s_frames s)) ->
  safe_from s (fun s => @jump_to W _ A t v s) s.
Proof.
  intros Wf L Ju Fo. apply not_owned in Fo as (Sub & Fun & Own).
  pose proof (lookup_lt_Some _ _ _ L) as Lt.
  unfold safe_from, jump_to.
  apply (landed t v s _ f Wf L Ju); cbn [s_frames s_env s_parents s_suppress s_interactive
    with_frames with_world]; try reflexivity.
  - left. rewrite length_take. lia.
  - rewrite length_take. lia.
  - exact Sub.
  - now right.
  - apply take_take_same.
  - now rewrite Own.
Qed.

Lemma eval_jump_safe P levels cont : given P (eval_jump levels cont).
Proof.
  intros s Wf _. unfold safe, eval_jump, inner_first.
  destruct (find_loop (rev (indexed 0 (s_frames s))) levels None) as [[j n] sf] eqn:X.
  pose proof (find_loop_spec _ _ _ _ _ _ X) as [[->|(i & -> & f & L & Ju & Lo & Op & Fo)] Sf];
    unfold safe_from; rewrite X.
  - destruct sf as [i|]; [|exact (reflexivity s)].
    destruct (Sf i eq_refl) as (_ & f & L & So & Fo). apply open_not_owned, not_owned in Fo as (Sub & Fun & Own).
    pose proof (lookup_lt_Some _ _ _ L) as Lt.
    pose proof (proj1 (Forall_lookup _ _) (wf_frames _ Wf) i f L) as [_ Oks].
    assert (Al : frames_same (s_frames s) (alter (with_pending n cont) i (s_frames s))) by
      (apply same_alter; intros g _; now split).
    apply (landed i 1 s _ f Wf L); cbn [s_frames s_env s_parents s_suppress s_interactive with_frames];
      try reflexivity.
    + now apply Oks.
    + now right.
    + now rewrite length_alter.
    + exact Sub.
    + now right.
    + now apply Forall2_take.
    + now rewrite Own.
  - exact (jump_to_safe (A := unit) i _ s f Wf L Ju (open_not_owned _ Fo)).
Qed.

Lemma eval_return_safe P value : given P (eval_return value).
Proof.
  intros s Wf _. unfold safe, safe_from, eval_return, inner_first.
  destruct (find_return (rev (indexed 0 (s_frames s)))) as [i|] eqn:X; [|exact (reflexivity s)].
  destruct (find_return_spec _ _ (wf_frames _ Wf) X) as (f & L & Ju & Fo).
  exact (jump_to_safe (A := unit) i _ s f Wf L Ju Fo).
Qed.

(** *** exit *)

Lemma pops_envs n s :
  (n <= List.length (s_parents s))%nat ->
  s_env (pops n s) :: s_parents (pops n s) = drop n (s_env s :: s_parents s).
Proof.
  revert s. induction n as [|n IH]; intros s Le; [reflexivity|]. cbn [pops].
  destruct (s_parents s) as [|v l] eqn:Pa; cbn [List.length] in Le; [lia|].
  rewrite IH by (cbn; lia). reflexivity.
Qed.

Lemma pops_frames n s : s_frames (pops n s) = s_frames s.
Proof. revert s. induction n as [|n IH]; intros s; [reflexivity|]. cbn [pops]. rewrite IH. now destruct (s_parents s). Qed.

Lemma pops_suppress n s : s_suppress (pops n s) = s_suppress s.
Proof. revert s. induction n as [|n IH]; intros s; [reflexivity|]. cbn [pops]. rewrite IH. now destruct (s_parents s). Qed.

Lemma pops_interactive n s : s_interactive (pops n s) = s_interactive s.
Proof. revert s. induction n as [|n IH]; intros s; [reflexivity|]. cbn [pops]. rewrite IH. now destruct (s_parents s). Qed.

Lemma Forall_no_root l : Forall no_root l -> Forall (fun g => is_subshell g = false) l.
Proof. intros X. refine (Forall_impl _ _ _ X _). exact no_root_subshell. Qed.

Lemma odd_exit_value c : Z.odd (Z.lor (Z.shiftl c 1) 1) = true.
Proof. rewrite <- Z.bit0_odd, Z.lor_spec. change (Z.testbit 1 0) with true. apply orb_true_r. Qed.

(** eval_exit goes to the nearest root, unless there is none. *)
Lemma eval_exit_spec c s :
  wf s ->
  match eval_exit c s with
  | Jump t v s' => jumped t v s s' /\ v = Z.lor (Z.shiftl c 1) 1
  | Ret _ s' => Forall no_root (s_frames s) /\ s' = pops (functions (s_frames s)) s
  | _ => False
  end.
Proof.
  intros Wf. unfold eval_exit, inner_first. pose proof (find_root_spec (s_frames s) 0) as X.
  destruct (find_root _ 0) as [[i|] n].
  2:{ destruct X as [Fo ->]. now split. }
  destruct X as (f & L & Ju & Ro & Fo & ->). rewrite Nat.add_0_l. unfold jump_to.
  split; [|reflexivity]. pose proof (lookup_lt_Some _ _ _ L) as Lt.
  pose proof (no_root_envs _ Fo) as Own. pose proof (envs_owned_parents s (S i) Wf) as Le. rewrite Own in Le.
  apply (landed i _ s _ f Wf L Ju); cbn [s_frames s_env s_parents s_suppress s_interactive
    with_frames with_world].
  - left. rewrite pops_frames, length_take, length_alter. lia.
  - rewrite pops_frames, length_take, length_alter. lia.
  - now apply Forall_no_root.
  - left. split; [apply odd_exit_value|exact Ro].
  - rewrite take_take, Nat.min_id, pops_frames. apply Forall2_take, same_alter. intros g _. now split.
  - rewrite Own. now apply pops_envs.
  - apply pops_suppress.
  - apply pops_interactive.
Qed.

Lemma no_root_kinds l : Forall no_root l -> env_kinds l = repeat true (functions l) ++ [false].
Proof.
  unfold functions. induction 1 as [|g l N _ IH]; [reflexivity|]. cbn [env_kinds]. rewrite filter_cons.
  unfold owns_env. rewrite (no_root_subshell _ N), orb_false_r, IH.
  destruct (is_function g); case_decide; try reflexivity; congruence.
Qed.

Lemma kinds_at_root s n :
  map v_function (s_env s :: s_parents s) = repeat true n ++ [false] -> at_root s = true.
Proof.
  intros E. unfold at_root. generalize dependent (s_env s :: s_parents s). intros l.
  revert n. induction l as [|v l IH]; intros n E.
  - destruct n; discriminate.
  - rewrite filter_cons. destruct n as [|n]; cbn [repeat app map] in E; injection E as Ev El.
    + destruct l; [|discriminate]. case_decide; reflexivity.
    + rewrite Ev. case_decide as D; [discriminate D|]. exact (IH n El).
Qed.

(** Behind sh_exit nothing runs. *)
Lemma sh_exit_spec c s :
  wf s ->
  match sh_exit c s with
  | Jump t v s' => jumped t v s s' /\ v = Z.lor (Z.shiftl c 1) 1
  | Exit c' _ => c' = c
  | _ => False
  end.
Proof.
  intros Wf. unfold sh_exit. pose proof (eval_exit_spec c s Wf) as X.
  destruct (eval_exit c s) as [a s'|t v s'|c' s'| |]; try exact X; try contradiction.
  destruct X as [No ->]. rewrite (kinds_at_root s (functions (rev (s_frames s)))); [reflexivity|].
  rewrite (wf_envs s Wf). apply no_root_kinds. now apply Forall_rev.
Qed.

Lemma sh_exit_safe P c : given P (sh_exit c).
Proof.
  intros s Wf _. unfold safe, safe_from. pose proof (sh_exit_spec c s Wf) as X.
  destruct (sh_exit c s); try contradiction; [apply X|exact I].
Qed.

Lemma errexit_check_safe P k st : given P (errexit_check k st).
Proof.
  intros s Wf p. unfold safe, safe_from, errexit_check.
  destruct (_ && negb (errexit_exempt k)); [exact (sh_exit_safe P st s Wf p)|exact (reflexivity s)].
Qed.

(** *** A condition *)

Lemma wf_suppress n s : wf s -> wf (with_suppress n s).
Proof. intros [Ok En]. now split. Qed.

Lemma suppressed_safe {A} (P : shell W -> Prop) (m : M W A) :
  (forall n s, P s -> P (with_suppress n s)) -> given P m -> given P (suppressed m).
Proof.
  intros PS Gm s Wf p. unfold safe, safe_from, suppressed, bind, put.
  pose proof (Gm (with_suppress (s_suppress s + 1) s) (wf_suppress _ _ Wf) (PS _ _ p)) as X.
  unfold safe, safe_from in X. destruct (m _) as [a s'|t v s'|c s'| |]; try exact X.
  - destruct X as [F Pa V Su I]. cbn in *. split; cbn; try assumption. lia.
  - destruct X as [Ta Fr Le Sub Pa Ki Su I]. cbn in *. split; cbn; try assumption. lia.
Qed.

End Jumps.
