(* ===== verification/EvalScope.v ===== *)
(** * Frames around a computation (src/eval/eval_push.c, eval_pop.c, sh_push.c,
    sh_pop.c)

    What is known while a frame pushed by a loop, "eval", ".", a function call
    or a subshell is on the stack, and that popping it leads back to where the
    push was.  [ext] is a frame without an environment of its own, [owned] one
    with. *)

From S2P Require Import Prelude Scan Tree Fnmatch EvalState Eval EvalFlow.

Section Scope.
Context {W : Type} `{World W}.

Implicit Types (s : shell W) (f g : frame W) (l : list (frame W)).

(** [s] has one more frame than [s0]: with a jump buffer ([j]), of a "." file
    ([so]).  Only a jump to the frame of a "." file leaves frames above it. *)
Record ext (j so : bool) (s0 s : shell W) : Prop := {
  ex_frames : exists F f more, s_frames s = F ++ f :: more /\ frames_same (s_frames s0) F /\
    owns_env f = false /\ frame_ok f /\ f_jump f = j /\ is_source f = so /\ (more = [] \/ so = true);
  ex_parents : s_parents s = s_parents s0;
  ex_function : v_function (s_env s) = v_function (s_env s0);
  ex_suppress : s_suppress s0 <= s_suppress s;
  ex_interactive : s_interactive s = s_interactive s0
}.

Definition tight (s0 s : shell W) : Prop := List.length (s_frames s) = S (List.length (s_frames s0)).

(** The frame owns the environment on top of that of [s0]. *)
Record owned (fn : bool) (s0 s : shell W) : Prop := {
  ow_frames : exists F f, s_frames s = F ++ [f] /\ frames_same (s_frames s0) F /\
    owns_env f = true /\ frame_ok f /\ f_jump f = true /\ is_function f = fn /\ is_source f = false;
  ow_parents : s_parents s = s_env s0 :: s_parents s0;
  ow_function : v_function (s_env s) = fn;
  ow_suppress : s_suppress s0 <= s_suppress s;
  ow_interactive : s_interactive s = s_interactive s0
}.

(** The outcome of a computation that runs with the frame on top *)
Definition inside {A} (R : shell W -> shell W -> Prop) (s0 : shell W) (m : M W A) (s : shell W) : Prop :=
  match m s with
  | Ret _ s' => R s0 s'
  | Jump t v s' => jumped t v s0 s'
  | Exit _ _ => True
  | Abort => ~ quiet (W := W)
  | NoFuel => True
  end.

Lemma inside_bind {A B} R R' s0 (m : M W A) (k : A -> M W B) s :
  inside R s0 m s -> (forall a s', m s = Ret a s' -> R s0 s' -> inside R' s0 (k a) s') ->
  inside R' s0 (bind m k) s.
Proof. unfold inside, bind. intros Im Ik. destruct (m s) as [a s'|t v s'|c s'| |]; eauto. exact (Ik a s' eq_refl Im). Qed.

Lemma inside_safe_from {A} s0 (m : M W A) s : inside rel s0 m s = safe_from s0 m s.
Proof. reflexivity. Qed.

Lemma ext_length {j so} s0 s : ext j so s0 s -> (List.length (s_frames s0) < List.length (s_frames s))%nat.
Proof.
  intros X. destruct (ex_frames _ _ _ _ X) as (F & f & more & E & Fr & _).
  apply Forall2_length in Fr. rewrite E, length_app. cbn. lia.
Qed.

Lemma ext_tight {j} s0 s : ext j false s0 s -> tight s0 s.
Proof.
  intros X. destruct (ex_frames _ _ _ _ X) as (F & f & more & E & Fr & _ & _ & _ & _ & [->|Y]); [|discriminate].
  apply Forall2_length in Fr. unfold tight. rewrite E, length_app. cbn. lia.
Qed.

Lemma tight_nil s0 s F f more :
  tight s0 s -> s_frames s = F ++ f :: more -> frames_same (s_frames s0) F -> more = [].
Proof.
  unfold tight. intros T E Fr. apply Forall2_length in Fr. rewrite E, length_app in T. cbn in T.
  destruct more; [reflexivity|cbn in T; lia].
Qed.

Lemma ext_wf {j so} s0 s : ext j so s0 s -> tight s0 s -> wf s0 -> wf s.
Proof.
  intros X T [Ok En]. destruct (ex_frames _ _ _ _ X) as (F & f & more & E & Fr & Ow & Fok & _).
  rewrite (tight_nil _ _ _ _ _ T E Fr) in E. split; rewrite E.
  - apply Forall_app. split; [exact (frames_ok_same _ _ Fr Ok)|]. now constructor.
  - rewrite rev_app_distr. cbn [rev app env_kinds]. rewrite Ow, (same_env_kinds _ _ (same_rev _ _ Fr)), <- En.
    cbn [map]. now rewrite (ex_parents _ _ _ _ X), (ex_function _ _ _ _ X).
Qed.

(** A step that comes back keeps the frame. *)
Lemma same_app_inv F f more l :
  frames_same (F ++ f :: more) l ->
  exists F' f' more', l = F' ++ f' :: more' /\ frames_same F F' /\ frame_same f f' /\ frames_same more more'.
Proof.
  intros X. apply Forall2_app_inv_l in X as (F' & k & XF & Xk & ->).
  apply Forall2_cons_inv_l in Xk as (f' & more' & Xf & Xm & ->). now exists F', f', more'.
Qed.

Lemma ext_rel {j so} s0 s s' : ext j so s0 s -> rel s s' -> ext j so s0 s'.
Proof.
  intros X R. destruct (ex_frames _ _ _ _ X) as (F & f & more & E & Fr & Ow & Fok & Ju & So & Mo).
  pose proof (rel_frames _ _ R) as RF. rewrite E in RF.
  destruct (same_app_inv _ _ _ _ RF) as (F' & f' & more' & E' & XF & Xf & Xm).
  split.
  - exists F', f', more'. rewrite (same_owns_env _ _ Xf), (same_jump _ _ Xf), (same_is_source _ _ Xf).
    split; [exact E'|]. split; [now transitivity F|]. split; [exact Ow|].
    split; [exact (frame_ok_same _ _ Xf Fok)|]. repeat (split; [assumption|]).
    destruct Mo as [-> |Y]; [left|now right]. now inversion Xm.
  - rewrite (rel_parents _ _ R). apply X.
  - rewrite (rel_function _ _ R). apply X.
  - pose proof (rel_suppress _ _ R). pose proof (ex_suppress _ _ _ _ X). lia.
  - rewrite (rel_interactive _ _ R). apply X.
Qed.

(** A jump to a frame below leaves the frame behind. *)
Lemma drop_below F f t : (t < List.length F)%nat -> drop (S t) (F ++ [f]) = drop (S t) F ++ [f].
Proof. intros Lt. apply drop_app_le. lia. Qed.

Lemma take_below F f t : (t < List.length F)%nat -> take (S t) (F ++ [f]) = take (S t) F.
Proof. intros Lt. apply take_app_le. lia. Qed.

Lemma envs_owned_snoc l f : envs_owned (l ++ [f]) = (envs_owned l + (if owns_env f then 1 else 0))%nat.
Proof.
  unfold envs_owned. rewrite filter_app, length_app. f_equal. rewrite filter_cons, filter_nil.
  case_decide as D; destruct (owns_env f); solve [reflexivity | discriminate | now destruct D].
Qed.

Lemma jumped_out s0 s F f extra t v s' :
  s_frames s = F ++ [f] -> frames_same (s_frames s0) F -> s_parents s = extra ++ s_parents s0 ->
  List.length extra = (if owns_env f then 1 else 0)%nat ->
  s_suppress s0 <= s_suppress s -> s_interactive s = s_interactive s0 ->
  (t < List.length (s_frames s0))%nat -> jumped t v s s' -> jumped t v s0 s'.
Proof.
  intros E Fr Pa Ex Su In Lt J. pose proof (Forall2_length _ _ _ Fr) as Len.
  assert (LtF : (t < List.length F)%nat) by lia.
  destruct J as [(g & L & Ju & Le & Cr) Jf Jl Js Jp Jk Jsu Ji].
  rewrite E, ?(drop_below F f t LtF), ?(take_below F f t LtF) in *.
  rewrite lookup_app_l in L by exact LtF.
  destruct (same_lookup _ _ _ _ (symmetry Fr) L) as (g0 & L0 & Sg).
  assert (D : frames_same (drop (S t) (s_frames s0)) (drop (S t) F)) by now apply Forall2_drop.
  rewrite envs_owned_snoc, <- Ex, Nat.add_comm, Pa, drop_app_add in Jp.
  apply Forall_app in Js as [Js _].
  split.
  - exists g0. rewrite (same_jump _ _ Sg), (same_is_source _ _ Sg). repeat (split; [assumption|]).
    destruct Cr as [[Od Ro]|Cr].
    + left. now rewrite (same_root _ _ Sg Ju).
    + right. apply Forall_app in Cr as [Cr _]. refine (same_Forall _ _ _ _ D Cr).
      intros a c Y Z. now rewrite <- (same_is_function _ _ Y).
  - transitivity (take (S t) F); [now apply Forall2_take|exact Jf].
  - exact Jl.
  - refine (same_Forall _ _ _ _ D Js). intros a c Y Z. now rewrite <- (same_is_subshell _ _ Y).
  - now rewrite Jp, (same_envs_owned _ _ D).
  - rewrite Jk. apply same_env_kinds, same_rev, Forall2_take, Fr.
  - lia.
  - now rewrite Ji.
Qed.

Lemma ext_out {j so} s0 s t v s' :
  ext j so s0 s -> tight s0 s -> (t < List.length (s_frames s0))%nat -> jumped t v s s' -> jumped t v s0 s'.
Proof.
  intros X T. destruct (ex_frames _ _ _ _ X) as (F & f & more & E & Fr & Ow & _).
  rewrite (tight_nil _ _ _ _ _ T E Fr) in E.
  apply (jumped_out s0 s F f [] t v s' E Fr); [apply X|now rewrite Ow|apply X|apply X].
Qed.

(** A jump to the frame itself. *)
Lemma jumped_top F f t v s s' :
  s_frames s = F ++ [f] -> t = List.length F -> jumped t v s s' ->
  exists F' f' more', s_frames s' = F' ++ f' :: more' /\ frames_same F F' /\ frame_same f f' /\
    f_jump f = true /\ (more' = [] \/ is_source f = true) /\
    s_parents s' = s_parents s /\
    map v_function (s_env s' :: s_parents s') = env_kinds (rev (s_frames s)).
Proof.
  intros E -> [(g & L & Ju & Le & _) Jf Jl _ Jp Jk _ _]. rewrite E in *.
  rewrite list_lookup_middle in L by reflexivity. injection L as <-.
  assert (Tk : take (S (List.length F)) (F ++ [f]) = F ++ [f]) by (apply take_ge; rewrite length_app; cbn; lia).
  rewrite Tk in Jf, Jk.
  rewrite (drop_ge (F ++ [f])) in Jp by (rewrite length_app; cbn; lia).
  destruct (same_app_inv _ _ _ _ Jf) as (F' & f' & m & E' & XF & Xf & Xm).
  inversion Xm; subst m.
  exists F', f', (drop (S (List.length F)) (s_frames s')).
  split. { rewrite <- (take_drop (S (List.length F)) (s_frames s')) at 1. rewrite E', <- app_assoc. reflexivity. }
  split; [exact XF|]. split; [exact Xf|]. split; [exact Ju|].
  split. { destruct Le as [Le|Le]; [left|now right]. now apply drop_ge; rewrite Le. }
  now split.
Qed.

(** *** Frames without an environment *)

(** The frame after a jump to it *)
Lemma ext_here {so} s0 s v s' :
  ext true so s0 s -> tight s0 s -> wf s0 -> jumped (List.length (s_frames s0)) v s s' -> ext true so s0 s'.
Proof.
  intros X T Wf J. destruct (ex_frames _ _ _ _ X) as (F & f & more & E & Fr & Ow & Fok & Ju & So & _).
  rewrite (tight_nil _ _ _ _ _ T E Fr) in E.
  destruct (jumped_top F f _ _ _ _ E (Forall2_length _ _ _ Fr) J)
    as (F' & f' & more' & E' & XF & Xf & _ & Mo & Pa & Ki).
  rewrite E, rev_app_distr in Ki. cbn [rev app env_kinds] in Ki.
  rewrite Ow, (same_env_kinds _ _ (same_rev _ _ Fr)), <- (wf_envs s0 Wf) in Ki.
  cbn [map] in Ki. injection Ki as Kv _.
  split.
  - exists F', f', more'. rewrite (same_owns_env _ _ Xf), (same_jump _ _ Xf), (same_is_source _ _ Xf), <- So.
    split; [exact E'|]. split; [now transitivity F|]. split; [exact Ow|].
    split; [exact (frame_ok_same _ _ Xf Fok)|]. auto.
  - rewrite Pa. apply X.
  - exact Kv.
  - pose proof (ju_suppress _ _ _ _ J). pose proof (ex_suppress _ _ _ _ X). lia.
  - rewrite (ju_interactive _ _ _ _ J). apply X.
Qed.

Lemma jumped_cases {j so} s0 s t v s' :
  ext j so s0 s -> tight s0 s -> jumped t v s s' ->
  (t < List.length (s_frames s0))%nat \/ (t = List.length (s_frames s0) /\ j = true).
Proof.
  intros X T J. destruct (ju_target _ _ _ _ J) as (g & L & Ju & _).
  pose proof (lookup_lt_Some _ _ _ L) as Lt. unfold tight in T.
  destruct (decide (t < List.length (s_frames s0))%nat); [now left|right].
  assert (t = List.length (s_frames s0)) as -> by lia. split; [reflexivity|].
  destruct (ex_frames _ _ _ _ X) as (F & f & more & E & Fr & _ & _ & Jf & _).
  rewrite E, (Forall2_length _ _ _ Fr), list_lookup_middle in L by reflexivity. congruence.
Qed.

(** Under a frame nobody jumps to *)
Lemma inside_safe {A} s0 (m : M W A) s :
  ext false false s0 s -> safe m s -> inside (ext false false) s0 m s.
Proof.
  intros X Sm. pose proof (ext_tight _ _ X) as T. unfold safe, safe_from, inside in *.
  destruct (m s) as [a s'|t v s'|c s'| |]; try exact Sm.
  - exact (ext_rel _ _ _ X Sm).
  - destruct (jumped_cases _ _ _ _ _ X T Sm) as [Lt|[_ E]]; [|discriminate].
    exact (ext_out _ _ _ _ _ X T Lt Sm).
Qed.

(** Behind a [setjmp] *)
Lemma inside_setjmp {A so} s0 (m : M W A) (h : Z -> M W A) s :
  ext true so s0 s -> tight s0 s -> wf s0 -> safe m s ->
  (forall v s', ext true so s0 s' -> inside (ext true so) s0 (h v) s') ->
  inside (ext true so) s0 (setjmp (List.length (s_frames s0)) m h) s.
Proof.
  intros X T Wf Sm Sh. unfold safe, safe_from, inside, setjmp in *.
  destruct (m s) as [a s'|t v s'|c s'| |]; try exact Sm.
  - exact (ext_rel _ _ _ X Sm).
  - destruct (jumped_cases _ _ _ _ _ X T Sm) as [Lt|[-> _]].
    + destruct (Nat.eqb_spec t (List.length (s_frames s0))) as [E|_]; [lia|].
      exact (ext_out _ _ _ _ _ X T Lt Sm).
    + rewrite Nat.eqb_refl. apply Sh. exact (ext_here _ _ _ _ X T Wf Sm).
Qed.

(** Steps that always come back *)
Definition plainly {A} (m : M W A) : Prop := forall s, exists a s', m s = Ret a s' /\ rel s s'.

Lemma inside_plainly {A j so} s0 (m : M W A) s :
  plainly m -> ext j so s0 s -> inside (ext j so) s0 m s.
Proof. intros Pm X. unfold inside. destruct (Pm s) as (a & s' & -> & R). exact (ext_rel _ _ _ X R). Qed.

Lemma plainly_ret {A} (a : A) : plainly (ret a).
Proof. intros s. now exists a, s. Qed.

Lemma plainly_get {A} (q : shell W -> A) : plainly (get q).
Proof. intros s. now exists (q s), s. Qed.

Lemma plainly_put q : (forall s, rel s (q s)) -> plainly (put q).
Proof. intros X s. now exists tt, (q s). Qed.

Lemma plainly_if {A} (c : bool) (m m' : M W A) : plainly m -> plainly m' -> plainly (if c then m else m').
Proof. now destruct c. Qed.

Lemma plainly_bind {A B} (m : M W A) (k : A -> M W B) :
  plainly m -> (forall a, plainly (k a)) -> plainly (bind m k).
Proof.
  intros Pm Pk s. destruct (Pm s) as (a & s1 & E & R). destruct (Pk a s1) as (c & s2 & E2 & R2).
  exists c, s2. unfold bind. rewrite E, E2. split; [reflexivity|now transitivity s1].
Qed.

Lemma plainly_set_exitcode e x : plainly (set_exitcode e x).
Proof. apply plainly_put. intros s. apply rel_alter. intros f _. now split. Qed.

Lemma plainly_set_sh_exitcode x : plainly (set_sh_exitcode x).
Proof. apply plainly_put. intros s. now apply rel_env. Qed.

(** *** Pushing and popping *)

Definition pushed (fl : Z) s : shell W :=
  with_frames (s_frames s ++ [Frame fl 0 (mark (s_world s)) false 0 false]) s.

Definition pushed_jump (fl : Z) s : shell W :=
  with_frames (s_frames s ++ [Frame fl 0 (mark (s_world s)) true 0 false]) s.

Lemma tight_pushed fl s : tight s (pushed fl s).
Proof. unfold tight. cbn. rewrite length_app. cbn. lia. Qed.

Lemma tight_pushed_jump fl s : tight s (pushed_jump fl s).
Proof. unfold tight. cbn. rewrite length_app. cbn. lia. Qed.

Lemma ext_pushed fl s :
  has fl E_FUNCTION = false -> has fl E_SOURCE = false -> ext false false s (pushed fl s).
Proof.
  intros Fu So. split; cbn; try reflexivity.
  exists (s_frames s), (Frame fl 0 (mark (s_world s)) false 0 false), [].
  refine (conj eq_refl (conj (reflexivity _) (conj _ (conj _ (conj eq_refl (conj So (or_introl eq_refl))))))).
  - unfold owns_env, is_function, is_subshell. cbn. now rewrite Fu.
  - split; unfold is_function, is_source; cbn; congruence.
Qed.

Lemma ext_pushed_jump fl s :
  has fl E_FUNCTION = false ->
  has fl E_ROOT = false \/ has fl E_SOURCE = true ->
  (has fl E_SOURCE = true -> quiet (W := W) -> w_assert (W := W) = false) ->
  ext true (has fl E_SOURCE) s (pushed_jump fl s).
Proof.
  intros Fu So Q. split; cbn; try reflexivity.
  exists (s_frames s), (Frame fl 0 (mark (s_world s)) true 0 false), [].
  refine (conj eq_refl (conj (reflexivity _) (conj _ (conj _ (conj eq_refl (conj eq_refl (or_introl eq_refl))))))).
  - unfold owns_env, is_subshell, is_source, is_function. cbn. rewrite Fu.
    destruct So as [-> | ->]; cbn; rewrite ?andb_false_r; reflexivity.
  - split; unfold is_function, is_source; cbn; [congruence|]. intros So'. split; [reflexivity|now apply Q].
Qed.

Lemma ext_pop {j so} s0 s :
  ext j so s0 s -> inside rel s0 (eval_pop (List.length (s_frames s0))) s.
Proof.
  intros X. destruct (ex_frames _ _ _ _ X) as (F & f & more & E & Fr & _ & [_ Fok] & _ & So & Mo).
  pose proof (Forall2_length _ _ _ Fr) as Len. unfold inside, eval_pop. rewrite Len.
  destruct (w_assert && _) eqn:As.
  - apply andb_prop in As as [As Le]. intros Q.
    destruct Mo as [-> | ->].
    + rewrite E, length_app in Le. cbn in Le. rewrite Nat.add_1_r, Nat.eqb_refl in Le. discriminate.
    + destruct (Fok So) as [_ Y]. rewrite (Y Q) in As. discriminate.
  - split; cbn; try apply X. rewrite E, take_app_length. exact Fr.
Qed.

(** *** Function calls and subshells *)

Lemma owned_wf {fn} s0 s : owned fn s0 s -> wf s0 -> wf s.
Proof.
  intros [(F & f & E & Fr & Ow & Fok & Ju & Fn & So) Pa Vf _ _] [Ok En].
  split; rewrite E.
  - apply Forall_app. split; [exact (frames_ok_same _ _ Fr Ok)|]. now constructor.
  - rewrite rev_app_distr. cbn [rev app env_kinds map]. rewrite Ow, Fn, Vf, Pa. cbn [map].
    rewrite (same_env_kinds _ _ (same_rev _ _ Fr)), <- En. reflexivity.
Qed.

Lemma owned_rel {fn} s0 s s' : owned fn s0 s -> rel s s' -> owned fn s0 s'.
Proof.
  intros [(F & f & E & Fr & Ow & Fok & Ju & Fn & So) Pa Vf Su In] R.
  pose proof (rel_frames _ _ R) as RF. rewrite E in RF.
  destruct (same_app_inv _ _ _ _ RF) as (F' & f' & more & E' & XF & Xf & Xm). inversion Xm; subst more.
  split.
  - exists F', f'. rewrite (same_owns_env _ _ Xf), (same_jump _ _ Xf), (same_is_source _ _ Xf),
      (same_is_function _ _ Xf).
    split; [exact E'|]. split; [now transitivity F|]. split; [exact Ow|].
    split; [exact (frame_ok_same _ _ Xf Fok)|]. auto.
  - now rewrite (rel_parents _ _ R).
  - now rewrite (rel_function _ _ R).
  - pose proof (rel_suppress _ _ R). lia.
  - now rewrite (rel_interactive _ _ R).
Qed.

(** The frame after a jump to it *)
Lemma owned_here {fn} s0 s v s' :
  owned fn s0 s -> jumped (List.length (s_frames s0)) v s s' -> owned fn s0 s'.
Proof.
  intros [(F & f & E & Fr & Ow & Fok & Ju & Fn & So) Pa Vf Su In] J.
  destruct (jumped_top F f _ _ _ _ E (Forall2_length _ _ _ Fr) J)
    as (F' & f' & more' & E' & XF & Xf & _ & [-> |Y] & Pa' & Ki); [|congruence].
  rewrite E, rev_app_distr in Ki. cbn [rev app env_kinds map] in Ki. rewrite Ow, Fn in Ki.
  injection Ki as Kv _. split.
  - exists F', f'. rewrite (same_owns_env _ _ Xf), (same_jump _ _ Xf), (same_is_source _ _ Xf),
      (same_is_function _ _ Xf).
    split; [exact E'|]. split; [now transitivity F|]. split; [exact Ow|].
    split; [exact (frame_ok_same _ _ Xf Fok)|]. auto.
  - now rewrite Pa'.
  - exact Kv.
  - pose proof (ju_suppress _ _ _ _ J). lia.
  - now rewrite (ju_interactive _ _ _ _ J).
Qed.

(** Only "exit" leaves a function for a frame below it; nothing leaves a
    subshell. *)
Lemma owned_out {fn} s0 s t v s' :
  owned fn s0 s -> jumped t v s s' ->
  t = List.length (s_frames s0) \/ (fn = true /\ Z.odd v = true /\ jumped t v s0 s').
Proof.
  intros [(F & f & E & Fr & Ow & Fok & Ju & Fn & So) Pa Vf Su In] J.
  destruct (ju_target _ _ _ _ J) as (g & L & Jug & Le & Cr).
  pose proof (lookup_lt_Some _ _ _ L) as Lt. pose proof (Forall2_length _ _ _ Fr) as Len.
  destruct (decide (t < List.length (s_frames s0))%nat) as [Lt0|]; [right|left].
  2:{ rewrite E, length_app in Lt. cbn in Lt. lia. }
  pose proof (ju_subshell _ _ _ _ J) as Sub. rewrite E, (drop_below F f t) in Sub, Cr by lia.
  apply Forall_app in Sub as [_ Sub]. apply Forall_cons_1 in Sub as [Sub _].
  destruct fn.
  2:{ unfold owns_env in Ow. rewrite Fn, Sub in Ow. discriminate. }
  split; [reflexivity|]. destruct Cr as [[Od _]|Cr].
  - split; [exact Od|]. apply (jumped_out s0 s F f [s_env s0] t v s' E Fr Pa); try assumption. now rewrite Ow.
  - apply Forall_app in Cr as [_ Cr]. apply Forall_cons_1 in Cr as [Cr _]. congruence.
Qed.

(** The outcome inside a function: a jump out of it is an "exit"; inside a
    subshell there is none. *)
Lemma owned_setjmp {A fn} s0 (m : M W A) (h : Z -> M W A) s :
  owned fn s0 s -> safe m s ->
  (forall v s', owned fn s0 s' -> inside (owned fn) s0 (h v) s') ->
  inside (owned fn) s0 (setjmp (List.length (s_frames s0)) m h) s.
Proof.
  intros X Sm Sh. unfold safe, safe_from, inside, setjmp in *.
  destruct (m s) as [a s'|t v s'|c s'| |]; try exact Sm.
  - exact (owned_rel _ _ _ X Sm).
  - destruct (owned_out _ _ _ _ _ X Sm) as [-> |(-> & _ & J)].
    + rewrite Nat.eqb_refl. apply Sh. exact (owned_here _ _ _ _ X Sm).
    + destruct (Nat.eqb_spec t (List.length (s_frames s0))) as [-> |_]; [|exact J].
      apply Sh. exact (owned_here _ _ _ _ X Sm).
Qed.

Lemma inside_plainly_owned {A fn} s0 (m : M W A) s :
  plainly m -> owned fn s0 s -> inside (owned fn) s0 m s.
Proof. intros Pm X. unfold inside. destruct (Pm s) as (a & s' & -> & R). exact (owned_rel _ _ _ X R). Qed.

(** The frame is gone, the environment is still there. *)
Record bare (s0 s : shell W) : Prop := {
  ba_frames : frames_same (s_frames s0) (s_frames s);
  ba_parents : s_parents s = s_env s0 :: s_parents s0;
  ba_suppress : s_suppress s0 <= s_suppress s;
  ba_interactive : s_interactive s = s_interactive s0
}.

Lemma owned_pop {fn} s0 s :
  owned fn s0 s -> inside bare s0 (eval_pop (List.length (s_frames s0))) s.
Proof.
  intros [(F & f & E & Fr & Ow & Fok & Ju & Fn & So) Pa Vf Su In].
  pose proof (Forall2_length _ _ _ Fr) as Len. unfold inside, eval_pop.
  rewrite E, length_app, Len. cbn [List.length]. rewrite Nat.add_1_r, Nat.eqb_refl, andb_false_r.
  split; cbn; try assumption. rewrite take_app_length. exact Fr.
Qed.

Lemma bare_pop s0 s : bare s0 s -> inside rel s0 sh_pop s.
Proof.
  intros [F Pa Su In]. unfold inside, sh_pop, put. rewrite Pa. now split.
Qed.

Lemma bare_put s0 s q : bare s0 s -> (forall s, s_frames (q s) = s_frames s /\ s_parents (q s) = s_parents s /\
    s_suppress (q s) = s_suppress s /\ s_interactive (q s) = s_interactive s) -> inside bare s0 (put q) s.
Proof.
  intros [F Pa Su In] Q. destruct (Q s) as (Qf & Qp & Qs & Qi). unfold inside, put.
  split; rewrite ?Qf, ?Qp, ?Qs, ?Qi; assumption.
Qed.

(** The state in which the body of a call or of a subshell starts *)
Definition pushed_env (fl : Z) (v : env) s : shell W :=
  with_frames (s_frames s ++ [Frame fl 0 (mark (s_world s)) true 0 false])
    (with_envs v (s_env s :: s_parents s) s).

Lemma owned_pushed fl v s :
  has fl E_SOURCE = false -> has fl E_EVAL = false ->
  has fl E_FUNCTION || has fl E_ROOT = true -> has fl E_FUNCTION = v_function v ->
  owned (v_function v) s (pushed_env fl v s).
Proof.
  intros So Ev FR Fv. split; cbn; try reflexivity.
  - exists (s_frames s), (Frame fl 0 (mark (s_world s)) true 0 false).
    refine (conj eq_refl (conj (reflexivity _) (conj _ (conj _ (conj eq_refl (conj Fv So)))))).
    + unfold owns_env, is_subshell, is_function, is_source. cbn. rewrite So, Ev.
      destruct (has fl E_FUNCTION); [reflexivity|]. cbn [orb] in FR. now rewrite FR.
    + split; unfold is_function, is_source; cbn; congruence.
Qed.

(** *** Exactly how a call or a subshell ends *)

(** [m] comes back in [R], or jumps with a value in [J]. *)
Definition ends {A} (R : A -> shell W -> Prop) (J : Z -> Prop) (m : M W A) (s : shell W) : Prop :=
  match m s with Ret a s' => R a s' | Jump _ v _ => J v | _ => True end.

Lemma ends_bind {A B} R R' J (m : M W A) (k : A -> M W B) s :
  ends R J m s -> (forall a s', R a s' -> ends R' J (k a) s') -> ends R' J (bind m k) s.
Proof. unfold ends, bind. intros Em Ek. destruct (m s) as [a s'|t v s'|c s'| |]; auto. exact (Ek a s' Em). Qed.

Lemma owned_setjmp_ends {A fn} s0 (m : M W A) (h : Z -> M W A) s (J : Z -> Prop) :
  owned fn s0 s -> safe m s -> (forall v, fn = true -> Z.odd v = true -> J v) ->
  (forall v, plainly (h v)) ->
  ends (fun _ => owned fn s0) J (setjmp (List.length (s_frames s0)) m h) s.
Proof.
  intros X Sm Jv Ph. unfold safe, safe_from, ends, setjmp in *.
  destruct (m s) as [a s'|t v s'|c s'| |]; try exact Sm; try exact I.
  - exact (owned_rel _ _ _ X Sm).
  - destruct (Nat.eqb_spec t (List.length (s_frames s0))) as [E|N].
    + subst t. destruct (Ph v s') as (a & s2 & -> & R). exact (owned_rel _ _ _ (owned_here _ _ _ _ X Sm) R).
    + destruct (owned_out _ _ _ _ _ X Sm) as [E|(Fn & Od & _)]; [now destruct N|]. now apply Jv.
Qed.

Lemma owned_pop_ends {fn} s0 s J :
  owned fn s0 s -> ends (fun _ => bare s0) J (eval_pop (List.length (s_frames s0))) s.
Proof.
  intros X. pose proof (owned_pop s0 s X) as Y. unfold inside, ends in *.
  unfold eval_pop in *. now destruct (w_assert && _).
Qed.

End Scope.
