(* ===== verification/EvalSafe.v ===== *)
(** * Every evaluation keeps the stacks (src/eval, src/exec/exec_command.c)

    Induction over the mutually recursive functions of the evaluator: each is
    [safe] in every well-formed state.  The properties of the end of the file
    are what that says of a whole list of commands, of a subshell and of a
    function call. *)

From S2P Require Import Prelude Scan Tree Fnmatch EvalState Eval EvalFlow EvalScope.

(** ** Automation *)

Create HintDb safe.
#[export] Hint Resolve given_ret given_get given_world given_world_ given_set_exitcode
  given_set_sh_exitcode given_set_cmdsubst_ran given_set_errexit given_out_of_fuel
  eval_jump_safe eval_return_safe sh_exit_safe errexit_check_safe : safe.
#[export] Hint Resolve plainly_ret plainly_get plainly_set_exitcode plainly_set_sh_exitcode : safe.

Ltac fits_flags :=
  let s := fresh "s" in let p := fresh "p" in
  intros s p; repeat match goal with X : _ /\ _ |- _ => destruct X end;
  repeat first [assumption | apply fits_clear; [(left; reflexivity) || (right; reflexivity)|]
               | apply fits_set; [(left; reflexivity) || (right; reflexivity)|]].

(** One step: the sequence, the choices, the primitives *)
Ltac safe_step :=
  lazymatch goal with
  | |- given _ (bind (flags_of _) _) => refine (given_flags_of _ _ _ _); intros ?
  | |- given _ (bind _ _) => refine (given_bind _ _ _ _ _); [|intros ?]
  | |- given _ (let '(_, _) := ?x in _) => destruct x
  | |- given _ (if ?c then _ else _) => destruct c
  | |- given _ (match ?x with _ => _ end) => destruct x
  | |- given _ (set_flags _ _) => apply given_set_flags; solve [fits_flags]
  | |- given _ _ => solve [eauto with safe | apply given_always; eauto with safe]
  end.
Ltac safe_steps := cbv zeta; repeat (safe_step; cbv zeta).

Section Safe.
Context {W : Type} `{World W}.

Implicit Types (s : shell W) (f g : frame W).

(** ** Scopes *)

Lemma alter_snoc {A} (q : A -> A) (l : list A) (a : A) :
  alter q (List.length l) (l ++ [a]) = l ++ [q a].
Proof. induction l as [|c l IH]; cbn; [reflexivity|]. now f_equal. Qed.

Lemma scope_plain {B} P fl (k : nat -> M W B) :
  has fl E_FUNCTION = false -> has fl E_SOURCE = false ->
  (forall s0 s, wf s0 -> ext false false s0 s -> inside rel s0 (k (List.length (s_frames s0))) s) ->
  given P (bind (eval_push fl) k).
Proof. intros Fu So Ik s Wf _. exact (Ik s _ Wf (ext_pushed fl s Fu So)). Qed.

Lemma scope_jump {B} P fl (k : nat -> M W B) :
  has fl E_FUNCTION = false -> has fl E_ROOT = false \/ has fl E_SOURCE = true ->
  (has fl E_SOURCE = true -> quiet (W := W) -> w_assert (W := W) = false) ->
  (forall s0 s, wf s0 -> ext true (has fl E_SOURCE) s0 s -> tight s0 s ->
    inside rel s0 (k (List.length (s_frames s0))) s) ->
  given P (bind (eval_push fl) (fun en => bind (update en with_jump) (fun _ => k en))).
Proof.
  intros Fu Ro Q Ik s Wf _.
  pose proof (Ik s _ Wf (ext_pushed_jump fl s Fu Ro Q) (tight_pushed_jump fl s)) as X.
  unfold safe, safe_from, inside, bind, eval_push, update, put, pushed_jump in *. cbn [s_frames with_frames] in *.
  rewrite alter_snoc. exact X.
Qed.

Lemma inside_clear_exit {A j so} (R : shell W -> shell W -> Prop) s0 e (k : M W A) s :
  ext j so s0 s -> (forall s', ext j so s0 s' -> inside R s0 k s') ->
  inside R s0 (bind (flags_of e) (fun fl => bind (set_flags e (clear fl E_EXIT)) (fun _ => k))) s.
Proof.
  intros X Ik. unfold inside, bind, flags_of, get, set_flags, update, put.
  apply Ik. apply (ext_rel _ _ _ X), rel_alter. intros f L. unfold frame_at. rewrite L. cbn [default].
  assert (Y : fits e (f_flags f) s). { intros g L'. rewrite L in L'. injection L' as <-. now destruct f. }
  apply (fits_clear e (f_flags f) E_EXIT s (or_introl eq_refl) Y). exact L.
Qed.

Lemma inside_step {A B j so} (R : shell W -> shell W -> Prop) s0 (m : M W A) (k : A -> M W B) s :
  ext j so s0 s -> plainly m -> (forall a s', ext j so s0 s' -> inside R s0 (k a) s') ->
  inside R s0 (bind m k) s.
Proof. intros X Pm Ik. apply (inside_bind (ext j so) R _ _ _ _ (inside_plainly s0 m s Pm X)). auto. Qed.

Lemma inside_pop {B j so} s0 s (k : Z -> M W B) :
  wf s0 -> ext j so s0 s -> (forall r, given always (k r)) ->
  inside rel s0 (bind (eval_pop (List.length (s_frames s0))) k) s.
Proof.
  intros Wf X Gk. apply (inside_bind rel rel _ _ _ _ (ext_pop s0 s X)). intros r s' _ R.
  apply (safe_from_rel s0 (k r) s' R). apply Gk; [exact (rel_wf _ _ R Wf)|exact I].
Qed.

Lemma ext_break {j so} s0 s :
  ext j so s0 s -> rel s0 (with_frames (take (List.length (s_frames s0)) (s_frames s)) s).
Proof.
  intros X. destruct (ex_frames _ _ _ _ X) as (F & f & more & E & Fr & _).
  split; cbn; try apply X. rewrite E, (Forall2_length _ _ _ Fr), take_app_length. exact Fr.
Qed.

(** ** The flags a list may be given *)

Definition takes (e : nat) (tf : Z) s : Prop :=
  forall f, s_frames s !! e = Some f -> frame_same f (with_flags (set (f_flags f) tf) f).

Lemma takes_passing e tf s : tf = 0 \/ passing tf -> takes e tf s.
Proof.
  intros Q f L. assert (Y : fits e (f_flags f) s).
  { intros g L'. rewrite L in L'. injection L' as <-. now destruct f. }
  destruct Q as [-> |Q]; [|exact (fits_set e (f_flags f) tf s Q Y f L)].
  unfold set. rewrite Z.lor_0_r. now destruct f.
Qed.

Lemma takes_list e s : takes e E_LIST s.
Proof. apply takes_passing. right. now right. Qed.

Lemma takes_none e s : takes e 0 s.
Proof. apply takes_passing. now left. Qed.

Lemma ext_takes {so} s0 s tf :
  ext false so s0 s -> Z.land tf E_FUNCTION = 0 -> Z.land tf E_SOURCE = 0 -> Z.land tf E_LOOP = 0 ->
  takes (List.length (s_frames s0)) tf s.
Proof.
  intros X Tf Ts Tl g L. destruct (ex_frames _ _ _ _ X) as (F & f & more & E & Fr & _ & _ & Ju & _).
  rewrite E, (Forall2_length _ _ _ Fr), list_lookup_middle in L by reflexivity. injection L as <-.
  split; cbn [f_flags f_jump f_mark with_flags]; try reflexivity; try (now rewrite has_set_other); congruence.
Qed.

(** ** The functions of one level of fuel *)

Record all_safe (n : nat) : Prop := {
  as_tree : forall e nodes tf s, wf s -> takes e tf s -> safe (eval_tree n e nodes tf) s;
  as_cmdlist : forall e cmds, given always (eval_cmdlist n e cmds);
  as_node_bgnd : forall e nd, given always (eval_node_bgnd n e nd);
  as_node : forall e nd, given always (eval_node n e nd);
  as_and_or : forall e id l r, given always (eval_and_or n e id l r);
  as_time : forall e posix p, given always (eval_time n e posix p);
  as_command : forall e nd, given always (eval_command n e nd);
  as_if : forall e ex t c0 c1, given always (eval_if n e ex t c0 c1);
  as_for : forall e hi args v cmds, given always (eval_for n e hi args v cmds);
  as_case : forall e w cases, given always (eval_case n e w cases);
  as_loop : forall e id t cmds, given always (eval_loop n e id t cmds);
  as_loop_from : forall e id t cmds ran st s0 s, wf s0 -> ext true false s0 s ->
    inside rel s0 (loop_from n e (List.length (s_frames s0)) id t cmds ran st) s;
  as_subshell : forall cmds, given always (eval_subshell n cmds);
  as_simple_command : forall e bg rd vs ar, given always (eval_simple_command n e bg rd vs ar);
  as_exec_command : forall c nm av ex bg, given always (exec_command n c nm av ex bg);
  as_call_function : forall bd av, given always (call_function n bd av);
  as_run_builtin : forall nm av, given always (run_builtin n nm av);
  as_builtin_eval : forall ar, given always (builtin_eval n ar);
  as_builtin_command : forall av, given always (builtin_command n av);
  as_builtin_source : forall ar, given always (builtin_source n ar)
}.

Lemma all_safe_0 : all_safe 0.
Proof. split; intros; try exact I; now intros s _ _. Qed.

Section Step.
Context (n : nat) (IH : all_safe n).

Lemma tree_list e nodes : given always (eval_tree n e nodes E_LIST).
Proof. intros s Wf _. apply (as_tree n IH); [exact Wf|apply takes_list]. Qed.

Lemma tree_none e nodes : given always (eval_tree n e nodes 0).
Proof. intros s Wf _. apply (as_tree n IH); [exact Wf|apply takes_none]. Qed.

Lemma suppressed_always {A} (m : M W A) : given always m -> given always (suppressed m).
Proof. now apply suppressed_safe. Qed.

End Step.

#[local] Hint Resolve tree_list tree_none suppressed_always as_cmdlist as_node_bgnd as_node as_and_or as_time
  as_command as_if as_for as_case as_loop as_subshell as_simple_command as_exec_command
  as_call_function as_run_builtin as_builtin_eval as_builtin_command as_builtin_source : safe.

(** ** Loops over lists *)

Lemma tree_loop_safe run e islist ex nodes r :
  (forall nd, given always (run nd)) -> given always (tree_loop run e islist ex nodes r).
Proof.
  intros G. revert r. induction nodes as [|nd nodes IHn]; intros r; cbn [tree_loop]; safe_steps.
Qed.

Lemma cmdlist_loop_safe run e ex nodes r :
  (forall nd, given always (run nd)) -> given always (cmdlist_loop run e ex nodes r).
Proof.
  intros G. revert r. induction nodes as [|nd nodes IHn]; intros r; cbn [cmdlist_loop]; safe_steps.
Qed.

Lemma take_words_safe P x : given P (take_words x).
Proof. unfold take_words. apply given_always. safe_steps. Qed.

#[local] Hint Resolve take_words_safe : safe.

Lemma expanding_safe P h : given P (expanding h).
Proof. unfold expanding, sh_exitcode. apply given_always. safe_steps. Qed.

#[local] Hint Resolve expanding_safe : safe.

Lemma expand_args_safe P args : given P (expand_args args).
Proof. apply expanding_safe. Qed.

Lemma expand_catsa_safe P p w : given P (expand_catsa p w).
Proof. unfold expand_catsa. apply given_always. safe_steps. Qed.

Lemma redir_eval_safe P per now r : given P (redir_eval per now r).
Proof. unfold redir_eval. apply given_always. safe_steps. Qed.

#[local] Hint Resolve expand_args_safe expand_catsa_safe redir_eval_safe : safe.

Lemma redir_loop_safe P per now rs : given P (redir_loop per now rs).
Proof. apply given_always. induction rs as [|r rs IHr]; cbn [redir_loop]; safe_steps. Qed.

Lemma assign_loop_safe P ex lo sas : given P (assign_loop ex lo sas).
Proof. apply given_always. induction sas as [|sa sas IHs]; cbn [assign_loop]; safe_steps. Qed.

Lemma leave_safe P l : given P (leave l).
Proof. apply given_always. unfold leave. safe_steps. Qed.

#[local] Hint Resolve redir_loop_safe assign_loop_safe leave_safe : safe.

Lemma case_pats_safe pats w : given always (case_pats pats w).
Proof. induction pats as [|p pats IHp]; cbn [case_pats]; safe_steps. Qed.

#[local] Hint Resolve case_pats_safe : safe.

Lemma case_loop_safe run cases w :
  (forall cmds, given always (run cmds)) -> given always (case_loop run cases w).
Proof. intros G. induction cases as [|c cases IHc]; cbn [case_loop]; [safe_steps|]. destruct c; safe_steps. Qed.

#[local] Hint Resolve tree_loop_safe cmdlist_loop_safe case_loop_safe : safe.

Lemma for_loop_safe body varn ws ran s0 s :
  given always body -> wf s0 -> ext true false s0 s ->
  inside (ext true false) s0 (for_loop body varn (List.length (s_frames s0)) ws ran) s.
Proof.
  intros G Wf. revert ran s. induction ws as [|w ws IHw]; intros ran s X; cbn [for_loop].
  - exact X.
  - apply (inside_bind (ext true false) _ s0).
    + apply inside_setjmp; [exact X|exact (ext_tight _ _ X)|exact Wf| |now intros v s' X'].
      assert (Y : given always (world_ (w_set_var varn w) ;; body ;; ret (inl (B := Z) tt))) by safe_steps.
      exact (Y s (ext_wf _ _ X (ext_tight _ _ X) Wf) I).
    + intros [u|v] s' _ X'; [exact (IHw true s' X')|].
      destruct (v =? 2); [exact (IHw ran s' X')|exact X'].
Qed.

Lemma eval_loop_text_safe s0 s run cmds :
  wf s0 -> ext false false s0 s ->
  (forall nodes s, wf s -> ext false false s0 s -> safe (run nodes) s) ->
  inside (ext false false) s0 (eval_loop_text run cmds) s.
Proof.
  intros Wf X G. revert s X. induction cmds as [|nodes cmds IHc]; intros s X; cbn [eval_loop_text].
  - exact X.
  - apply (inside_bind (ext false false) _ s0); [|auto].
    apply inside_safe; [exact X|]. apply G; [|exact X]. exact (ext_wf _ _ X (ext_tight _ _ X) Wf).
Qed.

Lemma sh_loop_safe run cmds ending :
  (forall e nodes tf s, wf s -> takes e tf s -> safe (run e nodes tf) s) ->
  given always (sh_loop run cmds ending).
Proof.
  intros G. induction cmds as [|nodes cmds IHc]; cbn [sh_loop]; [safe_steps|].
  refine (given_bind _ _ _ _ _); [apply given_get|intros top]. cbv zeta.
  apply scope_plain; [reflexivity|reflexivity|]. intros s0 s Wf X.
  apply (inside_bind (ext false false) _ s0).
  - apply inside_safe; [exact X|]. apply G; [exact (ext_wf _ _ X (ext_tight _ _ X) Wf)|].
    apply (ext_takes (so := false)); [exact X|..]; destruct (match top with Some f => _ | None => _ end); reflexivity.
  - intros r s' _ X'. eapply inside_pop; [exact Wf|exact X'|]. intros st.
    destruct cmds, ending; safe_steps.
Qed.

(** ** One more level of fuel *)

Section Next.
Context (n : nat) (IH : all_safe n).

Lemma next_tree e nodes tf s : wf s -> takes e tf s -> safe (eval_tree (S n) e nodes tf) s.
Proof.
  intros Wf T. cbn [eval_tree]. cbv zeta.
  apply (safe_bind_from s _ _ s Wf (reflexivity s)); [exact (reflexivity s)|].
  intros fl s' E R Wf1. injection E as <- <-.
  apply (safe_bind_from s _ _ s Wf (reflexivity s)).
  - unfold safe, safe_from, set_flags, update, put. apply rel_alter. intros f L. unfold frame_at. rewrite L.
    assert (Y : fits e (set (f_flags f) tf) s). { intros g L'. rewrite L in L'. injection L' as <-. now apply T. }
    apply (fits_clear e _ E_EXIT s (or_introl eq_refl)); [|exact L].
    exact (fits_clear e _ E_LIST s (or_intror eq_refl) Y).
  - intros u s' _ R' Wf'. apply (safe_from_rel s _ s' R').
    match goal with |- safe ?m s' => assert (Y : given always m) by safe_steps end.
    exact (Y s' Wf' I).
Qed.

Lemma next_cmdlist e cmds : given always (eval_cmdlist (S n) e cmds).
Proof. cbn [eval_cmdlist]. safe_steps. Qed.

Lemma next_node_bgnd e nd : given always (eval_node_bgnd (S n) e nd).
Proof. cbn [eval_node_bgnd]. safe_steps. Qed.

Lemma eval_function_safe P name body : given P (eval_function name body).
Proof.
  apply given_always. unfold eval_function. refine (given_bind _ _ _ _ _).
  - apply given_put. intros s. apply rel_functions.
  - intros _. apply given_ret.
Qed.

Hint Resolve eval_function_safe : safe.

Lemma next_node e nd : given always (eval_node (S n) e nd).
Proof. cbn [eval_node]. unfold sh_exitcode. safe_steps. Qed.

Lemma next_and_or e id l r : given always (eval_and_or (S n) e id l r).
Proof. cbn [eval_and_or]. safe_steps. Qed.

Lemma next_time e posix p : given always (eval_time (S n) e posix p).
Proof. cbn [eval_time]. safe_steps. Qed.

Lemma next_command e nd : given always (eval_command (S n) e nd).
Proof. cbn [eval_command]. unfold sh_exitcode. destruct nd; safe_steps. Qed.

Lemma next_if e ex t c0 c1 : given always (eval_if (S n) e ex t c0 c1).
Proof.
  cbn [eval_if]. refine (given_bind _ _ _ _ _).
  - apply suppressed_always. safe_steps.
  - intros r. safe_steps.
Qed.

Lemma next_case e w cases : given always (eval_case (S n) e w cases).
Proof. cbn [eval_case]. safe_steps. Qed.

Lemma next_simple_command e bg rd vs ar : given always (eval_simple_command (S n) e bg rd vs ar).
Proof. cbn [eval_simple_command]. unfold sh_exitcode. safe_steps. Qed.

Lemma given_exit {A} P c : given (A := A) P (fun s => Exit c s).
Proof. now intros s _ _. Qed.

Hint Resolve given_exit : safe.

Lemma next_exec_command c nm av ex bg : given always (exec_command (S n) c nm av ex bg).
Proof. cbn [exec_command]. safe_steps. Qed.

Lemma next_run_builtin nm av : given always (run_builtin (S n) nm av).
Proof.
  cbn [run_builtin]. unfold builtin_break, builtin_return, builtin_exit, sh_exitcode. safe_steps.
Qed.

Lemma given_via P q : given P (put (fun s => with_via (q s) s)).
Proof. apply given_put. intros s. apply rel_via. Qed.

Hint Resolve given_via : safe.

Lemma next_builtin_command av : given always (builtin_command (S n) av).
Proof. cbn [builtin_command]. safe_steps. Qed.

(** *** Functions that push a frame *)

Lemma next_for e hi args v cmds : given always (eval_for (S n) e hi args v cmds).
Proof.
  cbn [eval_for]. refine (given_bind _ _ _ _ _); [safe_steps|]. intros ws. cbv zeta.
  refine (given_flags_of _ _ _ _). intros fl. refine (given_bind _ _ _ _ _); [safe_step|]. intros _.
  apply scope_jump; [reflexivity|now left|discriminate|]. intros s0 s Wf X _.
  apply (inside_bind (ext true false) _ s0).
  { apply for_loop_safe; [apply (tree_list n IH)|exact Wf|exact X]. }
  intros ran s1 _ X1. apply (inside_step (j := true) (so := false) _ s0 _ _ s1 X1 (plainly_get _)).
  intros st s2 X2. apply (inside_step (j := true) (so := false) _ s0 _ _ s2 X2).
  { apply plainly_if; auto with safe. }
  intros _ s3 X3. eapply inside_pop; [exact Wf|exact X3|]. intros r. safe_steps.
Qed.

Lemma next_loop e id t cmds : given always (eval_loop (S n) e id t cmds).
Proof.
  cbn [eval_loop]. apply scope_jump; [reflexivity|now left|discriminate|]. intros s0 s Wf X _.
  apply (inside_clear_exit (j := true) (so := false) _ s0 _ _ s X). intros s' X'.
  exact (as_loop_from n IH _ _ _ _ _ _ s0 s' Wf X').
Qed.

Lemma next_loop_from e id t cmds ran st s0 s :
  wf s0 -> ext true false s0 s ->
  inside rel s0 (loop_from (S n) e (List.length (s_frames s0)) id t cmds ran st) s.
Proof.
  intros Wf X. cbn [loop_from]. apply (inside_bind (ext true false) _ s0).
  { apply inside_setjmp; [exact X|exact (ext_tight _ _ X)|exact Wf| |now intros v s' X'].
    match goal with |- safe ?m s => assert (Y : given always m) by (unfold exitcode_of; safe_steps) end.
    exact (Y s (ext_wf _ _ X (ext_tight _ _ X) Wf) I). }
  intros [[st'|]|v] s1 _ X1.
  - exact (as_loop_from n IH _ _ _ _ _ _ s0 s1 Wf X1).
  - apply (inside_step (j := true) (so := false) _ s0 _ _ s1 X1).
    { apply plainly_if; auto with safe. }
    intros _ s2 X2. eapply inside_pop; [exact Wf|exact X2|]. intros r. safe_steps.
  - destruct (Z.odd v).
    + apply (inside_bind rel rel s0); [exact (ext_break s0 s1 X1)|]. intros _ s2 _ R2.
      apply (safe_from_rel s0 _ s2 R2).
      match goal with |- safe ?m _ => assert (Y : given always m) by (unfold exitcode_of; safe_steps) end.
      exact (Y s2 (rel_wf _ _ R2 Wf) I).
    + apply (inside_clear_exit (j := true) (so := false) _ s0 _ _ s1 X1). intros s2 X2.
      exact (as_loop_from n IH _ _ _ _ _ _ s0 s2 Wf X2).
Qed.

(** The start of a subshell and of a call *)
Lemma subshell_start {A} st (k : nat -> M W A) s :
  (sh_push ;; set_sh_exitcode st ;; en <- eval_push E_ROOT ;; update en with_jump ;; k en) s =
  k (List.length (s_frames s)) (pushed_env E_ROOT (Env (i16 st) false (v_errexit (s_env s)) false) s).
Proof.
  unfold bind, sh_push, set_sh_exitcode, eval_push, update, put, pushed_env.
  cbn [with_env with_envs with_frames s_frames s_env s_parents s_suppress s_functions s_interactive s_world
    v_exitcode v_cmdsubst_ran v_errexit v_function].
  now rewrite alter_snoc.
Qed.

Lemma call_start {A} (m : nat -> M W A) h (k : nat -> A -> M W Z) s :
  (sh_push ;;
   e <- eval_push E_FUNCTION ;;
   put (fun s => let v := s_env s in
          with_env (Env (v_exitcode v) (v_cmdsubst_ran v) (v_errexit v) true) s) ;;
   r <- setjmp e (update e with_jump ;; m e) h ;;
   k e r) s =
  (r <- setjmp (List.length (s_frames s)) (m (List.length (s_frames s))) h ;; k (List.length (s_frames s)) r)
    (pushed_env E_FUNCTION (Env 0 false (v_errexit (s_env s)) true) s).
Proof.
  unfold bind, setjmp, sh_push, eval_push, update, put, pushed_env.
  cbn [with_env with_envs with_frames s_frames s_env s_parents s_suppress s_functions s_interactive s_world
    v_exitcode v_cmdsubst_ran v_errexit v_function].
  now rewrite alter_snoc.
Qed.

(** What follows the frame of a call or a subshell *)
Lemma bare_step {A} (R : shell W -> shell W -> Prop) s0 q (k : unit -> M W A) s :
  bare s0 s -> (forall s, s_frames (q s) = s_frames s /\ s_parents (q s) = s_parents s /\
    s_suppress (q s) = s_suppress s /\ s_interactive (q s) = s_interactive s) ->
  (forall s', bare s0 s' -> inside R s0 (k tt) s') -> inside R s0 (bind (put q) k) s.
Proof. intros B Q Ik. apply (inside_bind bare R _ _ _ _ (bare_put s0 s q B Q)). intros [] s' _. apply Ik. Qed.

Lemma bare_end {A} s0 (k : unit -> M W A) s :
  wf s0 -> bare s0 s -> given always (k tt) -> inside rel s0 (bind sh_pop k) s.
Proof.
  intros Wf B G. apply (inside_bind rel rel _ _ _ _ (bare_pop s0 s B)). intros [] s' _ R.
  apply (safe_from_rel s0 _ s' R). exact (G s' (rel_wf _ _ R Wf) I).
Qed.

Lemma next_subshell cmds : given always (eval_subshell (S n) cmds).
Proof.
  cbn [eval_subshell]. unfold sh_exitcode. do 3 (refine (given_bind _ _ _ _ _); [apply given_get|intros ?]).
  refine (given_bind _ _ _ _ _); [apply given_world_|intros _].
  intros s0 Wf _. unfold safe, safe_from. rewrite subshell_start.
  pose proof (owned_pushed E_ROOT (Env (i16 a1) false (v_errexit (s_env s0)) false) s0
    eq_refl eq_refl eq_refl eq_refl) as X. cbn [v_function] in X.
  revert X. generalize (pushed_env E_ROOT (Env (i16 a1) false (v_errexit (s_env s0)) false) s0). intros s X.
  match goal with |- match ?m s with _ => _ end => change (inside rel s0 m s) end.
  apply (inside_bind (owned false) _ s0).
  { apply owned_setjmp; [exact X| |].
    - match goal with |- safe ?m _ => assert (Y : given always m) by safe_steps end.
      exact (Y s (owned_wf _ _ X Wf) I).
    - intros v s' X'. apply inside_plainly_owned; [auto with safe|exact X']. }
  intros _ s1 _ X1. apply (inside_bind bare _ s0 _ _ _ (owned_pop s0 s1 X1)). intros r s2 _ B2.
  apply bare_step; [exact B2|easy|]. intros s3 B3.
  apply bare_end; [exact Wf|exact B3|]. safe_steps.
Qed.

Lemma next_call_function bd av : given always (call_function (S n) bd av).
Proof.
  cbn [call_function]. refine (given_bind _ _ _ _ _); [apply given_world_|intros _].
  intros s0 Wf _. unfold safe, safe_from. rewrite call_start.
  pose proof (owned_pushed E_FUNCTION (Env 0 false (v_errexit (s_env s0)) true) s0
    eq_refl eq_refl eq_refl eq_refl) as X. cbn [v_function] in X.
  revert X. generalize (pushed_env E_FUNCTION (Env 0 false (v_errexit (s_env s0)) true) s0). intros s X.
  match goal with |- match ?m s with _ => _ end => change (inside rel s0 m s) end.
  apply (inside_bind (owned true) _ s0).
  { apply owned_setjmp; [exact X| |].
    - match goal with |- safe ?m _ => assert (Y : given always m) by safe_steps end.
      exact (Y s (owned_wf _ _ X Wf) I).
    - intros v s' X'. apply inside_plainly_owned; [auto with safe|exact X']. }
  intros r s1 _ X1. apply (inside_bind bare _ s0 _ _ _ (owned_pop s0 s1 X1)). intros r' s2 _ B2.
  apply bare_end; [exact Wf|exact B2|]. safe_steps.
Qed.

Lemma next_builtin_eval ar : given always (builtin_eval (S n) ar).
Proof.
  cbn [builtin_eval]. apply scope_plain; [reflexivity|reflexivity|]. intros s0 s Wf X.
  destruct (w_parse (join_args ar)) as [cmds ending].
  apply (inside_bind (ext false false) _ s0).
  { apply (eval_loop_text_safe s0 s _ _ Wf X). intros nodes s' Wf' X'.
    apply (as_tree n IH); [exact Wf'|]. apply (ext_takes (so := false)); [exact X'|reflexivity..]. }
  intros _ s1 _ X1. eapply inside_pop; [exact Wf|exact X1|]. intros r. safe_steps.
Qed.

Lemma next_builtin_source ar : given always (builtin_source (S n) ar).
Proof.
  cbn [builtin_source]. destruct ar as [|fname argv]; [apply given_ret|].
  intros s00 Wf00 _. unfold safe, safe_from, bind at 1, get at 1.
  destruct (w_file fname (s_world s00)) as [[[empty cmds] ending]|] eqn:File.
  2:{ match goal with |- match ?m s00 with _ => _ end => assert (Y : given always m) by safe_steps end.
      exact (Y s00 Wf00 I). }
  match goal with |- match ?m s00 with _ => _ end => enough (Y : given always m) by exact (Y s00 Wf00 I) end.
  refine (given_bind _ _ _ _ _); [apply given_world_|intros _].
  apply scope_jump; [reflexivity|now right| |].
  { intros _ [Q|Q]; [exact Q|]. now rewrite Q in File. }
  intros s0 s Wf X T. change (has (set E_ROOT E_SOURCE) E_SOURCE) with true in X.
  apply (inside_bind (ext true true) _ s0).
  { apply inside_setjmp; [exact X|exact T|exact Wf| |].
    - assert (Y : given always (sh_loop (fun e' nodes fl => eval_tree n e' nodes fl) cmds ending ;;
                      (if (empty : bool) then set_sh_exitcode 0 else ret tt) ;; sh_exitcode)).
      { refine (given_bind _ _ _ _ _); [|intros _; unfold sh_exitcode; safe_steps].
        apply sh_loop_safe. intros e nodes tf s' Wf' Ta. exact (as_tree n IH e nodes tf s' Wf' Ta). }
      exact (Y s (ext_wf _ _ X T Wf) I).
    - intros v s' X'. apply inside_plainly; [|exact X'].
      apply plainly_bind; [apply plainly_set_sh_exitcode|intros; apply plainly_ret]. }
  intros r s1 _ X1. apply (inside_step (j := true) (so := true) _ s0 _ _ s1 X1 (plainly_get _)).
  intros pe s2 X2. apply (inside_step (j := true) (so := true) _ s0 _ _ s2 X2 (plainly_get _)).
  intros pc s3 X3. eapply inside_pop; [exact Wf|exact X3|]. intros r'. safe_steps.
Qed.

Lemma next_safe : all_safe (S n).
Proof.
  split.
  - exact next_tree.
  - exact next_cmdlist.
  - exact next_node_bgnd.
  - exact next_node.
  - exact next_and_or.
  - exact next_time.
  - exact next_command.
  - exact next_if.
  - exact next_for.
  - exact next_case.
  - exact next_loop.
  - exact next_loop_from.
  - exact next_subshell.
  - exact next_simple_command.
  - exact next_exec_command.
  - exact next_call_function.
  - exact next_run_builtin.
  - exact next_builtin_eval.
  - exact next_builtin_command.
  - exact next_builtin_source.
Qed.

End Next.

Lemma eval_safe n : all_safe n.
Proof. induction n as [|n IH]; [exact all_safe_0|exact (next_safe n IH)]. Qed.

End Safe.
