(* ===== verification/EvalFuel.v ===== *)
(** * Fuel (src/eval)

    More fuel does not change the outcome of an evaluation that had enough,
    so "the result with some fuel" is a function of the program. *)

From S2P Require Import Prelude Scan Tree Fnmatch EvalState Eval.

Section Fuel.
Context {W : Type} `{World W}.

(** [m'] does what [m] does whenever [m] has enough fuel. *)
Definition refines {A} (m m' : M W A) : Prop := forall s, m s = NoFuel \/ m s = m' s.

Lemma refines_refl {A} (m : M W A) : refines m m.
Proof. now right. Qed.

Lemma refines_bind {A B} (m m' : M W A) (k k' : A -> M W B) :
  refines m m' -> (forall a, refines (k a) (k' a)) -> refines (bind m k) (bind m' k').
Proof.
  intros R Rk s. unfold bind. destruct (R s) as [-> | <-]; [now left|].
  destruct (m s) as [a s'|t v s'|c s'| |]; try (now right). apply Rk.
Qed.

Lemma refines_setjmp {A} t (m m' : M W A) (h : Z -> M W A) :
  refines m m' -> refines (setjmp t m h) (setjmp t m' h).
Proof. intros R s. unfold setjmp. destruct (R s) as [-> | <-]; [now left|now right]. Qed.

Lemma refines_if {A} (c : bool) (m m' k k' : M W A) :
  refines m m' -> refines k k' -> refines (if c then m else k) (if c then m' else k').
Proof. now destruct c. Qed.

Lemma refines_suppressed {A} (m m' : M W A) : refines m m' -> refines (suppressed m) (suppressed m').
Proof.
  intros R. unfold suppressed. apply refines_bind; [apply refines_refl|intros _].
  apply refines_bind; [exact R|intros; apply refines_refl].
Qed.

Lemma refines_fuel {A} (m : M W A) : refines out_of_fuel m.
Proof. now left. Qed.

End Fuel.

Create HintDb fuel.

(** One step through two programs of the same shape *)
Ltac fuel_step :=
  lazymatch goal with
  | |- refines ?m ?m => apply refines_refl
  | |- refines (bind _ _) (bind _ _) => apply refines_bind; [|intros ?]
  | |- refines (setjmp _ _ _) (setjmp _ _ _) => apply refines_setjmp
  | |- refines (suppressed _) (suppressed _) => apply refines_suppressed
  | |- refines (let '(_, _) := ?x in _) _ => destruct x
  | |- refines (if _ then _ else _) (if _ then _ else _) => apply refines_if
  | |- refines (match ?x with _ => _ end) (match ?x with _ => _ end) => destruct x
  | |- refines _ _ => solve [auto with fuel]
  end.
Ltac fuel_steps := cbv zeta; repeat (fuel_step; cbv zeta).

Section Mono.
Context {W : Type} `{World W}.

(** ** Loops over lists *)

Lemma tree_loop_refines run run' e islist ex nodes r :
  (forall nd, refines (run nd) (run' nd)) ->
  refines (tree_loop run e islist ex nodes r) (tree_loop run' e islist ex nodes r).
Proof. intros R. revert r. induction nodes as [|nd nodes IH]; intros r; cbn [tree_loop]; fuel_steps. Qed.

Lemma cmdlist_loop_refines run run' e ex nodes r :
  (forall nd, refines (run nd) (run' nd)) ->
  refines (cmdlist_loop run e ex nodes r) (cmdlist_loop run' e ex nodes r).
Proof. intros R. revert r. induction nodes as [|nd nodes IH]; intros r; cbn [cmdlist_loop]; fuel_steps. Qed.

Lemma for_loop_refines body body' v en ws ran :
  refines body body' -> refines (for_loop body v en ws ran) (for_loop body' v en ws ran).
Proof. intros R. revert ran. induction ws as [|w ws IH]; intros ran; cbn [for_loop]; fuel_steps. Qed.

Lemma case_loop_refines run run' cases w :
  (forall c, refines (run c) (run' c)) -> refines (case_loop run cases w) (case_loop run' cases w).
Proof. intros R. induction cases as [|c cases IH]; cbn [case_loop]; [fuel_steps|]. destruct c; fuel_steps. Qed.

Lemma eval_loop_text_refines run run' cmds :
  (forall c, refines (run c) (run' c)) -> refines (eval_loop_text run cmds) (eval_loop_text run' cmds).
Proof. intros R. induction cmds as [|c cmds IH]; cbn [eval_loop_text]; fuel_steps. Qed.

Lemma sh_loop_refines run run' cmds ending :
  (forall e nodes tf, refines (run e nodes tf) (run' e nodes tf)) ->
  refines (sh_loop run cmds ending) (sh_loop run' cmds ending).
Proof.
  intros R. induction cmds as [|c cmds IH]; cbn [sh_loop]; [fuel_steps|].
  do 5 (apply refines_bind; [fuel_steps|intros ?]; cbv zeta).
  destruct cmds; [destruct ending; fuel_steps|exact IH].
Qed.

(** ** The functions of two levels of fuel *)

Record all_refine (n n' : nat) : Prop := {
  ar_tree : forall e nodes tf, refines (eval_tree n e nodes tf) (eval_tree n' e nodes tf);
  ar_cmdlist : forall e cmds, refines (eval_cmdlist n e cmds) (eval_cmdlist n' e cmds);
  ar_node_bgnd : forall e nd, refines (eval_node_bgnd n e nd) (eval_node_bgnd n' e nd);
  ar_node : forall e nd, refines (eval_node n e nd) (eval_node n' e nd);
  ar_and_or : forall e id l r, refines (eval_and_or n e id l r) (eval_and_or n' e id l r);
  ar_time : forall e posix p, refines (eval_time n e posix p) (eval_time n' e posix p);
  ar_command : forall e nd, refines (eval_command n e nd) (eval_command n' e nd);
  ar_if : forall e ex t c0 c1, refines (eval_if n e ex t c0 c1) (eval_if n' e ex t c0 c1);
  ar_for : forall e hi args v cmds, refines (eval_for n e hi args v cmds) (eval_for n' e hi args v cmds);
  ar_case : forall e w cases, refines (eval_case n e w cases) (eval_case n' e w cases);
  ar_loop : forall e id t cmds, refines (eval_loop n e id t cmds) (eval_loop n' e id t cmds);
  ar_loop_from : forall e en id t cmds ran st,
    refines (loop_from n e en id t cmds ran st) (loop_from n' e en id t cmds ran st);
  ar_subshell : forall cmds, refines (eval_subshell n cmds) (eval_subshell n' cmds);
  ar_simple_command : forall e bg rd vs ar,
    refines (eval_simple_command n e bg rd vs ar) (eval_simple_command n' e bg rd vs ar);
  ar_exec_command : forall c nm av ex bg,
    refines (exec_command n c nm av ex bg) (exec_command n' c nm av ex bg);
  ar_call_function : forall bd av, refines (call_function n bd av) (call_function n' bd av);
  ar_run_builtin : forall nm av, refines (run_builtin n nm av) (run_builtin n' nm av);
  ar_builtin_eval : forall ar, refines (builtin_eval n ar) (builtin_eval n' ar);
  ar_builtin_command : forall av, refines (builtin_command n av) (builtin_command n' av);
  ar_builtin_source : forall ar, refines (builtin_source n ar) (builtin_source n' ar)
}.

#[local] Hint Resolve tree_loop_refines cmdlist_loop_refines for_loop_refines case_loop_refines
  eval_loop_text_refines sh_loop_refines
  ar_tree ar_cmdlist ar_node_bgnd ar_node ar_and_or ar_time ar_command ar_if ar_for ar_case ar_loop
  ar_loop_from ar_subshell ar_simple_command ar_exec_command ar_call_function ar_run_builtin
  ar_builtin_eval ar_builtin_command ar_builtin_source : fuel.

Section Next.
Context (n n' : nat) (IH : all_refine n n').

Lemma refine_simple_command e bg rd vs ar :
  refines (eval_simple_command (S n) e bg rd vs ar) (eval_simple_command (S n') e bg rd vs ar).
Proof. cbn [eval_simple_command]. fuel_steps. Qed.

Lemma refine_exec_command c nm av ex bg :
  refines (exec_command (S n) c nm av ex bg) (exec_command (S n') c nm av ex bg).
Proof. cbn [exec_command]. fuel_steps. Qed.

Lemma refine_source ar : refines (builtin_source (S n) ar) (builtin_source (S n') ar).
Proof. cbn [builtin_source]. fuel_steps. Qed.

Lemma refine_next : all_refine (S n) (S n').
Proof.
  split; intros.
  - cbn [eval_tree]. fuel_steps.
  - cbn [eval_cmdlist]. fuel_steps.
  - cbn [eval_node_bgnd]. fuel_steps.
  - cbn [eval_node]. fuel_steps.
  - cbn [eval_and_or]. fuel_steps.
  - cbn [eval_time]. fuel_steps.
  - cbn [eval_command]. fuel_steps.
  - cbn [eval_if]. apply refines_bind; [fuel_steps|intros st]. fuel_steps.
  - cbn [eval_for]. fuel_steps.
  - cbn [eval_case]. fuel_steps.
  - cbn [eval_loop]. fuel_steps.
  - cbn [loop_from]. fuel_steps.
  - cbn [eval_subshell]. fuel_steps.
  - apply refine_simple_command.
  - apply refine_exec_command.
  - cbn [call_function]. fuel_steps.
  - cbn [run_builtin]. fuel_steps.
  - cbn [builtin_eval]. fuel_steps.
  - cbn [builtin_command]. fuel_steps.
  - apply refine_source.
Qed.

End Next.

Lemma eval_refines n k : all_refine n (n + k).
Proof.
  revert k. induction n as [|n IH]; intros k.
  - split; intros; apply refines_fuel.
  - exact (refine_next n (n + k) (IH k)).
Qed.

(** Enough fuel is enough. *)
Lemma more_fuel n k e nodes tf s r :
  eval_tree n e nodes tf s = r -> r <> NoFuel -> eval_tree (n + k) e nodes tf s = r.
Proof.
  intros <- N. destruct (ar_tree _ _ (eval_refines n k) e nodes tf s) as [X|X]; [contradiction|now symmetry].
Qed.

End Mono.
