(* ===== verification/EvalProps.v ===== *)
(** * What the evaluator promises (src/eval, src/exec/exec_command.c)

    The properties of whole evaluations, and the shell over literal words on
    which they are tried. *)

From S2P Require Import Prelude Scan Tree Fnmatch EvalState Eval EvalFlow EvalScope EvalSafe EvalFuel.

Section Ends.
Context {W : Type} `{World W}.

Implicit Types (s : shell W) (f g : frame W).

(** ** A subshell and a call, exactly *)

Lemma eval_subshell_run n cmds s :
  let en := List.length (s_frames s) in
  eval_subshell (S n) cmds s =
  (setjmp en (eval_tree n en cmds E_LIST ;; ret tt) (fun v => set_exitcode en (Z.shiftr v 1)) ;;
   r <- eval_pop en ;;
   put (with_functions (s_functions s)) ;;
   sh_pop ;;
   world_ (w_subshell_leave (s_world s)) ;;
   set_sh_exitcode r ;;
   ret r)
  (pushed_env E_ROOT (Env (i16 (v_exitcode (s_env s))) false (v_errexit (s_env s)) false)
    (with_world (w_subshell_enter (s_world s)) s)).
Proof.
  exact (subshell_start (v_exitcode (s_env s)) (fun en =>
    setjmp en (eval_tree n en cmds E_LIST ;; ret tt) (fun v => set_exitcode en (Z.shiftr v 1)) ;;
    r <- eval_pop en ;;
    put (with_functions (s_functions s)) ;;
    sh_pop ;;
    world_ (w_subshell_leave (s_world s)) ;;
    set_sh_exitcode r ;;
    ret r) (with_world (w_subshell_enter (s_world s)) s)).
Qed.

(** A state that differs only in its world *)
Lemma wf_world w s : wf s -> wf (with_world w s).
Proof. apply rel_wf, rel_world. Qed.

(** The state after a subshell: only the status and the world differ. *)
Definition subshell_end s r s' : Prop :=
  rel s s' /\ s_functions s' = s_functions s /\
  s_env s' = Env (i16 r) (v_cmdsubst_ran (s_env s)) (v_errexit (s_env s)) (v_function (s_env s)) /\
  exists w, s_world s' = w_subshell_leave (s_world s) w.

Lemma subshell_ends n cmds s :
  wf s -> ends (subshell_end s) (fun _ => False) (eval_subshell n cmds) s.
Proof.
  intros Wf. destruct n as [|n]; [exact I|]. unfold ends. rewrite eval_subshell_run. cbv zeta.
  set (s0 := with_world (w_subshell_enter (s_world s)) s).
  set (v := Env (i16 (v_exitcode (s_env s))) false (v_errexit (s_env s)) false).
  pose proof (owned_pushed E_ROOT v s0 eq_refl eq_refl eq_refl eq_refl) as X. cbn [v v_function] in X.
  match goal with |- match ?m ?s1 with _ => _ end => change (ends (subshell_end s) (fun _ => False) m s1) end.
  eapply ends_bind.
  { apply (owned_setjmp_ends (fn := false) s0 _ _ _ _ X); [|discriminate|intros w; auto with safe].
    assert (Y : given always (eval_tree n (List.length (s_frames s0)) cmds E_LIST ;; ret tt)) by
      (refine (given_bind _ _ _ _ _); [apply (tree_list n (eval_safe n))|intros _; apply given_ret]).
    exact (Y _ (owned_wf _ _ X (wf_world _ _ Wf)) I). }
  intros u s2 X2. eapply ends_bind; [exact (owned_pop_ends s0 s2 _ X2)|].
  intros r s3 [Fr Pa Su In]. unfold ends, bind, put, sh_pop, world_, set_sh_exitcode, ret, subshell_end.
  destruct s3 as [fr en pa su fu it w]. cbn in *. subst pa. cbn.
  split; [split; cbn; auto|]. repeat split. eexists. reflexivity.
Qed.

Definition function_body n e (bd : node) : M W Z :=
  match bd with
  | ngrp id _ _ cmds => if kind_eqb id N_LIST then eval_cmdlist n e cmds else eval_command n e bd
  | _ => eval_command n e bd
  end.

Lemma call_function_run n bd av s :
  let e := List.length (s_frames s) in
  call_function (S n) bd av s =
  (r <- setjmp e (r <- function_body n e bd ;; set_exitcode e r ;; ret r) (fun v => ret (Z.shiftr v 1)) ;;
   eval_pop e ;; sh_pop ;; world_ w_call_leave ;; ret r)
  (pushed_env E_FUNCTION (Env 0 false (v_errexit (s_env s)) true)
    (with_world (w_call_enter av (s_world s)) s)).
Proof.
  exact (call_start (fun e => r <- function_body n e bd ;; set_exitcode e r ;; ret r)
    (fun v => ret (Z.shiftr v 1))
    (fun e r => eval_pop e ;; sh_pop ;; world_ w_call_leave ;; ret r)
    (with_world (w_call_enter av (s_world s)) s)).
Qed.

Lemma call_ends n bd av s :
  wf s ->
  ends (fun _ s' => rel s s' /\ s_env s' = s_env s) (fun v => Z.odd v = true) (call_function n bd av) s.
Proof.
  intros Wf. destruct n as [|n]; [exact I|]. unfold ends. rewrite call_function_run. cbv zeta.
  set (s0 := with_world (w_call_enter av (s_world s)) s).
  set (v := Env 0 false (v_errexit (s_env s)) true).
  pose proof (owned_pushed E_FUNCTION v s0 eq_refl eq_refl eq_refl eq_refl) as X. cbn [v v_function] in X.
  match goal with |- match ?m ?s1 with _ => _ end =>
    change (ends (fun _ s' => rel s s' /\ s_env s' = s_env s) (fun v => Z.odd v = true) m s1) end.
  eapply ends_bind.
  { apply (owned_setjmp_ends (fn := true) s0 _ _ _ _ X); [|auto|intros w; auto with safe].
    pose proof (eval_safe n) as Sn.
    assert (Y : given always (r <- function_body n (List.length (s_frames s0)) bd ;;
      set_exitcode (List.length (s_frames s0)) r ;; ret r)).
    { refine (given_bind _ _ _ _ _); [|intros r; safe_steps].
      unfold function_body. destruct bd; try (apply (as_command n Sn)).
      apply given_if; [apply (as_cmdlist n Sn)|apply (as_command n Sn)]. }
    exact (Y _ (owned_wf _ _ X (wf_world _ _ Wf)) I). }
  intros r s2 X2. eapply ends_bind; [exact (owned_pop_ends s0 s2 _ X2)|].
  intros r' s3 [Fr Pa Su In]. unfold ends, bind, put, sh_pop, world_, ret.
  destruct s3 as [fr en pa su fu it w]. cbn in *. subst pa. cbn.
  split; [split; cbn; auto|reflexivity].
Qed.

End Ends.

(** ** Stacks *)

Section Promises.
Context {W : Type} `{World W}.

Implicit Types (s : shell W) (f g : frame W).

(** C1: Whatever a list of commands does - loops, functions, subshells, "eval",
    ".", "break", "return", "exit" - when its evaluation comes back to the
    caller, the stack of frames has its old height, every frame keeps its saved
    marks and its jump buffer, the chain of environments below the current one
    is the same, and "set -e" is suppressed at least as often as before; the
    state is well-formed again (functions and subshells own exactly the
    environments of the chain). *)
Theorem eval_tree_keeps_stacks n e nodes s r s' :
  wf s -> eval_tree n e nodes E_LIST s = Ret r s' ->
  List.length (s_frames s') = List.length (s_frames s) /\
  map f_mark (s_frames s') = map f_mark (s_frames s) /\
  map f_jump (s_frames s') = map f_jump (s_frames s) /\
  s_parents s' = s_parents s /\ s_suppress s <= s_suppress s' /\ wf s'.
Proof.
  intros Wf E. pose proof (as_tree n (eval_safe n) e nodes E_LIST s Wf (takes_list e s)) as R.
  unfold safe, safe_from in R. rewrite E in R. pose proof (rel_frames _ _ R) as F.
  split; [symmetry; exact (Forall2_length _ _ _ F)|].
  split; [clear -F; induction F as [|a c l l' X _ IH]; cbn; [reflexivity|now rewrite IH, (same_mark _ _ X)]|].
  split; [clear -F; induction F as [|a c l l' X _ IH]; cbn; [reflexivity|now rewrite IH, (same_jump _ _ X)]|].
  split; [apply R|]. split; [apply R|exact (rel_wf _ _ R Wf)].
Qed.

(** C2: A [longjmp] out of a list of commands goes to a frame that is on the
    stack and has a jump buffer; it never leaves a subshell; it leaves a
    function call only as "exit" on its way to a root frame; and it unwinds
    exactly the environments that the frames above the target own. *)
Theorem eval_tree_jump_target n e nodes s t v s' :
  wf s -> eval_tree n e nodes E_LIST s = Jump t v s' ->
  exists f, s_frames s !! t = Some f /\ f_jump f = true /\
    Forall (fun g => is_subshell g = false) (drop (S t) (s_frames s)) /\
    (Exists (fun g => is_function g = true) (drop (S t) (s_frames s)) ->
      Z.odd v = true /\ has (f_flags f) E_ROOT = true) /\
    s_parents s' = drop (envs_owned (drop (S t) (s_frames s))) (s_parents s).
Proof.
  intros Wf E. pose proof (as_tree n (eval_safe n) e nodes E_LIST s Wf (takes_list e s)) as J.
  unfold safe, safe_from in J. rewrite E in J. destruct (ju_target _ _ _ _ J) as (f & L & Ju & _ & Cr).
  exists f. split; [exact L|]. split; [exact Ju|]. split; [apply J|]. split; [|apply J].
  intros Ex. destruct Cr as [Cr|Cr]; [exact Cr|]. apply Exists_exists in Ex as (g & In & Fn).
  rewrite Forall_forall in Cr. rewrite (Cr g In) in Fn. discriminate.
Qed.

(** The assertion of eval_pop, that the frame popped is the current one,
    holds in every evaluation, provided no "." file is read (a "break" in
    such a file is the exception) or assertions are compiled out. *)
Theorem eval_tree_no_assertion n e nodes s :
  wf s -> quiet (W := W) -> eval_tree n e nodes E_LIST s <> Abort.
Proof.
  intros Wf Q E. pose proof (as_tree n (eval_safe n) e nodes E_LIST s Wf (takes_list e s)) as X.
  unfold safe, safe_from in X. rewrite E in X. exact (X Q).
Qed.


(** C12: A function call gives back the caller's environment - "$?", options,
    everything - and the same frames, however the body ended; what passes
    through it is only the jump of an "exit", never a "break", "continue" or
    "return". *)
Theorem call_function_contained n body argv s :
  wf s ->
  match call_function n body argv s with
  | Ret _ s' =>
      s_env s' = s_env s /\ s_parents s' = s_parents s /\
      List.length (s_frames s') = List.length (s_frames s)
  | Jump _ v _ => Z.odd v = true
  | Exit _ _ | Abort | NoFuel => True
  end.
Proof.
  intros Wf. pose proof (call_ends n body argv s Wf) as X. unfold ends in X.
  destruct (call_function n body argv s) as [r s'|t v s'|c s'| |]; try exact X.
  destruct X as (R & En). split; [exact En|]. split; [apply R|].
  symmetry. exact (Forall2_length _ _ _ (rel_frames _ _ R)).
Qed.

(** C13: sh_exit never comes back: in a well-formed state it either jumps to the
    nearest subshell or "." file, delivering the status and leaving exactly
    that frame's environment current, or ends the process with the status. *)
Theorem sh_exit_never_returns code s :
  wf s ->
  match sh_exit code s with
  | Jump t v s' =>
      Z.shiftr v 1 = code /\ Z.odd v = true /\
      (exists f, s_frames s !! t = Some f /\ f_jump f = true /\ has (f_flags f) E_ROOT = true /\
        Forall no_root (drop (S t) (s_frames s))) /\
      s_parents s' = drop (functions (drop (S t) (s_frames s))) (s_parents s)
  | Exit code' _ => code' = code /\ Forall no_root (s_frames s)
  | Ret _ _ | Abort | NoFuel => False
  end.
Proof.
  intros Wf. pose proof (sh_exit_spec code s Wf) as X. pose proof (find_root_spec (s_frames s) 0) as Y.
  unfold sh_exit, eval_exit, inner_first in *.
  destruct (find_root (rev (indexed 0 (s_frames s))) 0) as [[i|] k]; cbn [jump_to] in *.
  - destruct X as [J E]. destruct Y as (f & L & Ju & Ro & No & ->).
    split; [|split; [apply odd_exit_value|split; [now exists f|]]].
    + apply Z.bits_inj. intros j. destruct (Z_lt_le_dec j 0); [now rewrite !Z.testbit_neg_r by lia|].
      rewrite Z.shiftr_spec, Z.lor_spec, Z.shiftl_spec by lia.
      replace (j + 1 - 1) with j by lia.
      rewrite (Z.bits_above_log2 1 (j + 1)) by (cbn; lia). apply orb_false_r.
    + rewrite (ju_parents _ _ _ _ J). f_equal. now apply no_root_envs.
  - destruct (at_root s); [|contradiction]. now split.
Qed.

(** *** break and continue *)

(** The loops a "break" can see, innermost first: none beyond a function, a
    subshell, the top of a script or a "." file. *)
Fixpoint loops_in_reach (l : list (nat * frame W)) : list nat :=
  match l with
  | [] => []
  | (i, f) :: l =>
      if is_source f || is_function f || (has (f_flags f) E_ROOT && negb (has (f_flags f) E_EVAL)) then []
      else if f_jump f && has (f_flags f) E_LOOP then i :: loops_in_reach l
      else loops_in_reach l
  end.

Lemma find_loop_nth l levels j :
  fst (fst (find_loop l levels j)) =
  match last (take (Z.to_nat levels) (loops_in_reach l)) with Some i => Some i | None => j end.
Proof.
  revert levels j. induction l as [|[i f] l IH]; intros levels j.
  - cbn. now rewrite take_nil.
  - cbn [find_loop loops_in_reach]. destruct (Z.leb_spec levels 0) as [Le|Gt].
    { replace (Z.to_nat levels) with O by lia. reflexivity. }
    rewrite root_only. unfold is_source, is_function.
    destruct (has (f_flags f) E_SOURCE); cbn [orb]; [now rewrite take_nil|].
    destruct (has (f_flags f) E_FUNCTION); cbn [orb]; [now rewrite take_nil|].
    destruct (has (f_flags f) E_ROOT && _); [now rewrite take_nil|].
    destruct (f_jump f && _); rewrite IH; [|reflexivity].
    replace (Z.to_nat levels) with (S (Z.to_nat (levels - 1))) by lia. cbn [take firstn].
    destruct (take (Z.to_nat (levels - 1)) (loops_in_reach l)) as [|x k]; [reflexivity|].
    change (last (i :: x :: k)) with (last (x :: k)).
    destruct (last (x :: k)) eqn:La; [reflexivity|]. apply last_None in La. discriminate.
Qed.

(** C14: "break n" and "continue n" go to the n-th loop around them, or to the
    outermost when there are fewer, counting only the loops that no function,
    subshell, script or "." file separates from them; all frames above that
    loop's are gone. *)
Theorem eval_jump_nth levels cont s j :
  last (take (Z.to_nat levels) (loops_in_reach (inner_first s))) = Some j ->
  exists s', eval_jump levels cont s = Jump j (if cont then 2 else 1) s' /\
    s_frames s' = take (S j) (s_frames s) /\ s_env s' = s_env s /\ s_parents s' = s_parents s.
Proof.
  intros L. pose proof (find_loop_nth (inner_first s) levels None) as X. rewrite L in X.
  unfold eval_jump. destruct (find_loop (inner_first s) levels None) as [[j' n] sf]. cbn in X. subst j'.
  eexists. split; [reflexivity|]. now cbn.
Qed.

(** ** Fuel *)

(** The outcome of an evaluation does not depend on the fuel: two amounts
    that are both enough give the same status, jump and state. *)
Theorem eval_tree_fuel_irrelevant n n' e nodes tf s :
  eval_tree n e nodes tf s <> NoFuel -> eval_tree n' e nodes tf s <> NoFuel ->
  eval_tree n e nodes tf s = eval_tree n' e nodes tf s.
Proof.
  intros N N'. destruct (Nat.le_ge_cases n n') as [Le|Le].
  - replace n' with (n + (n' - n))%nat by lia. symmetry. now apply more_fuel.
  - replace n with (n' + (n - n'))%nat by lia. now apply more_fuel.
Qed.

(** ** case *)

Section Case.
(** Expanding a pattern or the word yields a text and changes nothing. *)
Variable text : node -> bytes.
Hypothesis expansion : forall pattern st p w,
  w_expand_text pattern st (Some p) w = (Words [text p] None, w).

Definition clause_matches (word : bytes) (clause : node) : Prop :=
  match clause with
  | ncasenode pats _ => Exists (fun p => wmatch 0 (text p) word) pats
  | _ => False
  end.

Definition no_bracket (clause : node) : Prop :=
  match clause with
  | ncasenode pats _ => Forall (fun p => ~ In (ch "[") (text p)) pats
  | _ => True
  end.

Lemma expand_catsa_text pattern p s : expand_catsa pattern (Some p) s = Ret (text p) s.
Proof.
  unfold expand_catsa, expanding, bind, sh_exitcode, get, world. rewrite expansion. now destruct s.
Qed.

Lemma case_pats_match pats word s :
  Forall is_byte word -> Forall (fun p => ~ In (ch "[") (text p)) pats ->
  exists found, case_pats pats word s = Ret found s /\
    (found = true <-> Exists (fun p => wmatch 0 (text p) word) pats).
Proof.
  intros By. induction 1 as [|p pats Nb _ IH]; cbn [case_pats].
  - exists false. split; [reflexivity|]. split; [discriminate|]. inversion 1.
  - unfold bind at 1. rewrite expand_catsa_text.
    destruct (path_fnmatch_simple (text p) word By Nb) as (r & -> & Ok).
    destruct (Z.eqb_spec r 0) as [R|R].
    + exists true. split; [reflexivity|]. split; [|reflexivity]. intros _. left. now apply Ok.
    + destruct IH as (found & -> & Fo). exists found. split; [reflexivity|]. rewrite Fo.
      split; [now right|]. inversion_clear 1; [now destruct R; apply Ok|assumption].
Qed.

Lemma case_loop_first run before word rest s :
  Forall is_byte word -> Forall no_bracket before ->
  Forall (fun c => ~ clause_matches word c) before ->
  case_loop run (before ++ rest) word s = case_loop run rest word s.
Proof.
  intros By Nb. induction 1 as [|c before Nm _ IH]; [reflexivity|]. apply Forall_cons_1 in Nb as [Nbc Nb].
  cbn [app]. destruct c; cbn [case_loop]; try (exact (IH Nb)).
  unfold bind at 1. destruct (case_pats_match pats word s By Nbc) as (found & -> & Fo).
  destruct found; [|exact (IH Nb)]. destruct Nm. now apply Fo.
Qed.

End Case.

(** ** while and until *)

(** What a loop means: the test, and the body each time the test does not end
    it.  The value is whether the body ran and the last status it left. *)
Inductive loop_runs (test body : M W Z) (stop : Z -> bool) (e : nat) :
    bool -> Z -> shell W -> bool -> Z -> shell W -> Prop :=
  | loop_done ran st s r s' : test s = Ret r s' -> stop r = true -> loop_runs test body stop e ran st s ran st s'
  | loop_next ran st s r s1 q s2 ran' st' s' :
      test s = Ret r s1 -> stop r = false -> body s1 = Ret q s2 ->
      loop_runs test body stop e true (f_exitcode (frame_at e s2)) s2 ran' st' s' ->
      loop_runs test body stop e ran st s ran' st' s'.

Definition loop_test n e t : M W Z := suppressed (eval_tree n e t E_LIST).
Definition loop_stop (id : kind) (r : Z) : bool := negb (r =? (if kind_eqb id N_WHILE then 0 else 1)).

(** How a loop ends that was not left by a jump *)
Definition loop_end (en : nat) (ran : bool) (st : Z) : M W Z :=
  (if ran then set_exitcode en st else ret tt) ;;
  r <- eval_pop en ;;
  set_sh_exitcode r ;;
  ret r.

Lemma loop_test_more n k e t s r s' : loop_test n e t s = Ret r s' -> loop_test (n + k) e t s = Ret r s'.
Proof.
  intros X. destruct (refines_suppressed _ _ (ar_tree _ _ (eval_refines n k) e t E_LIST) s) as [Y|Y];
    unfold loop_test in *; congruence.
Qed.

(** One round of the loop *)
Lemma loop_from_S m e en id t cmds ran st :
  loop_from (S m) e en id t cmds ran st =
  (r <- setjmp en
         (r <- loop_test m e t ;;
          if loop_stop id r then ret (inl None)
          else
            eval_tree m e cmds E_LIST ;;
            st <- exitcode_of e ;;
            ret (inl (Some st)))
         (fun v => ret (inr v)) ;;
   match r with
   | inl (Some st) => loop_from m e en id t cmds true st
   | inl None => loop_end en ran st
   | inr v =>
       if Z.odd v then
         put (fun s => with_frames (take en (s_frames s)) s) ;;
         r <- exitcode_of e ;;
         set_sh_exitcode r ;;
         ret r
       else
         fl <- flags_of e ;;
         set_flags e (clear fl E_EXIT) ;;
         loop_from m e en id t cmds ran st
   end).
Proof. reflexivity. Qed.

Lemma loop_from_runs n e en id t cmds ran st s ran' st' s' :
  loop_runs (loop_test n e t) (eval_tree n e cmds E_LIST) (loop_stop id) e ran st s ran' st' s' ->
  exists m, forall k, loop_from (m + k) e en id t cmds ran st s = loop_end en ran' st' s'.
Proof.
  induction 1 as [ran st s r s' T St|ran st s r s1 q s2 ran' st' s' T St B _ (m & IH)].
  - exists (S n). intros k. apply (loop_test_more n k) in T. change (S n + k)%nat with (S (n + k)).
    rewrite loop_from_S. unfold bind, setjmp. rewrite T, St. reflexivity.
  - exists (S (n + m)). intros k. apply (loop_test_more n (m + k)) in T. rewrite Nat.add_assoc in T.
    assert (B' : eval_tree (n + m + k) e cmds E_LIST s1 = Ret q s2).
    { rewrite <- Nat.add_assoc. now apply more_fuel. }
    change (S (n + m) + k)%nat with (S (n + m + k)).
    rewrite loop_from_S. unfold bind, setjmp. rewrite T, St, B'. unfold exitcode_of, get, ret.
    replace (n + m + k)%nat with (m + (n + k))%nat by lia. apply IH.
Qed.

(** C29: A "while" or "until" loop whose tests and bodies come back and whose
    test ends it after finitely many rounds is evaluated, with every large
    enough fuel: it runs the test, under the suppression of "set -e", and the
    body in turn, pops its frame, and its status is that of the last body. *)
Theorem eval_loop_terminates n e id t cmds s ran st s' :
  let en := List.length (s_frames s) in
  let entry := pushed_jump E_LOOP s in
  let s1 := with_frames (alter (with_flags (clear (f_flags (frame_at e entry)) E_EXIT)) e (s_frames entry)) entry in
  loop_runs (loop_test n e t) (eval_tree n e cmds E_LIST) (loop_stop id) e false 0 s1 ran st s' ->
  exists m, forall k, eval_loop (m + k) e id t cmds s = loop_end en ran st s'.
Proof.
  cbv zeta. intros R. apply (loop_from_runs n e (List.length (s_frames s)) id t cmds) in R as (m & R).
  exists (S m). intros k. change (S m + k)%nat with (S (m + k)). cbn [eval_loop].
  unfold bind at 1, eval_push. unfold bind at 1, update, put.
  cbn [s_frames with_frames]. rewrite alter_snoc. cbn [with_jump f_flags f_exitcode f_mark f_pending f_pendcont].
  exact (R k).
Qed.

End Promises.

(** ** The shell over literal words

    A [World] to run programs on: words are literal text, "$?" or "$name";
    [texts] and [files] say what eval and "." parse. *)

Module Literal.

Record lit := Lit { l_vars : list (bytes * bytes); l_out : list (list bytes) }.

Definition l_value (w : lit) (name : bytes) : bytes :=
  default [] (snd <$> List.find (fun p => bool_decide (fst p = name)) (l_vars w)).

Definition l_set (name value : bytes) (w : lit) : lit := Lit ((name, value) :: l_vars w) (l_out w).

Fixpoint l_text (st : Z) (w : lit) (parts : list node) : bytes :=
  match parts with
  | [] => []
  | nargstr _ s :: parts => s ++ l_text st w parts
  | nargparam _ name _ _ :: parts =>
      (if bool_decide (name = b "?") then Fmt.fmt_longlong st else l_value w name) ++ l_text st w parts
  | _ :: parts => l_text st w parts
  end.

Definition l_word (st : Z) (w : lit) (n : node) : bytes :=
  match n with narg _ _ parts => l_text st w parts | _ => [] end.

Definition builtin_names : list string := ["break"; "continue"; "return"; "exit"; "eval"; "."; "set"; ":"]%string.
Definition ordinary_names : list string := ["true"; "false"; "echo"; "command"]%string.

Definition named (names : list string) (name : bytes) : bool :=
  existsb (fun x => bool_decide (name = b x)) names.

Definition l_builtin (name : bytes) (argv : list bytes) (st : Z) (w : lit) : builtin_end * lit :=
  if is_name name "echo" then (BuiltinEnd 0 None None, Lit (l_vars w) (l_out w ++ [argv]))
  else if is_name name "false" then (BuiltinEnd 1 None None, w)
  else if is_name name "set" then (BuiltinEnd 0 (Some true) None, w)
  else (BuiltinEnd 0 None None, w).

Definition l_lookup (name : bytes) (table : list (string * list (list node))) : option (list (list node)) :=
  snd <$> List.find (fun p => bool_decide (b (fst p) = name)) table.

Definition l_world (asserts : bool) (texts files : list (string * list (list node))) : World lit := {|
  wmark := nat;
  mark := fun w => List.length (l_vars w);
  unwind := fun _ w => w;
  w_expand_args := fun st args w => (Words (map (l_word st w) args) None, w);
  w_expand_text := fun _ st word w =>
    (Words [match word with Some n => l_word st w n | None => [] end] None, w);
  w_positional := fun _ => [];
  w_set_var := l_set;
  w_expand_vars := fun st vars w => (Words (map (l_word st w) vars) None, w);
  w_setsa := fun _ _ _ w => (true, w);
  w_vars_enter := fun _ w => w;
  w_vars_leave := fun w => w;
  w_redir_enter := fun w => w;
  w_redir_word := fun _ _ w => (Words [] None, w);
  w_redirect := fun _ _ _ _ w => (false, w);
  w_redir_leave := fun w => w;
  w_subshell_enter := fun w => w;
  w_subshell_leave := fun before after => Lit (l_vars before) (l_out after);
  w_call_enter := fun _ w => w;
  w_call_leave := fun w => w;
  w_builtin_class := fun name =>
    if named builtin_names name then Some B_SPECIAL
    else if named ordinary_names name then Some B_DEFAULT else None;
  w_executable := fun _ _ => false;
  w_open := fun w => (false, w);
  w_write_reset := fun w => w;
  w_write_error := fun _ => false;
  w_builtin := l_builtin;
  w_program := fun _ _ w => (0, w);
  w_not_found := fun _ w => (127, w);
  w_describe := fun _ w => (0, w);
  w_stdpath := fun w => w;
  w_oldpath := fun _ w => w;
  w_exec_error := fun _ w => (127, w);
  w_background := fun _ w => (0, w);
  w_background_cmd := fun _ w => (0, w);
  w_pipeline := fun _ _ w => (0, w);
  w_time_report := fun _ w => w;
  w_parse := fun text => (default [] (l_lookup text texts), EndLine);
  w_file := fun name _ =>
    match l_lookup name files with Some cmds => Some (false, cmds, EndLine) | None => None end;
  w_source_enter := fun _ w => w;
  w_source_leave := fun _ w => w;
  w_assert := asserts
|}.

(** Programs *)

Definition word (s : bytes) : node :=
  match s with
  | c :: name => if c =? ch "$" then narg N_ARG 0 [nargparam 0 name None 0]
                 else narg N_ARG 0 [nargstr 0 s]
  | [] => narg N_ARG 0 []
  end.

Fixpoint split (s : bytes) : list bytes :=
  match s with
  | [] => [[]]
  | c :: s =>
      let ws := split s in
      if c =? 32 then [] :: ws
      else match ws with [] => [[c]] | w :: ws => (c :: w) :: ws end
  end.

Definition cmd (s : string) : node := ncmd false [] [] (map word (split (b s))).
Definition while_ (t body : list node) : node := nloop N_WHILE false [] body t.
Definition for_ (v ws : string) (body : list node) : node :=
  nfor false true [] body (map word (split (b ws))) (b v).
Definition if_ (t c0 c1 : list node) : node := nif false [] c0 c1 t.
Definition group (body : list node) : node := ngrp N_BRACEGROUP false [] body.
Definition subshell (body : list node) : node := ngrp N_SUBSHELL false [] body.
Definition function_ (f : string) (body : list node) : node := nfunc (b f) (Some (group body)).

Arguments cmd s%_string.
Arguments for_ (v ws)%_string body.
Arguments function_ f%_string body.

(** A shell at the top of a script: one frame, of sh_loop *)
Definition start (asserts : bool) (texts files : list (string * list (list node)))
    : @shell lit (l_world asserts texts files) :=
  @Shell lit (l_world asserts texts files)
    [@Frame lit (l_world asserts texts files) (set E_JCTL E_ROOT) 0 0%nat false 0 false]
    (Env 0 false false false) [] 0 [] false 0 (Lit [] []).

(** How a script ends: its status, or that of [exit]; and what it printed *)
Inductive ending := Ended (st : Z) (out : list string) | Exited (st : Z) (out : list string)
  | Jumped | Aborted | Exhausted.

Definition chars (s : bytes) : string := string_of_list_ascii (map (fun c => ascii_of_N (Z.to_N c)) s).

Definition printed (w : lit) : list string :=
  map (fun ws => String.concat " "%string (map chars ws)) (l_out w).

Definition script_with (asserts : bool) (texts files : list (string * list (list node)))
    (nodes : list node) : ending :=
  match @eval_tree lit (l_world asserts texts files) 60 0 nodes E_LIST (start asserts texts files) with
  | Ret st s => Ended st (printed (s_world s))
  | Exit st s => Exited st (printed (s_world s))
  | Jump _ _ _ => Jumped
  | Abort => Aborted
  | NoFuel => Exhausted
  end.

Definition script : list node -> ending := script_with false [] [].

End Literal.

Import Literal.

(** ** Behaviour worth knowing *)

Section Samples.
#[local] Open Scope string_scope.

(** "break" in a condition leaves "set -e" off for the rest of the script. *)
Example break_disables_errexit :
  script [cmd "set -e"; while_ [cmd "break"] [cmd ":"]; cmd "false"; cmd "echo here"] = Ended 0 ["here"] /\
  script [cmd "set -e"; cmd "false"; cmd "echo here"] = Exited 1 [].
Proof. vm_compute. split; reflexivity. Qed.

(** The status of a loop left by "break" is that of the command before. *)
Example break_keeps_status : script [while_ [cmd "true"] [cmd "false"; cmd "break"]] = Ended 1 [].
Proof. vm_compute. reflexivity. Qed.

(** An else part that starts with an "if" loses the rest of its commands. *)
Example else_if_loses_commands :
  script [if_ [cmd "false"] [cmd ":"] [if_ [cmd "true"] [cmd "echo a"] []; cmd "echo lost"]] = Ended 0 ["a"].
Proof. vm_compute. reflexivity. Qed.

(** "$?" at the start of a function is 0; at the start of a subshell it is
    inherited. *)
Example function_forgets_status :
  script [function_ "f" [cmd "echo $?"]; cmd "false"; cmd "f"] = Ended 0 ["0"] /\
  script [cmd "false"; subshell [cmd "echo $?"]] = Ended 0 ["1"].
Proof. vm_compute. split; reflexivity. Qed.

(** "set -e" in a function ends with the function. *)
Example function_options_lost :
  script [function_ "f" [cmd "set -e"]; cmd "f"; cmd "false"; cmd "echo here"] = Ended 0 ["here"].
Proof. vm_compute. reflexivity. Qed.

(** "exit" in a "." file leaves the file only. *)
Example source_exit_continues :
  script_with false [] [("file", [[cmd "exit 3"]])] [cmd ". file"; cmd "echo $?"] = Ended 0 ["3"].
Proof. vm_compute. reflexivity. Qed.

(** "break" in a "." file reaches the caller's loop, unless assertions are
    compiled in. *)
Example source_break :
  let nodes := [while_ [cmd "true"] [cmd ". file"; cmd "echo not"]; cmd "echo after"] in
  script_with false [] [("file", [[cmd "break"]])] nodes = Ended 0 ["after"] /\
  script_with true [] [("file", [[cmd "break"]])] nodes = Aborted.
Proof. vm_compute. split; reflexivity. Qed.

(** The status of "return" is not reduced to a byte. *)
Example return_not_masked :
  script [function_ "f" [cmd "return 256"]; cmd "f"; cmd "echo $?"] = Ended 0 ["256"].
Proof. vm_compute. reflexivity. Qed.

(** A jump out of "command" leaves exec_via_command set: the error of a
    special builtin behind it does not end the shell any more. *)
Example via_command_stays :
  script [while_ [cmd "true"] [cmd "command break"]; cmd "return x"; cmd "echo here"] = Ended 0 ["here"] /\
  script [while_ [cmd "true"] [cmd "break"]; cmd "return x"; cmd "echo here"] = Exited 1 [].
Proof. vm_compute. split; reflexivity. Qed.

(** "command" takes a status of 126 and above for a failed exec. *)
Example command_loses_status :
  script_with false [("f
", [[cmd "f"]])] [] [function_ "f" [cmd "return 200"]; cmd "command eval f"; cmd "echo $?"] = Ended 0 ["127"].
Proof. vm_compute. reflexivity. Qed.

(** Jumps across frames end where they should. *)
Example jumps :
  script [for_ "x" "a b c" [for_ "y" "1 2" [cmd "echo $x"; cmd "continue 2"]; cmd "echo not"]] =
    Ended 0 ["a"; "b"; "c"] /\
  script [function_ "f" [for_ "x" "a b" [cmd "echo $x"; cmd "return 3"]]; cmd "f"; cmd "echo $?"] =
    Ended 0 ["a"; "3"] /\
  script [function_ "f" [cmd "exit 4"]; subshell [cmd "f"; cmd "echo not"]; cmd "echo $?"] =
    Ended 0 ["4"] /\
  script [function_ "f" [cmd "break"; cmd "echo in"]; while_ [cmd "f"] [cmd "echo body"; cmd "break"]] =
    Ended 0 ["in"; "body"] /\
  script_with false [("break ", [])] [] [while_ [cmd "true"] [subshell [cmd "break"; cmd "echo sub"]; cmd "exit 5"]] =
    Exited 5 ["sub"].
Proof. vm_compute. repeat split. Qed.
End Samples.

(** ** The properties at work *)

Section Witnesses.

#[local] Instance sample : World lit := l_world false [] [].

Definition top : shell lit := start false [] [].

Lemma wf_top : wf top.
Proof.
  split; [|reflexivity]. constructor; [|constructor]. split; intros X; vm_compute in X; discriminate.
Qed.

(** What an outcome is, without its state *)
Definition returned (o : outcome Z) : option Z := match o with Ret r _ => Some r | _ => None end.
Definition jumped_to (o : outcome Z) : option (nat * Z) := match o with Jump t v _ => Some (t, v) | _ => None end.
Definition exhausted (o : outcome Z) : bool := match o with NoFuel => true | _ => false end.

Lemma returned_inv (o : outcome Z) r : returned o = Some r -> exists s', o = Ret r s'.
Proof. destruct o as [a s| | | |]; try discriminate. intros [= <-]. now exists s. Qed.

Definition after (o : outcome Z) : shell lit := match o with Ret _ s => s | _ => top end.

Lemma returned_after (o : outcome Z) r : returned o = Some r -> o = Ret r (after o).
Proof. destruct o as [a s| | | |]; try discriminate. now intros [= <-]. Qed.

Lemma jumped_to_inv (o : outcome Z) t v : jumped_to o = Some (t, v) -> exists s', o = Jump t v s'.
Proof. destruct o as [|t' v' s| | |]; try discriminate. intros [= <- <-]. now exists s. Qed.

Lemma not_exhausted (o : outcome Z) : exhausted o = false -> o <> NoFuel.
Proof. now destruct o. Qed.

(** Inside a loop at the top *)
Definition in_loop : shell lit := pushed_jump E_LOOP top.

Lemma wf_in_loop : wf in_loop.
Proof.
  assert (X : ext true false top in_loop).
  { exact (ext_pushed_jump E_LOOP top eq_refl (or_introl eq_refl) (fun E => match Bool.diff_false_true E with end)). }
  exact (ext_wf top in_loop X (tight_pushed_jump E_LOOP top) wf_top).
Qed.

Definition nested : list node :=
  [function_ "f" [for_ "x" "a b" [cmd "echo $x"; cmd "return 3"]];
   while_ [cmd "true"] [subshell [cmd "f"; cmd "exit 2"]; cmd "break"]].

Lemma eval_tree_keeps_stacks_witness :
  exists s', eval_tree 60 0 nested E_LIST top = Ret 2 s' /\
    List.length (s_frames s') = 1%nat /\ s_parents s' = [] /\ wf s'.
Proof.
  destruct (returned_inv (eval_tree 60 0 nested E_LIST top) 2) as (s' & E); [vm_compute; reflexivity|].
  pose proof (eval_tree_keeps_stacks 60 0 nested top 2 s' wf_top E) as (Le & _ & _ & Pa & _ & Wf).
  exists s'. auto.
Defined.

Lemma eval_tree_jump_target_witness :
  exists s' f, eval_tree 60 1 [cmd "break"; cmd "echo not"] E_LIST in_loop = Jump 1 1 s' /\
    s_frames in_loop !! 1%nat = Some f /\ f_jump f = true /\ s_parents s' = [].
Proof.
  destruct (jumped_to_inv (eval_tree 60 1 [cmd "break"; cmd "echo not"] E_LIST in_loop) 1 1) as (s' & E);
    [vm_compute; reflexivity|].
  pose proof (eval_tree_jump_target 60 1 _ in_loop 1 1 s' wf_in_loop E) as (f & L & Ju & _ & _ & Pa).
  exists s', f. auto.
Defined.

Lemma eval_tree_no_assertion_witness :
  w_assert (W := lit) = false /\ eval_tree 60 0 nested E_LIST top <> Abort.
Proof. split; [reflexivity|]. apply (eval_tree_no_assertion 60 0 nested top wf_top). left. reflexivity. Defined.


Lemma call_function_contained_witness :
  exists s', call_function 60 (group [while_ [cmd "true"] [cmd "return 7"]]) [b "f"] in_loop = Ret 7 s' /\
    s_env s' = s_env in_loop /\ List.length (s_frames s') = 2%nat.
Proof.
  pose proof (call_function_contained 60 (group [while_ [cmd "true"] [cmd "return 7"]]) [b "f"]
    in_loop wf_in_loop) as X.
  destruct (returned_inv (call_function 60 (group [while_ [cmd "true"] [cmd "return 7"]]) [b "f"] in_loop) 7)
    as (s' & E); [vm_compute; reflexivity|].
  rewrite E in X. destruct X as (En & _ & Le). exists s'. auto.
Defined.

Lemma sh_exit_never_returns_witness :
  exists s', sh_exit 3 in_loop = Exit 3 s' /\ Forall no_root (s_frames in_loop).
Proof.
  pose proof (sh_exit_never_returns 3 in_loop wf_in_loop) as X.
  exists in_loop. split; [reflexivity|]. exact (proj2 X).
Defined.

Definition in_loops : shell lit := pushed_jump E_LOOP in_loop.

Lemma eval_jump_nth_witness :
  exists s', eval_jump 5 true in_loops = Jump 1 2 s' /\ List.length (s_frames s') = 2%nat.
Proof.
  destruct (eval_jump_nth 5 true in_loops 1 eq_refl) as (s' & E & Fr & _).
  exists s'. split; [exact E|]. rewrite Fr. reflexivity.
Defined.

Lemma eval_tree_fuel_irrelevant_witness :
  eval_tree 60 0 nested E_LIST top = eval_tree 90 0 nested E_LIST top.
Proof.
  apply (eval_tree_fuel_irrelevant 60 90 0 nested E_LIST top);
    apply not_exhausted; vm_compute; reflexivity.
Defined.

(** A loop whose body changes its test: "f" is redefined to fail. *)
Definition once : list node := [function_ "f" [cmd "false"]; cmd "echo body"].

Definition redefinable : shell lit := with_functions [(b "f", Some (group [cmd "true"]))] top.
Definition once_0 : shell lit :=
  let entry := pushed_jump E_LOOP redefinable in
  with_frames (alter (with_flags (clear (f_flags (frame_at 0 entry)) E_EXIT)) 0%nat (s_frames entry)) entry.
Definition once_1 : shell lit := after (loop_test 40 0 [cmd "f"] once_0).
Definition once_2 : shell lit := after (eval_tree 40 0 once E_LIST once_1).
Definition once_3 : shell lit := after (loop_test 40 0 [cmd "f"] once_2).

Lemma eval_loop_terminates_witness :
  printed (s_world once_3) = ["body"%string] /\
  exists m, forall k, eval_loop (m + k) 0 N_WHILE [cmd "f"] once redefinable =
    loop_end 1 true (f_exitcode (frame_at 0 once_2)) once_3.
Proof.
  split; [vm_compute; reflexivity|].
  apply (eval_loop_terminates 40 0 N_WHILE [cmd "f"] once redefinable).
  apply (loop_next _ _ _ _ _ _ once_0 0 once_1 0 once_2).
  - apply returned_after. vm_compute. reflexivity.
  - reflexivity.
  - apply returned_after. vm_compute. reflexivity.
  - apply (loop_done _ _ _ _ _ _ once_2 1 once_3); [|reflexivity].
    apply returned_after. vm_compute. reflexivity.
Defined.

(** The text of a word without parameters *)
Definition literal_text (n : node) : bytes := l_word 0 (Lit [] []) n.

#[local] Instance plain_words : World lit :=
  {| wmark := nat; mark := @mark lit sample; unwind := @unwind lit sample;
     w_expand_args := @w_expand_args lit sample;
     w_expand_text := fun _ _ word w =>
       (Words [match word with Some n => literal_text n | None => [] end] None, w);
     w_positional := @w_positional lit sample; w_set_var := @w_set_var lit sample;
     w_expand_vars := @w_expand_vars lit sample; w_setsa := @w_setsa lit sample; w_vars_enter := @w_vars_enter lit sample;
     w_vars_leave := @w_vars_leave lit sample; w_redir_enter := @w_redir_enter lit sample;
     w_redir_word := @w_redir_word lit sample; w_redirect := @w_redirect lit sample; w_redir_leave := @w_redir_leave lit sample;
     w_subshell_enter := @w_subshell_enter lit sample; w_subshell_leave := @w_subshell_leave lit sample;
     w_call_enter := @w_call_enter lit sample; w_call_leave := @w_call_leave lit sample;
     w_builtin_class := @w_builtin_class lit sample; w_executable := @w_executable lit sample;
     w_open := @w_open lit sample; w_write_reset := @w_write_reset lit sample;
     w_write_error := @w_write_error lit sample; w_builtin := @w_builtin lit sample;
     w_program := @w_program lit sample; w_not_found := @w_not_found lit sample;
     w_describe := @w_describe lit sample; w_stdpath := @w_stdpath lit sample; w_oldpath := @w_oldpath lit sample;
     w_exec_error := @w_exec_error lit sample;
     w_background := @w_background lit sample; w_background_cmd := @w_background_cmd lit sample;
     w_pipeline := @w_pipeline lit sample; w_time_report := @w_time_report lit sample;
     w_parse := @w_parse lit sample; w_file := @w_file lit sample;
     w_source_enter := @w_source_enter lit sample; w_source_leave := @w_source_leave lit sample;
     w_assert := false |}.

Definition clause (p c : string) : node := ncasenode [word (b p)] [cmd c].


End Witnesses.
